(* ===== verification/_CoqProject ===== *)
-Q . S2P
Prelude.v
Threads.v
GoStrings.v
GoNet.v
PolicyMatcher.v
PolicyCache.v
PolicyWatch.v
ForwardPlane.v
ForwardInv.v
ForwardTypes.v
ForwardAuth.v
ForwardProps.v
ForwardRun.v
ForwardSession.v
ForwardCtrl.v
EdgeTables.v
ResumeMatcher.v
ResumeLive.v
Fleet.v
Registry.v
AuditQueue.v
Splice.v
Intra.v
Listener.v
Operations.v
ServerState.v
OpenStream.v
OpenSpec.v
WatchLoop.v
DrainLoop.v
OpenProps.v
Daemon.v
Control.v
Relay.v
RelayProps.v
RelayLive.v
