(* ===== verification/Prelude.v ===== *)
(** * outrelay-relay: a verification development

    A relay accepts agents over mutually authenticated QUIC, registers the services
    they provide with a controller, and connects a consumer's stream to a
    provider's: by splicing the two streams, by granting both agents an allocation
    on a UDP forwarding plane, or by forwarding to the relay the provider is on.
    Policy rules pushed by the controller decide which streams are allowed and how
    they flow; streams survive the loss of a relay by being resumed on another.

    ** Parts and files

    Pure Go code is a function here, with Go's machine integers as [Z] and their
    wrap-around written out, time as nanoseconds in [Z], and [time.Now()] an
    argument.  Maps are [gmap]s; where the code ranges over a map, the order is an
    argument with a permutation law.  A panic, an endless wait or an unfinished
    loop is a value of [exec].  Goroutines that share state are, inside a component,
    step functions over its state (one event per move between two blocking points)
    with reachability as an inductive relation; the handlers that touch several
    components are programs over the whole [Server].

    Shared by the components:
    - [Threads]: programs that give up the processor between their steps, a
      rely-guarantee logic for them, pools of them with their interleavings, and
      fair executions.
    - [GoStrings], [GoNet]: the functions of Go's [strings], [net] and [strconv]
      that are used, and [splitAddr] with its round trip.

    The components:
    - [PolicyMatcher] ([pkg/policy/matcher.go]): rules, globs, snapshots, the
      engine and its updates.  [Decide_first_match] and [matchGlob_correct] give
      the decision procedure a declarative meaning; [allow_has_rule] ties every
      allow to a live rule; [Decide_order_independent], and
      [any_applicable_rule_may_win], say when the map order of the rules shows;
      [Apply_publish_race] is a lost update.
    - [PolicyCache] ([pkg/policy/cache.go], [Server.evaluate]): the decision cache,
      its capacity ([cache_bounded]) and how stale an answer can be when
      evaluations, updates and flushes interleave ([evaluate_bounded_staleness]).
    - [PolicyWatch] ([pkg/policy/client.go]): the watcher with its reconnect loop.
      [Watcher_converges] relates the engine to the rule set the controller
      describes, whatever attempts failed before; [Watcher_outage] says that an
      outage changes nothing and how often the controller is tried.
    - [ForwardPlane] ([pkg/forward/plane.go]): the operations of the UDP plane.
      [ForwardInv] proves its invariant over all runs, [ForwardTypes] that every
      field keeps its Go type, [ForwardAuth] that only the owner's punch binds an
      allocation, [ForwardProps] what each operation does, the wire format
      included, and [ForwardSession] that two agents get connected amid arbitrary
      other traffic, by simulating an automaton of one side's registration.
      [ForwardRun] has the loops of [Run] and [gcLoop], and the data path in the
      steps others can come between: [data_delivery] relates it to the atomic turn,
      [torn_address] is the read it leaves unprotected, [retention] says what keeps
      an allocation from the collector.
    - [ForwardCtrl] ([pkg/edge/forward_resume.go], [handleForwardRegister] and
      [driveForwardResume] of [pkg/edge/edge.go]): the control half of forward
      mode; progress of the matcher and the grants it makes.
    - [EdgeTables] (the pair table of [edge.go], [pkg/edge/migrate.go]): routing
      rows and recently migrated streams.
    - [ResumeMatcher] ([pkg/edge/resume.go], [handleResumeHalf],
      [handleMigrateToRelay], [splicePair]): resumed streams as a system of
      goroutines with channels and timers: safety, pairing, the window, the
      echoed counters, and a wake-up that can be lost.  [ResumeLive] has its fair
      executions: losing the wake-up is the only way in which a handler can fail to
      return ([resume_ends]).
    - [Fleet] ([pkg/registry/fleet.go]): the successor list and the heartbeat.
    - [Registry] ([pkg/registry/registry.go], the life of a connection): the agent
      directory under all interleavings of connects and teardowns; [Listener]
      ([Server.Run], [RunListener], [serveConn], [servePeerRelay]): the accept
      loops and the goroutine of a connection, whose steps on the shared tables are
      shown to be those of [Registry], never blocked by other connections.
    - [AuditQueue] ([pkg/audit/emitter.go]), [Splice] ([pkg/splice/splice.go]), [Intra]
      ([pkg/intra/pool.go]): the audit queue, the byte pump with Go's
      [io.CopyBuffer], the pool of peer connections.

    The relay:
    - [ServerState] ([Server], [New], the metrics of [edge.go]): the shared state,
      made of the states of the components.
    - [OpenStream] ([handleConsumerStream], [handleForwardedStream] and their
      callees, resumed and migrated streams included): the stream handlers as
      programs with [defer].  [OpenSpec] is an abstract protocol of traces with the
      refinement proof; its class [StreamInv] is what the handlers ask of the rest
      of the relay, including that its engine holds received rules only.  The protocol
      depends on what the peers answer, so that it says when a stream is answered.
      [OpenProps] derives what matters from it: policy before
      provider, release of everything acquired, one verdict per stream.
    - [WatchLoop], [DrainLoop]: the watcher and [Server.Drain] as goroutines over
      the [Server], refining [PolicyWatch] and [Operations].  The watcher notes each
      rule it receives in a history ([sv_received]) that the code does not have and
      nothing reads, as the evaluations do their decisions ([sv_decided]).
    - [Control] ([controlLoop] and the handlers of control frames,
      [enforceRequiredPromotion]) and [Operations] ([Server.Drain],
      [pkg/edge/drain.go], helpers of [main.go]).
    - [Daemon] ([cmd/outrelay-relay/main.go]): startup, TLS, signals, and the list
      of successors between the first registration and the heartbeat.
    - [Relay]: all of it together.  Stream handlers, watcher and drains are
      goroutines, everything else (connections, control frames, packets, timers, collector,
      audit shipper, heartbeat) is an event, and a run is any interleaving; the
      server a run starts from is the one [Daemon] builds.  [RelayProps] shows that
      every component stays within its own development ([relay_refines], which
      makes the theorems of the components theorems about the relay), that nothing
      panics or gets stuck ([relay_safe]), that nothing outlives the stream that
      acquired it ([relay_no_leaks]) and work can always be finished
      ([relay_winds_down]), that a verdict is a recent decision of the engine then in
      force, and an allow the effect of a rule received ([relay_verdicts]), addresses
      bound by their owners only ([relay_bindings]), and control frames passed on
      only between the ends of a stream the policies allow ([relay_isolation]);
      [resume_skips_policy] is the way around that.  [RelayLive] shows what happens in
      every fair execution: handlers end and an unused relay becomes idle
      ([relay_fair]), a drain ends and leaves no agent out ([relay_drains]), and the
      caller of a stream is told what became of it ([relay_answers]).

    How they fit together: the handlers of [OpenStream] and [Control] call the
    policy files, [Registry], [EdgeTables], [ForwardPlane], [ForwardCtrl],
    [ResumeMatcher], [AuditQueue] and [Intra] through the very definitions those
    files prove things about, on the parts of one [Server].

    ** Parameters

    Code outside the repository is a parameter: the numbers of the protobuf enums
    ([PBEnums]), the identity parser ([Identity]), the controller (a function from
    requests to answers), [time.ParseDuration], the file system and the PEM decoder
    ([pki]), and the network, whose answers are inputs.  [slices.SortFunc] is a class
    with the library's contract ([SortFunc]), since the order of equal elements is
    unspecified.  Each class has an instance that the witnesses use.

    ** Bounds and fuel

    The only loops that are not structural are [Allocate]'s search for a non-zero
    id, which takes at most two turns (fuel 2, and [Allocate_spec] shows it is
    never exhausted), and [TrimSpace], which shortens its argument every turn (fuel
    its length).  Waits are sequences of inputs, and a wait that has not ended is
    [None] or [Blocked], so a statement that something completes is proved as such.

    ** Not modelled

    Sockets, the flag parser, logging, x509 and the gRPC transport, which are
    libraries; the getters that only expose a field ([Server.Registry],
    [Plane.Endpoint], [AgentConn.AgentURI]); the registry that serves the metrics.  Framing
    and protobuf encoding live in another repository, so frames arrive decoded, or as
    the fact that they could not be.  Bytes on a spliced stream are modelled in
    [Splice]; the handlers only learn how many there were.

    ** Notes for extending it

    Natural next steps: connections as goroutines in place of the session events
    that [Listener] justifies, the data path of [ForwardRun] inside [Relay], the
    executions of [ResumeLive] as those of the handlers in [RelayLive], the UTF-8 view
    of the glob matcher, and a byte-level model of the frames once their encoding is
    available. *)

From stdpp Require Export base tactics option list gmap fin_maps fin_sets strings sorting.
From Stdlib Require Export ZArith Lia.

(** ** Notation *)

Declare Scope relay_scope.
Delimit Scope relay_scope with relay.
Open Scope Z_scope.

(** ** Outcomes of fallible code

    A Go function either returns, panics, blocks for ever, or (for a loop
    translated with fuel) has not finished within the fuel it was given. *)

Inductive exec (A : Type) : Type :=
  | Ret (a : A)
  | Panic (msg : string)
  | Blocked
  | OutOfFuel.
Arguments Ret {A} a.
Arguments Panic {A} msg.
Arguments Blocked {A}.
Arguments OutOfFuel {A}.

(** ** Machine integers *)

(** [u32 z] is [z] truncated to a Go [uint32]; [u64] to a [uint64]. *)
Definition u32 (z : Z) : Z := z mod 2 ^ 32.
Definition u64 (z : Z) : Z := z mod 2 ^ 64.

(** [i64 z] is [z] truncated to a Go [int64] (two's complement). *)
Definition i64 (z : Z) : Z := (z + 2 ^ 63) mod 2 ^ 64 - 2 ^ 63.

Lemma u32_range z : 0 <= u32 z < 2 ^ 32.
Proof. apply Z.mod_pos_bound; lia. Qed.

Lemma u32_small z : 0 <= z < 2 ^ 32 -> u32 z = z.
Proof. apply Z.mod_small. Qed.

Lemma u64_range z : 0 <= u64 z < 2 ^ 64.
Proof. apply Z.mod_pos_bound; lia. Qed.

Lemma u64_small z : 0 <= z < 2 ^ 64 -> u64 z = z.
Proof. apply Z.mod_small. Qed.

Lemma i64_small z : - 2 ^ 63 <= z < 2 ^ 63 -> i64 z = z.
Proof. intros H. unfold i64. rewrite Z.mod_small; lia. Qed.

(** Going through a signed 64-bit integer loses nothing of an unsigned one. *)
Lemma u64_i64 z : u64 (i64 z) = u64 z.
Proof.
  unfold u64, i64. rewrite Zminus_mod_idemp_l. f_equal. lia.
Qed.

(** The development's hint database: ranges of machine integers here, and the
    closure lemmas of the trace predicates where they are proved. *)
Create HintDb relay.
#[export] Hint Resolve u32_range u64_range u32_small u64_small i64_small : relay.
#[export] Hint Rewrite u64_i64 : relay.

(** ** Time

    [time.Time] and [time.Duration] are nanosecond counts in [Z]; [time.Now()]
    is an argument of every operation that reads the clock. *)

Notation Time := Z (only parsing).
Notation Duration := Z (only parsing).

Definition Millisecond : Duration := 1000000.
Definition Second : Duration := 1000 * Millisecond.

(** [t.UnixMilli()]: floor division, as the Go library does. *)
Definition UnixMilli (t : Time) : Z := t / Millisecond.

(** ** Tactics *)

(** Case analysis on the scrutinee of the first [match] or [if] in the goal or
    in a hypothesis, keeping the equation. *)
Ltac split_match :=
  match goal with
  | |- context [match ?x with _ => _ end] => destruct x eqn:?
  | H : context [match ?x with _ => _ end] |- _ => destruct x eqn:?
  end.

(** A lookup of [k] in a map updated at [r]: it is the new value, or the old map's. *)
Ltac insert_cases k r :=
  destruct (decide (k = r)) as [->|?]; [rewrite lookup_insert_eq|rewrite lookup_insert_ne by done].

(** Turn boolean comparisons in hypotheses into propositions. *)
Ltac bool_to_prop :=
  repeat match goal with
  | H : (_ && _)%bool = true |- _ => apply andb_true_iff in H; destruct H
  | H : (_ || _)%bool = false |- _ => apply orb_false_iff in H; destruct H
  | H : negb _ = true |- _ => apply negb_true_iff in H
  | H : negb _ = false |- _ => apply negb_false_iff in H
  | H : (_ <? _)%Z = true |- _ => apply Z.ltb_lt in H
  | H : (_ <? _)%Z = false |- _ => apply Z.ltb_ge in H
  | H : (_ <=? _)%Z = true |- _ => apply Z.leb_le in H
  | H : (_ <=? _)%Z = false |- _ => apply Z.leb_gt in H
  | H : (_ =? _)%Z = true |- _ => apply Z.eqb_eq in H
  | H : (_ =? _)%Z = false |- _ => apply Z.eqb_neq in H
  | H : (_ =? _)%string = true |- _ => apply String.eqb_eq in H
  | H : (_ =? _)%string = false |- _ => apply String.eqb_neq in H
  | H : bool_decide _ = true |- _ => apply bool_decide_eq_true in H
  | H : bool_decide _ = false |- _ => apply bool_decide_eq_false in H
  end.
