(* ===== verification/Threads.v ===== *)
(** * Threads: goroutines as programs over a shared state

    A goroutine is a [prog]: a sequence of atomic steps on a shared state, each of
    which may emit events; a step that returns [Blocked] is one the goroutine
    waits for.  [run] executes one program while its environment changes the state
    before every step; [wp] is a program logic for it, in the style of
    rely/guarantee; [pstep] interleaves any number of goroutines with each other
    and with steps of the environment.  [threads_sound] carries what [wp] proves of
    one program over to every interleaving. *)

From S2P Require Import Prelude.

(** ** Programs *)

Section Prog.
Context {St Ev : Type}.

Inductive prog (A : Type) : Type :=
  | Done (a : A)
  | Step (f : St -> exec (St * list Ev * prog A)).
Arguments Done {A} a.
Arguments Step {A} f.

Section prog_ind.
Context {A : Type} (P : prog A -> Prop).
Hypothesis HDone : forall a, P (Done a).
Hypothesis HStep : forall f, (forall s s' es p, f s = Ret (s', es, p) -> P p) -> P (Step f).

(** Induction: a step may rely on the property for every program it leads to. *)
Fixpoint prog_induction (p : prog A) : P p :=
  match p with
  | Done a => HDone a
  | Step f => HStep f (fun s s' es q H =>
      match f s as o return o = Ret (s', es, q) -> P q with
      | Ret (s1, es1, q1) => fun E =>
          match E in _ = r return match r with Ret (_, _, q0) => P q0 | _ => True end with
          | eq_refl => prog_induction q1
          end
      | Panic _ | Blocked | OutOfFuel => fun E =>
          match E in _ = r return match r with Ret (_, _, q0) => P q0 | _ => True end with
          | eq_refl => I
          end
      end H)
  end.
End prog_ind.

Fixpoint prog_bind {A B} (p : prog A) (k : A -> prog B) : prog B :=
  match p with
  | Done a => k a
  | Step f => Step (fun s =>
      match f s with
      | Ret (s', es, p') => Ret (s', es, prog_bind p' k)
      | Panic m => Panic m
      | Blocked => Blocked
      | OutOfFuel => OutOfFuel
      end)
  end.

#[global] Instance prog_mret : MRet prog := fun A a => Done a.
#[global] Instance prog_mbind : MBind prog := fun A B k p => prog_bind p k.

(** One atomic step with a result. *)
Definition atom {A} (f : St -> exec (A * St * list Ev)) : prog A :=
  Step (fun s =>
    match f s with
    | Ret (a, s', es) => Ret (s', es, Done a)
    | Panic m => Panic m
    | Blocked => Blocked
    | OutOfFuel => OutOfFuel
    end).

Definition read {A} (g : St -> A) : prog A := atom (fun s => Ret (g s, s, [])).
Definition write (g : St -> St) : prog unit := atom (fun s => Ret (tt, g s, [])).
Definition act (e : Ev) : prog unit := atom (fun s => Ret (tt, s, [e])).

(** A point at which the goroutine waits for the network or for a peer. *)
Definition pause : prog unit := atom (fun s => Ret (tt, s, [])).

(** [defer cleanup] around the rest of a function. *)
Definition defer {A} (cleanup : prog unit) (body : prog A) : prog A := r ← body; cleanup;; mret r.

(** ** One goroutine and its environment *)

Record world := mkWorld { w_server : St; w_trace : list Ev; w_turn : nat }.

(** [others n] is what the environment does to the state before the [n]-th step. *)
Fixpoint run (others : nat -> St -> St) {A} (p : prog A) (w : world) : exec (A * world) :=
  match p with
  | Done a => Ret (a, w)
  | Step f =>
      match f (others (w_turn w) (w_server w)) with
      | Ret (s, es, p') => run others p' (mkWorld s (w_trace w ++ es) (S (w_turn w)))
      | Panic m => Panic m
      | Blocked => Blocked
      | OutOfFuel => OutOfFuel
      end
  end.

Lemma run_bind others {A B} (p : prog A) (k : A -> prog B) w :
  run others (p ≫= k) w =
    match run others p w with
    | Ret (a, w') => run others (k a) w'
    | Panic m => Panic m
    | Blocked => Blocked
    | OutOfFuel => OutOfFuel
    end.
Proof.
  unfold mbind, prog_mbind. revert w. induction p as [a|f IH] using prog_induction; intros w; simpl; [done|].
  destruct (f _) as [[[s es] p']| | |] eqn:E; try done. by eapply IH.
Qed.

(** ** The program logic

    [wps I R G b p Q s]: the program [p], last active in the state [s], may be
    resumed at any moment at which the shared state satisfies [I] and has evolved
    from [s] by [R], the rely.  It never panics, keeps [I] itself, relates the
    states before and after each of its steps, and the events of the step, by [G],
    the guarantee; and if it ends, its result, its trace and the state then satisfy
    [Q].  With [b = false] it also never waits. *)
Fixpoint wps (I : St -> Prop) (R : St -> St -> Prop) (G : St -> list Ev -> St -> Prop) (b : bool) {A}
    (p : prog A) (Q : A -> list Ev -> St -> Prop) (s0 : St) : Prop :=
  match p with
  | Done a => Q a [] s0
  | Step f => forall s, I s -> R s0 s ->
      match f s with
      | Ret (s', es, p') => I s' /\ G s es s' /\ wps I R G b p' (fun a tr => Q a (es ++ tr)) s'
      | Blocked => b = true
      | Panic _ | OutOfFuel => False
      end
  end.

(** From whatever state, with a postcondition on the result and the trace only. *)
Definition wp I R G b {A} (p : prog A) (Q : A -> list Ev -> Prop) : Prop :=
  forall s, wps I R G b p (fun a tr _ => Q a tr) s.

Section Rules.
Context (I : St -> Prop) (R : St -> St -> Prop) (G : St -> list Ev -> St -> Prop) (b : bool).
Context `{!PreOrder R}.

Lemma wps_weaken {A} (p : prog A) (Q Q' : A -> list Ev -> St -> Prop) s0 :
  wps I R G b p Q s0 -> (forall a tr s, Q a tr s -> Q' a tr s) -> wps I R G b p Q' s0.
Proof.
  revert Q Q' s0. induction p as [a|f IH] using prog_induction; intros Q Q' s0 Hp HQ; simpl in *; [auto|].
  intros s Hs Hr. specialize (Hp s Hs Hr). destruct (f s) as [[[s' es] p']| | |] eqn:E; try done.
  destruct Hp as (? & ? & Hp). split_and!; [done..|]. eapply IH; [done..|]. simpl. auto.
Qed.

Lemma wps_bind {A B} (p : prog A) (k : A -> prog B) Q s0 :
  wps I R G b p (fun a tr => wps I R G b (k a) (fun y tr' => Q y (tr ++ tr'))) s0 ->
  wps I R G b (p ≫= k) Q s0.
Proof.
  unfold mbind, prog_mbind. revert Q s0.
  induction p as [a|f IH] using prog_induction; intros Q s0 Hp; simpl in *; [done|].
  intros s Hs Hr. specialize (Hp s Hs Hr). destruct (f s) as [[[s' es] p']| | |] eqn:E; try done.
  destruct Hp as (? & ? & Hp). split_and!; [done..|]. eapply IH; [done|]. eapply wps_weaken; [done|]. simpl.
  intros a tr s1 Hk. eapply wps_weaken; [done|]. simpl. intros y tr' s2. by rewrite List.app_assoc.
Qed.

Lemma wps_atom {A} (f : St -> exec (A * St * list Ev)) (Q : A -> list Ev -> St -> Prop) s0 :
  (forall s, I s -> R s0 s ->
     match f s with
     | Ret (a, s', es) => I s' /\ G s es s' /\ Q a es s'
     | Blocked => b = true
     | Panic _ | OutOfFuel => False
     end) ->
  wps I R G b (atom f) Q s0.
Proof.
  intros Hf. simpl. intros s Hs Hr. specialize (Hf s Hs Hr). destruct (f s) as [[[a s'] es]| | |]; try done.
  cbn. by rewrite List.app_nil_r.
Qed.

(** The environment's moves do not matter to a program that is not running. *)
Lemma wps_env {A} (p : prog A) (Q : A -> list Ev -> Prop) s0 s1 :
  wps I R G b p (fun a tr _ => Q a tr) s0 -> R s0 s1 -> wps I R G b p (fun a tr _ => Q a tr) s1.
Proof. destruct p as [a|f]; simpl; [done|]. intros Hf Hr s Hs Hr'. apply Hf; [done|]. by etrans. Qed.

Lemma wp_wps {A} (p : prog A) (Q : A -> list Ev -> St -> Prop) Q' s0 :
  wp I R G b p Q' -> (forall a tr s, Q' a tr -> Q a tr s) -> wps I R G b p Q s0.
Proof. intros Hp HQ. eapply wps_weaken; [apply Hp|]. simpl. auto. Qed.

Lemma wp_weaken {A} (p : prog A) (Q Q' : A -> list Ev -> Prop) :
  wp I R G b p Q -> (forall a tr, Q a tr -> Q' a tr) -> wp I R G b p Q'.
Proof. intros Hp HQ s. eapply wps_weaken; [apply Hp|]. simpl. auto. Qed.

Lemma wp_seq {A B} (p : prog A) (k : A -> prog B) Q1 Q :
  wp I R G b p Q1 -> (forall a tr, Q1 a tr -> wp I R G b (k a) (fun y tr' => Q y (tr ++ tr'))) ->
  wp I R G b (p ≫= k) Q.
Proof. intros Hp Hk s. apply wps_bind. eapply wps_weaken; [apply Hp|]. simpl. intros a tr s1 Ha. by apply Hk. Qed.

Lemma wp_ret {A} (a : A) (Q : A -> list Ev -> Prop) : Q a [] -> wp I R G b (mret a) Q.
Proof. intros HQ s. exact HQ. Qed.

Lemma wp_atom {A} (f : St -> exec (A * St * list Ev)) (Q : A -> list Ev -> Prop) :
  (forall s, I s ->
     match f s with
     | Ret (a, s', es) => I s' /\ G s es s' /\ Q a es
     | Blocked => b = true
     | Panic _ | OutOfFuel => False
     end) ->
  wp I R G b (atom f) Q.
Proof. intros Hf s. apply wps_atom. intros s' Hs' _. by apply Hf. Qed.

Lemma wp_atom_bind {A B} (f : St -> exec (A * St * list Ev)) (k : A -> prog B) Q :
  (forall s, I s ->
     match f s with
     | Ret (a, s', es) => I s' /\ G s es s' /\ wp I R G b (k a) (fun y tr => Q y (es ++ tr))
     | Blocked => b = true
     | Panic _ | OutOfFuel => False
     end) ->
  wp I R G b (atom f ≫= k) Q.
Proof.
  intros Hf. apply (wp_seq _ _ (fun a tr => wp I R G b (k a) (fun y tr' => Q y (tr ++ tr')))); [|done].
  by apply wp_atom.
Qed.

Lemma wp_defer {A} (c : prog unit) (p : prog A) Q1 Q2 Q :
  wp I R G b p Q1 -> wp I R G b c Q2 -> (forall a tr tr', Q1 a tr -> Q2 tt tr' -> Q a (tr ++ tr')) ->
  wp I R G b (defer c p) Q.
Proof.
  intros Hp Hc HQ. eapply wp_seq; [done|]. intros a tr Ha. eapply wp_seq; [done|]. intros [] tr' Hc'.
  apply wp_ret. rewrite List.app_nil_r. auto.
Qed.

(** A step that changes nothing is allowed. *)
Hypothesis G_refl : forall s, I s -> G s [] s.

Lemma wp_read {A B} (g : St -> A) (k : A -> prog B) Q :
  (forall s, I s -> wp I R G b (k (g s)) Q) -> wp I R G b (read g ≫= k) Q.
Proof. intros Hk. apply wp_atom_bind. intros s Hs. split_and!; auto. Qed.

Lemma wp_pause {B} (k : unit -> prog B) Q : wp I R G b (k tt) Q -> wp I R G b (pause ≫= k) Q.
Proof. intros Hk. apply wp_atom_bind. intros s Hs. split_and!; auto. Qed.

Lemma wp_pause_end (Q : unit -> list Ev -> Prop) : Q tt [] -> wp I R G b pause Q.
Proof. intros HQ. apply wp_atom. auto. Qed.

Lemma wp_write {B} g (k : unit -> prog B) Q :
  (forall s, I s -> I (g s) /\ G s [] (g s)) -> wp I R G b (k tt) Q -> wp I R G b (write g ≫= k) Q.
Proof. intros Hg Hk. apply wp_atom_bind. intros s Hs. destruct (Hg s Hs). done. Qed.

Lemma wp_write_end g (Q : unit -> list Ev -> Prop) :
  (forall s, I s -> I (g s) /\ G s [] (g s)) -> Q tt [] -> wp I R G b (write g) Q.
Proof. intros Hg HQ. apply wp_atom. intros s Hs. destruct (Hg s Hs). done. Qed.

Lemma wp_act {B} e (k : unit -> prog B) Q :
  (forall s, I s -> G s [e] s) -> wp I R G b (k tt) (fun y tr => Q y (e :: tr)) -> wp I R G b (act e ≫= k) Q.
Proof. intros Hg Hk. apply wp_atom_bind. intros s Hs. split_and!; auto. Qed.

Lemma wp_act_end e (Q : unit -> list Ev -> Prop) :
  (forall s, I s -> G s [e] s) -> Q tt [e] -> wp I R G b (act e) Q.
Proof. intros Hg HQ. apply wp_atom. intros s Hs. auto. Qed.

End Rules.

(** Soundness for one goroutine: under an environment that keeps [I] and moves by
    [R] it does what [wp] says. *)
Lemma wp_run (I : St -> Prop) R G b others {A} (p : prog A) Q w :
  (forall n s, I s -> I (others n s) /\ R s (others n s)) -> wp I R G b p Q -> I (w_server w) ->
  match run others p w with
  | Ret (a, w') => I (w_server w') /\ exists tr, w_trace w' = w_trace w ++ tr /\ Q a tr
  | Blocked => b = true
  | Panic _ | OutOfFuel => False
  end.
Proof.
  intros Ho Hp. specialize (Hp (w_server w)). revert Q w Hp.
  induction p as [a|f IH] using prog_induction; intros Q w Hp Hw; simpl in *.
  { split; [done|]. exists []. by rewrite List.app_nil_r. }
  destruct (Ho (w_turn w) _ Hw) as [Hi Hr]. specialize (Hp _ Hi Hr).
  destruct (f _) as [[[s' es] p']| | |] eqn:E; try done. destruct Hp as (Hs' & _ & Hp).
  specialize (IH _ _ _ _ E _ (mkWorld s' (w_trace w ++ es) (S (w_turn w))) Hp Hs'). revert IH. simpl.
  destruct (run others p' _) as [[a w']| | |]; try done.
  intros (? & tr & -> & ?). split; [done|]. exists (es ++ tr). by rewrite List.app_assoc.
Qed.

(** ** Many goroutines *)

Section Pool.

(** [L] names the goroutines that may be started: what they run and when. *)
Context {L : Type} (body : L -> prog unit) (may_spawn : St -> L -> Prop).
(** What the rest of the system may do to the state, and the events it emits. *)
Context (env : St -> list Ev -> St -> Prop).

(** The log tags each event with the goroutine that emitted it, the environment
    being [None]; a finished goroutine stays in the map as [Done]. *)
Record threads := mkThreads {
  pl_state : St;
  pl_threads : gmap nat (L * prog unit);
  pl_log : list (option nat * Ev)
}.

Definition tag (t : option nat) (es : list Ev) : list (option nat * Ev) := (fun e => (t, e)) <$> es.

Inductive pstep : threads -> threads -> Prop :=
  | ps_thread pl t l f s' es p' :
      pl_threads pl !! t = Some (l, Step f) -> f (pl_state pl) = Ret (s', es, p') ->
      pstep pl (mkThreads s' (<[t := (l, p')]> (pl_threads pl)) (pl_log pl ++ tag (Some t) es))
  | ps_env pl s' es :
      env (pl_state pl) es s' -> pstep pl (mkThreads s' (pl_threads pl) (pl_log pl ++ tag None es))
  | ps_spawn pl t l :
      pl_threads pl !! t = None -> may_spawn (pl_state pl) l ->
      pstep pl (mkThreads (pl_state pl) (<[t := (l, body l)]> (pl_threads pl)) (pl_log pl)).

Inductive preach (s0 : St) : threads -> Prop :=
  | pr_start : preach s0 (mkThreads s0 ∅ [])
  | pr_next pl pl' : preach s0 pl -> pstep pl pl' -> preach s0 pl'.

(** A step of goroutine [t]. *)
Inductive tstep (t : nat) : threads -> threads -> Prop :=
  | ts_step pl l f s' es p' :
      pl_threads pl !! t = Some (l, Step f) -> f (pl_state pl) = Ret (s', es, p') ->
      tstep t pl (mkThreads s' (<[t := (l, p')]> (pl_threads pl)) (pl_log pl ++ tag (Some t) es)).

(** Goroutines run, nothing else happens. *)
Definition scheduled : threads -> threads -> Prop := rtc (fun a b => exists t, tstep t a b).

Lemma tstep_pstep t pl pl' : tstep t pl pl' -> pstep pl pl'.
Proof. intros [? l f s' es p' Hl Hf]. by eapply ps_thread. Qed.

Lemma scheduled_reach s0 pl pl' : preach s0 pl -> scheduled pl pl' -> preach s0 pl'.
Proof.
  intros Hr Hs. induction Hs as [|a b c [t Ht] _ IH]; [done|]. apply IH. eapply pr_next; [done|].
  by eapply tstep_pstep.
Qed.

(** A goroutine whose next step is a panic, which would end the process. *)
Definition crashes (pl : threads) : Prop :=
  exists t l f m, pl_threads pl !! t = Some (l, Step f) /\ f (pl_state pl) = Panic m.

(** The events goroutine [t] emitted. *)
Definition own (t : option nat) (log : list (option nat * Ev)) : list Ev :=
  (List.filter (fun x => bool_decide (x.1 = t)) log).*2.

Lemma own_app t l l' : own t (l ++ l') = own t l ++ own t l'.
Proof. unfold own. by rewrite List.filter_app, fmap_app. Qed.

Lemma own_tag_eq t es : own t (tag t es) = es.
Proof.
  unfold own, tag. induction es as [|e es IH]; [done|]. cbn. rewrite bool_decide_true by done. cbn. by rewrite IH.
Qed.

Lemma own_tag_ne t t' es : t' <> t -> own t (tag t' es) = [].
Proof.
  intros Hne. unfold own, tag. induction es as [|e es IH]; [done|]. cbn. by rewrite bool_decide_false.
Qed.

Lemma own_cons t u e log : own t ((u, e) :: log) = if decide (u = t) then e :: own t log else own t log.
Proof. unfold own. simpl. case_decide; [rewrite bool_decide_true by done|rewrite bool_decide_false by done]; done. Qed.

Lemma own_elem t e log : e ∈ own t log <-> (t, e) ∈ log.
Proof.
  unfold own. rewrite list_elem_of_fmap. split.
  - intros ([t' e'] & -> & [Hin Ht]%list_elem_of_In%List.filter_In). bool_to_prop. simpl in *. subst.
    by apply list_elem_of_In.
  - intros Hin. exists (t, e). split; [done|]. apply list_elem_of_In, List.filter_In.
    split; [by apply list_elem_of_In|]. by apply bool_decide_eq_true.
Qed.

(** What a goroutine has done so far is the beginning of what it does in the end. *)
Lemma own_tsteps pl pl' t : rtc (tstep t) pl pl' -> exists more, own (Some t) (pl_log pl') = own (Some t) (pl_log pl) ++ more.
Proof.
  induction 1 as [pl|pl pl1 pl' [? l f s' es p' Hl Hf] _ [more IH]]; [exists []; by rewrite List.app_nil_r|].
  rewrite IH. simpl. rewrite own_app, own_tag_eq, <- List.app_assoc. eauto.
Qed.

Section Sound.
Context (I : St -> Prop) (R : St -> St -> Prop) (G : St -> list Ev -> St -> Prop).
Context (waits : L -> bool) (post : L -> list Ev -> Prop).
Context `{!PreOrder R}.
Hypothesis env_ok : forall s es s', I s -> env s es s' -> I s' /\ R s s'.
Hypothesis G_rely : forall s es s', G s es s' -> R s s'.
Hypothesis body_ok : forall s l, I s -> may_spawn s l -> wp I R G (waits l) (body l) (fun _ tr => post l tr).

(** In every interleaving the invariant holds and each goroutine is still on the
    way to its postcondition. *)
Record threads_ok (pl : threads) : Prop := {
  th_state : I (pl_state pl);
  th_thread : forall t l p, pl_threads pl !! t = Some (l, p) ->
    wps I R G (waits l) p (fun _ tr _ => post l (own (Some t) (pl_log pl) ++ tr)) (pl_state pl);
  th_fresh : forall t, pl_threads pl !! t = None -> own (Some t) (pl_log pl) = []
}.

Lemma threads_step_ok pl pl' : threads_ok pl -> pstep pl pl' -> threads_ok pl'.
Proof.
  intros [Hs Ht Hf] Hstep. destruct Hstep as [pl t l f s' es p' Hl Hr|pl s' es He|pl t l Hl Hm].
  - pose proof (Ht t l _ Hl) as Hw. simpl in Hw. specialize (Hw _ Hs ltac:(done)). rewrite Hr in Hw.
    destruct Hw as (Hs' & Hg%G_rely & Hw). split; simpl; [done| |].
    + intros t' l' q. insert_cases t' t.
      * intros [= <- <-]. eapply wps_weaken; [done|]. simpl. intros [] tr _.
        by rewrite own_app, own_tag_eq, <- List.app_assoc.
      * intros Hq. rewrite own_app, own_tag_ne, List.app_nil_r by congruence. eapply wps_env; [apply _|by apply Ht|done].
    + intros t'. insert_cases t' t; [done|]. intros Hn.
      rewrite own_app, own_tag_ne, List.app_nil_r by congruence. by apply Hf.
  - assert (Hown : forall t, own (Some t) (pl_log pl ++ tag None es) = own (Some t) (pl_log pl))
      by (intros t; by rewrite own_app, own_tag_ne, List.app_nil_r).
    destruct (env_ok _ _ _ Hs He) as [Hs' Hr].
    split; simpl; [done| |]; intros *; rewrite Hown; [|apply Hf]. intros Hq. eapply wps_env; [apply _|by apply Ht|done].
  - split; simpl; [done| |].
    + intros t' l' q. insert_cases t' t; [|apply Ht]. intros [= <- <-]. rewrite (Hf t Hl).
      by apply (body_ok (pl_state pl)).
    + intros t'. insert_cases t' t; [done|apply Hf].
Qed.

Lemma threads_sound s0 pl : I s0 -> preach s0 pl -> threads_ok pl.
Proof.
  intros H0. induction 1 as [|pl pl' _ IH Hstep]; [|by eapply threads_step_ok].
  split; simpl; [done| |done]. intros t l p. by rewrite lookup_empty.
Qed.

(** What a goroutine's next step does. *)
Lemma threads_next pl t l f : threads_ok pl -> pl_threads pl !! t = Some (l, Step f) ->
  match f (pl_state pl) with
  | Ret (s', es, _) => I s' /\ G (pl_state pl) es s'
  | Blocked => waits l = true
  | Panic _ | OutOfFuel => False
  end.
Proof.
  intros [Hs Ht _] Hl. pose proof (Ht t l _ Hl _ Hs ltac:(done)) as H.
  destruct (f (pl_state pl)) as [[[s' es] p']| | |]; try done. tauto.
Qed.

Lemma threads_no_crash pl : threads_ok pl -> ~ crashes pl.
Proof. intros Hp (t & l & f & m & Hl & Hc). pose proof (threads_next pl t l f Hp Hl) as H. by rewrite Hc in H. Qed.

Lemma threads_finished pl t l : threads_ok pl -> pl_threads pl !! t = Some (l, Done tt) ->
  post l (own (Some t) (pl_log pl)).
Proof. intros Hp Hl. pose proof (th_thread pl Hp t l _ Hl) as H. simpl in H. by rewrite List.app_nil_r in H. Qed.

(** A goroutine that does not wait can be run to its end, whatever the others are
    doing. *)
Lemma threads_finish pl t l p : threads_ok pl -> pl_threads pl !! t = Some (l, p) -> waits l = false \/ p = Done tt ->
  exists pl', rtc (tstep t) pl pl' /\ threads_ok pl' /\ pl_threads pl' !! t = Some (l, Done tt) /\
    forall u, u <> t -> pl_threads pl' !! u = pl_threads pl !! u.
Proof.
  revert pl. induction p as [[]|f IH] using prog_induction; intros pl Hok Hl Hw; [by exists pl|].
  destruct Hw as [Hw|]; [|done]. pose proof (threads_next pl t l f Hok Hl) as Hn.
  destruct (f (pl_state pl)) as [[[s' es] p']| | |] eqn:E; try done; [|congruence].
  set (pl1 := mkThreads s' (<[t := (l, p')]> (pl_threads pl)) (pl_log pl ++ tag (Some t) es)).
  assert (tstep t pl pl1) as Hst by (by eapply ts_step).
  destruct (IH _ _ _ _ E pl1) as (pl' & Hrt & Hok' & Hd & Hu); [by eapply threads_step_ok, tstep_pstep| |by left|].
  { apply lookup_insert_eq. }
  exists pl'. split_and!; try done; [by eapply rtc_l|]. intros u Hne. rewrite Hu by done. by apply lookup_insert_ne.
Qed.

(** If no unfinished goroutine waits, they can all be run to their ends. *)
Lemma threads_drain pl : threads_ok pl ->
  (forall t l p, pl_threads pl !! t = Some (l, p) -> waits l = false \/ p = Done tt) ->
  exists pl', scheduled pl pl' /\ forall t l p, pl_threads pl' !! t = Some (l, p) -> p = Done tt.
Proof.
  intros Hok Hw.
  assert (forall ks : list nat, exists pl', scheduled pl pl' /\ threads_ok pl' /\
    forall t l p, pl_threads pl' !! t = Some (l, p) -> p = Done tt \/ (pl_threads pl !! t = Some (l, p) /\ t ∉ ks)) as Hks.
  { induction ks as [|t ks IH]; [exists pl; split_and!; [constructor|done|set_solver]|].
    destruct IH as (pl1 & Hs & Hok1 & Hd). destruct (pl_threads pl1 !! t) as [[l p]|] eqn:E.
    2: { exists pl1. split_and!; try done. intros u l p Hu. destruct (Hd u l p Hu) as [|[? ?]]; [by left|].
      right. split; [done|]. assert (u <> t) by congruence. set_solver. }
    destruct (threads_finish pl1 t l p Hok1 E) as (pl2 & Hrt & Hok2 & Ht & Hu).
    { destruct (Hd t l p E) as [|[? _]]; [by right|by eapply Hw]. }
    exists pl2. split_and!; try done.
    - etrans; [exact Hs|]. clear -Hrt. induction Hrt; [constructor|]. eapply rtc_l; [by exists t|done].
    - intros u m q Hq. destruct (decide (u = t)) as [->|Hne]; [left; congruence|]. rewrite Hu in Hq by done.
      destruct (Hd u m q Hq) as [|[? ?]]; [by left|right; set_solver]. }
  destruct (Hks (elements (dom (pl_threads pl)))) as (pl' & Hs & _ & Hd). exists pl'. split; [done|].
  intros t l p Hp. destruct (Hd t l p Hp) as [|[Hl Hn]]; [done|]. destruct Hn. apply elem_of_elements, elem_of_dom. eauto.
Qed.

(** ** Fair executions

    An infinite execution is a sequence of pools, each reached from the one before
    by a step of anybody, or by nothing at all.  It is fair if no goroutine that does
    not wait is passed over for ever. *)

Definition execution (e : nat -> threads) : Prop :=
  forall n, e (S n) = e n \/ pstep (e n) (e (S n)).

Definition fair (e : nat -> threads) : Prop :=
  forall n t l f, pl_threads (e n) !! t = Some (l, Step f) -> waits l = false ->
    exists m, (n <= m)%nat /\ tstep t (e m) (e (S m)).

Lemma execution_reach s0 e n : execution e -> preach s0 (e 0%nat) -> preach s0 (e n).
Proof. intros He H0. induction n as [|n IH]; [done|]. destruct (He n) as [->|Hs]; [done|]. by eapply pr_next. Qed.

(** What a step of anybody does to one goroutine. *)
Lemma pstep_thread pl pl' t l f : pstep pl pl' -> pl_threads pl !! t = Some (l, Step f) ->
  pl_threads pl' !! t = Some (l, Step f) \/
  exists s' es p', f (pl_state pl) = Ret (s', es, p') /\ pl_threads pl' !! t = Some (l, p').
Proof.
  intros Hs Ht. destruct Hs as [pl u l' f' s' es p' Hl Hr|pl s' es He|pl u l' Hl Hm]; simpl; [|by left|].
  - destruct (decide (u = t)) as [->|Hne]; [|left; by rewrite lookup_insert_ne].
    simplify_eq. right. exists s', es, p'. by rewrite lookup_insert_eq.
  - left. rewrite lookup_insert_ne by congruence. done.
Qed.

(** Until it is scheduled a goroutine stays where it is. *)
Lemma execution_thread e n k t l f : execution e -> pl_threads (e n) !! t = Some (l, Step f) ->
  pl_threads (e (k + n)%nat) !! t = Some (l, Step f) \/
  exists m s s' es p', (n <= m)%nat /\ f s = Ret (s', es, p') /\ pl_threads (e m) !! t = Some (l, p').
Proof.
  intros He Ht. induction k as [|k IH]; [by left|]. destruct IH as [IH|]; [|by right]. simpl.
  destruct (He (k + n)%nat) as [->|Hs]; [by left|].
  destruct (pstep_thread _ _ t l f Hs IH) as [|(s' & es & p' & Hf & Hp)]; [by left|]. right.
  exists (S (k + n)), (pl_state (e (k + n)%nat)), s', es, p'. split; [lia|done].
Qed.

(** In a fair execution every goroutine that does not wait ends. *)
Lemma fair_ends e n t l p : execution e -> fair e -> pl_threads (e n) !! t = Some (l, p) -> waits l = false ->
  exists m, (n <= m)%nat /\ pl_threads (e m) !! t = Some (l, Done tt).
Proof.
  intros He Hf Ht Hw. revert n Ht. induction p as [[]|f IH] using prog_induction; intros n Ht; [by exists n|].
  assert (exists m s s' es p', (n <= m)%nat /\ f s = Ret (s', es, p') /\ pl_threads (e m) !! t = Some (l, p'))
    as (m & s & s' & es & p' & Hm & Hr & Hp).
  { destruct (Hf n t l f Ht Hw) as (m & Hm & Hs).
    destruct (execution_thread e n (m - n) t l f He Ht) as [Hl|]; [|done].
    replace (m - n + n)%nat with m in Hl by lia. inversion Hs as [pl l' f' s' es p' Hl' Hr Epl E]; subst.
    simplify_eq. exists (S m), (pl_state (e m)), s', es, p'. rewrite <- E. simpl. rewrite lookup_insert_eq.
    split; [lia|done]. }
  destruct (IH _ _ _ _ Hr m Hp) as (m' & ? & ?). exists m'. split; [lia|done].
Qed.

(** What has ended stays so. *)
Lemma execution_done e n k t l a : execution e -> pl_threads (e n) !! t = Some (l, Done a) ->
  pl_threads (e (k + n)%nat) !! t = Some (l, Done a).
Proof.
  intros He Ht. induction k as [|k IH]; [done|]. simpl. destruct (He (k + n)%nat) as [->|Hs]; [done|].
  destruct Hs as [pl u l' f' s' es p' Hl Hr|pl s' es Henv|pl u l' Hl Hm]; simpl; [|done|];
    by rewrite lookup_insert_ne by congruence.
Qed.

(** If no goroutine starts after [n], and none of those there waits, all end. *)
Lemma fair_quiet e n : execution e -> fair e ->
  (forall k, dom (pl_threads (e (k + n)%nat)) = dom (pl_threads (e n))) ->
  (forall t l p, pl_threads (e n) !! t = Some (l, p) -> waits l = false \/ p = Done tt) ->
  exists m, (n <= m)%nat /\ forall k t l p, (m <= k)%nat -> pl_threads (e k) !! t = Some (l, p) -> p = Done tt.
Proof.
  clear -body may_spawn env waits.
  intros He Hf Hdom Hw.
  assert (Hall : forall X : gset nat, X ⊆ dom (pl_threads (e n)) -> exists m, (n <= m)%nat /\
    forall t, t ∈ X -> exists l, pl_threads (e m) !! t = Some (l, Done tt)).
  { intros X. induction X as [|t X Ht IH] using set_ind_L; intros HX; [exists n; set_solver|].
    destruct IH as (m1 & Hm1 & H1); [set_solver|].
    assert (is_Some (pl_threads (e n) !! t)) as [[l p] Hl] by (apply elem_of_dom; set_solver).
    assert (exists m2, (n <= m2)%nat /\ pl_threads (e m2) !! t = Some (l, Done tt)) as (m2 & Hm2 & H2).
    { destruct (Hw t l p Hl) as [Hl'| ->]; [by eapply fair_ends|by exists n]. }
    exists (m1 + m2)%nat. split; [lia|]. intros u [->%elem_of_singleton|Hu]%elem_of_union.
    - exists l. by apply execution_done.
    - destruct (H1 u Hu) as [l' Hl']. exists l'. replace (m1 + m2)%nat with (m2 + m1)%nat by lia. by apply execution_done. }
  destruct (Hall (dom (pl_threads (e n))) ltac:(done)) as (m & Hm & Hd). exists m. split; [done|].
  intros k t l p Hk Hl. destruct (Hd t) as [l' Hl'].
  { rewrite <- (Hdom (k - n)%nat). replace (k - n + n)%nat with k by lia. by eapply elem_of_dom_2. }
  apply (execution_done e m (k - m) t l' tt He) in Hl'. replace (k - m + m)%nat with k in Hl' by lia. by simplify_eq.
Qed.

(** Running one goroutine for as long as it can. *)
Definition advance (t : nat) (pl : threads) : threads :=
  match pl_threads pl !! t with
  | Some (l, Step f) =>
      match f (pl_state pl) with
      | Ret (s', es, p') => mkThreads s' (<[t := (l, p')]> (pl_threads pl)) (pl_log pl ++ tag (Some t) es)
      | _ => pl
      end
  | _ => pl
  end.

Lemma advance_step t pl : advance t pl = pl \/ tstep t pl (advance t pl).
Proof.
  unfold advance. destruct (pl_threads pl !! t) as [[l [[]|f]]|] eqn:E; [by left| |by left].
  destruct (f (pl_state pl)) as [[[s' es] p']| | |] eqn:Ef; [|by left..]. right. by eapply ts_step.
Qed.

Lemma advance_others t pl u : u <> t -> pl_threads (advance t pl) !! u = pl_threads pl !! u.
Proof. intros Hu. unfold advance. repeat case_match; simpl; rewrite ?lookup_insert_ne by done; done. Qed.

Lemma advance_label t pl g p : pl_threads pl !! t = Some (g, p) -> exists p', pl_threads (advance t pl) !! t = Some (g, p').
Proof.
  intros Hl. unfold advance. rewrite Hl. destruct p as [|f]; [eauto|].
  destruct (f (pl_state pl)) as [[[s' es] p']| | |]; simpl; rewrite ?lookup_insert_eq; eauto.
Qed.

(** An event of a goroutine happened in one of its steps. *)
Lemma execution_event s0 e m t a : I s0 -> execution e -> preach s0 (e 0%nat) ->
  (Some t, a) ∈ pl_log (e m) -> (Some t, a) ∉ pl_log (e 0%nat) ->
  exists k es, (k < m)%nat /\ a ∈ es /\ G (pl_state (e k)) es (pl_state (e (S k))).
Proof.
  intros H0 He Hr Hin Hno. induction m as [|m IH]; [done|].
  assert ((Some t, a) ∈ pl_log (e m) \/ exists es, a ∈ es /\ G (pl_state (e m)) es (pl_state (e (S m))))
    as [Hm|(es & ? & ?)];
    [|destruct (IH Hm) as (k & es & ? & ?); exists k, es; split; [lia|done]|exists m, es; split; [lia|done]].
  pose proof (threads_sound s0 (e m) H0 (execution_reach s0 e m He Hr)) as Hok.
  destruct (He m) as [E|Hs]; [left; by rewrite E in Hin|].
  destruct Hs as [pl u l f s' es p' Hl Hrun|pl s' es Henv|pl u l Hl Hm']; simpl in *; [| |by left].
  - pose proof (threads_next pl u l f Hok Hl) as Hn. rewrite Hrun in Hn.
    apply elem_of_app in Hin as [|Hin]; [by left|]. apply list_elem_of_fmap in Hin as (x & [= -> ->] & ?).
    right. exists es. split; [done|apply Hn].
  - apply elem_of_app in Hin as [|Hin]; [by left|]. by apply list_elem_of_fmap in Hin as (x & ? & ?).
Qed.

(** A property of the state and the log that every step keeps. *)
Lemma threads_log (P : St -> list (option nat * Ev) -> Prop) s0 pl :
  (forall s t es s' log, G s es s' -> P s log -> P s' (log ++ tag (Some t) es)) ->
  (forall s es s' log, I s -> env s es s' -> P s log -> P s' (log ++ tag None es)) ->
  I s0 -> P s0 [] -> preach s0 pl -> P (pl_state pl) (pl_log pl).
Proof.
  intros HG HE H0 Hp0 Hr. induction Hr as [|pl pl' Hr IH Hstep]; [done|].
  pose proof (threads_sound s0 pl H0 Hr) as Hok.
  destruct Hstep as [pl t l f s' es p' Hl Hrun|pl s' es He|]; simpl; [| |done].
  - pose proof (threads_next pl t l f Hok Hl) as H. rewrite Hrun in H. eapply HG; [apply H|done].
  - eapply HE; [apply Hok|done..].
Qed.

(** What a state has and the first one has not came about at some moment of the run. *)
Lemma threads_born {X} (has born : St -> X -> Prop) s0 pl x :
  (forall s es s', G s es s' -> has s' x -> has s x \/ born s x) ->
  (forall s es s', I s -> env s es s' -> has s' x -> has s x \/ born s x) ->
  I s0 -> ~ has s0 x -> preach s0 pl -> has (pl_state pl) x ->
  exists pl0, preach s0 pl0 /\ rtc pstep pl0 pl /\ born (pl_state pl0) x.
Proof.
  intros HG HE H0 Hno Hr. induction Hr as [|pl pl' Hr IH Hstep]; [done|].
  pose proof (threads_sound s0 pl H0 Hr) as Hok. intros Hx.
  assert (has (pl_state pl) x \/ born (pl_state pl) x) as [Hold|Hnew].
  { destruct Hstep as [pl t l f s' es p' Hl Hrun|pl s' es He|]; simpl in *; [| |by left].
    - pose proof (threads_next pl t l f Hok Hl) as H. rewrite Hrun in H. eapply HG; [apply H|done].
    - eapply HE; [apply Hok|done..]. }
  - destruct (IH Hold) as (pl0 & ? & ? & ?). exists pl0. split_and!; [done|by eapply rtc_r|done].
  - exists pl. split_and!; [done|by apply rtc_once|done].
Qed.

End Sound.
End Pool.

End Prog.

Arguments prog St Ev A : clear implicits.
Arguments Done {St Ev A} a.
Arguments Step {St Ev A} f.
Arguments threads St Ev L : clear implicits.
Arguments world St Ev : clear implicits.

(** Steps stay folded, so that the rules of the logic apply to them. *)
#[global] Arguments atom : simpl never.
#[global] Arguments read : simpl never.
#[global] Arguments write : simpl never.
#[global] Arguments act : simpl never.
#[global] Arguments pause : simpl never.
#[global] Arguments defer : simpl never.
#[global] Arguments prog_bind : simpl never.
