(* ===== verification/GoStrings.v ===== *)
(** * GoStrings: the functions of Go's [strings] package the relay calls

    A Go string is a sequence of bytes; [string] here is a sequence of
    [ascii], one per byte. *)

From S2P Require Import Prelude.
From Stdlib Require Import Ascii.

#[global] Arguments String.append : simpl nomatch.
#[global] Arguments Ascii.eqb : simpl never.

(** [strings.HasPrefix s p]. *)
Fixpoint HasPrefix (s p : string) {struct p} : bool :=
  match p, s with
  | EmptyString, _ => true
  | String c p', String d s' => Ascii.eqb c d && HasPrefix s' p'
  | String _ _, EmptyString => false
  end.

(** The slice expression [s[n:]]. *)
Fixpoint from (n : nat) (s : string) : string :=
  match n, s with
  | O, _ => s
  | S n', String _ s' => from n' s'
  | S _, EmptyString => EmptyString
  end.

(** [strings.HasSuffix s p]. *)
Definition HasSuffix (s p : string) : bool :=
  (String.length p <=? String.length s)%nat &&
  String.eqb (from (String.length s - String.length p) s) p.

(** [strings.Index s p]: the first position of [p] in [s]; [None] is Go's
    negative result. *)
Fixpoint Index (s p : string) : option nat :=
  if HasPrefix s p then Some O
  else match s with
       | EmptyString => None
       | String _ s' => option_map S (Index s' p)
       end.

(** [strings.ContainsRune s c] / [strings.Contains s "c"] for a one-byte [c]. *)
Fixpoint ContainsByte (s : string) (c : ascii) : bool :=
  match s with
  | EmptyString => false
  | String d s' => Ascii.eqb c d || ContainsByte s' c
  end.

(** [strings.Split s "c"] for a one-byte separator: never empty. *)
Fixpoint Split (s : string) (c : ascii) : list string :=
  match s with
  | EmptyString => [EmptyString]
  | String d s' =>
      if Ascii.eqb c d then EmptyString :: Split s' c
      else match Split s' c with
           | [] => [String d EmptyString]
           | w :: ws => String d w :: ws
           end
  end.

(** [strings.Join parts "c"], the inverse of [Split]. *)
Fixpoint Join (parts : list string) (c : ascii) : string :=
  match parts with
  | [] => ""
  | [w] => w
  | w :: ws => w +:+ String c (Join ws c)
  end.

(** The UTF-8 encodings of the runes [unicode.IsSpace] accepts: the ASCII ones,
    U+0085, U+00A0, U+1680, U+2000 to U+200A, U+2028, U+2029, U+202F, U+205F and
    U+3000. *)
Fixpoint of_bytes (l : list nat) : string :=
  match l with [] => "" | n :: l' => String (ascii_of_nat n) (of_bytes l') end.

Definition spaces : list string :=
  of_bytes <$> ([[9]; [10]; [11]; [12]; [13]; [32]; [0xC2; 0x85]; [0xC2; 0xA0]; [0xE1; 0x9A; 0x80];
    [0xE2; 0x80; 0x80]; [0xE2; 0x80; 0x81]; [0xE2; 0x80; 0x82]; [0xE2; 0x80; 0x83]; [0xE2; 0x80; 0x84];
    [0xE2; 0x80; 0x85]; [0xE2; 0x80; 0x86]; [0xE2; 0x80; 0x87]; [0xE2; 0x80; 0x88]; [0xE2; 0x80; 0x89];
    [0xE2; 0x80; 0x8A]; [0xE2; 0x80; 0xA8]; [0xE2; 0x80; 0xA9]; [0xE2; 0x80; 0xAF]; [0xE2; 0x81; 0x9F];
    [0xE3; 0x80; 0x80]])%nat.

(** [s] without the space rune it starts with, if it does; and at its end. *)
Definition strip_left (s : string) : option string :=
  match List.find (HasPrefix s) spaces with
  | Some p => Some (from (String.length p) s)
  | None => None
  end.
Definition strip_right (s : string) : option string :=
  match List.find (HasSuffix s) spaces with
  | Some p => Some (String.substring 0 (String.length s - String.length p) s)
  | None => None
  end.

Fixpoint strip_all (strip : string -> option string) (fuel : nat) (s : string) : string :=
  match fuel with
  | O => s
  | S fuel' => match strip s with Some s' => strip_all strip fuel' s' | None => s end
  end.

(** [strings.TrimSpace s]; every turn removes at least a byte, so the length of
    the string is enough fuel. *)
Definition TrimSpace (s : string) : string :=
  let s := strip_all strip_left (String.length s) s in
  strip_all strip_right (String.length s) s.

(** ** Strings as a monoid under concatenation *)

Lemma app_nil_r s : s +:+ "" = s.
Proof. induction s; simpl; congruence. Qed.

Lemma app_assoc s t u : (s +:+ t) +:+ u = s +:+ (t +:+ u).
Proof. induction s; simpl; congruence. Qed.

Lemma length_app s t : String.length (s +:+ t) = (String.length s + String.length t)%nat.
Proof. induction s; simpl; congruence. Qed.

Lemma from_app s t : from (String.length s) (s +:+ t) = t.
Proof. induction s; simpl; auto. Qed.

Lemma from_0 s : from 0 s = s.
Proof. by destruct s. Qed.

#[export] Instance app_inj_l s : Inj (=) (=) (String.append s).
Proof. induction s as [|c s IH]; intros t u; simpl; [done|]. intros [= ?]. by apply IH. Qed.

(** ** Specifications *)

Lemma HasPrefix_spec s p : HasPrefix s p = true <-> exists t, s = p +:+ t.
Proof.
  revert s. induction p as [|c p IH]; intros s; simpl.
  - split; [eauto | done].
  - destruct s as [|d s]; [split; [done | by intros [t [=]]]|].
    rewrite andb_true_iff, IH, Ascii.eqb_eq. split.
    + intros [-> [t ->]]. by exists t.
    + intros [t [= -> ->]]. eauto.
Qed.

Lemma HasPrefix_app p t : HasPrefix (p +:+ t) p = true.
Proof. apply HasPrefix_spec. eauto. Qed.

Lemma from_skip n s : (n <= String.length s)%nat ->
  exists t, String.length t = n /\ s = t +:+ from n s.
Proof.
  revert s. induction n as [|n IH]; intros s Hn.
  - exists "". by rewrite from_0.
  - destruct s as [|c s]; simpl in *; [lia|].
    destruct (IH s ltac:(lia)) as (t & Ht & Hs). exists (String c t); simpl.
    split; congruence.
Qed.

Lemma HasSuffix_spec s p : HasSuffix s p = true <-> exists t, s = t +:+ p.
Proof.
  unfold HasSuffix. rewrite andb_true_iff, Nat.leb_le, String.eqb_eq. split.
  - intros [Hle Heq]. destruct (from_skip (String.length s - String.length p) s) as (t & _ & Ht);
      [lia|]. exists t. congruence.
  - intros [t ->]. rewrite length_app. split; [lia|].
    replace (String.length t + String.length p - String.length p)%nat with (String.length t) by lia.
    apply from_app.
Qed.

(** [Index] finds an occurrence, and no occurrence starts before it. *)
Lemma Index_Some s p i : Index s p = Some i ->
  exists pre post, s = pre +:+ p +:+ post /\ String.length pre = i /\
    forall pre' post', s = pre' +:+ p +:+ post' -> (i <= String.length pre')%nat.
Proof.
  revert i. induction s as [|c s IH]; intros i; simpl; destruct (HasPrefix _ p) eqn:Hp.
  1,3: intros [= <-]; apply HasPrefix_spec in Hp as [t Ht]; exists "", t; simpl; auto with lia.
  - done.
  - destruct (Index s p) as [j|] eqn:Hj; simpl; [|done]. intros [= <-].
    destruct (IH j eq_refl) as (pre & post & -> & <- & Hmin).
    exists (String c pre), post. split; [done|]. split; [done|].
    intros [|d pre'] post'; simpl.
    + intros Heq. apply not_true_iff_false in Hp. destruct Hp. apply HasPrefix_spec. eauto.
    + intros [= -> Heq]. apply Hmin in Heq. lia.
Qed.

Lemma Index_None s p : Index s p = None -> forall pre post, s <> pre +:+ p +:+ post.
Proof.
  induction s as [|c s IH]; simpl; destruct (HasPrefix _ p) eqn:Hp; try done; intros Hi pre post Heq.
  - assert (HasPrefix "" p = true); [|congruence]. apply HasPrefix_spec.
    by destruct pre, p.
  - destruct (Index s p) eqn:Hj; [done|]. destruct pre as [|d pre]; simpl in Heq.
    + assert (HasPrefix (String c s) p = true); [|congruence]. apply HasPrefix_spec. eauto.
    + injection Heq as -> Heq. by eapply IH.
Qed.

Lemma ContainsByte_app s t c : ContainsByte (s +:+ t) c = ContainsByte s c || ContainsByte t c.
Proof. induction s; simpl; [done|]. by rewrite IHs, orb_assoc. Qed.

Lemma Split_nonempty s c : Split s c <> [].
Proof. destruct s; simpl; [done|]. repeat case_match; done. Qed.

Lemma Join_Split s c : Join (Split s c) c = s.
Proof.
  induction s as [|d s IH]; simpl; [done|].
  destruct (Ascii.eqb_spec c d) as [->|Hne].
  - pose proof (Split_nonempty s d). destruct (Split s d); [done|]. simpl in *. by rewrite IH.
  - pose proof (Split_nonempty s c). destruct (Split s c) as [|w [|w' ws]]; simpl in *; congruence.
Qed.

Lemma Split_free s c w : w ∈ Split s c -> ContainsByte w c = false.
Proof.
  revert w. induction s as [|d s IH]; simpl; intros w.
  - by intros ->%list_elem_of_singleton.
  - destruct (Ascii.eqb_spec c d) as [->|Hne].
    + intros [->|Hw]%elem_of_cons; auto.
    + pose proof (Split_nonempty s c). destruct (Split s c) as [|v ws]; [done|].
      intros [->|Hw]%elem_of_cons.
      * simpl. rewrite (IH v) by (apply elem_of_cons; auto).
        rewrite orb_false_r. by apply Ascii.eqb_neq.
      * apply IH. apply elem_of_cons. auto.
Qed.

Lemma Split_single s c : ContainsByte s c = false -> Split s c = [s].
Proof.
  induction s as [|d s IH]; simpl; [done|]. rewrite orb_false_iff. intros [Hne Hs].
  by rewrite Hne, (IH Hs).
Qed.

Lemma Split_Join ws c :
  ws <> [] -> Forall (fun w => ContainsByte w c = false) ws -> Split (Join ws c) c = ws.
Proof.
  intros Hne Hf. destruct ws as [|w ws]; [done|]. clear Hne. revert w Hf.
  induction ws as [|v ws IH]; intros w Hf; [apply Split_single; by apply Forall_inv in Hf|].
  apply Forall_cons in Hf as [Hw Hf]. change (Join (w :: v :: ws) c) with (w +:+ String c (Join (v :: ws) c)).
  specialize (IH v Hf). revert IH. generalize (Join (v :: ws) c). intros t Ht. clear -Hw Ht.
  induction w as [|d w IH]; simpl in *.
  - destruct (Ascii.eqb_spec c c); [|done]. by rewrite Ht.
  - apply orb_false_iff in Hw as [Hd Hw]. rewrite Hd, IH; done.
Qed.

(** Trimming stops: at a string the strip does not shorten, within the fuel. *)
Lemma strip_all_done strip fuel s :
  (forall t t', strip t = Some t' -> (String.length t' < String.length t)%nat) ->
  (String.length s <= fuel)%nat -> strip (strip_all strip fuel s) = None \/ strip_all strip fuel s = "".
Proof.
  intros Hs. revert s. induction fuel as [|fuel IH]; intros s Hl; simpl.
  - right. by destruct s; simpl in Hl; [|lia].
  - destruct (strip s) as [s'|] eqn:E; [|by left]. apply IH. apply Hs in E. lia.
Qed.

Lemma spaces_nonempty p : In p spaces -> (0 < String.length p)%nat.
Proof. revert p. apply List.Forall_forall. repeat constructor. Qed.

Lemma length_from n s : String.length (from n s) = (String.length s - n)%nat.
Proof.
  revert s. induction n as [|n IH]; intros s; [by rewrite from_0, Nat.sub_0_r|].
  destruct s; simpl; [done|]. apply IH.
Qed.

Lemma HasPrefix_length s p : HasPrefix s p = true -> (String.length p <= String.length s)%nat.
Proof. intros [t ->]%HasPrefix_spec. rewrite length_app. lia. Qed.

Lemma HasSuffix_length s p : HasSuffix s p = true -> (String.length p <= String.length s)%nat.
Proof. intros [t ->]%HasSuffix_spec. rewrite length_app. lia. Qed.

Lemma length_substring_0 n s : (n <= String.length s)%nat -> String.length (String.substring 0 n s) = n.
Proof.
  revert s. induction n as [|n IH]; intros s Hn; destruct s; simpl in *; try lia. rewrite IH; lia.
Qed.

Lemma strip_left_shorter s s' : strip_left s = Some s' -> (String.length s' < String.length s)%nat.
Proof.
  unfold strip_left. destruct (List.find _ _) as [p|] eqn:E; [|done]. intros [= <-].
  apply List.find_some in E as [Hp%spaces_nonempty Hs%HasPrefix_length]. rewrite length_from. lia.
Qed.

Lemma strip_right_shorter s s' : strip_right s = Some s' -> (String.length s' < String.length s)%nat.
Proof.
  unfold strip_right. destruct (List.find _ _) as [p|] eqn:E; [|done]. intros [= <-].
  apply List.find_some in E as [Hp%spaces_nonempty Hs%HasSuffix_length]. rewrite length_substring_0; lia.
Qed.

(** A string with no space at either end is left alone. *)
Lemma TrimSpace_id s : strip_left s = None -> strip_right s = None -> TrimSpace s = s.
Proof.
  intros Hl Hr. unfold TrimSpace. assert (strip_all strip_left (String.length s) s = s) as ->.
  { destruct (String.length s); simpl; [done|]. by rewrite Hl. }
  destruct (String.length s); simpl; [done|]. by rewrite Hr.
Qed.

(** A trimmed string does not end in a space. *)
Lemma TrimSpace_right s : strip_right (TrimSpace s) = None.
Proof.
  unfold TrimSpace. set (t := strip_all strip_left _ s).
  destruct (strip_all_done strip_right (String.length t) t strip_right_shorter (Nat.le_refl _)) as [H|H]; [done|].
  rewrite H. vm_compute. reflexivity.
Qed.

(** Taking bytes off the right does not uncover a space on the left. *)
Lemma strip_left_prefix s t : (t <> "" -> strip_left (t +:+ s) = None) -> strip_left t = None.
Proof.
  intros H. unfold strip_left in *. destruct (List.find (HasPrefix t) spaces) as [p|] eqn:E; [|done].
  apply List.find_some in E as [Hp Hs]. pose proof (spaces_nonempty p Hp). pose proof (HasPrefix_length _ _ Hs).
  destruct (List.find (HasPrefix (t +:+ s)) spaces) eqn:F; [destruct t; [simpl in *; lia|]; by specialize (H ltac:(done))|].
  apply (List.find_none _ _ F) in Hp. apply HasPrefix_spec in Hs as [u ->].
  rewrite app_assoc, HasPrefix_app in Hp. done.
Qed.

Lemma substring_prefix n s : exists t, s = String.substring 0 n s +:+ t.
Proof.
  revert s. induction n as [|n IH]; intros s; [by exists s; destruct s|].
  destruct s as [|c s]; [by exists ""|]. destruct (IH s) as [t Ht]. exists t. simpl. by rewrite <- Ht.
Qed.

Lemma strip_right_prefix fuel s : exists t, s = strip_all strip_right fuel s +:+ t.
Proof.
  revert s. induction fuel as [|fuel IH]; intros s; simpl; [exists ""; by rewrite app_nil_r|].
  destruct (strip_right s) as [s'|] eqn:E; [|exists ""; by rewrite app_nil_r].
  unfold strip_right in E. destruct (List.find _ _) as [p|]; [|done]. injection E as <-.
  set (n := (String.length s - String.length p)%nat). destruct (IH (String.substring 0 n s)) as [t Ht].
  destruct (substring_prefix n s) as [u Hu]. exists (t +:+ u). by rewrite <- app_assoc, <- Ht.
Qed.

(** Nor does it start with one. *)
Lemma TrimSpace_left s : strip_left (TrimSpace s) = None.
Proof.
  unfold TrimSpace. set (t := strip_all strip_left _ s).
  destruct (strip_right_prefix (String.length t) t) as [u Hu]. apply (strip_left_prefix u).
  rewrite <- Hu. intros Hne.
  destruct (strip_all_done strip_left (String.length s) s strip_left_shorter (Nat.le_refl _)) as [H|H]; [done|].
  fold t in H. rewrite H in Hne. done.
Qed.

Lemma ContainsByte_from n s c : ContainsByte s c = false -> ContainsByte (from n s) c = false.
Proof.
  revert s. induction n as [|n IH]; intros s H; [by rewrite from_0|]. destruct s; simpl in *; [done|].
  apply orb_false_iff in H as [_ H]. auto.
Qed.

Lemma ContainsByte_TrimSpace s c : ContainsByte s c = false -> ContainsByte (TrimSpace s) c = false.
Proof.
  intros H. unfold TrimSpace. set (t := strip_all strip_left _ s).
  assert (Ht : ContainsByte t c = false).
  { unfold t. generalize (String.length s). intros n. revert s H t. induction n as [|n IH]; intros s H t; [done|].
    simpl. unfold strip_left at 1. destruct (List.find _ _); [|done]. apply IH. by apply ContainsByte_from. }
  destruct (strip_right_prefix (String.length t) t) as [u Hu]. rewrite Hu in Ht at 1.
  rewrite ContainsByte_app in Ht. by apply orb_false_iff in Ht as [? _].
Qed.
