(* ===== verification/GoNet.v ===== *)
(** * GoNet: addresses as text, and [splitAddr] of [pkg/edge/edge.go]

    [net.SplitHostPort] and [net.JoinHostPort], [strconv.Atoi] and [strconv.Itoa]
    as the Go library defines them, and [splitAddr], with which the relay takes
    apart the remote address of an agent's connection. *)

From S2P Require Import Prelude GoStrings.
From stdpp Require Import pretty.
From Stdlib Require Import Ascii.

#[local] Open Scope Z_scope.

(** ** Strings by position *)

(** [strings.IndexByte] and [strings.LastIndexByte]; [None] is -1. *)
Fixpoint IndexByte (s : string) (c : ascii) : option nat :=
  match s with
  | EmptyString => None
  | String d s' => if Ascii.eqb c d then Some O else S <$> IndexByte s' c
  end.

Fixpoint LastIndexByte (s : string) (c : ascii) : option nat :=
  match s with
  | EmptyString => None
  | String d s' =>
      match LastIndexByte s' c with
      | Some i => Some (S i)
      | None => if Ascii.eqb c d then Some O else None
      end
  end.

(** [s[:n]]. *)
Definition upto (n : nat) (s : string) : string := String.substring 0 n s.

(** ** [net.SplitHostPort] *)

Definition colon : ascii := ":"%char.
Definition lbracket : ascii := "["%char.
Definition rbracket : ascii := "]"%char.

Inductive addr_err := MissingPort | TooManyColons | MissingBracket | UnexpectedOpen | UnexpectedClose.

Definition SplitHostPort (hostport : string) : addr_err + (string * string) :=
  match LastIndexByte hostport colon with
  | None => inl MissingPort
  | Some i =>
      let finish (host : string) (j k : nat) : addr_err + (string * string) :=
        if ContainsByte (from j hostport) lbracket then inl UnexpectedOpen
        else if ContainsByte (from k hostport) rbracket then inl UnexpectedClose
        else inr (host, from (i + 1) hostport) in
      if HasPrefix hostport "[" then
        match IndexByte hostport rbracket with
        | None => inl MissingBracket
        | Some e =>
            if (e + 1 =? String.length hostport)%nat then inl MissingPort
            else if (e + 1 =? i)%nat then finish (from 1 (upto e hostport)) 1%nat (e + 1)%nat
            else if HasPrefix (from (e + 1) hostport) ":" then inl TooManyColons
            else inl MissingPort
        end
      else
        let host := upto i hostport in
        if ContainsByte host colon then inl TooManyColons
        else finish host O O
  end.

Definition JoinHostPort (host port : string) : string :=
  if ContainsByte host colon then "[" +:+ host +:+ "]:" +:+ port else host +:+ ":" +:+ port.

(** ** [strconv.Atoi] *)

Definition digit (c : ascii) : option Z :=
  let n := Z.of_nat (nat_of_ascii c) in
  if (48 <=? n) && (n <=? 57) then Some (n - 48) else None.

(** The value of a string of digits, most significant first, after [acc]. *)
Fixpoint digits (acc : Z) (s : string) : option Z :=
  match s with
  | EmptyString => Some acc
  | String c s' => match digit c with None => None | Some d => digits (10 * acc + d) s' end
  end.

(** [None] is a syntax or a range error. *)
Definition Atoi (s : string) : option Z :=
  let '(neg, s) :=
    match s with
    | String "-" s' => (true, s')
    | String "+" s' => (false, s')
    | _ => (false, s)
    end in
  if String.eqb s "" then None
  else
    match digits 0 s with
    | None => None
    | Some n =>
        let n := if neg : bool then - n else n in
        if (- 2 ^ 63 <=? n) && (n <? 2 ^ 63) then Some n else None
    end.

Definition Itoa (n : Z) : string := pretty n.

(** ** [splitAddr] *)

Definition splitAddr (s : string) : option (string * Z) :=
  match SplitHostPort s with
  | inl _ => None
  | inr (host, portStr) =>
      match Atoi portStr with
      | None => None
      | Some port => Some (host, port)
      end
  end.

(** ** Lemmas *)

Lemma IndexByte_Some s c i : IndexByte s c = Some i ->
  exists a b, s = a +:+ String c b /\ String.length a = i /\ ContainsByte a c = false.
Proof.
  revert i. induction s as [|d s IH]; intros i; simpl; [done|].
  destruct (Ascii.eqb_spec c d) as [<-|Hne]; [intros [= <-]; by exists "", s|].
  destruct (IndexByte s c) as [k|]; [|done]. intros [= <-]. destruct (IH k eq_refl) as (a & b & -> & <- & Ha).
  exists (String d a), b. split_and!; try done. simpl. by destruct (Ascii.eqb_spec c d).
Qed.

Lemma IndexByte_app a c b : ContainsByte a c = false -> IndexByte (a +:+ String c b) c = Some (String.length a).
Proof.
  induction a as [|d a IH]; simpl; [by rewrite Ascii.eqb_refl|].
  destruct (Ascii.eqb c d); [done|]. intros H. by rewrite IH.
Qed.

Lemma LastIndexByte_None s c : LastIndexByte s c = None <-> ContainsByte s c = false.
Proof.
  induction s as [|d s IH]; simpl; [done|]. destruct (LastIndexByte s c).
  - split; [done|]. rewrite orb_false_iff. intros [_ H%IH]. done.
  - destruct (Ascii.eqb c d); simpl; [done|]. tauto.
Qed.

Lemma LastIndexByte_Some s c i : LastIndexByte s c = Some i ->
  exists a b, s = a +:+ String c b /\ String.length a = i /\ ContainsByte b c = false.
Proof.
  revert i. induction s as [|d s IH]; intros i; simpl; [done|].
  destruct (LastIndexByte s c) as [k|] eqn:E.
  - intros [= <-]. destruct (IH k eq_refl) as (a & b & -> & <- & Hb). by exists (String d a), b.
  - destruct (Ascii.eqb_spec c d) as [<-|]; [|done]. intros [= <-]. exists "", s.
    split_and!; try done. by apply LastIndexByte_None.
Qed.

Lemma LastIndexByte_app a c b : ContainsByte b c = false -> LastIndexByte (a +:+ String c b) c = Some (String.length a).
Proof.
  intros Hb. induction a as [|d a IH]; simpl.
  - apply LastIndexByte_None in Hb. by rewrite Hb, Ascii.eqb_refl.
  - by rewrite IH.
Qed.

Lemma upto_app a b : upto (String.length a) (a +:+ b) = a.
Proof. unfold upto. induction a as [|c a IH]; simpl; [by destruct b|]. by rewrite IH. Qed.

Lemma from_app_S a c b : from (String.length a + 1) (a +:+ String c b) = b.
Proof. rewrite Nat.add_1_r. induction a as [|d a IH]; simpl; [done|]. exact IH. Qed.

Lemma app_inj_length a b a' b' : String.length a = String.length a' -> a +:+ b = a' +:+ b' -> a = a' /\ b = b'.
Proof.
  revert a'. induction a as [|c a IH]; intros [|c' a']; simpl; try done. intros [= Hl] [= -> H].
  by destruct (IH a' Hl H) as [-> ->].
Qed.

Lemma ContainsByte_cons c d s : ContainsByte (String d s) c = Ascii.eqb c d || ContainsByte s c.
Proof. done. Qed.

(** A host and a port that print unambiguously. *)
Definition host_ok (h : string) : Prop := ContainsByte h lbracket = false /\ ContainsByte h rbracket = false.
Definition port_ok (p : string) : Prop :=
  ContainsByte p lbracket = false /\ ContainsByte p rbracket = false /\ ContainsByte p colon = false.

Lemma SplitHostPort_bracket h p : host_ok h -> port_ok p -> SplitHostPort ("[" +:+ h +:+ "]:" +:+ p) = inr (h, p).
Proof.
  intros [Hh1 Hh2] (Hp1 & Hp2 & Hp3).
  assert (E1 : "[" +:+ h +:+ "]:" +:+ p = (("[" +:+ h) +:+ "]") +:+ String colon p) by (by rewrite !GoStrings.app_assoc).
  assert (E2 : "[" +:+ h +:+ "]:" +:+ p = ("[" +:+ h) +:+ String rbracket (String colon p)) by (by rewrite !GoStrings.app_assoc).
  unfold SplitHostPort. rewrite E1 at 1. rewrite LastIndexByte_app by done.
  assert (HasPrefix ("[" +:+ h +:+ "]:" +:+ p) "[" = true) as -> by done.
  rewrite E2 at 1. rewrite IndexByte_app by done. rewrite !GoStrings.length_app. cbv zeta.
  destruct (Nat.eqb_spec (String.length "[" + String.length h + 1) (String.length "[" + (String.length h + (String.length "]:" + String.length p))))
    as [H|_]; [simpl in H; lia|]. rewrite Nat.eqb_refl.
  assert (from 1 ("[" +:+ h +:+ "]:" +:+ p) = h +:+ "]:" +:+ p) as -> by done.
  rewrite !ContainsByte_app, Hh1, Hp1. cbn [orb].
  assert (ContainsByte "]:" lbracket = false) as -> by done. cbn [orb].
  rewrite <- (GoStrings.length_app "[" h), E2, from_app_S, ContainsByte_cons, Hp2.
  assert (Ascii.eqb rbracket colon = false) as -> by done. cbn [orb].
  rewrite upto_app, <- E2, E1.
  assert (String.length ("[" +:+ h) + String.length "]" = String.length (("[" +:+ h) +:+ "]"))%nat as ->
    by (by rewrite (GoStrings.length_app ("[" +:+ h))).
  by rewrite from_app_S.
Qed.

Lemma SplitHostPort_plain h p : host_ok h -> port_ok p -> ContainsByte h colon = false ->
  SplitHostPort (h +:+ ":" +:+ p) = inr (h, p).
Proof.
  intros [Hh1 Hh2] (Hp1 & Hp2 & Hp3) Hc. unfold SplitHostPort.
  change (h +:+ ":" +:+ p) with (h +:+ String colon p). rewrite LastIndexByte_app by done.
  assert (HasPrefix (h +:+ String colon p) "[" = false) as ->.
  { destruct h as [|d h]; [done|]. simpl in *. apply orb_false_iff in Hh1 as [Hd _]. unfold lbracket in Hd. by rewrite Hd. }
  rewrite upto_app, Hc. rewrite !from_0, !ContainsByte_app, !ContainsByte_cons, Hh1, Hh2, Hp1, Hp2.
  cbn [orb]. assert (Ascii.eqb lbracket colon = false) as -> by done.
  assert (Ascii.eqb rbracket colon = false) as -> by done. cbn [orb]. by rewrite from_app_S.
Qed.

(** What [SplitHostPort] accepts, exactly. *)
Lemma SplitHostPort_spec s h p :
  SplitHostPort s = inr (h, p) <->
  host_ok h /\ port_ok p /\
  (s = "[" +:+ h +:+ "]:" +:+ p \/ (s = h +:+ ":" +:+ p /\ ContainsByte h colon = false)).
Proof.
  split; [|intros (Hh & Hp & [->|[-> Hc]]); [by apply SplitHostPort_bracket|by apply SplitHostPort_plain]].
  unfold SplitHostPort. destruct (LastIndexByte s colon) as [i|] eqn:Ei; [|done].
  apply LastIndexByte_Some in Ei as (a & b & -> & <- & Hb).
  destruct (HasPrefix (a +:+ String colon b) "[") eqn:Hpre; cbv zeta.
  - destruct (IndexByte (a +:+ String colon b) rbracket) as [e|] eqn:Ee; [|done].
    apply IndexByte_Some in Ee as (x & y & Exy & <- & Hx).
    destruct (_ =? String.length (a +:+ _))%nat; [done|].
    destruct (Nat.eqb_spec (String.length x + 1) (String.length a)) as [Hl|_]; [|by repeat case_match].
    assert (a = x +:+ "]" /\ y = String colon b) as [-> ->].
    { change (String rbracket y) with ("]" +:+ y) in Exy. rewrite <- (GoStrings.app_assoc x) in Exy.
      apply app_inj_length in Exy as [-> H]; [done|]. rewrite GoStrings.length_app. simpl. lia. }
    destruct x as [|d x]; [done|]. simpl in Hpre. rewrite andb_true_r in Hpre. apply Ascii.eqb_eq in Hpre as <-.
    rewrite Exy. change (from 1 (String "[" x +:+ String rbracket (String colon b))) with (x +:+ String rbracket (String colon b)).
    rewrite from_app_S, upto_app, <- Exy, from_app_S.
    rewrite ContainsByte_app, !ContainsByte_cons in *.
    destruct (ContainsByte x lbracket) eqn:H1; [done|]. destruct (ContainsByte b lbracket) eqn:H2; [done|].
    destruct (ContainsByte b rbracket) eqn:H3; [done|]. cbn. intros [= <- <-].
    split; [by split|]. split; [done|]. left. simpl. by rewrite GoStrings.app_assoc.
  - rewrite upto_app. destruct (ContainsByte a colon) eqn:Hc; [done|]. rewrite !from_0.
    rewrite !ContainsByte_app, !ContainsByte_cons.
    destruct (ContainsByte a lbracket) eqn:H1; [done|]. destruct (ContainsByte b lbracket) eqn:H2; [done|].
    destruct (ContainsByte a rbracket) eqn:H3; [done|]. destruct (ContainsByte b rbracket) eqn:H4; [done|]. cbn.
    rewrite from_app_S. intros [= <- <-]. split; [done|]. split; [done|]. by right.
Qed.

(** ** Decimal numbers *)

Lemma digit_pretty x : (x < 10)%N -> digit (pretty_N_char x) = Some (Z.of_N x).
Proof.
  intros H. assert (x = 0 \/ x = 1 \/ x = 2 \/ x = 3 \/ x = 4 \/ x = 5 \/ x = 6 \/ x = 7 \/ x = 8 \/ x = 9)%N as Hx by lia.
  repeat destruct Hx as [->|Hx]; try done. by subst.
Qed.

Lemma digits_pretty_go x s : digits 0 (pretty_N_go x s) = digits (Z.of_N x) s.
Proof.
  revert s. induction (N.lt_wf_0 x) as [x _ IH]; intros s.
  destruct (decide (x = 0)%N) as [->|Hx]; [by rewrite pretty_N_go_0|].
  rewrite pretty_N_go_step, IH by (apply N.div_lt || idtac; lia). simpl.
  rewrite digit_pretty by (by apply N.mod_lt). f_equal.
  rewrite N2Z.inj_div, N2Z.inj_mod. pose proof (Z.div_mod (Z.of_N x) 10). lia.
Qed.

Lemma pretty_go_free c x s : digit c = None -> ContainsByte (pretty_N_go x s) c = ContainsByte s c.
Proof.
  intros Hc. revert s. induction (N.lt_wf_0 x) as [x _ IH]; intros s.
  destruct (decide (x = 0)%N) as [->|Hx]; [by rewrite pretty_N_go_0|].
  rewrite pretty_N_go_step, IH by (apply N.div_lt || idtac; lia). simpl.
  destruct (Ascii.eqb_spec c (pretty_N_char (x `mod` 10))) as [->|]; [|done].
  by rewrite digit_pretty in Hc by (by apply N.mod_lt).
Qed.

Lemma Itoa_free c n : 0 <= n -> digit c = None -> ContainsByte (Itoa n) c = false.
Proof.
  intros Hn Hc. destruct n as [|q|q]; [|by apply (pretty_go_free c (Npos q) "")|lia].
  cbn. destruct (Ascii.eqb_spec c "0"%char) as [->|]; done.
Qed.

Lemma digits_Itoa n : 0 <= n -> digits 0 (Itoa n) = Some n.
Proof. intros Hn. destruct n as [|q|q]; [done| |lia]. exact (digits_pretty_go (Npos q) ""). Qed.

Lemma Atoi_digits s n : s <> "" -> digits 0 s = Some n -> - 2 ^ 63 <= n < 2 ^ 63 -> Atoi s = Some n.
Proof.
  intros Hs Hd Hn. assert (Hr : (- 2 ^ 63 <=? n) && (n <? 2 ^ 63) = true) by lia.
  destruct s as [|c s]; [done|]. unfold Atoi.
  assert (Hgo : forall neg : bool, neg = false -> match digits 0 (String c s) with
    | Some n => let n := if neg then - n else n in if (- 2 ^ 63 <=? n) && (n <? 2 ^ 63) then Some n else None
    | None => None end = Some n) by (intros neg ->; rewrite Hd; cbv zeta iota; by rewrite Hr).
  destruct c as [[] [] [] [] [] [] [] []]; try (by apply (Hgo false)); done.
Qed.

Lemma Atoi_Itoa n : 0 <= n < 2 ^ 63 -> Atoi (Itoa n) = Some n.
Proof.
  intros Hn. apply Atoi_digits; [|apply digits_Itoa; lia|lia].
  intros E. pose proof (digits_Itoa n) as H. rewrite E in H. specialize (H ltac:(lia)). injection H as <-. done.
Qed.

Lemma Itoa_port n : 0 <= n -> port_ok (Itoa n).
Proof. intros Hn. split_and!; by apply Itoa_free. Qed.

Lemma splitAddr_join host port : host_ok host -> 0 <= port < 2 ^ 63 ->
  splitAddr (JoinHostPort host (Itoa port)) = Some (host, port).
Proof.
  intros Hh Hp. unfold splitAddr.
  assert (SplitHostPort (JoinHostPort host (Itoa port)) = inr (host, Itoa port)) as ->.
  { pose proof (Itoa_port port ltac:(lia)). unfold JoinHostPort. apply SplitHostPort_spec.
    destruct (ContainsByte host colon) eqn:E; auto. }
  by rewrite Atoi_Itoa.
Qed.

(** ** Properties *)

(** [splitAddr] inverts the printing of an address, and accepts nothing but
    printed addresses.  An address printed as the library prints it, in brackets if
    the host has a colon, comes back as its host and port, for every host without
    brackets and every port; and whatever [splitAddr] accepts is a host and a port
    joined by a colon, the host in brackets or free of colons, and the port the
    decimal number it returns, within 64 bits. *)
Theorem splitAddr_roundtrip :
  (forall host port, host_ok host -> 0 <= port < 2 ^ 16 ->
     splitAddr (JoinHostPort host (Itoa port)) = Some (host, port)) /\
  (forall s host port, splitAddr s = Some (host, port) ->
     exists p, Atoi p = Some port /\ - 2 ^ 63 <= port < 2 ^ 63 /\ host_ok host /\ port_ok p /\
       (s = "[" +:+ host +:+ "]:" +:+ p \/ (s = host +:+ ":" +:+ p /\ ContainsByte host colon = false))).
Proof.
  split; [intros host port Hh Hp; apply splitAddr_join; [done|lia]|].
  intros s host port. unfold splitAddr. destruct (SplitHostPort s) as [e|[h p]] eqn:E; [done|].
  destruct (Atoi p) as [n|] eqn:Ea; [|done]. intros [= <- <-]. apply SplitHostPort_spec in E as (Hh & Hp & Hs).
  exists p. split_and!; try done; try (by apply Hh); try (by apply Hp);
    (unfold Atoi in Ea; repeat case_match; simplify_eq; bool_to_prop; lia).
Qed.
