(* ===== verification/PolicyMatcher.v ===== *)
(** * PolicyMatcher: [pkg/policy/matcher.go]

    The relay-side policy engine: glob matching ([matchGlob]), rule selection
    ([matchFirst], [Snapshot.Decide]), the target index ([BuildSnapshot]) and
    the hot-swappable [Engine].

    The reference semantics of a pattern is the relation [glob]; that of a
    decision is a linear scan of the rules ([first_applicable]).  Go's map
    iteration order is unspecified, so the operations that range over a map take
    the order of that run as an argument [iter], with [iter_ok] as its law. *)

From S2P Require Import Prelude GoStrings.
From Stdlib Require Import Ascii.

(** ** Data *)

Inductive Decision := DecisionDeny | DecisionAllow.
Inductive RelayMode := RelayModeSplice | RelayModeForward.
Inductive P2PMode := P2PModeAllowed | P2PModeForbidden | P2PModeRequired.

#[export] Instance Decision_eq_dec : EqDecision Decision.
Proof. solve_decision. Defined.
#[export] Instance RelayMode_eq_dec : EqDecision RelayMode.
Proof. solve_decision. Defined.
#[export] Instance P2PMode_eq_dec : EqDecision P2PMode.
Proof. solve_decision. Defined.

Record Result := mkResult {
  res_Decision : Decision;
  res_Reason : string;
  res_P2PMode : P2PMode;
  res_RelayMode : RelayMode
}.

#[export] Instance Result_eq_dec : EqDecision Result.
Proof. solve_decision. Defined.

(** A [Result] literal that leaves the modes at their zero values. *)
Definition plain_result (d : Decision) (reason : string) : Result :=
  mkResult d reason P2PModeAllowed RelayModeSplice.

Record Rule := mkRule {
  ID : string;
  CallerPattern : string;
  TargetPattern : string;
  MethodPattern : string;
  rule_Decision : Decision;
  ExpiresUnixMs : Z;
  rule_P2PMode : P2PMode;
  rule_RelayMode : RelayMode
}.

#[export] Instance Rule_eq_dec : EqDecision Rule.
Proof. solve_decision. Defined.

Record Snapshot := mkSnapshot {
  byTarget : gmap string (list Rule);
  wildcard : list Rule
}.

Definition Decision_String (d : Decision) : string :=
  if decide (d = DecisionAllow) then "allow" else "deny".

Definition RelayMode_String (m : RelayMode) : string :=
  if decide (m = RelayModeForward) then "forward" else "splice".

Definition P2PMode_String (m : P2PMode) : string :=
  match m with
  | P2PModeForbidden => "forbidden"
  | P2PModeRequired => "required"
  | _ => "allowed"
  end.

Definition CombineP2PModes (a b : P2PMode) : P2PMode :=
  if decide (a = P2PModeForbidden \/ b = P2PModeForbidden) then P2PModeForbidden
  else if decide (a = P2PModeRequired \/ b = P2PModeRequired) then P2PModeRequired
  else P2PModeAllowed.

(** ** Glob matching *)

Definition star : ascii := "*"%char.

(** The loop over [parts[1 : len(parts)-1]]: what is left of [s] after every
    middle piece has been found in order. *)
Fixpoint match_middle (ps : list string) (s : string) : option string :=
  match ps with
  | [] => Some s
  | p :: ps' =>
      match Index s p with
      | None => None
      | Some idx => match_middle ps' (from (idx + String.length p) s)
      end
  end.

Definition matchGlob (pattern s : string) : bool :=
  if String.eqb pattern "" then String.eqb s ""
  else if negb (ContainsByte pattern star) then String.eqb pattern s
  else if String.eqb pattern (String star "") then true
  else
    let parts := Split pattern star in
    let first := default "" (head parts) in
    if negb (HasPrefix s first) then false
    else
      let s := from (String.length first) s in
      match match_middle (removelast (tail parts)) s with
      | None => false
      | Some s => HasSuffix s (List.last parts "")
      end.

(** ** Deciding *)

Definition expired (r : Rule) (nowMs : Z) : bool :=
  (0 <? ExpiresUnixMs r) && (ExpiresUnixMs r <=? nowMs).

Fixpoint matchFirst (rs : list Rule) (caller target method : string) (nowMs : Z) : option Rule :=
  match rs with
  | [] => None
  | r :: rs' =>
      if expired r nowMs then matchFirst rs' caller target method nowMs
      else if negb (matchGlob (CallerPattern r) caller) then matchFirst rs' caller target method nowMs
      else if negb (matchGlob (TargetPattern r) target) then matchFirst rs' caller target method nowMs
      else if negb (String.eqb (MethodPattern r) "") && negb (matchGlob (MethodPattern r) method)
      then matchFirst rs' caller target method nowMs
      else Some r
  end.

Definition rule_result (r : Rule) : Result :=
  mkResult (rule_Decision r) (ID r) (rule_P2PMode r) (rule_RelayMode r).

(** [Snapshot.Decide]; [None] is the nil receiver. *)
Definition Decide (s : option Snapshot) (caller target method : string) (now : Time) : Result :=
  match s with
  | None => plain_result DecisionDeny "no policy snapshot"
  | Some s =>
      let nowMs := UnixMilli now in
      let exact :=
        match byTarget s !! target with
        | Some rs => matchFirst rs caller target method nowMs
        | None => None
        end in
      match exact with
      | Some r => rule_result r
      | None =>
          match matchFirst (wildcard s) caller target method nowMs with
          | Some r => rule_result r
          | None => plain_result DecisionDeny "no matching rule"
          end
      end
  end.

(** One iteration of the loop of [BuildSnapshot]. *)
Definition index_rule (s : Snapshot) (r : Rule) : Snapshot :=
  if ContainsByte (TargetPattern r) star
  then mkSnapshot (byTarget s) (wildcard s ++ [r])
  else mkSnapshot
         (<[TargetPattern r := default [] (byTarget s !! TargetPattern r) ++ [r]]> (byTarget s))
         (wildcard s).

Definition BuildSnapshot (rules : list Rule) : Snapshot :=
  foldl index_rule (mkSnapshot ∅ []) rules.

(** ** Conversion from the wire

    [pb.PolicyRule] and its enums are generated code outside the repository: the
    enum constants are parameters. *)

Class PBEnums := {
  pb_P2P_FORBIDDEN : Z;
  pb_P2P_REQUIRED : Z;
  pb_RELAY_MODE_FORWARD : Z;
  pb_DECISION_DENY : Z
}.

Record PolicyRule := mkPolicyRule {
  pr_Id : string;
  pr_CallerPattern : string;
  pr_TargetPattern : string;
  pr_MethodPattern : string;
  pr_Decision : Z;
  pr_ExpiresUnixMs : Z;
  pr_P2PMode : Z;
  pr_RelayMode : Z
}.

Section FromPB.
Context `{PBEnums}.

Definition p2pModeFromPB (m : Z) : P2PMode :=
  if m =? pb_P2P_FORBIDDEN then P2PModeForbidden
  else if m =? pb_P2P_REQUIRED then P2PModeRequired
  else P2PModeAllowed.

Definition relayModeFromPB (m : Z) : RelayMode :=
  if m =? pb_RELAY_MODE_FORWARD then RelayModeForward else RelayModeSplice.

Definition decisionFromPB (d : Z) : Decision :=
  if d =? pb_DECISION_DENY then DecisionDeny else DecisionAllow.

Definition FromPB (r : PolicyRule) : Rule := {|
  ID := pr_Id r;
  CallerPattern := pr_CallerPattern r;
  TargetPattern := pr_TargetPattern r;
  MethodPattern := pr_MethodPattern r;
  rule_Decision := decisionFromPB (pr_Decision r);
  ExpiresUnixMs := pr_ExpiresUnixMs r;
  rule_P2PMode := p2pModeFromPB (pr_P2PMode r);
  rule_RelayMode := relayModeFromPB (pr_RelayMode r)
|}.

End FromPB.

(** ** The engine *)

Record Engine := mkEngine {
  cur : Snapshot;
  rules : gmap string Rule
}.

Definition NewEngine : Engine := mkEngine (BuildSnapshot []) ∅.

(** The order in which one [for range] visits the values of a map. *)
Definition iter_order := gmap string Rule -> list Rule.
Definition iter_ok (iter : iter_order) : Prop :=
  forall m, iter m ≡ₚ (map_to_list m).*2.

Definition Engine_Decide (e : Engine) (caller target method : string) (now : Time) : Result :=
  Decide (Some (cur e)) caller target method now.

(** [Apply] in its two halves: what runs under the mutex, and the store of the
    new snapshot after the mutex is released. *)
Definition apply_locked (iter : iter_order) (mutate : gmap string Rule -> gmap string Rule)
    (e : Engine) : Engine * Snapshot :=
  let m := mutate (rules e) in
  (mkEngine (cur e) m, BuildSnapshot (iter m)).

Definition apply_store (snap : Snapshot) (e : Engine) : Engine :=
  mkEngine snap (rules e).

Definition Apply (iter : iter_order) (mutate : gmap string Rule -> gmap string Rule)
    (e : Engine) : Engine :=
  let '(e1, snap) := apply_locked iter mutate e in apply_store snap e1.

(** The closure [Set] passes to [Apply]: every key is deleted, then the rules
    are inserted in order. *)
Definition set_rules (rs : list Rule) (m : gmap string Rule) : gmap string Rule :=
  let cleared := foldl (fun m k => delete k m) m (map_to_list m).*1 in
  foldl (fun m r => <[ID r := r]> m) cleared rs.

Definition Engine_Set (iter : iter_order) (rs : list Rule) (e : Engine) : Engine :=
  Apply iter (set_rules rs) e.

Definition Engine_Add (iter : iter_order) (r : Rule) (e : Engine) : Engine :=
  Apply iter (fun m => <[ID r := r]> m) e.

Definition Engine_Remove (iter : iter_order) (id : string) (e : Engine) : Engine :=
  Apply iter (fun m => delete id m) e.

(** ** Reference semantics *)

(** [glob p s]: [s] is an instance of [p], each star standing for any run of
    bytes, the empty one included. *)
Inductive glob : string -> string -> Prop :=
  | glob_nil : glob "" ""
  | glob_char c p s : c <> star -> glob p s -> glob (String c p) (String c s)
  | glob_star_end p s : glob p s -> glob (String star p) s
  | glob_star_more d p s : glob (String star p) s -> glob (String star p) (String d s).

(** A rule applies to a request at [nowMs]. *)
Definition applicable (caller target method : string) (nowMs : Z) (r : Rule) : Prop :=
  (ExpiresUnixMs r <= 0 \/ nowMs < ExpiresUnixMs r) /\
  glob (CallerPattern r) caller /\
  glob (TargetPattern r) target /\
  (MethodPattern r = "" \/ glob (MethodPattern r) method).

Definition is_wild (r : Rule) : bool := ContainsByte (TargetPattern r) star.

Definition names_target (target : string) (r : Rule) : bool :=
  negb (is_wild r) && String.eqb (TargetPattern r) target.

(** The order in which [Decide] considers the rules of [BuildSnapshot rs]: rules
    naming the target exactly, then rules with a star in the target. *)
Definition precedence (rs : list Rule) : list Rule :=
  List.filter (fun r => negb (is_wild r)) rs ++ List.filter is_wild rs.

(** [res] is the outcome of the first applicable rule of [rs], or the
    closed-world denial when none applies. *)
Inductive first_applicable (caller target method : string) (nowMs : Z) : list Rule -> Result -> Prop :=
  | fa_none : first_applicable caller target method nowMs []
                (plain_result DecisionDeny "no matching rule")
  | fa_hit r rs : applicable caller target method nowMs r ->
      first_applicable caller target method nowMs (r :: rs) (rule_result r)
  | fa_skip r rs res : ~ applicable caller target method nowMs r ->
      first_applicable caller target method nowMs rs res ->
      first_applicable caller target method nowMs (r :: rs) res.

(** The engine's states: every [Set], [Add] or [Remove], each with the iteration
    order of its own rebuild. *)
Inductive engine_reach : Engine -> Prop :=
  | er_new : engine_reach NewEngine
  | er_set iter rs e : iter_ok iter -> engine_reach e -> engine_reach (Engine_Set iter rs e)
  | er_add iter r e : iter_ok iter -> engine_reach e -> engine_reach (Engine_Add iter r e)
  | er_remove iter id e : iter_ok iter -> engine_reach e -> engine_reach (Engine_Remove iter id e).

(** The snapshot in force is a build of the working set, in some order. *)
Definition engine_inv (e : Engine) : Prop :=
  exists l, l ≡ₚ (map_to_list (rules e)).*2 /\ cur e = BuildSnapshot l.

(** What a rule makes the relay do, its identifier aside. *)
Definition outcome (r : Rule) : Decision * P2PMode * RelayMode :=
  (rule_Decision r, rule_P2PMode r, rule_RelayMode r).
Definition result_outcome (r : Result) : Decision * P2PMode * RelayMode :=
  (res_Decision r, res_P2PMode r, res_RelayMode r).

(** No two rules that both apply, and that the index puts on the same side,
    disagree. *)
Definition conflict_free (caller target method : string) (nowMs : Z) (rs : list Rule) : Prop :=
  forall r1 r2, r1 ∈ rs -> r2 ∈ rs -> is_wild r1 = is_wild r2 ->
    applicable caller target method nowMs r1 -> applicable caller target method nowMs r2 ->
    outcome r1 = outcome r2.

(** ** Glob matching is correct *)

#[local] Hint Constructors glob : core.

Lemma glob_free w p s : ContainsByte w star = false ->
  glob (w +:+ p) s <-> exists t, s = w +:+ t /\ glob p t.
Proof.
  revert s. induction w as [|c w IH]; intros s; simpl.
  - intros _. split; [eauto | by intros (t & -> & ?)].
  - rewrite orb_false_iff. intros [Hc Hw]. apply Ascii.eqb_neq in Hc. split.
    + inversion 1; subst; try done.
      match goal with H : glob (w +:+ p) _ |- _ => apply (IH _ Hw) in H as (t & -> & ?) end. eauto.
    + intros (t & -> & Ht). constructor; [done|]. apply (IH _ Hw). eauto.
Qed.

Lemma glob_free_eq w s : ContainsByte w star = false -> glob w s <-> s = w.
Proof.
  intros Hw. rewrite <- (app_nil_r w) at 1. rewrite (glob_free w "" s Hw). split.
  - intros (t & -> & Ht). inversion Ht; subst. apply app_nil_r.
  - intros ->. exists "". by rewrite app_nil_r.
Qed.

Lemma glob_star p s : glob (String star p) s <-> exists pre t, s = pre +:+ t /\ glob p t.
Proof.
  split.
  - intros H. remember (String star p) as q eqn:Hq. revert Hq.
    induction H as [|c q s Hc H IH|q s H IH|d q s H IH]; intros Hq; try done.
    + injection Hq as -> ->. done.
    + injection Hq as ->. by exists "", s.
    + destruct (IH Hq) as (pre & t & -> & Ht). by exists (String d pre), t.
  - intros (pre & t & -> & Ht). induction pre; simpl; auto.
Qed.

Lemma glob_star_extend p x s : glob (String star p) s -> glob (String star p) (x +:+ s).
Proof.
  rewrite !glob_star. intros (pre & t & -> & Ht). exists (x +:+ pre), t.
  by rewrite app_assoc.
Qed.

(** Two decompositions of one string: the one that stops first leaves more. *)
Lemma app_longer_rest a b c d : a +:+ b = c +:+ d -> (String.length a <= String.length c)%nat ->
  exists x, b = x +:+ d.
Proof.
  revert c. induction a as [|e a IH]; intros c; simpl.
  - intros -> _. eauto.
  - destruct c as [|f c]; simpl; [lia|]. intros [= -> H] Hle. apply (IH c); [done | lia].
Qed.

Lemma Index_from s p i : Index s p = Some i ->
  exists pre post, s = pre +:+ p +:+ post /\ from (i + String.length p) s = post /\
    forall pre' post', s = pre' +:+ p +:+ post' -> exists x, post = x +:+ post'.
Proof.
  intros Hi. destruct (Index_Some _ _ _ Hi) as (pre & post & -> & <- & Hmin).
  exists pre, post. split; [done|]. split.
  - rewrite <- length_app, <- app_assoc. apply from_app.
  - intros pre' post' Heq. pose proof (Hmin _ _ Heq).
    rewrite <- !app_assoc in Heq. apply (app_longer_rest _ _ _ _ Heq).
    rewrite !length_app. lia.
Qed.

(** The greedy scan of the pieces after the first star accepts exactly the
    strings the relation accepts. *)
Lemma match_middle_spec ws s :
  ws <> [] -> Forall (fun w => ContainsByte w star = false) ws ->
  match match_middle (removelast ws) s with
  | None => false
  | Some s' => HasSuffix s' (List.last ws "")
  end = true <-> glob (String star (Join ws star)) s.
Proof.
  intros Hne Hfree. revert s. induction ws as [|w ws IH]; [done|]. intros s. clear Hne.
  inversion Hfree as [|? ? Hw Hws]; subst. destruct ws as [|w' ws].
  - simpl. rewrite HasSuffix_spec, glob_star. split.
    + intros [t ->]. exists t, w. split; [done|]. by apply glob_free_eq.
    + intros (pre & t & -> & ->%glob_free_eq); eauto.
  - specialize (IH ltac:(done) Hws).
    change (removelast (w :: w' :: ws)) with (w :: removelast (w' :: ws)).
    change (List.last (w :: w' :: ws) "") with (List.last (w' :: ws) "").
    change (Join (w :: w' :: ws) star) with (w +:+ String star (Join (w' :: ws) star)).
    cbn [match_middle]. destruct (Index s w) as [i|] eqn:Hi.
    + destruct (Index_from _ _ _ Hi) as (pre & post & -> & -> & Hmin). rewrite IH. split.
      * intros Hg. apply glob_star. exists pre, (w +:+ post). split; [done|].
        apply glob_free; eauto.
      * intros (pre' & t & Heq & Hg)%glob_star. apply (glob_free _ _ _ Hw) in Hg as (u & -> & Hu).
        destruct (Hmin _ _ Heq) as [x ->]. by apply glob_star_extend.
    + split; [done|]. intros (pre & t & -> & Hg)%glob_star.
      apply (glob_free _ _ _ Hw) in Hg as (u & -> & Hu). by destruct (Index_None _ _ Hi pre u).
Qed.

Lemma matchGlob_glob pattern s : matchGlob pattern s = true <-> glob pattern s.
Proof.
  unfold matchGlob. destruct (String.eqb_spec pattern "") as [->|Hne].
  { rewrite String.eqb_eq. split; [by intros -> | by inversion 1]. }
  destruct (ContainsByte pattern star) eqn:Hstar; cbn [negb].
  2: { rewrite String.eqb_eq, glob_free_eq by done. naive_solver. }
  destruct (String.eqb_spec pattern (String star "")) as [->|Hne'].
  { split; [|done]. intros _. apply glob_star. exists s, "". by rewrite app_nil_r. }
  pose proof (Join_Split pattern star) as HJ.
  assert (Forall (fun w => ContainsByte w star = false) (Split pattern star)) as Hfree.
  { apply Forall_forall. intros w. apply Split_free. }
  destruct (Split pattern star) as [|w [|w' ws]] eqn:HS.
  { by apply Split_nonempty in HS. }
  { simpl in HJ. subst. inversion Hfree. congruence. }
  inversion Hfree as [|? ? Hw Hws]; subst. cbn [head default tail from_option id]. cbv zeta.
  change (List.last (w :: w' :: ws) "") with (List.last (w' :: ws) "").
  change (Join (w :: w' :: ws) star) with (w +:+ String star (Join (w' :: ws) star)).
  rewrite (glob_free w _ s Hw). destruct (HasPrefix s w) eqn:Hp.
  - apply HasPrefix_spec in Hp as [t ->]. rewrite from_app. cbn [negb].
    rewrite match_middle_spec by done.
    split; [eauto | by intros (u & ->%(inj _) & ?)].
  - split; [done|]. intros (t & -> & _). by rewrite HasPrefix_app in Hp.
Qed.

Lemma matchGlob_false pattern s : matchGlob pattern s = false <-> ~ glob pattern s.
Proof. by rewrite <- matchGlob_glob, not_true_iff_false. Qed.

(** ** Rule selection is a first-match scan *)

Lemma applicable_dec caller target method nowMs r :
  (expired r nowMs = false /\ matchGlob (CallerPattern r) caller = true /\
   matchGlob (TargetPattern r) target = true /\
   negb (String.eqb (MethodPattern r) "") && negb (matchGlob (MethodPattern r) method) = false)
  <-> applicable caller target method nowMs r.
Proof.
  unfold applicable, expired. rewrite !matchGlob_glob, !andb_false_iff, !negb_false_iff,
    String.eqb_eq, matchGlob_glob, Z.ltb_ge, Z.leb_gt. tauto.
Qed.

Lemma matchFirst_Some rs caller target method nowMs r :
  matchFirst rs caller target method nowMs = Some r ->
  r ∈ rs /\ applicable caller target method nowMs r.
Proof.
  induction rs as [|r' rs IH]; simpl; [done|]. intros H. rewrite elem_of_cons.
  repeat case_match; try (destruct (IH H); by auto). injection H as <-. split; [auto|].
  apply applicable_dec. bool_to_prop. by rewrite !andb_false_iff in *.
Qed.

Lemma matchFirst_scan rs tl caller target method nowMs res :
  match matchFirst rs caller target method nowMs with
  | Some r => res = rule_result r
  | None => first_applicable caller target method nowMs tl res
  end ->
  first_applicable caller target method nowMs (rs ++ tl) res.
Proof.
  induction rs as [|r rs IH]; [done|]. intros H. rewrite <- app_comm_cons.
  cbn [matchFirst] in H.
  destruct (expired r nowMs) eqn:E1, (matchGlob (CallerPattern r) caller) eqn:E2,
    (matchGlob (TargetPattern r) target) eqn:E3,
    (negb (String.eqb (MethodPattern r) "") && negb (matchGlob (MethodPattern r) method)) eqn:E4;
    cbn [negb] in H;
    try (apply fa_skip; [rewrite <- applicable_dec; intuition congruence | by apply IH]).
  rewrite H. apply fa_hit. by apply applicable_dec.
Qed.

Lemma first_applicable_fun caller target method nowMs rs res1 res2 :
  first_applicable caller target method nowMs rs res1 ->
  first_applicable caller target method nowMs rs res2 -> res1 = res2.
Proof. induction 1; inversion 1; naive_solver. Qed.

(** ** The index holds exactly the rules it was built from *)

Lemma BuildSnapshot_snoc rs r : BuildSnapshot (rs ++ [r]) = index_rule (BuildSnapshot rs) r.
Proof. unfold BuildSnapshot. by rewrite foldl_app. Qed.

Lemma BuildSnapshot_wildcard rs : wildcard (BuildSnapshot rs) = List.filter is_wild rs.
Proof.
  induction rs as [|r rs IH] using rev_ind; [done|].
  rewrite BuildSnapshot_snoc, List.filter_app. unfold index_rule. simpl. fold (is_wild r).
  destruct (is_wild r); simpl; rewrite IH; [done | by rewrite List.app_nil_r].
Qed.

Lemma BuildSnapshot_byTarget rs target :
  default [] (byTarget (BuildSnapshot rs) !! target) = List.filter (names_target target) rs.
Proof.
  induction rs as [|r rs IH] using rev_ind; [cbn; by rewrite lookup_empty|].
  rewrite BuildSnapshot_snoc, List.filter_app. unfold index_rule, names_target at 2. simpl.
  fold (is_wild r). destruct (is_wild r); simpl; [by rewrite List.app_nil_r|].
  destruct (String.eqb_spec (TargetPattern r) target) as [<-|Hne].
  - rewrite lookup_insert_eq. simpl. by rewrite IH.
  - rewrite lookup_insert_ne by done. by rewrite List.app_nil_r.
Qed.

(** Dropping the exact rules that name another target does not change the scan:
    none of them applies. *)
Lemma first_applicable_named caller target method nowMs rs tl res :
  first_applicable caller target method nowMs (List.filter (names_target target) rs ++ tl) res ->
  first_applicable caller target method nowMs (List.filter (fun r => negb (is_wild r)) rs ++ tl) res.
Proof.
  induction rs as [|r rs IH]; [done|]. simpl. unfold names_target at 1.
  destruct (is_wild r) eqn:Hw; simpl; [exact IH|].
  destruct (String.eqb_spec (TargetPattern r) target) as [Heq|Hne]; simpl.
  - inversion 1; subst; [by constructor|]. apply fa_skip; auto.
  - intros H. apply fa_skip; [|auto]. intros (_ & _ & Hg & _).
    apply glob_free_eq in Hg; [congruence | exact Hw].
Qed.

Lemma Decide_scan rs caller target method now :
  first_applicable caller target method (UnixMilli now) (precedence rs)
    (Decide (Some (BuildSnapshot rs)) caller target method now).
Proof.
  apply first_applicable_named. apply matchFirst_scan.
  rewrite <- BuildSnapshot_byTarget. cbn [Decide]. set (nowMs := UnixMilli now).
  assert (Hw : first_applicable caller target method nowMs (List.filter is_wild rs)
    match matchFirst (wildcard (BuildSnapshot rs)) caller target method nowMs with
    | Some r => rule_result r
    | None => plain_result DecisionDeny "no matching rule"
    end).
  { rewrite BuildSnapshot_wildcard, <- (List.app_nil_r (List.filter is_wild rs)) at 1.
    apply matchFirst_scan. destruct (matchFirst _ _ _ _ _); [done | constructor]. }
  destruct (byTarget (BuildSnapshot rs) !! target) as [l|] eqn:Hl; simpl; [|exact Hw].
  by destruct (matchFirst l caller target method nowMs).
Qed.

(** ** The engine *)

Lemma Apply_inv iter mutate e : iter_ok iter -> engine_inv (Apply iter mutate e).
Proof. intros Hi. exists (iter (mutate (rules e))). split; [apply Hi | done]. Qed.

Lemma Apply_rules iter mutate e : rules (Apply iter mutate e) = mutate (rules e).
Proof. done. Qed.

Lemma engine_reach_inv e : engine_reach e -> engine_inv e.
Proof. destruct 1; try by apply Apply_inv. by exists []. Qed.

Lemma set_rules_eq rs m : set_rules rs m = foldl (fun m r => <[ID r := r]> m) ∅ rs.
Proof.
  unfold set_rules. f_equal. apply map_eq. intros k. rewrite lookup_empty.
  assert (forall l (n : gmap string Rule), foldl (fun m k => delete k m) n l !! k = None <->
    k ∈ l \/ n !! k = None) as Hdel.
  { induction l as [|k' l IH]; intros n; simpl; [set_solver|].
    rewrite IH, elem_of_cons, lookup_delete. case_decide; naive_solver. }
  apply Hdel. destruct (m !! k) as [r|] eqn:Hk; [left|by right].
  apply list_elem_of_fmap. exists (k, r). split; [done|]. by apply elem_of_map_to_list.
Qed.

(** The scan over one side of the index depends only on which rules apply. *)
Lemma first_applicable_in caller target method nowMs rs res :
  first_applicable caller target method nowMs rs res ->
  (res = plain_result DecisionDeny "no matching rule" /\
   forall r, r ∈ rs -> ~ applicable caller target method nowMs r) \/
  (exists r, r ∈ rs /\ applicable caller target method nowMs r /\ res = rule_result r).
Proof.
  induction 1 as [|r rs H|r rs res Hn H IH].
  - left. split; [done|]. set_solver.
  - right. exists r. set_solver.
  - destruct IH as [[-> IH]|(r' & Hin & Ha & ->)].
    + left. split; [done|]. intros r' [->|?]%elem_of_cons; auto.
    + right. exists r'. set_solver.
Qed.

Lemma first_applicable_app caller target method nowMs l1 l2 res :
  first_applicable caller target method nowMs (l1 ++ l2) res ->
  (exists r, r ∈ l1 /\ applicable caller target method nowMs r /\ res = rule_result r) \/
  ((forall r, r ∈ l1 -> ~ applicable caller target method nowMs r) /\
   first_applicable caller target method nowMs l2 res).
Proof.
  induction l1 as [|r l1 IH]; simpl; [right; set_solver|].
  inversion 1 as [|? ? Ha|? ? ? Hn Hr]; subst.
  - left. exists r. set_solver.
  - destruct (IH Hr) as [(r' & ? & ? & ?)|[Hno Hl2]].
    + left. exists r'. set_solver.
    + right. split; [|done]. intros r' [->|?]%elem_of_cons; auto.
Qed.

Lemma precedence_perm_side (P : Rule -> bool) rs1 rs2 r :
  rs1 ≡ₚ rs2 -> r ∈ List.filter P rs1 <-> r ∈ List.filter P rs2.
Proof. intros Hp. by rewrite !list_elem_of_In, !filter_In, <- !list_elem_of_In, Hp. Qed.

Lemma elem_of_side (P : Rule -> bool) rs r : r ∈ List.filter P rs <-> r ∈ rs /\ P r = true.
Proof. by rewrite !list_elem_of_In, filter_In. Qed.

(** Two scans of permuted, conflict-free rule lists have the same outcome. *)
Lemma scan_perm caller target method nowMs rs1 rs2 res1 res2 :
  rs1 ≡ₚ rs2 -> conflict_free caller target method nowMs rs1 ->
  first_applicable caller target method nowMs (precedence rs1) res1 ->
  first_applicable caller target method nowMs (precedence rs2) res2 ->
  result_outcome res1 = result_outcome res2.
Proof.
  intros Hp Hc H1 H2. unfold precedence in *.
  assert (forall r1 r2, r1 ∈ rs1 -> r2 ∈ rs2 -> is_wild r1 = is_wild r2 ->
    applicable caller target method nowMs r1 -> applicable caller target method nowMs r2 ->
    result_outcome (rule_result r1) = result_outcome (rule_result r2)) as Hc'.
  { intros r1 r2 ? ?%(elem_of_Permutation_proper _ _ _ Hp). apply Hc; done. }
  apply first_applicable_app in H1 as [(r1 & [? W1]%elem_of_side & ? & ->)|[N1 H1]],
    H2 as [(r2 & [? W2]%elem_of_side & ? & ->)|[N2 H2]].
  - apply Hc'; try done. destruct (is_wild r1), (is_wild r2); done.
  - destruct (N2 r1); [|done]. apply (precedence_perm_side _ _ _ _ Hp), elem_of_side. done.
  - destruct (N1 r2); [|done]. apply (precedence_perm_side _ _ _ _ Hp), elem_of_side. done.
  - apply first_applicable_in in H1 as [[-> M1]|(r1 & [? W1]%elem_of_side & ? & ->)],
      H2 as [[-> M2]|(r2 & [? W2]%elem_of_side & ? & ->)]; [done|..].
    + destruct (M1 r2); [|done]. apply (precedence_perm_side _ _ _ _ Hp), elem_of_side. done.
    + destruct (M2 r1); [|done]. apply (precedence_perm_side _ _ _ _ Hp), elem_of_side. done.
    + apply Hc'; try done. by rewrite W1, W2.
Qed.

(** ** Any applicable rule may win *)

(** An iteration order that visits [r] first whenever the map holds it. *)
Definition visit_first (r : Rule) : iter_order := fun m =>
  if decide (m !! ID r = Some r)
  then r :: (map_to_list (delete (ID r) m)).*2
  else (map_to_list m).*2.

Lemma visit_first_ok r : iter_ok (visit_first r).
Proof.
  intros m. unfold visit_first. case_decide as Hr; [|done].
  by rewrite <- (map_to_list_delete m (ID r) r Hr).
Qed.

Lemma first_applicable_head caller target method nowMs r rs res :
  is_wild r = false -> applicable caller target method nowMs r ->
  first_applicable caller target method nowMs (precedence (r :: rs)) res -> res = rule_result r.
Proof.
  intros Hw Ha. unfold precedence. simpl. rewrite Hw. simpl. by inversion 1.
Qed.

(** ** Properties *)

(** C19: [matchGlob pattern s] holds exactly when [s] is an instance of
    [pattern] in the reference semantics, for every pattern and every string:
    the greedy left-to-right search never misses a match and never invents one,
    and a star may stand for nothing. *)
Theorem matchGlob_correct pattern s : matchGlob pattern s = true <-> glob pattern s.
Proof. apply matchGlob_glob. Qed.

(** C18: [Decide] over the index built from [rs] is a first-match scan of [rs]
    that considers the rules naming the target before those with a star in the
    target, skips expired rules, and denies with reason "no matching rule" when
    none applies.  The index is an optimisation of that scan and nothing else. *)
Theorem Decide_first_match rs caller target method now res :
  Decide (Some (BuildSnapshot rs)) caller target method now = res <->
  first_applicable caller target method (UnixMilli now) (precedence rs) res.
Proof.
  pose proof (Decide_scan rs caller target method now) as Hd. split; [by intros <-|].
  intros H. by apply (first_applicable_fun caller target method (UnixMilli now) (precedence rs)).
Qed.

Lemma inv_has_rule e caller target method now :
  engine_inv e ->
  res_Decision (Engine_Decide e caller target method now) = DecisionAllow ->
  exists id r, rules e !! id = Some r /\ rule_Decision r = DecisionAllow /\
    applicable caller target method (UnixMilli now) r /\
    Engine_Decide e caller target method now = rule_result r.
Proof.
  intros (l & Hl & Hc) Hd. unfold Engine_Decide in *. rewrite Hc in *.
  destruct (first_applicable_in _ _ _ _ _ _ (Decide_scan l caller target method now))
    as [[Heq _]|(r & Hin & Ha & Heq)]; rewrite Heq in *; [done|].
  assert (r ∈ (map_to_list (rules e)).*2) as [[id r'] [-> ?%elem_of_map_to_list]]%list_elem_of_fmap.
  { rewrite <- Hl. apply elem_of_app in Hin as [[? _]%elem_of_side|[? _]%elem_of_side]; done. }
  exists id, r'. done.
Qed.

(** Closed world.  In every state the engine can reach, an allow comes from
    a rule of the working set that is not expired, matches the caller, the
    target and the method, says allow, and dictates the modes of the result;
    no iteration order and no sequence of updates can produce any other allow. *)
Theorem allow_has_rule e caller target method now :
  engine_reach e ->
  res_Decision (Engine_Decide e caller target method now) = DecisionAllow ->
  exists id r, rules e !! id = Some r /\ rule_Decision r = DecisionAllow /\
    applicable caller target method (UnixMilli now) r /\
    Engine_Decide e caller target method now = rule_result r.
Proof.
  intros He. apply inv_has_rule. by apply engine_reach_inv.
Qed.

Definition demo_rule : Rule :=
  mkRule "r1" "outrelay://acme/agent/*" "svc-pay" "" DecisionAllow 0 P2PModeAllowed RelayModeForward.

Lemma allow_has_rule_witness :
  exists id r, rules (Engine_Add (visit_first demo_rule) demo_rule NewEngine) !! id = Some r /\
    rule_Decision r = DecisionAllow /\
    applicable "outrelay://acme/agent/c" "svc-pay" "GET" (UnixMilli 5) r /\
    Engine_Decide (Engine_Add (visit_first demo_rule) demo_rule NewEngine)
      "outrelay://acme/agent/c" "svc-pay" "GET" 5 = rule_result r.
Proof.
  apply allow_has_rule.
  - apply er_add; [apply visit_first_ok | apply er_new].
  - vm_compute. reflexivity.
Defined.

(** When the rules that apply to a request agree with one another (exact
    rules among themselves, starred rules among themselves), the decision, the
    P2P mode and the relay mode do not depend on the order in which Go happens
    to iterate over the working set when it rebuilds the snapshot. *)
Theorem Decide_order_independent rs1 rs2 caller target method now :
  rs1 ≡ₚ rs2 ->
  conflict_free caller target method (UnixMilli now) rs1 ->
  result_outcome (Decide (Some (BuildSnapshot rs1)) caller target method now) =
  result_outcome (Decide (Some (BuildSnapshot rs2)) caller target method now).
Proof.
  intros Hp Hc. eapply (scan_perm caller target method (UnixMilli now) rs1 rs2); eauto using Decide_scan.
Qed.

Definition demo_rule2 : Rule :=
  mkRule "r2" "*" "svc-pay" "GET" DecisionAllow 0 P2PModeAllowed RelayModeForward.

Lemma Decide_order_independent_witness :
  result_outcome (Decide (Some (BuildSnapshot [demo_rule; demo_rule2]))
    "outrelay://acme/agent/c" "svc-pay" "GET" 0) =
  result_outcome (Decide (Some (BuildSnapshot [demo_rule2; demo_rule]))
    "outrelay://acme/agent/c" "svc-pay" "GET" 0).
Proof.
  apply (Decide_order_independent [demo_rule; demo_rule2] [demo_rule2; demo_rule]); [constructor|].
  intros r1 r2 H1 H2 _ _ _. rewrite !elem_of_cons in *.
  destruct H1 as [->|[->|H1]], H2 as [->|[->|H2]]; try reflexivity; inversion H1 || inversion H2.
Defined.

(** A working set with conflicting rules has no determined decision.
    Whatever else the working set holds, any exact-target rule of it that
    applies decides the request after the next rebuild, under some iteration
    order Go is free to take; two applicable rules that disagree can each win. *)
Theorem any_applicable_rule_may_win e r other caller target method now :
  rules e !! ID r = Some r -> other <> ID r -> is_wild r = false ->
  applicable caller target method (UnixMilli now) r ->
  exists iter, iter_ok iter /\
    Engine_Decide (Engine_Remove iter other e) caller target method now = rule_result r.
Proof.
  intros Hr Hne Hw Ha. exists (visit_first r). split; [apply visit_first_ok|].
  unfold Engine_Decide, Engine_Remove, Apply, apply_locked, apply_store, visit_first. simpl.
  rewrite lookup_delete_ne, Hr, decide_True by done.
  eapply (first_applicable_head caller target method (UnixMilli now) r); [done..|].
  apply Decide_scan.
Qed.

Lemma any_applicable_rule_may_win_witness :
  exists iter, iter_ok iter /\
    Engine_Decide (Engine_Remove iter "gone" (mkEngine (BuildSnapshot []) {["r1" := demo_rule]}))
      "outrelay://acme/agent/c" "svc-pay" "GET" 5 = rule_result demo_rule.
Proof.
  apply (any_applicable_rule_may_win _ demo_rule); try reflexivity; [discriminate|].
  apply applicable_dec. vm_compute. auto.
Defined.

(** [Apply] publishes its snapshot after it has released the mutex, so two
    concurrent updates can publish in the wrong order.  An [Add] of a rule and a
    [Remove] of the same rule run under the mutex in that order, but their stores
    are swapped: the working set no longer has the rule, and the engine goes on
    deciding by it.  (The relay's only caller is the single watcher goroutine.) *)
Theorem Apply_publish_race e r caller target method now :
  is_wild r = false -> applicable caller target method (UnixMilli now) r ->
  exists iter, iter_ok iter /\
    let '(e1, snap_add) := apply_locked iter (fun m => <[ID r := r]> m) e in
    let '(e2, snap_remove) := apply_locked iter (fun m => delete (ID r) m) e1 in
    let final := apply_store snap_add (apply_store snap_remove e2) in
    rules final !! ID r = None /\
    Engine_Decide final caller target method now = rule_result r.
Proof.
  intros Hw Ha. exists (visit_first r). split; [apply visit_first_ok|]. simpl.
  split; [apply lookup_delete_eq|]. unfold Engine_Decide, visit_first. simpl.
  rewrite lookup_insert_eq, decide_True by done.
  eapply (first_applicable_head caller target method (UnixMilli now) r); [done..|].
  apply Decide_scan.
Qed.

Lemma Apply_publish_race_witness :
  exists iter, iter_ok iter /\
    let '(e1, snap_add) := apply_locked iter (fun m => <[ID demo_rule := demo_rule]> m) NewEngine in
    let '(e2, snap_remove) := apply_locked iter (fun m => delete (ID demo_rule) m) e1 in
    let final := apply_store snap_add (apply_store snap_remove e2) in
    rules final !! ID demo_rule = None /\
    Engine_Decide final "outrelay://acme/agent/c" "svc-pay" "GET" 5 = rule_result demo_rule.
Proof.
  apply (Apply_publish_race NewEngine demo_rule); [reflexivity|].
  apply applicable_dec. vm_compute. auto.
Defined.

(** Combining the caller's and the callee's modes is commutative,
    associative and idempotent, keeps [allowed] as its unit, and follows the
    documented precedence: forbidden if either side forbids, otherwise required
    if either side requires. *)
Theorem CombineP2PModes_lattice a b c :
  CombineP2PModes a b = CombineP2PModes b a /\
  CombineP2PModes a (CombineP2PModes b c) = CombineP2PModes (CombineP2PModes a b) c /\
  CombineP2PModes a a = a /\ CombineP2PModes P2PModeAllowed a = a /\
  (CombineP2PModes a b = P2PModeForbidden <-> a = P2PModeForbidden \/ b = P2PModeForbidden) /\
  (CombineP2PModes a b = P2PModeRequired <->
     a <> P2PModeForbidden /\ b <> P2PModeForbidden /\ (a = P2PModeRequired \/ b = P2PModeRequired)).
Proof. destruct a, b, c; vm_compute; intuition discriminate. Qed.
