(* ===== verification/PolicyCache.v ===== *)
(** * PolicyCache: [pkg/policy/cache.go], and [Server.evaluate] of [pkg/edge/edge.go]

    The decision cache with its TTL and its soft capacity, and the evaluation
    path that consults it.  Several stream goroutines evaluate at once while the
    watcher swaps the engine and flushes the cache, so evaluation is a step
    relation ([eval_step]) whose steps are the critical sections of the code. *)

From S2P Require Import Prelude PolicyMatcher.

(** ** The cache *)

Definition CacheTTL : Duration := 5 * Second.
Definition CacheCapacity : Z := 64 * 1024.

Abbreviation cacheKey := (string * string * string)%type.

Record cacheEntry := mkCacheEntry {
  ce_res : Result;
  ce_expires : Time
}.

Record Cache := mkCache { c_m : gmap cacheKey cacheEntry }.

Definition NewCache : Cache := mkCache ∅.

(** [Get]: the entry if it is there and still fresh; an expired entry is removed. *)
Definition Get (k : cacheKey) (now : Time) (c : Cache) : option Result * Cache :=
  match c_m c !! k with
  | None => (None, c)
  | Some e =>
      if negb (now <? ce_expires e) then (None, mkCache (delete k (c_m c)))
      else (Some (ce_res e), c)
  end.

(** First eviction pass of [Put]: expired entries go. *)
Definition drop_expired (now : Time) (m : gmap cacheKey cacheEntry) : gmap cacheKey cacheEntry :=
  filter (fun kv => now < ce_expires kv.2) m.

(** Second pass: the loop over the keys, in the order [ks] of this run, that
    stops after [CacheCapacity/8] deletions. *)
Fixpoint evict_loop (ks : list cacheKey) (i : Z) (m : gmap cacheKey cacheEntry) :
    gmap cacheKey cacheEntry :=
  match ks with
  | [] => m
  | k :: ks' =>
      let m := delete k m in
      let i := i + 1 in
      if CacheCapacity / 8 <=? i then m else evict_loop ks' i m
  end.

Definition make_room (order : gmap cacheKey cacheEntry -> list cacheKey) (now : Time)
    (m : gmap cacheKey cacheEntry) : gmap cacheKey cacheEntry :=
  if CacheCapacity <=? Z.of_nat (size m) then
    let m := drop_expired now m in
    if CacheCapacity <=? Z.of_nat (size m) then evict_loop (order m) 0 m else m
  else m.

Definition Put (order : gmap cacheKey cacheEntry -> list cacheKey) (k : cacheKey) (r : Result)
    (now : Time) (c : Cache) : Cache :=
  mkCache (<[k := mkCacheEntry r (now + CacheTTL)]> (make_room order now (c_m c))).

Definition Flush (c : Cache) : Cache := mkCache ∅.

Definition Len (c : Cache) : nat := size (c_m c).

(** An iteration order visits every key once. *)
Definition key_order_ok (order : gmap cacheKey cacheEntry -> list cacheKey) : Prop :=
  forall m, order m ≡ₚ (map_to_list m).*1.

(** ** Evaluation

    [evaluate] is: look the request up; on a miss ask the engine and put the
    answer.  No lock spans the three.  [es_inflight] holds the decisions taken
    and not yet put, with the time each was taken; [es_engines] and
    [es_answers] are history: the engine of every moment at which something
    was decided, and what [evaluate] returned and when. *)

Record evals := mkEvals {
  es_now : Time;
  es_engine : Engine;
  es_cache : Cache;
  es_inflight : list (cacheKey * Result * Time);
  es_engines : list (Time * Engine);
  es_answers : list (cacheKey * Result * Time)
}.

Definition decide_key (e : Engine) (k : cacheKey) (now : Time) : Result :=
  let '(caller, target, method) := k in Engine_Decide e caller target method now.

(** [evaluate] when nothing else runs, the cache being optional as in the code. *)
Definition evaluate (order : gmap cacheKey cacheEntry -> list cacheKey) (e : Engine)
    (c : option Cache) (k : cacheKey) (now : Time) : Result * option Cache :=
  match c with
  | None => (decide_key e k now, None)
  | Some c =>
      match Get k now c with
      | (Some r, c') => (r, Some c')
      | (None, c') => let r := decide_key e k now in (r, Some (Put order k r now c'))
      end
  end.

Inductive eval_step : evals -> evals -> Prop :=
  | ev_hit s k now r c' :
      es_now s <= now -> Get k now (es_cache s) = (Some r, c') ->
      eval_step s (mkEvals now (es_engine s) c' (es_inflight s) (es_engines s)
        ((k, r, now) :: es_answers s))
  | ev_miss s k now c' :
      es_now s <= now -> Get k now (es_cache s) = (None, c') ->
      eval_step s (mkEvals now (es_engine s) c'
        ((k, decide_key (es_engine s) k now, now) :: es_inflight s)
        ((now, es_engine s) :: es_engines s) (es_answers s))
  | ev_put s k r t now order l1 l2 :
      es_now s <= now -> es_inflight s = l1 ++ (k, r, t) :: l2 ->
      eval_step s (mkEvals now (es_engine s) (Put order k r now (es_cache s)) (l1 ++ l2)
        (es_engines s) ((k, r, now) :: es_answers s))
  | ev_update s e' now :
      es_now s <= now ->
      eval_step s (mkEvals now e' (es_cache s) (es_inflight s) (es_engines s) (es_answers s))
  | ev_flush s now :
      es_now s <= now ->
      eval_step s (mkEvals now (es_engine s) (Flush (es_cache s)) (es_inflight s)
        (es_engines s) (es_answers s)).

Inductive eval_reach (t0 : Time) (e0 : Engine) : evals -> Prop :=
  | evr_init : eval_reach t0 e0 (mkEvals t0 e0 NewCache [] [] [])
  | evr_step s s' : eval_reach t0 e0 s -> eval_step s s' -> eval_reach t0 e0 s'.

(** A result for [k] that some engine of the run gave at time [t]. *)
Definition decided (s : evals) (k : cacheKey) (r : Result) (t : Time) : Prop :=
  exists e, (t, e) ∈ es_engines s /\ r = decide_key e k t.

Record eval_inv (s : evals) : Prop := {
  ei_inflight : forall k r t, (k, r, t) ∈ es_inflight s -> decided s k r t /\ t <= es_now s;
  ei_cache : forall k e, c_m (es_cache s) !! k = Some e ->
    exists t, decided s k (ce_res e) t /\ t <= ce_expires e - CacheTTL <= es_now s;
  ei_answers : forall k r now, (k, r, now) ∈ es_answers s ->
    now <= es_now s /\
    exists t p, decided s k r t /\ t <= p <= now /\ now < p + CacheTTL
}.

(** A run of cache operations, as the stream goroutines and the watcher issue them. *)
Inductive cache_op :=
  | OpGet (k : cacheKey) (now : Time)
  | OpPut (order : gmap cacheKey cacheEntry -> list cacheKey) (k : cacheKey) (r : Result) (now : Time)
  | OpFlush.

Definition cache_exec (c : Cache) (op : cache_op) : Cache :=
  match op with
  | OpGet k now => (Get k now c).2
  | OpPut order k r now => Put order k r now c
  | OpFlush => Flush c
  end.

Definition cache_op_ok (op : cache_op) : Prop :=
  match op with OpPut order _ _ _ => key_order_ok order | _ => True end.

Definition key_order (m : gmap cacheKey cacheEntry) : list cacheKey := (map_to_list m).*1.

(** ** The cache: lookups and size *)

Lemma Get_Some k now c r c' : Get k now c = (Some r, c') ->
  c' = c /\ exists e, c_m c !! k = Some e /\ ce_res e = r /\ now < ce_expires e.
Proof.
  unfold Get. destruct (c_m c !! k) as [e|] eqn:He; [|done].
  destruct (negb (now <? ce_expires e)) eqn:Hn; [done|]. intros [= <- <-].
  bool_to_prop. eauto.
Qed.

Lemma Get_subseteq k now c o c' : Get k now c = (o, c') -> c_m c' ⊆ c_m c.
Proof.
  unfold Get. destruct (c_m c !! k) as [e|]; [case_match|]; intros [= <- <-]; simpl; [|done..].
  apply delete_subseteq.
Qed.

Lemma evict_loop_subseteq ks i m : evict_loop ks i m ⊆ m.
Proof.
  revert i m. induction ks as [|k ks IH]; intros i m; simpl; [done|].
  case_match; [apply delete_subseteq|]. etrans; [apply IH | apply delete_subseteq].
Qed.

Lemma make_room_subseteq order now m : make_room order now m ⊆ m.
Proof.
  unfold make_room. repeat case_match; [|apply map_filter_subseteq|done].
  etrans; [apply evict_loop_subseteq | apply map_filter_subseteq].
Qed.

Lemma evict_loop_shrinks ks m :
  ks <> [] -> (forall k, k ∈ ks -> is_Some (m !! k)) ->
  (size (evict_loop ks 0 m) < size m)%nat.
Proof.
  destruct ks as [|k ks]; [done|]. intros _ Hk.
  assert (size (delete k m) < size m)%nat as Hlt.
  { destruct (Hk k ltac:(set_solver)) as [e He].
    rewrite map_size_delete, He.
   
    assert (size m <> 0)%nat; [|lia]. intros ->%map_size_empty_inv. by rewrite lookup_empty in He. }
  cbn [evict_loop]. cbv zeta. destruct (_ <=? _); [done|].
  eapply Nat.le_lt_trans; [apply map_subseteq_size, evict_loop_subseteq | done].
Qed.

Lemma make_room_size order now m :
  key_order_ok order -> Z.of_nat (size m) <= CacheCapacity ->
  Z.of_nat (size (make_room order now m)) < CacheCapacity.
Proof.
  intros Ho Hm. unfold make_room. case_match; bool_to_prop; [|done].
  assert (size (drop_expired now m) <= size m)%nat by apply map_subseteq_size, map_filter_subseteq.
  case_match; bool_to_prop; [|done].
  assert (size (evict_loop (order (drop_expired now m)) 0 (drop_expired now m))
    < size (drop_expired now m))%nat; [|lia].
  apply evict_loop_shrinks.
  - intros Hnil. pose proof (Ho (drop_expired now m)) as Hp. rewrite Hnil in Hp.
    apply Permutation_nil in Hp. apply fmap_nil_inv in Hp. apply map_to_list_empty_iff in Hp.
    rewrite Hp, map_size_empty in *. unfold CacheCapacity in *. lia.
  - intros k. rewrite (Ho _). intros ([k' e] & -> & ?%elem_of_map_to_list)%list_elem_of_fmap. eauto.
Qed.

Lemma Put_size order k r now c :
  key_order_ok order -> Z.of_nat (size (c_m c)) <= CacheCapacity ->
  Z.of_nat (size (c_m (Put order k r now c))) <= CacheCapacity.
Proof.
  intros Ho Hc. pose proof (make_room_size order now (c_m c) Ho Hc). cbn [Put c_m].
  rewrite map_size_insert. destruct (_ !! k); simpl; lia.
Qed.

Lemma Put_lookup order k r now c k' e :
  c_m (Put order k r now c) !! k' = Some e ->
  (k' = k /\ e = mkCacheEntry r (now + CacheTTL)) \/ c_m c !! k' = Some e.
Proof.
  simpl. rewrite lookup_insert. case_decide; [naive_solver|]. intros He. right.
  by eapply lookup_weaken, make_room_subseteq.
Qed.

(** ** Evaluation: every answer is some engine's recent decision *)

Lemma decided_mono s s' k r t :
  (forall x, x ∈ es_engines s -> x ∈ es_engines s') -> decided s k r t -> decided s' k r t.
Proof. intros Hsub (e & He & ->). exists e. auto. Qed.

Lemma CacheTTL_pos : 0 < CacheTTL.
Proof. done. Qed.

Lemma eval_inv_step s s' : eval_inv s -> eval_step s s' -> eval_inv s'.
Proof.
  intros [Hf Hc Ha] Hs. pose proof CacheTTL_pos as Hpos.
  assert (Hmono : forall k r t, decided s k r t -> decided s' k r t).
  { intros k r t. apply decided_mono. destruct Hs; simpl; set_solver. }
  destruct Hs as [s k now r c' Hle Hg|s k now c' Hle Hg|s k r t now order l1 l2 Hle Hl|
    s e' now Hle|s now Hle]; split; simpl; intros k0 r0.
  - intros t ?%Hf. naive_solver lia.
  - apply Get_Some in Hg as [-> _]. intros (t & ? & ?)%Hc. exists t. naive_solver lia.
  - intros n [[= -> -> ->]|Hin]%elem_of_cons.
    + apply Get_Some in Hg as (_ & e & He & <- & Hlt). destruct (Hc _ _ He) as (t & Ht & ?).
      split; [lia|]. exists t, (ce_expires e - CacheTTL). split; [auto|]. lia.
    + destruct (Ha _ _ _ Hin) as (? & t & p & ? & ?). split; [lia|]. exists t, p. auto.
  - intros t [[= -> -> ->]|Hin]%elem_of_cons.
    + split; [|lia]. exists (es_engine s). split; [set_solver | done].
    + apply Hf in Hin. naive_solver lia.
  - intros He. pose proof (lookup_weaken _ _ _ _ He (Get_subseteq _ _ _ _ _ Hg)) as He'.
    destruct (Hc _ _ He') as (t & ? & ?). exists t. naive_solver lia.
  - intros n Hin. destruct (Ha _ _ _ Hin) as (? & t & p & ? & ?). split; [lia|]. exists t, p. auto.
  - intros t0 Hin. destruct (Hf k0 r0 t0); [rewrite Hl; set_solver|]. naive_solver lia.
  - intros [[-> ->]|He]%Put_lookup; simpl.
    + destruct (Hf k r t); [rewrite Hl; set_solver|]. exists t. split; [auto|]. lia.
    + destruct (Hc _ _ He) as (t0 & ? & ?). exists t0. naive_solver lia.
  - intros n [[= -> -> ->]|Hin]%elem_of_cons.
    + destruct (Hf k r t); [rewrite Hl; set_solver|]. split; [lia|]. exists t, now.
      split; [auto|]. lia.
    + destruct (Ha _ _ _ Hin) as (? & t0 & p & ? & ?). split; [lia|]. exists t0, p. auto.
  - intros t Hin. apply Hf in Hin. naive_solver lia.
  - intros (t & ? & ?)%Hc. exists t. naive_solver lia.
  - intros n Hin. destruct (Ha _ _ _ Hin) as (? & t & p & ? & ?). split; [lia|]. exists t, p. auto.
  - intros t Hin. apply Hf in Hin. naive_solver lia.
  - by rewrite lookup_empty.
  - intros n Hin. destruct (Ha _ _ _ Hin) as (? & t & p & ? & ?). split; [lia|]. exists t, p. auto.
Qed.

Lemma eval_reach_inv t0 e0 s : eval_reach t0 e0 s -> eval_inv s.
Proof.
  induction 1 as [|s s' _ IH Hs]; [|by eapply eval_inv_step].
  split; simpl; intros; [by apply not_elem_of_nil in H | by rewrite lookup_empty in * | 
    by apply not_elem_of_nil in H].
Qed.

Lemma key_order_is_ok : key_order_ok key_order.
Proof. by intros m. Qed.

Lemma cache_exec_size c op : cache_op_ok op ->
  Z.of_nat (Len c) <= CacheCapacity -> Z.of_nat (Len (cache_exec c op)) <= CacheCapacity.
Proof.
  unfold Len. destruct op as [k now|order k r now|]; intros Hok Hc; cbn [cache_exec].
  - destruct (Get k now c) as [o c'] eqn:Hg.
    pose proof (map_subseteq_size _ _ (Get_subseteq _ _ _ _ _ Hg)). simpl. lia.
  - by apply Put_size.
  - cbn [Flush c_m]. by rewrite map_size_empty.
Qed.

(** ** Properties *)

(** C39: the cache never holds more than [CacheCapacity] decisions, whatever
    sequence of lookups, insertions and flushes the relay performs and whichever
    entries the random eviction picks. *)
Theorem cache_bounded ops :
  Forall cache_op_ok ops ->
  Z.of_nat (Len (foldl cache_exec NewCache ops)) <= CacheCapacity.
Proof.
  induction ops as [|op ops IH] using rev_ind; [done|].
  intros [Hops Hop]%Forall_app. rewrite foldl_app. simpl.
  apply cache_exec_size; [by inversion Hop | auto].
Qed.

Lemma cache_bounded_witness :
  Z.of_nat (Len (foldl cache_exec NewCache
    [OpPut key_order ("c", "t", "m") (plain_result DecisionDeny "x") 7; OpGet ("c", "t", "m") 9]))
  <= CacheCapacity.
Proof.
  apply cache_bounded. repeat constructor; intros m; exact (key_order_is_ok m).
Defined.

(** A decision put at [now] is returned for its key at any time before
    [now + CacheTTL] and at no time after, and an insertion never changes what a
    lookup of another key returns except by evicting it. *)
Theorem Get_after_Put order k r now c k' now' :
  (Get k now' (Put order k r now c)).1 = (if decide (now' < now + CacheTTL) then Some r else None) /\
  (k' <> k -> forall r', (Get k' now' (Put order k r now c)).1 = Some r' ->
     (Get k' now' c).1 = Some r').
Proof.
  split.
  - unfold Get. simpl. rewrite lookup_insert_eq. simpl.
    destruct (Z.ltb_spec now' (now + CacheTTL)); case_decide; simpl; done || lia.
  - intros Hne r'. destruct (Get k' now' (Put order k r now c)) as [o c'] eqn:Hg. simpl.
    intros ->. apply Get_Some in Hg as (_ & e & He & <- & Hlt).
    apply Put_lookup in He as [[-> _]|He]; [done|]. unfold Get. rewrite He.
    by destruct (Z.ltb_spec now' (ce_expires e)); [|lia].
Qed.

(** Bounded staleness.  However evaluations, policy updates and flushes
    interleave, every result [evaluate] hands out for a request is the decision
    that an engine in force at some earlier moment [t] of the run took for that
    very request, and it was stored less than [CacheTTL] before being returned
    (or is being stored now).  A decision that raced a flush survives it for at
    most one TTL. *)
Theorem evaluate_bounded_staleness t0 e0 s k r now :
  eval_reach t0 e0 s -> (k, r, now) ∈ es_answers s ->
  exists t p e, (t, e) ∈ es_engines s /\ r = decide_key e k t /\
    t <= p <= now /\ now < p + CacheTTL.
Proof.
  intros Hr Ha. destruct (ei_answers s (eval_reach_inv t0 e0 s Hr) k r now Ha)
    as (_ & t & p & (e & He & ->) & ? & ?). exists t, p, e. done.
Qed.

Definition demo_miss : evals :=
  mkEvals 10 NewEngine NewCache
    [(("c", "t", "m"), decide_key NewEngine ("c", "t", "m") 10, 10)] [(10, NewEngine)] [].
Definition demo_answered : evals :=
  mkEvals 20 NewEngine
    (Put key_order ("c", "t", "m") (decide_key NewEngine ("c", "t", "m") 10) 20 NewCache)
    [] [(10, NewEngine)] [(("c", "t", "m"), decide_key NewEngine ("c", "t", "m") 10, 20)].

Lemma evaluate_bounded_staleness_witness :
  exists t p e, (t, e) ∈ es_engines demo_answered /\
    decide_key NewEngine ("c", "t", "m") 10 = decide_key e ("c", "t", "m") t /\
    t <= p <= 20 /\ 20 < p + CacheTTL.
Proof.
  apply (evaluate_bounded_staleness 0 NewEngine demo_answered).
  - apply (evr_step 0 NewEngine demo_miss).
    + apply (evr_step 0 NewEngine (mkEvals 0 NewEngine NewCache [] [] [])); [constructor|].
      apply (ev_miss (mkEvals 0 NewEngine NewCache [] [] []) ("c", "t", "m") 10 NewCache);
        [simpl; lia | reflexivity].
    + apply (ev_put demo_miss _ _ 10 20 key_order [] []); [simpl; lia | reflexivity].
  - apply elem_of_cons. left. reflexivity.
Defined.

(** One evaluation with nothing interleaved.  A fresh cached decision is
    returned untouched; otherwise the answer is the engine's decision of this
    moment and is cached until one TTL from now.  After a flush the answer is
    therefore always the current engine's. *)
Theorem evaluate_spec order e c k now :
  let '(r, c') := evaluate order e (Some c) k now in
  (exists ent, c_m c !! k = Some ent /\ now < ce_expires ent /\ r = ce_res ent /\ c' = Some c) \/
  ((forall ent, c_m c !! k = Some ent -> ce_expires ent <= now) /\ r = decide_key e k now /\
   exists m, c' = Some (mkCache m) /\ m !! k = Some (mkCacheEntry r (now + CacheTTL))).
Proof.
  unfold evaluate. destruct (Get k now c) as [[r|] c'] eqn:Hg.
  - left. apply Get_Some in Hg as (-> & ent & ? & <- & ?). eauto.
  - right. split.
    + intros ent Hent. unfold Get in Hg. rewrite Hent in Hg.
      destruct (Z.ltb_spec now (ce_expires ent)); [done | lia].
    + split; [done|]. eexists. split; [reflexivity|]. apply lookup_insert_eq.
Qed.
