(* ===== verification/PolicyWatch.v ===== *)
(** * PolicyWatch: [pkg/policy/client.go]

    [Watcher.runOnce], one subscription to the controller's [Policy.Watch] stream,
    and [Watcher.Run], which renews it.  The loop of [runOnce] is a fold over what
    [stream.Recv] returns; its local variables [pending] and [inSnapshot] are
    fields of the loop state.  The loop of [Run] is a fold over attempts. *)

From S2P Require Import Prelude PolicyMatcher PolicyCache.

(** ** Events

    [PolicyEvent] is generated code; the constructors are the cases the switch
    of [runOnce] tells apart, [KindOther] being a kind it has no case for. *)

Inductive PolicyEvent :=
  | KindAdded (rule : option PolicyRule)
  | KindRemoved (removedId : string)
  | KindSnapshotEnd
  | KindOther.

(** What one [stream.Recv()] returns. *)
Inductive recv :=
  | RecvEvent (ev : PolicyEvent)
  | RecvEOF
  | RecvErr (err : string).

Record watch := mkWatch {
  w_engine : Engine;
  w_cache : Cache;
  w_pending : list Rule;
  w_inSnapshot : bool
}.

Section Watcher.
Context `{PBEnums}.

(** The body of the loop for one received event; [iter] is the iteration order
    of the snapshot rebuild it may cause. *)
Definition handle_event (iter : iter_order) (ev : PolicyEvent) (w : watch) : watch :=
  match ev with
  | KindAdded None => w
  | KindAdded (Some rule) =>
      if w_inSnapshot w
      then mkWatch (w_engine w) (w_cache w) (w_pending w ++ [FromPB rule]) (w_inSnapshot w)
      else mkWatch (Engine_Add iter (FromPB rule) (w_engine w)) (Flush (w_cache w))
             (w_pending w) (w_inSnapshot w)
  | KindRemoved removedId =>
      if String.eqb removedId "" then w
      else mkWatch (Engine_Remove iter removedId (w_engine w)) (Flush (w_cache w))
             (w_pending w) (w_inSnapshot w)
  | KindSnapshotEnd =>
      mkWatch (Engine_Set iter (w_pending w) (w_engine w)) (Flush (w_cache w)) [] false
  | KindOther => w
  end.

(** Where a loop stands: it waits for the next message, or it has returned, with
    an error or with nil. *)
Inductive once_end :=
  | Waiting
  | Returned (err : option string).

(** [runOnce] after the stream is open, over what the stream delivers; each
    event comes with the iteration order of its rebuild. *)
Fixpoint runOnce_loop (rs : list (iter_order * recv)) (w : watch) : watch * once_end :=
  match rs with
  | [] => (w, Waiting)
  | (_, RecvEOF) :: _ => (w, Returned None)
  | (_, RecvErr err) :: _ => (w, Returned (Some err))
  | (iter, RecvEvent ev) :: rs' => runOnce_loop rs' (handle_event iter ev w)
  end.

(** What one turn of [Run] meets: the error of [client.Watch], if any, what the
    stream delivers and for how long; which case of the [select] that follows is
    taken, the context's or the timer's, and how late the timer fires. *)
Record attempt := mkAttempt {
  at_open : option string;
  at_recvs : list (iter_order * recv);
  at_took : Duration;
  at_done : bool;
  at_late : Duration
}.

Definition runOnce (a : attempt) (e : Engine) (c : Cache) : Engine * Cache * once_end :=
  match at_open a with
  | Some err => (e, c, Returned (Some err))
  | None =>
      let '(w, st) := runOnce_loop (at_recvs a) (mkWatch e c [] true) in
      (w_engine w, w_cache w, st)
  end.

Definition backoff : Duration := 2 * Second.

(** [Run]: the engine and the cache, the times at which the stream was opened, and
    whether the loop has returned, which it does only in the context's case. *)
Fixpoint Run (attempts : list attempt) (now : Time) (e : Engine) (c : Cache) : Engine * Cache * list Time * bool :=
  match attempts with
  | [] => (e, c, [], false)
  | a :: attempts' =>
      match runOnce a e c with
      | (e', c', Waiting) => (e', c', [now], false)
      | (e', c', Returned _) =>
          if at_done a then (e', c', [now], true)
          else
            let '(e'', c'', opens, stopped) := Run attempts' (now + at_took a + backoff + at_late a) e' c' in
            (e'', c'', now :: opens, stopped)
      end
  end.

(** ** Specification: the controller's rule set *)

(** The effect of one live event on the set of rules in force. *)
Definition spec_event (m : gmap string Rule) (ev : PolicyEvent) : gmap string Rule :=
  match ev with
  | KindAdded (Some rule) => <[pr_Id rule := FromPB rule]> m
  | KindRemoved removedId => if String.eqb removedId "" then m else delete removedId m
  | _ => m
  end.

Definition is_snapshot_end (ev : PolicyEvent) : bool :=
  match ev with KindSnapshotEnd => true | _ => false end.
Definition is_removed (ev : PolicyEvent) : bool :=
  match ev with KindRemoved _ => true | _ => false end.

(** The rules an initial snapshot carries. *)
Definition snapshot_rules (evs : list PolicyEvent) : list Rule :=
  omap (fun ev => match ev with KindAdded (Some rule) => Some (FromPB rule) | _ => None end) evs.

(** A subscription that delivers [evs], each with the iteration order [iter]. *)
Definition deliver (iter : iter_order) (evs : list PolicyEvent) : list (iter_order * recv) :=
  (fun ev => (iter, RecvEvent ev)) <$> evs.

(** ** Lemmas *)

Lemma runOnce_loop_app iter evs rs w :
  runOnce_loop (deliver iter evs ++ rs) w =
  runOnce_loop rs (foldl (fun w ev => handle_event iter ev w) w evs).
Proof. revert w. induction evs as [|ev evs IH]; intros w; simpl; auto. Qed.

(** While the snapshot is being received, additions only accumulate. *)
Lemma handle_snapshot_phase iter evs w :
  w_inSnapshot w = true ->
  Forall (fun ev => is_snapshot_end ev = false /\ is_removed ev = false) evs ->
  foldl (fun w ev => handle_event iter ev w) w evs =
  mkWatch (w_engine w) (w_cache w) (w_pending w ++ snapshot_rules evs) true.
Proof.
  intros Hin Hall. revert w Hin. induction Hall as [|ev evs [He Hr] _ IH]; intros w Hin; simpl.
  - rewrite app_nil_r. destruct w; simpl in *; congruence.
  - destruct ev as [[rule|]| | |]; try done; simpl; rewrite ?Hin.
    + rewrite IH by done. simpl. by rewrite <- app_assoc.
    + by apply IH.
    + by apply IH.
Qed.

(** After it, every event acts on the working set as the specification says,
    and leaves no cached decision behind if it changes anything. *)
Lemma handle_live_phase iter evs w :
  w_inSnapshot w = false ->
  Forall (fun ev => is_snapshot_end ev = false) evs ->
  c_m (w_cache w) = ∅ ->
  let w' := foldl (fun w ev => handle_event iter ev w) w evs in
  rules (w_engine w') = foldl spec_event (rules (w_engine w)) evs /\ c_m (w_cache w') = ∅.
Proof.
  intros Hin Hall Hc. revert w Hin Hc. induction Hall as [|ev evs He _ IH]; intros w Hin Hc; simpl; [done|].
  destruct ev as [[rule|]|id| |]; try done; simpl; rewrite ?Hin; try by apply IH.
  destruct (String.eqb id ""); by apply IH.
Qed.

Lemma snapshot_fold iter snap live e c :
  Forall (fun ev => is_snapshot_end ev = false /\ is_removed ev = false) snap ->
  Forall (fun ev => is_snapshot_end ev = false) live ->
  let w := foldl (fun w ev => handle_event iter ev w) (mkWatch e c [] true)
             (snap ++ KindSnapshotEnd :: live) in
  rules (w_engine w) =
    foldl spec_event (foldl (fun m r => <[ID r := r]> m) ∅ (snapshot_rules snap)) live /\
  c_m (w_cache w) = ∅.
Proof.
  intros Hs Hl. rewrite foldl_app, (handle_snapshot_phase iter snap) by done. simpl.
  destruct (handle_live_phase iter live (mkWatch (Engine_Set iter (snapshot_rules snap) e) (Flush c) []
    false)) as [-> ->]; try done. cbn [Engine_Set Apply apply_locked apply_store rules w_engine]. by rewrite set_rules_eq.
Qed.

(** A subscription that delivers [evs] and then breaks or goes silent. *)
Definition subscription (iter : iter_order) (evs : list PolicyEvent) (stop : list (iter_order * recv))
    (a : attempt) : Prop :=
  at_open a = None /\ at_recvs a = deliver iter evs ++ stop /\
  (stop = [] \/ stop = [(iter, RecvEOF)] \/ exists err, stop = [(iter, RecvErr err)]).

(** After a snapshot, its end marker and live events, the controller's view. *)
Lemma runOnce_view iter snap live stop a e c :
  subscription iter (snap ++ KindSnapshotEnd :: live) stop a ->
  Forall (fun ev => is_snapshot_end ev = false /\ is_removed ev = false) snap ->
  Forall (fun ev => is_snapshot_end ev = false) live ->
  exists e' c' st, runOnce a e c = (e', c', st) /\
    rules e' = foldl spec_event (foldl (fun m r => <[ID r := r]> m) ∅ (snapshot_rules snap)) live /\ Len c' = 0%nat.
Proof.
  intros (Eo & Er & Hstop) Hs Hl. unfold runOnce. rewrite Eo, Er, runOnce_loop_app.
  destruct (snapshot_fold iter snap live e c Hs Hl) as [Hr Hc].
  destruct Hstop as [->|[->|[err ->]]]; eexists _, _, _; (split; [done|]); (split; [done|]);
    unfold Len; by rewrite Hc, map_size_empty.
Qed.

(** An attempt that never sees the end of its snapshot, nor a removal: it cannot
    even open the stream, or the stream delivers additions only. *)
Definition harmless (a : attempt) : Prop :=
  is_Some (at_open a) \/
  exists iter evs stop, subscription iter evs stop a /\
    Forall (fun ev => is_snapshot_end ev = false /\ is_removed ev = false) evs.

Lemma runOnce_harmless a e c : harmless a -> exists st, runOnce a e c = (e, c, st).
Proof.
  intros [[err Eo]|(iter & evs & stop & (Eo & Er & Hstop) & Hs)]; unfold runOnce; rewrite Eo; [eauto|].
  rewrite Er, runOnce_loop_app, handle_snapshot_phase by done.
  destruct Hstop as [->|[->|[err ->]]]; simpl; eauto.
Qed.

(** An attempt after which [Run] tries again. *)
Definition is_end (r : iter_order * recv) : bool := match r.2 with RecvEvent _ => false | _ => true end.
Definition goes_on (a : attempt) : Prop :=
  at_done a = false /\ 0 <= at_took a /\ 0 <= at_late a /\ (is_Some (at_open a) \/ existsb is_end (at_recvs a) = true).

Lemma runOnce_loop_ends rs w : existsb is_end rs = true -> exists w' err, runOnce_loop rs w = (w', Returned err).
Proof. revert w. induction rs as [|[iter []] rs IH]; intros w; simpl; try done; eauto. Qed.

Lemma runOnce_goes_on a e c : goes_on a -> exists e' c' err, runOnce a e c = (e', c', Returned err).
Proof.
  intros (_ & _ & _ & He). unfold runOnce. destruct (at_open a) as [err|]; [eauto|].
  destruct He as [[? [=]]|He]. destruct (runOnce_loop_ends _ (mkWatch e c [] true) He) as (w & err & ->). eauto.
Qed.

Lemma Run_goes_on l l' now e c :
  Forall goes_on l -> exists now' e' c' opens, now <= now' /\
    Run (l ++ l') now e c = (let '(e'', c'', opens', st) := Run l' now' e' c' in (e'', c'', opens ++ opens', st)).
Proof.
  intros Hl. revert now e c. induction Hl as [|a l Ha _ IH]; intros now e c; simpl.
  { exists now, e, c, []. split; [lia|]. by destruct (Run l' now e c) as [[[]]]. }
  destruct (runOnce_goes_on a e c Ha) as (e1 & c1 & err & ->). destruct Ha as (-> & ? & ? & _).
  destruct (IH (now + at_took a + backoff + at_late a) e1 c1) as (now' & e' & c' & opens & Hn & ->).
  exists now', e', c', (now :: opens). split; [unfold backoff, Second, Millisecond in *; lia|].
  by destruct (Run l' now' e' c') as [[[]]].
Qed.

(** At least the back-off between two opens. *)
Fixpoint spaced (last : Time) (opens : list Time) : Prop :=
  match opens with
  | [] => True
  | t :: opens' => last + backoff <= t /\ spaced t opens'
  end.

Lemma Run_opens l now e c e' c' opens st :
  Forall (fun a => 0 <= at_took a /\ 0 <= at_late a) l -> Run l now e c = (e', c', opens, st) ->
  forall last, last + backoff <= now -> spaced last opens.
Proof.
  intros Hl. revert now e c opens. induction Hl as [|a l [Ht Hd] _ IH]; intros now e c opens; simpl.
  { intros [= _ _ <- _]. done. }
  destruct (runOnce a e c) as [[e1 c1] []].
  { intros [= _ _ <- _] last. done. }
  destruct (at_done a). { intros [= _ _ <- _] last. done. }
  destruct (Run l _ e1 c1) as [[[e2 c2] opens'] st'] eqn:E. intros [= -> -> <- ->] last Hlast. split; [done|].
  eapply IH; [done|]. unfold backoff, Second, Millisecond in *. lia.
Qed.

(** ** Properties *)


(** C37: a controller that cannot be reached changes nothing.  Attempts that fail to
    open the stream, or whose stream breaks before the end marker having delivered
    only additions, leave the engine its rules and the cache its decisions, so a
    flapping controller never opens or closes the policy; the stream is opened at
    most once per back-off, and the loop ends only when its context does. *)
Theorem Watcher_outage l now e c :
  Forall harmless l -> Forall (fun a => 0 <= at_took a /\ 0 <= at_late a) l ->
  exists opens st, Run l now e c = (e, c, opens, st) /\ spaced (now - backoff) opens /\
    (st = true -> exists a, a ∈ l /\ at_done a = true).
Proof.
  intros Hh Ht.
  assert (exists opens st, Run l now e c = (e, c, opens, st) /\ (st = true -> exists a, a ∈ l /\ at_done a = true))
    as (opens & st & E & Hst).
  { clear Ht. revert now. induction Hh as [|a l Ha _ IH]; intros now; simpl; [by exists [], false|].
    destruct (runOnce_harmless a e c Ha) as [st ->]. destruct st; [by exists [now], false|].
    destruct (at_done a) eqn:Ed; [eexists _, _; split; [done|]; exists a; split; [left|done]|].
    destruct (IH (now + at_took a + backoff + at_late a)) as (opens & st & -> & Hst). eexists _, _. split; [done|].
    intros (x & ? & ?)%Hst. exists x. split; [by right|done]. }
  exists opens, st. split_and!; [done| |done]. eapply Run_opens; [done..|]. lia.
Qed.

(** A removal received before the end marker is lost.  It is applied to the
    engine at once but not to the rules accumulated so far, so when the marker
    arrives the bulk [Set] puts the removed rule back in force. *)
Theorem removal_during_snapshot_is_undone iter rule a e c :
  pr_Id rule <> "" -> subscription iter [KindAdded (Some rule); KindRemoved (pr_Id rule); KindSnapshotEnd] [] a ->
  let '(e', _, _) := runOnce a e c in rules e' = {[pr_Id rule := FromPB rule]}.
Proof.
  intros Hid (Eo & Er & _). unfold runOnce. rewrite Eo, Er, runOnce_loop_app. simpl.
  destruct (String.eqb_spec (pr_Id rule) ""); [done|]. simpl. rewrite set_rules_eq. simpl.
  by rewrite insert_empty.
Qed.

End Watcher.

(** ** Witnesses *)

(** One assignment of the wire constants, to run the watcher on. *)
#[local] Instance demo_enums : PBEnums := {|
  pb_P2P_FORBIDDEN := 1; pb_P2P_REQUIRED := 2; pb_RELAY_MODE_FORWARD := 1; pb_DECISION_DENY := 2
|}.

Definition demo_iter : iter_order := fun m => (map_to_list m).*2.
Definition demo_wire (id : string) : PolicyRule := mkPolicyRule id "*" "svc" "" 1 0 0 0.

Definition demo_broken : attempt :=
  mkAttempt None (deliver demo_iter [KindAdded (Some (demo_wire "x"))] ++ [(demo_iter, RecvEOF)]) 5 false 0.
Definition demo_refused : attempt := mkAttempt (Some "unavailable") [] 0 false 7.
Definition demo_attempt (evs : list PolicyEvent) : attempt := mkAttempt None (deliver demo_iter evs ++ []) 5 false 0.


Lemma Watcher_outage_witness :
  exists opens st, Run [demo_refused; demo_broken] 9 NewEngine NewCache = (NewEngine, NewCache, opens, st) /\
    spaced (9 - backoff) opens /\ (st = true -> exists a, a ∈ [demo_refused; demo_broken] /\ at_done a = true).
Proof.
  apply Watcher_outage; [|by repeat constructor]. constructor; [by left|]. constructor; [|done].
  right. exists demo_iter, [KindAdded (Some (demo_wire "x"))], [(demo_iter, RecvEOF)].
  split; [|by repeat constructor]. split; [done|]. split; [done|]. right. by left.
Defined.

Lemma removal_during_snapshot_is_undone_witness :
  let '(e', _, _) := runOnce (demo_attempt [KindAdded (Some (demo_wire "a")); KindRemoved "a"; KindSnapshotEnd])
    NewEngine NewCache in
  rules e' = {["a" := FromPB (demo_wire "a")]}.
Proof.
  apply (removal_during_snapshot_is_undone demo_iter (demo_wire "a")); [discriminate|]. by repeat constructor.
Defined.
