(* ===== verification/ForwardPlane.v ===== *)
(** * ForwardPlane: [pkg/forward/plane.go]

    The mini-TURN UDP forwarding plane: issuing and releasing allocations,
    arming a registration from the control plane, the registration and data
    packets of the wire, and the idle collector.

    Each operation is the function of the same name on the [Plane] record; what
    runs under [p.mu] is one atomic state change, and the clock readings are
    arguments.  The store of [lastSeen] that the data path performs right after
    it releases the read lock is part of the same change. *)

From S2P Require Import Prelude.

(** ** Data *)

Definition DefaultAllocIdleTTL : Duration := 60 * Second.
Definition PunchNonceSize : nat := 16.
Definition DefaultPendingTTL : Duration := 5 * Second.

(** [netip.AddrPort]: [None] is the zero [netip.Addr]. *)
Record AddrPort := mkAddrPort { ap_addr : option string; ap_port : Z }.

#[export] Instance AddrPort_eq_dec : EqDecision AddrPort.
Proof. solve_decision. Defined.
#[export] Instance AddrPort_countable : Countable AddrPort.
Proof.
  apply (inj_countable' (fun a => (ap_addr a, ap_port a)) (fun x => mkAddrPort x.1 x.2)).
  by intros [].
Defined.

Definition zeroAddrPort : AddrPort := mkAddrPort None 0.
Definition IsValid (a : AddrPort) : bool := bool_decide (is_Some (ap_addr a)).

(** A [byte] is an integer in [0, 256). *)
Abbreviation bytes := (list Z).

Record pendingEntry := mkPending {
  pe_uri : string;
  pe_nonce : bytes;
  pe_expires : Time
}.

Record queuedPunch := mkQueued {
  qp_src : AddrPort;
  qp_nonce : bytes;
  qp_expires : Time
}.

Record allocEntry := mkAlloc {
  ae_uri : string;
  ae_src : AddrPort;
  ae_lastSeen : Time
}.

Inductive plane_err := ErrUnknownAlloc | ErrOwnerMismatch.

Record Plane := mkPlane {
  byAlloc : gmap Z allocEntry;
  byURI : gmap string (gset Z);
  src2id : gmap AddrPort Z;
  pending : gmap Z pendingEntry;
  queued : gmap Z queuedPunch;
  nextID : Z;
  idleTTL : Duration;
  pendingTTL : Duration
}.

Definition NewPlane : Plane :=
  mkPlane ∅ ∅ ∅ ∅ ∅ 0 DefaultAllocIdleTTL DefaultPendingTTL.

Definition SetIdleTTL (d : Duration) (p : Plane) : Plane :=
  mkPlane (byAlloc p) (byURI p) (src2id p) (pending p) (queued p) (nextID p) d (pendingTTL p).
Definition SetPendingTTL (d : Duration) (p : Plane) : Plane :=
  mkPlane (byAlloc p) (byURI p) (src2id p) (pending p) (queued p) (nextID p) (idleTTL p) d.

(** Field updates. *)
Definition with_byAlloc (m : gmap Z allocEntry) (p : Plane) : Plane :=
  mkPlane m (byURI p) (src2id p) (pending p) (queued p) (nextID p) (idleTTL p) (pendingTTL p).
Definition with_pending (m : gmap Z pendingEntry) (p : Plane) : Plane :=
  mkPlane (byAlloc p) (byURI p) (src2id p) m (queued p) (nextID p) (idleTTL p) (pendingTTL p).
Definition with_queued (m : gmap Z queuedPunch) (p : Plane) : Plane :=
  mkPlane (byAlloc p) (byURI p) (src2id p) (pending p) m (nextID p) (idleTTL p) (pendingTTL p).

(** ** Operations *)

(** The TTL [ArmPending] and [register] use. *)
Definition pending_ttl (p : Plane) : Duration :=
  if pendingTTL p <=? 0 then DefaultPendingTTL else pendingTTL p.

(** Bind an entry to the source of a verified punch, keeping the reverse index. *)
Definition bind_src (id : Z) (entry : allocEntry) (src : AddrPort) (now : Time) (p : Plane) : Plane :=
  let oldSrc := ae_src entry in
  let '(s2i, newSrc) :=
    if decide (oldSrc = src) then (src2id p, oldSrc)
    else
      let s2i := if IsValid oldSrc then delete oldSrc (src2id p) else src2id p in
      (<[src := id]> s2i, src) in
  mkPlane (<[id := mkAlloc (ae_uri entry) newSrc now]> (byAlloc p)) (byURI p) s2i
    (pending p) (queued p) (nextID p) (idleTTL p) (pendingTTL p).

Definition ArmPending (allocID : Z) (uri : string) (nonce : bytes) (now : Time) (p : Plane) :
    option plane_err * Plane :=
  if String.eqb uri "" then (Some ErrOwnerMismatch, p)
  else
    let ttl := pending_ttl p in
    match byAlloc p !! allocID with
    | None => (Some ErrUnknownAlloc, p)
    | Some entry =>
        if negb (String.eqb (ae_uri entry) uri) then (Some ErrOwnerMismatch, p)
        else
          let '(drained, p) :=
            match queued p !! allocID with
            | None => (false, p)
            | Some q =>
                let p := with_queued (delete allocID (queued p)) p in
                if (now <? qp_expires q) && bool_decide (qp_nonce q = nonce)
                then (true, bind_src allocID entry (qp_src q) now p)
                else (false, p)
            end in
          (None,
           if drained then p
           else with_pending (<[allocID := mkPending uri nonce (now + ttl)]> (pending p)) p)
    end.

(** The loop of [Allocate] that draws an id, skipping the reserved 0. *)
Fixpoint draw_id (fuel : nat) (next : Z) : option Z :=
  match fuel with
  | O => None
  | S fuel' =>
      let id := u32 (next + 1) in
      if id =? 0 then draw_id fuel' id else Some id
  end.

Definition Allocate (uri : string) (now : Time) (p : Plane) : exec (Z * Plane) :=
  if String.eqb uri "" then Panic "forward: Allocate called with empty URI"
  else
    match draw_id 2 (nextID p) with
    | None => OutOfFuel
    | Some id =>
        let set := default ∅ (byURI p !! uri) in
        Ret (id, mkPlane (<[id := mkAlloc uri zeroAddrPort now]> (byAlloc p))
                   (<[uri := {[id]} ∪ set]> (byURI p)) (src2id p) (pending p) (queued p)
                   id (idleTTL p) (pendingTTL p))
    end.

(** Take [id] out of its owner's set, and the set out of the index once empty. *)
Definition drop_owned (uri : string) (id : Z) (m : gmap string (gset Z)) : gmap string (gset Z) :=
  match m !! uri with
  | None => m
  | Some set =>
      let set := set ∖ {[id]} in
      if decide (set = ∅) then delete uri m else <[uri := set]> m
  end.

(** What [Forget] and the collector do to an entry that exists. *)
Definition evict (id : Z) (entry : allocEntry) (p : Plane) : Plane :=
  mkPlane (delete id (byAlloc p)) (drop_owned (ae_uri entry) id (byURI p))
    (delete (ae_src entry) (src2id p)) (delete id (pending p)) (delete id (queued p))
    (nextID p) (idleTTL p) (pendingTTL p).

Definition Forget (id : Z) (p : Plane) : Plane :=
  match byAlloc p !! id with
  | Some entry => evict id entry p
  | None => with_queued (delete id (queued p)) (with_pending (delete id (pending p)) p)
  end.

(** One iteration of the loop of [ForgetAgent]. *)
Definition forget_owned (st : Plane * Z) (id : Z) : Plane * Z :=
  let '(p, released) := st in
  match byAlloc p !! id with
  | None => (p, released)
  | Some entry =>
      (mkPlane (delete id (byAlloc p)) (byURI p) (delete (ae_src entry) (src2id p))
         (delete id (pending p)) (delete id (queued p)) (nextID p) (idleTTL p) (pendingTTL p),
       released + 1)
  end.

Definition ForgetAgent (uri : string) (p : Plane) : Z * Plane :=
  if String.eqb uri "" then (0, p)
  else
    match byURI p !! uri with
    | None => (0, p)
    | Some set =>
        let '(p, released) := foldl forget_owned (p, 0) (elements set) in
        (released, mkPlane (byAlloc p) (delete uri (byURI p)) (src2id p) (pending p) (queued p)
                     (nextID p) (idleTTL p) (pendingTTL p))
    end.

Definition OwnerOf (id : Z) (p : Plane) : option string := ae_uri <$> byAlloc p !! id.
Definition Lookup (id : Z) (p : Plane) : option AddrPort := ae_src <$> byAlloc p !! id.

(** [register]: [now] is its first clock reading, [now2] the one of the expiry test. *)
Definition register (allocID : Z) (src : AddrPort) (nonce : bytes) (now now2 : Time) (p : Plane) : Plane :=
  let ttl := pending_ttl p in
  match pending p !! allocID with
  | None => with_queued (<[allocID := mkQueued src nonce (now + ttl)]> (queued p)) p
  | Some pend =>
      if pe_expires pend <? now2 then with_pending (delete allocID (pending p)) p
      else if negb (bool_decide (pe_nonce pend = nonce)) then p
      else
        match byAlloc p !! allocID with
        | None => with_pending (delete allocID (pending p)) p
        | Some entry =>
            let p := bind_src allocID entry src now p in
            with_pending (delete allocID (pending p)) p
        end
  end.

(** ** The wire *)

(** [binary.BigEndian.Uint32]. *)
Definition be32 (b : bytes) : Z :=
  match b with
  | b0 :: b1 :: b2 :: b3 :: _ =>
      Z.lor (Z.lor (Z.shiftl b0 24) (Z.shiftl b1 16)) (Z.lor (Z.shiftl b2 8) b3)
  | _ => 0
  end.

(** What [Run] makes of one datagram. *)
Inductive packet :=
  | PktShort
  | PktBadRegistration
  | PktRegister (myAlloc : Z) (nonce : bytes)
  | PktData (peerAlloc : Z) (payload : bytes).

Definition classify (buf : bytes) : packet :=
  if (length buf <? 4)%nat then PktShort
  else
    let peerAlloc := be32 (take 4 buf) in
    if peerAlloc =? 0 then
      if (length buf <? 8 + PunchNonceSize)%nat then PktBadRegistration
      else PktRegister (be32 (take 4 (drop 4 buf))) (take PunchNonceSize (drop 8 buf))
    else PktData peerAlloc (drop 4 buf).

(** Store [now] into the [lastSeen] of the allocation the source is bound to. *)
Definition bump_sender (src : AddrPort) (now : Time) (p : Plane) : Plane :=
  match src2id p !! src with
  | None => p
  | Some senderID =>
      match byAlloc p !! senderID with
      | None => p
      | Some e => with_byAlloc (<[senderID := mkAlloc (ae_uri e) (ae_src e) now]> (byAlloc p)) p
      end
  end.

(** One turn of the loop of [Run]: the new state, and the datagram written to a
    peer endpoint, if any. *)
Definition handle_packet (buf : bytes) (src : AddrPort) (now now2 : Time) (p : Plane) :
    Plane * option (bytes * AddrPort) :=
  match classify buf with
  | PktShort | PktBadRegistration => (p, None)
  | PktRegister myAlloc nonce => (register myAlloc src nonce now now2 p, None)
  | PktData peerAlloc payload =>
      (bump_sender src now p, (fun entry => (payload, ae_src entry)) <$> byAlloc p !! peerAlloc)
  end.

(** ** The collector *)

(** The ticker period of [gcLoop]. *)
Definition gc_interval (ttl : Duration) : Duration :=
  Z.min (Z.max (Z.quot ttl 4) Second) (5 * Second).

(** The first loop of [gcOnce], visiting the entries in the order of [l]. *)
Definition gc_allocs (cutoff : Time) (l : list (Z * allocEntry)) (p : Plane) : Plane :=
  foldl (fun p '(id, entry) => if ae_lastSeen entry <? cutoff then evict id entry p else p) p l.

Definition gcOnce (now : Time) (p : Plane) : Plane :=
  let p := gc_allocs (now - idleTTL p) (map_to_list (byAlloc p)) p in
  mkPlane (byAlloc p) (byURI p) (src2id p)
    (filter (fun kv => now <= pe_expires kv.2) (pending p))
    (filter (fun kv => now <= qp_expires kv.2) (queued p))
    (nextID p) (idleTTL p) (pendingTTL p).

(** ** Runs *)

Inductive plane_op :=
  | PAllocate (uri : string) (now : Time)
  | PArm (id : Z) (uri : string) (nonce : bytes) (now : Time)
  | PForget (id : Z)
  | PForgetAgent (uri : string)
  | PPacket (buf : bytes) (src : AddrPort) (now now2 : Time)
  | PGC (now : Time).

(** A panicking [Allocate] leaves the plane as it is. *)
Definition plane_exec (p : Plane) (op : plane_op) : Plane :=
  match op with
  | PAllocate uri now => match Allocate uri now p with Ret (_, p') => p' | _ => p end
  | PArm id uri nonce now => (ArmPending id uri nonce now p).2
  | PForget id => Forget id p
  | PForgetAgent uri => (ForgetAgent uri p).2
  | PPacket buf src now now2 => (handle_packet buf src now now2 p).1
  | PGC now => gcOnce now p
  end.

Definition plane_run (ops : list plane_op) : Plane := foldl plane_exec NewPlane ops.

Definition is_allocate (op : plane_op) : bool :=
  match op with PAllocate _ _ => true | _ => false end.

(** Number of allocations a run issues (at most). *)
Definition allocations (ops : list plane_op) : Z := Z.of_nat (length (List.filter is_allocate ops)).
