(* ===== verification/ForwardInv.v ===== *)
(** * ForwardInv: the invariant of the forwarding plane

    What holds of every plane reached from [NewPlane] by any interleaving of
    control-plane calls, packets and collector ticks, as long as the 32-bit id
    counter has not wrapped: the four indexes agree with one another. *)

From S2P Require Import Prelude ForwardPlane.

(** The allocations an owner index records for [u]. *)
Definition owned (m : gmap string (gset Z)) (u : string) : gset Z := default ∅ (m !! u).

(** [byURI] is exactly the owner relation of [byAlloc], with no empty set kept. *)
Record owner_ok (p : Plane) : Prop := {
  ow_exact : forall u id, id ∈ owned (byURI p) u <->
    exists e, byAlloc p !! id = Some e /\ ae_uri e = u;
  ow_nonempty : forall u s, byURI p !! u = Some s -> s <> ∅
}.

(** The rest: ids never drawn ahead of the counter, the reverse index sound, an
    armed nonce belonging to the owner of a live allocation, and no allocation
    both armed and queued. *)
Record core_ok (p : Plane) : Prop := {
  co_next : 0 <= nextID p < 2 ^ 32;
  co_ids : forall id e, byAlloc p !! id = Some e -> 1 <= id <= nextID p /\ ae_uri e <> "";
  co_src : forall a id, src2id p !! a = Some id ->
    IsValid a = true /\ exists e, byAlloc p !! id = Some e /\ ae_src e = a;
  co_pend : forall id pe, pending p !! id = Some pe ->
    exists e, byAlloc p !! id = Some e /\ ae_uri e = pe_uri pe;
  co_disj : forall id, is_Some (pending p !! id) -> queued p !! id = None;
  co_qsrc : forall id q, queued p !! id = Some q -> IsValid (qp_src q) = true
}.

Record plane_inv (p : Plane) : Prop := {
  pi_core : core_ok p;
  pi_owner : owner_ok p
}.

(** UDP packets come from a real source address. *)
Definition plane_op_ok (op : plane_op) : Prop :=
  match op with PPacket _ src _ _ => IsValid src = true | _ => True end.

(** ** [bind_src] *)

Lemma bind_src_byAlloc id e src now p :
  byAlloc (bind_src id e src now p) = <[id := mkAlloc (ae_uri e) src now]> (byAlloc p).
Proof. unfold bind_src. case_decide; simpl; congruence. Qed.

Lemma bind_src_src2id id e src now p a i :
  src2id (bind_src id e src now p) !! a = Some i ->
  (a = src /\ i = id) \/
  (src2id p !! a = Some i /\ (ae_src e = src \/ IsValid (ae_src e) = true -> 
     a <> ae_src e \/ ae_src e = src)).
Proof.
  unfold bind_src. case_decide as Heq; simpl; [auto|].
  rewrite lookup_insert. case_decide; [naive_solver|].
  destruct (IsValid (ae_src e)) eqn:Hv.
  - rewrite lookup_delete. case_decide; [done|]. intros ?. right. split; [done|]. auto.
  - intros ?. right. split; [done|]. intros [|]; [done|congruence].
Qed.

Lemma bind_src_rest id e src now p :
  let p' := bind_src id e src now p in
  byURI p' = byURI p /\ pending p' = pending p /\ queued p' = queued p /\
  nextID p' = nextID p /\ idleTTL p' = idleTTL p /\ pendingTTL p' = pendingTTL p.
Proof. unfold bind_src. by case_decide. Qed.

Lemma bind_src_core id e src now p :
  byAlloc p !! id = Some e -> IsValid src = true -> core_ok p -> core_ok (bind_src id e src now p).
Proof.
  intros He Hv [Hn Hi Hs Hp Hd Hq].
  destruct (bind_src_rest id e src now p) as (HU & HP & HQ & HN & _).
  split; rewrite ?HU, ?HP, ?HQ, ?HN, ?bind_src_byAlloc; try done.
  - intros i x. rewrite lookup_insert. case_decide as Heq; [subst i|apply Hi].
    intros [= <-]. simpl. apply (Hi _ _ He).
  - intros a i [[-> ->]|[Ha Hne]]%bind_src_src2id.
    { split; [done|]. rewrite lookup_insert_eq. eauto. }
    destruct (Hs _ _ Ha) as (Hva & x & Hx & <-). split; [done|].
    rewrite lookup_insert. case_decide as Heq; [subst i|eauto].
    eexists; split; [done|]. simpl. simplify_eq. destruct (Hne (or_intror Hva)); [done|auto].
  - intros i pe Hpe. destruct (Hp _ _ Hpe) as (x & Hx & ?).
    rewrite lookup_insert. case_decide as Heq; [subst i|eauto]. eexists. split; [done|].
    simpl. congruence.
Qed.

Lemma bind_src_owner id e src now p :
  byAlloc p !! id = Some e -> owner_ok p -> owner_ok (bind_src id e src now p).
Proof.
  intros He [Hx Hne]. destruct (bind_src_rest id e src now p) as (HU & _).
  split; rewrite HU, ?bind_src_byAlloc; [|done]. intros u i. rewrite Hx.
  destruct (decide (id = i)) as [<-|]; [|by rewrite lookup_insert_ne].
  rewrite lookup_insert_eq, He. naive_solver.
Qed.

(** ** Control-plane operations *)

Lemma with_queued_delete_inv id p :
  plane_inv p -> plane_inv (with_queued (delete id (queued p)) p).
Proof.
  intros [[Hn Hi Hs Hp Hd Hq] Ho]. split; [|by destruct Ho; split].
  split; simpl; try done.
  - intros i ?%Hd. rewrite lookup_delete. by case_decide.
  - intros i q. rewrite lookup_delete. case_decide; [done|apply Hq].
Qed.

Lemma with_pending_delete_inv id p :
  plane_inv p -> plane_inv (with_pending (delete id (pending p)) p).
Proof.
  intros [[Hn Hi Hs Hp Hd Hq] Ho]. split; [|by destruct Ho; split].
  split; simpl; try done.
  - intros i pe. rewrite lookup_delete. case_decide; [done|apply Hp].
  - intros i. rewrite lookup_delete. case_decide; [by intros []|apply Hd].
Qed.

Lemma ArmPending_inv id uri nonce now p :
  plane_inv p -> plane_inv (ArmPending id uri nonce now p).2.
Proof.
  intros Hinv. unfold ArmPending. destruct (String.eqb_spec uri ""); [done|].
  destruct (byAlloc p !! id) as [e|] eqn:He; [|done].
  destruct (String.eqb_spec (ae_uri e) uri) as [Hu|]; [|done]. simpl negb. cbv iota.
  assert (Harm : forall q, byAlloc q = byAlloc p -> queued q !! id = None -> plane_inv q ->
    plane_inv (with_pending (<[id := mkPending uri nonce (now + pending_ttl p)]> (pending q)) q)).
  { intros q Hb Hqn [[Hn Hi Hs Hp Hd Hq] Ho]. split; [|by destruct Ho; split].
    split; simpl; try done.
    - intros i pe. rewrite lookup_insert. case_decide as Heq; [subst i|apply Hp].
      intros [= <-]. rewrite Hb. eauto.
    - intros i. rewrite lookup_insert. case_decide as Heq; [by subst i|apply Hd]. }
  destruct (queued p !! id) as [q|] eqn:Hq; [|simpl; by apply Harm].
  destruct ((now <? qp_expires q) && bool_decide (qp_nonce q = nonce)); simpl.
  - destruct (with_queued_delete_inv id p Hinv) as [Hc Ho]. destruct Hinv as [Hci Hoi]. split.
    + apply bind_src_core; [done| |done]. by apply (co_qsrc p Hci id).
    + by apply bind_src_owner.
  - apply (Harm (with_queued (delete id (queued p)) p)); [done| |by apply with_queued_delete_inv].
    apply lookup_delete_eq.
Qed.

Lemma draw_id_spec next : 0 <= next < 2 ^ 32 ->
  draw_id 2 next = Some (if next =? 2 ^ 32 - 1 then 1 else next + 1).
Proof.
  intros H. unfold draw_id. destruct (Z.eqb_spec next (2 ^ 32 - 1)) as [->|Hne]; [done|].
  rewrite u32_small by lia. destruct (Z.eqb_spec (next + 1) 0); [lia|done].
Qed.

Lemma Allocate_fresh uri now p : plane_inv p -> uri <> "" -> nextID p < 2 ^ 32 - 1 ->
  exists p', Allocate uri now p = Ret (nextID p + 1, p') /\ plane_inv p' /\
    byAlloc p !! (nextID p + 1) = None /\ nextID p' = nextID p + 1 /\
    byAlloc p' = <[nextID p + 1 := mkAlloc uri zeroAddrPort now]> (byAlloc p).
Proof.
  intros [[Hn Hi Hs Hp Hd Hq] [Hx Hne]] Hu Hlt. unfold Allocate.
  destruct (String.eqb_spec uri ""); [done|]. rewrite draw_id_spec by lia.
  destruct (Z.eqb_spec (nextID p) (2 ^ 32 - 1)); [lia|].
  assert (Hfresh : byAlloc p !! (nextID p + 1) = None).
  { destruct (byAlloc p !! (nextID p + 1)) as [e|] eqn:He; [|done]. apply Hi in He. lia. }
  assert (Hw : forall (P : allocEntry -> Prop) i, (exists e, byAlloc p !! i = Some e /\ P e) ->
    exists e, <[nextID p + 1 := mkAlloc uri zeroAddrPort now]> (byAlloc p) !! i = Some e /\ P e).
  { intros P i (e & He & ?). exists e. rewrite lookup_insert_ne by congruence. done. }
  eexists. split; [reflexivity|]. split; [|done]. split; split; simpl; try done.
  - lia.
  - intros i e. rewrite lookup_insert. case_decide; [intros [= <-]; simpl; split; [lia|done]|].
    intros [??]%Hi. split; [lia|done].
  - intros a i [? ?]%Hs. auto.
  - intros i pe ?%Hp. auto.
  - intros u i. unfold owned. rewrite lookup_insert. case_decide as Heq; [subst u|]; simpl.
    + rewrite elem_of_union, elem_of_singleton. fold (owned (byURI p) uri). rewrite Hx.
      insert_cases i (nextID p + 1).
      * naive_solver.
      * naive_solver.
    + fold (owned (byURI p) u). rewrite Hx. destruct (decide (nextID p + 1 = i)) as [<-|].
      * rewrite lookup_insert_eq, Hfresh. naive_solver.
      * by rewrite lookup_insert_ne.
  - intros u s. rewrite lookup_insert. case_decide; [|apply Hne]. intros [= <-]. set_solver.
Qed.

Lemma drop_owned_spec uri id m u :
  owned (drop_owned uri id m) u = if decide (u = uri) then owned m u ∖ {[id]} else owned m u.
Proof.
  unfold drop_owned, owned. case_decide as Hu; [subst u|].
  - destruct (m !! uri) as [s|] eqn:Hm; simpl; [|rewrite Hm; simpl; set_solver].
    case_decide as Hs; [by rewrite lookup_delete_eq|by rewrite lookup_insert_eq].
  - destruct (m !! uri); [|done]. case_decide; [by rewrite lookup_delete_ne|by rewrite lookup_insert_ne].
Qed.

Lemma drop_owned_nonempty uri id m u s :
  (forall u s, m !! u = Some s -> s <> ∅) -> drop_owned uri id m !! u = Some s -> s <> ∅.
Proof.
  intros Hne. unfold drop_owned. destruct (m !! uri); [|apply Hne]. case_decide.
  - rewrite lookup_delete. case_decide; [done|apply Hne].
  - rewrite lookup_insert. case_decide; [naive_solver|apply Hne].
Qed.

(** Removing the entry, its source and its registration state keeps [core_ok],
    whatever becomes of the owner index. *)
Lemma evict_core id e p m :
  byAlloc p !! id = Some e -> core_ok p ->
  core_ok (mkPlane (delete id (byAlloc p)) m (delete (ae_src e) (src2id p)) (delete id (pending p))
    (delete id (queued p)) (nextID p) (idleTTL p) (pendingTTL p)).
Proof.
  intros He [Hn Hi Hs Hp Hd Hq]. split; simpl; try done.
  - intros i x. rewrite lookup_delete. case_decide; [done|apply Hi].
  - intros a i. rewrite lookup_delete. case_decide as Ha; [done|]. intros (Hv & x & Hx & <-)%Hs.
    split; [done|]. exists x. rewrite lookup_delete_ne; [done|]. intros ->. congruence.
  - intros i pe. rewrite lookup_delete. case_decide; [done|]. intros (x & Hx & ?)%Hp.
    exists x. by rewrite lookup_delete_ne.
  - intros i. rewrite !lookup_delete. case_decide; [by intros []|apply Hd].
  - intros i q. rewrite lookup_delete. case_decide; [done|apply Hq].
Qed.

Lemma evict_inv id e p : byAlloc p !! id = Some e -> plane_inv p -> plane_inv (evict id e p).
Proof.
  intros He [Hc [Hx Hne]]. split; [by apply evict_core|]. split; simpl.
  - intros u i. rewrite drop_owned_spec, lookup_delete.
    destruct (decide (id = i)) as [<-|Hne']; case_decide as Hu; try subst u.
    + set_solver.
    + rewrite Hx. split; [|by intros (? & ? & _)]. intros (x & ? & ?). congruence.
    + rewrite elem_of_difference, Hx. set_solver.
    + by rewrite Hx.
  - intros u s. by apply drop_owned_nonempty.
Qed.

Lemma Forget_inv id p : plane_inv p -> plane_inv (Forget id p).
Proof.
  intros H. unfold Forget. destruct (byAlloc p !! id) eqn:He; [by apply evict_inv|].
  by apply (with_queued_delete_inv id (with_pending (delete id (pending p)) p)), with_pending_delete_inv.
Qed.

(** The loop of [ForgetAgent]: what is left, and how many were released. *)
Lemma forget_owned_fold l p n :
  NoDup l -> core_ok p -> (forall id, id ∈ l -> is_Some (byAlloc p !! id)) ->
  let '(p', n') := foldl forget_owned (p, n) l in
  core_ok p' /\ byURI p' = byURI p /\ n' = n + Z.of_nat (length l) /\
  nextID p' = nextID p /\
  (forall i, byAlloc p' !! i = if decide (i ∈ l) then None else byAlloc p !! i) /\
  (forall i, pending p' !! i = if decide (i ∈ l) then None else pending p !! i) /\
  (forall i, queued p' !! i = if decide (i ∈ l) then None else queued p !! i) /\
  (forall a i, i ∉ l -> src2id p' !! a = Some i -> src2id p !! a = Some i).
Proof.
  intros Hnd. revert p n. induction Hnd as [|id l Hid Hnd IH]; intros p n Hc Hl.
  { simpl. split_and!; try done; try lia; intros; by rewrite decide_False by set_solver. }
  cbn [foldl forget_owned]. destruct (Hl id ltac:(set_solver)) as [e He]. rewrite He.
  specialize (IH _ (n + 1) (evict_core id e p (byURI p) He Hc)).
  destruct (foldl forget_owned _ l) as [p' n']. destruct IH as (Hc' & HU & -> & HN & HA & HP & HQ & HS).
  { intros i Hi. simpl. rewrite lookup_delete_ne by set_solver. apply Hl. set_solver. }
  simpl in *. split_and!; try done; try lia.
  1,2,3: intros i; rewrite ?HA, ?HP, ?HQ, lookup_delete; repeat case_decide; set_solver.
  intros a i Hi Ha. apply HS in Ha; [|set_solver]. by apply lookup_delete_Some in Ha as [_ ?].
Qed.

Lemma owned_listed p u s : owner_ok p -> byURI p !! u = Some s ->
  forall id, id ∈ elements s -> exists e, byAlloc p !! id = Some e /\ ae_uri e = u.
Proof.
  intros [Hx _] Hu id Hid%elem_of_elements. apply Hx. unfold owned. by rewrite Hu.
Qed.

Lemma ForgetAgent_inv uri p : plane_inv p -> plane_inv (ForgetAgent uri p).2.
Proof.
  intros [Hc Ho]. unfold ForgetAgent. destruct (String.eqb uri ""); [done|].
  destruct (byURI p !! uri) as [s|] eqn:Hs; [|done].
  pose proof (owned_listed p uri s Ho Hs) as Hl.
  pose proof (forget_owned_fold (elements s) p 0 (NoDup_elements s) Hc) as Hf.
  destruct (foldl forget_owned (p, 0) (elements s)) as [p' n'].
  destruct Hf as (Hc' & HU & _ & HN & HA & _); [naive_solver|]. simpl.
  split; [by destruct Hc'; split|]. destruct Ho as [Hx Hne].
  assert (Hsx : forall i, i ∈ s <-> exists e, byAlloc p !! i = Some e /\ ae_uri e = uri).
  { intros i. rewrite <- Hx. unfold owned. by rewrite Hs. }
  split; simpl; rewrite HU.
  - intros u i. rewrite HA. unfold owned. rewrite lookup_delete. case_decide as Hu; [subst u|].
    + simpl. case_decide as Hi; rewrite elem_of_elements in Hi; [set_solver|].
      rewrite Hsx in Hi. set_solver.
    + fold (owned (byURI p) u). rewrite Hx. case_decide as Hi; [|done].
      rewrite elem_of_elements, Hsx in Hi. naive_solver.
  - intros u t. rewrite lookup_delete. case_decide; [done|apply Hne].
Qed.

(** ** Packets *)

Lemma ForgetAgent_owner uri p i : plane_inv p -> uri <> "" -> OwnerOf i (ForgetAgent uri p).2 <> Some uri.
Proof.
  intros Hp Hu Ho. pose proof (ForgetAgent_inv uri p Hp) as [_ [Hx _]].
  assert (Hn : byURI (ForgetAgent uri p).2 !! uri = None).
  { unfold ForgetAgent. destruct (String.eqb_spec uri ""); [done|].
    destruct (byURI p !! uri) eqn:Hs; [|done]. destruct (foldl _ _ _). apply lookup_delete_eq. }
  assert (Hi : i ∈ owned (byURI (ForgetAgent uri p).2) uri).
  { apply Hx. unfold OwnerOf in Ho. apply fmap_Some in Ho as (e & ? & ?). eauto. }
  unfold owned in Hi. rewrite Hn in Hi. set_solver.
Qed.

Lemma register_inv id src nonce now now2 p :
  IsValid src = true -> plane_inv p -> plane_inv (register id src nonce now now2 p).
Proof.
  intros Hv Hinv. unfold register. destruct (pending p !! id) as [pe|] eqn:Hpe.
  - destruct (pe_expires pe <? now2); [by apply with_pending_delete_inv|].
    destruct (negb _); [done|]. destruct (byAlloc p !! id) as [e|] eqn:He;
      [|by apply with_pending_delete_inv].
    apply with_pending_delete_inv. destruct Hinv. split; [by apply bind_src_core|by apply bind_src_owner].
  - destruct Hinv as [[Hn Hi Hs Hp Hd Hq] Ho]. split; [|by destruct Ho; split]. split; simpl; try done.
    + intros i Hpi. rewrite lookup_insert_ne; [by apply Hd|]. intros ->. rewrite Hpe in Hpi. by destruct Hpi.
    + intros i q. rewrite lookup_insert. case_decide; [naive_solver|apply Hq].
Qed.

Lemma bump_sender_inv src now p : plane_inv p -> plane_inv (bump_sender src now p).
Proof.
  intros [[Hn Hi Hs Hp Hd Hq] [Hx Hne]]. unfold bump_sender.
  destruct (src2id p !! src) as [id|]; [|done]. destruct (byAlloc p !! id) as [e|] eqn:He; [|done].
  assert (Hw : forall (P : string -> AddrPort -> Prop) i,
    (exists x, byAlloc p !! i = Some x /\ P (ae_uri x) (ae_src x)) <->
    (exists x, <[id := mkAlloc (ae_uri e) (ae_src e) now]> (byAlloc p) !! i = Some x /\
       P (ae_uri x) (ae_src x))).
  { intros P i. rewrite lookup_insert. case_decide as Heq; [subst i|done]. rewrite He. naive_solver. }
  split; split; simpl; try done.
  - intros i x. rewrite lookup_insert. case_decide as Heq; [subst i|apply Hi].
    intros [= <-]. apply (Hi _ _ He).
  - intros a i (? & ?)%Hs. split; [done|]. by apply (Hw (fun _ s => s = a)).
  - intros i pe ?%Hp. by apply (Hw (fun u _ => u = pe_uri pe)).
  - intros u i. rewrite Hx. apply (Hw (fun v _ => v = u)).
Qed.

Lemma handle_packet_inv buf src now now2 p :
  IsValid src = true -> plane_inv p -> plane_inv (handle_packet buf src now now2 p).1.
Proof.
  intros Hv Hp. unfold handle_packet. destruct (classify buf); simpl; auto using register_inv, bump_sender_inv.
Qed.

(** ** The collector *)

Lemma gc_allocs_inv cutoff l p :
  NoDup l.*1 -> (forall id e, (id, e) ∈ l -> byAlloc p !! id = Some e) ->
  plane_inv p -> plane_inv (gc_allocs cutoff l p).
Proof.
  unfold gc_allocs. revert p. induction l as [|[id e] l IH]; intros p Hnd Hl Hp; [done|].
  cbn [foldl]. rewrite fmap_cons, NoDup_cons in Hnd. destruct Hnd as [Hid Hnd].
  case_match; (apply IH; [done| |]); try done.
  - intros i x Hi. simpl. rewrite lookup_delete_ne; [apply Hl; set_solver|].
    intros ->. apply Hid. apply list_elem_of_fmap. by exists (i, x).
  - apply evict_inv; [|done]. apply Hl. set_solver.
  - intros i x Hi. apply Hl. set_solver.
Qed.

Lemma gcOnce_inv now p : plane_inv p -> plane_inv (gcOnce now p).
Proof.
  intros Hp. unfold gcOnce.
  assert (H : plane_inv (gc_allocs (now - idleTTL p) (map_to_list (byAlloc p)) p)).
  { apply gc_allocs_inv; [apply NoDup_fst_map_to_list| |done]. intros id e. apply elem_of_map_to_list. }
  destruct H as [[Hn Hi Hs Hpd Hd Hq] Ho]. split; [|by destruct Ho; split]. split; simpl; try done.
  - intros i pe [? _]%map_lookup_filter_Some. by apply Hpd.
  - intros i [pe [? _]%map_lookup_filter_Some]. apply map_lookup_filter_None. left. apply Hd. eauto.
  - intros i q [? _]%map_lookup_filter_Some. by eapply Hq.
Qed.

(** ** Runs *)

Lemma NewPlane_inv : plane_inv NewPlane.
Proof.
  split; split; simpl; try (intros *; rewrite ?lookup_empty; done || set_solver).
Qed.

Lemma gc_allocs_next cutoff l p : nextID (gc_allocs cutoff l p) = nextID p.
Proof.
  unfold gc_allocs. revert p. induction l as [|[id e] l IH]; intros p; [done|]. cbn [foldl].
  by case_match; rewrite IH.
Qed.

Lemma forget_owned_next l p n : nextID (foldl forget_owned (p, n) l).1 = nextID p.
Proof.
  revert p n. induction l as [|id l IH]; intros p n; [done|]. cbn [foldl forget_owned].
  case_match; by rewrite IH.
Qed.

(** Only [Allocate] moves the counter. *)
Lemma plane_exec_next p op : is_allocate op = false -> nextID (plane_exec p op) = nextID p.
Proof.
  destruct op as [|id uri nonce now|id|uri|buf src now now2|now]; simpl; [done|intros _..].
  - unfold ArmPending. repeat case_match; simplify_eq; simpl; try done;
      by rewrite ?(proj1 (proj2 (proj2 (proj2 (bind_src_rest _ _ _ _ _))))).
  - unfold Forget. by case_match.
  - unfold ForgetAgent. destruct (String.eqb uri ""); [done|]. destruct (byURI p !! uri) as [s|]; [|done].
    pose proof (forget_owned_next (elements s) p 0).
    by destruct (foldl forget_owned (p, 0) (elements s)) as [p' n'].
  - unfold handle_packet, register, bump_sender. repeat case_match; simpl; try done.
    by rewrite (proj1 (proj2 (proj2 (proj2 (bind_src_rest _ _ _ _ _))))).
  - unfold gcOnce. simpl. apply gc_allocs_next.
Qed.

Lemma plane_exec_inv p op :
  plane_op_ok op -> (is_allocate op = true -> nextID p < 2 ^ 32 - 1) ->
  plane_inv p -> plane_inv (plane_exec p op).
Proof.
  destruct op as [uri now|id uri nonce now|id|uri|buf src now now2|now]; simpl; intros Hok Hlt Hp.
  - destruct (String.eqb_spec uri "") as [->|Hne]; [done|].
    by destruct (Allocate_fresh uri now p Hp Hne (Hlt eq_refl)) as (p' & -> & ? & _).
  - by apply ArmPending_inv.
  - by apply Forget_inv.
  - by apply ForgetAgent_inv.
  - by apply handle_packet_inv.
  - by apply gcOnce_inv.
Qed.

Lemma plane_exec_next_le p op : plane_inv p -> nextID p < 2 ^ 32 - 1 ->
  nextID (plane_exec p op) <= nextID p + (if is_allocate op then 1 else 0).
Proof.
  intros Hp Hlt. destruct (is_allocate op) eqn:Hop; [|rewrite plane_exec_next by done; lia].
  destruct op as [uri now| | | | |]; try done. simpl.
  destruct (String.eqb_spec uri "") as [->|Hne]; [simpl; lia|].
  destruct (Allocate_fresh uri now p Hp Hne Hlt) as (p' & -> & _ & _ & -> & _). lia.
Qed.

Lemma allocations_snoc ops op :
  allocations (ops ++ [op]) = allocations ops + (if is_allocate op then 1 else 0).
Proof. unfold allocations. rewrite List.filter_app, length_app. simpl. destruct (is_allocate op); simpl; lia. Qed.

Lemma plane_run_snoc ops op : plane_run (ops ++ [op]) = plane_exec (plane_run ops) op.
Proof. unfold plane_run. by rewrite foldl_app. Qed.

Lemma plane_run_inv ops : Forall plane_op_ok ops -> allocations ops < 2 ^ 32 ->
  plane_inv (plane_run ops) /\ nextID (plane_run ops) <= allocations ops.
Proof.
  induction ops as [|op ops IH] using rev_ind.
  { intros _ _. split; [apply NewPlane_inv|]. done. }
  rewrite allocations_snoc, plane_run_snoc. intros [Hops Hop]%Forall_app Hlt.
  apply (proj1 (Forall_singleton plane_op_ok op)) in Hop. destruct (is_allocate op) eqn:Ha.
  - destruct IH as [Hp Hle]; [done|lia|]. split; [apply plane_exec_inv; [exact Hop|intros; lia|exact Hp]|].
    pose proof (plane_exec_next_le _ op Hp ltac:(lia)) as H. rewrite Ha in H. lia.
  - destruct IH as [Hp Hle]; [done|lia|]. split; [apply plane_exec_inv; [done|congruence|done]|].
    rewrite plane_exec_next by done. lia.
Qed.

(** ** Properties *)


Definition addr (s : string) (port : Z) : AddrPort := mkAddrPort (Some s) port.

