(* ===== verification/ForwardTypes.v ===== *)
(** * ForwardTypes: widths and shapes in the forward plane

    The Go types of the plane's tables, as an invariant: ids are [uint32] and never
    the reserved 0 once issued, nonces are arrays of [PunchNonceSize] bytes, indexed
    sources are real addresses.  Unlike [plane_inv] it holds for runs of any length,
    the wrap-around of the id counter included. *)

From S2P Require Import Prelude ForwardPlane ForwardInv.

Definition is_u32 (z : Z) : Prop := 0 <= z < 2 ^ 32.
Definition is_id (z : Z) : Prop := 0 < z < 2 ^ 32.
Definition byte_ok (b : Z) : Prop := 0 <= b < 256.

Record plane_typed (p : Plane) : Prop := {
  pt_next : is_u32 (nextID p);
  pt_alloc : forall id e, byAlloc p !! id = Some e -> is_id id /\ (ae_src e = zeroAddrPort \/ IsValid (ae_src e) = true);
  pt_index : forall uri set id, byURI p !! uri = Some set -> id ∈ set -> is_id id;
  pt_src : forall a id, src2id p !! a = Some id -> IsValid a = true /\ is_id id;
  pt_pending : forall id pe, pending p !! id = Some pe -> is_id id /\ length (pe_nonce pe) = PunchNonceSize;
  pt_queued : forall id q, queued p !! id = Some q ->
    is_u32 id /\ IsValid (qp_src q) = true /\ length (qp_nonce q) = PunchNonceSize
}.

(** Operations with arguments of the right types. *)
Definition plane_op_typed (op : plane_op) : Prop :=
  match op with
  | PArm id _ nonce _ => is_u32 id /\ length nonce = PunchNonceSize
  | PPacket buf src _ _ => Forall byte_ok buf /\ IsValid src = true
  | _ => True
  end.

(** ** Decoding *)

Lemma lor_u32 x y : is_u32 x -> is_u32 y -> is_u32 (Z.lor x y).
Proof.
  unfold is_u32. intros Hx Hy. split; [apply Z.lor_nonneg; lia|].
  rewrite <- (Z.mod_small x (2 ^ 32)), <- (Z.mod_small y (2 ^ 32)) by lia.
  rewrite <- !Z.land_ones, <- Z.land_lor_distr_l, Z.land_ones by lia. apply Z.mod_pos_bound. lia.
Qed.

Lemma be32_u32 b : Forall byte_ok b -> is_u32 (be32 b).
Proof.
  intros Hb. destruct b as [|b0 [|b1 [|b2 [|b3 b]]]]; cbn [be32]; try (unfold is_u32; lia).
  apply Forall_cons in Hb as [H0 [H1 [H2 [H3 _]%Forall_cons]%Forall_cons]%Forall_cons].
  unfold byte_ok in *. rewrite !Z.shiftl_mul_pow2 by lia. repeat apply lor_u32; unfold is_u32; lia.
Qed.

Lemma classify_typed buf id nonce : Forall byte_ok buf -> classify buf = PktRegister id nonce ->
  is_u32 id /\ length nonce = PunchNonceSize.
Proof.
  intros Hb. unfold classify. destruct (_ <? 4)%nat; [done|]. destruct (_ =? 0); [|done].
  destruct (Nat.ltb_spec (length buf) (8 + PunchNonceSize)); [done|]. intros [= <- <-]. split.
  - by apply be32_u32, Forall_take, Forall_drop.
  - rewrite length_take, length_drop. lia.
Qed.

(** ** Preservation *)

Lemma draw_id_typed fuel next id : draw_id fuel next = Some id -> is_id id.
Proof.
  revert next. induction fuel as [|fuel IH]; intros next; simpl; [done|].
  destruct (Z.eqb_spec (u32 (next + 1)) 0); [apply IH|]. intros [= <-]. pose proof (u32_range (next + 1)). unfold is_id. lia.
Qed.

Lemma bind_src_typed id e src now p :
  plane_typed p -> byAlloc p !! id = Some e -> IsValid src = true -> plane_typed (bind_src id e src now p).
Proof.
  intros [Hn Ha Hi Hs Hp Hq] He Hv. destruct (Ha id e He) as [Hid Hsrc].
  unfold bind_src. case_decide as Hd; split; simpl; try done.
  - intros k x. insert_cases k id; [|apply Ha]. intros [= <-]. done.
  - intros k x. insert_cases k id; [|apply Ha]. intros [= <-]. simpl. auto.
  - intros a k. insert_cases a src; [by intros [= <-]|]. destruct (IsValid (ae_src e)); [|apply Hs].
    intros [_ ?]%lookup_delete_Some. by apply Hs.
Qed.

(** Tables that only lose entries, or change those of known ids. *)
Lemma plane_typed_sub p p' :
  plane_typed p -> nextID p' = nextID p -> byAlloc p' ⊆ byAlloc p ->
  (forall uri set, byURI p' !! uri = Some set -> exists set', byURI p !! uri = Some set' /\ set ⊆ set') ->
  src2id p' ⊆ src2id p -> pending p' ⊆ pending p -> queued p' ⊆ queued p -> plane_typed p'.
Proof.
  intros [Hn Ha Hi Hs Hp Hq] En Ea Ei Es Ep Eq. split; [by rewrite En|..].
  - intros id e He. eapply Ha, lookup_weaken; [exact He|done].
  - intros uri set id (set' & Hs' & Hsub)%Ei Hin. by eapply Hi, Hsub.
  - intros a id Hl. eapply Hs, lookup_weaken; [exact Hl|done].
  - intros id pe Hl. eapply Hp, lookup_weaken; [exact Hl|done].
  - intros id q Hl. eapply Hq, lookup_weaken; [exact Hl|done].
Qed.

Lemma drop_owned_sub uri id m u set : drop_owned uri id m !! u = Some set -> exists set', m !! u = Some set' /\ set ⊆ set'.
Proof.
  unfold drop_owned. destruct (m !! uri) as [x|] eqn:E; [|by eauto]. case_decide.
  - intros [_ ?]%lookup_delete_Some. eauto.
  - insert_cases u uri; [|by eauto]. intros [= <-]. exists x. split; [done|]. set_solver.
Qed.

Lemma evict_typed id e p : plane_typed p -> plane_typed (evict id e p).
Proof.
  intros Hp. apply (plane_typed_sub p); try done; simpl; try apply delete_subseteq. apply drop_owned_sub.
Qed.

Lemma forget_owned_typed l st : plane_typed st.1 -> plane_typed (foldl forget_owned st l).1.
Proof.
  revert st. induction l as [|id l IH]; intros [p n] Hp; simpl; [done|]. apply IH. unfold forget_owned.
  destruct (byAlloc p !! id); simpl; [|done].
  apply (plane_typed_sub p); try done; simpl; try apply delete_subseteq. eauto.
Qed.

Lemma gc_allocs_typed cutoff l p : plane_typed p -> plane_typed (gc_allocs cutoff l p).
Proof.
  unfold gc_allocs. revert p. induction l as [|[id e] l IH]; intros p Hp; simpl; [done|]. apply IH.
  case_match; [by apply evict_typed|done].
Qed.

Lemma ArmPending_typed id uri nonce now p :
  plane_typed p -> length nonce = PunchNonceSize -> plane_typed (ArmPending id uri nonce now p).2.
Proof.
  intros Hp Hl. unfold ArmPending. destruct (String.eqb uri ""); [done|].
  destruct (byAlloc p !! id) as [e|] eqn:He; [|done]. destruct (negb _); [done|].
  assert (Hpend : forall q, plane_typed q -> byAlloc q !! id = Some e ->
    plane_typed (with_pending (<[id := mkPending uri nonce (now + pending_ttl p)]> (pending q)) q)).
  { intros q Hq Heq. destruct (pt_alloc q Hq id e Heq) as [Hid _]. destruct Hq as [Hn Ha Hi Hs Hpd Hqu].
    split; try done. simpl. intros k pe. insert_cases k id; [by intros [= <-]|apply Hpd]. }
  destruct (queued p !! id) as [q|] eqn:Hq; simpl; [|by apply Hpend].
  assert (Hdel : plane_typed (with_queued (delete id (queued p)) p)).
  { apply (plane_typed_sub p); try done; [by eauto|]. apply delete_subseteq. }
  destruct (_ && _); simpl; [|by apply (Hpend (with_queued (delete id (queued p)) p))]. apply bind_src_typed; [done..|]. by apply (pt_queued p Hp id q).
Qed.

Lemma register_typed id src nonce now now2 p :
  plane_typed p -> is_u32 id -> length nonce = PunchNonceSize -> IsValid src = true ->
  plane_typed (register id src nonce now now2 p).
Proof.
  intros Hp Hid Hl Hv. unfold register.
  assert (Hdel : forall q, plane_typed q -> plane_typed (with_pending (delete id (pending q)) q)).
  { intros q Hq. apply (plane_typed_sub q); try done; [by eauto|]. apply delete_subseteq. }
  destruct (pending p !! id) as [pe|].
  - destruct (_ <? _); [by apply Hdel|]. destruct (negb _); [done|].
    destruct (byAlloc p !! id) eqn:He; [|by apply Hdel]. by apply Hdel, bind_src_typed.
  - destruct Hp as [Hn Ha Hi Hs Hpd Hqu]. split; try done. simpl. intros k q.
    insert_cases k id; [by intros [= <-]|apply Hqu].
Qed.

Lemma plane_exec_typed p op : plane_typed p -> plane_op_typed op -> plane_typed (plane_exec p op).
Proof.
  intros Hp. destruct op as [uri now|id uri nonce now|id|uri|buf src now now2|now]; simpl.
  - intros _. unfold Allocate. destruct (String.eqb uri ""); [done|].
    destruct (draw_id 2 (nextID p)) as [id|] eqn:Hd; [|done]. apply draw_id_typed in Hd.
    destruct Hp as [Hn Ha Hi Hs Hpd Hqu]. split; simpl; try done.
    + unfold is_u32, is_id in *. lia.
    + intros k e. insert_cases k id; [intros [= <-]; simpl; auto|apply Ha].
    + intros u set k. insert_cases u uri; [|apply Hi]. intros [= <-].
      rewrite elem_of_union, elem_of_singleton. intros [->|Hk]; [done|].
      destruct (byURI p !! uri) as [set|] eqn:E; simpl in Hk; [by eapply Hi|set_solver].
  - intros [_ Hl]. by apply ArmPending_typed.
  - intros _. unfold Forget. destruct (byAlloc p !! id); [by apply evict_typed|].
    apply (plane_typed_sub p); try done; simpl; try apply delete_subseteq. eauto.
  - intros _. unfold ForgetAgent. destruct (String.eqb uri ""); [done|]. destruct (byURI p !! uri) as [set|]; [|done].
    pose proof (forget_owned_typed (elements set) (p, 0) Hp) as Hf. destruct (foldl forget_owned (p, 0) (elements set)) as [q n].
    simpl in *. apply (plane_typed_sub q); try done. simpl. intros u x [_ ?]%lookup_delete_Some. eauto.
  - intros [Hb Hv]. unfold handle_packet. destruct (classify buf) as [| |id nonce|id payload] eqn:Hc; try done; simpl.
    + destruct (classify_typed buf id nonce Hb Hc). by apply register_typed.
    + unfold bump_sender. destruct (src2id p !! src) as [k|]; [|done]. destruct (byAlloc p !! k) as [e|] eqn:He; [|done].
      pose proof (pt_alloc p Hp k e He). destruct Hp as [Hn Ha Hi Hs Hpd Hqu]. split; try done. simpl.
      intros i x. insert_cases i k; [by intros [= <-]|apply Ha].
  - intros _. unfold gcOnce. pose proof (gc_allocs_typed (now - idleTTL p) (map_to_list (byAlloc p)) p Hp) as Hg.
    apply (plane_typed_sub _ _ Hg); try done; simpl; [by eauto|apply map_filter_subseteq..].
Qed.

(** ** Issued ids *)

Lemma bind_src_dom id e src now p :
  byAlloc p !! id = Some e -> dom (byAlloc (bind_src id e src now p)) = dom (byAlloc p).
Proof. intros He. rewrite bind_src_byAlloc, dom_insert_L. apply elem_of_dom_2 in He. set_solver. Qed.

Lemma forget_owned_dom l st : dom (byAlloc (foldl forget_owned st l).1) ⊆ dom (byAlloc st.1).
Proof.
  revert st. induction l as [|id l IH]; intros [p n]; simpl; [done|]. etrans; [apply IH|]. unfold forget_owned.
  destruct (byAlloc p !! id); simpl; [|done]. rewrite dom_delete_L. set_solver.
Qed.

Lemma gc_allocs_dom cutoff l p : dom (byAlloc (gc_allocs cutoff l p)) ⊆ dom (byAlloc p).
Proof.
  unfold gc_allocs. revert p. induction l as [|[id e] l IH]; intros p; simpl; [done|]. etrans; [apply IH|].
  case_match; simpl; [|done]. rewrite dom_delete_L. set_solver.
Qed.

(** An id comes into the table only by [Allocate]. *)
Lemma plane_exec_dom p op : is_allocate op = false -> dom (byAlloc (plane_exec p op)) ⊆ dom (byAlloc p).
Proof.
  destruct op as [uri now|id uri nonce now|id|uri|buf src now now2|now]; intros Ha; try done; cbn [plane_exec].
  - unfold ArmPending. destruct (String.eqb uri ""); [done|]. destruct (byAlloc p !! id) as [e|] eqn:He; [|done].
    destruct (negb _); [done|]. destruct (queued p !! id); simpl; [|done].
    destruct (_ && _); simpl; [|done]. by rewrite bind_src_dom.
  - unfold Forget. destruct (byAlloc p !! id); simpl; [|done]. rewrite dom_delete_L. set_solver.
  - unfold ForgetAgent. destruct (String.eqb uri ""); [done|]. destruct (byURI p !! uri) as [set|]; [|done].
    pose proof (forget_owned_dom (elements set) (p, 0)). by destruct (foldl forget_owned (p, 0) (elements set)).
  - unfold handle_packet. destruct (classify buf) as [| |id nonce|id payload]; try done; simpl.
    + unfold register. repeat case_match; simpl; try done. by rewrite bind_src_dom.
    + unfold bump_sender. destruct (src2id p !! src) as [k|]; [|done]. destruct (byAlloc p !! k) as [e|] eqn:He; [|done].
      simpl. rewrite dom_insert_L. apply elem_of_dom_2 in He. set_solver.
  - apply gc_allocs_dom.
Qed.

(** ** Properties *)

(** C25: every field of the plane keeps its type.  In any run, of any length and even
    after the id counter has wrapped around, the counter and every id in the five
    tables are 32-bit numbers, no issued or armed id is the reserved 0, stored nonces
    have the punch length whatever the packets contain, and the reverse index and the
    queue hold real addresses only. *)
Theorem plane_types ops : Forall plane_op_typed ops -> plane_typed (plane_run ops).
Proof.
  induction ops as [|op ops IH] using rev_ind; intros Hok.
  - split; simpl; [by split|..]; intros *; by rewrite lookup_empty.
  - apply Forall_app in Hok as [Hops Hop]. apply Forall_inv in Hop. rewrite plane_run_snoc.
    apply plane_exec_typed; [by apply IH|done].
Qed.

Lemma plane_types_witness : plane_typed (plane_run
  [PAllocate "outrelay://acme/agent/c" 1; PArm 1 "outrelay://acme/agent/c" (repeat 7 16) 2;
   PPacket (repeat 0 7 ++ [1] ++ repeat 7 16) (addr "192.0.2.1" 4000) 3 3]).
Proof. apply plane_types. repeat constructor; unfold byte_ok, is_u32; lia. Defined.
