(* ===== verification/ForwardAuth.v ===== *)
(** * ForwardAuth: who can bind an allocation to a UDP source

    The registration handshake of the forwarding plane.  The history of a run
    is the list of operations performed; the theorem says that an allocation is
    bound to a source only if, in that history, the allocation's owner armed a
    nonce over the control plane and a punch carrying that very nonce arrived
    from that very source, one within the pending TTL of the other. *)

From S2P Require Import Prelude ForwardPlane ForwardInv.

(** A registration packet for [id] with [nonce] from [a]. *)
Definition is_punch (op : plane_op) (id : Z) (nonce : bytes) (a : AddrPort) (tp tp2 : Time) : Prop :=
  exists buf, op = PPacket buf a tp tp2 /\ classify buf = PktRegister id nonce.

(** [h] holds an arm by [u] and a matching punch from [a], in either order and
    within the TTL. *)
Definition bound_by (ttl : Duration) (h : list plane_op) (id : Z) (u : string) (a : AddrPort) : Prop :=
  exists nonce h1 h2 h3 ta punch tp tp2,
    is_punch punch id nonce a tp tp2 /\
    ((h = h1 ++ PArm id u nonce ta :: h2 ++ punch :: h3 /\ tp2 <= ta + ttl) \/
     (h = h1 ++ punch :: h2 ++ PArm id u nonce ta :: h3 /\ ta < tp + ttl)).

Record auth (ttl : Duration) (h : list plane_op) (p : Plane) : Prop := {
  au_ttl : pending_ttl p = ttl;
  au_pend : forall id pe, pending p !! id = Some pe -> exists h1 h2 ta,
    h = h1 ++ PArm id (pe_uri pe) (pe_nonce pe) ta :: h2 /\ pe_expires pe = ta + ttl;
  au_queue : forall id q, queued p !! id = Some q -> exists h1 h2 punch tp tp2,
    h = h1 ++ punch :: h2 /\ is_punch punch id (qp_nonce q) (qp_src q) tp tp2 /\
    qp_expires q = tp + ttl;
  au_bound : forall id e, byAlloc p !! id = Some e ->
    ae_src e = zeroAddrPort \/ bound_by ttl h id (ae_uri e) (ae_src e)
}.

(** ** Histories only grow *)

Lemma bound_by_snoc ttl h op id u a : bound_by ttl h id u a -> bound_by ttl (h ++ [op]) id u a.
Proof.
  intros (nonce & h1 & h2 & h3 & ta & punch & tp & tp2 & Hp & [[-> ?]|[-> ?]]);
    exists nonce, h1, h2, (h3 ++ [op]), ta, punch, tp, tp2; (split; [done|]); [left|right];
    (split; [|done]); by rewrite <- ?app_assoc, <- ?app_comm_cons, <- ?app_assoc.
Qed.

(** A step that arms nothing, queues nothing and binds nothing keeps [auth]. *)
Lemma auth_weaken ttl h op p p' :
  pending_ttl p' = pending_ttl p -> pending p' ⊆ pending p -> queued p' ⊆ queued p ->
  (forall id e', byAlloc p' !! id = Some e' -> ae_src e' = zeroAddrPort \/
     exists e, byAlloc p !! id = Some e /\ ae_uri e = ae_uri e' /\ ae_src e = ae_src e') ->
  auth ttl h p -> auth ttl (h ++ [op]) p'.
Proof.
  intros Ht Hp Hq Hb [At Ap Aq Ab]. split.
  - congruence.
  - intros id pe Hpe. destruct (Ap id pe) as (h1 & h2 & ta & -> & ?); [by eapply lookup_weaken|].
    exists h1, (h2 ++ [op]), ta. by rewrite <- app_assoc.
  - intros id q Hqe. destruct (Aq id q) as (h1 & h2 & pu & tp & tp2 & -> & ? & ?);
      [by eapply lookup_weaken|].
    exists h1, (h2 ++ [op]), pu, tp, tp2. by rewrite <- app_assoc.
  - intros id e' He'. destruct (Hb _ _ He') as [?|(e & He & <- & <-)]; [by left|].
    destruct (Ab _ _ He); [by left|right]. by apply bound_by_snoc.
Qed.

(** A step that only removes rows keeps [auth]. *)
Lemma auth_shrink ttl h op p p' :
  byAlloc p' ⊆ byAlloc p -> pending p' ⊆ pending p -> queued p' ⊆ queued p ->
  pendingTTL p' = pendingTTL p -> auth ttl h p -> auth ttl (h ++ [op]) p'.
Proof.
  intros Ha Hp Hq Ht. apply auth_weaken; try done; [unfold pending_ttl; by rewrite Ht|].
  intros id e He. right. exists e. split; [by eapply lookup_weaken|done].
Qed.

(** The same as [auth_weaken], except that allocation [id] is bound to [a]. *)
Lemma auth_bind ttl h op p p' id e a now :
  byAlloc p !! id = Some e -> bound_by ttl (h ++ [op]) id (ae_uri e) a ->
  pending p' ⊆ pending p -> queued p' ⊆ queued p -> pending_ttl p' = pending_ttl p ->
  byAlloc p' = <[id := mkAlloc (ae_uri e) a now]> (byAlloc p) ->
  auth ttl h p -> auth ttl (h ++ [op]) p'.
Proof.
  intros He Hb Hp Hq Ht HA Hau.
  assert (auth ttl (h ++ [op]) (mkPlane (byAlloc p) (byURI p') (src2id p') (pending p') (queued p')
    (nextID p') (idleTTL p') (pendingTTL p'))) as [At Ap Aq Ab].
  { eapply auth_weaken; eauto. }
  split; try done. intros i x. rewrite HA, lookup_insert. case_decide as Heq; [subst i|apply Ab].
  intros [= <-]. by right.
Qed.

Lemma pending_ttl_bind id e src now p : pending_ttl (bind_src id e src now p) = pending_ttl p.
Proof.
  unfold pending_ttl. by rewrite (proj2 (proj2 (proj2 (proj2 (proj2 (bind_src_rest id e src now p)))))).
Qed.

(** ** The two halves of the handshake *)

Lemma auth_arm ttl h id uri nonce now p :
  auth ttl h p -> auth ttl (h ++ [PArm id uri nonce now]) (ArmPending id uri nonce now p).2.
Proof.
  intros Hau. assert (Hid : auth ttl (h ++ [PArm id uri nonce now]) p) by (eapply auth_weaken; eauto).
  unfold ArmPending. destruct (String.eqb uri ""); [done|].
  destruct (byAlloc p !! id) as [e|] eqn:He; [|done].
  destruct (String.eqb_spec (ae_uri e) uri) as [Hu|]; [|done]. simpl negb. cbv iota.
  assert (Harm : forall q, auth ttl (h ++ [PArm id uri nonce now]) q ->
    auth ttl (h ++ [PArm id uri nonce now])
      (with_pending (<[id := mkPending uri nonce (now + pending_ttl p)]> (pending q)) q)).
  { intros q [At Ap Aq Ab]. split; simpl; try done.
    intros i pe. rewrite lookup_insert. case_decide as Heq; [subst i|apply Ap].
    intros [= <-]. exists h, [], now. by rewrite (au_ttl _ _ _ Hau). }
  destruct (queued p !! id) as [q|] eqn:Hq; [|by apply Harm].
  assert (Hdq : auth ttl (h ++ [PArm id uri nonce now]) (with_queued (delete id (queued p)) p)).
  { eapply auth_shrink; [..|exact Hau]; simpl; done || apply delete_subseteq. }
  destruct ((now <? qp_expires q) && bool_decide (qp_nonce q = nonce)) eqn:Hc; simpl;
    [|by apply (Harm (with_queued (delete id (queued p)) p))].
  bool_to_prop. destruct (au_queue _ _ _ Hau id q Hq) as (h1 & h2 & pu & tp & tp2 & Hh & Hpu & Hex).
  pose proof (bind_src_rest id e (qp_src q) now (with_queued (delete id (queued p)) p))
    as (_ & HP & HQ & _).
  eapply (auth_bind _ _ _ p); [exact He| |rewrite HP; done|rewrite HQ; apply delete_subseteq|
    exact (pending_ttl_bind id e (qp_src q) now (with_queued (delete id (queued p)) p))|
    exact (bind_src_byAlloc id e (qp_src q) now (with_queued (delete id (queued p)) p))|done].
  exists nonce, h1, h2, [], now, pu, tp, tp2. split; [congruence|]. right. split; [|lia].
  by rewrite Hh, Hu, <- app_assoc.
Qed.

Lemma auth_register ttl h buf src now now2 id nonce p :
  plane_inv p -> classify buf = PktRegister id nonce -> auth ttl h p ->
  auth ttl (h ++ [PPacket buf src now now2]) (register id src nonce now now2 p).
Proof.
  intros Hinv Hcl Hau.
  assert (Hid : auth ttl (h ++ [PPacket buf src now now2]) p) by (eapply auth_weaken; eauto).
  assert (Hdp : auth ttl (h ++ [PPacket buf src now now2]) (with_pending (delete id (pending p)) p)).
  { eapply auth_shrink; [..|exact Hau]; simpl; done || apply delete_subseteq. }
  unfold register. destruct (pending p !! id) as [pe|] eqn:Hpe.
  - destruct (pe_expires pe <? now2) eqn:Hex; [done|].
    destruct (bool_decide (pe_nonce pe = nonce)) eqn:Hn; simpl; [|done].
    destruct (byAlloc p !! id) as [e|] eqn:He; [|done]. bool_to_prop.
    destruct (co_pend p (pi_core p Hinv) id pe Hpe) as (x & Hx & Hux).
    assert (x = e) as -> by congruence. subst nonce.
    destruct (au_pend _ _ _ Hau id pe Hpe) as (h1 & h2 & ta & Hh & Hexp).
    pose proof (bind_src_rest id e src now p) as (_ & HP & HQ & _).
    eapply (auth_bind _ _ _ p); [exact Hx| |simpl; rewrite HP; apply delete_subseteq|
      simpl; rewrite HQ; done|exact (pending_ttl_bind id e src now p)|apply bind_src_byAlloc|done].
    exists (pe_nonce pe), h1, h2, [], ta, (PPacket buf src now now2), now, now2.
    split; [by exists buf|]. left. split; [|lia]. by rewrite Hh, Hux, <- app_assoc.
  - destruct Hid as [At Ap Aq Ab]. split; simpl; try done.
    intros i q. rewrite lookup_insert. case_decide as Heq; [subst i|apply Aq].
    intros [= <-]. exists h, [], (PPacket buf src now now2), now, now2. split; [done|].
    split; [by exists buf|]. simpl. by rewrite At.
Qed.

(** ** The other operations *)

Lemma forget_owned_subset l p n :
  let p' := (foldl forget_owned (p, n) l).1 in
  byAlloc p' ⊆ byAlloc p /\ pending p' ⊆ pending p /\ queued p' ⊆ queued p /\
  pendingTTL p' = pendingTTL p.
Proof.
  revert p n. induction l as [|id l IH]; intros p n; [done|]. cbn [foldl forget_owned].
  case_match; [|apply IH]. destruct (IH (mkPlane (delete id (byAlloc p)) (byURI p)
    (delete (ae_src a) (src2id p)) (delete id (pending p)) (delete id (queued p)) (nextID p)
    (idleTTL p) (pendingTTL p)) (n + 1)) as (H1 & H2 & H3 & H4).
  split_and!; [etrans; [apply H1|]|etrans; [apply H2|]|etrans; [apply H3|]|done]; apply delete_subseteq.
Qed.

Lemma gc_allocs_subset cutoff l p :
  let p' := gc_allocs cutoff l p in
  byAlloc p' ⊆ byAlloc p /\ pending p' ⊆ pending p /\ queued p' ⊆ queued p /\
  pendingTTL p' = pendingTTL p.
Proof.
  unfold gc_allocs. revert p. induction l as [|[id e] l IH]; intros p; [done|]. cbn [foldl].
  case_match; [|apply IH]. destruct (IH (evict id e p)) as (H1 & H2 & H3 & H4).
  split_and!; [etrans; [apply H1|]|etrans; [apply H2|]|etrans; [apply H3|]|done]; apply delete_subseteq.
Qed.

Lemma auth_step ttl h op p : plane_inv p -> auth ttl h p -> auth ttl (h ++ [op]) (plane_exec p op).
Proof.
  intros Hinv Hau. destruct op as [uri now|id uri nonce now|id|uri|buf src now now2|now]; cbn [plane_exec].
  - unfold Allocate. destruct (String.eqb uri ""); [by eapply auth_weaken; eauto|].
    destruct (draw_id 2 (nextID p)) as [id|]; [|by eapply auth_weaken; eauto].
    eapply auth_weaken; [..|exact Hau]; try done. simpl. intros i e'. rewrite lookup_insert.
    case_decide; [intros [= <-]; by left|eauto].
  - by apply auth_arm.
  - unfold Forget. destruct (byAlloc p !! id); eapply auth_shrink; try exact Hau; simpl;
      done || apply delete_subseteq.
  - unfold ForgetAgent. destruct (String.eqb uri ""); [by eapply auth_weaken; eauto|].
    destruct (byURI p !! uri) as [s|]; [|by eapply auth_weaken; eauto].
    pose proof (forget_owned_subset (elements s) p 0) as Hf.
    destruct (foldl forget_owned (p, 0) (elements s)) as [p' n']. simpl in *.
    destruct Hf as (? & ? & ? & ?). by eapply auth_shrink; try exact Hau.
  - unfold handle_packet. destruct (classify buf) as [| |id nonce|peer payload] eqn:Hcl; simpl.
    1,2: by eapply auth_weaken; eauto.
    + by apply auth_register.
    + unfold bump_sender. destruct (src2id p !! src) as [sid|]; [|by eapply auth_weaken; eauto].
      destruct (byAlloc p !! sid) as [e|] eqn:He; [|by eapply auth_weaken; eauto].
      eapply auth_weaken; [..|exact Hau]; try done. simpl. intros i e'. rewrite lookup_insert.
      case_decide as Heq; [subst i; intros [= <-]; right; by exists e|eauto].
  - destruct (gc_allocs_subset (now - idleTTL p) (map_to_list (byAlloc p)) p) as (H1 & H2 & H3 & H4).
    eapply auth_shrink; try exact Hau; simpl; try done;
      (etrans; [apply map_filter_subseteq|done]).
Qed.

Lemma plane_run_auth ops :
  Forall plane_op_ok ops -> allocations ops < 2 ^ 32 -> auth DefaultPendingTTL ops (plane_run ops).
Proof.
  induction ops as [|op ops IH] using rev_ind.
  { intros _ _. split; simpl; try done; intros *; by rewrite lookup_empty. }
  intros [Hops Hop]%Forall_app. rewrite allocations_snoc, plane_run_snoc. intros Hlt.
  assert (allocations ops < 2 ^ 32) by (destruct (is_allocate op); lia).
  apply auth_step; [by apply plane_run_inv|auto].
Qed.

(** ** Property *)

(** Authenticated binding.  In every reachable plane, an allocation whose
    UDP source is set was armed by its own owner over the control plane, and a
    punch carrying exactly the armed nonce for exactly that allocation arrived
    from exactly that source: either the punch came after the arm and before the
    armed entry expired, or it came first and was still queued when the arm
    arrived.  No packet content alone, whatever its source, can bind or move an
    allocation. *)
Theorem binding_authentic ops id e :
  Forall plane_op_ok ops -> allocations ops < 2 ^ 32 ->
  byAlloc (plane_run ops) !! id = Some e -> ae_src e <> zeroAddrPort ->
  bound_by DefaultPendingTTL ops id (ae_uri e) (ae_src e).
Proof.
  intros Hok Hlt He Hne. by destruct (au_bound _ _ _ (plane_run_auth ops Hok Hlt) id e He).
Qed.

Definition demo_nonce : bytes := [1; 2; 3; 4; 5; 6; 7; 8; 9; 10; 11; 12; 13; 14; 15; 16].
Definition demo_handshake : list plane_op :=
  [PAllocate "outrelay://acme/agent/c" 1;
   PPacket ([0; 0; 0; 0; 0; 0; 0; 1] ++ demo_nonce) (addr "192.0.2.1" 4000) 2 2;
   PArm 1 "outrelay://acme/agent/c" demo_nonce 3].

Lemma binding_authentic_witness :
  bound_by DefaultPendingTTL demo_handshake 1 "outrelay://acme/agent/c" (addr "192.0.2.1" 4000).
Proof.
  apply (binding_authentic demo_handshake 1
    (mkAlloc "outrelay://acme/agent/c" (addr "192.0.2.1" 4000) 3)).
  - repeat constructor.
  - reflexivity.
  - vm_compute. reflexivity.
  - discriminate.
Defined.
