(* ===== verification/ForwardProps.v ===== *)
(** * ForwardProps: behaviour of the forwarding plane's operations

    The wire format, the data path, the collector and the release operations,
    and two situations in which the plane does not behave as it means to: two
    allocations behind one UDP source, and a wrapped id counter. *)

From S2P Require Import Prelude ForwardPlane ForwardInv ForwardTypes.

(** ** The wire format as the package comment documents it *)

(** [binary.BigEndian.PutUint32]. *)
Definition put32 (z : Z) : bytes := [z / 2 ^ 24 mod 256; z / 2 ^ 16 mod 256; z / 2 ^ 8 mod 256; z mod 256].

(** What an agent sends: a data packet for [peer], and a registration punch. *)
Definition data_packet (peer : Z) (payload : bytes) : bytes := put32 peer ++ payload.
Definition punch_packet (myAlloc : Z) (nonce : bytes) : bytes := put32 0 ++ put32 myAlloc ++ nonce.

(** The collector's loop is one step per entry. *)
Definition gc_step (cutoff : Time) (p : Plane) (x : Z * allocEntry) : Plane :=
  if ae_lastSeen x.2 <? cutoff then evict x.1 x.2 p else p.

(** What becomes of an owner's set when [id] leaves it. *)
Definition shrink (id : Z) (o : option (gset Z)) : option (gset Z) :=
  s ← o; if decide (s ∖ {[id]} = ∅) then None else Some (s ∖ {[id]}).

(** The run that makes the id counter reach [n] with allocation 1 still live. *)
Fixpoint burn_ids (n : nat) : list plane_op :=
  match n with
  | O => [PAllocate "outrelay://acme/agent/old" 0]
  | S n' => burn_ids n' ++ [PAllocate "outrelay://acme/agent/busy" 0; PForget (Z.of_nat n' + 2)]
  end.

(** Where that run leads. *)
Definition burnt (n : Z) : Plane :=
  mkPlane {[1 := mkAlloc "outrelay://acme/agent/old" zeroAddrPort 0]}
    {["outrelay://acme/agent/old" := {[1]}]} ∅ ∅ ∅ n DefaultAllocIdleTTL DefaultPendingTTL.

(** ** Big-endian integers *)

#[local] Arguments be32 : simpl never.

Lemma lor_shiftl_add a b n : 0 <= n -> 0 <= b < 2 ^ n -> Z.lor (Z.shiftl a n) b = a * 2 ^ n + b.
Proof.
  intros Hn Hb. rewrite <- Z.shiftl_mul_pow2 by done.
  assert (Z.land (Z.shiftl a n) b = 0) as Hz.
  { apply Z.bits_inj'. intros i Hi. rewrite Z.land_spec, Z.bits_0.
    destruct (Z.lt_ge_cases i n); [by rewrite Z.shiftl_spec_low|].
    destruct (decide (b = 0)) as [->|]; [by rewrite Z.bits_0, andb_false_r|].
    rewrite (Z.bits_above_log2 b i), andb_false_r; [done|lia|].
    apply Z.log2_lt_pow2; [lia|]. eapply Z.lt_le_trans; [apply Hb|]. by apply Z.pow_le_mono_r; lia. }
  pose proof (Z.add_lor_land (Z.shiftl a n) b). lia.
Qed.

Lemma be32_value b0 b1 b2 b3 tl :
  byte_ok b0 -> byte_ok b1 -> byte_ok b2 -> byte_ok b3 ->
  be32 (b0 :: b1 :: b2 :: b3 :: tl) = b0 * 2 ^ 24 + b1 * 2 ^ 16 + b2 * 2 ^ 8 + b3.
Proof.
  unfold byte_ok, be32. intros H0 H1 H2 H3.
  rewrite (lor_shiftl_add b2 b3 8) by lia.
  replace (Z.shiftl b0 24) with (Z.shiftl (Z.shiftl b0 8) 16) by (rewrite Z.shiftl_shiftl by lia; done).
  rewrite <- Z.shiftl_lor, lor_shiftl_add by lia.
  rewrite (lor_shiftl_add b0 b1 8) by lia. lia.
Qed.

Lemma put32_ok z : Forall byte_ok (put32 z).
Proof. unfold put32, byte_ok. repeat constructor; apply Z.mod_pos_bound; lia. Qed.

Lemma be32_put32 z tl : 0 <= z < 2 ^ 32 -> be32 (put32 z ++ tl) = z.
Proof.
  intros Hz. pose proof (put32_ok z) as Hok. unfold put32 in *. cbn [app].
  rewrite !Forall_cons in Hok. destruct Hok as (? & ? & ? & ? & _).
  rewrite be32_value by done.
  rewrite (Z.mod_small (z / 2 ^ 24)) by (split; [apply Z.div_pos; lia|apply Z.div_lt_upper_bound; lia]).
  replace (z / 2 ^ 24) with (z / 2 ^ 8 / 2 ^ 8 / 2 ^ 8) by (rewrite !Z.div_div by lia; done).
  replace (z / 2 ^ 16) with (z / 2 ^ 8 / 2 ^ 8) by (rewrite !Z.div_div by lia; done).
  change 256 with (2 ^ 8).
  pose proof (Z.div_mod z (2 ^ 8)). pose proof (Z.div_mod (z / 2 ^ 8) (2 ^ 8)).
  pose proof (Z.div_mod (z / 2 ^ 8 / 2 ^ 8) (2 ^ 8)). lia.
Qed.

Lemma put32_be32 b0 b1 b2 b3 :
  Forall byte_ok [b0; b1; b2; b3] -> put32 (be32 [b0; b1; b2; b3]) = [b0; b1; b2; b3].
Proof.
  rewrite !Forall_cons. intros (H0 & H1 & H2 & H3 & _). rewrite be32_value by done.
  unfold put32, byte_ok in *. change 256 with (2 ^ 8).
  assert (Hd : forall q r n, 0 <= n -> 0 <= r < 2 ^ n -> (q * 2 ^ n + r) / 2 ^ n = q).
  { intros. rewrite Z.div_add_l by lia. rewrite Z.div_small by lia. lia. }
  assert (Hm : forall q r, 0 <= r < 2 ^ 8 -> (q * 2 ^ 8 + r) mod 2 ^ 8 = r).
  { intros. rewrite Z.add_comm, Z.mod_add by lia. by apply Z.mod_small. }
  replace (b0 * 2 ^ 24 + b1 * 2 ^ 16 + b2 * 2 ^ 8 + b3)
    with (((b0 * 2 ^ 8 + b1) * 2 ^ 8 + b2) * 2 ^ 8 + b3) by lia.
  rewrite Hm by lia.
  replace (2 ^ 24) with (2 ^ 8 * 2 ^ 8 * 2 ^ 8) by done. replace (2 ^ 16) with (2 ^ 8 * 2 ^ 8) by done.
  rewrite <- !Z.div_div by lia. rewrite !Hd, !Hm by lia. rewrite (Z.mod_small b0) by lia. done.
Qed.

Lemma classify_data peer payload :
  0 < peer < 2 ^ 32 -> classify (data_packet peer payload) = PktData peer payload.
Proof.
  intros Hp. unfold classify, data_packet. rewrite length_app.
  destruct (Nat.ltb_spec (length (put32 peer) + length payload) 4); [simpl in *; lia|].
  rewrite take_app_length' by done. rewrite <- (app_nil_r (put32 peer)), be32_put32 by lia.
  destruct (Z.eqb_spec peer 0); [lia|]. by rewrite app_nil_r, drop_app_length'.
Qed.

Lemma classify_punch id nonce :
  0 <= id < 2 ^ 32 -> length nonce = PunchNonceSize -> classify (punch_packet id nonce) = PktRegister id nonce.
Proof.
  intros Hid Hn. unfold classify, punch_packet. rewrite !length_app, Hn.
  destruct (Nat.ltb_spec (length (put32 0) + (length (put32 id) + PunchNonceSize)) 4);
    [unfold PunchNonceSize in *; simpl in *; lia|].
  rewrite take_app_length' by done. change (be32 (put32 0) =? 0) with true. cbv iota.
  destruct (Nat.ltb_spec (length (put32 0) + (length (put32 id) + PunchNonceSize)) (8 + PunchNonceSize));
    [simpl in *; lia|].
  rewrite drop_app_length', take_app_length' by done.
  rewrite <- (app_nil_r (put32 id)) at 1. rewrite be32_put32 by done.
  rewrite app_assoc, drop_app_length' by done. rewrite take_ge by lia. done.
Qed.

(** ** The collector *)

Lemma drop_owned_lookup uri id m u :
  drop_owned uri id m !! u = if decide (u = uri) then shrink id (m !! u) else m !! u.
Proof.
  unfold drop_owned, shrink. case_decide as Hu; [subst u|].
  - destruct (m !! uri) as [s|] eqn:Hs; simpl; [|done].
    case_decide; [apply lookup_delete_eq|apply lookup_insert_eq].
  - destruct (m !! uri); [|done]. case_decide; [by rewrite lookup_delete_ne|by rewrite lookup_insert_ne].
Qed.

Lemma shrink_comm i1 i2 o : shrink i1 (shrink i2 o) = shrink i2 (shrink i1 o).
Proof.
  destruct o as [s|]; simpl; [|done].
  repeat (case_decide; simpl); try done; try (f_equal; set_solver); exfalso; set_solver.
Qed.

Lemma drop_owned_comm u1 i1 u2 i2 m :
  drop_owned u1 i1 (drop_owned u2 i2 m) = drop_owned u2 i2 (drop_owned u1 i1 m).
Proof.
  apply map_eq. intros u. rewrite !drop_owned_lookup. repeat case_decide; auto using shrink_comm.
Qed.

Lemma evict_comm i1 e1 i2 e2 p : evict i1 e1 (evict i2 e2 p) = evict i2 e2 (evict i1 e1 p).
Proof.
  unfold evict. simpl. f_equal; first [apply drop_owned_comm | apply delete_delete].
Qed.

Lemma gc_allocs_steps cutoff l p : gc_allocs cutoff l p = foldl (gc_step cutoff) p l.
Proof.
  unfold gc_allocs. revert p. induction l as [|[id e] l IH]; intros p; [done|]. cbn [foldl]. apply IH.
Qed.

Lemma gc_allocs_perm cutoff l1 l2 p : l1 ≡ₚ l2 -> gc_allocs cutoff l1 p = gc_allocs cutoff l2 p.
Proof.
  rewrite !gc_allocs_steps. intros Hp. revert p. induction Hp as [|x l1 l2 _ IH|x y l|l1 l2 l3 _ IH1 _ IH2];
    intros p; simpl; try done.
  - f_equal. unfold gc_step. repeat case_match; auto using evict_comm.
  - by rewrite IH1.
Qed.

(** What the first loop leaves in the table. *)
Lemma gc_allocs_lookup cutoff l p i :
  byAlloc (gc_allocs cutoff l p) !! i =
    if existsb (fun x => (x.1 =? i) && (ae_lastSeen x.2 <? cutoff)) l then None else byAlloc p !! i.
Proof.
  rewrite gc_allocs_steps. revert p. induction l as [|[id e] l IH]; intros p; [done|].
  simpl. rewrite IH. unfold gc_step. simpl. destruct (existsb _ l); [by rewrite orb_true_r|].
  rewrite orb_false_r. destruct (ae_lastSeen e <? cutoff); simpl; [|by rewrite andb_false_r].
  rewrite lookup_delete, andb_true_r. by destruct (Z.eqb_spec id i); case_decide.
Qed.

Lemma gcOnce_lookup now p i :
  byAlloc (gcOnce now p) !! i =
    match byAlloc p !! i with
    | Some e => if ae_lastSeen e <? now - idleTTL p then None else Some e
    | None => None
    end.
Proof.
  unfold gcOnce. simpl. rewrite gc_allocs_lookup.
  destruct (existsb _ _) eqn:Hx.
  - apply existsb_exists in Hx as ([id e] & He & Hc). bool_to_prop. simpl in *. subst id.
    apply list_elem_of_In, elem_of_map_to_list in He. rewrite He.
    by destruct (Z.ltb_spec (ae_lastSeen e) (now - idleTTL p)); [|lia].
  - destruct (byAlloc p !! i) as [e|] eqn:He; [|done].
    destruct (ae_lastSeen e <? now - idleTTL p) eqn:Hlt; [|done].
    apply not_true_iff_false in Hx. destruct Hx. apply existsb_exists. exists (i, e).
    split; [by apply list_elem_of_In, elem_of_map_to_list|]. simpl. by rewrite Z.eqb_refl, Hlt.
Qed.

(** ** Wrapping the counter *)

(** One allocation and its release only move the counter. *)
Lemma burn_one n : 1 <= n < 2 ^ 32 - 1 ->
  Forget (n + 1) (plane_exec (burnt n) (PAllocate "outrelay://acme/agent/busy" 0)) = burnt (n + 1).
Proof.
  intros Hn. cbn [plane_exec]. unfold Allocate. cbn [String.eqb]. cbv iota.
  rewrite draw_id_spec by (simpl; lia). simpl nextID.
  destruct (Z.eqb_spec n (2 ^ 32 - 1)); [lia|].
  unfold Forget. cbn [byAlloc]. rewrite lookup_insert_eq. unfold evict, burnt. simpl.
  f_equal; try (by rewrite delete_empty).
  - rewrite delete_insert_id; [done|]. apply lookup_singleton_ne. lia.
  - unfold drop_owned. rewrite lookup_singleton_ne by done. simpl. rewrite lookup_insert_eq.
    rewrite decide_True by set_solver. rewrite delete_insert_id; [done|]. by apply lookup_singleton_ne.
Qed.

Lemma burn_ids_run n : Z.of_nat n + 1 < 2 ^ 32 -> plane_run (burn_ids n) = burnt (Z.of_nat n + 1).
Proof.
  induction n as [|n IH]; intros Hn; [done|].
  cbn [burn_ids]. unfold plane_run. rewrite foldl_app. fold (plane_run (burn_ids n)).
  rewrite IH by lia. cbn [foldl]. change (plane_exec ?p (PForget ?i)) with (Forget i p).
  replace (Z.of_nat n + 2) with (Z.of_nat n + 1 + 1) by lia. rewrite burn_one by lia.
  f_equal. lia.
Qed.

(** ** Properties *)

(** The wire format is decoded exactly.  A data packet and a registration
    punch built as the package comment documents them (with the nonce) are
    recognised with the id, nonce and payload they were built from; and every
    buffer of bytes the plane classifies as data or registration is such a
    packet, the ids being 32-bit, a data id never 0, and the payload being the
    buffer less its four prefix bytes. *)
Theorem wire_format :
  (forall peer payload, 0 < peer < 2 ^ 32 ->
     classify (data_packet peer payload) = PktData peer payload) /\
  (forall id nonce, 0 <= id < 2 ^ 32 -> length nonce = PunchNonceSize ->
     classify (punch_packet id nonce) = PktRegister id nonce) /\
  (forall buf, Forall byte_ok buf ->
     match classify buf with
     | PktShort => (length buf < 4)%nat
     | PktBadRegistration => (4 <= length buf < 8 + PunchNonceSize)%nat /\ be32 (take 4 buf) = 0
     | PktData peer payload => buf = data_packet peer payload /\ 0 < peer < 2 ^ 32
     | PktRegister id nonce => 0 <= id < 2 ^ 32 /\ length nonce = PunchNonceSize /\
         exists extra, buf = punch_packet id nonce ++ extra
     end).
Proof.
  split; [exact classify_data|]. split; [exact classify_punch|]. intros buf Hb. unfold classify. cbv zeta.
  destruct (Nat.ltb_spec (length buf) 4); [done|].
  destruct buf as [|b0 [|b1 [|b2 [|b3 tl]]]]; try (simpl in *; lia).
  cbn [take drop]. rewrite ?take_0, ?drop_0.
  assert (Hb4 : Forall byte_ok [b0; b1; b2; b3]) by (rewrite !Forall_cons in *; naive_solver).
  assert (Hbt : Forall byte_ok tl) by (rewrite !Forall_cons in *; naive_solver).
  pose proof (be32_u32 _ Hb4) as Hr. unfold is_u32 in Hr. pose proof (put32_be32 _ _ _ _ Hb4) as Hput.
  destruct (Z.eqb_spec (be32 [b0; b1; b2; b3]) 0) as [Hz|Hz].
  - destruct (Nat.ltb_spec (length (b0 :: b1 :: b2 :: b3 :: tl)) (8 + PunchNonceSize));
      [split; [simpl in *; lia|done]|].
    unfold PunchNonceSize in *.
    destruct tl as [|c0 [|c1 [|c2 [|c3 tl]]]]; try (simpl in *; lia).
    change (take 4 (c0 :: c1 :: c2 :: c3 :: tl)) with (c0 :: c1 :: c2 :: c3 :: take 0 tl).
    change (drop 4 (c0 :: c1 :: c2 :: c3 :: tl)) with (drop 0 tl). rewrite take_0, drop_0.
    assert (Hc4 : Forall byte_ok [c0; c1; c2; c3]) by (rewrite !Forall_cons in *; naive_solver).
    split; [by apply be32_u32|]. split; [rewrite length_take; simpl length in *; lia|].
    exists (drop 16 tl). unfold punch_packet. rewrite (put32_be32 _ _ _ _ Hc4).
    rewrite <- Hz, Hput. cbn [app drop]. rewrite take_drop. done.
  - split; [|lia]. unfold data_packet. by rewrite Hput.
Qed.

(** The data path forwards the payload unchanged.  A data packet for a live
    allocation is written, less its four-byte prefix, to the source that
    allocation is bound to, and a packet for an unknown allocation is dropped;
    who may send is not checked.  Apart from the sender's own last-seen time
    nothing in the plane changes. *)
Theorem data_path buf peer payload src now now2 p :
  classify buf = PktData peer payload ->
  let '(p', out) := handle_packet buf src now now2 p in
  out = (fun a => (drop 4 buf, a)) <$> Lookup peer p /\
  (forall i, OwnerOf i p' = OwnerOf i p /\ Lookup i p' = Lookup i p) /\
  (forall i, src2id p !! src <> Some i -> byAlloc p' !! i = byAlloc p !! i) /\
  byURI p' = byURI p /\ src2id p' = src2id p /\ pending p' = pending p /\ queued p' = queued p /\
  nextID p' = nextID p.
Proof.
  intros Hc. unfold handle_packet. rewrite Hc.
  assert (payload = drop 4 buf) as ->.
  { unfold classify in Hc. repeat case_match; congruence. }
  split; [unfold Lookup; by destruct (byAlloc p !! peer)|].
  unfold bump_sender, OwnerOf, Lookup. destruct (src2id p !! src) as [sid|] eqn:Hs; [|done].
  destruct (byAlloc p !! sid) as [e|] eqn:He; [|done]. simpl. split_and!; try done.
  - intros i. rewrite lookup_insert. case_decide as Hi; [subst i; by rewrite He|done].
  - intros i Hi. rewrite lookup_insert_ne; congruence.
Qed.

Definition demo_plane : Plane := plane_run
  [PAllocate "outrelay://acme/agent/c" 1; PAllocate "outrelay://acme/agent/p" 1;
   PArm 2 "outrelay://acme/agent/p" (replicate 16 7) 2;
   PPacket (punch_packet 2 (replicate 16 7)) (addr "192.0.2.2" 5000) 3 3].

Lemma data_path_witness :
  let '(p', out) := handle_packet (data_packet 2 [42; 43]) (addr "192.0.2.9" 1) 4 4 demo_plane in
  out = (fun a => (drop 4 (data_packet 2 [42; 43]), a)) <$> Lookup 2 demo_plane /\
  (forall i, OwnerOf i p' = OwnerOf i demo_plane /\ Lookup i p' = Lookup i demo_plane) /\
  (forall i, src2id demo_plane !! addr "192.0.2.9" 1 <> Some i ->
     byAlloc p' !! i = byAlloc demo_plane !! i) /\
  byURI p' = byURI demo_plane /\ src2id p' = src2id demo_plane /\ pending p' = pending demo_plane /\
  queued p' = queued demo_plane /\ nextID p' = nextID demo_plane.
Proof. apply (data_path _ 2 [42; 43]). vm_compute. reflexivity. Defined.

(** A registration punch on every branch.  With nothing armed it is queued
    and binds nothing; with an expired arm the arm is discarded; with a nonce
    other than the one armed last the plane is left exactly as it was; and with
    the right nonce in time the allocation is bound to the packet's source under
    the owner it already had, and the nonce cannot be used again.  No other
    allocation is ever touched.  (The code's branch for an armed allocation that
    no longer exists is dead: the invariant excludes it.) *)
Theorem register_spec id src nonce now now2 p :
  plane_inv p ->
  let p' := register id src nonce now now2 p in
  (forall i, i <> id -> byAlloc p' !! i = byAlloc p !! i) /\
  match pending p !! id with
  | None => byAlloc p' = byAlloc p /\ pending p' = pending p /\
      queued p' !! id = Some (mkQueued src nonce (now + pending_ttl p))
  | Some pe =>
      if pe_expires pe <? now2 then byAlloc p' = byAlloc p /\ pending p' !! id = None
      else if decide (pe_nonce pe = nonce)
      then Lookup id p' = Some src /\ OwnerOf id p' = Some (pe_uri pe) /\ pending p' !! id = None
      else p' = p
  end.
Proof.
  intros Hinv. unfold register. destruct (pending p !! id) as [pe|] eqn:Hpe.
  - destruct (co_pend p (pi_core p Hinv) id pe Hpe) as (e & He & Hu). rewrite He.
    destruct (pe_expires pe <? now2); [split; [done|]; simpl; by rewrite lookup_delete_eq|].
    case_decide as Hn; [rewrite bool_decide_true by done|by rewrite bool_decide_false].
    cbn [negb]. cbv zeta. unfold Lookup, OwnerOf.
    change (byAlloc (with_pending ?m ?q)) with (byAlloc q). rewrite bind_src_byAlloc.
    split; [intros i Hi; by rewrite lookup_insert_ne|]. rewrite lookup_insert_eq. simpl.
    by rewrite lookup_delete_eq, Hu.
  - split; [done|]. simpl. by rewrite lookup_insert_eq.
Qed.

Lemma register_spec_witness :
  let p := plane_run [PAllocate "outrelay://acme/agent/c" 1;
    PArm 1 "outrelay://acme/agent/c" (replicate 16 7) 2] in
  let p' := register 1 (addr "192.0.2.2" 5000) (replicate 16 7) 3 3 p in
  (forall i, i <> 1 -> byAlloc p' !! i = byAlloc p !! i) /\
  match pending p !! 1 with
  | None => byAlloc p' = byAlloc p /\ pending p' = pending p /\
      queued p' !! 1 = Some (mkQueued (addr "192.0.2.2" 5000) (replicate 16 7) (3 + pending_ttl p))
  | Some pe =>
      if pe_expires pe <? 3 then byAlloc p' = byAlloc p /\ pending p' !! 1 = None
      else if decide (pe_nonce pe = replicate 16 7)
      then Lookup 1 p' = Some (addr "192.0.2.2" 5000) /\ OwnerOf 1 p' = Some (pe_uri pe) /\
        pending p' !! 1 = None
      else p' = p
  end.
Proof. apply register_spec. apply plane_run_inv; [repeat constructor|reflexivity]. Defined.

(** The collector removes exactly the allocations last seen before its
    cutoff, in whatever order Go iterates over the table, and exactly the armed
    and queued rows that have expired or whose allocation it removed are swept:
    a row that survives was there, unexpired, before. *)
Theorem gcOnce_spec now p :
  (forall l, l ≡ₚ map_to_list (byAlloc p) ->
     gc_allocs (now - idleTTL p) l p = gc_allocs (now - idleTTL p) (map_to_list (byAlloc p)) p) /\
  (forall i, byAlloc (gcOnce now p) !! i =
     match byAlloc p !! i with
     | Some e => if ae_lastSeen e <? now - idleTTL p then None else Some e
     | None => None
     end) /\
  (forall i pe, pending (gcOnce now p) !! i = Some pe -> now <= pe_expires pe) /\
  (forall i q, queued (gcOnce now p) !! i = Some q -> now <= qp_expires q).
Proof.
  split; [intros l; apply gc_allocs_perm|]. split; [apply gcOnce_lookup|].
  split; intros i x; unfold gcOnce; simpl; by intros [_ ?]%map_lookup_filter_Some.
Qed.

(** An allocation whose agent is heard is kept.  If the reverse index
    attributes source [a] to allocation [id] and a data packet from [a] arrives
    at time [t], no collector pass within the idle TTL of [t] removes [id]. *)
Theorem active_sender_survives buf peer payload a id t t2 now p :
  plane_inv p -> src2id p !! a = Some id -> classify buf = PktData peer payload ->
  now <= t + idleTTL p ->
  exists e, byAlloc (gcOnce now (handle_packet buf a t t2 p).1) !! id = Some e /\ ae_src e = a.
Proof.
  intros Hinv Ha Hc Hle. destruct (co_src p (pi_core p Hinv) a id Ha) as (_ & e & He & Hs).
  unfold handle_packet. rewrite Hc. cbn [fst]. rewrite gcOnce_lookup. unfold bump_sender. rewrite Ha, He.
  cbn [with_byAlloc byAlloc idleTTL ae_lastSeen]. rewrite lookup_insert_eq. simpl.
  destruct (Z.ltb_spec t (now - idleTTL p)); [lia|]. eauto.
Qed.

Lemma active_sender_survives_witness :
  exists e, byAlloc (gcOnce (90 * Second)
    (handle_packet (data_packet 1 [5]) (addr "192.0.2.2" 5000) (40 * Second) 0 demo_plane).1) !! 2
    = Some e /\ ae_src e = addr "192.0.2.2" 5000.
Proof.
  apply (active_sender_survives _ 1 [5]).
  - apply plane_run_inv; [repeat constructor|reflexivity].
  - vm_compute. reflexivity.
  - vm_compute. reflexivity.
  - vm_compute. discriminate.
Defined.

(** Releasing an agent releases exactly its allocations.  After
    [ForgetAgent uri] no allocation is owned by [uri], every allocation of
    another agent is intact, the number returned is how many [uri] had, and no
    armed or queued registration of the released allocations is left. *)
Theorem ForgetAgent_spec uri p :
  plane_inv p -> uri <> "" ->
  let '(n, p') := ForgetAgent uri p in
  n = Z.of_nat (size (owned (byURI p) uri)) /\
  (forall i, byAlloc p' !! i =
     if decide (i ∈ owned (byURI p) uri) then None else byAlloc p !! i) /\
  (forall i, OwnerOf i p' <> Some uri) /\
  (forall i, i ∈ owned (byURI p) uri -> pending p' !! i = None /\ queued p' !! i = None).
Proof.
  intros [Hc Ho] Hu. unfold ForgetAgent. destruct (String.eqb_spec uri ""); [done|].
  assert (Hout : forall i, OwnerOf i p = Some uri <-> i ∈ owned (byURI p) uri).
  { intros i. rewrite (ow_exact p Ho). unfold OwnerOf. rewrite fmap_Some. naive_solver. }
  destruct (byURI p !! uri) as [s|] eqn:Hs.
  - assert (owned (byURI p) uri = s) as Hown by (unfold owned; by rewrite Hs). rewrite Hown in *.
    pose proof (forget_owned_fold (elements s) p 0 (NoDup_elements s) Hc) as Hf.
    destruct (foldl forget_owned (p, 0) (elements s)) as [p' n'].
    destruct Hf as (_ & _ & -> & _ & HA & HP & HQ & _).
    { intros i Hi. destruct (owned_listed p uri s Ho Hs i Hi) as (e & ? & _). eauto. }
    assert (Hel : forall (A : Type) (x y : A) i,
      (if decide (i ∈ elements s) then x else y) = if decide (i ∈ s) then x else y).
    { intros A x y i. pose proof (elem_of_elements s i). repeat case_decide; tauto. }
    cbn [byAlloc pending queued]. split; [done|].
    split; [intros i; by rewrite HA, Hel|]. split.
    + intros i. unfold OwnerOf. cbn [byAlloc]. rewrite HA, Hel. case_decide; [done|].
      fold (OwnerOf i p). by rewrite Hout.
    + intros i Hi. rewrite HP, HQ, !Hel. by rewrite !decide_True.
  - assert (owned (byURI p) uri = ∅) as Hown by (unfold owned; by rewrite Hs). rewrite Hown in *.
    split; [done|]. split; [intros i; by rewrite decide_False by set_solver|]. split; [|set_solver].
    intros i. rewrite Hout. set_solver.
Qed.

Lemma ForgetAgent_spec_witness :
  let '(n, p') := ForgetAgent "outrelay://acme/agent/p" demo_plane in
  n = Z.of_nat (size (owned (byURI demo_plane) "outrelay://acme/agent/p")) /\
  (forall i, byAlloc p' !! i =
     if decide (i ∈ owned (byURI demo_plane) "outrelay://acme/agent/p") then None
     else byAlloc demo_plane !! i) /\
  (forall i, OwnerOf i p' <> Some "outrelay://acme/agent/p") /\
  (forall i, i ∈ owned (byURI demo_plane) "outrelay://acme/agent/p" ->
     pending p' !! i = None /\ queued p' !! i = None).
Proof.
  apply ForgetAgent_spec; [|discriminate]. apply plane_run_inv; [repeat constructor|reflexivity].
Defined.

(** C30: [Allocate] always terminates, and issues a live-unique, non-zero id.
    Whatever the counter holds, the drawing loop finishes in at most two turns
    (so the model's fuel is never exhausted) and never yields the reserved 0; an
    empty owner panics; and while fewer than 2^32 - 1 ids have been drawn the id
    belongs to no live allocation, and the new row is owned by [uri] with no
    source yet. *)
Theorem Allocate_spec uri now p :
  plane_inv p ->
  match Allocate uri now p with
  | OutOfFuel | Blocked => False
  | Panic _ => uri = ""
  | Ret (id, p') => uri <> "" /\ 0 < id < 2 ^ 32 /\ OwnerOf id p' = Some uri /\
      Lookup id p' = Some zeroAddrPort /\
      (forall i, i <> id -> byAlloc p' !! i = byAlloc p !! i) /\
      (nextID p < 2 ^ 32 - 1 -> byAlloc p !! id = None /\ plane_inv p')
  end.
Proof.
  intros Hp. pose proof (co_next p (pi_core p Hp)) as Hn. unfold Allocate.
  destruct (String.eqb_spec uri "") as [|Hu]; [done|]. rewrite draw_id_spec by done.
  split; [done|]. split; [destruct (Z.eqb_spec (nextID p) (2 ^ 32 - 1)); lia|].
  unfold OwnerOf, Lookup. cbn [byAlloc]. rewrite lookup_insert_eq. do 2 (split; [done|]).
  split; [intros i Hi; by rewrite lookup_insert_ne|]. intros Hlt.
  destruct (Allocate_fresh uri now p Hp Hu Hlt) as (p' & Ha & Hinv & Hf & _).
  unfold Allocate in Ha. destruct (String.eqb_spec uri ""); [done|]. rewrite draw_id_spec in Ha by done.
  destruct (Z.eqb_spec (nextID p) (2 ^ 32 - 1)); [lia|]. injection Ha as <-. done.
Qed.

Lemma Allocate_spec_witness :
  match Allocate "outrelay://acme/agent/x" 9 demo_plane with
  | OutOfFuel | Blocked => False
  | Panic _ => "outrelay://acme/agent/x" = ""
  | Ret (id, p') => "outrelay://acme/agent/x" <> "" /\ 0 < id < 2 ^ 32 /\
      OwnerOf id p' = Some "outrelay://acme/agent/x" /\ Lookup id p' = Some zeroAddrPort /\
      (forall i, i <> id -> byAlloc p' !! i = byAlloc demo_plane !! i) /\
      (nextID demo_plane < 2 ^ 32 - 1 -> byAlloc demo_plane !! id = None /\ plane_inv p')
  end.
Proof. apply Allocate_spec. apply plane_run_inv; [repeat constructor|reflexivity]. Defined.

(** Two allocations behind one UDP source.  The reverse index holds one id
    per source, so when two live allocations are bound to the same source and one
    of them is forgotten, the source disappears from the index: packets the agent
    keeps sending no longer refresh the other allocation, and once its last-seen
    time is older than the idle TTL the collector removes it although its agent
    was heard a moment ago. *)
Theorem shared_source_starves a id1 id2 e1 e2 buf peer payload t t2 now p :
  byAlloc p !! id1 = Some e1 -> byAlloc p !! id2 = Some e2 -> id1 <> id2 ->
  ae_src e1 = a -> ae_src e2 = a -> classify buf = PktData peer payload ->
  ae_lastSeen e2 < now - idleTTL p ->
  let heard := (handle_packet buf a t t2 (Forget id1 p)).1 in
  byAlloc heard !! id2 = Some e2 /\ byAlloc (gcOnce now heard) !! id2 = None.
Proof.
  intros H1 H2 Hne Ha1 Ha2 Hc Hold. unfold Forget. rewrite H1.
  assert (Hh : (handle_packet buf a t t2 (evict id1 e1 p)).1 = evict id1 e1 p).
  { unfold handle_packet. rewrite Hc. simpl. unfold bump_sender. cbn [src2id evict].
    by rewrite Ha1, lookup_delete_eq. }
  cbv zeta. rewrite Hh.
  assert (He : byAlloc (evict id1 e1 p) !! id2 = Some e2) by (simpl; by rewrite lookup_delete_ne).
  split; [done|]. rewrite gcOnce_lookup, He. cbn [evict idleTTL].
  by destruct (Z.ltb_spec (ae_lastSeen e2) (now - idleTTL p)); [|lia].
Qed.

(** One agent, two streams, one socket; the first stream ends. *)
Definition shared_run : list plane_op :=
  [PAllocate "outrelay://acme/agent/c" 0; PAllocate "outrelay://acme/agent/c" 0;
   PArm 1 "outrelay://acme/agent/c" (replicate 16 7) 1;
   PPacket (punch_packet 1 (replicate 16 7)) (addr "192.0.2.1" 4000) 2 2;
   PArm 2 "outrelay://acme/agent/c" (replicate 16 8) 3;
   PPacket (punch_packet 2 (replicate 16 8)) (addr "192.0.2.1" 4000) 4 4].

Lemma shared_source_starves_witness :
  let heard := (handle_packet (data_packet 9 [1]) (addr "192.0.2.1" 4000) (99 * Second) 0
    (Forget 1 (plane_run shared_run))).1 in
  byAlloc heard !! 2 = Some (mkAlloc "outrelay://acme/agent/c" (addr "192.0.2.1" 4000) 4) /\
  byAlloc (gcOnce (100 * Second) heard) !! 2 = None.
Proof.
  apply (shared_source_starves (addr "192.0.2.1" 4000) 1 2
    (mkAlloc "outrelay://acme/agent/c" (addr "192.0.2.1" 4000) 2)
    (mkAlloc "outrelay://acme/agent/c" (addr "192.0.2.1" 4000) 4) _ 9 [1]);
    try discriminate; vm_compute; reflexivity.
Defined.

(** The id counter wraps onto live allocations.  Some run leaves allocation 1
    with its first owner and the counter at its last value; the next allocation,
    for another agent, then returns id 1 again: the first owner's row is
    overwritten, the owner index credits id 1 to both agents, and the first
    owner's disconnect releases the second owner's allocation. *)
Theorem counter_wrap_steals :
  exists ops p', let p := plane_run ops in
    OwnerOf 1 p = Some "outrelay://acme/agent/old" /\
    Allocate "outrelay://acme/agent/new" 5 p = Ret (1, p') /\
    OwnerOf 1 p' = Some "outrelay://acme/agent/new" /\
    1 ∈ owned (byURI p') "outrelay://acme/agent/old" /\
    1 ∈ owned (byURI p') "outrelay://acme/agent/new" /\
    OwnerOf 1 (ForgetAgent "outrelay://acme/agent/old" p').2 = None.
Proof.
  destruct (Z_of_nat_complete (2 ^ 32 - 2) ltac:(lia)) as [n Hn].
  exists (burn_ids n). rewrite burn_ids_run by lia.
  replace (Z.of_nat n + 1) with (2 ^ 32 - 1) by lia.
  eexists. cbv zeta. split; [reflexivity|]. split; [vm_compute; reflexivity|].
  vm_compute. repeat split; auto.
Qed.

(** The collector ticks at least once a second and at most every five
    seconds.  The bounds make five seconds the longest period, not the shortest
    as the comment on [gcLoop] has it; between the bounds the period is a
    quarter of the TTL. *)
Theorem gc_interval_bounds ttl :
  Second <= gc_interval ttl <= 5 * Second /\
  (4 * Second <= ttl <= 20 * Second -> gc_interval ttl = ttl / 4).
Proof.
  unfold gc_interval. change Second with 1000000000. split; [lia|]. intros H.
  rewrite Z.quot_div_nonneg by lia. pose proof (Z.div_mod ttl 4).
  pose proof (Z.mod_pos_bound ttl 4). lia.
Qed.
