(* ===== verification/ForwardRun.v ===== *)
(** * ForwardRun: the goroutines of the forwarding plane ([pkg/forward/plane.go])

    [Plane.Run] and [Plane.gcLoop] as loops over what the socket and the ticker give
    them, between the calls of other goroutines; and one turn of the data path in
    the steps that others can come between, since it gives up the lock before it
    uses the entries it has looked up.  [ForwardPlane] treats such a turn as atomic;
    here is how far that is from the code. *)

From S2P Require Import Prelude ForwardPlane ForwardInv ForwardAuth ForwardProps.

(** ** The loops *)

(** Before each read other goroutines call the plane; a read gives a datagram, with
    the clock readings of its turn, or an error, and then the state of the context. *)
Inductive loop_input :=
  | LOther (op : plane_op)
  | LRead (buf : bytes) (src : AddrPort) (now now2 : Time)
  | LReadError (ctx_done : bool).

Inductive loop_end := ReturnedNil | ReturnedError.

(** The plane, what was written to the socket, and how the loop returned, if it has. *)
Fixpoint Run (inputs : list loop_input) (p : Plane) : Plane * list (bytes * AddrPort) * option loop_end :=
  match inputs with
  | [] => (p, [], None)
  | LOther op :: inputs' => Run inputs' (plane_exec p op)
  | LReadError ctx_done :: _ => (p, [], Some (if ctx_done then ReturnedNil else ReturnedError))
  | LRead buf src now now2 :: inputs' =>
      let '(p', out) := handle_packet buf src now now2 p in
      let '(p'', outs, e) := Run inputs' p' in
      (p'', option_list out ++ outs, e)
  end.

(** Whether [Run] starts the collector. *)
Definition starts_gc (p : Plane) : bool := 0 <? idleTTL p.

(** What wakes the collector, between the calls of others. *)
Inductive gc_wake := GOther (op : plane_op) | GTick (now : Time) | GDone.

(** The flag says whether it has returned. *)
Fixpoint gcLoop (wakes : list gc_wake) (p : Plane) : Plane * bool :=
  match wakes with
  | [] => (p, false)
  | GOther op :: wakes' => gcLoop wakes' (plane_exec p op)
  | GTick now :: wakes' => gcLoop wakes' (gcOnce now p)
  | GDone :: _ => (p, true)
  end.

(** ** The data path in steps *)

(** A pointer to an entry: its id, what the entry holds, and whether it is still in
    the table.  Entries are only written through the table, so one that was taken
    out keeps what it had. *)
Record ptr := mkPtr { pt_id : Z; pt_obj : allocEntry; pt_live : bool }.

Definition get (id : Z) (p : Plane) : option ptr := (fun e => mkPtr id e true) <$> byAlloc p !! id.

Definition follow (p : Plane) (q : ptr) : ptr :=
  if pt_live q then
    match byAlloc p !! pt_id q with
    | Some e => mkPtr (pt_id q) e true
    | None => mkPtr (pt_id q) (pt_obj q) false
    end
  else q.

(** Other goroutines run. *)
Definition meanwhile (ops : list plane_op) (st : Plane * list ptr) : Plane * list ptr :=
  foldl (fun '(p, qs) op => let p' := plane_exec p op in (p', follow p' <$> qs)) st ops.

(** [senderEntry.lastSeen.Store(now)]. *)
Definition store_lastSeen (q : ptr) (now : Time) (p : Plane) : Plane :=
  if pt_live q then
    with_byAlloc (<[pt_id q := mkAlloc (ae_uri (pt_obj q)) (ae_src (pt_obj q)) now]> (byAlloc p)) p
  else p.

(** [entry.src] is read as two words. *)
Definition read_src (q1 q2 : ptr) : AddrPort := mkAddrPort (ap_addr (ae_src (pt_obj q1))) (ap_port (ae_src (pt_obj q2))).

(** A data packet for [peerAlloc].  The look-ups, under the lock; then others run, and
    the sender's entry is stamped. *)
Definition data_stamp (peerAlloc : Z) (src : AddrPort) (now : Time) (ops : list plane_op) (p : Plane) : Plane * list ptr :=
  let entry := get peerAlloc p in
  let sender := senderID ← src2id p !! src; get senderID p in
  let '(p, qs) := meanwhile ops (p, option_list entry ++ option_list sender) in
  let p := match sender, last qs with Some _, Some q => store_lastSeen q now p | _, _ => p end in
  (p, follow p <$> qs).

(** Others run, the address is read, with others between the words ([ops3]), and the
    payload written to it. *)
Definition data_turn (peerAlloc : Z) (payload : bytes) (src : AddrPort) (now : Time) (ops1 ops2 ops3 : list plane_op)
    (p : Plane) : Plane * option (bytes * AddrPort) :=
  let '(p1, qs) := data_stamp peerAlloc src now ops1 p in
  let '(p2, qs) := meanwhile ops2 (p1, qs) in
  let '(p3, qs') := meanwhile ops3 (p2, qs) in
  (p3, if decide (is_Some (byAlloc p !! peerAlloc))
       then match qs, qs' with q1 :: _, q2 :: _ => Some (payload, read_src q1 q2) | _, _ => None end
       else None).

(** The planes others see while [ops] run. *)
Fixpoint states (p : Plane) (ops : list plane_op) : list Plane :=
  p :: match ops with [] => [] | op :: ops' => states (plane_exec p op) ops' end.

(** ** The loops are runs of the plane *)

Definition ops_of (i : loop_input) : list plane_op :=
  match i with
  | LOther op => [op]
  | LRead buf src now now2 => [PPacket buf src now now2]
  | LReadError _ => []
  end.

Fixpoint until_error (inputs : list loop_input) : list loop_input :=
  match inputs with
  | [] | LReadError _ :: _ => []
  | i :: inputs' => i :: until_error inputs'
  end.

Fixpoint first_error (inputs : list loop_input) : option bool :=
  match inputs with
  | [] => None
  | LReadError d :: _ => Some d
  | _ :: inputs' => first_error inputs'
  end.

Lemma Run_spec inputs p :
  (Run inputs p).1.1 = foldl plane_exec p (until_error inputs ≫= ops_of) /\
  (Run inputs p).2 = (fun d : bool => if d then ReturnedNil else ReturnedError) <$> first_error inputs.
Proof.
  revert p. induction inputs as [|[op|buf src now now2|d] inputs IH]; intros p; [done| | |done].
  - apply (IH (plane_exec p op)).
  - cbn [Run until_error first_error]. destruct (handle_packet buf src now now2 p) as [p' out] eqn:E.
    specialize (IH p'). destruct (Run inputs p') as [[p'' outs] e]. simpl in *.
    by rewrite E.
Qed.

(** What was read before does not matter to the rest, unless it was an error. *)
Lemma Run_app inputs1 inputs2 p : first_error inputs1 = None ->
  let '(p1, outs1, _) := Run inputs1 p in
  let '(p2, outs2, e) := Run inputs2 p1 in
  Run (inputs1 ++ inputs2) p = (p2, outs1 ++ outs2, e).
Proof.
  revert p. induction inputs1 as [|[op|buf src now now2|d] inputs1 IH]; intros p Hn; [| | |done].
  - simpl. by destruct (Run inputs2 p) as [[p2 outs2] e].
  - apply (IH (plane_exec p op) Hn).
  - cbn [Run app]. destruct (handle_packet buf src now now2 p) as [p' out]. specialize (IH p' Hn).
    destruct (Run inputs1 p') as [[p1 outs1] e1]. destruct (Run inputs2 p1) as [[p2 outs2] e2].
    rewrite IH. by rewrite List.app_assoc.
Qed.

Fixpoint gc_ops (wakes : list gc_wake) : list plane_op :=
  match wakes with
  | [] | GDone :: _ => []
  | GOther op :: wakes' => op :: gc_ops wakes'
  | GTick now :: wakes' => PGC now :: gc_ops wakes'
  end.

Definition is_done (w : gc_wake) : bool := match w with GDone => true | _ => false end.

Lemma gcLoop_run wakes p : gcLoop wakes p = (foldl plane_exec p (gc_ops wakes), existsb is_done wakes).
Proof. revert p. induction wakes as [|[op|now|] wakes IH]; intros p; simpl; try done; apply IH. Qed.

(** ** Pointers *)

(** A pointer that tells the truth: while its entry is in the table, what it holds is
    what the table has; and its source was the entry's at one of the states seen. *)
Definition tracks (seen : list Plane) (p : Plane) (q : ptr) : Prop :=
  (pt_live q = true -> byAlloc p !! pt_id q = Some (pt_obj q)) /\
  exists s, s ∈ seen /\ Lookup (pt_id q) s = Some (ae_src (pt_obj q)).

Lemma follow_tracks seen p p' q : tracks seen p q -> tracks (seen ++ [p']) p' (follow p' q).
Proof.
  intros [Hl (s & Hs & Hq)]. unfold follow.
  destruct (pt_live q) eqn:El; [destruct (byAlloc p' !! pt_id q) as [e|] eqn:Ee|]; (split; simpl; [done || congruence|]).
  - exists p'. split; [set_solver|]. unfold Lookup. by rewrite Ee.
  - exists s. split; [set_solver|done].
  - exists s. split; [set_solver|done].
Qed.

Lemma follow_id p q : pt_id (follow p q) = pt_id q.
Proof. unfold follow. by repeat case_match. Qed.

(** Others may run in between. *)
Lemma meanwhile_tracks ops seen p qs : Forall (tracks seen p) qs ->
  let '(p', qs') := meanwhile ops (p, qs) in
  p' = foldl plane_exec p ops /\ pt_id <$> qs' = pt_id <$> qs /\ Forall (tracks (seen ++ states p ops) p') qs'.
Proof.
  revert seen p qs. induction ops as [|op ops IH]; intros seen p qs Hqs; unfold meanwhile; cbn [foldl].
  - split_and!; try done. eapply Forall_impl; [done|]. intros q [? (s & ? & ?)]. split; [done|]. exists s. set_solver.
  - specialize (IH (seen ++ [p] ++ [plane_exec p op]) (plane_exec p op) (follow (plane_exec p op) <$> qs)).
    unfold meanwhile in IH. destruct (foldl _ _ _) as [p' qs']. destruct IH as (E1 & E2 & Hq).
    { apply Forall_fmap. eapply Forall_impl; [exact Hqs|]. intros q Hq. simpl.
      apply (follow_tracks _ _ (plane_exec p op)) in Hq as [? (s & ? & ?)]. split; [done|]. exists s. set_solver. }
    split_and!; [done| |].
    + rewrite E2, <- list_fmap_compose. apply list_fmap_ext. intros. apply follow_id.
    + eapply Forall_impl; [exact Hq|]. intros q [? (s & Hs & ?)]. split; [done|]. exists s. split; [|done].
      destruct ops; cbn [states] in *; set_solver.
Qed.

Lemma get_tracks id p q : get id p = Some q -> pt_id q = id /\ tracks [p] p q.
Proof.
  unfold get. intros (e & He & ->)%fmap_Some. split; [done|]. split; [done|]. exists p. split; [by left|].
  unfold Lookup. simpl. by rewrite He.
Qed.

(** Pointers across the stamp. *)
Lemma data_stamp_tracks peer src now ops p :
  let '(p1, qs) := data_stamp peer src now ops p in
  (forall e, byAlloc p !! peer = Some e -> exists q qs', qs = q :: qs' /\ pt_id q = peer) /\
  Forall (tracks (states p ops ++ [p1]) p1) qs.
Proof.
  unfold data_stamp. set (entry := get peer p). set (sender := _ ≫= _).
  assert (H0 : Forall (tracks [p] p) (option_list entry ++ option_list sender)).
  { apply Forall_app. split.
    - destruct entry as [q|] eqn:Eq; simpl; [apply Forall_singleton|constructor]. by destruct (get_tracks _ _ _ Eq).
    - destruct sender as [q|] eqn:Eq; simpl; [apply Forall_singleton|constructor]. subst sender.
      apply bind_Some in Eq as (i & _ & Hq). by destruct (get_tracks _ _ _ Hq). }
  pose proof (meanwhile_tracks ops [p] p _ H0) as Hm. destruct (meanwhile _ _) as [p1 qs]. destruct Hm as (_ & Hid & Hqs).
  split.
  - intros e He. unfold entry, get in Hid. rewrite He in Hid. simpl in Hid. destruct qs as [|q qs]; [done|].
    injection Hid as Hq _. simpl. eexists _, _. split; [done|]. by rewrite follow_id.
  - apply Forall_fmap. eapply Forall_impl; [exact Hqs|]. intros q Hq. simpl.
    apply (follow_tracks _ _ (match sender, last qs with Some _, Some q => store_lastSeen q now p1 | _, _ => p1 end)) in Hq
      as [? (s & Hs & ?)].
    split; [done|]. exists s. split; [|done]. destruct ops; cbn [states] in *; set_solver.
Qed.

Lemma read_src_same q : read_src q q = ae_src (pt_obj q).
Proof. unfold read_src. by destruct (ae_src (pt_obj q)). Qed.

Lemma data_turn_out peer payload src now ops1 ops2 p e : byAlloc p !! peer = Some e ->
  exists a s, (data_turn peer payload src now ops1 ops2 [] p).2 = Some (payload, a) /\
    s ∈ states p ops1 ++ states (data_stamp peer src now ops1 p).1 ops2 /\ Lookup peer s = Some a.
Proof.
  intros He. unfold data_turn.
  pose proof (data_stamp_tracks peer src now ops1 p) as Hd. destruct (data_stamp peer src now ops1 p) as [p1 qs].
  destruct Hd as [Hd Hqs]. destruct (Hd e He) as (q & qs' & -> & Hid).
  pose proof (meanwhile_tracks ops2 _ p1 _ Hqs) as Hm. destruct (meanwhile ops2 (p1, q :: qs')) as [p2 qs2].
  destruct Hm as (_ & Eid & Hq2). destruct qs2 as [|q2 qs2]; [done|]. injection Eid as Eq _. cbn [meanwhile foldl].
  rewrite decide_True by (by rewrite He).
  apply Forall_cons_1 in Hq2 as [[_ (s & Hs & Hl)] _]. rewrite Eq, Hid in Hl. simpl.
  exists (ae_src (pt_obj q2)), s. rewrite read_src_same. split_and!; try done. destruct ops2; cbn [states] in *; set_solver.
Qed.

Lemma stamp_now peer src now p : (data_stamp peer src now [] p).1 = bump_sender src now p.
Proof.
  unfold data_stamp, bump_sender, get. cbn [meanwhile foldl].
  destruct (src2id p !! src) as [i|]; simpl; [|by destruct (byAlloc p !! peer)].
  destruct (byAlloc p !! i) as [e|] eqn:Ei; simpl; [|by destruct (byAlloc p !! peer)].
  by destruct (byAlloc p !! peer).
Qed.

Lemma bump_lookup src now p i : Lookup i (bump_sender src now p) = Lookup i p.
Proof.
  unfold bump_sender. destruct (src2id p !! src) as [k|]; [|done]. destruct (byAlloc p !! k) as [e|] eqn:Ek; [|done].
  unfold Lookup. simpl. destruct (decide (i = k)) as [->|]; [by rewrite lookup_insert_eq, Ek|by rewrite lookup_insert_ne].
Qed.


(** Allocation 1 is bound, and a punch from elsewhere waits for its owner. *)
Definition race_nonce : bytes := replicate 16 7.
Definition race_plane : Plane := plane_run
  [PAllocate "c" 0; PArm 1 "c" race_nonce 1;
   PPacket (punch_packet 1 race_nonce) (addr "192.0.2.1" 4000) 2 2;
   PPacket (punch_packet 1 race_nonce) (addr "203.0.113.9" 5000) 3 3].



(** ** What keeps an allocation alive *)

(** The call or packet shows that the agent behind allocation [x] is there, and left
    [e] in its entry: it was issued, its owner's registration met a queued punch, a
    punch for it arrived, or a data packet from the source it is bound to. *)
Definition sign_of_life (p : Plane) (op : plane_op) (x : Z) (e : allocEntry) : Prop :=
  match op with
  | PAllocate uri now => ae_uri e = uri /\ ae_src e = zeroAddrPort /\ ae_lastSeen e = now
  | PArm id uri nonce now => id = x /\ ae_uri e = uri /\ ae_lastSeen e = now /\
      exists q, queued p !! x = Some q /\ qp_nonce q = nonce /\ ae_src e = qp_src q
  | PPacket buf src now _ => ae_lastSeen e = now /\ ae_src e = src /\
      match classify buf with
      | PktRegister myAlloc nonce => myAlloc = x /\ exists pe, pending p !! x = Some pe /\ pe_nonce pe = nonce
      | PktData _ _ => src2id p !! src = Some x
      | _ => False
      end
  | _ => False
  end.

(** Nothing else writes an entry. *)
Lemma plane_exec_entry p op x e : plane_inv p -> byAlloc (plane_exec p op) !! x = Some e ->
  byAlloc p !! x = Some e \/ sign_of_life p op x e.
Proof.
  intros Hinv. destruct op as [uri now|id uri nonce now|id|uri|buf src now now2|now]; cbn [plane_exec sign_of_life].
  - unfold Allocate. destruct (String.eqb uri ""); [by left|]. destruct (draw_id 2 (nextID p)); [|by left]. simpl.
    intros [[_ <-]|[_ ?]]%lookup_insert_Some; [by right|by left].
  - unfold ArmPending. destruct (String.eqb uri ""); [by left|]. destruct (byAlloc p !! id) as [a|] eqn:Ea; [|by left].
    destruct (String.eqb_spec (ae_uri a) uri) as [Eu|]; [|by left]. cbn [negb].
    destruct (queued p !! id) as [q|] eqn:Eq; [|by left].
    destruct ((now <? qp_expires q) && bool_decide (qp_nonce q = nonce)) eqn:Ec; [|by left]. bool_to_prop. simpl.
    rewrite bind_src_byAlloc. intros [[<- <-]|[_ ?]]%lookup_insert_Some; [|by left]. right. split_and!; try done. by exists q.
  - unfold Forget. destruct (byAlloc p !! id); [|by left]. simpl. intros [_ ?]%lookup_delete_Some. by left.
  - unfold ForgetAgent. destruct (String.eqb uri ""); [by left|]. destruct (byURI p !! uri) as [s|]; [|by left].
    pose proof (forget_owned_subset (elements s) p 0) as [Hf _].
    destruct (foldl forget_owned (p, 0) (elements s)) as [p' n']. simpl in *. intros He. left. by eapply lookup_weaken.
  - unfold handle_packet. destruct (classify buf) as [| |my nonce|peer payload]; simpl; [by left..| |].
    + unfold register. destruct (pending p !! my) as [pe|] eqn:Ep; [|by left].
      destruct (pe_expires pe <? now2); [by left|]. destruct (bool_decide (pe_nonce pe = nonce)) eqn:En; [|by left]. simpl.
      destruct (byAlloc p !! my) as [a|] eqn:Ea; [|by left]. simpl. bool_to_prop.
      rewrite bind_src_byAlloc. intros [[<- <-]|[_ ?]]%lookup_insert_Some; [|by left]. right. split_and!; try done. by exists pe.
    + unfold bump_sender. destruct (src2id p !! src) as [k|] eqn:Ek; [|by left].
      destruct (byAlloc p !! k) as [a|] eqn:Ea; [|by left]. simpl.
      intros [[<- <-]|[_ ?]]%lookup_insert_Some; [|by left]. right. simpl. split_and!; try done.
      destruct (co_src p (pi_core p Hinv) src k Ek) as (_ & e' & He' & Hs). by simplify_eq.
  - rewrite gcOnce_lookup. destruct (byAlloc p !! x) as [a|]; [|done]. destruct (_ <? _); [done|]. by left.
Qed.

Lemma plane_exec_idle p op : idleTTL (plane_exec p op) = idleTTL p.
Proof.
  assert (Hgc : forall c l p, idleTTL (gc_allocs c l p) = idleTTL p).
  { intros c l. unfold gc_allocs. induction l as [|[i a] l IH]; intros q; [done|]. cbn [foldl]. rewrite IH. by case_match. }
  assert (Hfo : forall l p n, idleTTL (foldl forget_owned (p, n) l).1 = idleTTL p).
  { induction l as [|i l IH]; intros q n; [done|]. cbn [foldl forget_owned]. case_match; by rewrite IH. }
  assert (Hb : forall i a s t q, idleTTL (bind_src i a s t q) = idleTTL q).
  { intros. unfold bind_src. by repeat case_match. }
  destruct op as [uri now|id uri nonce now|id|uri|buf src now now2|now]; cbn [plane_exec].
  - unfold Allocate. destruct (String.eqb uri ""); [done|]. by destruct (draw_id 2 (nextID p)).
  - unfold ArmPending. repeat case_match; simplify_eq/=; rewrite ?Hb; done.
  - unfold Forget. by case_match.
  - unfold ForgetAgent. destruct (String.eqb uri ""); [done|]. destruct (byURI p !! uri) as [s|]; [|done].
    specialize (Hfo (elements s) p 0). by destruct (foldl forget_owned (p, 0) (elements s)).
  - unfold handle_packet. destruct (classify buf); simpl; try done.
    + unfold register. repeat case_match; simpl; rewrite ?Hb; done.
    + unfold bump_sender. by repeat case_match.
  - apply Hgc.
Qed.

Lemma plane_run_idle ops : idleTTL (plane_run ops) = DefaultAllocIdleTTL.
Proof. induction ops as [|op ops IH] using rev_ind; [done|]. by rewrite plane_run_snoc, plane_exec_idle. Qed.

(** An entry is what the last sign of life left. *)
Lemma entry_has_sign ops x e : Forall plane_op_ok ops -> allocations ops < 2 ^ 32 ->
  byAlloc (plane_run ops) !! x = Some e ->
  exists pre op post, ops = pre ++ op :: post /\ sign_of_life (plane_run pre) op x e /\
    forall l1 l2, post = l1 ++ l2 -> byAlloc (plane_run (pre ++ op :: l1)) !! x = Some e.
Proof.
  induction ops as [|op ops IH] using rev_ind; [by unfold plane_run; simpl; rewrite lookup_empty|].
  intros [Hok Hop]%Forall_app Hn He. rewrite allocations_snoc in Hn.
  assert (Hlt : allocations ops < 2 ^ 32) by (destruct (is_allocate op); lia). pose proof He as He'.
  rewrite plane_run_snoc in He. apply plane_exec_entry in He as [He|He]; [| |by apply plane_run_inv].
  - destruct (IH Hok Hlt He) as (pre & op' & post & -> & Hs & Hk). exists pre, op', (post ++ [op]).
    split; [by rewrite <- List.app_assoc|]. split; [done|]. intros l1 l2 E.
    destruct l2 as [|y l2 _] using rev_ind.
    + rewrite List.app_nil_r in E. subst l1. by rewrite <- List.app_assoc in He'.
    + rewrite List.app_assoc in E. apply app_inj_tail in E as [E <-]. by apply (Hk l1 l2).
  - exists ops, op, []. split; [done|]. split; [done|]. intros l1 l2 E. symmetry in E. apply app_eq_nil in E as [-> ->]. done.
Qed.


