(* ===== verification/ForwardSession.v ===== *)
(** * ForwardSession: one agent's side of a forwarded stream, end to end

    The plane keeps an allocation's progress spread over four maps, and any
    agent's traffic may fall between two steps of a given side.  [step] is the
    protocol as one side sees it: an automaton over the operations of the whole
    plane, whose state is the phase of that side.  [session_step] shows that the
    maps simulate it, and [forward_session] that two sides whose automata reach
    [Bound] have a working path in both directions. *)

From S2P Require Import Prelude ForwardPlane ForwardInv ForwardTypes ForwardProps.

(** ** The protocol of one side *)

(** An allocation as its agent knows it: the id and owner it was granted to, the
    nonce the agent drew, the address it punches from, when it was granted. *)
Record side := mkSide {
  sd_id : Z;
  sd_uri : string;
  sd_nonce : bytes;
  sd_src : AddrPort;
  sd_born : Time
}.

(** Allocated; its nonce announced, until the deadline; its punch arrived first
    and kept until the deadline; its address verified. *)
Inductive phase :=
  | Fresh
  | Armed (deadline : Time)
  | Punched (deadline : Time)
  | Bound.

#[export] Instance phase_eq_dec : EqDecision phase.
Proof. solve_decision. Defined.

Section automaton.
Context (ttl idle : Duration) (s : side).

Definition expire (now : Time) (ph : phase) : phase :=
  match ph with
  | Armed d | Punched d => if d <? now then Fresh else ph
  | _ => ph
  end.

(** The owner announces the nonce. *)
Definition step_arm (nonce : bytes) (now : Time) (ph : phase) : option phase :=
  if negb (bool_decide (nonce = sd_nonce s)) || (now <? sd_born s) then None
  else
    match ph with
    | Fresh | Armed _ => Some (Armed (now + ttl))
    | Punched d => if now <? d then Some Bound else Some (Armed (now + ttl))
    | Bound => None
    end.

(** A punch for the allocation arrives, from anybody. *)
Definition step_punch (nonce : bytes) (src : AddrPort) (now now2 : Time) (ph : phase) : option phase :=
  match expire now2 (match ph with Punched _ => Fresh | _ => ph end), ph with
  | Bound, _ => Some Bound
  | Fresh, Armed _ => Some Fresh
  | ph, _ =>
      if negb (bool_decide (nonce = sd_nonce s)) then Some ph
      else if negb (bool_decide (src = sd_src s)) then None
      else match ph with Armed _ => Some Bound | _ => Some (Punched (now + ttl)) end
  end.

(** [None]: the operation ends this side, or another party acts in its name. *)
Definition step (ph : phase) (op : plane_op) : option phase :=
  match op with
  | PAllocate _ _ => Some ph
  | PArm id uri nonce now =>
      if (id =? sd_id s) && String.eqb uri (sd_uri s) then step_arm nonce now ph else Some ph
  | PForget id => if id =? sd_id s then None else Some ph
  | PForgetAgent uri => if String.eqb uri (sd_uri s) then None else Some ph
  | PPacket buf src now now2 =>
      if now <? sd_born s then None
      else
        match classify buf with
        | PktRegister id nonce => if id =? sd_id s then step_punch nonce src now now2 ph else Some ph
        | _ => Some ph
        end
  | PGC now => if sd_born s <? now - idle then None else Some (expire now ph)
  end.

Definition track (ph : phase) (ops : list plane_op) : option phase :=
  foldl (fun o op => o ≫= fun ph => step ph op) (Some ph) ops.

End automaton.

(** ** The simulation relation *)

Definition phase_holds (s : side) (ph : phase) (e : allocEntry) (pe : option pendingEntry)
    (q : option queuedPunch) : Prop :=
  match ph with
  | Fresh => pe = None /\ forall x, q = Some x -> qp_nonce x <> sd_nonce s
  | Armed d => pe = Some (mkPending (sd_uri s) (sd_nonce s) d)
  | Punched d => pe = None /\ q = Some (mkQueued (sd_src s) (sd_nonce s) d)
  | Bound => pe = None /\ ae_src e = sd_src s
  end.

Definition at_phase (s : side) (ph : phase) (p : Plane) : Prop :=
  exists e, byAlloc p !! sd_id s = Some e /\ ae_uri e = sd_uri s /\ sd_born s <= ae_lastSeen e /\
    phase_holds s ph e (pending p !! sd_id s) (queued p !! sd_id s).

(** ** What an operation leaves of the row of another allocation *)

Lemma gc_allocs_row cutoff l p i :
  (forall e, (i, e) ∈ l -> cutoff <= ae_lastSeen e) ->
  pending (gc_allocs cutoff l p) !! i = pending p !! i /\
  queued (gc_allocs cutoff l p) !! i = queued p !! i.
Proof.
  rewrite gc_allocs_steps. revert p. induction l as [|[id e] l IH]; intros p Hl; [done|]. simpl.
  destruct (IH (gc_step cutoff p (id, e))) as [-> ->]; [intros; apply Hl; set_solver|].
  unfold gc_step. simpl. destruct (Z.ltb_spec (ae_lastSeen e) cutoff) as [Hlt|]; [|done].
  assert (id <> i) as Hne by (intros ->; specialize (Hl e ltac:(set_solver)); lia).
  simpl. by rewrite !lookup_delete_ne.
Qed.

Lemma ForgetAgent_row w p i e : plane_inv p -> byAlloc p !! i = Some e -> ae_uri e <> w ->
  let p' := (ForgetAgent w p).2 in
  byAlloc p' !! i = Some e /\ pending p' !! i = pending p !! i /\ queued p' !! i = queued p !! i.
Proof.
  intros [Hc Ho] He Hw. unfold ForgetAgent. destruct (String.eqb w ""); [done|].
  destruct (byURI p !! w) as [set|] eqn:Hs; [|done].
  pose proof (owned_listed p w set Ho Hs) as Hl.
  pose proof (forget_owned_fold (elements set) p 0 (NoDup_elements set) Hc) as Hf.
  destruct (foldl forget_owned (p, 0) (elements set)) as [p' n].
  destruct Hf as (_ & _ & _ & _ & HA & HP & HQ & _); [naive_solver|]. simpl.
  assert (i ∉ elements set) as Hi by (intros ?%Hl; naive_solver).
  rewrite HA, HP, HQ. by rewrite !decide_False.
Qed.

Lemma ArmPending_row k u n now p i : k <> i ->
  let p' := (ArmPending k u n now p).2 in
  byAlloc p' !! i = byAlloc p !! i /\ pending p' !! i = pending p !! i /\ queued p' !! i = queued p !! i.
Proof.
  intros Hk. unfold ArmPending, bind_src.
  repeat case_match; simplify_eq; simpl; by rewrite ?lookup_insert_ne, ?lookup_delete_ne.
Qed.

Lemma register_row k src n now now2 p i : k <> i ->
  let p' := register k src n now now2 p in
  byAlloc p' !! i = byAlloc p !! i /\ pending p' !! i = pending p !! i /\ queued p' !! i = queued p !! i.
Proof.
  intros Hk. unfold register, bind_src.
  repeat case_match; simplify_eq; simpl; by rewrite ?lookup_insert_ne, ?lookup_delete_ne.
Qed.

(** ** The simulation *)

Lemma at_phase_row s ph p p' : at_phase s ph p ->
  byAlloc p' !! sd_id s = byAlloc p !! sd_id s /\ pending p' !! sd_id s = pending p !! sd_id s /\
  queued p' !! sd_id s = queued p !! sd_id s -> at_phase s ph p'.
Proof. intros (e & He & ?) (Ha & Hp & Hq). exists e. by rewrite Ha, Hp, Hq. Qed.

Lemma arm_step s ph ph' n now p : plane_inv p -> at_phase s ph p ->
  step_arm (pending_ttl p) s n now ph = Some ph' ->
  at_phase s ph' (ArmPending (sd_id s) (sd_uri s) n now p).2.
Proof.
  intros Hinv (e & He & Hu & Hb & Hph). unfold step_arm.
  destruct (bool_decide (n = sd_nonce s)) eqn:Hn; [|done]. apply bool_decide_eq_true in Hn as ->. simpl.
  destruct (Z.ltb_spec now (sd_born s)); [done|]. intros Hst.
  destruct (co_ids p (pi_core p Hinv) _ e He) as [_ Hne]. rewrite Hu in Hne.
  unfold ArmPending. destruct (String.eqb_spec (sd_uri s) ""); [done|].
  rewrite He, Hu, String.eqb_refl. cbn [negb].
  pose proof (co_disj p (pi_core p Hinv) (sd_id s)) as Hd.
  destruct ph as [|d|d|]; simpl in Hph.
  - destruct Hph as [Hp Hq]. simplify_eq. destruct (queued p !! sd_id s) as [q|] eqn:Eq.
    + rewrite (bool_decide_eq_false_2 (qp_nonce q = sd_nonce s)) by auto. rewrite andb_false_r. simpl.
      exists e. simpl. by rewrite lookup_insert_eq.
    + exists e. simpl. by rewrite lookup_insert_eq.
  - rewrite Hd by (by rewrite Hph). simplify_eq. exists e. simpl. by rewrite lookup_insert_eq.
  - destruct Hph as [Hp ->]. simpl. rewrite bool_decide_eq_true_2, andb_true_r by done.
    destruct (now <? d); simplify_eq; simpl.
    + eexists. rewrite bind_src_byAlloc, lookup_insert_eq. split; [done|]. simpl. split; [done|].
      destruct (bind_src_rest (sd_id s) e (sd_src s) now (with_queued (delete (sd_id s) (queued p)) p))
        as (_ & -> & _). done.
    + exists e. simpl. by rewrite lookup_insert_eq.
  - done.
Qed.

Lemma punch_step s ph ph' n a now now2 p : plane_inv p -> at_phase s ph p -> sd_born s <= now ->
  step_punch (pending_ttl p) s n a now now2 ph = Some ph' ->
  at_phase s ph' (register (sd_id s) a n now now2 p).
Proof.
  intros Hinv (e & He & Hu & Hb & Hph) Hnow. unfold step_punch, register.
  pose proof (co_disj p (pi_core p Hinv) (sd_id s)) as Hd.
  destruct ph as [|d|d|]; simpl in Hph; cbn [expire].
  - destruct Hph as [Hp Hq]. rewrite Hp. intros Hst. exists e. simpl. rewrite Hp, lookup_insert_eq.
    destruct (bool_decide (n = sd_nonce s)) eqn:Hn; cbn [negb] in Hst.
    + destruct (bool_decide (a = sd_src s)) eqn:Ha; simplify_eq/=. apply bool_decide_eq_true in Hn, Ha. by subst.
    + simplify_eq. apply bool_decide_eq_false in Hn. split_and!; try done. split; [done|]. by intros ? [= <-].
  - rewrite Hph. simpl. destruct (d <? now2) eqn:Hlt.
    { intros [= <-]. exists e. simpl. rewrite lookup_delete_eq, Hd by (by rewrite Hph).
      by split_and!. }
    destruct (bool_decide (n = sd_nonce s)) eqn:Hn; cbn [negb].
    + apply bool_decide_eq_true in Hn. subst n.
      rewrite (bool_decide_eq_true_2 (sd_nonce s = sd_nonce s)) by done. rewrite He. simpl.
      destruct (bool_decide (a = sd_src s)) eqn:Ha; intros; simplify_eq/=.
      apply bool_decide_eq_true in Ha. subst a.
      eexists. simpl. rewrite bind_src_byAlloc, lookup_insert_eq, lookup_delete_eq. done.
    + intros [= <-]. apply bool_decide_eq_false in Hn. rewrite bool_decide_eq_false_2 by congruence.
      by exists e.
  - destruct Hph as [Hp Hq]. rewrite Hp. intros Hst. exists e. simpl. rewrite Hp, lookup_insert_eq.
    destruct (bool_decide (n = sd_nonce s)) eqn:Hn; cbn [negb] in Hst.
    + destruct (bool_decide (a = sd_src s)) eqn:Ha; simplify_eq/=. apply bool_decide_eq_true in Hn, Ha. by subst.
    + simplify_eq. apply bool_decide_eq_false in Hn. split_and!; try done. split; [done|]. by intros ? [= <-].
  - destruct Hph as [Hp Hs]. rewrite Hp. intros [= <-]. exists e. simpl. by rewrite Hp.
Qed.

Lemma bump_step s ph a now p : at_phase s ph p -> sd_born s <= now -> at_phase s ph (bump_sender a now p).
Proof.
  intros (e & He & Hu & Hb & Hph) Hnow. unfold bump_sender.
  destruct (src2id p !! a) as [k|]; [|by exists e]. destruct (byAlloc p !! k) as [f|] eqn:Hf; [|by exists e].
  unfold at_phase. simpl. destruct (decide (k = sd_id s)) as [->|Hne].
  - rewrite lookup_insert_eq. simplify_eq. eexists. split; [done|]. split_and!; [done|done|].
    by destruct ph.
  - rewrite lookup_insert_ne by done. by exists e.
Qed.

Lemma gc_step_phase s ph now p : plane_inv p -> at_phase s ph p -> now - idleTTL p <= sd_born s ->
  at_phase s (expire now ph) (gcOnce now p).
Proof.
  intros Hinv (e & He & Hu & Hb & Hph) Hnow. exists e. rewrite gcOnce_lookup, He.
  destruct (Z.ltb_spec (ae_lastSeen e) (now - idleTTL p)); [lia|]. split_and!; [done..|].
  destruct (gc_allocs_row (now - idleTTL p) (map_to_list (byAlloc p)) p (sd_id s)) as [HP HQ].
  { intros f Hf%elem_of_map_to_list. simplify_eq. lia. }
  pose proof (co_disj p (pi_core p Hinv) (sd_id s)) as Hd.
  unfold gcOnce. cbn [pending queued]. rewrite !map_lookup_filter, HP, HQ.
  destruct ph as [|d|d|]; simpl in Hph |- *.
  - destruct Hph as [-> Hq]. split; [done|]. intros x Hx. apply Hq.
    destruct (queued p !! sd_id s); simpl in *; [|done]. by case_guard.
  - rewrite Hd, Hph by (by rewrite Hph). simpl.
    destruct (Z.ltb_spec d now); simpl; case_guard; simpl in *; done || lia.
  - destruct Hph as [-> ->]. simpl.
    destruct (Z.ltb_spec d now); simpl; case_guard; simpl in *; done || lia.
  - by destruct Hph as [-> ?].
Qed.

(** Every operation of the plane, by anybody, is a step of the automaton. *)
Lemma session_step s ph ph' op p :
  plane_inv p -> (is_allocate op = true -> nextID p < 2 ^ 32 - 1) -> at_phase s ph p ->
  step (pending_ttl p) (idleTTL p) s ph op = Some ph' -> at_phase s ph' (plane_exec p op).
Proof.
  intros Hinv Hlt Hat. destruct op as [u now|k u n now|k|u|buf a now now2|now]; simpl; intros Hst.
  - simplify_eq. destruct (String.eqb_spec u "") as [->|Hu]; [done|].
    destruct Hat as (e & He & Hat). destruct (co_ids p (pi_core p Hinv) _ e He) as [Hid _].
    unfold Allocate. destruct (String.eqb_spec u ""); [done|].
    specialize (Hlt eq_refl). rewrite draw_id_spec by apply Hinv.
    destruct (Z.eqb_spec (nextID p) (2 ^ 32 - 1)); [lia|].
    exists e. simpl. by rewrite lookup_insert_ne by lia.
  - destruct (Z.eqb_spec k (sd_id s)) as [->|Hk]; simpl in Hst.
    + destruct (String.eqb_spec u (sd_uri s)) as [->|Hu]; [by eapply arm_step|]. simplify_eq.
      destruct Hat as (e & He & Hat). unfold ArmPending. destruct (String.eqb u ""); [by exists e|].
      rewrite He. destruct (String.eqb_spec (ae_uri e) u); [naive_solver|]. by exists e.
    + simplify_eq. eapply at_phase_row, ArmPending_row; done.
  - destruct (Z.eqb_spec k (sd_id s)); [done|]. simplify_eq. apply (at_phase_row _ _ p); [done|].
    unfold Forget. case_match; simpl; by rewrite ?lookup_delete_ne.
  - destruct (String.eqb_spec u (sd_uri s)) as [|Hu]; [done|]. simplify_eq.
    apply (at_phase_row _ _ p); [done|]. destruct Hat as (e & He & Hu' & _). rewrite He.
    apply ForgetAgent_row; congruence.
  - destruct (Z.ltb_spec now (sd_born s)); [done|]. unfold handle_packet.
    destruct (classify buf) as [| |k n|peer pl]; simpl; simplify_eq; [done|done| |by apply bump_step].
    destruct (Z.eqb_spec k (sd_id s)) as [->|Hk]; [by eapply punch_step|]. simplify_eq.
    eapply at_phase_row, register_row; done.
  - destruct (Z.ltb_spec (sd_born s) (now - idleTTL p)); [done|]. simplify_eq. by apply gc_step_phase.
Qed.

Lemma forget_owned_ttls l st :
  pendingTTL (foldl forget_owned st l).1 = pendingTTL st.1 /\ idleTTL (foldl forget_owned st l).1 = idleTTL st.1.
Proof.
  revert st. induction l as [|id l IH]; intros [p n]; [done|]. cbn [foldl].
  destruct (IH (forget_owned (p, n) id)) as [-> ->]. simpl. by case_match.
Qed.

Lemma gc_allocs_ttls cutoff l p :
  pendingTTL (gc_allocs cutoff l p) = pendingTTL p /\ idleTTL (gc_allocs cutoff l p) = idleTTL p.
Proof.
  rewrite gc_allocs_steps. revert p. induction l as [|x l IH]; intros p; [done|]. simpl.
  destruct (IH (gc_step cutoff p x)) as [-> ->]. unfold gc_step. by case_match.
Qed.

Lemma plane_exec_ttls p op :
  pending_ttl (plane_exec p op) = pending_ttl p /\ idleTTL (plane_exec p op) = idleTTL p.
Proof.
  assert (pendingTTL (plane_exec p op) = pendingTTL p /\ idleTTL (plane_exec p op) = idleTTL p) as [H ->].
  { destruct op as [u now|k u n now|k|u|buf a now now2|now]; simpl.
    - unfold Allocate. by repeat case_match; simplify_eq.
    - unfold ArmPending, bind_src. by repeat case_match; simplify_eq.
    - unfold Forget. by case_match.
    - unfold ForgetAgent. destruct (String.eqb u ""); [done|]. destruct (byURI p !! u) as [set|]; [|done].
      pose proof (forget_owned_ttls (elements set) (p, 0)).
      by destruct (foldl forget_owned (p, 0) (elements set)).
    - unfold handle_packet, register, bump_sender, bind_src. by repeat case_match; simplify_eq.
    - apply gc_allocs_ttls. }
  unfold pending_ttl. by rewrite H.
Qed.

Lemma track_cons ttl idle s ph op ops :
  track ttl idle s ph (op :: ops) = step ttl idle s ph op ≫= fun ph => track ttl idle s ph ops.
Proof.
  unfold track. simpl. destruct (step ttl idle s ph op) as [ph'|]; simpl; [done|].
  induction ops; simpl; done.
Qed.

Lemma session_run s ph ph' ops p :
  plane_inv p -> Forall plane_op_ok ops -> nextID p + allocations ops < 2 ^ 32 -> at_phase s ph p ->
  track (pending_ttl p) (idleTTL p) s ph ops = Some ph' ->
  plane_inv (foldl plane_exec p ops) /\ at_phase s ph' (foldl plane_exec p ops).
Proof.
  intros Hinv Hok. revert p ph Hinv. induction Hok as [|op ops Hop _ IH]; intros p ph Hinv Hn Hat.
  { unfold track. simpl. by intros [= <-]. }
  rewrite track_cons. intros (ph1 & Hst & Htr)%bind_Some. simpl.
  assert (allocations (op :: ops) = allocations ops + (if is_allocate op then 1 else 0)) as Ha.
  { unfold allocations. simpl. destruct (is_allocate op); simpl; lia. }
  assert (0 <= allocations ops) by (unfold allocations; lia).
  assert (is_allocate op = true -> nextID p < 2 ^ 32 - 1) as Hlt by (intros E; rewrite E in Ha; lia).
  destruct (plane_exec_ttls p op) as [Ht Hi]. apply (IH _ ph1).
  - by apply plane_exec_inv.
  - destruct (is_allocate op) eqn:E.
    + pose proof (plane_exec_next_le p op Hinv (Hlt eq_refl)) as Hle. rewrite E in Hle. lia.
    + rewrite plane_exec_next by done. lia.
  - by eapply session_step.
  - by rewrite Ht, Hi.
Qed.

(** What the plane does with a data packet for a bound side. *)
Lemma bound_delivers s payload src now now2 p : plane_inv p -> at_phase s Bound p ->
  (handle_packet (data_packet (sd_id s) payload) src now now2 p).2 = Some (payload, sd_src s).
Proof.
  intros Hinv (e & He & _ & _ & _ & Hs). destruct (co_ids p (pi_core p Hinv) _ e He) as [Hid _].
  pose proof (co_next p (pi_core p Hinv)). unfold handle_packet. rewrite classify_data by lia. simpl.
  by rewrite He, <- Hs.
Qed.

(** The two steps of an honest agent bind its side in either order. *)
Lemma track_binds ttl idle s ta tp tp2 :
  0 <= sd_id s < 2 ^ 32 -> length (sd_nonce s) = PunchNonceSize -> sd_born s <= ta -> sd_born s <= tp ->
  let arm := PArm (sd_id s) (sd_uri s) (sd_nonce s) ta in
  let punch := PPacket (punch_packet (sd_id s) (sd_nonce s)) (sd_src s) tp tp2 in
  (tp2 <= ta + ttl -> track ttl idle s Fresh [arm; punch] = Some Bound) /\
  (ta < tp + ttl -> track ttl idle s Fresh [punch; arm] = Some Bound).
Proof.
  intros Hid Hn Ha Hp arm punch.
  assert (ta <? sd_born s = false) as Ea by (apply Z.ltb_ge; lia).
  assert (tp <? sd_born s = false) as Ep by (apply Z.ltb_ge; lia).
  split; intros Hle; rewrite track_cons; cbn [step arm punch]; unfold step_arm, step_punch;
    rewrite ?Z.eqb_refl, ?String.eqb_refl, ?Ea, ?Ep, ?classify_punch, ?Z.eqb_refl by done; cbn [andb expire];
    rewrite !bool_decide_eq_true_2 by done; cbn [negb orb mbind option_bind]; rewrite track_cons;
    cbn [step arm punch]; unfold step_arm, step_punch;
    rewrite ?Z.eqb_refl, ?String.eqb_refl, ?Ea, ?Ep, ?classify_punch, ?Z.eqb_refl by done; cbn [andb expire].
  - rewrite (proj2 (Z.ltb_ge _ _) Hle). by rewrite !bool_decide_eq_true_2 by done.
  - rewrite bool_decide_eq_true_2 by done. cbn [negb orb]. by rewrite (proj2 (Z.ltb_lt _ _) Hle).
Qed.

(** ** The theorem *)

(** C11: the forwarding plane connects two agents, whatever else happens on it.
    Take a plane in a state its operations reach, two of its allocations on which
    nothing has happened yet, and any sequence of operations (grants and releases
    of others, other agents' registrations, forged punches, data, collector
    ticks).  Each side is, at the end, in the phase its automaton computes from
    that sequence.  If both automata say [Bound] (nonce announced and punch sent,
    in either order and within the TTL), a data packet addressed to either
    allocation is written, unchanged, to that agent's verified address. *)
Theorem forward_session ops x y p :
  plane_inv p -> Forall plane_op_ok ops -> nextID p + allocations ops < 2 ^ 32 ->
  at_phase x Fresh p -> at_phase y Fresh p ->
  let p' := foldl plane_exec p ops in
  let run s := track (pending_ttl p) (idleTTL p) s Fresh ops in
  (forall ph, run x = Some ph -> at_phase x ph p') /\
  (run x = Some Bound -> run y = Some Bound -> forall payload now now2,
     (handle_packet (data_packet (sd_id y) payload) (sd_src x) now now2 p').2 = Some (payload, sd_src y) /\
     (handle_packet (data_packet (sd_id x) payload) (sd_src y) now now2 p').2 = Some (payload, sd_src x)).
Proof.
  intros Hinv Hok Hn Hx Hy p' run. split; [intros ph Hr; by eapply session_run|].
  intros Rx Ry payload now now2.
  destruct (session_run x Fresh Bound ops p) as [Hinv' Bx]; try done.
  destruct (session_run y Fresh Bound ops p) as [_ By]; try done.
  split; by apply bound_delivers.
Qed.

(** The consumer punches before its nonce is announced, the provider after; a
    third agent is granted an allocation, forges a punch for the provider's, and
    the collector ticks in between. *)
Lemma forward_session_witness :
  let x := mkSide 1 "c" (repeat 7 16) (addr "192.0.2.1" 4000) 0 in
  let y := mkSide 2 "p" (repeat 9 16) (addr "192.0.2.2" 5000) 0 in
  let p := plane_run [PAllocate "c" 0; PAllocate "p" 0] in
  let ops := [PPacket (punch_packet 1 (repeat 7 16)) (addr "192.0.2.1" 4000) (1 * Second) (1 * Second);
    PAllocate "m" (1 * Second); PArm 2 "p" (repeat 9 16) (2 * Second);
    PPacket (punch_packet 2 (repeat 0 16)) (addr "203.0.113.9" 9) (2 * Second) (2 * Second);
    PGC (3 * Second); PArm 1 "c" (repeat 7 16) (3 * Second);
    PPacket (punch_packet 2 (repeat 9 16)) (addr "192.0.2.2" 5000) (4 * Second) (4 * Second)] in
  (handle_packet (data_packet 2 [5; 6]) (addr "192.0.2.1" 4000) 0 0 (foldl plane_exec p ops)).2 =
    Some ([5; 6], addr "192.0.2.2" 5000).
Proof.
  intros x y p ops.
  refine (proj1 (proj2 (forward_session ops x y p _ _ _ _ _) _ _ [5; 6] 0 0)).
  - apply plane_run_inv; [repeat constructor|vm_compute; reflexivity].
  - by repeat constructor.
  - vm_compute. reflexivity.
  - eexists. split; [vm_compute; reflexivity|]. split_and!; vm_compute; done.
  - eexists. split; [vm_compute; reflexivity|]. split_and!; vm_compute; done.
  - vm_compute. reflexivity.
  - vm_compute. reflexivity.
Defined.
