(* ===== verification/ForwardCtrl.v ===== *)
(** * ForwardCtrl: the control half of the forward plane

    [forwardMatcher] of [pkg/edge/forward_resume.go], and [handleForwardRegister],
    [handleForwardResume] and [driveForwardResume] of [pkg/edge/edge.go], on top
    of the forward plane.  The matcher is a system of goroutines, as the resume
    matcher is: one event is one goroutine's move between two blocking points. *)

From S2P Require Import Prelude ForwardPlane ForwardInv.

(** ** FORWARD_REGISTER *)

(** The frames a relay writes on an agent's control stream here. *)
Record AllocGranted := mkGranted {
  ag_StreamId : Z;
  ag_MyAllocation : Z;
  ag_PeerAllocation : Z;
  ag_ForwardEndpoint : string;
  ag_ResumeRelays : list string
}.

Inductive ctrl_frame :=
  | ForwardRegisterReject (allocID : Z) (reason : string)
  | AllocGrantedFrame (g : AllocGranted).

(** [handleForwardRegister] for an agent whose certificate says [uri]; [None] is
    a relay started without a forward plane. *)
Definition handleForwardRegister (uri : string) (allocID : Z) (PunchNonce : bytes) (now : Time)
    (forward : option Plane) : option Plane * list ctrl_frame :=
  match forward with
  | None => (None, [ForwardRegisterReject allocID "forward_plane_disabled"])
  | Some p =>
      if negb (length PunchNonce =? PunchNonceSize)%nat
      then (Some p, [ForwardRegisterReject allocID "bad_nonce"])
      else
        match ArmPending allocID uri PunchNonce now p with
        | (Some ErrUnknownAlloc, p') => (Some p', [ForwardRegisterReject allocID "unknown_alloc"])
        | (Some ErrOwnerMismatch, p') => (Some p', [ForwardRegisterReject allocID "owner_mismatch"])
        | (None, p') => (Some p', [])
        end
  end.

(** ** The FORWARD_RESUME matcher *)

Definition ForwardResumeWindow : Duration := 30 * Second.

Inductive driver_pc := FWait | FReturned.
Inductive fexpiry_pc := XNone | XWait | XExit.

Record halfForwardResume := mkFHalf {
  f_id : Z;
  f_agentURI : string;
  f_ac : nat;               (** the agent connection that submitted it *)
  f_myPos : Z;
  f_peerAckPos : Z;
  f_arrivedAt : Time;
  f_buf : option nat;       (** the one-slot buffer of [matched] *)
  f_closed : bool;          (** [matched] is closed *)
  f_timedOut : bool;
  f_peer : option nat;      (** history: the half it was paired with *)
  f_driver : bool;          (** history: it was the second arrival *)
  f_pc : driver_pc;         (** its [driveForwardResume] goroutine *)
  f_epc : fexpiry_pc        (** its expiry goroutine *)
}.

Record fstate := mkF {
  fs_now : Time;
  fs_pending : gmap Z nat;
  fs_halves : gmap nat halfForwardResume;
  fs_next : nat;
  fs_plane : Plane;
  fs_out : list (nat * ctrl_frame);   (** control frames written, by connection *)
  fs_submitted : Z;
  fs_paired : Z;
  fs_timeouts : Z
}.

Definition finit (now : Time) (p : Plane) : fstate := mkF now ∅ ∅ 0 p [] 0 0 0.

Definition f_settle (buf : option nat) (closed timedOut : bool) (peer : option nat) (driver : bool)
    (pc : driver_pc) (epc : fexpiry_pc) (h : halfForwardResume) : halfForwardResume :=
  mkFHalf (f_id h) (f_agentURI h) (f_ac h) (f_myPos h) (f_peerAckPos h) (f_arrivedAt h)
    buf closed timedOut peer driver pc epc.

(** [close(peer.matched)] by the second arrival. *)
Definition f_pair_closed (driver : nat) (h : halfForwardResume) : halfForwardResume :=
  f_settle (f_buf h) true (f_timedOut h) (Some driver) false (f_pc h) (f_epc h) h.
(** [self.matched <- peer] by the second arrival. *)
Definition f_pair_sent (peer : nat) (h : halfForwardResume) : halfForwardResume :=
  f_settle (Some peer) (f_closed h) (f_timedOut h) (Some peer) true (f_pc h) (f_epc h) h.
Definition f_return (h : halfForwardResume) : halfForwardResume :=
  f_settle None (f_closed h) (f_timedOut h) (f_peer h) (f_driver h) FReturned (f_epc h) h.
Definition f_expired (h : halfForwardResume) : halfForwardResume :=
  f_settle (f_buf h) true true (f_peer h) (f_driver h) (f_pc h) XExit h.
Definition f_exit (buf : option nat) (h : halfForwardResume) : halfForwardResume :=
  f_settle buf (f_closed h) (f_timedOut h) (f_peer h) (f_driver h) (f_pc h) XExit h.
Definition f_wait (h : halfForwardResume) : halfForwardResume :=
  f_settle (f_buf h) (f_closed h) (f_timedOut h) (f_peer h) (f_driver h) (f_pc h) XWait h.

(** [forwardMatcher.Submit]. *)
Definition FSubmit (self : halfForwardResume) (s : fstate) : exec fstate :=
  let ref := fs_next s in
  match fs_pending s !! f_id self with
  | Some pr =>
      match fs_halves s !! pr with
      | None => Panic "nil half in pending"
      | Some peer =>
          if f_closed peer then Panic "close of closed channel"
          else Ret (mkF (fs_now s) (delete (f_id self) (fs_pending s))
                 (<[ref := f_pair_sent pr self]> (<[pr := f_pair_closed ref peer]> (fs_halves s)))
                 (S ref) (fs_plane s) (fs_out s) (fs_submitted s) (fs_paired s) (fs_timeouts s))
      end
  | None =>
      Ret (mkF (fs_now s) (<[f_id self := ref]> (fs_pending s))
             (<[ref := f_wait self]> (fs_halves s))
             (S ref) (fs_plane s) (fs_out s) (fs_submitted s) (fs_paired s) (fs_timeouts s))
  end.

(** [handleForwardResume], and [driveForwardResume] up to its receive. *)
Definition forward_resume_arrives (id : Z) (ac : nat) (uri : string) (myPos ackPos : Z) (s : fstate) :
    exec fstate :=
  let s := mkF (fs_now s) (fs_pending s) (fs_halves s) (fs_next s) (fs_plane s) (fs_out s)
             (fs_submitted s + 1) (fs_paired s) (fs_timeouts s) in
  FSubmit (mkFHalf id uri ac myPos ackPos (fs_now s) None false false None false FWait XNone) s.

Section ForwardResume.

(** The plane's advertised endpoint. *)
Context (endpoint : string).

(** [driveForwardResume] of [self] after it has received [peer]; [successors] are
    the relay's at that time. *)
Definition grant_pair (successors : list string) (self peer : halfForwardResume) (s : fstate) : exec fstate :=
  match Allocate (f_agentURI self) (fs_now s) (fs_plane s) with
  | Ret (selfAlloc, p) =>
      match Allocate (f_agentURI peer) (fs_now s) p with
      | Ret (peerAlloc, p) =>
          Ret (mkF (fs_now s) (fs_pending s) (fs_halves s) (fs_next s) p
            (fs_out s ++
              [(f_ac self, AllocGrantedFrame (mkGranted (f_id self) selfAlloc peerAlloc endpoint successors));
               (f_ac peer, AllocGrantedFrame (mkGranted (f_id self) peerAlloc selfAlloc endpoint successors))])
            (fs_submitted s) (fs_paired s + 1) (fs_timeouts s))
      | Panic m => Panic m | Blocked => Blocked | OutOfFuel => OutOfFuel
      end
  | Panic m => Panic m | Blocked => Blocked | OutOfFuel => OutOfFuel
  end.

Definition set_fhalf (r : nat) (h : halfForwardResume) (s : fstate) : fstate :=
  mkF (fs_now s) (fs_pending s) (<[r := h]> (fs_halves s)) (fs_next s) (fs_plane s) (fs_out s)
    (fs_submitted s) (fs_paired s) (fs_timeouts s).

Inductive fevent :=
  | FClock (now : Time)
  | FResume (id : Z) (ac : nat) (uri : string) (myPos ackPos : Z)
  | FDrive (r : nat) (successors : list string)
  | FExpiryRecv (r : nat)
  | FTimer (r : nat)
  | FPlane (op : plane_op).

(** [None]: the goroutine cannot make that move now. *)
Definition fexec (s : fstate) (ev : fevent) : option (exec fstate) :=
  match ev with
  | FClock now =>
      if fs_now s <=? now
      then Some (Ret (mkF now (fs_pending s) (fs_halves s) (fs_next s) (fs_plane s) (fs_out s)
             (fs_submitted s) (fs_paired s) (fs_timeouts s)))
      else None
  | FResume id ac uri myPos ackPos => Some (forward_resume_arrives id ac uri myPos ackPos s)
  | FDrive r successors =>
      h ← fs_halves s !! r;
      match f_pc h with
      | FReturned => None
      | FWait =>
          match f_buf h with
          | Some p =>
              peer ← fs_halves s !! p;
              Some (grant_pair successors h peer (set_fhalf r (f_return h) s))
          | None =>
              if f_closed h then
                let s := set_fhalf r (f_return h) s in
                Some (Ret (mkF (fs_now s) (fs_pending s) (fs_halves s) (fs_next s) (fs_plane s) (fs_out s)
                  (fs_submitted s) (fs_paired s)
                  (if f_timedOut h then fs_timeouts s + 1 else fs_timeouts s)))
              else None
          end
      end
  | FExpiryRecv r =>
      h ← fs_halves s !! r;
      match f_epc h with
      | XWait =>
          if bool_decide (is_Some (f_buf h)) || f_closed h
          then Some (Ret (set_fhalf r (f_exit None h) s))
          else None
      | _ => None
      end
  | FTimer r =>
      h ← fs_halves s !! r;
      match f_epc h with
      | XWait =>
          if f_arrivedAt h + ForwardResumeWindow <=? fs_now s then
            if decide (fs_pending s !! f_id h = Some r) then
              if f_closed h then Some (Panic "close of closed channel")
              else
                let s := set_fhalf r (f_expired h) s in
                Some (Ret (mkF (fs_now s) (delete (f_id h) (fs_pending s)) (fs_halves s) (fs_next s)
                  (fs_plane s) (fs_out s) (fs_submitted s) (fs_paired s) (fs_timeouts s)))
            else Some (Ret (set_fhalf r (f_exit (f_buf h) h) s))
          else None
      | _ => None
      end
  | FPlane op =>
      Some (Ret (mkF (fs_now s) (fs_pending s) (fs_halves s) (fs_next s) (plane_exec (fs_plane s) op)
        (fs_out s) (fs_submitted s) (fs_paired s) (fs_timeouts s)))
  end.

(** The URI of an agent connection comes out of its certificate, and is not empty;
    plane operations carry well-formed arguments. *)
Definition fevent_ok (ev : fevent) : Prop :=
  match ev with
  | FResume _ _ uri _ _ => uri <> ""
  | _ => True
  end.

Inductive freach (t0 : Time) : fstate -> Prop :=
  | fr_init p : 0 <= nextID p < 2 ^ 32 -> freach t0 (finit t0 p)
  | fr_step s s' ev : freach t0 s -> fevent_ok ev -> fexec s ev = Some (Ret s') -> freach t0 s'.

Fixpoint frun (evs : list fevent) (s : fstate) : option fstate :=
  match evs with
  | [] => Some s
  | ev :: evs' => match fexec s ev with Some (Ret s') => frun evs' s' | _ => None end
  end.

(** ** The invariant *)

(** What the invariant asks of a half: unpaired, it is in the map or has timed
    out; paired, it is the driver with its peer in the channel, or the other one
    with its channel closed. *)
Definition fhalf_ok (s : fstate) (r : nat) (h : halfForwardResume) : Prop :=
  f_agentURI h <> "" /\
  (f_timedOut h = true -> f_arrivedAt h + ForwardResumeWindow <= fs_now s) /\
  match f_peer h with
  | Some p =>
      f_timedOut h = false /\
      (exists g, fs_halves s !! p = Some g /\ p <> r /\ f_peer g = Some r /\ f_id g = f_id h /\
        f_driver g = negb (f_driver h)) /\
      (if f_driver h then f_epc h = XNone /\ (f_pc h = FWait -> f_buf h = Some p)
       else f_closed h = true /\ f_buf h = None)
  | None =>
      f_buf h = None /\ f_driver h = false /\ f_closed h = f_timedOut h /\
      (f_closed h = false -> fs_pending s !! f_id h = Some r /\ f_pc h = FWait /\ f_epc h = XWait)
  end.

Record finv (s : fstate) : Prop := {
  fi_next : 0 <= nextID (fs_plane s) < 2 ^ 32;
  fi_fresh : forall r, (fs_next s <= r)%nat -> fs_halves s !! r = None;
  fi_pending : forall id r, fs_pending s !! id = Some r ->
    exists h, fs_halves s !! r = Some h /\ f_id h = id /\ f_closed h = false /\ f_peer h = None;
  fi_half : forall r h, fs_halves s !! r = Some h -> fhalf_ok s r h
}.

(** ** Preservation *)

Lemma Allocate_next uri now p : 0 <= nextID p < 2 ^ 32 -> uri <> "" ->
  exists id p', Allocate uri now p = Ret (id, p') /\ 0 <= nextID p' < 2 ^ 32.
Proof.
  intros Hn Hu. unfold Allocate. destruct (String.eqb_spec uri ""); [done|].
  rewrite draw_id_spec by done. eexists _, _. split; [done|]. simpl.
  destruct (Z.eqb_spec (nextID p) (2 ^ 32 - 1)); lia.
Qed.

Lemma plane_exec_range p op : 0 <= nextID p < 2 ^ 32 -> 0 <= nextID (plane_exec p op) < 2 ^ 32.
Proof.
  intros Hn. destruct (is_allocate op) eqn:Ha; [|by rewrite plane_exec_next].
  destruct op; try done. simpl. destruct (String.eqb_spec uri "") as [->|Hu]; [done|].
  destruct (Allocate_next uri now p Hn Hu) as (id & p' & -> & ?). done.
Qed.

Lemma fresh_lt s r h : finv s -> fs_halves s !! r = Some h -> (r < fs_next s)%nat.
Proof.
  intros Hi Hr. destruct (decide (r < fs_next s)%nat); [done|]. rewrite (fi_fresh s Hi) in Hr by lia. done.
Qed.

(** A goroutine changes its own half, in ways its peer does not see. *)
Lemma finv_update s r h h' p out sub pd tmo :
  finv s -> fs_halves s !! r = Some h -> 0 <= nextID p < 2 ^ 32 ->
  f_peer h' = f_peer h -> f_id h' = f_id h -> f_driver h' = f_driver h -> f_closed h' = f_closed h ->
  fhalf_ok s r h' ->
  finv (mkF (fs_now s) (fs_pending s) (<[r := h']> (fs_halves s)) (fs_next s) p out sub pd tmo).
Proof.
  intros Hi Hr Hn E1 E2 E3 E4 Hok. split; simpl; [done| | |].
  - intros k Hk. rewrite lookup_insert_ne; [by apply (fi_fresh s Hi)|].
    pose proof (fresh_lt s r h Hi Hr). lia.
  - intros id k (x & Hx & ?)%(fi_pending s Hi). insert_cases k r.
    + simplify_eq. exists h'. split_and!; congruence || naive_solver congruence.
    + eauto.
  - assert (Hkeep : forall k x, fhalf_ok s k x ->
      fhalf_ok (mkF (fs_now s) (fs_pending s) (<[r := h']> (fs_halves s)) (fs_next s) p out sub pd tmo) k x).
    { intros k x (Hu & Ht & Hx). split; [done|]. split; [done|]. destruct (f_peer x) as [q|]; [|done].
      destruct Hx as (? & (g & Hg & ? & ? & ? & ?) & ?). split; [done|]. split; [|done]. simpl.
      destruct (decide (q = r)) as [->|Hne].
      - exists h'. rewrite lookup_insert_eq. simplify_eq. split_and!; congruence.
      - exists g. by rewrite lookup_insert_ne. }
    intros k x. insert_cases k r.
    + intros [= <-]. auto.
    + intros Hx. apply Hkeep, (fi_half s Hi k x Hx).
Qed.

Lemma finv_pair_stays s r h k x :
  finv s -> fs_halves s !! r = Some h -> f_peer h = None -> fs_halves s !! k = Some x ->
  f_peer x <> Some r /\ f_peer x <> Some (fs_next s).
Proof.
  intros Hi Hr Ep Hx. destruct (fi_half s Hi k x Hx) as (_ & _ & Hok).
  split; intros E; rewrite E in Hok; destruct Hok as (_ & (g & Hg & _ & Eg & _) & _); [congruence|].
  by rewrite (fi_fresh s Hi) in Hg.
Qed.

Lemma FSubmit_match id ac uri mp ap s p g :
  let self := mkFHalf id uri ac mp ap (fs_now s) None false false None false FWait XNone in
  finv s -> uri <> "" -> fs_pending s !! id = Some p -> fs_halves s !! p = Some g ->
  finv (mkF (fs_now s) (delete id (fs_pending s))
    (<[fs_next s := f_pair_sent p self]> (<[p := f_pair_closed (fs_next s) g]> (fs_halves s)))
    (S (fs_next s)) (fs_plane s) (fs_out s) (fs_submitted s) (fs_paired s) (fs_timeouts s)).
Proof.
  intros self Hi Hu Hid Hg. destruct (fi_pending s Hi id p Hid) as (g' & Hg' & Ei & Ec & Ep). simplify_eq.
  pose proof (fresh_lt s p g Hi Hg) as Hlt. destruct (fi_half s Hi p g Hg) as (Hgu & Hgt & Hok).
  rewrite Ep in Hok. destruct Hok as (Eb & Ed & Et & _). rewrite Ec in Et. split; simpl.
  - apply (fi_next s Hi).
  - intros k Hk. rewrite !lookup_insert_ne by lia. apply (fi_fresh s Hi). lia.
  - intros id k [Hne Hk]%lookup_delete_Some. destruct (fi_pending s Hi id k Hk) as (x & Hx & ? & ? & ?).
    exists x. pose proof (fresh_lt s k x Hi Hx).
    rewrite lookup_insert_ne by lia. rewrite lookup_insert_ne by congruence. done.
  - intros k x. destruct (decide (k = fs_next s)) as [->|Hkn].
    { rewrite lookup_insert_eq. intros [= <-]. unfold fhalf_ok; simpl. split_and!; try done.
      exists (f_pair_closed (fs_next s) g). rewrite lookup_insert_ne, lookup_insert_eq by lia.
      split_and!; done || lia. }
    rewrite lookup_insert_ne by done. destruct (decide (k = p)) as [->|Hkp].
    { rewrite lookup_insert_eq. intros [= <-]. unfold fhalf_ok; simpl. split_and!; try done.
      exists (f_pair_sent p self). rewrite lookup_insert_eq. split_and!; done || lia. }
    rewrite lookup_insert_ne by done. intros Hx. destruct (fi_half s Hi k x Hx) as (? & ? & Hx').
    destruct (finv_pair_stays s p g k x Hi Hg Ep Hx) as [H1 H2]. split; [done|]. split; [done|].
    destruct (f_peer x) as [q|].
    + destruct Hx' as (? & (y & ? & ?) & ?). split; [done|]. split; [|done]. exists y. simpl.
      rewrite !lookup_insert_ne by congruence. done.
    + destruct Hx' as (? & ? & ? & Hpd). split_and!; try done. simpl. intros Hc.
      destruct (Hpd Hc) as (? & ? & ?). split; [|done]. apply lookup_delete_Some. split; [congruence|done].
Qed.

Lemma FSubmit_park id ac uri mp ap s :
  let self := mkFHalf id uri ac mp ap (fs_now s) None false false None false FWait XNone in
  finv s -> uri <> "" -> fs_pending s !! id = None ->
  finv (mkF (fs_now s) (<[id := fs_next s]> (fs_pending s)) (<[fs_next s := f_wait self]> (fs_halves s))
    (S (fs_next s)) (fs_plane s) (fs_out s) (fs_submitted s) (fs_paired s) (fs_timeouts s)).
Proof.
  intros self Hi Hu Hid. split; simpl.
  - apply (fi_next s Hi).
  - intros k Hk. rewrite lookup_insert_ne by lia. apply (fi_fresh s Hi). lia.
  - intros id' k. destruct (decide (id' = id)) as [->|Hne].
    + rewrite lookup_insert_eq. intros [= <-]. rewrite lookup_insert_eq. eauto.
    + rewrite lookup_insert_ne by done. intros (x & Hx & ?)%(fi_pending s Hi). exists x.
      pose proof (fresh_lt s k x Hi Hx). rewrite lookup_insert_ne by lia. done.
  - intros k x. insert_cases k (fs_next s).
    + intros [= <-]. unfold fhalf_ok; simpl. rewrite lookup_insert_eq.
      split_and!; done.
    + intros Hx. destruct (fi_half s Hi k x Hx) as (? & ? & Hx').
      split; [done|]. split; [done|]. destruct (f_peer x) as [q|].
      * destruct Hx' as (? & (y & Hy & ?) & ?). split; [done|]. split; [|done]. exists y. simpl.
        pose proof (fresh_lt s q y Hi Hy). rewrite lookup_insert_ne by lia. done.
      * destruct Hx' as (? & ? & ? & Hpd). split_and!; try done. simpl. intros Hc.
        destruct (Hpd Hc) as (? & ? & ?). split; [|done]. rewrite lookup_insert_ne; congruence.
Qed.

Lemma FTimer_expires s r h :
  finv s -> fs_halves s !! r = Some h -> fs_pending s !! f_id h = Some r ->
  f_arrivedAt h + ForwardResumeWindow <= fs_now s ->
  finv (mkF (fs_now s) (delete (f_id h) (fs_pending s)) (<[r := f_expired h]> (fs_halves s)) (fs_next s)
    (fs_plane s) (fs_out s) (fs_submitted s) (fs_paired s) (fs_timeouts s)).
Proof.
  intros Hi Hr Hid Ht. destruct (fi_pending s Hi _ r Hid) as (h' & ? & _ & Ec & Ep). simplify_eq.
  destruct (fi_half s Hi r h Hr) as (Hu & Htm & Hok). rewrite Ep in Hok. split; simpl.
  - apply (fi_next s Hi).
  - intros k Hk. pose proof (fresh_lt s r h Hi Hr). rewrite lookup_insert_ne by lia. by apply (fi_fresh s Hi).
  - intros id k [Hne Hk]%lookup_delete_Some. destruct (fi_pending s Hi id k Hk) as (x & Hx & ? & ?).
    exists x. rewrite lookup_insert_ne by congruence. done.
  - intros k x. insert_cases k r.
    + intros [= <-]. unfold fhalf_ok; simpl. rewrite Ep. split_and!; try done; tauto.
    + intros Hx. destruct (fi_half s Hi k x Hx) as (? & ? & Hx').
      destruct (finv_pair_stays s r h k x Hi Hr Ep Hx) as [H1 _]. split; [done|]. split; [done|].
      destruct (f_peer x) as [q|].
      * destruct Hx' as (? & (y & ? & ?) & ?). split; [done|]. split; [|done]. exists y. simpl.
        rewrite lookup_insert_ne by congruence. done.
      * destruct Hx' as (? & ? & ? & Hpd). split_and!; try done. simpl. intros Hc.
        destruct (Hpd Hc) as (? & ? & ?). split; [|done]. apply lookup_delete_Some. split; congruence.
Qed.

Lemma grant_pair_ok successors s r h p g :
  finv s -> fs_halves s !! r = Some h -> f_pc h = FWait -> f_buf h = Some p -> fs_halves s !! p = Some g ->
  exists s', grant_pair successors h g (set_fhalf r (f_return h) s) = Ret s' /\ finv s'.
Proof.
  intros Hi Hr Epc Eb Hg. destruct (fi_half s Hi r h Hr) as (Hu & Ht & Hok).
  destruct (fi_half s Hi p g Hg) as (Hgu & _).
  destruct (Allocate_next (f_agentURI h) (fs_now s) (fs_plane s) (fi_next s Hi) Hu) as (a & p1 & E1 & Hn1).
  destruct (Allocate_next (f_agentURI g) (fs_now s) p1 Hn1 Hgu) as (b & p2 & E2 & Hn2).
  unfold grant_pair. cbn [set_fhalf fs_now fs_plane]. rewrite E1, E2. eexists. split; [done|]. simpl.
  apply (finv_update s r h); try done. unfold fhalf_ok; simpl. split; [done|]. split; [done|].
  destruct (f_peer h) as [q|]; [|naive_solver]. destruct (f_driver h); [|naive_solver].
  split_and!; try tauto. done.
Qed.

Lemma fexec_ok s ev out :
  finv s -> fevent_ok ev -> fexec s ev = Some out -> exists s', out = Ret s' /\ finv s'.
Proof.
  intros Hi Hev. destruct ev; simpl in *.
  - destruct (Z.leb_spec (fs_now s) now); [|done]. intros [= <-]. eexists. split; [done|].
    destruct Hi as [? ? ? Hh]. split; try done. intros r h Hr. destruct (Hh r h Hr) as (? & Ht & ?).
    split; [done|]. split; [|done]. simpl. intros ?%Ht. lia.
  - intros [= <-]. unfold forward_resume_arrives, FSubmit. cbn [fs_pending f_id fs_halves fs_next].
    set (s0 := mkF (fs_now s) _ _ _ _ _ _ _ _). assert (Hi0 : finv s0) by (by destruct Hi).
    destruct (fs_pending s !! id) as [p|] eqn:Hp.
    + destruct (fi_pending s Hi id p Hp) as (g & Hg & _ & Ec & _). rewrite Hg, Ec.
      eexists. split; [done|]. by apply (FSubmit_match id ac uri myPos ackPos s0 p g).
    + eexists. split; [done|]. by apply (FSubmit_park id ac uri myPos ackPos s0).
  - destruct (fs_halves s !! r) as [h|] eqn:Hr; simpl; [|done]. destruct (f_pc h) eqn:Epc; [|done].
    destruct (f_buf h) as [p|] eqn:Eb.
    + destruct (fs_halves s !! p) as [g|] eqn:Hg; simpl; [|done]. intros [= <-]. by apply (grant_pair_ok successors s r h p g).
    + destruct (f_closed h) eqn:Ec; [|done]. intros [= <-]. eexists. split; [done|].
      destruct (fi_half s Hi r h Hr) as (? & ? & Hok). apply (finv_update s r h); try done; [apply (fi_next s Hi)|].
      split; [done|]. split; [done|]. simpl. destruct (f_peer h).
      * destruct (f_driver h); naive_solver.
      * rewrite Ec. destruct Hok as (? & ? & ? & ?). split_and!; done || congruence.
  - destruct (fs_halves s !! r) as [h|] eqn:Hr; simpl; [|done]. destruct (f_epc h) eqn:Ee; try done.
    destruct (_ || _) eqn:Hb; [|done]. intros [= <-]. eexists. split; [done|].
    destruct (fi_half s Hi r h Hr) as (? & ? & Hok). apply (finv_update s r h); try done; [apply (fi_next s Hi)|].
    split; [done|]. split; [done|]. simpl. destruct (f_peer h).
    + destruct (f_driver h); [|tauto]. destruct Hok as (_ & _ & ? & _). congruence.
    + destruct Hok as (Eb & ? & ? & ?). rewrite Eb in Hb. simpl in Hb. split_and!; try done. congruence.
  - destruct (fs_halves s !! r) as [h|] eqn:Hr; simpl; [|done]. destruct (f_epc h) eqn:Ee; try done.
    destruct (Z.leb_spec (f_arrivedAt h + ForwardResumeWindow) (fs_now s)); [|done]. case_decide as Hp.
    + destruct (fi_pending s Hi _ r Hp) as (h' & ? & _ & Ec & _). simplify_eq. rewrite Ec. intros [= <-].
      eexists. split; [done|]. by apply FTimer_expires.
    + intros [= <-]. eexists. split; [done|]. destruct (fi_half s Hi r h Hr) as (? & ? & Hok).
      apply (finv_update s r h); try done; [apply (fi_next s Hi)|]. split; [done|]. split; [done|]. simpl.
      destruct (f_peer h).
      * destruct (f_driver h); [|tauto]. destruct Hok as (_ & _ & ? & _). congruence.
      * destruct Hok as (? & ? & ? & Hpd). split_and!; try done. intros Hc. by destruct (Hpd Hc).
  - intros [= <-]. eexists. split; [done|]. destruct Hi. split; try done. by apply plane_exec_range.
Qed.

Lemma freach_inv t0 s : freach t0 s -> finv s.
Proof.
  induction 1 as [p Hp|s s' ev _ IH Hok Hev].
  - split; simpl; [done|done| |]; intros *; rewrite lookup_empty; done.
  - destruct (fexec_ok s ev _ IH Hok Hev) as (? & [= <-] & ?). done.
Qed.

Lemma frun_reach t0 evs s s' : freach t0 s -> Forall fevent_ok evs -> frun evs s = Some s' -> freach t0 s'.
Proof.
  intros Hs Hok. revert s Hs. induction Hok as [|ev evs Hev _ IH]; simpl; intros s Hs; [by intros [= <-]|].
  destruct (fexec s ev) as [[s1| | |]|] eqn:E; try done. apply IH. by eapply fr_step.
Qed.

(** A closed channel lets its handler return at once. *)
Lemma drive_closed successors s r h :
  fs_halves s !! r = Some h -> f_pc h = FWait -> f_buf h = None -> f_closed h = true ->
  exists s', frun [FDrive r successors] s = Some s' /\ fs_halves s' !! r = Some (f_return h) /\
    fs_plane s' = fs_plane s /\ fs_out s' = fs_out s /\ fs_paired s' = fs_paired s /\
    fs_timeouts s' = fs_timeouts s + (if f_timedOut h then 1 else 0).
Proof.
  intros Hr Epc Eb Ec. cbn [frun fexec]. rewrite Hr. simpl. rewrite Epc, Eb, Ec. eexists. split; [done|].
  simpl. rewrite lookup_insert_eq. split_and!; try done. destruct (f_timedOut h); lia.
Qed.

Lemma drive_paired successors s r h p g :
  finv s -> fs_halves s !! r = Some h -> f_pc h = FWait -> f_buf h = Some p -> fs_halves s !! p = Some g ->
  exists s', frun [FDrive r successors] s = Some s' /\ fs_halves s' !! r = Some (f_return h).
Proof.
  intros Hi Hr Epc Eb Hg. destruct (grant_pair_ok successors s r h p g Hi Hr Epc Eb Hg) as (s' & Hs' & _).
  exists s'. cbn [frun fexec]. rewrite Hr. simpl. rewrite Epc, Eb, Hg. simpl. rewrite Hs'. split; [done|].
  revert Hs'. unfold grant_pair. repeat case_match; try done. intros [= <-]. simpl. apply lookup_insert_eq.
Qed.

Lemma drive_timeout successors s r h :
  fs_halves s !! r = Some h -> f_pc h = FWait -> f_buf h = None -> f_closed h = false ->
  fs_pending s !! f_id h = Some r -> f_epc h = XWait ->
  exists s', frun [FClock (Z.max (fs_now s) (f_arrivedAt h + ForwardResumeWindow)); FTimer r; FDrive r successors] s = Some s' /\
    fs_halves s' !! r = Some (f_return (f_expired h)).
Proof.
  intros Hr Epc Eb Ec Hp Ee. set (t := Z.max _ _). cbn [frun fexec].
  destruct (Z.leb_spec (fs_now s) t); [|lia]. cbn [fs_halves fs_pending fs_now]. rewrite Hr. simpl. rewrite Ee.
  destruct (Z.leb_spec (f_arrivedAt h + ForwardResumeWindow) t); [|lia].
  rewrite decide_True by done. rewrite Ec. cbn [fs_halves set_fhalf fs_pending fs_now].
  rewrite lookup_insert_eq. simpl. rewrite Epc, Eb. eexists. split; [done|]. simpl. by rewrite lookup_insert_eq.
Qed.

(** Only the clock moves the clock. *)
Lemma fexec_now s ev s' : (forall now, ev <> FClock now) -> fexec s ev = Some (Ret s') -> fs_now s' = fs_now s.
Proof.
  intros Hev. destruct ev; try (by exfalso; eapply Hev); simpl;
    unfold forward_resume_arrives, FSubmit, grant_pair; intros Hx;
    repeat (simplify_option_eq; try case_match); by simplify_eq.
Qed.

(** A half that arrives leaves the plane alone. *)
Lemma arrives_plane id ac uri myPos ackPos s s' :
  forward_resume_arrives id ac uri myPos ackPos s = Ret s' -> fs_plane s' = fs_plane s.
Proof. unfold forward_resume_arrives, FSubmit. intros Hx. repeat case_match; by simplify_eq. Qed.

(** The ids granted by the frames a step has sent. *)
Definition granted (s s' : fstate) : list (nat * Z) :=
  omap (fun '(ac, fr) => match fr with AllocGrantedFrame g => Some (ac, ag_MyAllocation g) | _ => None end)
    (drop (length (fs_out s)) (fs_out s')).

Definition is_drive (ev : fevent) : bool :=
  match ev with FDrive _ _ | FExpiryRecv _ | FTimer _ => true | _ => false end.

Lemma granted_none s s' : fs_out s' = fs_out s -> granted s s' = [].
Proof. intros E. unfold granted. by rewrite E, drop_all. Qed.

Lemma Allocate_dom uri now p id p' : Allocate uri now p = Ret (id, p') -> dom (byAlloc p') = {[id]} ∪ dom (byAlloc p).
Proof.
  unfold Allocate. destruct (String.eqb uri ""); [done|]. destruct (draw_id 2 (nextID p)); [|done].
  intros [= <- <-]. simpl. by rewrite dom_insert_L.
Qed.

(** The matcher's goroutines only ever allocate, one id per frame. *)
Lemma drive_plane s ev s' : is_drive ev = true -> fexec s ev = Some (Ret s') ->
  exists ops, fs_plane s' = foldl plane_exec (fs_plane s) ops /\ Forall (fun op => is_allocate op = true) ops /\
    length ops = length (granted s s') /\
    dom (byAlloc (fs_plane s')) = list_to_set (granted s s').*2 ∪ dom (byAlloc (fs_plane s)).
Proof.
  assert (Hsame : forall s', fs_plane s' = fs_plane s -> fs_out s' = fs_out s ->
    exists ops, fs_plane s' = foldl plane_exec (fs_plane s) ops /\ Forall (fun op => is_allocate op = true) ops /\
    length ops = length (granted s s') /\
    dom (byAlloc (fs_plane s')) = list_to_set (granted s s').*2 ∪ dom (byAlloc (fs_plane s))).
  { intros x Ep Eo. exists []. rewrite granted_none, Ep by done. split_and!; try done. set_solver. }
  destruct ev as [| |r sc|r|r|]; try done; intros _; simpl.
  - destruct (fs_halves s !! r) as [h|]; simpl; [|done]. destruct (f_pc h); [|done].
    destruct (f_buf h) as [q|].
    + destruct (fs_halves s !! q) as [g|]; simpl; [|done]. unfold grant_pair. cbn [set_fhalf fs_now fs_plane fs_out].
      destruct (Allocate (f_agentURI h) _ _) as [[a p1]| | |] eqn:E1; try done.
      destruct (Allocate (f_agentURI g) _ _) as [[b p2]| | |] eqn:E2; try done. intros [= <-]. cbn [fs_plane].
      exists [PAllocate (f_agentURI h) (fs_now s); PAllocate (f_agentURI g) (fs_now s)].
      simpl. rewrite E1, E2. split_and!; [done|by repeat constructor|..]; unfold granted; cbn [fs_out]; rewrite drop_app_length;
        [done|]. simpl. rewrite (Allocate_dom _ _ _ _ _ E2), (Allocate_dom _ _ _ _ _ E1). set_solver.
    + destruct (f_closed h); [|done]. intros [= <-]. by apply Hsame.
  - destruct (fs_halves s !! r) as [h|]; simpl; [|done]. destruct (f_epc h); try done.
    destruct (_ || _); [|done]. intros [= <-]. by apply Hsame.
  - destruct (fs_halves s !! r) as [h|]; simpl; [|done]. destruct (f_epc h); try done.
    destruct (_ <=? _); [|done]. case_decide; [destruct (f_closed h); [done|]|]; intros [= <-]; by apply Hsame.
Qed.

(** ** Properties *)

(** C22: the forward matcher never panics and never loses a handler.  In every
    reachable state any possible move completes (no close of a closed channel,
    no panicking or unfinished allocation); and every waiting
    [driveForwardResume] can be brought to its end: at once if it was paired or
    timed out, and otherwise by the clock reaching the end of its window and its
    timer firing. *)
Theorem forward_resume_progress t0 s :
  freach t0 s ->
  (forall ev out, fevent_ok ev -> fexec s ev = Some out -> exists s', out = Ret s') /\
  (forall r h, fs_halves s !! r = Some h -> f_pc h = FWait ->
     exists evs s' h', (length evs <= 3)%nat /\ Forall fevent_ok evs /\ frun evs s = Some s' /\
       fs_halves s' !! r = Some h' /\ f_pc h' = FReturned).
Proof.
  intros Hi%freach_inv. split.
  { intros ev out Hok Hev. destruct (fexec_ok s ev out Hi Hok Hev) as (s' & -> & _). eauto. }
  intros r h Hr Epc. destruct (fi_half s Hi r h Hr) as (_ & _ & Hok).
  assert (H1 : f_buf h = None -> f_closed h = true -> exists s' h', frun [FDrive r []] s = Some s' /\
    fs_halves s' !! r = Some h' /\ f_pc h' = FReturned).
  { intros Eb Ec. destruct (drive_closed [] s r h Hr Epc Eb Ec) as (s' & ? & ? & _). eauto. }
  destruct (f_peer h) as [p|] eqn:Ep.
  - exists [FDrive r []]. destruct Hok as (_ & (g & Hg & _) & Hd). destruct (f_driver h).
    + destruct (drive_paired [] s r h p g) as (s' & ? & ?); try tauto. exists s', (f_return h).
      split_and!; [simpl; lia|by repeat constructor|done..].
    + destruct H1 as (s' & h' & ? & ? & ?); try tauto. exists s', h'. split_and!; [simpl; lia|by repeat constructor|done..].
  - destruct Hok as (Eb & _ & _ & Hpd). destruct (f_closed h) eqn:Ec.
    + destruct H1 as (s' & h' & ? & ? & ?); try done. exists [FDrive r []], s', h'.
      split_and!; [simpl; lia|by repeat constructor|done..].
    + destruct (Hpd eq_refl) as (Hp & _ & Ee).
      destruct (drive_timeout [] s r h) as (s' & ? & ?); try done.
      exists [FClock (Z.max (fs_now s) (f_arrivedAt h + ForwardResumeWindow)); FTimer r; FDrive r []], s',
        (f_return (f_expired h)). split_and!; [simpl; lia|by repeat constructor|done..].
Qed.

(** C23: a resumed forward stream gets one mirrored pair of fresh allocations.
    When two FORWARD_RESUME halves of one stream have arrived, the second
    arrival's goroutine allocates one id per agent and grants each agent its own
    id and the other's, on its own connection, with the relay's endpoint and
    successors of that moment; the ids are different, new, and owned by the agents they were
    granted to; and the first arrival's goroutine then returns without granting,
    allocating or counting anything. *)
Theorem forward_resume_grants successors successors' t0 s id ac1 u1 m1 a1 ac2 u2 m2 a2 :
  freach t0 s -> plane_inv (fs_plane s) -> nextID (fs_plane s) < 2 ^ 32 - 2 ->
  fs_pending s !! id = None -> u1 <> "" -> u2 <> "" ->
  let r1 := fs_next s in
  let r2 := S (fs_next s) in
  exists s' x1 x2,
    frun [FResume id ac1 u1 m1 a1; FResume id ac2 u2 m2 a2; FDrive r2 successors; FDrive r1 successors'] s = Some s' /\
    fs_out s' = fs_out s ++ [(ac2, AllocGrantedFrame (mkGranted id x2 x1 endpoint successors));
                             (ac1, AllocGrantedFrame (mkGranted id x1 x2 endpoint successors))] /\
    x1 <> x2 /\ byAlloc (fs_plane s) !! x1 = None /\ byAlloc (fs_plane s) !! x2 = None /\
    OwnerOf x1 (fs_plane s') = Some u1 /\ OwnerOf x2 (fs_plane s') = Some u2 /\
    plane_inv (fs_plane s') /\
    fs_paired s' = fs_paired s + 1 /\ fs_timeouts s' = fs_timeouts s.
Proof.
  intros Hi%freach_inv Hpl Hn Hp Hu1 Hu2 r1 r2.
  destruct (Allocate_fresh u2 (fs_now s) (fs_plane s) Hpl Hu2 ltac:(lia)) as (p1 & E1 & Hp1 & F1 & N1 & B1).
  destruct (Allocate_fresh u1 (fs_now s) p1 Hp1 Hu1 ltac:(lia)) as (p2 & E2 & Hp2 & F2 & N2 & B2).
  rewrite N1 in *. cbn [frun fexec]. unfold forward_resume_arrives, FSubmit.
  cbn [f_id fs_pending fs_halves fs_next]. rewrite Hp. cbn [f_id fs_pending fs_halves fs_next].
  rewrite !lookup_insert_eq. cbn. fold r1 r2. assert (Hne : r2 <> r1) by (unfold r1, r2; lia).
  rewrite lookup_insert_eq. cbn. rewrite lookup_insert_ne, lookup_insert_eq by done.
  unfold grant_pair. cbn. rewrite E1, E2. cbn. rewrite !lookup_insert_ne, lookup_insert_eq by done. cbn.
  eexists _, _, _. split; [reflexivity|]. cbn. split; [reflexivity|]. split; [lia|].
  rewrite B1, lookup_insert_ne in F2 by lia. split_and!; try done.
  - unfold OwnerOf. by rewrite B2, lookup_insert_eq.
  - unfold OwnerOf. by rewrite B2, lookup_insert_ne, B1, lookup_insert_eq by lia.
Qed.

End ForwardResume.

(** One half of stream 7, parked. *)
Definition parked_state : fstate :=
  default (finit 0 NewPlane)
    (frun "relay:4434" [FResume 7 1 "outrelay://acme/agent/c" 10 4] (finit 0 NewPlane)).

Lemma forward_resume_progress_witness :
  (forall ev out, fevent_ok ev -> fexec "relay:4434" parked_state ev = Some out -> exists s', out = Ret s') /\
  (forall r h, fs_halves parked_state !! r = Some h -> f_pc h = FWait ->
     exists evs s' h', (length evs <= 3)%nat /\ Forall fevent_ok evs /\
       frun "relay:4434" evs parked_state = Some s' /\
       fs_halves s' !! r = Some h' /\ f_pc h' = FReturned).
Proof.
  apply (forward_resume_progress "relay:4434" 0).
  apply (frun_reach "relay:4434" 0 [FResume 7 1 "outrelay://acme/agent/c" 10 4] (finit 0 NewPlane)).
  - apply fr_init. simpl. lia.
  - repeat constructor. discriminate.
  - vm_compute. reflexivity.
Defined.

Lemma forward_resume_grants_witness : exists s' x1 x2,
  frun "relay:4434"
    [FResume 7 1 "outrelay://acme/agent/c" 10 4; FResume 7 2 "outrelay://acme/agent/p" 6 9; FDrive 1 ["r2:443"]; FDrive 0 ["r3:443"]]
    (finit 0 NewPlane) = Some s' /\
  fs_out s' = [] ++ [(2%nat, AllocGrantedFrame (mkGranted 7 x2 x1 "relay:4434" ["r2:443"]));
                     (1%nat, AllocGrantedFrame (mkGranted 7 x1 x2 "relay:4434" ["r2:443"]))] /\
  x1 <> x2 /\ byAlloc NewPlane !! x1 = None /\ byAlloc NewPlane !! x2 = None /\
  OwnerOf x1 (fs_plane s') = Some "outrelay://acme/agent/c" /\
  OwnerOf x2 (fs_plane s') = Some "outrelay://acme/agent/p" /\
  plane_inv (fs_plane s') /\ fs_paired s' = 0 + 1 /\ fs_timeouts s' = 0.
Proof.
  apply (forward_resume_grants "relay:4434" ["r2:443"] ["r3:443"] 0 (finit 0 NewPlane)); try done.
  - apply fr_init. simpl. lia.
  - apply (plane_run_inv []); [constructor|reflexivity].
Defined.

(** An agent that repeats FORWARD_RESUME is paired with itself.  The matcher
    compares stream ids only: two halves from one agent within the window produce
    two grants on that agent's own connection, both ids owned by it, and the half
    its real peer sends afterwards stays in the map with no partner. *)
Theorem forward_resume_self_pair :
  exists s h, frun "relay:4434"
      [FResume 7 1 "outrelay://acme/agent/c" 10 4; FResume 7 1 "outrelay://acme/agent/c" 10 4; FDrive 1 [];
       FResume 7 2 "outrelay://acme/agent/p" 6 9] (finit 0 NewPlane) = Some s /\
    fs_out s = [(1%nat, AllocGrantedFrame (mkGranted 7 1 2 "relay:4434" []));
                (1%nat, AllocGrantedFrame (mkGranted 7 2 1 "relay:4434" []))] /\
    OwnerOf 1 (fs_plane s) = Some "outrelay://acme/agent/c" /\
    OwnerOf 2 (fs_plane s) = Some "outrelay://acme/agent/c" /\
    fs_pending s !! 7 = Some 2%nat /\ fs_halves s !! 2%nat = Some h /\
    f_agentURI h = "outrelay://acme/agent/p" /\ f_peer h = None.
Proof. eexists _, _. split; [vm_compute; reflexivity|]. repeat split. Qed.

(** C31: FORWARD_REGISTER arms exactly the owner's allocation.  It is accepted,
    with no frame sent, iff the nonce has the punch length and the connection's
    own URI owns a live allocation of that id; then either the nonce is armed for
    one pending TTL, or a punch with that nonce was already waiting and the
    allocation is bound to its source at once.  In every other case the plane is
    untouched and the agent gets one reject frame naming the first check that
    failed; the [internal_error] answer never occurs. *)
Theorem handleForwardRegister_spec uri id nonce now p :
  exists p' frames, handleForwardRegister uri id nonce now (Some p) = (Some p', frames) /\
  if decide (length nonce = PunchNonceSize /\ uri <> "" /\ OwnerOf id p = Some uri)
  then frames = [] /\
    (pending p' !! id = Some (mkPending uri nonce (now + pending_ttl p)) \/
     exists q, queued p !! id = Some q /\ qp_nonce q = nonce /\ now < qp_expires q /\
       Lookup id p' = Some (qp_src q) /\ queued p' !! id = None)
  else p' = p /\ frames = [ForwardRegisterReject id
    (if decide (length nonce = PunchNonceSize)
     then if decide (uri <> "" /\ OwnerOf id p = None) then "unknown_alloc" else "owner_mismatch"
     else "bad_nonce")].
Proof.
  unfold handleForwardRegister, OwnerOf. destruct (Nat.eqb_spec (length nonce) PunchNonceSize) as [Hl|Hl]; simpl.
  2: { eexists _, _. split; [done|]. rewrite !decide_False by tauto. done. }
  unfold ArmPending. destruct (String.eqb_spec uri "") as [->|Hu].
  { eexists _, _. split; [done|]. rewrite decide_False by tauto. rewrite decide_True by done.
    by rewrite decide_False by tauto. }
  destruct (byAlloc p !! id) as [e|] eqn:He; simpl.
  2: { eexists _, _. split; [done|]. rewrite decide_False by naive_solver. by rewrite !decide_True by done. }
  destruct (String.eqb_spec (ae_uri e) uri) as [<-|Hne]; simpl.
  2: { eexists _, _. split; [done|]. rewrite decide_False by naive_solver. rewrite decide_True by done.
    by rewrite decide_False by naive_solver. }
  destruct (queued p !! id) as [q|] eqn:Hq; simpl.
  - destruct ((now <? qp_expires q) && bool_decide (qp_nonce q = nonce)) eqn:Hb; simpl; bool_to_prop;
      (eexists _, _; split; [done|]; rewrite decide_True by done; split; [done|]).
    + right. exists q. split_and!; try done.
      * unfold Lookup, bind_src. simpl. case_decide as Hs; simpl; rewrite lookup_insert_eq; simpl; congruence.
      * unfold bind_src. case_decide; simpl; apply lookup_delete_eq.
    + left. simpl. apply lookup_insert_eq.
  - eexists _, _. split; [done|]. rewrite decide_True by done. split; [done|]. left. apply lookup_insert_eq.
Qed.
