(* ===== verification/EdgeTables.v ===== *)
(** * EdgeTables: the server's routing table and the migrated-stream cache

    [recordPair], [replacePair], [forgetPair] and [peerOf] of [pkg/edge/edge.go],
    and [migratedLRU] of [pkg/edge/migrate.go]. *)

From S2P Require Import Prelude.

(** ** The stream-pair table *)

Record streamPair := mkPair { consumerURI : string; providerURI : string }.

#[export] Instance streamPair_eq_dec : EqDecision streamPair.
Proof. solve_decision. Defined.

Definition recordPair (streamID : Z) (p : streamPair) (pairs : gmap Z streamPair) :
    bool * gmap Z streamPair :=
  if streamID =? 0 then (true, pairs)
  else
    match pairs !! streamID with
    | Some existing =>
        if decide (existing <> p) then (false, pairs) else (true, <[streamID := p]> pairs)
    | None => (true, <[streamID := p]> pairs)
    end.

Definition replacePair (streamID : Z) (p : streamPair) (pairs : gmap Z streamPair) : gmap Z streamPair :=
  if streamID =? 0 then pairs else <[streamID := p]> pairs.

Definition forgetPair (streamID : Z) (pairs : gmap Z streamPair) : gmap Z streamPair :=
  if streamID =? 0 then pairs else delete streamID pairs.

(** [peerOf]; the empty string is "no peer", as in the code. *)
Definition peerOf (streamID : Z) (callerURI : string) (pairs : gmap Z streamPair) : string :=
  match pairs !! streamID with
  | None => ""
  | Some p =>
      if String.eqb callerURI (consumerURI p) then providerURI p
      else if String.eqb callerURI (providerURI p) then consumerURI p
      else ""
  end.

(** ** The migrated-stream cache *)

Definition MigrationTTL : Duration := 60 * Second.

Record migratedStream := mkMigrated {
  ms_id : Z;
  ms_consumerURI : string;
  ms_providerURI : string;
  ms_migratedAt : Time
}.

Definition gcLocked (now : Time) (l : gmap Z migratedStream) : gmap Z migratedStream :=
  filter (fun kv => ~ MigrationTTL <= now - ms_migratedAt kv.2) l.

(** [Note]: [now] stamps the entry, [now2] is the clock of the sweep. *)
Definition Note (s : migratedStream) (now now2 : Time) (l : gmap Z migratedStream) : gmap Z migratedStream :=
  let s := mkMigrated (ms_id s) (ms_consumerURI s) (ms_providerURI s) now in
  gcLocked now2 (<[ms_id s := s]> l).

Definition LookupMigrated (id : Z) (now : Time) (l : gmap Z migratedStream) :
    option migratedStream * gmap Z migratedStream :=
  match l !! id with
  | None => (None, l)
  | Some e =>
      if MigrationTTL <=? now - ms_migratedAt e then (None, delete id l) else (Some e, l)
  end.

Definition Discard (id : Z) (l : gmap Z migratedStream) : gmap Z migratedStream := delete id l.

Definition LenMigrated (now : Time) (l : gmap Z migratedStream) : nat * gmap Z migratedStream :=
  let l := gcLocked now l in (size l, l).

(** ** Lemmas *)

Lemma recordPair_true streamID p pairs pairs' :
  recordPair streamID p pairs = (true, pairs') ->
  if streamID =? 0 then pairs' = pairs
  else pairs' = <[streamID := p]> pairs /\ (forall q, pairs !! streamID = Some q -> q = p).
Proof.
  unfold recordPair. destruct (streamID =? 0); [by intros [= <-]|].
  destruct (pairs !! streamID) as [q|] eqn:Hq; [|by intros [= <-]].
  case_decide as Hne; [done|]. intros [= <-]. split; [done|]. intros q' [= <-].
  destruct (decide (q = p)); tauto.
Qed.

Lemma peerOf_insert streamID p pairs u :
  u = consumerURI p \/ u = providerURI p ->
  peerOf streamID u (<[streamID := p]> pairs) =
    if String.eqb u (consumerURI p) then providerURI p else consumerURI p.
Proof.
  unfold peerOf. rewrite lookup_insert_eq. intros [->| ->].
  - by rewrite String.eqb_refl.
  - destruct (String.eqb _ _); [done|]. by rewrite String.eqb_refl.
Qed.

(** ** Properties *)

(** The pair table routes between the two ends of a stream and nobody else.
    A successful [recordPair] of a non-zero id makes each end the other's peer
    and gives any third agent no peer; a failed one leaves the table exactly as
    it was, and happens only when the id is held by a different pair, so an
    active stream is never taken over; other ids are never affected. *)
Theorem pair_routing streamID c p pairs :
  streamID <> 0 ->
  let '(ok, pairs') := recordPair streamID (mkPair c p) pairs in
  (if ok
   then peerOf streamID c pairs' = p /\ peerOf streamID p pairs' = (if String.eqb p c then p else c) /\
     (forall u, u <> c -> u <> p -> peerOf streamID u pairs' = "")
   else pairs' = pairs /\ exists q, pairs !! streamID = Some q /\ q <> mkPair c p) /\
  (forall id u, id <> streamID -> peerOf id u pairs' = peerOf id u pairs).
Proof.
  intros Hid. destruct (recordPair streamID (mkPair c p) pairs) as [ok pairs'] eqn:Hr. destruct ok.
  - apply recordPair_true in Hr. destruct (Z.eqb_spec streamID 0); [done|]. destruct Hr as [-> _].
    split; [|intros id u Hne; unfold peerOf; by rewrite lookup_insert_ne]. split_and!.
    + rewrite peerOf_insert by (simpl; auto). simpl. by rewrite String.eqb_refl.
    + by rewrite peerOf_insert by (simpl; auto).
    + intros u Hc Hp. unfold peerOf. rewrite lookup_insert_eq. simpl.
      by destruct (String.eqb_spec u c), (String.eqb_spec u p).
  - unfold recordPair in Hr. destruct (Z.eqb_spec streamID 0); [done|].
    destruct (pairs !! streamID) as [q|] eqn:Hq; [|done]. case_decide; [|done].
    injection Hr as <-. split; [|done]. split; [done|]. eauto.
Qed.

Lemma pair_routing_witness :
  let '(ok, pairs') := recordPair 7 (mkPair "c" "p") ∅ in
  (if ok
   then peerOf 7 "c" pairs' = "p" /\ peerOf 7 "p" pairs' = (if String.eqb "p" "c" then "p" else "c") /\
     (forall u, u <> "c" -> u <> "p" -> peerOf 7 u pairs' = "")
   else pairs' = ∅ /\ exists q, (∅ : gmap Z streamPair) !! 7 = Some q /\ q <> mkPair "c" "p") /\
  (forall id u, id <> 7 -> peerOf id u pairs' = peerOf id u ∅).
Proof. apply pair_routing. discriminate. Defined.

(** A migrated stream is remembered for [MigrationTTL] and not longer.  A
    lookup returns the metadata that was noted exactly while less than
    [MigrationTTL] has passed since the note, drops the row otherwise, and every
    note sweeps the rows of other streams that have expired. *)
Theorem migrated_window s now now2 later l :
  now <= now2 -> now2 - now < MigrationTTL ->
  (LookupMigrated (ms_id s) later (Note s now now2 l)).1 =
    (if decide (later - now < MigrationTTL)
     then Some (mkMigrated (ms_id s) (ms_consumerURI s) (ms_providerURI s) now) else None) /\
  (forall id e, Note s now now2 l !! id = Some e -> now2 - ms_migratedAt e < MigrationTTL) /\
  (forall id e later, (LookupMigrated id later l).1 = Some e -> later - ms_migratedAt e < MigrationTTL).
Proof.
  intros Hle Hlt.
  assert (Hin : Note s now now2 l !! ms_id s =
    Some (mkMigrated (ms_id s) (ms_consumerURI s) (ms_providerURI s) now)).
  { unfold Note, gcLocked. apply map_lookup_filter_Some. simpl. rewrite lookup_insert_eq. split; [done|lia]. }
  split; [|split].
  - unfold LookupMigrated. rewrite Hin. simpl.
    destruct (Z.leb_spec MigrationTTL (later - now)); case_decide; done || lia.
  - intros id e. unfold Note, gcLocked. intros [_ He]%map_lookup_filter_Some. simpl in He. lia.
  - intros id e t. unfold LookupMigrated. destruct (l !! id) as [x|]; [|done].
    destruct (Z.leb_spec MigrationTTL (t - ms_migratedAt x)); [done|]. intros [= ->]. done.
Qed.

Lemma migrated_window_witness :
  (LookupMigrated 7 (59 * Second) (Note (mkMigrated 7 "c" "p" 0) 0 1 ∅)).1 =
    (if decide (59 * Second - 0 < MigrationTTL) then Some (mkMigrated 7 "c" "p" 0) else None) /\
  (forall id e, Note (mkMigrated 7 "c" "p" 0) 0 1 ∅ !! id = Some e -> 1 - ms_migratedAt e < MigrationTTL) /\
  (forall id e later, (LookupMigrated id later ∅).1 = Some e -> later - ms_migratedAt e < MigrationTTL).
Proof. apply (migrated_window (mkMigrated 7 "c" "p" 0)); [lia|reflexivity]. Defined.
