(* ===== verification/ResumeMatcher.v ===== *)
(** * ResumeMatcher: [pkg/edge/resume.go] and its callers in [pkg/edge/edge.go]

    [resumeMatcher.Submit], [handleResumeHalf], [handleMigrateToRelay] and
    [splicePair] as a system of goroutines.  A half is a heap object: the
    goroutines that share it (its handler, its expiry goroutine, the handler of
    its peer) refer to it by its number.  One event is one goroutine's move from
    one blocking point to the next; [rexec] says whether the move is possible,
    and what becomes of the state, a send on or a close of a closed channel being
    a [Panic]. *)

From S2P Require Import Prelude EdgeTables.

Definition ResumeWindow : Duration := 30 * Second.

(** ** State *)

(** Where the goroutine serving a half's stream is. *)
Inductive handler_pc :=
  | HWait                   (** blocked on the channel [Submit] returned *)
  | HSplice (peer : nat)    (** running [splicePair] *)
  | HWaitDone               (** blocked on [half.done] *)
  | HReturned.

(** The goroutine [Submit] starts for a parked half. *)
Inductive expiry_pc := ENone | EWait | EExit.

Record half := mkHalf {
  h_id : Z;
  h_uri : string;
  h_myPos : Z;
  h_peerAckPos : Z;
  h_migrate : bool;         (** came as MIGRATE_TO_RELAY, not STREAM_RESUME *)
  h_prior : bool;           (** [handleMigrateToRelay] found prior metadata *)
  h_arrivedAt : Time;
  h_buf : option nat;       (** the one-slot buffer of [matched] *)
  h_closed : bool;          (** [matched] is closed *)
  h_splicer : bool;
  h_done : option bool;     (** [done]: [None] is nil, [Some b] made and, if [b], closed *)
  h_peer : option nat;      (** history: the half it was matched with *)
  h_pc : handler_pc;
  h_epc : expiry_pc;
  h_out : list (Z * Z * Z); (** STREAM_RESUME frames written to its stream *)
  h_open : bool             (** its stream has not been closed *)
}.

Record rstate := mkR {
  r_now : Time;
  r_pending : gmap Z nat;
  r_halves : gmap nat half;
  r_next : nat;
  r_pairs : gmap Z streamPair;
  r_migrated : gmap Z migratedStream
}.

Definition rinit (now : Time) : rstate := mkR now ∅ ∅ 0 ∅ ∅.

(** How many halves wait for their peer. *)
Definition PendingCount (s : rstate) : nat := size (r_pending s).

(** Field updates of a half. *)
Definition set_pc (pc : handler_pc) (h : half) : half :=
  mkHalf (h_id h) (h_uri h) (h_myPos h) (h_peerAckPos h) (h_migrate h) (h_prior h) (h_arrivedAt h)
    (h_buf h) (h_closed h) (h_splicer h) (h_done h) (h_peer h) pc (h_epc h) (h_out h) (h_open h).
Definition set_epc (e : expiry_pc) (h : half) : half :=
  mkHalf (h_id h) (h_uri h) (h_myPos h) (h_peerAckPos h) (h_migrate h) (h_prior h) (h_arrivedAt h)
    (h_buf h) (h_closed h) (h_splicer h) (h_done h) (h_peer h) (h_pc h) e (h_out h) (h_open h).
Definition set_buf (b : option nat) (h : half) : half :=
  mkHalf (h_id h) (h_uri h) (h_myPos h) (h_peerAckPos h) (h_migrate h) (h_prior h) (h_arrivedAt h)
    b (h_closed h) (h_splicer h) (h_done h) (h_peer h) (h_pc h) (h_epc h) (h_out h) (h_open h).
Definition set_closed (h : half) : half :=
  mkHalf (h_id h) (h_uri h) (h_myPos h) (h_peerAckPos h) (h_migrate h) (h_prior h) (h_arrivedAt h)
    (h_buf h) true (h_splicer h) (h_done h) (h_peer h) (h_pc h) (h_epc h) (h_out h) (h_open h).
Definition set_done (d : option bool) (h : half) : half :=
  mkHalf (h_id h) (h_uri h) (h_myPos h) (h_peerAckPos h) (h_migrate h) (h_prior h) (h_arrivedAt h)
    (h_buf h) (h_closed h) (h_splicer h) d (h_peer h) (h_pc h) (h_epc h) (h_out h) (h_open h).
Definition set_match (splicer : bool) (p : nat) (h : half) : half :=
  mkHalf (h_id h) (h_uri h) (h_myPos h) (h_peerAckPos h) (h_migrate h) (h_prior h) (h_arrivedAt h)
    (Some p) (h_closed h) splicer (h_done h) (Some p) (h_pc h) (h_epc h) (h_out h) (h_open h).
Definition write_out (f : Z * Z * Z) (h : half) : half :=
  mkHalf (h_id h) (h_uri h) (h_myPos h) (h_peerAckPos h) (h_migrate h) (h_prior h) (h_arrivedAt h)
    (h_buf h) (h_closed h) (h_splicer h) (h_done h) (h_peer h) (h_pc h) (h_epc h) (h_out h ++ [f]) (h_open h).
Definition close_stream (h : half) : half :=
  mkHalf (h_id h) (h_uri h) (h_myPos h) (h_peerAckPos h) (h_migrate h) (h_prior h) (h_arrivedAt h)
    (h_buf h) (h_closed h) (h_splicer h) (h_done h) (h_peer h) (h_pc h) (h_epc h) (h_out h) false.

Definition with_halves (hs : gmap nat half) (s : rstate) : rstate :=
  mkR (r_now s) (r_pending s) hs (r_next s) (r_pairs s) (r_migrated s).
Definition with_pairs (m : gmap Z streamPair) (s : rstate) : rstate :=
  mkR (r_now s) (r_pending s) (r_halves s) (r_next s) m (r_migrated s).

(** ** The matcher *)

(** [Submit] of the half [self], stored under the next number.  The second half
    takes the first out of the map, becomes the splicer, and both are sent each
    other; the first is parked with its [done] channel and its expiry goroutine. *)
Definition Submit (self : half) (s : rstate) : exec rstate :=
  let ref := r_next s in
  match r_pending s !! h_id self with
  | Some pr =>
      match r_halves s !! pr with
      | None => Panic "nil half in pending"
      | Some peer =>
          if h_closed peer then Panic "send on closed channel"
          else if decide (is_Some (h_buf peer)) then Blocked
          else Ret (mkR (r_now s) (delete (h_id self) (r_pending s))
                 (<[ref := set_match true pr self]> (<[pr := set_match false ref peer]> (r_halves s)))
                 (S ref) (r_pairs s) (r_migrated s))
      end
  | None =>
      Ret (mkR (r_now s) (<[h_id self := ref]> (r_pending s))
             (<[ref := set_epc EWait (set_done (Some false) self)]> (r_halves s))
             (S ref) (r_pairs s) (r_migrated s))
  end.

(** The half as its handler builds it; the positions go through [int64]. *)
Definition new_half (id : Z) (uri : string) (myPos ackPos : Z) (migrate prior : bool) (now : Time) : half :=
  mkHalf id uri (i64 myPos) (i64 ackPos) migrate prior now None false false None None HWait ENone [] true.

(** [handleResumeHalf] up to the receive on the channel. *)
Definition resume_arrives (id : Z) (uri : string) (myPos ackPos : Z) (s : rstate) : exec rstate :=
  Submit (new_half id uri myPos ackPos false false (r_now s)) s.

(** [handleMigrateToRelay] up to the receive on the channel. *)
Definition migrate_arrives (id : Z) (uri : string) (myPos ackPos : Z) (s : rstate) : exec rstate :=
  let '(prior, lru) := LookupMigrated id (r_now s) (r_migrated s) in
  let s := mkR (r_now s) (r_pending s) (r_halves s) (r_next s) (r_pairs s) lru in
  Submit (new_half id uri myPos ackPos true (bool_decide (is_Some prior)) (r_now s)) s.

(** The frame the relay echoes for a half: its counters, back as [uint64]. *)
Definition echo_of (id : Z) (src : half) : Z * Z * Z := (u64 id, u64 (h_myPos src), u64 (h_peerAckPos src)).

(** The handler of [r] has received its peer [p]: both handlers from there to
    their next blocking point. *)
Definition on_matched (r p : nat) (h g : half) (s : rstate) : rstate :=
  let lru := if h_migrate h && h_prior h then Discard (h_id h) (r_migrated s) else r_migrated s in
  let s := mkR (r_now s) (r_pending s) (r_halves s) (r_next s) (r_pairs s) lru in
  let h := set_buf None h in
  if negb (h_splicer h) then with_halves (<[r := set_pc HWaitDone h]> (r_halves s)) s
  else
    let '(h, g) :=
      if h_migrate h then (h, g)
      else (write_out (echo_of (h_id h) g) h, write_out (echo_of (h_id h) h) g) in
    with_pairs (replacePair (h_id h) (mkPair (h_uri h) (h_uri g)) (r_pairs s))
      (with_halves (<[r := set_pc (HSplice p) h]> (<[p := g]> (r_halves s))) s).

(** The end of [splicePair] run by [r] on its peer [p]. *)
Definition splice_end (r p : nat) (h g : half) (s : rstate) : exec rstate :=
  let h := close_stream h in
  let g := close_stream g in
  let s := with_pairs (forgetPair (h_id h) (r_pairs s)) s in
  match h_done g with
  | None => Panic "close of nil channel"
  | Some true => Panic "close of closed channel"
  | Some false =>
      Ret (with_halves (<[r := set_pc HReturned h]> (<[p := set_done (Some true) g]> (r_halves s))) s)
  end.

(** ** Events *)

Inductive revent :=
  | EvClock (now : Time)
  | EvResume (id : Z) (uri : string) (myPos ackPos : Z)
  | EvMigrateBack (id : Z) (uri : string) (myPos ackPos : Z)
  | EvHandlerRecv (r : nat)
  | EvExpiryRecv (r : nat)
  | EvTimer (r : nat)
  | EvSpliceEnd (r : nat)
  | EvDoneRecv (r : nat)
  | EvNote (m : migratedStream)
  | EvRecordPair (id : Z) (p : streamPair)
  | EvForgetPair (id : Z)
  | EvLookup (id : Z).      (** a tick of [enforceRequiredPromotion] *)

(** [None]: the goroutine cannot make that move now. *)
Definition rexec (s : rstate) (ev : revent) : option (exec rstate) :=
  match ev with
  | EvClock now =>
      if r_now s <=? now
      then Some (Ret (mkR now (r_pending s) (r_halves s) (r_next s) (r_pairs s) (r_migrated s)))
      else None
  | EvResume id uri myPos ackPos => Some (resume_arrives id uri myPos ackPos s)
  | EvMigrateBack id uri myPos ackPos => Some (migrate_arrives id uri myPos ackPos s)
  | EvHandlerRecv r =>
      h ← r_halves s !! r;
      match h_pc h with
      | HWait =>
          match h_buf h with
          | Some p => g ← r_halves s !! p; Some (Ret (on_matched r p h g s))
          | None =>
              if h_closed h
              then Some (Ret (with_halves (<[r := close_stream (set_pc HReturned h)]> (r_halves s)) s))
              else None
          end
      | _ => None
      end
  | EvExpiryRecv r =>
      h ← r_halves s !! r;
      match h_epc h with
      | EWait =>
          if bool_decide (is_Some (h_buf h)) || h_closed h
          then Some (Ret (with_halves (<[r := set_epc EExit (set_buf None h)]> (r_halves s)) s))
          else None
      | _ => None
      end
  | EvTimer r =>
      h ← r_halves s !! r;
      match h_epc h with
      | EWait =>
          if h_arrivedAt h + ResumeWindow <=? r_now s then
            if decide (r_pending s !! h_id h = Some r) then
              if h_closed h then Some (Panic "close of closed channel")
              else Some (Ret (mkR (r_now s) (delete (h_id h) (r_pending s))
                     (<[r := set_closed (set_epc EExit h)]> (r_halves s)) (r_next s) (r_pairs s)
                     (r_migrated s)))
            else Some (Ret (with_halves (<[r := set_epc EExit h]> (r_halves s)) s))
          else None
      | _ => None
      end
  | EvSpliceEnd r =>
      h ← r_halves s !! r;
      match h_pc h with
      | HSplice p => g ← r_halves s !! p; Some (splice_end r p h g s)
      | _ => None
      end
  | EvDoneRecv r =>
      h ← r_halves s !! r;
      match h_pc h, h_done h with
      | HWaitDone, Some true =>
          Some (Ret (with_halves (<[r := close_stream (set_pc HReturned h)]> (r_halves s)) s))
      | _, _ => None
      end
  | EvNote m =>
      Some (Ret (mkR (r_now s) (r_pending s) (r_halves s) (r_next s) (r_pairs s)
        (Note m (r_now s) (r_now s) (r_migrated s))))
  | EvRecordPair id p => Some (Ret (with_pairs (recordPair id p (r_pairs s)).2 s))
  | EvForgetPair id => Some (Ret (with_pairs (forgetPair id (r_pairs s)) s))
  | EvLookup id =>
      Some (Ret (mkR (r_now s) (r_pending s) (r_halves s) (r_next s) (r_pairs s)
        (LookupMigrated id (r_now s) (r_migrated s)).2))
  end.

Inductive rreach (t0 : Time) : rstate -> Prop :=
  | rr_init : rreach t0 (rinit t0)
  | rr_step s s' ev : rreach t0 s -> rexec s ev = Some (Ret s') -> rreach t0 s'.

(** A run of events, each possible in turn. *)
Fixpoint rrun (evs : list revent) (s : rstate) : option rstate :=
  match evs with
  | [] => Some s
  | ev :: evs' => match rexec s ev with Some (Ret s') => rrun evs' s' | _ => None end
  end.

(** ** The invariant *)

(** A matched half [h] at [r] and its peer [g] at [p]. *)
Definition linked (r : nat) (h : half) (p : nat) (g : half) : Prop :=
  p <> r /\ h_peer g = Some r /\ h_id g = h_id h /\ h_splicer g = negb (h_splicer h) /\
  h_closed h = false /\ (h_buf h = None \/ h_buf h = Some p) /\
  if h_splicer h
  then h_epc h = ENone /\ h_done h = None /\
    match h_pc h with
    | HWait => h_buf h = Some p /\ h_done g = Some false
    | HSplice q => q = p /\ h_buf h = None /\ h_done g = Some false
    | HReturned => h_buf h = None /\ h_done g = Some true
    | HWaitDone => False
    end
  else is_Some (h_done h) /\
    match h_pc h with
    | HWait => h_buf h = None -> h_epc h = EExit
    | HWaitDone => h_buf h = None
    | HReturned => h_buf h = None /\ h_done h = Some true
    | HSplice _ => False
    end.

Definition half_ok (s : rstate) (r : nat) (h : half) : Prop :=
  (h_closed h = true -> h_arrivedAt h + ResumeWindow <= r_now s) /\
  match h_peer h with
  | Some p => exists g, r_halves s !! p = Some g /\ linked r h p g
  | None =>
      h_buf h = None /\ h_splicer h = false /\
      (h_closed h = false -> r_pending s !! h_id h = Some r) /\
      (h_pc h = HWait \/ (h_pc h = HReturned /\ h_closed h = true))
  end.

(** A half waiting in the map. *)
Definition parked_ok (r : nat) (id : Z) (h : half) : Prop :=
  h_id h = id /\ h_pc h = HWait /\ h_buf h = None /\ h_closed h = false /\ h_splicer h = false /\
  h_done h = Some false /\ h_peer h = None /\ h_epc h = EWait.

Record rinv (s : rstate) : Prop := {
  ri_fresh : forall r, (r_next s <= r)%nat -> r_halves s !! r = None;
  ri_pending : forall id r, r_pending s !! id = Some r ->
    exists h, r_halves s !! r = Some h /\ parked_ok r id h;
  ri_half : forall r h, r_halves s !! r = Some h -> half_ok s r h
}.

(** The handler of [r] waits on a channel nothing will ever be sent on. *)
Definition starved (s : rstate) (r : nat) : Prop :=
  exists h, r_halves s !! r = Some h /\ h_pc h = HWait /\ h_buf h = None /\ h_closed h = false /\
    h_epc h = EExit /\ (r < r_next s)%nat /\
    forall id, r_pending s !! id <> Some r.

(** ** Preservation *)

Lemma rinv_tables s pairs lru : rinv s -> rinv (mkR (r_now s) (r_pending s) (r_halves s) (r_next s) pairs lru).
Proof. intros [? ? ?]. by split. Qed.

Lemma rinv_clock s now : rinv s -> r_now s <= now ->
  rinv (mkR now (r_pending s) (r_halves s) (r_next s) (r_pairs s) (r_migrated s)).
Proof.
  intros [Hf Hp Hh] Hle. split; [done..|]. intros r h Hr. destruct (Hh r h Hr) as [Hc Hrest].
  split; [|done]. simpl. intros ?. specialize (Hc ltac:(done)). lia.
Qed.

(** What a peer's invariant reads of a half. *)
Definition same_view (h h' : half) : Prop :=
  h_peer h' = h_peer h /\ h_id h' = h_id h /\ h_splicer h' = h_splicer h /\ h_done h' = h_done h.

Lemma linked_view r h p g g' : same_view g g' -> linked r h p g -> linked r h p g'.
Proof. intros (E1 & E2 & E3 & E4). unfold linked. by rewrite E1, E2, E3, E4. Qed.

Lemma linked_open r h p g : linked r h p g -> h_closed h = false.
Proof. unfold linked. tauto. Qed.

(** One goroutine changes its own half. *)
Lemma rinv_update s r h h' :
  rinv s -> r_halves s !! r = Some h -> same_view h h' ->
  (forall id, r_pending s !! id = Some r -> parked_ok r id h') ->
  half_ok s r h' -> rinv (with_halves (<[r := h']> (r_halves s)) s).
Proof.
  intros [Hf Hp Hh] Hr Hv Hpk Hok. split; simpl.
  - intros k Hk. rewrite lookup_insert_ne; [by apply Hf|]. intros <-. rewrite Hf in Hr; done.
  - intros id k Hid. insert_cases k r.
    + eauto.
    + eauto.
  - assert (Hkeep : forall k x, half_ok s k x -> half_ok (with_halves (<[r := h']> (r_halves s)) s) k x).
    { intros k x [Hc Hx]. split; [done|]. destruct (h_peer x) as [p|]; [|done].
      destruct Hx as (g & Hg & Hl). simpl. destruct (decide (p = r)) as [->|Hne].
      - exists h'. rewrite lookup_insert_eq. split; [done|]. apply (linked_view _ _ _ h); congruence.
      - exists g. by rewrite lookup_insert_ne. }
    intros k x. insert_cases k r.
    + intros [= <-]. auto.
    + auto.
Qed.

(** Two halves change together, each the other's peer afterwards. *)
Lemma rinv_pair s pend next pairs lru r h p g :
  rinv s -> h_peer h = Some p -> h_peer g = Some r -> linked r h p g -> linked p g r h ->
  (forall k x, k <> r -> k <> p -> r_halves s !! k = Some x -> h_peer x <> Some r /\ h_peer x <> Some p) ->
  (forall id k, pend !! id = Some k -> k <> r /\ k <> p /\ r_pending s !! id = Some k) ->
  (forall id k, k <> p -> r_pending s !! id = Some k -> pend !! id = Some k) ->
  (r < next)%nat -> (p < next)%nat -> (r_next s <= next)%nat ->
  rinv (mkR (r_now s) pend (<[r := h]> (<[p := g]> (r_halves s))) next pairs lru).
Proof.
  intros [Hf Hp Hh] Hph Hpg Hl1 Hl2 Hoth Hsub Hsup Hr Hpn Hn.
  assert (Hrp : p <> r) by apply Hl1. split; simpl.
  - intros k Hk. rewrite !lookup_insert_ne by lia. apply Hf. lia.
  - intros id k (Hkr & Hkp & Hid)%Hsub. rewrite !lookup_insert_ne by done. eauto.
  - intros k x. destruct (decide (k = r)) as [->|Hkr].
    { rewrite lookup_insert_eq. intros [= <-]. split; [by rewrite (linked_open _ _ _ _ Hl1)|].
      rewrite Hph. exists g. simpl. by rewrite lookup_insert_ne, lookup_insert_eq. }
    rewrite lookup_insert_ne by done. destruct (decide (k = p)) as [->|Hkp].
    { rewrite lookup_insert_eq. intros [= <-]. split; [by rewrite (linked_open _ _ _ _ Hl2)|].
      rewrite Hpg. exists h. simpl. by rewrite lookup_insert_eq. }
    rewrite lookup_insert_ne by done. intros Hx. destruct (Hh k x Hx) as [Hc Hx']. split; [done|].
    destruct (Hoth k x Hkr Hkp Hx) as [H1 H2]. destruct (h_peer x) as [q|].
    + destruct Hx' as (y & Hy & Hl). exists y. simpl. rewrite !lookup_insert_ne by congruence. done.
    + destruct Hx' as (? & ? & Hpend & ?). split_and!; auto.
Qed.

(** Nobody else is linked to a matched pair. *)
Lemma linked_exclusive s r h p g k x :
  rinv s -> r_halves s !! r = Some h -> h_peer h = Some p -> r_halves s !! p = Some g -> h_peer g = Some r ->
  k <> r -> k <> p -> r_halves s !! k = Some x -> h_peer x <> Some r /\ h_peer x <> Some p.
Proof.
  intros [_ _ Hh] Hr Hph Hp Hpg Hkr Hkp Hx. destruct (Hh k x Hx) as [_ Hok].
  split; intros E; rewrite E in Hok; destruct Hok as (y & Hy & Hl); simplify_eq; destruct Hl as (_ & E' & _); congruence.
Qed.

(** A half in the map has no peer; a matched one is not in the map. *)
Lemma matched_not_pending s r h p id :
  rinv s -> r_halves s !! r = Some h -> h_peer h = Some p -> r_pending s !! id <> Some r.
Proof.
  intros [_ Hp _] Hr Hph Hid. destruct (Hp id r Hid) as (x & Hx & Hpk). simplify_eq.
  destruct Hpk as (_ & _ & _ & _ & _ & _ & Hn & _). congruence.
Qed.

Lemma fresh_not_peer s k x : rinv s -> r_halves s !! k = Some x -> h_peer x <> Some (r_next s).
Proof.
  intros Hi Hx E. destruct (ri_half s Hi k x Hx) as [_ Hok]. rewrite E in Hok.
  destruct Hok as (g & Hg & _). by rewrite (ri_fresh s Hi) in Hg.
Qed.

Lemma Submit_match id uri mp ap mg pr s p g :
  let self := new_half id uri mp ap mg pr (r_now s) in
  rinv s -> r_pending s !! id = Some p -> r_halves s !! p = Some g ->
  rinv (mkR (r_now s) (delete id (r_pending s))
    (<[r_next s := set_match true p self]> (<[p := set_match false (r_next s) g]> (r_halves s)))
    (S (r_next s)) (r_pairs s) (r_migrated s)).
Proof.
  intros self Hi Hid Hg. destruct (ri_pending s Hi id p Hid) as (g' & Hg' & Hpk). simplify_eq.
  destruct Hpk as (Ei & Epc & Eb & Ec & Es & Ed & Ep & Ee).
  assert (Hpn : (p < r_next s)%nat).
  { destruct (decide (p < r_next s)%nat); [done|]. rewrite (ri_fresh s Hi) in Hg by lia. done. }
  apply rinv_pair; try done; try lia.
  - unfold linked; simpl. split_and!; auto. lia.
  - unfold linked; simpl. rewrite Epc, Ed. split_and!; eauto; done || lia.
  - intros k x Hkr Hkp Hx. split; [by apply (fresh_not_peer s k)|]. intros E.
    destruct (ri_half s Hi k x Hx) as [_ Hok]. rewrite E in Hok. destruct Hok as (y & Hy & Hl).
    simplify_eq. destruct Hl as (_ & Hl & _). congruence.
  - intros id' k [Hne Hk]%lookup_delete_Some.
    destruct (ri_pending s Hi id' k Hk) as (y & Hy & Hyk). split_and!; [|intros ->|done].
    + intros ->. rewrite (ri_fresh s Hi) in Hy; done.
    + simplify_eq. destruct Hyk. congruence.
  - intros id' k Hkp Hk. apply lookup_delete_Some. split; [|done]. intros ->. congruence.
Qed.

Lemma Submit_park id uri mp ap mg pr s :
  let self := new_half id uri mp ap mg pr (r_now s) in
  rinv s -> r_pending s !! id = None ->
  rinv (mkR (r_now s) (<[id := r_next s]> (r_pending s))
    (<[r_next s := set_epc EWait (set_done (Some false) self)]> (r_halves s))
    (S (r_next s)) (r_pairs s) (r_migrated s)).
Proof.
  intros self Hi Hid. split; simpl.
  - intros k Hk. rewrite lookup_insert_ne by lia. apply (ri_fresh s Hi). lia.
  - intros id' k. destruct (decide (id' = id)) as [->|Hne].
    + rewrite lookup_insert_eq. intros [= <-]. rewrite lookup_insert_eq.
      eexists. split; [done|]. unfold parked_ok; simpl. split_and!; done.
    + rewrite lookup_insert_ne by done. intros Hk.
      destruct (ri_pending s Hi id' k Hk) as (x & Hx & Hpk). exists x.
      rewrite lookup_insert_ne; [done|]. intros <-. rewrite (ri_fresh s Hi) in Hx; done.
  - intros k x. insert_cases k (r_next s).
    + intros [= <-]. unfold half_ok; simpl. rewrite lookup_insert_eq.
      split_and!; try done; auto.
    + intros Hx. destruct (ri_half s Hi k x Hx) as [Hc Hok].
      split; [done|]. pose proof (fresh_not_peer s k x Hi Hx) as Hnp. destruct (h_peer x) as [q|].
      * destruct Hok as (y & Hy & Hl). exists y. simpl. rewrite lookup_insert_ne; [done|congruence].
      * destruct Hok as (? & ? & Hpd & ?). split_and!; auto. simpl. intros Ho.
        rewrite lookup_insert_ne; [auto|]. intros E. rewrite E, Hpd in Hid; done.
Qed.

Lemma Submit_ok id uri mp ap mg pr s :
  rinv s -> exists s', Submit (new_half id uri mp ap mg pr (r_now s)) s = Ret s' /\ rinv s'.
Proof.
  intros Hi. unfold Submit. cbn [h_id new_half]. destruct (r_pending s !! id) as [p|] eqn:Hid.
  - destruct (ri_pending s Hi id p Hid) as (g & Hg & Hpk). rewrite Hg.
    destruct Hpk as (_ & _ & Eb & Ec & _). rewrite Ec, Eb. case_decide as Hs; [by destruct Hs|].
    eexists. split; [done|]. by apply Submit_match.
  - eexists. split; [done|]. by apply Submit_park.
Qed.

(** The matched half of [r], opened up. *)
Lemma matched_half s r h p :
  rinv s -> r_halves s !! r = Some h -> h_buf h = Some p \/ h_peer h = Some p ->
  exists g, h_peer h = Some p /\ r_halves s !! p = Some g /\ linked r h p g /\ linked p g r h /\
    (r < r_next s)%nat /\ (p < r_next s)%nat.
Proof.
  intros Hi Hr Hb. assert (Hlt : forall k x, r_halves s !! k = Some x -> (k < r_next s)%nat).
  { intros k x Hx. destruct (decide (k < r_next s)%nat); [done|]. rewrite (ri_fresh s Hi) in Hx by lia. done. }
  destruct (ri_half s Hi r h Hr) as [_ Hok]. destruct (h_peer h) as [q|] eqn:Ep.
  2: { destruct Hok; naive_solver. }
  destruct Hok as (g & Hg & Hl). assert (q = p) as ->.
  { destruct Hl as (_ & _ & _ & _ & _ & Hq & _). naive_solver. }
  exists g. split_and!; eauto. destruct (ri_half s Hi p g Hg) as [_ Hok]. pose proof Hl as (_ & Epg & _).
  rewrite Epg in Hok. destruct Hok as (h' & ? & ?). by simplify_eq.
Qed.

(** Two linked halves change without becoming visible to anyone else. *)
Lemma rinv_pair_update s r h p g h' g' :
  rinv s -> r_halves s !! r = Some h -> h_peer h = Some p -> r_halves s !! p = Some g -> h_peer g = Some r ->
  h_peer h' = Some p -> h_peer g' = Some r -> linked r h' p g' -> linked p g' r h' ->
  rinv (with_halves (<[r := h']> (<[p := g']> (r_halves s))) s).
Proof.
  intros Hi Hr Ep Hg Epg Ep' Epg' L1 L2.
  destruct (matched_half s r h p Hi Hr (or_intror Ep)) as (? & _ & _ & _ & _ & ? & ?).
  apply rinv_pair; try done.
  - intros k z Hkr Hkp Hz. by apply (linked_exclusive s r h p g k z).
  - intros id k Hk. split_and!; [intros ->| intros ->|done].
    + by apply (matched_not_pending s r h p id).
    + by apply (matched_not_pending s p g r id).
Qed.

Lemma on_matched_ok s r h p g :
  rinv s -> r_halves s !! r = Some h -> h_pc h = HWait -> h_buf h = Some p -> r_halves s !! p = Some g ->
  rinv (on_matched r p h g s).
Proof.
  intros Hi Hr Epc Eb Hg.
  destruct (matched_half s r h p Hi Hr (or_introl Eb)) as (g' & Ep & Hg' & L1 & L2 & _). simplify_eq.
  pose proof L1 as (_ & Epg & _). unfold on_matched.
  destruct (h_splicer h) eqn:Es; cbn [negb set_buf h_splicer h_migrate]; rewrite Es; cbn [negb].
  - destruct (h_migrate h); cbv zeta beta iota; apply (rinv_tables (with_halves _ s));
      apply (rinv_pair_update s r h p g); try done; unfold linked in *; simpl in *;
      rewrite Es, Epc in *; destruct L1 as (?&?&?&E&?); rewrite E in *; simpl in *; tauto.
  - apply (rinv_tables (with_halves _ s)). apply (rinv_update s r h); try done.
    + intros id Hid. by destruct (matched_not_pending s r h p id).
    + unfold half_ok. simpl. rewrite Ep. split; [by destruct (ri_half s Hi r h Hr)|]. exists g.
      split; [done|]. unfold linked in *; simpl in *; rewrite Es, Epc in *; tauto.
Qed.

Lemma splice_end_ok s r h p g :
  rinv s -> r_halves s !! r = Some h -> h_pc h = HSplice p -> r_halves s !! p = Some g ->
  exists s', splice_end r p h g s = Ret s' /\ rinv s'.
Proof.
  intros Hi Hr Epc Hg. destruct (h_peer h) as [q|] eqn:Ep.
  2: { destruct (ri_half s Hi r h Hr) as [_ Hok]. rewrite Ep in Hok. destruct Hok as (_ & _ & _ & [E|[E _]]); congruence. }
  destruct (matched_half s r h q Hi Hr (or_intror Ep)) as (g' & _ & Hg' & L1 & L2 & _).
  pose proof L1 as (_ & Epg & _). unfold linked in L1, L2. rewrite Epc in *.
  destruct (h_splicer h) eqn:Es; [|tauto]. destruct L1 as (L1a & L1b & L1c & L1d & L1e & L1f & L1g & L1h & Eq & L1i & Ed).
  subst q; simplify_eq. unfold splice_end. cbn [close_stream h_done h_id]. rewrite Ed. eexists. split; [done|].
  apply (rinv_tables (with_halves _ s)). apply (rinv_pair_update s r h p g); try done;
    unfold linked; simpl; rewrite ?Es, ?L1d in *; simpl in *; split_and!; try tauto; eauto.
  destruct (h_pc g); tauto.
Qed.

Lemma timer_fires s r h out :
  rinv s -> r_halves s !! r = Some h -> h_arrivedAt h + ResumeWindow <= r_now s ->
  r_pending s !! h_id h = Some r ->
  (if h_closed h then Some (Panic "close of closed channel")
   else Some (Ret (mkR (r_now s) (delete (h_id h) (r_pending s))
     (<[r := set_closed (set_epc EExit h)]> (r_halves s)) (r_next s) (r_pairs s) (r_migrated s)))) = Some out ->
  exists s', out = Ret s' /\ rinv s'.
Proof.
  intros Hi Hr Ht Hid. destruct (ri_pending s Hi _ _ Hid) as (h' & ? & Hpk). simplify_eq.
  destruct Hpk as (_ & Epc & Eb & Ec & Es & Ed & Ep & Ee). rewrite Ec. intros [= <-].
  eexists. split; [done|]. split; simpl.
  - intros k Hk. rewrite lookup_insert_ne; [by apply (ri_fresh s Hi)|]. intros <-.
    rewrite (ri_fresh s Hi) in Hr; done.
  - intros id k [Hne Hk]%lookup_delete_Some. destruct (ri_pending s Hi id k Hk) as (x & Hx & Hpk).
    exists x. rewrite lookup_insert_ne; [done|]. intros <-. simplify_eq. by destruct Hpk.
  - intros k x. insert_cases k r.
    + intros [= <-]. unfold half_ok; simpl. rewrite Ep. split_and!; auto; done.
    + intros Hx. destruct (ri_half s Hi k x Hx) as [Hc Hok].
      split; [done|]. destruct (h_peer x) as [q|].
      * destruct Hok as (y & Hy & Hl). exists y. simpl. rewrite lookup_insert_ne; [done|].
        intros <-. simplify_eq. destruct Hl as (_ & Hl & _). congruence.
      * destruct Hok as (? & ? & Hpd & ?). split_and!; auto. simpl. intros Ho.
        apply lookup_delete_Some. split; [|auto]. intros E. rewrite E, Hpd in Hid by done. congruence.
Qed.

Lemma timer_late s r h :
  rinv s -> r_halves s !! r = Some h -> r_pending s !! h_id h <> Some r -> h_epc h = EWait ->
  rinv (with_halves (<[r := set_epc EExit h]> (r_halves s)) s).
Proof.
  intros Hi Hr Hid Ee. apply (rinv_update s r h); try done.
  - intros id Hid'. destruct (ri_pending s Hi id r Hid') as (x & ? & (E&_)). simplify_eq.
  - destruct (ri_half s Hi r h Hr) as [Hc Hok]. split; [done|]. simpl. destruct (h_peer h); [|tauto].
    destruct Hok as (g & Hg & Hl). exists g. split; [done|]. unfold linked in *; simpl.
    destruct (h_splicer h); [|destruct (h_pc h); tauto]. destruct Hl as (_&_&_&_&_&_&E&_). congruence.
Qed.

Lemma done_received s r h :
  rinv s -> r_halves s !! r = Some h -> h_pc h = HWaitDone -> h_done h = Some true ->
  rinv (with_halves (<[r := close_stream (set_pc HReturned h)]> (r_halves s)) s).
Proof.
  intros Hi Hr Epc Ed. apply (rinv_update s r h); try done.
  - intros id Hid'. destruct (ri_pending s Hi id r Hid') as (x & ? & (_&E&_)). congruence.
  - destruct (ri_half s Hi r h Hr) as [Hc Hok]. split; [done|]. simpl. destruct (h_peer h).
    + destruct Hok as (g & Hg & Hl). exists g. split; [done|]. unfold linked in *; simpl.
      rewrite Epc in Hl. destruct (h_splicer h); tauto.
    + rewrite Epc in Hok. destruct Hok as (_&_&_&[|[]]); congruence.
Qed.

(** Every event a reachable state allows returns, and keeps the invariant. *)
Lemma rexec_ok s ev out : rinv s -> rexec s ev = Some out -> exists s', out = Ret s' /\ rinv s'.
Proof.
  intros Hi. destruct ev; simpl.
  - destruct (Z.leb_spec (r_now s) now); [|done]. intros [= <-]. eexists. split; [done|]. by apply rinv_clock.
  - intros [= <-]. apply (Submit_ok id uri myPos ackPos false false s Hi).
  - intros [= <-]. unfold migrate_arrives. destruct (LookupMigrated _ _ _) as [prior lru].
    apply (Submit_ok id uri myPos ackPos true (bool_decide (is_Some prior)) (mkR _ _ _ _ _ lru)).
    by apply rinv_tables.
  - destruct (r_halves s !! r) as [h|] eqn:Hr; simpl; [|done]. destruct (h_pc h) eqn:Epc; try done.
    destruct (h_buf h) as [p|] eqn:Eb.
    + destruct (r_halves s !! p) as [g|] eqn:Hg; simpl; [|done]. intros [= <-].
      eexists. split; [done|]. by apply on_matched_ok.
    + destruct (h_closed h) eqn:Ec; [|done]. intros [= <-]. eexists. split; [done|].
      destruct (ri_half s Hi r h Hr) as [Hc Hok]. destruct (h_peer h) eqn:Ep.
      { destruct Hok as (g & _ & Hl%linked_open). congruence. }
      apply (rinv_update s r h); try done.
      * intros id Hid. destruct (ri_pending s Hi id r Hid) as (x & ? & (_&_&_&E&_)). simplify_eq; congruence.
      * split; [done|]. simpl. rewrite Ep. split_and!; [done|tauto|congruence|auto].
  - destruct (r_halves s !! r) as [h|] eqn:Hr; simpl; [|done]. destruct (h_epc h) eqn:Ee; try done.
    case_match eqn:Hb; [|done]. intros [= <-]. eexists. split; [done|].
    destruct (ri_half s Hi r h Hr) as [Hc Hok]. apply (rinv_update s r h); try done.
    + intros id Hid. destruct (ri_pending s Hi id r Hid) as (x & ? & (_&_&Ex&E&_)). simplify_eq.
      rewrite Ex, E in Hb. done.
    + split; [done|]. simpl. destruct (h_peer h); [|tauto]. destruct Hok as (g & Hg & Hl). exists g.
      split; [done|]. unfold linked in *; simpl. destruct (h_splicer h); [|destruct (h_pc h); tauto].
      destruct Hl as (_&_&_&_&_&_&E&_). congruence.
  - destruct (r_halves s !! r) as [h|] eqn:Hr; simpl; [|done]. destruct (h_epc h) eqn:Ee; try done.
    destruct (Z.leb_spec (h_arrivedAt h + ResumeWindow) (r_now s)) as [Ht|]; [|done].
    case_decide as Hid.
    + by apply timer_fires.
    + intros [= <-]. eexists. split; [done|]. by apply timer_late.
  - destruct (r_halves s !! r) as [h|] eqn:Hr; simpl; [|done]. destruct (h_pc h) eqn:Epc; try done.
    destruct (r_halves s !! peer) as [g|] eqn:Hg; simpl; [|done]. intros [= <-]. by apply splice_end_ok.
  - destruct (r_halves s !! r) as [h|] eqn:Hr; simpl; [|done]. destruct (h_pc h) eqn:Epc; try done.
    destruct (h_done h) as [[]|] eqn:Ed; try done. intros [= <-]. eexists. split; [done|].
    by apply done_received.
  - intros [= <-]. eexists. split; [done|]. by apply rinv_tables.
  - intros [= <-]. eexists. split; [done|]. by apply rinv_tables.
  - intros [= <-]. eexists. split; [done|]. by apply rinv_tables.
  - intros [= <-]. eexists. split; [done|]. by apply rinv_tables.
Qed.

(** A half, once submitted, stays and keeps its stream and its agent. *)
Definition halves_kept (s s' : rstate) : Prop :=
  forall r h, r_halves s !! r = Some h ->
  exists h', r_halves s' !! r = Some h' /\ h_id h' = h_id h /\ h_uri h' = h_uri h.

#[export] Instance halves_kept_preorder : PreOrder halves_kept.
Proof.
  split; [by intros s r h Hr; exists h|]. intros s1 s2 s3 H12 H23 r h Hr.
  destruct (H12 r h Hr) as (h2 & Hr2 & ? & ?). destruct (H23 r h2 Hr2) as (h3 & ? & ? & ?).
  exists h3. split_and!; congruence.
Qed.

Lemma halves_kept_insert s s' k h h' :
  r_halves s' = <[k := h']> (r_halves s) -> r_halves s !! k = Some h -> h_id h' = h_id h -> h_uri h' = h_uri h ->
  halves_kept s s'.
Proof.
  intros E Hk E1 E2 r x Hr. rewrite E. insert_cases r k; [|eauto]. simplify_eq. eauto.
Qed.

Lemma halves_kept_insert2 s s' k h h' p g g' :
  r_halves s' = <[k := h']> (<[p := g']> (r_halves s)) -> r_halves s !! k = Some h -> r_halves s !! p = Some g ->
  h_id h' = h_id h -> h_uri h' = h_uri h -> h_id g' = h_id g -> h_uri g' = h_uri g -> halves_kept s s'.
Proof.
  intros E Hk Hp E1 E2 E3 E4 r x Hr. rewrite E. insert_cases r k; [simplify_eq; eauto|].
  insert_cases r p; [simplify_eq; eauto|eauto].
Qed.

Lemma Submit_kept self s s' : rinv s -> Submit self s = Ret s' -> halves_kept s s'.
Proof.
  intros Hi. unfold Submit. destruct (r_pending s !! h_id self) as [pr|].
  - destruct (r_halves s !! pr) as [peer|] eqn:Hp; [|done]. destruct (h_closed peer); [done|].
    case_decide; [done|]. intros [= <-] r x Hr. simpl.
    rewrite lookup_insert_ne by (intros <-; by rewrite (ri_fresh s Hi) in Hr).
    insert_cases r pr; [simplify_eq; eauto|eauto].
  - intros [= <-] r x Hr. simpl. rewrite lookup_insert_ne by (intros <-; by rewrite (ri_fresh s Hi) in Hr). eauto.
Qed.

Lemma halves_kept_same s s' : r_halves s' = r_halves s -> halves_kept s s'.
Proof. intros E r h Hr. rewrite E. eauto. Qed.

(** Only the clock moves the clock. *)
Lemma rexec_now s ev s' : (forall now, ev <> EvClock now) -> rexec s ev = Some (Ret s') -> r_now s' = r_now s.
Proof.
  intros Hev. destruct ev; try (by exfalso; eapply Hev); simpl;
    unfold resume_arrives, migrate_arrives, Submit, on_matched, splice_end; intros Hx;
    repeat (simplify_option_eq; try case_match); by simplify_eq.
Qed.

Lemma rexec_clock s ev s' : rexec s ev = Some (Ret s') -> r_now s <= r_now s'.
Proof.
  intros Hx. destruct ev;
    [|assert (r_now s' = r_now s) as -> by (eapply rexec_now; [|exact Hx]; intros; discriminate); lia..].
  simpl in Hx. destruct (Z.leb_spec (r_now s) now); by simplify_eq.
Qed.

(** The moves that are no stream handler's: the clock, the expiry goroutines, and
    the table of migrated streams. *)
Definition background (ev : revent) : bool :=
  match ev with EvClock _ | EvExpiryRecv _ | EvTimer _ | EvNote _ | EvLookup _ => true | _ => false end.

Lemma background_pairs s ev s' : background ev = true -> rexec s ev = Some (Ret s') -> r_pairs s' = r_pairs s.
Proof.
  destruct ev; try done; intros _; simpl; intros Hx; repeat (simplify_option_eq; try case_match); by simplify_eq.
Qed.

Lemma rexec_kept s ev s' : rinv s -> rexec s ev = Some (Ret s') -> halves_kept s s'.
Proof.
  intros Hi. destruct ev; simpl.
  - destruct (_ <=? _); [|done]. intros [= <-]. by apply halves_kept_same.
  - intros [= E]. by eapply Submit_kept.
  - unfold migrate_arrives. destruct (LookupMigrated _ _ _) as [prior lru]. intros [= E].
    apply Submit_kept in E; [|by apply rinv_tables]. exact E.
  - destruct (r_halves s !! r) as [h|] eqn:Hr; simpl; [|done]. destruct (h_pc h); try done.
    destruct (h_buf h) as [p|].
    + destruct (r_halves s !! p) as [g|] eqn:Hg; simpl; [|done]. intros [= <-]. unfold on_matched. cbv zeta.
      destruct (negb _); [by eapply halves_kept_insert|].
      destruct (h_migrate _); by eapply halves_kept_insert2.
    + destruct (h_closed h); [|done]. intros [= <-]. by eapply halves_kept_insert.
  - destruct (r_halves s !! r) as [h|] eqn:Hr; simpl; [|done]. destruct (h_epc h); try done.
    destruct (_ || _); [|done]. intros [= <-]. by eapply halves_kept_insert.
  - destruct (r_halves s !! r) as [h|] eqn:Hr; simpl; [|done]. destruct (h_epc h); try done.
    destruct (_ <=? _); [|done]. case_decide; [destruct (h_closed h); [done|]|];
      intros [= <-]; by eapply halves_kept_insert.
  - destruct (r_halves s !! r) as [h|] eqn:Hr; simpl; [|done]. destruct (h_pc h); try done.
    destruct (r_halves s !! peer) as [g|] eqn:Hg; simpl; [|done]. unfold splice_end.
    destruct (h_done _) as [[]|]; try done. intros [= <-]. by eapply halves_kept_insert2.
  - destruct (r_halves s !! r) as [h|] eqn:Hr; simpl; [|done].
    destruct (h_pc h), (h_done h) as [[]|]; try done. intros [= <-]. by eapply halves_kept_insert.
  - intros [= <-]. by apply halves_kept_same.
  - intros [= <-]. by apply halves_kept_same.
  - intros [= <-]. by apply halves_kept_same.
  - intros [= <-]. by apply halves_kept_same.
Qed.

(** What the handlers' events do to the pair table. *)
Lemma Submit_pairs self s s' : Submit self s = Ret s' -> r_pairs s' = r_pairs s.
Proof.
  unfold Submit. repeat case_match; try done; by intros [= <-].
Qed.

Lemma Submit_new self s s' : Submit self s = Ret s' ->
  exists h, r_halves s' !! r_next s = Some h /\ h_id h = h_id self /\ h_uri h = h_uri self.
Proof.
  unfold Submit. repeat case_match; try done; intros [= <-]; simpl; rewrite lookup_insert_eq; eauto.
Qed.

(** A submission leaves the table alone and creates the half it was given. *)
Lemma arrives_spec s ev id uri mp ap s' :
  ev = EvResume id uri mp ap \/ ev = EvMigrateBack id uri mp ap -> rexec s ev = Some (Ret s') ->
  r_pairs s' = r_pairs s /\ exists h, r_halves s' !! r_next s = Some h /\ h_id h = id /\ h_uri h = uri.
Proof.
  intros [->| ->]; simpl; intros [= E].
  - split; [by apply (Submit_pairs _ _ _ E)|apply (Submit_new _ _ _ E)].
  - unfold migrate_arrives in E. destruct (LookupMigrated _ _ _) as [prior lru].
    split; [by apply (Submit_pairs _ _ _ E)|apply (Submit_new _ _ _ E)].
Qed.

(** The handler that comes out of its receive as the splicer has entered the pair. *)
Lemma recv_spec s r s' : rinv s -> rexec s (EvHandlerRecv r) = Some (Ret s') ->
  exists h, r_halves s' !! r = Some h /\
    match h_pc h with
    | HSplice p => exists g, r_halves s' !! p = Some g /\
        r_pairs s' = replacePair (h_id h) (mkPair (h_uri h) (h_uri g)) (r_pairs s)
    | _ => r_pairs s' = r_pairs s
    end.
Proof.
  intros Hi. simpl. destruct (r_halves s !! r) as [h|] eqn:Hr; simpl; [|done].
  destruct (h_pc h) eqn:Epc; try done. destruct (h_buf h) as [p|] eqn:Eb.
  - destruct (r_halves s !! p) as [g|] eqn:Hg; simpl; [|done]. intros [= <-].
    assert (Hne : p <> r).
    { destruct (matched_half s r h p Hi Hr (or_introl Eb)) as (g' & _ & _ & Hl & _). unfold linked in Hl. tauto. }
    unfold on_matched. cbv zeta. destruct (negb _) eqn:Hs; simpl.
    + rewrite lookup_insert_eq. eexists. split; [done|]. done.
    + destruct (h_migrate _); simpl; rewrite lookup_insert_eq; eexists; (split; [done|]); simpl;
        rewrite lookup_insert_ne, lookup_insert_eq by done; eauto.
  - destruct (h_closed h); [|done]. intros [= <-]. simpl. rewrite lookup_insert_eq. eexists. split; [done|]. done.
Qed.

Lemma splice_end_spec s r s' : rexec s (EvSpliceEnd r) = Some (Ret s') ->
  exists h, r_halves s !! r = Some h /\ r_pairs s' = forgetPair (h_id h) (r_pairs s).
Proof.
  simpl. destruct (r_halves s !! r) as [h|]; simpl; [|done]. destruct (h_pc h); try done.
  destruct (r_halves s !! peer) as [g|]; simpl; [|done]. unfold splice_end.
  destruct (h_done _) as [[]|]; try done. intros [= <-]. eauto.
Qed.

Lemma done_recv_pairs s r s' : rexec s (EvDoneRecv r) = Some (Ret s') -> r_pairs s' = r_pairs s.
Proof.
  simpl. destruct (r_halves s !! r) as [h|]; simpl; [|done].
  destruct (h_pc h), (h_done h) as [[]|]; try done. by intros [= <-].
Qed.

Lemma rinv_init t0 : rinv (rinit t0).
Proof. split; simpl; [done| |]; intros *; rewrite lookup_empty; done. Qed.

Lemma rreach_inv t0 s : rreach t0 s -> rinv s.
Proof.
  induction 1 as [|s s' ev _ IH Hev]; [apply rinv_init|].
  destruct (rexec_ok s ev _ IH Hev) as (? & [= <-] & ?). done.
Qed.

Lemma rrun_reach t0 evs s s' : rreach t0 s -> rrun evs s = Some s' -> rreach t0 s'.
Proof.
  revert s. induction evs as [|ev evs IH]; simpl; intros s Hs; [by intros [= <-]|].
  destruct (rexec s ev) as [[s1| | |]|] eqn:E; try done. apply IH. by eapply rr_step.
Qed.

Lemma rrun_app evs1 evs2 s s1 : rrun evs1 s = Some s1 -> rrun (evs1 ++ evs2) s = rrun evs2 s1.
Proof.
  revert s. induction evs1 as [|ev evs1 IH]; simpl; intros s; [by intros [= ->]|].
  destruct (rexec s ev) as [[s2| | |]|]; try done. apply IH.
Qed.

(** A starved handler stays starved. *)
Lemma Submit_starved self s s' r : starved s r -> Submit self s = Ret s' -> starved s' r.
Proof.
  intros (h & Hr & Hpc & Hb & Hc & He & Hlt & Hnp). unfold Submit.
  destruct (r_pending s !! h_id self) as [p|] eqn:Hp.
  - destruct (r_halves s !! p) as [g|]; [|done]. destruct (h_closed g); [done|]. case_decide; [done|].
    intros [= <-]. exists h. simpl.
    rewrite lookup_insert_ne by lia. rewrite lookup_insert_ne by (intros ->; by eapply Hnp).
    split_and!; auto. intros id [_ ?]%lookup_delete_Some. by eapply Hnp.
  - intros [= <-]. exists h. simpl. rewrite lookup_insert_ne by lia. split_and!; auto.
    intros id. insert_cases id (h_id self).
    + intros [= ?]. lia.
    + apply Hnp.
Qed.

(** Any other half may change, and [r]'s own frames, stream and [done]. *)
Lemma starved_update s r k x :
  starved s r ->
  (forall h, k = r -> r_halves s !! r = Some h ->
     h_pc x = h_pc h /\ h_buf x = h_buf h /\ h_closed x = h_closed h /\ h_epc x = h_epc h) ->
  starved (with_halves (<[k := x]> (r_halves s)) s) r.
Proof.
  intros (h & Hr & Hpc & Hb & Hc & He & Hlt & Hnp) Hx. destruct (decide (k = r)) as [->|Hne].
  - destruct (Hx h eq_refl Hr) as (E1 & E2 & E3 & E4). exists x. simpl. rewrite lookup_insert_eq.
    split_and!; congruence || done.
  - exists h. simpl. rewrite lookup_insert_ne by done. split_and!; done.
Qed.

Lemma starved_same s s' r :
  r_pending s' = r_pending s -> r_halves s' = r_halves s -> r_next s' = r_next s -> starved s r -> starved s' r.
Proof. unfold starved. by intros -> -> ->. Qed.

Lemma on_matched_starved s r k p x g :
  starved s r -> k <> r -> r_halves s !! p = Some g -> starved (on_matched k p x g s) r.
Proof.
  intros Hs Hne Hg. unfold on_matched. cbv zeta.
  destruct (negb _); [by apply starved_update|].
  assert (Hgo : forall x' g', h_pc g' = h_pc g -> h_buf g' = h_buf g -> h_closed g' = h_closed g ->
    h_epc g' = h_epc g -> starved (with_halves (<[k := x']> (<[p := g']> (r_halves s))) s) r).
  { intros x' g' E1 E2 E3 E4. 
    eapply starved_same; cycle -1; [apply (starved_update (with_halves (<[p := g']> (r_halves s)) s) r k x')|done..];
      [|done].
    apply starved_update; [done|]. intros ? -> ?. by simplify_eq. }
  destruct (h_migrate _); (eapply starved_same; [..|apply Hgo]; reflexivity).
Qed.

Lemma starved_forever s ev s' r : starved s r -> rexec s ev = Some (Ret s') -> starved s' r.
Proof.
  intros Hs. pose proof Hs as (h & Hr & Hpc & Hb & Hc & He & Hlt & Hnp). destruct ev; simpl.
  - destruct (_ <=? _); [|done]. by intros [= <-].
  - intros [= E]. by apply (Submit_starved _ _ _ _ Hs E).
  - unfold migrate_arrives. destruct (LookupMigrated _ _ _) as [prior lru]. intros [= E].
    eapply Submit_starved; [|exact E]. by apply (starved_same s).
  - destruct (r_halves s !! r0) as [x|] eqn:Hx; simpl; [|done]. destruct (h_pc x) eqn:Ex; try done.
    assert (Hne : r0 = r -> h_buf x = None /\ h_closed x = false) by (intros ->; by simplify_eq).
    destruct (h_buf x) as [p|] eqn:Eb.
    + destruct (r_halves s !! p) as [g|] eqn:Hg; simpl; [|done]. intros [= <-].
      apply on_matched_starved; try done. intros E; by destruct (Hne E).
    + destruct (h_closed x); [|done]. intros [= <-]. apply starved_update; [done|].
      intros ? E. by destruct (Hne E).
  - destruct (r_halves s !! r0) as [x|] eqn:Hx; simpl; [|done]. destruct (h_epc x) eqn:Ex; try done.
    destruct (_ || _); [|done]. intros [= <-]. apply starved_update; [done|]. intros ? -> ?. congruence.
  - destruct (r_halves s !! r0) as [x|] eqn:Hx; simpl; [|done]. destruct (h_epc x) eqn:Ex; try done.
    destruct (_ <=? _); [|done]. case_decide as Hd.
    + destruct (h_closed x); [done|]. intros [= <-]. exists h. simpl.
      rewrite lookup_insert_ne by (intros ->; by eapply Hnp). split_and!; try done.
      intros id [_ ?]%lookup_delete_Some. by eapply Hnp.
    + intros [= <-]. apply starved_update; [done|]. intros ? -> ?. congruence.
  - destruct (r_halves s !! r0) as [x|] eqn:Hx; simpl; [|done]. destruct (h_pc x) eqn:Ex; try done.
    destruct (r_halves s !! peer) as [g|] eqn:Hg; simpl; [|done]. unfold splice_end.
    destruct (h_done _) as [[]|]; try done. intros [= <-].
    destruct (decide (r0 = r)) as [->|Hne]; [congruence|]. 
    eapply starved_same; cycle -1;
      [apply (starved_update (with_halves (<[peer := set_done (Some true) (close_stream g)]> (r_halves s)) s) r r0
        (set_pc HReturned (close_stream x)))|done..]; [|done].
    apply starved_update; [done|]. intros ? -> ?. by simplify_eq.
  - destruct (r_halves s !! r0) as [x|] eqn:Hx; simpl; [|done].
    destruct (h_pc x) eqn:Ex, (h_done x) as [[]|]; try done.
    intros [= <-]. apply starved_update; [done|]. intros ? -> ?. congruence.
  - by intros [= <-].
  - by intros [= <-].
  - by intros [= <-].
  - by intros [= <-].
Qed.

Lemma starved_run evs s s' r : starved s r -> rrun evs s = Some s' -> starved s' r.
Proof.
  revert s. induction evs as [|ev evs IH]; intros s Hst; simpl; [by intros [= <-]|].
  destruct (rexec s ev) as [[s1| | |]|] eqn:E; try done. apply IH. by apply (starved_forever s ev).
Qed.

(** From [HWaitDone] to the return of the handler. *)
Lemma release_done s r h :
  r_halves s !! r = Some h -> h_pc h = HWaitDone -> h_done h = Some true ->
  exists s' h', rrun [EvDoneRecv r] s = Some s' /\ r_halves s' !! r = Some h' /\ h_pc h' = HReturned.
Proof.
  intros Hr Epc Ed. simpl. rewrite Hr. simpl. rewrite Epc, Ed. eexists _, _. split; [done|]. simpl.
  by rewrite lookup_insert_eq.
Qed.

Lemma release_splice s r h p g :
  r_halves s !! r = Some h -> h_pc h = HWaitDone -> h_done h = Some false ->
  r_halves s !! p = Some g -> h_pc g = HSplice r -> p <> r ->
  exists s' h', rrun [EvSpliceEnd p; EvDoneRecv r] s = Some s' /\ r_halves s' !! r = Some h' /\ h_pc h' = HReturned.
Proof.
  intros Hr Epc Ed Hp Epg Hne. cbn [rrun rexec]. rewrite Hp. simpl. rewrite Epg, Hr. simpl.
  unfold splice_end. cbn [close_stream h_done]. rewrite Ed.
  apply (release_done (with_halves _ _) r (set_done (Some true) (close_stream h))); try done.
  simpl. by rewrite lookup_insert_ne, lookup_insert_eq.
Qed.

Lemma release_match s r h p g :
  r_halves s !! r = Some h -> h_pc h = HWaitDone -> h_done h = Some false ->
  r_halves s !! p = Some g -> h_pc g = HWait -> h_buf g = Some r -> h_splicer g = true -> p <> r ->
  exists s' h', rrun [EvHandlerRecv p; EvSpliceEnd p; EvDoneRecv r] s = Some s' /\
    r_halves s' !! r = Some h' /\ h_pc h' = HReturned.
Proof.
  intros Hr Epc Ed Hp Epg Eb Es Hne.
  change (rrun [EvHandlerRecv p; EvSpliceEnd p; EvDoneRecv r] s) with
    (match rexec s (EvHandlerRecv p) with
     | Some (Ret s') => rrun [EvSpliceEnd p; EvDoneRecv r] s' | _ => None end).
  cbn [rexec]. rewrite Hp. simpl. rewrite Epg, Eb, Hr. simpl. unfold on_matched.
  cbn [set_buf h_splicer h_migrate]. rewrite Es. cbn [negb]. cbv zeta.
  destruct (h_migrate g);
    (eapply release_splice;
      [simpl; rewrite lookup_insert_ne, lookup_insert_eq by done; done|done|done
      |simpl; rewrite lookup_insert_eq; done|done|done]).
Qed.

(** ** Properties *)

(** C15: the matcher never panics and its sends never block.  In every state the
    goroutines can reach, any move one of them can make completes: no send on or
    close of a closed channel, no close of a nil [done], no full one-slot
    channel inside [Submit]. *)
Theorem resume_safe t0 s ev out :
  rreach t0 s -> rexec s ev = Some out -> exists s', out = Ret s'.
Proof.
  intros Hs%rreach_inv Hev. destruct (rexec_ok s ev out Hs Hev) as (s' & -> & _). eauto.
Qed.

Lemma resume_safe_witness : exists s', resume_arrives 7 "a" 10 4 (rinit 0) = Ret s'.
Proof. apply (resume_safe 0 (rinit 0) (EvResume 7 "a" 10 4)); [apply rr_init | reflexivity]. Defined.


(** Two halves of stream 7 meet and the parked one takes its message. *)
Definition demo_evs : list revent :=
  [EvResume 7 "a" 10 4; EvResume 7 "b" 6 9; EvHandlerRecv 0].
Definition demo_state : rstate := default (rinit 0) (rrun demo_evs (rinit 0)).
Definition demo_half : half := default (new_half 0 "" 0 0 false false 0) (r_halves demo_state !! 0%nat).


(** A half is only given up after [ResumeWindow].  An unmatched half in a
    reachable state is either still in the map with its handler waiting, and then
    the next half of the same stream is matched with it, or at least
    [ResumeWindow] has passed since it arrived. *)
Theorem resume_window t0 s r h :
  rreach t0 s -> r_halves s !! r = Some h -> h_peer h = None ->
  (h_pc h = HWait /\ r_pending s !! h_id h = Some r /\
   forall uri mp ap, exists s' h', resume_arrives (h_id h) uri mp ap s = Ret s' /\
     r_halves s' !! r = Some h' /\ h_peer h' = Some (r_next s)) \/
  h_arrivedAt h + ResumeWindow <= r_now s.
Proof.
  intros Hs%rreach_inv Hr Ep. destruct (ri_half s Hs r h Hr) as [Hc Hok].
  destruct (h_closed h) eqn:Ec; [right; auto|left]. rewrite Ep in Hok.
  destruct Hok as (Eb & _ & Hpd & Hpc). specialize (Hpd eq_refl).
  split_and!; [destruct Hpc as [?|[? ?]]; done|done|]. intros uri mp ap.
  unfold resume_arrives, Submit. cbn [h_id new_half]. rewrite Hpd, Hr, Ec, Eb.
  case_decide as Hs'; [by destruct Hs'|]. eexists _, _. split; [done|]. simpl.
  rewrite lookup_insert_ne; [by rewrite lookup_insert_eq|]. intros <-. by rewrite (ri_fresh s Hs) in Hr.
Qed.

(** One half parked at time 0, and the clock at 10 s. *)
Definition lone_evs : list revent := [EvResume 7 "a" 10 4; EvClock (10 * Second)].
Definition lone_state : rstate := default (rinit 0) (rrun lone_evs (rinit 0)).
Definition lone_half : half := default (new_half 0 "" 0 0 false false 0) (r_halves lone_state !! 0%nat).

Lemma resume_window_witness :
  (h_pc lone_half = HWait /\ r_pending lone_state !! h_id lone_half = Some 0%nat /\
   forall uri mp ap, exists s' h', resume_arrives (h_id lone_half) uri mp ap lone_state = Ret s' /\
     r_halves s' !! 0%nat = Some h' /\ h_peer h' = Some (r_next lone_state)) \/
  h_arrivedAt lone_half + ResumeWindow <= r_now lone_state.
Proof.
  apply (resume_window 0); [|vm_compute; reflexivity..].
  apply (rrun_reach 0 lone_evs (rinit 0)); [apply rr_init | vm_compute; reflexivity].
Defined.

(** C32: each agent gets the other's counters, unchanged.  When two STREAM_RESUME
    halves of one stream arrive, the splicer writes to each stream, before any
    application byte, exactly one frame: the position and acknowledged position
    the other agent sent, all 64 bits of them although they were held as
    [int64]; and the stream id is routed between the two agents. *)
Theorem resume_echo t0 s id u1 m1 a1 u2 m2 a2 :
  rreach t0 s -> r_pending s !! id = None -> 0 < id < 2 ^ 64 ->
  0 <= m1 < 2 ^ 64 -> 0 <= a1 < 2 ^ 64 -> 0 <= m2 < 2 ^ 64 -> 0 <= a2 < 2 ^ 64 ->
  let r1 := r_next s in
  let r2 := S (r_next s) in
  exists s' h1 h2,
    rrun [EvResume id u1 m1 a1; EvResume id u2 m2 a2; EvHandlerRecv r2] s = Some s' /\
    r_halves s' !! r1 = Some h1 /\ r_halves s' !! r2 = Some h2 /\ h_pc h2 = HSplice r1 /\
    h_out h1 = [(id, m2, a2)] /\ h_out h2 = [(id, m1, a1)] /\ h_open h1 = true /\ h_open h2 = true /\
    r_pairs s' !! id = Some (mkPair u2 u1).
Proof.
  intros Hs%rreach_inv Hp Hid Hm1 Ha1 Hm2 Ha2 r1 r2. cbn [rrun rexec].
  unfold resume_arrives at 1, Submit at 1. cbn [h_id new_half]. rewrite Hp.
  unfold resume_arrives, Submit. cbn [h_id new_half r_pending r_halves r_next].
  rewrite !lookup_insert_eq. cbn. destruct (decide (is_Some None)) as [[? ?]|_]; [done|]. cbn.
  fold r1 r2. assert (Hne : r2 <> r1) by (unfold r1, r2; lia).
  rewrite lookup_insert_eq. cbn. rewrite lookup_insert_ne, lookup_insert_eq by done. cbn.
  eexists _, _, _. split; [reflexivity|]. cbn.
  rewrite lookup_insert_ne by done. rewrite !lookup_insert_eq.
  split_and!; try reflexivity.
  - cbn. unfold echo_of; cbn. autorewrite with relay. by rewrite !u64_small by lia.
  - cbn. unfold echo_of; cbn. autorewrite with relay. by rewrite !u64_small by lia.
  - unfold replacePair. destruct (Z.eqb_spec id 0); [lia|]. apply lookup_insert_eq.
Qed.

Lemma resume_echo_witness : exists s' h1 h2,
  rrun [EvResume 7 "a" (2 ^ 63 + 1) 4; EvResume 7 "b" 6 9; EvHandlerRecv 1] (rinit 0) = Some s' /\
  r_halves s' !! 0%nat = Some h1 /\ r_halves s' !! 1%nat = Some h2 /\ h_pc h2 = HSplice 0 /\
  h_out h1 = [(7, 6, 9)] /\ h_out h2 = [(7, 2 ^ 63 + 1, 4)] /\ h_open h1 = true /\ h_open h2 = true /\
  r_pairs s' !! 7 = Some (mkPair "b" "a").
Proof. apply (resume_echo 0 (rinit 0)); [apply rr_init | done | lia..]. Defined.

(** The expiry goroutine of half 0 takes the message meant for its handler. *)
Definition lost_evs : list revent :=
  [EvResume 7 "a" 10 4; EvResume 7 "b" 6 9; EvExpiryRecv 0; EvHandlerRecv 1; EvSpliceEnd 1].
Definition lost_state : rstate := default (rinit 0) (rrun lost_evs (rinit 0)).

Lemma lost_starved : starved lost_state 0.
Proof.
  eexists. split; [vm_compute; reflexivity|]. split_and!; try (vm_compute; reflexivity).
  - apply Nat.ltb_lt. vm_compute. reflexivity.
  - intros id. replace (r_pending lost_state) with (∅ : gmap Z nat) by (vm_compute; reflexivity). done.
Qed.

(** A matched half can lose its wake-up for ever.  The expiry goroutine of a
    parked half receives from the same one-slot channel as its handler, so it can
    take the only message: the splice then runs to its end and closes [done], but
    the parked half's handler never receives anything and never returns, whatever
    the goroutines do afterwards. *)
Theorem resume_lost_wakeup :
  exists evs s h, rrun evs (rinit 0) = Some s /\ r_halves s !! 0%nat = Some h /\
    h_peer h = Some 1%nat /\ h_done h = Some true /\
    forall evs' s', rrun evs' s = Some s' -> exists h', r_halves s' !! 0%nat = Some h' /\ h_pc h' = HWait.
Proof.
  exists lost_evs, lost_state. eexists. do 4 (split; [vm_compute; reflexivity|]). intros evs' s' Hrun.
  destruct (starved_run evs' lost_state s' 0 lost_starved Hrun) as (h & ? & ? & _). eauto.
Qed.

(** The routing row of a resumed stream can be removed by the handler it
    replaced.  The relay handler that opened the stream forgets the row when its
    own splice ends; if that happens after the stream was resumed, the resumed
    splice keeps running with no row, and control frames between its two agents
    find no peer. *)
Theorem resume_row_lost :
  exists s h, rrun [EvRecordPair 7 (mkPair "a" "b"); EvResume 7 "a" 10 4; EvResume 7 "b" 6 9;
                    EvHandlerRecv 1; EvForgetPair 7] (rinit 0) = Some s /\
    r_halves s !! 1%nat = Some h /\ h_pc h = HSplice 0 /\ h_open h = true /\
    peerOf 7 "a" (r_pairs s) = "" /\ peerOf 7 "b" (r_pairs s) = "".
Proof. eexists _, _. split; [vm_compute; reflexivity|]. repeat split. Qed.
