(* ===== verification/ResumeLive.v ===== *)
(** * ResumeLive: what eventually happens to a resumed stream

    Infinite executions of the matcher of [ResumeMatcher] in which no goroutine that
    can move is passed over for ever and time goes on.  The handler of a half then
    returns, or has lost its wake-up. *)

From S2P Require Import Prelude EdgeTables ResumeMatcher.

(** ** Where a half is *)

Inductive half_phase :=
  | PParked      (** in the map, nobody has come *)
  | PClosed      (** the window is over, its handler has yet to hear of it *)
  | PMail        (** matched, its handler has yet to hear of it *)
  | PStarved     (** matched, its handler will not hear of it *)
  | PSplice      (** its handler runs the splice *)
  | PWaitDone    (** its handler waits for the other's splice *)
  | PReturned.

Definition phase_of (h : half) : half_phase :=
  match h_pc h with
  | HReturned => PReturned
  | HSplice _ => PSplice
  | HWaitDone => PWaitDone
  | HWait =>
      match h_buf h with
      | Some _ => PMail
      | None => if h_closed h then PClosed else match h_peer h with Some _ => PStarved | None => PParked end
      end
  end.

(** The move a half in this phase waits for. *)
Definition forced (r : nat) (ph : half_phase) : option revent :=
  match ph with
  | PParked => Some (EvTimer r)
  | PClosed | PMail => Some (EvHandlerRecv r)
  | PSplice => Some (EvSpliceEnd r)
  | PWaitDone => Some (EvDoneRecv r)
  | PStarved | PReturned => None
  end.

Inductive moves (r : nat) (ev : revent) : half_phase -> half_phase -> Prop :=
  | mv_stay ph : forced r ph <> Some ev -> moves r ev ph ph
  | mv_matched : moves r ev PParked PMail
  | mv_expired : ev = EvTimer r -> moves r ev PParked PClosed
  | mv_given_up : ev = EvHandlerRecv r -> moves r ev PClosed PReturned
  | mv_splice : ev = EvHandlerRecv r -> moves r ev PMail PSplice
  | mv_wait : ev = EvHandlerRecv r -> moves r ev PMail PWaitDone
  | mv_stolen : ev = EvExpiryRecv r -> moves r ev PMail PStarved
  | mv_spliced : ev = EvSpliceEnd r -> moves r ev PSplice PReturned
  | mv_released : ev = EvDoneRecv r -> moves r ev PWaitDone PReturned.

(** What one move does to a half: it keeps its arrival, a match is for ever. *)
Record half_step (r : nat) (ev : revent) (h h' : half) : Prop := {
  hs_arrived : h_arrivedAt h' = h_arrivedAt h;
  hs_peer : h_peer h = None \/ (h_peer h' = h_peer h /\ h_splicer h' = h_splicer h);
  hs_phase : moves r ev (phase_of h) (phase_of h')
}.

(** The fields a phase depends on. *)
Lemma half_step_same r ev h h' :
  h_pc h' = h_pc h -> h_buf h' = h_buf h -> h_closed h' = h_closed h -> h_peer h' = h_peer h ->
  h_splicer h' = h_splicer h -> h_arrivedAt h' = h_arrivedAt h -> forced r (phase_of h) <> Some ev -> half_step r ev h h'.
Proof.
  intros E1 E2 E3 E4 E5 E6 Hf. assert (phase_of h' = phase_of h) as Ep by (unfold phase_of; by rewrite E1, E2, E3, E4).
  split; auto. rewrite Ep. by constructor.
Qed.

(** The half of a reachable state, by its phase. *)
Lemma parked_phase s r h : rinv s -> r_halves s !! r = Some h -> phase_of h = PParked ->
  r_pending s !! h_id h = Some r /\ parked_ok r (h_id h) h.
Proof.
  intros Hi Hr Hp. unfold phase_of in Hp. destruct (ri_half s Hi r h Hr) as [_ Hok].
  destruct (h_pc h) eqn:E1; try done. destruct (h_buf h) eqn:E2; [done|]. destruct (h_closed h) eqn:E3; [done|].
  destruct (h_peer h) eqn:E4; [done|]. destruct Hok as (_ & _ & Hpd & _). specialize (Hpd eq_refl). split; [done|].
  destruct (ri_pending s Hi _ _ Hpd) as (h' & Hr' & Hok). by simplify_eq.
Qed.

Lemma pending_phase s r h id : rinv s -> r_halves s !! r = Some h -> r_pending s !! id = Some r -> phase_of h = PParked.
Proof.
  intros Hi Hr Hid. destruct (ri_pending s Hi id r Hid) as (h' & Hr' & (_ & E1 & E2 & E3 & _ & _ & E4 & _)). simplify_eq.
  unfold phase_of. by rewrite E1, E2, E3, E4.
Qed.

Lemma Submit_half self s s' r h ev : rinv s -> r_halves s !! r = Some h ->
  (forall ph, forced r ph <> Some ev) -> Submit self s = Ret s' ->
  exists h', r_halves s' !! r = Some h' /\ half_step r ev h h'.
Proof.
  intros Hi Hr Hf. unfold Submit. assert (Hne : r_next s <> r) by (intros <-; by rewrite (ri_fresh s Hi) in Hr).
  destruct (r_pending s !! h_id self) as [p|] eqn:Hp.
  - destruct (r_halves s !! p) as [g|] eqn:Hg; [|done]. destruct (h_closed g); [done|]. case_decide; [done|].
    intros [= <-]. simpl. rewrite lookup_insert_ne by done. destruct (decide (p = r)) as [->|].
    + rewrite lookup_insert_eq. simplify_eq. pose proof (pending_phase s r h _ Hi Hr Hp) as Eph.
      destruct (parked_phase s r h Hi Hr Eph) as [_ (_ & E1 & _ & _ & _ & _ & E2 & _)].
      eexists. split; [done|]. split; [done|by left|]. rewrite Eph. unfold phase_of. simpl. rewrite E1. constructor.
    + rewrite lookup_insert_ne by done. exists h. split; [done|]. by apply half_step_same.
  - intros [= <-]. simpl. rewrite lookup_insert_ne by done. exists h. split; [done|]. by apply half_step_same.
Qed.

(** A move of another goroutine, on its own half [k]. *)
Lemma other_half s s' r h ev k x :
  r_halves s' = <[k := x]> (r_halves s) -> k <> r -> r_halves s !! r = Some h -> (forall ph, forced r ph <> Some ev) ->
  exists h', r_halves s' !! r = Some h' /\ half_step r ev h h'.
Proof. intros -> Hne Hr Hf. rewrite lookup_insert_ne by done. exists h. split; [done|]. by apply half_step_same. Qed.

(** Its two halves, where [r] may be the second. *)
Lemma other_pair s s' r h ev k x p g g' :
  r_halves s' = <[k := x]> (<[p := g']> (r_halves s)) -> k <> r -> r_halves s !! r = Some h -> r_halves s !! p = Some g ->
  h_pc g' = h_pc g -> h_buf g' = h_buf g -> h_closed g' = h_closed g -> h_peer g' = h_peer g ->
  h_splicer g' = h_splicer g -> h_arrivedAt g' = h_arrivedAt g -> (forall ph, forced r ph <> Some ev) ->
  exists h', r_halves s' !! r = Some h' /\ half_step r ev h h'.
Proof.
  intros -> Hne Hr Hg ? ? ? ? ? ? Hf. rewrite lookup_insert_ne by done. insert_cases r p.
  - simplify_eq. exists g'. split; [done|]. by apply half_step_same.
  - exists h. split; [done|]. by apply half_step_same.
Qed.

Lemma recv_half s s' r h k : rinv s -> r_halves s !! r = Some h -> rexec s (EvHandlerRecv k) = Some (Ret s') ->
  exists h', r_halves s' !! r = Some h' /\ half_step r (EvHandlerRecv k) h h'.
Proof.
  intros Hi Hr. simpl. destruct (decide (k = r)) as [->|Hne].
  - rewrite Hr. simpl. destruct (h_pc h) eqn:Epc; try done. destruct (h_buf h) as [p|] eqn:Eb.
    + assert (phase_of h = PMail) as Eph by (unfold phase_of; by rewrite Epc, Eb).
      destruct (r_halves s !! p) as [g|] eqn:Hg; simpl; [|done]. intros [= <-]. unfold on_matched. cbv zeta.
      destruct (negb _); [|destruct (h_migrate _)]; simpl; rewrite lookup_insert_eq; eexists; (split; [done|]);
        (split; [done|by right|rewrite Eph; by constructor]).
    + destruct (h_closed h) eqn:Ec; [|done]. intros [= <-]. simpl. rewrite lookup_insert_eq.
      assert (phase_of h = PClosed) as Eph by (unfold phase_of; by rewrite Epc, Eb, Ec).
      eexists. split; [done|]. split; [done|by right|rewrite Eph; by constructor].
  - assert (Hf : forall ph, forced r ph <> Some (EvHandlerRecv k)) by (by intros []; simpl; intros [= ->]).
    destruct (r_halves s !! k) as [x|] eqn:Hk; simpl; [|done]. destruct (h_pc x); try done. destruct (h_buf x) as [p|].
    + destruct (r_halves s !! p) as [g|] eqn:Hg; simpl; [|done]. intros [= <-]. unfold on_matched. cbv zeta.
      destruct (negb _); [by eapply other_half|]. destruct (h_migrate _); by eapply other_pair.
    + destruct (h_closed x); [|done]. intros [= <-]. by eapply other_half.
Qed.

Lemma expiry_half s s' r h k : rinv s -> r_halves s !! r = Some h -> rexec s (EvExpiryRecv k) = Some (Ret s') ->
  exists h', r_halves s' !! r = Some h' /\ half_step r (EvExpiryRecv k) h h'.
Proof.
  intros Hi Hr. simpl. assert (Hf : forall ph, forced r ph <> Some (EvExpiryRecv k)) by (by intros []).
  destruct (r_halves s !! k) as [x|] eqn:Hk; simpl; [|done]. destruct (h_epc x) eqn:Ee; try done.
  destruct (_ || _) eqn:Hb; [|done]. intros [= <-]. destruct (decide (k = r)) as [->|Hne]; [|by eapply other_half].
  simplify_eq. simpl. rewrite lookup_insert_eq. eexists. split; [done|]. destruct (h_buf h) as [p|] eqn:Eb.
  - destruct (matched_half s r h p Hi Hr (or_introl Eb)) as (g & Ep & _ & (_ & _ & _ & _ & Ec & _ & Hl) & _).
    destruct (h_splicer h); [by destruct Hl as [? _]; congruence|].
    destruct Hl as [_ Hl]. destruct (h_pc h) eqn:Epc; [|naive_solver..].
    split; [done|by right|]. unfold phase_of. simpl. rewrite Epc, Eb, Ec, Ep. by constructor.
  - by apply half_step_same.
Qed.

Lemma timer_half s s' r h k : rinv s -> r_halves s !! r = Some h -> rexec s (EvTimer k) = Some (Ret s') ->
  exists h', r_halves s' !! r = Some h' /\ half_step r (EvTimer k) h h'.
Proof.
  intros Hi Hr. simpl. destruct (r_halves s !! k) as [x|] eqn:Hk; simpl; [|done]. destruct (h_epc x) eqn:Ee; try done.
  destruct (_ <=? _); [|done]. destruct (decide (k = r)) as [->|Hne].
  - simplify_eq. case_decide as Hid.
    + destruct (h_closed h) eqn:Ec; [done|]. intros [= <-]. simpl. rewrite lookup_insert_eq. eexists. split; [done|].
      pose proof (pending_phase s r h _ Hi Hr Hid) as Eph.
      destruct (parked_phase s r h Hi Hr Eph) as [_ (_ & E1 & E2 & _)].
      split; [done|by right|]. rewrite Eph. unfold phase_of. simpl. rewrite E1, E2. by constructor.
    + intros [= <-]. simpl. rewrite lookup_insert_eq. eexists. split; [done|]. apply half_step_same; try done.
      destruct (phase_of h) eqn:Eph; try done. by destruct (parked_phase s r h Hi Hr Eph).
  - assert (Hf : forall ph, forced r ph <> Some (EvTimer k)) by (by intros []; simpl; intros [= ->]).
    case_decide; [destruct (h_closed x); [done|]|]; intros [= <-]; by eapply other_half.
Qed.

Lemma splice_end_half s s' r h k : rinv s -> r_halves s !! r = Some h -> rexec s (EvSpliceEnd k) = Some (Ret s') ->
  exists h', r_halves s' !! r = Some h' /\ half_step r (EvSpliceEnd k) h h'.
Proof.
  intros Hi Hr. simpl. destruct (r_halves s !! k) as [x|] eqn:Hk; simpl; [|done]. destruct (h_pc x) eqn:Epc; try done.
  destruct (r_halves s !! peer) as [g|] eqn:Hg; simpl; [|done]. unfold splice_end.
  destruct (h_done _) as [[]|]; try done. intros [= <-]. destruct (decide (k = r)) as [->|Hne].
  - simplify_eq. simpl. rewrite lookup_insert_eq. eexists. split; [done|]. split; [done|by right|].
    assert (phase_of h = PSplice) as -> by (unfold phase_of; by rewrite Epc). by constructor.
  - assert (Hf : forall ph, forced r ph <> Some (EvSpliceEnd k)) by (by intros []; simpl; intros [= ->]).
    by eapply other_pair.
Qed.

Lemma done_half s s' r h k : r_halves s !! r = Some h -> rexec s (EvDoneRecv k) = Some (Ret s') ->
  exists h', r_halves s' !! r = Some h' /\ half_step r (EvDoneRecv k) h h'.
Proof.
  intros Hr. simpl. destruct (r_halves s !! k) as [x|] eqn:Hk; simpl; [|done].
  destruct (h_pc x) eqn:Epc, (h_done x) as [[]|]; try done. intros [= <-]. destruct (decide (k = r)) as [->|Hne].
  - simplify_eq. simpl. rewrite lookup_insert_eq. eexists. split; [done|]. split; [done|by right|].
    assert (phase_of h = PWaitDone) as -> by (unfold phase_of; by rewrite Epc). by constructor.
  - assert (Hf : forall ph, forced r ph <> Some (EvDoneRecv k)) by (by intros []; simpl; intros [= ->]).
    by eapply other_half.
Qed.

(** What any move does to any half. *)
Lemma rexec_half s ev s' r h : rinv s -> r_halves s !! r = Some h -> rexec s ev = Some (Ret s') ->
  exists h', r_halves s' !! r = Some h' /\ half_step r ev h h'.
Proof.
  intros Hi Hr Hx. assert (Hsame : (forall ph, forced r ph <> Some ev) -> r_halves s' = r_halves s ->
    exists h', r_halves s' !! r = Some h' /\ half_step r ev h h').
  { intros Hf ->. exists h. split; [done|]. by apply half_step_same. }
  destruct ev; eauto using recv_half, expiry_half, timer_half, splice_end_half, done_half; simpl in Hx.
  - destruct (_ <=? _); [|done]. simplify_eq. apply Hsame; [by intros []|done].
  - injection Hx as Hx. eapply Submit_half; [done..| |exact Hx]. by intros [].
  - unfold migrate_arrives in Hx. destruct (LookupMigrated _ _ _) as [prior lru]. injection Hx as Hx.
    eapply Submit_half; [| | |exact Hx]; [by apply rinv_tables|done|by intros []].
  - simplify_eq. apply Hsame; [by intros []|done].
  - simplify_eq. apply Hsame; [by intros []|done].
  - simplify_eq. apply Hsame; [by intros []|done].
  - simplify_eq. apply Hsame; [by intros []|done].
Qed.

(** ** A handler that has returned has closed its stream *)

Definition all_closed (s : rstate) : Prop := map_Forall (fun _ h => h_pc h = HReturned -> h_open h = false) (r_halves s).

Lemma Submit_closed self s s' : h_pc self = HWait -> Submit self s = Ret s' -> all_closed s -> all_closed s'.
Proof.
  intros Epc. unfold Submit. intros Hx Hall. repeat case_match; simplify_eq; simpl.
  - apply map_Forall_insert_2; [simpl; congruence|]. apply map_Forall_insert_2; [|done]. simpl. by eapply Hall.
  - apply map_Forall_insert_2; [simpl; congruence|done].
Qed.

Lemma rexec_closed s ev s' : rexec s ev = Some (Ret s') -> all_closed s -> all_closed s'.
Proof.
  intros Hx Hall. assert (Hins : forall k x, (h_pc x = HReturned -> h_open x = false) ->
    map_Forall (fun _ h => h_pc h = HReturned -> h_open h = false) (<[k := x]> (r_halves s))).
  { intros k x ?. by apply map_Forall_insert_2. }
  destruct ev; simpl in Hx; try (by simplify_eq).
  - destruct (_ <=? _); by simplify_eq.
  - injection Hx as Hx. by eapply Submit_closed; [|exact Hx|].
  - unfold migrate_arrives in Hx. destruct (LookupMigrated _ _ _). injection Hx as Hx. by eapply Submit_closed; [|exact Hx|].
  - destruct (r_halves s !! r) as [h|] eqn:Hr; simpl in Hx; [|done]. destruct (h_pc h) eqn:Epc; try done.
    destruct (h_buf h) as [p|].
    + destruct (r_halves s !! p) as [g|] eqn:Hg; simpl in Hx; [|done]. simplify_eq. unfold on_matched. cbv zeta.
      destruct (negb _); [by apply Hins|].
      destruct (h_migrate _); (apply map_Forall_insert_2; [done|]; apply Hins; simpl; by eapply Hall).
    + destruct (h_closed h); simplify_eq. by apply Hins.
  - destruct (r_halves s !! r) as [h|] eqn:Hr; simpl in Hx; [|done]. destruct (h_epc h); try done.
    destruct (_ || _); simplify_eq. apply Hins. simpl. by eapply Hall.
  - destruct (r_halves s !! r) as [h|] eqn:Hr; simpl in Hx; [|done]. destruct (h_epc h); try done.
    destruct (_ <=? _); [|done]. case_decide; [destruct (h_closed h)|]; simplify_eq; apply Hins; simpl; by eapply Hall.
  - destruct (r_halves s !! r) as [h|] eqn:Hr; simpl in Hx; [|done]. destruct (h_pc h); try done.
    destruct (r_halves s !! peer) as [g|] eqn:Hg; simpl in Hx; [|done]. unfold splice_end in Hx.
    destruct (h_done _) as [[]|]; simplify_eq. apply map_Forall_insert_2; [done|]. by apply Hins.
  - destruct (r_halves s !! r) as [h|] eqn:Hr; simpl in Hx; [|done].
    destruct (h_pc h), (h_done h) as [[]|]; simplify_eq. by apply Hins.
Qed.

Lemma rreach_closed t0 s : rreach t0 s -> all_closed s.
Proof. induction 1 as [|s s' ev _ IH Hx]; [apply map_Forall_empty|]. by eapply rexec_closed. Qed.

(** ** When a half's move is possible *)

Lemma phase_pc h : 
  match phase_of h with
  | PReturned => h_pc h = HReturned
  | PSplice => exists p, h_pc h = HSplice p
  | PWaitDone => h_pc h = HWaitDone
  | PMail => h_pc h = HWait /\ exists p, h_buf h = Some p
  | PClosed => h_pc h = HWait /\ h_buf h = None /\ h_closed h = true
  | PStarved => h_pc h = HWait /\ h_buf h = None /\ h_closed h = false /\ exists p, h_peer h = Some p
  | PParked => h_pc h = HWait /\ h_buf h = None /\ h_closed h = false /\ h_peer h = None
  end.
Proof.
  unfold phase_of. destruct (h_pc h); eauto. destruct (h_buf h); eauto. destruct (h_closed h); auto.
  destruct (h_peer h); eauto 10.
Qed.

(** The handler of a matched half, and of its peer. *)
Lemma waiting_peer s r h : rinv s -> r_halves s !! r = Some h -> phase_of h = PWaitDone ->
  exists p g, h_peer h = Some p /\ r_halves s !! p = Some g /\ h_peer g = Some r /\ h_splicer g = true.
Proof.
  intros Hi Hr Hph. pose proof (phase_pc h) as Hpc. rewrite Hph in Hpc. destruct (ri_half s Hi r h Hr) as [_ Hok].
  destruct (h_peer h) as [p|]; [|destruct Hok as (_ & _ & _ & [?|[? _]]); congruence].
  destruct Hok as (g & Hg & Hl). exists p, g. unfold linked in Hl. rewrite Hpc in Hl. destruct (h_splicer h); [tauto|].
  by destruct Hl as (_ & ? & _ & ? & _).
Qed.

(** A splicer is never without its message. *)
Lemma splicer_phase s r h p : rinv s -> r_halves s !! r = Some h -> h_peer h = Some p -> h_splicer h = true ->
  phase_of h = PMail \/ phase_of h = PSplice \/ phase_of h = PReturned.
Proof.
  intros Hi Hr Ep Es. destruct (matched_half s r h p Hi Hr (or_intror Ep)) as (g & _ & _ & Hl & _).
  unfold linked in Hl. rewrite Es in Hl. unfold phase_of. destruct (h_pc h); [|auto|tauto|auto].
  left. by destruct Hl as (_ & _ & _ & _ & _ & _ & _ & _ & -> & _).
Qed.

Lemma starved_phase s r h : rinv s -> r_halves s !! r = Some h -> phase_of h = PStarved -> starved s r.
Proof.
  intros Hi Hr Hph. pose proof (phase_pc h) as Hpc. rewrite Hph in Hpc. destruct Hpc as (E1 & E2 & E3 & p & E4).
  destruct (matched_half s r h p Hi Hr (or_intror E4)) as (g & _ & _ & Hl & _ & Hlt & _). unfold linked in Hl.
  exists h. split_and!; try done.
  - rewrite E1 in Hl. destruct (h_splicer h); [|tauto]. destruct Hl as (_ & _ & _ & _ & _ & _ & _ & _ & E & _). congruence.
  - intros id. by apply (matched_not_pending s r h p).
Qed.

Lemma recv_enabled s r h : rinv s -> r_halves s !! r = Some h -> phase_of h = PMail \/ phase_of h = PClosed ->
  rexec s (EvHandlerRecv r) <> None.
Proof.
  intros Hi Hr Hph. pose proof (phase_pc h) as Hpc. simpl. rewrite Hr. simpl. destruct Hph as [Hph|Hph]; rewrite Hph in Hpc.
  - destruct Hpc as (-> & p & E). rewrite E. destruct (matched_half s r h p Hi Hr (or_introl E)) as (g & _ & -> & _). done.
  - by destruct Hpc as (-> & -> & ->).
Qed.

Lemma splice_enabled s r h : rinv s -> r_halves s !! r = Some h -> phase_of h = PSplice -> rexec s (EvSpliceEnd r) <> None.
Proof.
  intros Hi Hr Hph. pose proof (phase_pc h) as Hpc. rewrite Hph in Hpc. destruct Hpc as [p Epc]. simpl. rewrite Hr. simpl.
  rewrite Epc. destruct (ri_half s Hi r h Hr) as [_ Hok]. destruct (h_peer h) as [q|]; [|destruct Hok as (_ & _ & _ & [?|[? _]]); congruence].
  destruct Hok as (g & Hg & Hl). unfold linked in Hl. rewrite Epc in Hl. destruct (h_splicer h); [|tauto].
  destruct Hl as (_ & _ & _ & _ & _ & _ & _ & _ & -> & _). by rewrite Hg.
Qed.

Lemma done_enabled s r h p g : rinv s -> r_halves s !! r = Some h -> phase_of h = PWaitDone -> h_peer h = Some p ->
  r_halves s !! p = Some g -> h_splicer g = true -> phase_of g = PReturned -> rexec s (EvDoneRecv r) <> None.
Proof.
  intros Hi Hr Hph Ep Hg Es Hphg. pose proof (phase_pc h) as Hpc. rewrite Hph in Hpc.
  pose proof (phase_pc g) as Hpcg. rewrite Hphg in Hpcg.
  destruct (matched_half s r h p Hi Hr (or_intror Ep)) as (g' & _ & Hg' & _ & Hl & _). simplify_eq.
  unfold linked in Hl. rewrite Es, Hpcg in Hl. destruct Hl as (_ & _ & _ & _ & _ & _ & _ & _ & _ & Ed).
  simpl. rewrite Hr. simpl. by rewrite Hpc, Ed.
Qed.

Lemma timer_enabled s r h : rinv s -> r_halves s !! r = Some h -> phase_of h = PParked ->
  h_arrivedAt h + ResumeWindow <= r_now s -> rexec s (EvTimer r) <> None.
Proof.
  intros Hi Hr Hph Ht. destruct (parked_phase s r h Hi Hr Hph) as [Hid (_ & _ & _ & E1 & _ & _ & _ & E2)].
  simpl. rewrite Hr. simpl. rewrite E2. destruct (Z.leb_spec (h_arrivedAt h + ResumeWindow) (r_now s)); [|lia].
  rewrite decide_True by done. by rewrite E1.
Qed.

(** ** Executions *)

#[export] Instance half_phase_eq_dec : EqDecision half_phase.
Proof. solve_decision. Defined.

(** The states of the matcher one after the other.  Time goes on; and of the moves
    halves wait for (a receive of a handler, a timer that is due, the end of a
    splice) none stays possible for ever without being made. *)
Record fair_matcher (t0 : Time) (e : nat -> rstate) : Prop := {
  fm_start : rreach t0 (e 0%nat);
  fm_step : forall n, e (S n) = e n \/ exists ev, rexec (e n) ev = Some (Ret (e (S n)));
  fm_time : forall t, exists n, t <= r_now (e n);
  fm_fair : forall r ph ev, forced r ph = Some ev -> forall n, exists m, (n <= m)%nat /\
    (rexec (e m) ev = None \/ rexec (e m) ev = Some (Ret (e (S m))))
}.

Section Live.
Context (t0 : Time) (e : nat -> rstate) (He : fair_matcher t0 e).

Lemma fair_reach n : rreach t0 (e n).
Proof.
  induction n as [|n IH]; [apply He|].
  destruct (fm_step t0 e He n) as [->|[ev Hev]]; [done|]. by eapply rr_step.
Qed.

Lemma fair_inv n : rinv (e n).
Proof. eapply rreach_inv, fair_reach. Qed.

Lemma fair_now n m : (n <= m)%nat -> r_now (e n) <= r_now (e m).
Proof.
  induction 1 as [|m _ IH]; [lia|]. etrans; [exact IH|].
  destruct (fm_step t0 e He m) as [->|[ev Hev]]; [lia|]. by apply rexec_clock in Hev.
Qed.

Lemma fair_half n r h : r_halves (e n) !! r = Some h ->
  exists h', r_halves (e (S n)) !! r = Some h' /\ (h' = h \/ exists ev, half_step r ev h h').
Proof.
  intros Hr. destruct (fm_step t0 e He n) as [->|[ev Hev]]; [by eauto|].
  destruct (rexec_half _ _ _ _ _ (fair_inv n) Hr Hev) as (h' & ? & ?). eauto.
Qed.

(** A half keeps its arrival, and its peer once it has one. *)
Lemma fair_kept n m r h : r_halves (e n) !! r = Some h -> (n <= m)%nat ->
  exists h', r_halves (e m) !! r = Some h' /\ h_arrivedAt h' = h_arrivedAt h /\
    (h_peer h = None \/ (h_peer h' = h_peer h /\ h_splicer h' = h_splicer h)).
Proof.
  intros Hr. induction 1 as [|m _ (h1 & Hr1 & Ea & Ep)]; [by eauto 10|].
  destruct (fair_half m r h1 Hr1) as (h2 & Hr2 & [->|[ev [Ea' Ep' _]]]); [by eauto|].
  exists h2. split_and!; [done|congruence|]. destruct Ep as [|[E1 E2]]; [by left|].
  destruct (h_peer h) eqn:E; [|by left]. right. destruct Ep' as [?|[? ?]]; [congruence|]. split; congruence.
Qed.

(** The end of the road. *)
Lemma fair_final n m r h ph : r_halves (e n) !! r = Some h -> phase_of h = ph -> ph = PStarved \/ ph = PReturned ->
  (n <= m)%nat -> exists h', r_halves (e m) !! r = Some h' /\ phase_of h' = ph.
Proof.
  intros Hr Hph Hfin. induction 1 as [|m _ (h1 & Hr1 & E1)]; [by eauto|].
  destruct (fair_half m r h1 Hr1) as (h2 & Hr2 & [->|[ev [_ _ Hm]]]); [by eauto|].
  exists h2. split; [done|]. rewrite E1 in Hm. destruct Hfin as [->| ->]; by inversion Hm.
Qed.

(** A half leaves a phase in which its move stays possible. *)
Lemma fair_leaves n r h ph ev :
  forced r ph = Some ev -> r_halves (e n) !! r = Some h -> phase_of h = ph ->
  (forall k h', (n <= k)%nat -> r_halves (e k) !! r = Some h' -> phase_of h' = ph -> rexec (e k) ev <> None) ->
  exists m h' ev', (n <= m)%nat /\ r_halves (e m) !! r = Some h' /\ moves r ev' ph (phase_of h') /\ phase_of h' <> ph.
Proof.
  intros Hf Hr Hph Hen. destruct (fm_fair t0 e He r ph ev Hf n) as (m & Hm & Htaken).
  assert (Hor : forall k, (n <= k)%nat ->
    (exists m h' ev', (n <= m)%nat /\ r_halves (e m) !! r = Some h' /\ moves r ev' ph (phase_of h') /\ phase_of h' <> ph) \/
    exists h', r_halves (e k) !! r = Some h' /\ phase_of h' = ph).
  { intros k. induction 1 as [|k Hk [?|(h1 & Hr1 & E1)]]; [by eauto|by left|].
    destruct (fair_half k r h1 Hr1) as (h2 & Hr2 & [->|[ev' [_ _ Hmv]]]); [by eauto|].
    destruct (decide (phase_of h2 = ph)); [by eauto|]. left. exists (S k), h2, ev'. rewrite E1 in Hmv. split_and!; [lia|done..]. }
  destruct (Hor m Hm) as [?|(h1 & Hr1 & E1)]; [done|]. destruct Htaken as [Hno|Hyes]; [by destruct (Hen m h1 Hm Hr1 E1)|].
  destruct (rexec_half _ _ _ _ _ (fair_inv m) Hr1 Hyes) as (h2 & Hr2 & [_ _ Hmv]). rewrite E1 in Hmv.
  exists (S m), h2, ev. split_and!; [lia|done|done|]. intros E2. rewrite E2 in Hmv. inversion Hmv; subst; done.
Qed.

Lemma splice_ends n r h : r_halves (e n) !! r = Some h -> phase_of h = PSplice ->
  exists m h', (n <= m)%nat /\ r_halves (e m) !! r = Some h' /\ phase_of h' = PReturned.
Proof.
  intros Hr Hph. destruct (fair_leaves n r h PSplice _ eq_refl Hr Hph) as (m & h' & ev & Hm & Hr' & Hmv & Hne).
  - intros k h' _ Hk Hph'. by eapply splice_enabled; [apply fair_inv|..].
  - exists m, h'. split_and!; [done..|]. by inversion Hmv.
Qed.

Lemma closed_ends n r h : r_halves (e n) !! r = Some h -> phase_of h = PClosed ->
  exists m h', (n <= m)%nat /\ r_halves (e m) !! r = Some h' /\ phase_of h' = PReturned.
Proof.
  intros Hr Hph. destruct (fair_leaves n r h PClosed _ eq_refl Hr Hph) as (m & h' & ev & Hm & Hr' & Hmv & Hne).
  - intros k h' _ Hk Hph'. by eapply recv_enabled; [apply fair_inv|..|right].
  - exists m, h'. split_and!; [done..|]. by inversion Hmv.
Qed.

Lemma mail_read n r h : r_halves (e n) !! r = Some h -> phase_of h = PMail ->
  exists m h', (n <= m)%nat /\ r_halves (e m) !! r = Some h' /\
    (phase_of h' = PSplice \/ phase_of h' = PWaitDone \/ phase_of h' = PStarved).
Proof.
  intros Hr Hph. destruct (fair_leaves n r h PMail _ eq_refl Hr Hph) as (m & h' & ev & Hm & Hr' & Hmv & Hne).
  - intros k h' _ Hk Hph'. by eapply recv_enabled; [apply fair_inv|..|left].
  - exists m, h'. split_and!; [done..|]. inversion Hmv; subst; auto. congruence.
Qed.

Lemma parked_leaves n r h : r_halves (e n) !! r = Some h -> phase_of h = PParked ->
  exists m h', (n <= m)%nat /\ r_halves (e m) !! r = Some h' /\ (phase_of h' = PMail \/ phase_of h' = PClosed).
Proof.
  intros Hr Hph. destruct (fm_time t0 e He (h_arrivedAt h + ResumeWindow)) as [d Hd].
  assert (Hor : forall k, (n <= k)%nat ->
    (exists m h', (n <= m)%nat /\ r_halves (e m) !! r = Some h' /\ (phase_of h' = PMail \/ phase_of h' = PClosed)) \/
    exists h', r_halves (e k) !! r = Some h' /\ phase_of h' = PParked /\ h_arrivedAt h' = h_arrivedAt h).
  { intros k. induction 1 as [|k Hk [?|(h1 & Hr1 & E1 & Ea)]]; [by eauto|by left|].
    destruct (fair_half k r h1 Hr1) as (h2 & Hr2 & [->|[ev [Ea' _ Hmv]]]); [by eauto|]. rewrite E1 in Hmv.
    inversion Hmv as [? ? E| | | | | | | |]; subst; [right; exists h2; split_and!; congruence|left; exists (S k), h2; split_and!; auto..]. }
  destruct (Hor (n `max` d)%nat ltac:(lia)) as [?|(h1 & Hr1 & E1 & Ea)]; [done|].
  destruct (fair_leaves (n `max` d) r h1 PParked _ eq_refl Hr1 E1) as (m & h' & ev & Hm & Hr' & Hmv & Hne).
  - intros k h' Hk Hk' Hph'. eapply timer_enabled; [apply fair_inv|done..|].
    destruct (fair_kept _ k r h1 Hr1 Hk) as (h2 & ? & ? & _). simplify_eq.
    pose proof (fair_now d k ltac:(lia)). lia.
  - exists m, h'. split; [lia|]. split; [done|]. inversion Hmv; subst; auto. congruence.
Qed.

Lemma splicer_ends n p g r : r_halves (e n) !! p = Some g -> h_peer g = Some r -> h_splicer g = true ->
  exists m g', (n <= m)%nat /\ r_halves (e m) !! p = Some g' /\ phase_of g' = PReturned.
Proof.
  intros Hp Epg Es. destruct (splicer_phase _ _ _ _ (fair_inv n) Hp Epg Es) as [Hph|[Hph|Hph]]; [|by eapply splice_ends|by eauto].
  destruct (mail_read n p g Hp Hph) as (m & g1 & Hm & Hp1 & Hph1).
  destruct (fair_kept n m p g Hp Hm) as (g2 & Hp2 & _ & [?|[E1 E2]]); [congruence|]. simplify_eq.
  destruct (splicer_phase _ p g1 r (fair_inv m) Hp1) as [E|[E|E]]; [congruence..|by destruct Hph1 as [?|[?|?]]; congruence| |by eauto].
  destruct (splice_ends m p g1 Hp1 E) as (m' & g3 & ? & ? & ?). exists m', g3. split_and!; [lia|done..].
Qed.

Lemma wait_ends n r h : r_halves (e n) !! r = Some h -> phase_of h = PWaitDone ->
  exists m h', (n <= m)%nat /\ r_halves (e m) !! r = Some h' /\ phase_of h' = PReturned.
Proof.
  intros Hr Hph. destruct (waiting_peer _ _ _ (fair_inv n) Hr Hph) as (p & g & Ep & Hp & Epg & Es).
  destruct (splicer_ends n p g r Hp Epg Es) as (m & g' & Hm & Hp' & Hphg).
  assert (Hor : forall k, (n <= k)%nat ->
    exists h', r_halves (e k) !! r = Some h' /\ (phase_of h' = PWaitDone \/ phase_of h' = PReturned)).
  { intros k. induction 1 as [|k Hk (h1 & Hr1 & E1)]; [by eauto|].
    destruct (fair_half k r h1 Hr1) as (h2 & Hr2 & [->|[ev [_ _ Hmv]]]); [by eauto|]. exists h2. split; [done|].
    destruct E1 as [E1|E1]; rewrite E1 in Hmv; inversion Hmv; auto. }
  destruct (Hor m Hm) as (h1 & Hr1 & [E1|E1]); [|by eauto].
  destruct (fair_leaves m r h1 PWaitDone _ eq_refl Hr1 E1) as (m' & h' & ev & Hm' & Hr' & Hmv & Hne).
  - intros k h' Hk Hr' Hph'.
    destruct (fair_kept n k r h Hr ltac:(lia)) as (h2 & ? & _ & [?|[E2 _]]); [congruence|]. simplify_eq.
    destruct (fair_final m k p g' _ Hp' Hphg ltac:(by right) Hk) as (g2 & Hp2 & Eg2).
    destruct (fair_kept n k p g Hp ltac:(lia)) as (g3 & ? & _ & [?|[_ E3]]); [congruence|]. simplify_eq.
    eapply (done_enabled _ r h' p g2); [apply fair_inv|congruence..].
  - exists m', h'. split; [lia|]. split; [done|]. inversion Hmv; subst; done.
Qed.

(** A half with its message returns or is starved. *)
Lemma mail_ends n r h : r_halves (e n) !! r = Some h -> phase_of h = PMail ->
  exists m h', (n <= m)%nat /\ r_halves (e m) !! r = Some h' /\ (phase_of h' = PReturned \/ phase_of h' = PStarved).
Proof.
  intros Hr Hph. destruct (mail_read n r h Hr Hph) as (m & h1 & Hm & Hr1 & [E|[E|E]]); [..|by eauto 10].
  - destruct (splice_ends m r h1 Hr1 E) as (m' & h2 & ? & ? & ?). exists m', h2. split_and!; [lia|auto..].
  - destruct (wait_ends m r h1 Hr1 E) as (m' & h2 & ? & ? & ?). exists m', h2. split_and!; [lia|auto..].
Qed.

Lemma half_ends n r h : r_halves (e n) !! r = Some h ->
  exists m h', (n <= m)%nat /\ r_halves (e m) !! r = Some h' /\ (phase_of h' = PReturned \/ phase_of h' = PStarved).
Proof.
  intros Hr. assert (Hclosed : forall n h, r_halves (e n) !! r = Some h -> phase_of h = PClosed ->
    exists m h', (n <= m)%nat /\ r_halves (e m) !! r = Some h' /\ (phase_of h' = PReturned \/ phase_of h' = PStarved)).
  { intros k x Hx E. destruct (closed_ends k r x Hx E) as (m & h' & ? & ? & ?). eauto 10. }
  destruct (phase_of h) eqn:Hph; [|by eauto|by eapply mail_ends|by eauto 10| | |by eauto 10].
  - destruct (parked_leaves n r h Hr Hph) as (m & h1 & Hm & Hr1 & E).
    assert (exists m' h', (m <= m')%nat /\ r_halves (e m') !! r = Some h' /\ (phase_of h' = PReturned \/ phase_of h' = PStarved))
      as (m' & h' & ? & ? & ?) by (destruct E; [by eapply mail_ends|by eapply Hclosed]).
    exists m', h'. split_and!; [lia|done..].
  - destruct (splice_ends n r h Hr Hph) as (m & h' & ? & ? & ?). eauto 10.
  - destruct (wait_ends n r h Hr Hph) as (m & h' & ? & ? & ?). eauto 10.
Qed.

Lemma half_out n r : is_Some (r_halves (e n) !! r) ->
  exists m, (n <= m)%nat /\ forall k, (m <= k)%nat ->
    (forall id, r_pending (e k) !! id <> Some r) /\
    exists h, r_halves (e k) !! r = Some h /\
      ((h_pc h = HReturned /\ h_open h = false) \/ (starved (e k) r /\ is_Some (h_peer h))).
Proof.
  intros [h Hr]. destruct (half_ends n r h Hr) as (m & h1 & Hm & Hr1 & Hph). exists m. split; [done|]. intros k Hk.
  destruct (fair_final m k r h1 _ Hr1 eq_refl ltac:(naive_solver) Hk) as (h2 & Hr2 & E2).
  pose proof (phase_pc h2) as Hpc. rewrite E2 in Hpc. split.
  - intros id Hid. pose proof (pending_phase _ _ _ _ (fair_inv k) Hr2 Hid) as E. destruct Hph; congruence.
  - exists h2. split; [done|]. destruct Hph as [E|E]; rewrite E in *; [left|right].
    + split; [done|]. by eapply (rreach_closed t0 (e k) (fair_reach k) r).
    + split; [by eapply starved_phase; [apply fair_inv|..]|]. destruct Hpc as (_ & _ & _ & p & ->). eauto.
Qed.

(** The halves with the first [b] numbers have all left the map at some moment. *)
Lemma halves_out n b : exists m, (n <= m)%nat /\ forall k r, (m <= k)%nat -> (r < b)%nat ->
  is_Some (r_halves (e n) !! r) -> forall id, r_pending (e k) !! id <> Some r.
Proof.
  induction b as [|b (m & Hm & IH)]; [exists n; split; [done|lia]|].
  destruct (r_halves (e n) !! b) as [h|] eqn:Hb.
  - destruct (half_out n b (mk_is_Some _ _ Hb)) as (m' & Hm' & Hout). exists (m `max` m')%nat. split; [lia|].
    intros k r Hk Hr Hsome. destruct (decide (r = b)) as [->|]; [apply Hout; lia|apply IH; done || lia].
  - exists m. split; [done|]. intros k r Hk Hr Hsome. destruct (decide (r = b)) as [->|]; [|apply IH; done || lia].
    rewrite Hb in Hsome. by destruct Hsome.
Qed.

(** C17: a resumed stream's handler ends, unless its wake-up was stolen.  In every
    fair execution of the matcher, in which timers fire and splices come to their
    end, a half once submitted is sooner or later out of the map for good; and from
    then on either its handler has returned and its stream is closed, or it was
    matched and is starved: its expiry goroutine took the message, and its handler
    waits on a channel nothing will be sent on.  If no half is submitted any more, the
    map is empty from some moment on. *)
Theorem resume_ends n :
  (forall r, is_Some (r_halves (e n) !! r) ->
     exists m, (n <= m)%nat /\ forall k, (m <= k)%nat ->
       (forall id, r_pending (e k) !! id <> Some r) /\
       exists h, r_halves (e k) !! r = Some h /\
         ((h_pc h = HReturned /\ h_open h = false) \/ (starved (e k) r /\ is_Some (h_peer h)))) /\
  ((forall k, (n <= k)%nat -> dom (r_halves (e k)) = dom (r_halves (e n))) ->
   exists m, (n <= m)%nat /\ forall k, (m <= k)%nat -> PendingCount (e k) = 0%nat).
Proof.
  split; [apply half_out|]. intros Hdom. destruct (halves_out n (r_next (e n))) as (m & Hm & Hout).
  exists m. split; [done|]. intros k Hk. apply map_size_empty_iff, map_eq. intros id. rewrite lookup_empty.
  destruct (r_pending (e k) !! id) as [r|] eqn:Hid; [|done].
  destruct (ri_pending _ (fair_inv k) id r Hid) as (h & Hr & _).
  assert (is_Some (r_halves (e n) !! r)) as [h0 Hr0].
  { apply elem_of_dom. rewrite <- (Hdom k) by lia. apply elem_of_dom. eauto. }
  assert (r < r_next (e n))%nat.
  { destruct (decide (r < r_next (e n))%nat); [done|]. rewrite (ri_fresh _ (fair_inv n)) in Hr0 by lia. done. }
  by destruct (Hout k r Hk ltac:(done) ltac:(eauto) id).
Qed.

End Live.

(** ** A run

    Two halves of stream 7 meet; a third, of stream 8, waits in vain; then only the
    clock goes on. *)

Definition live_evs : list revent :=
  [EvResume 7 "a" 10 4; EvResume 7 "b" 6 9; EvResume 8 "c" 0 0; EvHandlerRecv 0; EvHandlerRecv 1; EvSpliceEnd 1;
   EvDoneRecv 0; EvClock ResumeWindow; EvTimer 0; EvTimer 2; EvHandlerRecv 2].
Definition live_last : rstate := default (rinit 0) (rrun live_evs (rinit 0)).
(** Only the clock goes on. *)
Definition later (k : nat) (s : rstate) : rstate :=
  mkR (r_now s + Z.of_nat k) (r_pending s) (r_halves s) (r_next s) (r_pairs s) (r_migrated s).
Definition live_run (n : nat) : rstate :=
  if decide (n < 11)%nat then default (rinit 0) (rrun (firstn n live_evs) (rinit 0)) else later (n - 11) live_last.

Lemma later_step k s : rexec (later k s) (EvClock (r_now s + Z.of_nat (S k))) = Some (Ret (later (S k) s)).
Proof.
  simpl rexec. cbn [later r_now].
  destruct (Z.leb_spec (r_now s + Z.of_nat k) (r_now s + Z.of_nat (S k))); [done|lia].
Qed.

Lemma later_halves k k' s : dom (r_halves (later k s)) = dom (r_halves (later k' s)).
Proof. reflexivity. Qed.

Lemma live_run_later n : (11 <= n)%nat -> live_run n = later (n - 11) live_last.
Proof. intros Hn. unfold live_run. by rewrite decide_False by lia. Qed.

Definition at_rest (h : half) : bool :=
  match h_pc h, h_epc h with HReturned, (ENone | EExit) => true | _, _ => false end.

Lemma rest_quiet s k r ph ev :
  forallb (fun x : nat * half => at_rest x.2) (map_to_list (r_halves s)) = true ->
  forced r ph = Some ev -> rexec (later k s) ev = None.
Proof.
  intros Hall Hf. assert (Hh : forall h, r_halves s !! r = Some h -> at_rest h = true).
  { intros h Hr. rewrite forallb_forall in Hall. apply (Hall (r, h)). by apply list_elem_of_In, elem_of_map_to_list. }
  destruct ph; simpl in Hf; simplify_eq; simpl; (destruct (r_halves s !! r) as [h|]; simpl; [|done]);
    specialize (Hh h eq_refl); unfold at_rest in Hh; by destruct (h_pc h), (h_epc h).
Qed.

Lemma live_rest : forallb (fun x : nat * half => at_rest x.2) (map_to_list (r_halves live_last)) = true.
Proof. vm_compute. reflexivity. Qed.

Lemma live_steps n : live_run (S n) = live_run n \/ exists ev, rexec (live_run n) ev = Some (Ret (live_run (S n))).
Proof.
  right. destruct (decide (n < 11)%nat) as [Hlt|Hge].
  - exists (default (EvClock 0) (live_evs !! n)). do 11 (destruct n as [|n]; [vm_compute; reflexivity|]). lia.
  - eexists. rewrite !live_run_later by lia. replace (S n - 11)%nat with (S (n - 11)) by lia. apply later_step.
Qed.

Lemma live_time t : exists n, t <= r_now (live_run n).
Proof.
  exists (11 + Z.to_nat t)%nat. rewrite live_run_later by lia. cbn [later r_now].
  assert (r_now live_last = ResumeWindow) as -> by (vm_compute; reflexivity).
  assert (0 <= ResumeWindow) by done. lia.
Qed.

Lemma live_fair : fair_matcher 0 live_run.
Proof.
  split.
  - apply rr_init.
  - apply live_steps.
  - apply live_time.
  - intros r ph ev Hf n. exists (11 `max` n)%nat. split; [lia|]. left.
    rewrite live_run_later by lia. apply (rest_quiet _ _ r ph); [apply live_rest|done].
Qed.

Lemma live_dom k : (11 <= k)%nat -> dom (r_halves (live_run k)) = dom (r_halves (live_run 11)).
Proof. intros Hk. rewrite !live_run_later by lia. apply later_halves. Qed.

Lemma resume_ends_witness :
  (forall r, is_Some (r_halves (live_run 3) !! r) ->
     exists m, (3 <= m)%nat /\ forall k, (m <= k)%nat ->
       (forall id, r_pending (live_run k) !! id <> Some r) /\
       exists h, r_halves (live_run k) !! r = Some h /\
         ((h_pc h = HReturned /\ h_open h = false) \/ (starved (live_run k) r /\ is_Some (h_peer h)))) /\
  exists m, (11 <= m)%nat /\ forall k, (m <= k)%nat -> PendingCount (live_run k) = 0%nat.
Proof.
  split; [apply (resume_ends 0 live_run live_fair 3)|apply (resume_ends 0 live_run live_fair 11), live_dom].
Defined.
