(* ===== verification/Fleet.v ===== *)
(** * Fleet: [pkg/registry/fleet.go], and the server's successor list

    How a relay turns the controller's fleet snapshot into the ordered list of
    fallback relays it advertises, and how the heartbeat publishes changes of that
    list to the edge server ([SetSuccessors] / [Successors] of
    [pkg/edge/edge.go]). *)

From S2P Require Import Prelude.

Definition DefaultHeartbeatPeriod : Duration := 30 * Second.

Record RelayInstance := mkRelay { ri_Id : string; ri_Region : string; ri_Endpoint : string }.

#[export] Instance RelayInstance_eq_dec : EqDecision RelayInstance.
Proof. solve_decision. Defined.

(** The order of the comparison function [byID]. *)
Definition byID (a b : RelayInstance) : Prop := String.le (ri_Id a) (ri_Id b).

#[export] Instance byID_dec : RelDecision byID.
Proof. intros a b. unfold byID. apply _. Defined.
#[export] Instance byID_trans : Transitive byID.
Proof. intros a b c. unfold byID. apply (transitivity (R := String.le)). Qed.
#[export] Instance byID_total : Total byID.
Proof. intros a b. apply (total String.le). Qed.

(** [slices.SortFunc(l, byID)] returns the elements in ascending order; the order
    of elements with equal ids is not specified by the library. *)
Class SortFunc := {
  SortByID : list RelayInstance -> list RelayInstance;
  SortByID_perm l : SortByID l ≡ₚ l;
  SortByID_sorted l : Sorted byID (SortByID l)
}.

(** Merge sort is one such function. *)
Definition merge_SortFunc : SortFunc := {|
  SortByID := merge_sort byID;
  SortByID_perm := merge_sort_Permutation byID;
  SortByID_sorted := Sorted_merge_sort byID
|}.

(** The loop of [Successors]: the relays of the own region, and the others. *)
Fixpoint split_fleet (selfID region : string) (fleet : list RelayInstance) :
    list RelayInstance * list RelayInstance :=
  match fleet with
  | [] => ([], [])
  | r :: fleet' =>
      let '(same, other) := split_fleet selfID region fleet' in
      if String.eqb (ri_Id r) selfID || String.eqb (ri_Endpoint r) "" then (same, other)
      else if String.eqb (ri_Region r) region then (r :: same, other)
      else (same, r :: other)
  end.

Section Successors.
Context {SF : SortFunc}.

Definition successor_relays (selfID region : string) (fleet : list RelayInstance) : list RelayInstance :=
  let '(same, other) := split_fleet selfID region fleet in SortByID same ++ SortByID other.

Definition Successors (selfID region : string) (fleet : list RelayInstance) : list string :=
  ri_Endpoint <$> successor_relays selfID region fleet.

(** ** The heartbeat *)

(** [hb_calls] is what the subscribers have been called with, newest last. *)
Record Heartbeat := mkHeartbeat {
  hb_id : string;
  hb_region : string;
  hb_endpoint : string;
  hb_period : Duration;
  hb_last : list string;
  hb_subs : nat;
  hb_calls : list (nat * list string)
}.

Definition NewHeartbeat (id region endpoint : string) (period : Duration) : Heartbeat :=
  mkHeartbeat id region endpoint (if period <=? 0 then DefaultHeartbeatPeriod else period) [] 0 [].

Definition OnSuccessors (h : Heartbeat) : Heartbeat :=
  mkHeartbeat (hb_id h) (hb_region h) (hb_endpoint h) (hb_period h) (hb_last h) (S (hb_subs h)) (hb_calls h).

(** [beat] with the controller's answer: [None] is a failed upsert. *)
Definition beat (resp : option (list RelayInstance)) (h : Heartbeat) : Heartbeat :=
  match resp with
  | None => h
  | Some relays =>
      let next := Successors (hb_id h) (hb_region h) relays in
      if decide (next = hb_last h) then h
      else mkHeartbeat (hb_id h) (hb_region h) (hb_endpoint h) (hb_period h) next (hb_subs h)
             (hb_calls h ++ ((fun i => (i, next)) <$> seq 0 (hb_subs h)))
  end.

(** The answers the controller gives to a run of beats. *)
Definition beats (resps : list (option (list RelayInstance))) (h : Heartbeat) : Heartbeat :=
  foldl (fun h resp => beat resp h) h resps.

(** The list subscriber [i] holds after a run of calls, [init] before the first:
    what [Server.SetSuccessors] stores. *)
Definition held (i : nat) (init : list string) (calls : list (nat * list string)) : list string :=
  foldl (fun cur '(j, l) => if decide (j = i) then l else cur) init calls.

(** The list of the most recent answer. *)
Definition latest (id region : string) (resps : list (option (list RelayInstance))) : list string :=
  foldl (fun cur resp => match resp with Some relays => Successors id region relays | None => cur end) [] resps.

(** ** Lemmas *)

(** A relay the fallback list may name. *)
Definition eligible (selfID : string) (r : RelayInstance) : bool :=
  negb (String.eqb (ri_Id r) selfID) && negb (String.eqb (ri_Endpoint r) "").
Definition in_region (region : string) (r : RelayInstance) : bool := String.eqb (ri_Region r) region.

Lemma split_fleet_filter selfID region fleet :
  split_fleet selfID region fleet =
    (List.filter (fun r => eligible selfID r && in_region region r) fleet,
     List.filter (fun r => eligible selfID r && negb (in_region region r)) fleet).
Proof.
  unfold eligible, in_region. induction fleet as [|r fleet IH]; simpl; [done|]. rewrite IH.
  by destruct (String.eqb (ri_Id r) selfID), (String.eqb (ri_Endpoint r) ""), (String.eqb (ri_Region r) region).
Qed.

Lemma filter_Permutation {A} (f : A -> bool) l l' : l ≡ₚ l' -> List.filter f l ≡ₚ List.filter f l'.
Proof.
  induction 1 as [|x l l' _ IH|x y l|l l' l'' _ IH1 _ IH2]; simpl; [done| | |by etrans].
  - destruct (f x); [by constructor|done].
  - destruct (f x), (f y); try done. constructor.
Qed.

Lemma filter_filter {A} (f g : A -> bool) l : List.filter f (List.filter g l) = List.filter (fun x => g x && f x) l.
Proof. induction l as [|x l IH]; simpl; [done|]. destruct (g x); simpl; [destruct (f x)|]; by rewrite IH. Qed.

Lemma filter_Sorted (f : RelayInstance -> bool) l : Sorted byID l -> Sorted byID (List.filter f l).
Proof.
  intros Hs%(Sorted_StronglySorted byID). apply StronglySorted_Sorted.
  induction Hs as [|x l _ IH Hx]; simpl; [constructor|]. destruct (f x); [|done].
  constructor; [done|]. rewrite List.Forall_forall in *. intros y [Hy _]%List.filter_In. auto.
Qed.

End Successors.

(** Two lists sorted by distinct ids with the same elements are equal. *)
Lemma sorted_by_id_unique l l' :
  NoDup (ri_Id <$> l) -> l ≡ₚ l' -> Sorted byID l -> Sorted byID l' -> l = l'.
Proof.
  intros Hn Hp Hs Hs'. apply (Sorted_unique_strong byID); try done.
  intros a b Ha Hb Hab Hba. rewrite <- Hp in Hb.
  assert (Hid : ri_Id a = ri_Id b) by (by apply (anti_symm String.le)). clear -Hn Ha Hb Hid.
  induction l as [|x l IH]; [by apply not_elem_of_nil in Ha|]. rewrite fmap_cons in Hn.
  apply NoDup_cons in Hn as [Hx Hn]. apply elem_of_cons in Ha as [->|Ha], Hb as [->|Hb]; auto.
  - destruct Hx. rewrite Hid. by apply list_elem_of_fmap_2.
  - destruct Hx. rewrite <- Hid. by apply list_elem_of_fmap_2.
Qed.

Lemma NoDup_filter_ids (f : RelayInstance -> bool) l : NoDup (ri_Id <$> l) -> NoDup (ri_Id <$> List.filter f l).
Proof.
  induction l as [|x l IH]; [done|]. rewrite fmap_cons, NoDup_cons. intros [Hx Hn]. simpl.
  destruct (f x); [|auto]. rewrite fmap_cons, NoDup_cons. split; [|auto]. intros Hin. apply Hx.
  apply list_elem_of_fmap in Hin as (y & -> & Hy). apply list_elem_of_fmap_2.
  apply list_elem_of_In in Hy. apply list_elem_of_In. by apply List.filter_In in Hy as [? _].
Qed.

Lemma filter_app_bool {A} (f : A -> bool) l l' : List.filter f (l ++ l') = List.filter f l ++ List.filter f l'.
Proof. apply List.filter_app. Qed.

Lemma filter_split_Permutation {A} (f g : A -> bool) l :
  List.filter (fun x => f x && g x) l ++ List.filter (fun x => f x && negb (g x)) l ≡ₚ List.filter f l.
Proof.
  induction l as [|x l IH]; simpl; [done|]. destruct (f x); simpl; [|done]. destruct (g x); simpl.
  - by constructor.
  - rewrite <- Permutation_middle. by constructor.
Qed.

(** A sorted group without one id does not depend on the sort or on the order of
    the snapshot. *)
Lemma group_unique (SF1 SF2 : SortFunc) (f g f' g' : RelayInstance -> bool) fleet fleet' :
  NoDup (ri_Id <$> fleet) -> fleet ≡ₚ fleet' -> (forall r, f r && g r = f' r && g' r) ->
  List.filter g (@SortByID SF1 (List.filter f fleet)) = List.filter g' (@SortByID SF2 (List.filter f' fleet')).
Proof.
  intros Hn Hp Heq. apply sorted_by_id_unique.
  - assert (Hq : List.filter g (@SortByID SF1 (List.filter f fleet)) ≡ₚ List.filter g (List.filter f fleet))
      by apply filter_Permutation, SortByID_perm.
    rewrite Hq. by apply NoDup_filter_ids, NoDup_filter_ids.
  - rewrite (filter_Permutation g _ _ (SortByID_perm _)), (filter_Permutation g' _ _ (SortByID_perm _)).
    rewrite !filter_filter, (filter_Permutation _ _ _ Hp). erewrite List.filter_ext; [done|]. done.
  - apply filter_Sorted, SortByID_sorted.
  - apply filter_Sorted, SortByID_sorted.
Qed.

Lemma held_app i init l l' : held i init (l ++ l') = held i (held i init l) l'.
Proof. apply foldl_app. Qed.

Lemma held_seq i n init l : (i < n)%nat -> held i init ((fun j => (j, l)) <$> seq 0 n) = l.
Proof.
  induction n as [|n IH]; [lia|]. intros Hi. rewrite seq_S, fmap_app, held_app. simpl.
  case_decide; [done|]. apply IH. lia.
Qed.

(** ** Properties *)

Section Properties.
Context {SF : SortFunc}.

(** The fallback list names every eligible relay once, nearest first.  The
    relays behind it are exactly those of the snapshot other than the relay
    itself that have an endpoint; those of its own region come before all
    others, and each group is in ascending order of id. *)
Theorem Successors_spec selfID region fleet :
  exists same other,
    Successors selfID region fleet = ri_Endpoint <$> (same ++ other) /\
    same ++ other ≡ₚ List.filter (eligible selfID) fleet /\
    Forall (fun r => ri_Region r = region) same /\ Forall (fun r => ri_Region r <> region) other /\
    Sorted byID same /\ Sorted byID other.
Proof.
  unfold Successors, successor_relays. rewrite split_fleet_filter. eexists _, _. split; [done|].
  split_and!; try apply SortByID_sorted.
  - rewrite !SortByID_perm. apply filter_split_Permutation.
  - rewrite SortByID_perm. apply List.Forall_forall. intros r [_ Hr]%List.filter_In.
    apply andb_true_iff in Hr as [_ Hr]. by apply String.eqb_eq.
  - rewrite SortByID_perm. apply List.Forall_forall. intros r [_ Hr]%List.filter_In.
    apply andb_true_iff in Hr as [_ Hr]. apply negb_true_iff in Hr. by apply String.eqb_neq.
Qed.

(** The heartbeat keeps every subscriber on the latest list.  After any run of
    beats, failed ones included, a subscriber registered before it holds the list
    derived from the last answer the controller gave (the empty list before any),
    the heartbeat remembers the same list, and a beat calls nobody unless the
    list has changed. *)
Theorem heartbeat_publishes id region endpoint period n i resps :
  (i < n)%nat ->
  let h0 := Nat.iter n OnSuccessors (NewHeartbeat id region endpoint period) in
  let h := beats resps h0 in
  held i [] (hb_calls h) = latest id region resps /\ hb_last h = latest id region resps /\
  (forall resp, hb_last (beat resp h) = hb_last h -> hb_calls (beat resp h) = hb_calls h) /\
  0 < hb_period h.
Proof.
  intros Hi h0 h.
  assert (H0 : hb_id h0 = id /\ hb_region h0 = region /\ hb_last h0 = [] /\ hb_subs h0 = n /\
    hb_calls h0 = [] /\ 0 < hb_period h0).
  { unfold h0. clear. induction n as [|n IH]; simpl; [|naive_solver]. split_and!; try done.
    destruct (Z.leb_spec period 0); [done|lia]. }
  assert (Hh : hb_id h = id /\ hb_region h = region /\ hb_subs h = n /\ 0 < hb_period h /\
    hb_last h = latest id region resps /\ held i [] (hb_calls h) = latest id region resps).
  { unfold h. induction resps as [|resp resps IH] using rev_ind.
    - simpl. destruct H0 as (? & ? & -> & ? & -> & ?). done.
    - unfold beats, latest in *. rewrite !foldl_app. simpl. set (k := foldl _ h0 resps) in *.
      destruct IH as (E1 & E2 & E3 & E4 & E5 & E6). destruct resp as [relays|]; simpl; [|done].
      rewrite E1, E2. case_decide as Hd; simpl.
      + rewrite E1, E2, Hd. split_and!; try done. congruence.
      + split_and!; try done. rewrite held_app, E3. by apply held_seq. }
  destruct Hh as (E1 & E2 & E3 & E4 & E5 & E6). split_and!; try done.
  intros resp. destruct resp; simpl; [|done]. case_decide; [done|]. simpl. done.
Qed.

End Properties.

Lemma heartbeat_publishes_witness :
  let SF := merge_SortFunc in
  let h0 := Nat.iter 1 OnSuccessors (NewHeartbeat "a" "kr" "a:443" 0) in
  let resps := [Some [mkRelay "b" "kr" "b:443"; mkRelay "a" "kr" "a:443"]; None] in
  let h := beats resps h0 in
  held 0 [] (hb_calls h) = latest "a" "kr" resps /\ hb_last h = latest "a" "kr" resps /\
  (forall resp, hb_last (beat resp h) = hb_last h -> hb_calls (beat resp h) = hb_calls h) /\
  0 < hb_period h.
Proof. intros SF h0 resps. apply (heartbeat_publishes (SF := SF)). apply Nat.lt_0_1. Defined.

(** C33: relays of a region agree on the fallback order.  Let relays [a] and [b] of
    one region see the same fleet, in any order and whatever their sorting does
    with ties: the lists they derive differ only in that each leaves itself out.
    In particular one relay derives the same list every time ([a] = [b]). *)
Theorem Successors_agree (SF1 SF2 : SortFunc) a b region fleet fleet' :
  NoDup (ri_Id <$> fleet) -> fleet ≡ₚ fleet' ->
  List.filter (fun r => negb (String.eqb (ri_Id r) b)) (@successor_relays SF1 a region fleet) =
  List.filter (fun r => negb (String.eqb (ri_Id r) a)) (@successor_relays SF2 b region fleet').
Proof.
  intros Hn Hp. unfold successor_relays. rewrite !split_fleet_filter, !filter_app_bool.
  f_equal; apply group_unique; try done; intros r; unfold eligible, in_region;
    destruct (String.eqb (ri_Id r) a), (String.eqb (ri_Id r) b), (String.eqb (ri_Endpoint r) ""),
      (String.eqb (ri_Region r) region); done.
Qed.

Definition demo_fleet : list RelayInstance :=
  [mkRelay "c" "us" "c:443"; mkRelay "b" "kr" "b:443"; mkRelay "a" "kr" "a:443"; mkRelay "d" "kr" ""].

Lemma Successors_agree_witness :
  List.filter (fun r => negb (String.eqb (ri_Id r) "b"))
    (@successor_relays merge_SortFunc "a" "kr" demo_fleet) =
  List.filter (fun r => negb (String.eqb (ri_Id r) "a"))
    (@successor_relays merge_SortFunc "b" "kr" (reverse demo_fleet)).
Proof.
  apply Successors_agree.
  - apply (bool_decide_unpack _). vm_compute. exact I.
  - symmetry. apply reverse_Permutation.
Defined.

Lemma Successors_spec_witness : exists same other,
  @Successors merge_SortFunc "a" "kr" demo_fleet = ri_Endpoint <$> (same ++ other) /\
  same ++ other ≡ₚ List.filter (eligible "a") demo_fleet /\
  Forall (fun r => ri_Region r = "kr") same /\ Forall (fun r => ri_Region r <> "kr") other /\
  Sorted byID same /\ Sorted byID other.
Proof. apply (Successors_spec (SF := merge_SortFunc)). Defined.
