(* ===== verification/Registry.v ===== *)
(** * Registry: [pkg/registry/registry.go] and the life of an agent connection

    The relay's directory of connected agents, and the part of
    [serveConn] ([pkg/edge/edge.go]) that fills and empties it: admission by
    certificate, registration, and the three separately locked steps of its
    deferred teardown, which interleave with the other connections of the relay. *)

From S2P Require Import Prelude ForwardPlane ForwardInv.

(** [identity.Parse]: the tenant of a URI and whether its role is [RoleRelay];
    [None] is an error.  An empty string is not a URI. *)
Record Name := mkName { Tenant : string; isRelay : bool }.

Class Identity := {
  Parse : string -> option Name;
  Parse_empty : Parse "" = None
}.

(** What the controller says of a provider. *)
Record ProviderInfo := mkProvider { pi_RelayId : string; pi_RelayEndpoint : string; pi_AgentUri : string }.

Record Remote := mkRemote { rm_RelayID : string; rm_Endpoint : string; rm_AgentURI : string }.

Record ResolveRequest := mkResolve { rq_Tenant : string; rq_ServiceName : string; rq_CallerRegion : string }.
Record DeregisterAgentRequest := mkDeregister { dq_Tenant : string; dq_AgentUri : string; dq_RelayId : string }.
Record RegisterServiceRequest := mkRegister {
  sq_Tenant : string; sq_ServiceName : string; sq_AgentUri : string; sq_RelayId : string; sq_LocalAddr : string
}.

Inductive resolve_result :=
  | RLocal (p : nat)
  | RRemote (r : Remote)
  | RNotFound          (** [ErrServiceNotFound] *)
  | RNoTenant          (** the caller's URI does not parse *)
  | RControllerError.

(** A [Provider] is the number of an agent connection. *)
Record Registry := mkRegistry { relayID : string; region : string; agentConns : gmap string nat }.

Definition NewRegistry (relayID region : string) : Registry := mkRegistry relayID region ∅.

Definition RegisterAgent (uri : string) (p : nat) (r : Registry) : Registry :=
  mkRegistry (relayID r) (region r) (<[uri := p]> (agentConns r)).

Definition LookupAgent (uri : string) (r : Registry) : option nat := agentConns r !! uri.

Section Registry.
Context {ID : Identity}.

Definition tenantOf (uri : string) : string :=
  match Parse uri with None => "" | Some n => Tenant n end.

(** The new directory, and the request sent to the controller, if any. *)
Definition UnregisterAgent (uri : string) (r : Registry) : Registry * option DeregisterAgentRequest :=
  let r := mkRegistry (relayID r) (region r) (delete uri (agentConns r)) in
  let tenant := tenantOf uri in
  if String.eqb tenant "" then (r, None)
  else (r, Some (mkDeregister tenant uri (relayID r))).

(** [RegisterService] against a controller [ask] that answers with a service id
    or an error; [None] is any error of the call. *)
Definition RegisterService (ask : RegisterServiceRequest -> option string)
    (agentURI serviceName localAddr : string) (r : Registry) : option string :=
  let tenant := tenantOf agentURI in
  if String.eqb tenant "" then None
  else ask (mkRegister tenant serviceName agentURI (relayID r) localAddr).

(** [Resolve] against a controller [ask]: a list of providers or an error. *)
Definition Resolve (ask : ResolveRequest -> option (list ProviderInfo)) (callerURI name : string) (r : Registry) :
    resolve_result :=
  let tenant := tenantOf callerURI in
  if String.eqb tenant "" then RNoTenant
  else
    match ask (mkResolve tenant name (region r)) with
    | None => RControllerError
    | Some [] => RNotFound
    | Some (prov :: _) =>
        if negb (String.eqb (pi_RelayId prov) (relayID r))
        then RRemote (mkRemote (pi_RelayId prov) (pi_RelayEndpoint prov) (pi_AgentUri prov))
        else
          match agentConns r !! pi_AgentUri prov with
          | None => RNotFound
          | Some p => RLocal p
          end
    end.

(** ** Admission *)

(** [uriFromConn]: the first URI of the leaf certificate. *)
Definition uriFromConn (certs : list (list string)) : option string :=
  match certs with
  | (u :: _) :: _ => Some u
  | _ => None
  end.

Inductive admission :=
  | Refused
  | PeerRelay (uri : string)
  | Agent (uri : string).

(** [serveConn] up to the registration: [hello] is the agent URI of the HELLO
    frame, [None] if none could be read; [ack] says whether HELLO_ACK could be
    written. *)
Definition admitConn (certs : list (list string)) (hello : option string) (ack : bool) : admission :=
  match uriFromConn certs with
  | None => Refused
  | Some uri =>
      match Parse uri with
      | None => Refused
      | Some name =>
          if isRelay name then PeerRelay uri
          else
            match hello with
            | None => Refused
            | Some claimed => if negb (String.eqb claimed uri) then Refused else if ack then Agent uri else Refused
            end
      end
  end.

(** ** Agent sessions *)

(** Where the [serveConn] goroutine of a connection is. *)
Inductive conn_pc := CRegistered | CLive | CUntracked | CUnregistered | CGone.

Record sessions := mkSessions {
  se_reg : Registry;
  se_agents : gset nat;                              (** [Server.agents] *)
  se_conns : gmap nat (string * conn_pc);            (** admitted connections *)
  se_forward : option Plane;
  se_deregs : list DeregisterAgentRequest
}.

Inductive sess_event :=
  | SConnect (c : nat) (certs : list (list string)) (hello : option string) (ack : bool)
  | STrack (c : nat)
  | SUntrack (c : nat)
  | SUnregister (c : nat)
  | SForget (c : nat)
  | SPlane (op : plane_op).

Definition set_conn (c : nat) (uri : string) (pc : conn_pc) (s : sessions) : sessions :=
  mkSessions (se_reg s) (se_agents s) (<[c := (uri, pc)]> (se_conns s)) (se_forward s) (se_deregs s).

(** [trackAgent] and [untrackAgent]; [liveAgents] copies the set (in no particular
    order), [AgentCount] is its size. *)
Definition trackAgent (c : nat) (s : sessions) : sessions :=
  mkSessions (se_reg s) ({[c]} ∪ se_agents s) (se_conns s) (se_forward s) (se_deregs s).
Definition untrackAgent (c : nat) (s : sessions) : sessions :=
  mkSessions (se_reg s) (se_agents s ∖ {[c]}) (se_conns s) (se_forward s) (se_deregs s).
Definition liveAgents (s : sessions) : list nat := elements (se_agents s).
Definition AgentCount (s : sessions) : nat := size (se_agents s).

(** One step of one goroutine; [None] if it is not at that point. *)
Definition sess_exec (s : sessions) (ev : sess_event) : option sessions :=
  match ev with
  | SConnect c certs hello ack =>
      match se_conns s !! c with
      | Some _ => None
      | None =>
          match admitConn certs hello ack with
          | Agent uri =>
              let s := set_conn c uri CRegistered s in
              Some (mkSessions (RegisterAgent uri c (se_reg s)) (se_agents s) (se_conns s) (se_forward s) (se_deregs s))
          | _ => Some s
          end
      end
  | STrack c =>
      match se_conns s !! c with
      | Some (uri, CRegistered) =>
          Some (trackAgent c (set_conn c uri CLive s))
      | _ => None
      end
  | SUntrack c =>
      match se_conns s !! c with
      | Some (uri, CLive) =>
          Some (untrackAgent c (set_conn c uri CUntracked s))
      | _ => None
      end
  | SUnregister c =>
      match se_conns s !! c with
      | Some (uri, CUntracked) =>
          let s := set_conn c uri CUnregistered s in
          let '(reg, req) := UnregisterAgent uri (se_reg s) in
          Some (mkSessions reg (se_agents s) (se_conns s) (se_forward s) (se_deregs s ++ option_list req))
      | _ => None
      end
  | SForget c =>
      match se_conns s !! c with
      | Some (uri, CUnregistered) =>
          let s := set_conn c uri CGone s in
          Some (mkSessions (se_reg s) (se_agents s) (se_conns s)
                  ((fun p => (ForgetAgent uri p).2) <$> se_forward s) (se_deregs s))
      | _ => None
      end
  | SPlane op =>
      Some (mkSessions (se_reg s) (se_agents s) (se_conns s) ((fun p => plane_exec p op) <$> se_forward s) (se_deregs s))
  end.

Inductive sess_reach (r0 : Registry) (fw : option Plane) : sessions -> Prop :=
  | sr_init : agentConns r0 = ∅ -> sess_reach r0 fw (mkSessions r0 ∅ ∅ fw [])
  | sr_step s s' ev : sess_reach r0 fw s -> sess_exec s ev = Some s' -> sess_reach r0 fw s'.

Fixpoint sess_run (evs : list sess_event) (s : sessions) : option sessions :=
  match evs with
  | [] => Some s
  | ev :: evs' => match sess_exec s ev with Some s' => sess_run evs' s' | None => None end
  end.

(** The teardown [serveConn] defers, run without interruption. *)
Definition teardown (c : nat) : list sess_event := [SUntrack c; SUnregister c; SForget c].

(** A connection whose entry has not been removed by its own teardown yet. *)
Definition up (pc : conn_pc) : bool :=
  match pc with CRegistered | CLive | CUntracked => true | _ => false end.

Record sess_inv (s : sessions) : Prop := {
  si_entry : forall uri c, agentConns (se_reg s) !! uri = Some c ->
    exists pc, se_conns s !! c = Some (uri, pc) /\ up pc = true;
  si_agents : forall c, c ∈ se_agents s <-> exists uri, se_conns s !! c = Some (uri, CLive);
  si_uri : forall c uri pc, se_conns s !! c = Some (uri, pc) -> uri <> "" /\ exists n, Parse uri = Some n /\ isRelay n = false
}.

(** ** Preservation *)

Lemma admitConn_agent certs hello ack uri :
  admitConn certs hello ack = Agent uri ->
  uriFromConn certs = Some uri /\ hello = Some uri /\ exists n, Parse uri = Some n /\ isRelay n = false.
Proof.
  unfold admitConn. destruct (uriFromConn certs) as [u|]; [|done]. destruct (Parse u) as [n|] eqn:Hp; [|done].
  destruct (isRelay n) eqn:Hr; [done|]. destruct hello as [v|]; [|done].
  destruct (String.eqb_spec v u) as [->|]; simpl; [|done]. destruct ack; [|done]. intros [= <-]. eauto.
Qed.

(** A connection moves on without touching the directory. *)
Lemma sess_inv_move s c uri pc pc' agents fw deregs :
  sess_inv s -> se_conns s !! c = Some (uri, pc) -> up pc' = up pc ->
  (forall k, k ∈ agents <-> exists u, <[c := (uri, pc')]> (se_conns s) !! k = Some (u, CLive)) ->
  sess_inv (mkSessions (se_reg s) agents (<[c := (uri, pc')]> (se_conns s)) fw deregs).
Proof.
  intros [He Ha Hu] Hc Hup Hag. split; simpl; [|done|].
  - intros u k (q & Hq & Hqu)%He. insert_cases k c.
    + simplify_eq. exists pc'. split; [done|congruence].
    + eauto.
  - intros k u q. insert_cases k c.
    + intros [= <- <-]. eauto.
    + eauto.
Qed.

Lemma agents_move s c uri pc pc' :
  sess_inv s -> se_conns s !! c = Some (uri, pc) -> pc <> CLive -> pc' <> CLive ->
  forall k, k ∈ se_agents s <-> exists u, <[c := (uri, pc')]> (se_conns s) !! k = Some (u, CLive).
Proof.
  intros Hi Hc Hp Hp' k. rewrite (si_agents s Hi). destruct (decide (k = c)) as [->|].
  - rewrite lookup_insert_eq. naive_solver.
  - by rewrite lookup_insert_ne.
Qed.

Lemma sess_exec_inv s ev s' : sess_inv s -> sess_exec s ev = Some s' -> sess_inv s'.
Proof.
  intros Hi. destruct ev as [c certs hello ack|c|c|c|c|op]; simpl.
  - destruct (se_conns s !! c) eqn:Hc; [done|].
    destruct (admitConn certs hello ack) as [| |uri] eqn:Hadm; [by intros [= <-]..|].
    apply admitConn_agent in Hadm as (_ & _ & n & Hn & Hr). intros [= <-]. destruct Hi as [He Ha Hu].
    split; simpl.
    + intros u k. insert_cases u uri.
      * intros [= <-]. exists CRegistered. by rewrite lookup_insert_eq.
      * intros (q & ? & ?)%He. exists q.
        rewrite lookup_insert_ne by congruence. done.
    + intros k. rewrite Ha. destruct (decide (k = c)) as [->|]; [|by rewrite lookup_insert_ne].
      rewrite lookup_insert_eq. naive_solver.
    + intros k u q. destruct (decide (k = c)) as [->|]; [|rewrite lookup_insert_ne by done; apply Hu].
      rewrite lookup_insert_eq. intros [= <- <-]. split; [|eauto]. intros ->. by rewrite Parse_empty in Hn.
  - destruct (se_conns s !! c) as [[uri []]|] eqn:Hc; try done. intros [= <-].
    apply (sess_inv_move s c uri CRegistered); try done. intros k. rewrite elem_of_union, elem_of_singleton.
    rewrite (si_agents s Hi). insert_cases k c.
    + naive_solver.
    + naive_solver.
  - destruct (se_conns s !! c) as [[uri []]|] eqn:Hc; try done. intros [= <-].
    apply (sess_inv_move s c uri CLive); try done. intros k. rewrite elem_of_difference, elem_of_singleton.
    rewrite (si_agents s Hi). insert_cases k c.
    + naive_solver.
    + naive_solver.
  - destruct (se_conns s !! c) as [[uri []]|] eqn:Hc; try done. unfold UnregisterAgent.
    assert (Hgo : forall d, sess_inv (mkSessions (mkRegistry (relayID (se_reg s)) (region (se_reg s))
      (delete uri (agentConns (se_reg s)))) (se_agents s) (<[c := (uri, CUnregistered)]> (se_conns s))
      (se_forward s) d)).
    { intros d. pose proof (agents_move s c uri CUntracked CUnregistered Hi Hc ltac:(done) ltac:(done)) as Hag.
      destruct Hi as [He Ha Hu]. split; simpl; [|done|].
      - intros u k [Hne Hk]%lookup_delete_Some. destruct (He u k Hk) as (q & Hq & ?). exists q.
        rewrite lookup_insert_ne; [done|]. intros <-. congruence.
      - intros k u q. destruct (decide (k = c)) as [->|]; [|rewrite lookup_insert_ne by done; apply Hu].
        rewrite lookup_insert_eq. intros [= <- <-]. eauto. }
    destruct (String.eqb _ _); intros [= <-]; apply Hgo.
  - destruct (se_conns s !! c) as [[uri []]|] eqn:Hc; try done. intros [= <-].
    apply (sess_inv_move s c uri CUnregistered); try done. by apply (agents_move s c uri CUnregistered).
  - intros [= <-]. by destruct Hi.
Qed.

Lemma sess_reach_inv r0 fw s : sess_reach r0 fw s -> sess_inv s.
Proof.
  induction 1 as [H0|s s' ev _ IH Hev]; [|by eapply sess_exec_inv].
  split; simpl; rewrite ?H0; intros *; rewrite ?lookup_empty; [done| |done]. set_solver.
Qed.

(** A connection keeps its identity. *)
Lemma sess_exec_conns s ev s' c uri pc : sess_exec s ev = Some s' -> se_conns s !! c = Some (uri, pc) ->
  exists pc', se_conns s' !! c = Some (uri, pc').
Proof.
  intros Hx Hc.
  assert (Hset : forall k u q q', se_conns s !! k = Some (u, q) -> exists pc', <[k := (u, q')]> (se_conns s) !! c = Some (uri, pc')).
  { intros k u q q' Hk. insert_cases c k; [|by eauto]. simplify_eq. eauto. }
  destruct ev as [k certs hello ack|k|k|k|k|op]; simpl in Hx.
  - destruct (se_conns s !! k) eqn:Hk; [done|]. destruct (admitConn certs hello ack); simplify_eq; [by eauto..|].
    exists pc. simpl. by rewrite lookup_insert_ne by congruence.
  - destruct (se_conns s !! k) as [[u []]|] eqn:Hk; simplify_eq. by eapply Hset.
  - destruct (se_conns s !! k) as [[u []]|] eqn:Hk; simplify_eq. by eapply Hset.
  - destruct (se_conns s !! k) as [[u []]|] eqn:Hk; try done. destruct (UnregisterAgent _ _); simplify_eq. by eapply Hset.
  - destruct (se_conns s !! k) as [[u []]|] eqn:Hk; simplify_eq. by eapply Hset.
  - simplify_eq. eauto.
Qed.

Lemma sess_run_reach r0 fw evs s s' : sess_reach r0 fw s -> sess_run evs s = Some s' -> sess_reach r0 fw s'.
Proof.
  revert s. induction evs as [|ev evs IH]; simpl; intros s Hs; [by intros [= <-]|].
  destruct (sess_exec s ev) as [s1|] eqn:E; [|done]. apply IH. by eapply sr_step.
Qed.

(** Runs in which an agent connects again only after its previous connection has
    been unregistered. *)
Definition no_overlap (s : sessions) (ev : sess_event) : Prop :=
  match ev with
  | SConnect _ certs hello ack =>
      forall uri c pc, admitConn certs hello ack = Agent uri -> se_conns s !! c = Some (uri, pc) -> up pc = false
  | _ => True
  end.

Inductive excl_reach (r0 : Registry) (fw : option Plane) : sessions -> Prop :=
  | er_init : agentConns r0 = ∅ -> excl_reach r0 fw (mkSessions r0 ∅ ∅ fw [])
  | er_step s s' ev : excl_reach r0 fw s -> no_overlap s ev -> sess_exec s ev = Some s' -> excl_reach r0 fw s'.

Definition listed (s : sessions) : Prop :=
  forall c uri pc, se_conns s !! c = Some (uri, pc) -> up pc = true -> agentConns (se_reg s) !! uri = Some c.

Lemma listed_move s c uri pc pc' agents fw deregs :
  listed s -> se_conns s !! c = Some (uri, pc) -> (up pc' = true -> up pc = true) ->
  listed (mkSessions (se_reg s) agents (<[c := (uri, pc')]> (se_conns s)) fw deregs).
Proof.
  intros Hl Hc Hup k u q. simpl. insert_cases k c.
  - intros [= <- <-] Hq. eauto.
  - apply Hl.
Qed.

Lemma sess_exec_listed s ev s' : listed s -> no_overlap s ev -> sess_exec s ev = Some s' -> listed s'.
Proof.
  intros Hl Hno. destruct ev as [c certs hello ack|c|c|c|c|op]; simpl in *.
  - destruct (se_conns s !! c) eqn:Hc; [done|].
    destruct (admitConn certs hello ack) as [| |uri] eqn:Hadm; [by intros [= <-]..|]. intros [= <-] k u q. simpl.
    insert_cases k c.
    + intros [= <- <-] _. apply lookup_insert_eq.
    + intros Hk Hq. rewrite lookup_insert_ne; [by eapply Hl|].
      intros <-. by rewrite (Hno uri k q) in Hq.
  - destruct (se_conns s !! c) as [[uri []]|] eqn:Hc; try done. intros [= <-]. by apply (listed_move s c uri _ _ _ _ _ Hl Hc).
  - destruct (se_conns s !! c) as [[uri []]|] eqn:Hc; try done. intros [= <-]. by apply (listed_move s c uri _ _ _ _ _ Hl Hc).
  - destruct (se_conns s !! c) as [[uri []]|] eqn:Hc; try done. unfold UnregisterAgent.
    assert (Hgo : forall d, listed (mkSessions (mkRegistry (relayID (se_reg s)) (region (se_reg s))
      (delete uri (agentConns (se_reg s)))) (se_agents s) (<[c := (uri, CUnregistered)]> (se_conns s))
      (se_forward s) d)).
    { intros d k u q. simpl. insert_cases k c.
      - intros [= <- <-]. done.
      - intros Hk Hq. pose proof (Hl k u q Hk Hq) as Hu.
        pose proof (Hl c uri CUntracked Hc eq_refl) as Hcu. rewrite lookup_delete_ne; congruence. }
    destruct (String.eqb _ _); intros [= <-]; apply Hgo.
  - destruct (se_conns s !! c) as [[uri []]|] eqn:Hc; try done. intros [= <-]. by eapply listed_move.
  - by intros [= <-].
Qed.

(** ** Properties *)

(** C24: the directory never points at a dead or a foreign connection.  Whatever
    the interleaving of connects and teardowns, an entry of the directory is a
    connection that was admitted with that very URI (one that parses and is not a
    relay's) and has not unregistered; the set of live agents is exactly the
    connections between registration and teardown; and so [Resolve] hands out a
    local provider only if the controller named an agent of this relay, and then
    that agent's own connection. *)
Theorem directory_sound r0 fw s :
  sess_reach r0 fw s ->
  (forall uri c, LookupAgent uri (se_reg s) = Some c ->
     (exists pc, se_conns s !! c = Some (uri, pc) /\ up pc = true) /\
     exists n, Parse uri = Some n /\ isRelay n = false) /\
  (forall c, c ∈ se_agents s <-> exists uri, se_conns s !! c = Some (uri, CLive)) /\
  (forall ask callerURI name p, Resolve ask callerURI name (se_reg s) = RLocal p ->
     exists prov rest, ask (mkResolve (tenantOf callerURI) name (region (se_reg s))) = Some (prov :: rest) /\
       pi_RelayId prov = relayID (se_reg s) /\ tenantOf callerURI <> "" /\
       exists pc, se_conns s !! p = Some (pi_AgentUri prov, pc) /\ up pc = true).
Proof.
  intros [He Ha Hu]%sess_reach_inv. split_and!; [|done|].
  - intros uri c Hc. destruct (He uri c Hc) as (pc & Hpc & Hup). destruct (Hu c uri pc Hpc) as [_ ?]. eauto.
  - intros ask callerURI name p. unfold Resolve. destruct (String.eqb_spec (tenantOf callerURI) ""); [done|].
    destruct (ask _) as [[|prov rest]|]; try done.
    destruct (String.eqb_spec (pi_RelayId prov) (relayID (se_reg s))); simpl; [|done].
    destruct (agentConns (se_reg s) !! pi_AgentUri prov) eqn:Hp; [|done]. intros [= ->].
    exists prov, rest. split_and!; try done. by apply He.
Qed.

(** While no agent has two overlapping connections, the directory is complete:
    every connection between its registration and its own unregistration is the
    one the directory gives for its URI. *)
Theorem directory_complete r0 fw s c uri pc :
  excl_reach r0 fw s -> se_conns s !! c = Some (uri, pc) -> up pc = true ->
  LookupAgent uri (se_reg s) = Some c.
Proof.
  intros Hs Hc Hup. assert (Hl : listed s); [|by eapply Hl]. clear -Hs.
  induction Hs as [H0|s s' ev _ IH Hno Hev]; [|by eapply sess_exec_listed].
  intros c uri pc. simpl. by rewrite lookup_empty.
Qed.

(** A late teardown takes a reconnected agent out of the relay.  Let an agent
    have two live connections, the old one dying and the new one it reconnected
    with.  When the old connection's teardown runs, the directory loses the agent
    and the forward plane loses all its allocations, those made over the new
    connection included, and the controller is told to drop its services, while
    the new connection stays attached and live. *)
Theorem reconnect_race s c1 c2 uri p :
  sess_inv s -> c1 <> c2 -> se_conns s !! c1 = Some (uri, CLive) -> se_conns s !! c2 = Some (uri, CLive) ->
  tenantOf uri <> "" -> se_forward s = Some p -> plane_inv p ->
  exists s' p', sess_run (teardown c1) s = Some s' /\
    se_conns s' !! c2 = Some (uri, CLive) /\ c2 ∈ se_agents s' /\
    LookupAgent uri (se_reg s') = None /\
    se_forward s' = Some p' /\ (forall i, OwnerOf i p' <> Some uri) /\
    se_deregs s' = se_deregs s ++ [mkDeregister (tenantOf uri) uri (relayID (se_reg s))].
Proof.
  intros Hi Hne H1 H2 Ht Hf Hp. pose proof (si_uri s Hi c1 uri CLive H1) as [Hu _].
  assert (Hin : c2 ∈ se_agents s) by (apply (si_agents s Hi); eauto).
  cbn [teardown sess_run sess_exec]. rewrite H1. cbn. rewrite lookup_insert_eq. unfold UnregisterAgent.
  destruct (String.eqb_spec (tenantOf uri) ""); [done|]. cbn. rewrite lookup_insert_eq. rewrite Hf. cbn.
  eexists _, _. split; [done|]. cbn. rewrite !lookup_insert_ne by done. split_and!; try done.
  - set_solver.
  - apply lookup_delete_eq.
  - intros i. by apply ForgetAgent_owner.
Qed.

End Registry.

(** A parser for the examples: agent URIs of one tenant. *)
Definition demo_identity : Identity := {|
  Parse u := if String.eqb u "outrelay://acme/agent/c" then Some (mkName "acme" false) else None;
  Parse_empty := eq_refl
|}.

Definition reconnect_evs : list sess_event :=
  [SConnect 1 [["outrelay://acme/agent/c"]] (Some "outrelay://acme/agent/c") true; STrack 1;
   SConnect 2 [["outrelay://acme/agent/c"]] (Some "outrelay://acme/agent/c") true; STrack 2;
   SPlane (PAllocate "outrelay://acme/agent/c" 5)].
Definition sess0 : sessions := mkSessions (NewRegistry "r1" "kr") ∅ ∅ (Some NewPlane) [].
Definition reconnect_state : sessions := default sess0 (@sess_run demo_identity reconnect_evs sess0).

Lemma reconnect_reach : @sess_reach demo_identity (NewRegistry "r1" "kr") (Some NewPlane) reconnect_state.
Proof.
  apply (@sess_run_reach demo_identity _ _ reconnect_evs sess0); [by apply sr_init|]. vm_compute. reflexivity.
Qed.

Lemma directory_sound_witness :
  (forall uri c, LookupAgent uri (se_reg reconnect_state) = Some c ->
     (exists pc, se_conns reconnect_state !! c = Some (uri, pc) /\ up pc = true) /\
     exists n, @Parse demo_identity uri = Some n /\ isRelay n = false) /\
  (forall c, c ∈ se_agents reconnect_state <-> exists uri, se_conns reconnect_state !! c = Some (uri, CLive)) /\
  (forall ask callerURI name p, @Resolve demo_identity ask callerURI name (se_reg reconnect_state) = RLocal p ->
     exists prov rest,
       ask (mkResolve (@tenantOf demo_identity callerURI) name (region (se_reg reconnect_state))) = Some (prov :: rest) /\
       pi_RelayId prov = relayID (se_reg reconnect_state) /\ @tenantOf demo_identity callerURI <> "" /\
       exists pc, se_conns reconnect_state !! p = Some (pi_AgentUri prov, pc) /\ up pc = true).
Proof. apply (@directory_sound demo_identity (NewRegistry "r1" "kr") (Some NewPlane)). apply reconnect_reach. Defined.

(** The first connection alone. *)
Definition single_state : sessions :=
  default sess0 (@sess_run demo_identity (take 1 reconnect_evs) sess0).

Lemma directory_complete_witness : LookupAgent "outrelay://acme/agent/c" (se_reg single_state) = Some 1%nat.
Proof.
  apply (@directory_complete demo_identity (NewRegistry "r1" "kr") (Some NewPlane) single_state 1
    "outrelay://acme/agent/c" CRegistered); [|vm_compute; reflexivity..].
  apply (@er_step demo_identity _ _ sess0 _
    (SConnect 1 [["outrelay://acme/agent/c"]] (Some "outrelay://acme/agent/c") true)).
  - by apply er_init.
  - intros uri c pc _. simpl. by rewrite lookup_empty.
  - vm_compute. reflexivity.
Defined.

Lemma reconnect_race_witness : exists s' p',
  @sess_run demo_identity (teardown 1) reconnect_state = Some s' /\
  se_conns s' !! 2%nat = Some ("outrelay://acme/agent/c", CLive) /\ 2%nat ∈ se_agents s' /\
  LookupAgent "outrelay://acme/agent/c" (se_reg s') = None /\
  se_forward s' = Some p' /\ (forall i, OwnerOf i p' <> Some "outrelay://acme/agent/c") /\
  se_deregs s' = se_deregs reconnect_state ++
    [mkDeregister (@tenantOf demo_identity "outrelay://acme/agent/c") "outrelay://acme/agent/c"
       (relayID (se_reg reconnect_state))].
Proof.
  apply (@reconnect_race demo_identity reconnect_state 1 2 "outrelay://acme/agent/c"
    (plane_run [PAllocate "outrelay://acme/agent/c" 5])); try (vm_compute; reflexivity); try done.
  - apply (@sess_reach_inv demo_identity (NewRegistry "r1" "kr") (Some NewPlane)). apply reconnect_reach.
  - apply plane_run_inv; [repeat constructor; discriminate|reflexivity].
Defined.
