(* ===== verification/AuditQueue.v ===== *)
(** * AuditQueue: [pkg/audit/emitter.go]

    The bounded queue between the stream handlers, which must not block, and the
    goroutine that ships events to the controller. *)

From S2P Require Import Prelude.

Definition QueueDepth : nat := 1024.

Record AuditEvent := mkEvent {
  ev_TsUnixMs : Z;
  ev_Tenant : string;
  ev_Caller : string;
  ev_Target : string;
  ev_Method : string;
  ev_Deny : bool;
  ev_Reason : string
}.

(** [em_shipped] are the events handed to [client.Record]; [em_warnings] counts
    the "queue full" log lines; [em_running] is false once [Run] has returned. *)
Record Emitter := mkEmitter {
  em_queue : list AuditEvent;
  em_shipped : list AuditEvent;
  em_warnings : nat;
  em_running : bool
}.

Definition NewEmitter : Emitter := mkEmitter [] [] 0 true.

(** [Emit]: a non-blocking send on a channel of capacity [QueueDepth]. *)
Definition Emit (ev : AuditEvent) (e : Emitter) : Emitter :=
  if (length (em_queue e) <? QueueDepth)%nat
  then mkEmitter (em_queue e ++ [ev]) (em_shipped e) (em_warnings e) (em_running e)
  else mkEmitter (em_queue e) (em_shipped e) (S (em_warnings e)) (em_running e).

(** One turn of [Run] that receives; a failed [Record] is logged and forgotten, so
    its outcome does not show.  [None]: the goroutine is waiting or gone. *)
Definition Ship (e : Emitter) : option Emitter :=
  match em_running e, em_queue e with
  | true, ev :: q => Some (mkEmitter q (em_shipped e ++ [ev]) (em_warnings e) true)
  | _, _ => None
  end.

(** [Run] returning because its context is done. *)
Definition StopRun (e : Emitter) : Emitter :=
  mkEmitter (em_queue e) (em_shipped e) (em_warnings e) false.

Inductive audit_op := OEmit (ev : AuditEvent) | OShip | OStop.

Definition audit_exec (e : Emitter) (op : audit_op) : Emitter :=
  match op with
  | OEmit ev => Emit ev e
  | OShip => default e (Ship e)
  | OStop => StopRun e
  end.

Definition audit_run (ops : list audit_op) : Emitter := foldl audit_exec NewEmitter ops.

(** The events of [ops] that found room, in order. *)
Definition accepted_from (e : Emitter) (ops : list audit_op) : list AuditEvent :=
  (foldl (fun '(e, acc) op =>
     (audit_exec e op,
      match op with
      | OEmit ev => if (length (em_queue e) <? QueueDepth)%nat then acc ++ [ev] else acc
      | _ => acc
      end)) (e, []) ops).2.

Definition emitted (ops : list audit_op) : list AuditEvent :=
  omap (fun op => match op with OEmit ev => Some ev | _ => None end) ops.

Lemma audit_run_snoc ops op : audit_run (ops ++ [op]) = audit_exec (audit_run ops) op.
Proof. unfold audit_run. by rewrite foldl_app. Qed.

Lemma accepted_state e ops acc :
  (foldl (fun '(e, acc) op =>
     (audit_exec e op,
      match op with
      | OEmit ev => if (length (em_queue e) <? QueueDepth)%nat then acc ++ [ev] else acc
      | _ => acc
      end)) (e, acc) ops).1 = foldl audit_exec e ops.
Proof. revert e acc. induction ops as [|op ops IH]; intros e acc; simpl; [done|]. apply IH. Qed.

Lemma accepted_snoc ops op :
  accepted_from NewEmitter (ops ++ [op]) = accepted_from NewEmitter ops ++
    match op with
    | OEmit ev => if (length (em_queue (audit_run ops)) <? QueueDepth)%nat then [ev] else []
    | _ => []
    end.
Proof.
  unfold accepted_from. rewrite foldl_app. simpl. pose proof (accepted_state NewEmitter ops []) as Hs.
  destruct (foldl _ _ ops) as [e acc]. simpl in *. subst e. fold (audit_run ops).
  destruct op; simpl; [|by rewrite List.app_nil_r..]. destruct (_ <? _)%nat; [done|by rewrite List.app_nil_r].
Qed.

(** The audit queue is a bounded FIFO that never blocks and never reorders.
    After any run, what was shipped followed by what is still queued is exactly
    the events that found room, in the order they were emitted; the queue never
    holds more than [QueueDepth] events; and every event that did not find room
    was dropped at a moment when the queue was full, with one warning each. *)
Theorem audit_fifo ops :
  let e := audit_run ops in
  em_shipped e ++ em_queue e = accepted_from NewEmitter ops /\
  (length (em_queue e) <= QueueDepth)%nat /\
  accepted_from NewEmitter ops `sublist_of` emitted ops /\
  (length (accepted_from NewEmitter ops) + em_warnings e = length (emitted ops))%nat /\
  (forall ev, em_warnings (Emit ev e) <> em_warnings e -> length (em_queue e) = QueueDepth).
Proof.
  intros e. assert (Hb : (length (em_queue e) <= QueueDepth)%nat /\
    em_shipped e ++ em_queue e = accepted_from NewEmitter ops /\
    accepted_from NewEmitter ops `sublist_of` emitted ops /\
    (length (accepted_from NewEmitter ops) + em_warnings e = length (emitted ops))%nat).
  { unfold e. clear e. induction ops as [|op ops IH] using rev_ind; [unfold QueueDepth; simpl; split_and!; [lia|done..]|].
    rewrite audit_run_snoc, accepted_snoc. unfold emitted. rewrite omap_app. fold (emitted ops).
    set (e := audit_run ops) in *. destruct IH as (IH1 & IH2 & IH3 & IH4). destruct op as [ev| |]; simpl.
    - unfold Emit. destruct (Nat.ltb_spec (length (em_queue e)) QueueDepth); simpl; rewrite ?List.length_app; simpl.
      + split_and!; [lia| |by apply sublist_app|lia]. by rewrite <- IH2, List.app_assoc.
      + rewrite List.app_nil_r. split_and!; [lia|done|by apply sublist_inserts_r|lia].
    - rewrite !List.app_nil_r. unfold Ship. destruct (em_running e), (em_queue e) as [|x q] eqn:Hq; simpl; rewrite ?Hq;
        simpl in *; try (split_and!; done || lia).
      split_and!; [lia| |done|lia]. by rewrite <- IH2, <- List.app_assoc.
    - by rewrite !List.app_nil_r. }
  destruct Hb as (H1 & H2 & H3 & H4). split_and!; try done. intros ev. unfold Emit.
  destruct (Nat.ltb_spec (length (em_queue e)) QueueDepth); simpl; [done|lia].
Qed.
