(* ===== verification/Splice.v ===== *)
(** * Splice: [pkg/splice/splice.go]

    The byte pump between the two streams of a pair, with Go's [io.CopyBuffer]
    that it runs.  A source is the sequence of results its [Read] returns; a
    destination answers each [Write]. *)

From S2P Require Import Prelude.

Definition BufferSize : Z := 64 * 1024.
Definition AbortCode : Z := 0x0A.

(** Errors, up to [errors.Is(err, io.EOF)]. *)
Inductive io_err := EOF | ErrOther (msg : string).

#[export] Instance io_err_eq_dec : EqDecision io_err.
Proof. solve_decision. Defined.

Record read_result := mkRead { rd_data : list Z; rd_err : option io_err }.

(** [Write] called for the [i]-th time with a buffer: the count and error it returns. *)
Definition writer : Type := nat -> list Z -> Z * option io_err.

(** The loop of [io.CopyBuffer]: the bytes the destination took and the error the
    copy returns; [Blocked] while the source has not ended. *)
Fixpoint CopyBuffer (i : nat) (src : list read_result) (dst : writer) : exec (list Z * option io_err) :=
  match src with
  | [] => Blocked
  | r :: src' =>
      let buf := rd_data r in
      let nr := Z.of_nat (length buf) in
      let continue (sent : list Z) (i : nat) :=
        match rd_err r with
        | None =>
            match CopyBuffer i src' dst with
            | Ret (rest, e) => Ret (sent ++ rest, e)
            | o => o
            end
        | Some EOF => Ret (sent, None)
        | Some e => Ret (sent, Some e)
        end in
      if 0 <? nr then
        let '(nw, ew) := dst i buf in
        let '(nw, ew) :=
          if (nw <? 0) || (nr <? nw)
          then (0, match ew with None => Some (ErrOther "invalid write result") | e => e end)
          else (nw, ew) in
        let sent := take (Z.to_nat nw) buf in
        match ew with
        | Some e => Ret (sent, Some e)
        | None => if negb (nr =? nw) then Ret (sent, Some (ErrOther "short write")) else continue sent (S i)
        end
      else continue [] i
  end.

(** What a destination stream supports beyond [Write]. *)
Record caps := mkCaps { isHalfCloser : bool; isAborter : bool }.

Inductive shutdown := CloseWrite | CancelWrite (code : Z) | CancelRead (code : Z).

Record copy_result := mkCopy {
  cr_sent : list Z;            (** the bytes the destination took *)
  cr_err : option io_err;      (** what [copyOne] returns beside their number *)
  cr_end : list shutdown       (** the calls that end the destination's stream *)
}.

Definition copyOne (c : caps) (dst : writer) (src : list read_result) : exec copy_result :=
  match CopyBuffer 0 src dst with
  | Ret (sent, err) =>
      if decide (err = None \/ err = Some EOF)
      then Ret (mkCopy sent None (if isHalfCloser c then [CloseWrite] else []))
      else Ret (mkCopy sent err
             (if isAborter c then [CancelWrite AbortCode; CancelRead AbortCode]
              else if isHalfCloser c then [CloseWrite] else []))
  | Panic m => Panic m | Blocked => Blocked | OutOfFuel => OutOfFuel
  end.

(** [Bidirectional]: two copies in two goroutines; [a_first] says whether the
    result of a -> b arrives first.  Returned: the total, the first error, and the
    two copies. *)
Definition Bidirectional (ca cb : caps) (wa wb : writer) (a b : list read_result) (a_first : bool) :
    exec (Z * option io_err * copy_result * copy_result) :=
  match copyOne cb wb a, copyOne ca wa b with
  | Ret ab, Ret ba =>
      let '(r1, r2) := if a_first then (ab, ba) else (ba, ab) in
      let total := Z.of_nat (length (cr_sent r1)) + Z.of_nat (length (cr_sent r2)) in
      Ret (total, match cr_err r1 with Some e => Some e | None => cr_err r2 end, ab, ba)
  | Blocked, _ | _, Blocked => Blocked
  | Panic m, _ | _, Panic m => Panic m
  | OutOfFuel, _ | _, OutOfFuel => OutOfFuel
  end.

(** The bytes a source delivers. *)
Definition payload (src : list read_result) : list Z := mjoin (rd_data <$> src).

(** How a source ends: the error of its first failing read, and what came before. *)
Fixpoint upto_end (src : list read_result) : option (list read_result * io_err) :=
  match src with
  | [] => None
  | r :: src' =>
      match rd_err r with
      | Some e => Some ([r], e)
      | None => match upto_end src' with Some (l, e) => Some (r :: l, e) | None => None end
      end
  end.

(** A destination that takes everything. *)
Definition healthy (w : writer) : Prop := forall i buf, w i buf = (Z.of_nat (length buf), None).

(** ** Lemmas *)

Lemma CopyBuffer_healthy dst src i : healthy dst ->
  CopyBuffer i src dst =
    match upto_end src with
    | None => Blocked
    | Some (l, e) => Ret (payload l, if decide (e = EOF) then None else Some e)
    end.
Proof.
  intros Hd. revert i. induction src as [|[buf err] src IH]; intros i; [done|]. cbn [CopyBuffer upto_end rd_data rd_err].
  assert (Hend : forall sent i', sent = buf ->
    match err with
    | None => match CopyBuffer i' src dst with Ret (rest, e) => Ret (sent ++ rest, e) | o => o end
    | Some EOF => Ret (sent, None)
    | Some e => Ret (sent, Some e)
    end =
    match match err with
          | Some e => Some ([mkRead buf err], e)
          | None => match upto_end src with Some (l, e) => Some (mkRead buf err :: l, e) | None => None end
          end with
    | None => Blocked
    | Some (l, e) => Ret (payload l, if decide (e = EOF) then None else Some e)
    end).
  { intros sent i' ->. unfold payload. destruct err as [[|m]|].
    - simpl. by rewrite List.app_nil_r.
    - simpl. by rewrite List.app_nil_r.
    - rewrite IH. destruct (upto_end src) as [[l e]|]; done. }
  destruct (Z.ltb_spec 0 (Z.of_nat (length buf))) as [Hpos|Hz].
  - rewrite Hd. destruct (Z.ltb_spec (Z.of_nat (length buf)) 0); [lia|].
    rewrite Z.ltb_irrefl. simpl orb. cbv iota beta. rewrite Z.eqb_refl. simpl negb. cbv iota.
    apply Hend. rewrite Nat2Z.id. by apply take_ge.
  - apply Hend. destruct buf; [done|simpl in Hz; lia].
Qed.

(** Whatever the destination does, it takes a prefix of what the source sends. *)
Lemma CopyBuffer_prefix dst src i sent e :
  CopyBuffer i src dst = Ret (sent, e) ->
  sent `prefix_of` payload src /\ (e = None -> exists l, upto_end src = Some (l, EOF) /\ sent = payload l).
Proof.
  revert i sent e. induction src as [|[buf err] src IH]; intros i sent e; [done|].
  cbn [CopyBuffer rd_data rd_err upto_end].
  assert (Hpay : payload (mkRead buf err :: src) = buf ++ payload src) by done. rewrite Hpay.
  assert (Hend : forall sent' i', sent' = buf ->
    match err with
    | None => match CopyBuffer i' src dst with Ret (rest, e) => Ret (sent' ++ rest, e) | o => o end
    | Some EOF => Ret (sent', None)
    | Some e => Ret (sent', Some e)
    end = Ret (sent, e) -> sent `prefix_of` buf ++ payload src /\
    (e = None -> exists l, match err with
       | Some e => Some ([mkRead buf err], e)
       | None => match upto_end src with Some (l, e) => Some (mkRead buf err :: l, e) | None => None end
       end = Some (l, EOF) /\ sent = payload l)).
  { intros sent' i' ->. destruct err as [[|m]|].
    - intros [= <- <-]. split; [by apply prefix_app_r|]. intros _. eexists. split; [done|].
      unfold payload. simpl. by rewrite List.app_nil_r.
    - intros [= <- <-]. split; [by apply prefix_app_r|done].
    - destruct (CopyBuffer i' src dst) as [[rest e']| | |] eqn:Hc; try done. intros [= <- <-].
      destruct (IH _ _ _ Hc) as [Hp Hn]. split; [by apply prefix_app|]. intros He.
      destruct (Hn He) as (l & -> & ->). eexists. split; done. }
  destruct (Z.ltb_spec 0 (Z.of_nat (length buf))) as [Hpos|Hz].
  - destruct (dst i buf) as [nw ew].
    destruct ((nw <? 0) || (Z.of_nat (length buf) <? nw)) eqn:Hb.
    { destruct ew; intros [= <- <-]; (split; [by apply prefix_nil|done]). }
    bool_to_prop. destruct ew as [x|].
    + intros [= <- <-]. split; [|done]. apply prefix_app_r. apply prefix_take.
    + destruct (Z.eqb_spec (Z.of_nat (length buf)) nw) as [<-|]; simpl negb; cbv iota.
      * apply Hend. rewrite Nat2Z.id. by apply take_ge.
      * intros [= <- <-]. split; [|done]. apply prefix_app_r. apply prefix_take.
  - apply Hend. destruct buf; [done|simpl in Hz; lia].
Qed.

(** The copy itself never returns end of file unless a write did. *)
Lemma CopyBuffer_eof dst src i sent :
  (forall i buf, (dst i buf).2 <> Some EOF) -> CopyBuffer i src dst <> Ret (sent, Some EOF).
Proof.
  intros Hw. revert i sent. induction src as [|[buf err] src IH]; intros i sent; [done|].
  cbn [CopyBuffer rd_data rd_err].
  assert (Hend : forall sent' i',
    match err with
    | None => match CopyBuffer i' src dst with Ret (rest, e) => Ret (sent' ++ rest, e) | o => o end
    | Some EOF => Ret (sent', None)
    | Some e => Ret (sent', Some e)
    end <> Ret (sent, Some EOF)).
  { intros sent' i'. destruct err as [[|m]|]; try done.
    destruct (CopyBuffer i' src dst) as [[rest e']| | |] eqn:Hc; try done.
    intros [= _ ->]. by eapply IH. }
  destruct (0 <? _); [|apply Hend]. pose proof (Hw i buf) as Hwi. destruct (dst i buf) as [nw ew]. simpl in Hwi.
  destruct (_ || _).
  - destruct ew; [|done]. intros [= _ ->]. done.
  - destruct ew; [intros [= _ ->]; done|]. destruct (negb _); [done|apply Hend].
Qed.

(** ** Properties *)

(** A relayed stream ends the way its source ended.  Whatever the destination
    does with its writes, [copyOne] delivers a prefix of the source's bytes, and:
    a destination that can be reset gets a FIN only if the copy ended with no
    error other than end of file; if its own writes never failed with end of file,
    a FIN means the source finished cleanly and every byte before its end was
    delivered; after any other end it is reset in both directions with the abort
    code and never sees a FIN. *)
Theorem copyOne_ends dst src r :
  copyOne (mkCaps true true) dst src = Ret r ->
  cr_sent r `prefix_of` payload src /\
  (cr_end r = [CloseWrite] /\ cr_err r = None \/
   cr_end r = [CancelWrite AbortCode; CancelRead AbortCode] /\ is_Some (cr_err r)) /\
  ((forall i buf, (dst i buf).2 <> Some EOF) -> cr_end r = [CloseWrite] ->
   exists l, upto_end src = Some (l, EOF) /\ cr_sent r = payload l).
Proof.
  unfold copyOne. destruct (CopyBuffer 0 src dst) as [[sent e]| | |] eqn:Hc; try done.
  destruct (CopyBuffer_prefix _ _ _ _ _ Hc) as [Hp Hn].
  case_decide as He; intros [= <-]; simpl; split_and!; try done.
  - by left.
  - intros Hw _. destruct He as [He|He]; [by apply Hn|]. destruct (CopyBuffer_eof dst src 0 sent Hw).
    congruence.
  - right. split; [done|]. destruct e; [eauto|]. destruct He. by left.
Qed.

Lemma copyOne_ends_witness :
  let dst := fun (i : nat) (buf : list Z) => if (i =? 0)%nat then (2, None) else (0, Some (ErrOther "reset")) in
  let src := [mkRead [1; 2] None; mkRead [3] (Some EOF)] in
  let r := mkCopy [1; 2] (Some (ErrOther "reset")) [CancelWrite AbortCode; CancelRead AbortCode] in
  cr_sent r `prefix_of` payload src /\
  (cr_end r = [CloseWrite] /\ cr_err r = None \/
   cr_end r = [CancelWrite AbortCode; CancelRead AbortCode] /\ is_Some (cr_err r)) /\
  ((forall i buf, (dst i buf).2 <> Some EOF) -> cr_end r = [CloseWrite] ->
   exists l, upto_end src = Some (l, EOF) /\ cr_sent r = payload l).
Proof. intros dst src r. apply copyOne_ends. vm_compute. reflexivity. Defined.

(** C35: between healthy streams nothing is lost, altered or miscounted.  If both
    sources come to an end and both destinations take what they are given,
    [Bidirectional] returns, in whichever order the two copies finish: each side
    has received exactly the bytes the other sent before its end, the total is
    their number, and the result is nil iff both sides ended cleanly, and
    otherwise the error of a side that did not. *)
Theorem Bidirectional_spec ca cb wa wb a b la ea lb eb a_first :
  healthy wa -> healthy wb -> upto_end a = Some (la, ea) -> upto_end b = Some (lb, eb) ->
  exists err ab ba,
    Bidirectional ca cb wa wb a b a_first =
      Ret (Z.of_nat (length (payload la)) + Z.of_nat (length (payload lb)), err, ab, ba) /\
    cr_sent ab = payload la /\ cr_sent ba = payload lb /\
    (err = None <-> ea = EOF /\ eb = EOF) /\
    (forall e, err = Some e -> e <> EOF /\ (e = ea \/ e = eb)).
Proof.
  intros Hwa Hwb Ha Hb. unfold Bidirectional, copyOne. rewrite !CopyBuffer_healthy, Ha, Hb by done.
  assert (Hd : forall e, (if decide (e = EOF) then None else Some e) = None \/
    (if decide (e = EOF) then None else Some e) = Some EOF <-> e = EOF).
  { intros e. case_decide; naive_solver. }
  destruct (decide (ea = EOF)) as [->|Hea], (decide (eb = EOF)) as [->|Heb];
    rewrite ?decide_True by tauto; rewrite ?decide_False by naive_solver; destruct a_first;
    (eexists _, _, _; split; [simpl; f_equal; f_equal; f_equal; f_equal; lia|]); simpl; naive_solver.
Qed.

Lemma Bidirectional_spec_witness :
  let w : writer := fun _ buf => (Z.of_nat (length buf), None) in
  exists err ab ba,
    Bidirectional (mkCaps true true) (mkCaps true true) w w
      [mkRead [1; 2] None; mkRead [3] (Some EOF)] [mkRead [9] (Some (ErrOther "lost"))] false =
      Ret (Z.of_nat (length (payload [mkRead [1; 2] None; mkRead [3] (Some EOF)])) +
           Z.of_nat (length (payload [mkRead [9] (Some (ErrOther "lost"))])), err, ab, ba) /\
    cr_sent ab = payload [mkRead [1; 2] None; mkRead [3] (Some EOF)] /\
    cr_sent ba = payload [mkRead [9] (Some (ErrOther "lost"))] /\
    (err = None <-> EOF = EOF /\ ErrOther "lost" = EOF) /\
    (forall e, err = Some e -> e <> EOF /\ (e = EOF \/ e = ErrOther "lost")).
Proof. apply Bidirectional_spec; done. Defined.
