(* ===== verification/Intra.v ===== *)
(** * Intra: [pkg/intra/pool.go]

    The pool of connections to peer relays, shared by all stream handlers, and
    the opening of a forwarded stream on one of them. *)

From S2P Require Import Prelude.

(** ** The pool *)

(** [p_alive] are the connections dialled and not closed yet, [p_dials] how many
    dials succeeded (they number the connections). *)
Record Pool := mkPool { p_conns : gmap string nat; p_alive : gset nat; p_dials : nat }.

Definition NewPool : Pool := mkPool ∅ ∅ 0.

(** [Get] up to the dial: the cached connection, or [None] for a miss. *)
Definition Get_cached (relayID : string) (p : Pool) : option nat := p_conns p !! relayID.

(** [Get] from a finished dial on; [false] is a failed dial.  The result is the
    connection returned, [None] for an error. *)
Definition Get_dialed (relayID : string) (dialed : bool) (p : Pool) : option nat * Pool :=
  if negb dialed then (None, p)
  else
    let c := p_dials p in
    let alive := {[c]} ∪ p_alive p in
    match p_conns p !! relayID with
    | Some existing => (Some existing, mkPool (p_conns p) (alive ∖ {[c]}) (S (p_dials p)))
    | None => (Some c, mkPool (<[relayID := c]> (p_conns p)) alive (S (p_dials p)))
    end.

Definition Drop (relayID : string) (p : Pool) : Pool :=
  match p_conns p !! relayID with
  | Some c => mkPool (delete relayID (p_conns p)) (p_alive p ∖ {[c]}) (p_dials p)
  | None => p
  end.

Definition ClosePool (p : Pool) : Pool :=
  mkPool ∅ (p_alive p ∖ list_to_set (map_to_list (p_conns p)).*2) (p_dials p).

(** The callers of [Get], each between its lookup and the end of its dial. *)
Record pool_state := mkPS {
  ps_pool : Pool;
  ps_dialing : gmap nat string;
  ps_got : list (nat * option nat)     (** history: what each [Get] returned *)
}.

Inductive pool_event :=
  | PGet (k : nat) (relayID : string)
  | PDialed (k : nat) (ok : bool)
  | PDrop (relayID : string)
  | PClose.

Definition pool_exec (s : pool_state) (ev : pool_event) : option pool_state :=
  match ev with
  | PGet k relayID =>
      match ps_dialing s !! k, Get_cached relayID (ps_pool s) with
      | Some _, _ => None
      | None, Some c => Some (mkPS (ps_pool s) (ps_dialing s) ((k, Some c) :: ps_got s))
      | None, None => Some (mkPS (ps_pool s) (<[k := relayID]> (ps_dialing s)) (ps_got s))
      end
  | PDialed k ok =>
      match ps_dialing s !! k with
      | None => None
      | Some relayID =>
          let '(c, p) := Get_dialed relayID ok (ps_pool s) in
          Some (mkPS p (delete k (ps_dialing s)) ((k, c) :: ps_got s))
      end
  | PDrop relayID => Some (mkPS (Drop relayID (ps_pool s)) (ps_dialing s) (ps_got s))
  | PClose => Some (mkPS (ClosePool (ps_pool s)) (ps_dialing s) (ps_got s))
  end.

Inductive pool_reach : pool_state -> Prop :=
  | pr_init : pool_reach (mkPS NewPool ∅ [])
  | pr_step s s' ev : pool_reach s -> pool_exec s ev = Some s' -> pool_reach s'.

Fixpoint pool_run (evs : list pool_event) (s : pool_state) : option pool_state :=
  match evs with
  | [] => Some s
  | ev :: evs' => match pool_exec s ev with Some s' => pool_run evs' s' | None => None end
  end.

(** ** Opening a forwarded stream *)

(** The peer relay's side of [ForwardStream]. *)
Inductive peer_reply := ReplyAccept | ReplyReject | ReplyOther | ReplyError.

(** [ForwardStream]: whether the stream could be opened, FORWARD_STREAM written,
    and what came back.  [true]: the stream is returned; [false]: an error, the
    stream, if any, closed. *)
Definition ForwardStream (opened written : bool) (reply : peer_reply) : bool :=
  if negb opened then false
  else if negb written then false
  else match reply with ReplyAccept => true | ReplyReject | ReplyOther | ReplyError => false end.

(** ** Invariant *)

(** The open connections are exactly the cached ones, each under one id. *)
Record pool_inv (p : Pool) : Prop := {
  po_alive : forall c, c ∈ p_alive p <-> exists id, p_conns p !! id = Some c;
  po_inj : forall id id' c, p_conns p !! id = Some c -> p_conns p !! id' = Some c -> id = id';
  po_fresh : forall id c, p_conns p !! id = Some c -> (c < p_dials p)%nat
}.

Lemma Get_dialed_inv relayID ok p : pool_inv p -> pool_inv (Get_dialed relayID ok p).2.
Proof.
  intros [Ha Hi Hf]. unfold Get_dialed. destruct ok; simpl; [|done].
  assert (Hn : p_dials p ∉ p_alive p) by (rewrite Ha; intros (id & ?%Hf); lia).
  destruct (p_conns p !! relayID) as [e|] eqn:He; simpl; split; simpl.
  - intros c. rewrite <- Ha. set_solver.
  - done.
  - intros id c ?%Hf. lia.
  - intros c. rewrite elem_of_union, elem_of_singleton, Ha. split.
    + intros [->|[id Hid]]; [exists relayID; apply lookup_insert_eq|].
      exists id. rewrite lookup_insert_ne by congruence. done.
    + intros [id Hid]. destruct (decide (id = relayID)) as [->|].
      * rewrite lookup_insert_eq in Hid. naive_solver.
      * rewrite lookup_insert_ne in Hid by done. eauto.
  - intros id id' c. rewrite !lookup_insert. repeat case_decide; subst; try done; [..|apply Hi].
    + intros [= <-] ?%Hf. lia.
    + intros ?%Hf [= <-]. lia.
  - intros id c. rewrite lookup_insert. case_decide; [intros [= <-]; lia|]. intros ?%Hf. lia.
Qed.

Lemma Drop_inv relayID p : pool_inv p -> pool_inv (Drop relayID p).
Proof.
  intros [Ha Hi Hf]. unfold Drop. destruct (p_conns p !! relayID) as [e|] eqn:He; [|done]. split; simpl.
  - intros c. rewrite elem_of_difference, elem_of_singleton, Ha. split.
    + intros [[id Hid] Hne]. exists id. rewrite lookup_delete_ne by congruence. done.
    + intros [id [Hne Hid]%lookup_delete_Some]. split; [eauto|]. intros ->. by apply Hne, (Hi _ _ e).
  - intros id id' c [_ ?]%lookup_delete_Some [_ ?]%lookup_delete_Some. eauto.
  - intros id c [_ ?]%lookup_delete_Some. eauto.
Qed.

Lemma ClosePool_inv p : pool_inv p -> pool_inv (ClosePool p).
Proof.
  intros [Ha Hi Hf]. split; simpl; [|by intros *; rewrite lookup_empty..].
  intros c. rewrite elem_of_difference, elem_of_list_to_set, Ha. split.
  - intros [[id Hid] Hn]. destruct Hn. apply list_elem_of_fmap. exists (id, c). split; [done|].
    by apply elem_of_map_to_list.
  - intros [id Hid]. by rewrite lookup_empty in Hid.
Qed.

Lemma pool_reach_inv s : pool_reach s -> pool_inv (ps_pool s).
Proof.
  induction 1 as [|s s' ev _ IH Hev].
  - split; simpl; intros *; rewrite ?lookup_empty; [|done..]. set_solver.
  - destruct ev; simpl in Hev.
    + destruct (ps_dialing s !! k), (Get_cached relayID (ps_pool s)); naive_solver.
    + destruct (ps_dialing s !! k) as [relayID|]; [|done].
      pose proof (Get_dialed_inv relayID ok _ IH) as Hg.
      destruct (Get_dialed relayID ok (ps_pool s)). by injection Hev as <-.
    + injection Hev as <-. by apply Drop_inv.
    + injection Hev as <-. by apply ClosePool_inv.
Qed.

Lemma pool_run_reach evs s s' : pool_reach s -> pool_run evs s = Some s' -> pool_reach s'.
Proof.
  revert s. induction evs as [|ev evs IH]; simpl; intros s Hs; [by intros [= <-]|].
  destruct (pool_exec s ev) as [s1|] eqn:E; [|done]. apply IH. by eapply pr_step.
Qed.

(** ** Properties *)

(** C36: the pool neither leaks nor hands out closed connections.  However the
    callers' dials interleave, the open connections are exactly the cached ones,
    one per peer relay: the loser of a dial race closes its own connection and
    returns the cached one, every [Get] that succeeds returns a connection that
    is open at that moment and cached for that relay, and nothing stays open
    after [Close]. *)
Theorem pool_sound s :
  pool_reach s ->
  (forall c, c ∈ p_alive (ps_pool s) <-> exists id, p_conns (ps_pool s) !! id = Some c) /\
  (forall id id' c, p_conns (ps_pool s) !! id = Some c -> p_conns (ps_pool s) !! id' = Some c -> id = id') /\
  (forall id c, Get_cached id (ps_pool s) = Some c -> c ∈ p_alive (ps_pool s)) /\
  (forall id ok c p', Get_dialed id ok (ps_pool s) = (Some c, p') ->
     c ∈ p_alive p' /\ p_conns p' !! id = Some c /\
     (forall c', Get_cached id (ps_pool s) = Some c' -> c = c' /\ p_conns p' = p_conns (ps_pool s) /\
        p_alive p' = p_alive (ps_pool s))) /\
  p_alive (ClosePool (ps_pool s)) = ∅.
Proof.
  intros Hi%pool_reach_inv. set (p := ps_pool s) in *. pose proof Hi as [Ha Hj Hf]. split_and!; try done.
  - intros id c Hc. apply Ha. eauto.
  - intros id ok c p' Hg. pose proof (Get_dialed_inv id ok p Hi) as [Ha' _ _]. rewrite Hg in Ha'. simpl in Ha'.
    assert (Hn : p_dials p ∉ p_alive p) by (rewrite Ha; intros (i & ?%Hf); lia).
    unfold Get_dialed, Get_cached in *. destruct ok; simpl in Hg; [|done].
    destruct (p_conns p !! id) as [e|] eqn:He; injection Hg as <- <-; simpl in *.
    + split_and!; [apply Ha'; eauto|done|]. intros c' [= <-]. split_and!; try done. set_solver.
    + rewrite lookup_insert_eq. split_and!; try done. set_solver.
  - apply set_eq. intros c. rewrite (po_alive _ (ClosePool_inv p Hi)). simpl. setoid_rewrite lookup_empty. set_solver.
Qed.

(** Two callers miss, both dial, the second one loses the race. *)
Definition race_evs : list pool_event := [PGet 1 "r2"; PGet 2 "r2"; PDialed 1 true; PDialed 2 true].
Definition race_state : pool_state := default (mkPS NewPool ∅ []) (pool_run race_evs (mkPS NewPool ∅ [])).

Lemma pool_sound_witness :
  (forall c, c ∈ p_alive (ps_pool race_state) <-> exists id, p_conns (ps_pool race_state) !! id = Some c) /\
  (forall id id' c, p_conns (ps_pool race_state) !! id = Some c ->
     p_conns (ps_pool race_state) !! id' = Some c -> id = id') /\
  (forall id c, Get_cached id (ps_pool race_state) = Some c -> c ∈ p_alive (ps_pool race_state)) /\
  (forall id ok c p', Get_dialed id ok (ps_pool race_state) = (Some c, p') ->
     c ∈ p_alive p' /\ p_conns p' !! id = Some c /\
     (forall c', Get_cached id (ps_pool race_state) = Some c' -> c = c' /\
        p_conns p' = p_conns (ps_pool race_state) /\ p_alive p' = p_alive (ps_pool race_state))) /\
  p_alive (ClosePool (ps_pool race_state)) = ∅.
Proof.
  apply pool_sound. apply (pool_run_reach race_evs (mkPS NewPool ∅ [])); [apply pr_init|].
  vm_compute. reflexivity.
Defined.

(** Concurrent callers do not wait on one dial: both dial, and one connection is
    closed right after it was made. *)
Lemma pool_double_dial :
  p_dials (ps_pool race_state) = 2%nat /\ p_alive (ps_pool race_state) = {[0%nat]} /\
  ps_got race_state = [(2%nat, Some 0%nat); (1%nat, Some 0%nat)].
Proof. split_and!; vm_compute; reflexivity. Qed.
