(* ===== verification/Listener.v ===== *)
(** * Listener: accepting connections ([pkg/edge/edge.go])

    The accept loops [Server.Run] and [Server.RunListener], the goroutine of one
    connection [serveConn] with its deferred teardown, and [servePeerRelay]; and that
    the steps of [serveConn] on the shared tables are those of the session model of
    [Registry], in an order that model never blocks. *)

From S2P Require Import Prelude GoStrings ForwardPlane Registry.

(** ** Accept loops *)

(** What [ln.Accept] returns: a connection, or an error, which may be one of the
    context's ([Canceled], [DeadlineExceeded]). *)
Inductive accepted := AcceptConn (c : nat) | AcceptErr (ctxErr : bool).

Inductive run_end := RunNil | RunAcceptErr | RunListenErr.

(** The loop: the connections a [serveConn] was started for, and how it returned;
    [None] while it waits. *)
Fixpoint RunListener (accepts : list accepted) : list nat * option run_end :=
  match accepts with
  | [] => ([], None)
  | AcceptConn c :: accepts' => let '(served, e) := RunListener accepts' in (c :: served, e)
  | AcceptErr ctxErr :: _ => ([], Some (if ctxErr : bool then RunNil else RunAcceptErr))
  end.

(** [Server.Run]: the same on a listener of its own. *)
Definition Run (listenOk : bool) (accepts : list accepted) : list nat * option run_end :=
  if listenOk then RunListener accepts else ([], Some RunListenErr).

(** Every connection accepted before the first error is served, in order, and the
    loop returns nil only if that error is the context's. *)
Lemma RunListener_spec accepts :
  let '(served, e) := RunListener accepts in
  exists rest, accepts = (AcceptConn <$> served) ++ rest /\
    match e with
    | None => rest = []
    | Some RunNil => exists r, rest = AcceptErr true :: r
    | Some RunAcceptErr => exists r, rest = AcceptErr false :: r
    | Some RunListenErr => False
    end.
Proof.
  induction accepts as [|[c|b] accepts IH]; simpl; [by exists []| |].
  - destruct (RunListener accepts) as [served e]. destruct IH as (rest & -> & He). by exists rest.
  - exists (AcceptErr b :: accepts). split; [done|]. destruct b; eauto.
Qed.

(** ** One connection *)

Inductive conn_act :=
  | CHelloAck (successors : list string)
  | CSession (ev : sess_event)      (** [RegisterAgent], [trackAgent], and the teardown *)
  | CStartControl                   (** [go s.controlLoop] *)
  | CStartStream (i : nat)          (** [go s.handleConsumerStream] *)
  | CStartForwarded (i : nat)       (** [go s.handleForwardedStream] *)
  | CCancel                         (** [connCtx] *)
  | CClose.

(** What the peer of a connection does: its certificates, whether it opens a control
    stream, the agent URI of its HELLO, whether HELLO_ACK can be written to it, how
    many streams it opens before it goes away. *)
Record conn_io := mkConn {
  io_certs : list (list string);
  io_ctrl : bool;
  io_hello : option string;
  io_ack : bool;
  io_streams : nat
}.

Definition servePeerRelay (streams : nat) : list conn_act := CStartForwarded <$> seq 0 streams.

Section ServeConn.
Context {ID : Identity}.

(** The HELLO as [serveConn] sees it. *)
Definition hello_of (io : conn_io) : option string := if io_ctrl io then io_hello io else None.

Definition serveConn (c : nat) (successors : list string) (io : conn_io) : list conn_act :=
  match uriFromConn (io_certs io) with
  | None => []
  | Some uri =>
      match Parse uri with
      | None => []
      | Some name =>
          if isRelay name then servePeerRelay (io_streams io)
          else
            match hello_of io with
            | None => []
            | Some claimed =>
                if negb (String.eqb claimed uri) then []
                else if negb (io_ack io) then []
                else
                  [CHelloAck successors;
                   CSession (SConnect c (io_certs io) (hello_of io) (io_ack io));
                   CSession (STrack c); CStartControl] ++
                  (CStartStream <$> seq 0 (io_streams io)) ++
                  [CCancel; CSession (SUntrack c); CSession (SUnregister c); CSession (SForget c)]
            end
      end
  end ++ [CClose].

(** Its steps on the shared tables. *)
Definition sessions_of (acts : list conn_act) : list sess_event :=
  omap (fun a => match a with CSession ev => Some ev | _ => None end) acts.

(** ** Next to other connections *)

(** An event of another connection, or of the plane. *)
Definition not_of (c : nat) (ev : sess_event) : Prop :=
  match ev with
  | SConnect k _ _ _ | STrack k | SUntrack k | SUnregister k | SForget k => k <> c
  | SPlane _ => True
  end.

Inductive others (c : nat) (s : sessions) : sessions -> Prop :=
  | ot_refl : others c s s
  | ot_step s1 ev s2 : others c s s1 -> not_of c ev -> sess_exec s1 ev = Some s2 -> others c s s2.

(** The events [evs] of connection [c] can be executed in turn, whatever the others
    do before each of them. *)
Fixpoint unhindered (c : nat) (evs : list sess_event) (s : sessions) : Prop :=
  match evs with
  | [] => True
  | ev :: evs' => forall s1, others c s s1 -> exists s2, sess_exec s1 ev = Some s2 /\ unhindered c evs' s2
  end.

Lemma sess_exec_conns_ne c ev s s' : not_of c ev -> sess_exec s ev = Some s' -> se_conns s' !! c = se_conns s !! c.
Proof.
  destruct ev as [k certs hello ack|k|k|k|k|op]; simpl; intros Hne Hx.
  - destruct (se_conns s !! k); [done|]. destruct (admitConn certs hello ack); simplify_eq; try done.
    simpl. by rewrite lookup_insert_ne.
  - destruct (se_conns s !! k) as [[u []]|]; simplify_eq. simpl. by rewrite lookup_insert_ne.
  - destruct (se_conns s !! k) as [[u []]|]; simplify_eq. simpl. by rewrite lookup_insert_ne.
  - destruct (se_conns s !! k) as [[u []]|]; try done. destruct (UnregisterAgent _ _); simplify_eq. simpl.
    by rewrite lookup_insert_ne.
  - destruct (se_conns s !! k) as [[u []]|]; simplify_eq. simpl. by rewrite lookup_insert_ne.
  - by simplify_eq.
Qed.

Lemma others_conns c s s' : others c s s' -> se_conns s' !! c = se_conns s !! c.
Proof. induction 1 as [|s1 ev s2 _ IH Hne Hx]; [done|]. by rewrite (sess_exec_conns_ne c ev s1 s2). Qed.

(** Each event of the session takes the connection from one place to the next. *)
Lemma teardown_unhindered c uri s :
  se_conns s !! c = Some (uri, CRegistered) -> unhindered c [STrack c; SUntrack c; SUnregister c; SForget c] s.
Proof.
  intros Hc. simpl. intros s1 H1%others_conns. rewrite H1, Hc. eexists. split; [done|].
  intros s2 H2%others_conns. rewrite H2. simpl. rewrite lookup_insert_eq. eexists. split; [done|].
  intros s3 H3%others_conns. rewrite H3. simpl. rewrite lookup_insert_eq.
  destruct (UnregisterAgent uri (se_reg s3)) as [reg req]. eexists. split; [done|].
  intros s4 H4%others_conns. rewrite H4. simpl. rewrite lookup_insert_eq. eexists. split; [done|]. done.
Qed.

(** ** Shape *)

(** No action of [l] satisfies [f]. *)
Definition without (f : conn_act -> bool) (l : list conn_act) : Prop := Forall (fun a => f a = false) l.

Definition is_start (a : conn_act) : bool := match a with CStartControl | CStartStream _ => true | _ => false end.
Definition is_session (a : conn_act) : bool := match a with CSession _ => true | _ => false end.

Lemma without_app f l l' : without f (l ++ l') <-> without f l /\ without f l'.
Proof. apply Forall_app. Qed.

(** Where an action is that occurs only in the middle part. *)
Lemma split_middle f hd mid tl pre a post :
  hd ++ mid ++ tl = pre ++ a :: post -> without f hd -> without f tl -> f a = true ->
  exists m1 m2, pre = hd ++ m1 /\ post = m2 ++ tl /\ mid = m1 ++ a :: m2.
Proof.
  intros E Hh Ht Ha. revert pre E. induction Hh as [|h hd Hh _ IH]; simpl; intros pre E.
  - revert pre E. induction mid as [|m mid IH]; simpl; intros pre E.
    + exfalso. assert (a ∈ tl) as Hin by (rewrite E; set_solver). unfold without in Ht. rewrite Forall_forall in Ht.
      by rewrite (Ht a Hin) in Ha.
    + destruct pre as [|x pre]; simplify_eq/=; [by exists [], mid|].
      destruct (IH pre) as (m1 & m2 & -> & -> & ->); [done|]. by exists (x :: m1), m2.
  - destruct pre as [|x pre]; simplify_eq/=; [congruence|].
    destruct (IH pre) as (m1 & m2 & -> & -> & ->); [done|]. by exists m1, m2.
Qed.

Lemma sessions_app l l' : sessions_of (l ++ l') = sessions_of l ++ sessions_of l'.
Proof. apply omap_app. Qed.

Lemma sessions_none l : without is_session l -> sessions_of l = [].
Proof. unfold sessions_of. induction 1 as [|a l Ha _ IH]; simpl; [done|]. destruct a; done. Qed.

(** The two ways a connection goes: as an agent's, or without touching the tables. *)
Lemma serveConn_cases c successors io :
  (exists uri n, admitConn (io_certs io) (hello_of io) (io_ack io) = Agent uri /\
     uriFromConn (io_certs io) = Some uri /\ hello_of io = Some uri /\ Parse uri = Some n /\ isRelay n = false /\
     serveConn c successors io =
       [CHelloAck successors; CSession (SConnect c (io_certs io) (hello_of io) (io_ack io)); CSession (STrack c);
        CStartControl] ++ (CStartStream <$> seq 0 (io_streams io)) ++
       [CCancel; CSession (SUntrack c); CSession (SUnregister c); CSession (SForget c); CClose]) \/
  ((forall uri, admitConn (io_certs io) (hello_of io) (io_ack io) <> Agent uri) /\
   exists body, serveConn c successors io = body ++ [CClose] /\ without is_start body /\ without is_session body).
Proof.
  unfold serveConn, admitConn. destruct (uriFromConn (io_certs io)) as [uri|]; [|by right; split; [|exists []; repeat split; constructor]].
  destruct (Parse uri) as [n|] eqn:Hp; [|by right; split; [|exists []; repeat split; constructor]]. destruct (isRelay n) eqn:Hr.
  { right. split; [done|]. exists (servePeerRelay (io_streams io)). split; [done|].
    unfold servePeerRelay, without. split; apply Forall_forall; intros a (i & -> & _)%list_elem_of_fmap; done. }
  destruct (hello_of io) as [claimed|]; [|by right; split; [|exists []; repeat split; constructor]].
  destruct (String.eqb_spec claimed uri) as [->|]; simpl; [|by right; split; [|exists []; repeat split; constructor]].
  destruct (io_ack io); simpl; [|by right; split; [|exists []; repeat split; constructor]].
  left. exists uri, n. split_and!; try done. by rewrite <- List.app_assoc.
Qed.

(** ** Properties *)

(** C20: a connection is served and cleaned up in order.  The goroutine of a
    connection always ends by closing it.  It starts a control loop and stream
    handlers only for a connection whose certificate names an agent and whose HELLO
    names the same one; it has then entered the agent into the directory and into
    the set of live agents before, and takes it out of the set, the directory and
    the plane, in this order, after the last stream.  Each of these steps is
    possible when it is due, whatever other connections and the plane do in between. *)
Theorem serveConn_spec c successors io s :
  se_conns s !! c = None ->
  let acts := serveConn c successors io in
  (exists body, acts = body ++ [CClose]) /\
  (forall pre a post, acts = pre ++ a :: post -> is_start a = true ->
     exists uri n, uriFromConn (io_certs io) = Some uri /\ hello_of io = Some uri /\ Parse uri = Some n /\
       isRelay n = false /\
       sessions_of pre = [SConnect c (io_certs io) (hello_of io) (io_ack io); STrack c] /\
       sessions_of post = teardown c) /\
  unhindered c (sessions_of acts) s.
Proof.
  intros Hc acts.
  destruct (serveConn_cases c successors io) as [(uri & n & Hadm & Hu & Hh & Hn & Hr & E)|(Hadm & body & E & Hst & Hss)].
  - set (tl := [CCancel; CSession (SUntrack c); CSession (SUnregister c); CSession (SForget c); CClose]) in *.
    set (mid := CStartControl :: (CStartStream <$> seq 0 (io_streams io))).
    assert (Hmid : without is_session mid).
    { constructor; [done|]. apply Forall_forall. by intros a (i & -> & _)%list_elem_of_fmap. }
    change (acts = [CHelloAck successors; CSession (SConnect c (io_certs io) (hello_of io) (io_ack io)); CSession (STrack c)] ++
      mid ++ tl) in E. split_and!.
    + unfold acts, serveConn. eexists. reflexivity.
    + intros pre a post Hacts Ha. rewrite E in Hacts. exists uri, n.
      apply (split_middle is_start) in Hacts as (m1 & m2 & -> & -> & Hm); [|by repeat constructor..|done].
      rewrite Hm in Hmid. apply without_app in Hmid as [H1 [_ H2]%Forall_cons].
      split_and!; try done; rewrite sessions_app; [rewrite (sessions_none m1)|rewrite (sessions_none m2)]; done.
    + rewrite E, !sessions_app, (sessions_none mid) by done. simpl.
      intros s1 H1%others_conns. rewrite H1, Hc, Hadm. eexists. split; [done|].
      eapply teardown_unhindered. simpl. apply lookup_insert_eq.
  - fold acts in E. split_and!; [by exists body| |].
    + intros pre a post Hacts Ha. exfalso. assert (a ∈ body ++ [CClose]) as Hin by (rewrite <- E, Hacts; set_solver).
      apply elem_of_app in Hin as [Hin| ->%list_elem_of_singleton]; [|done].
      unfold without in Hst. rewrite Forall_forall in Hst. by rewrite (Hst a Hin) in Ha.
    + by rewrite E, sessions_app, (sessions_none body).
Qed.

End ServeConn.

Definition demo_conn : conn_io := mkConn [["outrelay://acme/agent/c"]] true (Some "outrelay://acme/agent/c") true 2.

Lemma serveConn_spec_witness :
  let acts := @serveConn demo_identity 1 ["r2:443"] demo_conn in
  (exists body, acts = body ++ [CClose]) /\
  (forall pre a post, acts = pre ++ a :: post -> is_start a = true ->
     exists uri n, uriFromConn (io_certs demo_conn) = Some uri /\ hello_of demo_conn = Some uri /\
       @Parse demo_identity uri = Some n /\ isRelay n = false /\
       sessions_of pre = [SConnect 1 (io_certs demo_conn) (hello_of demo_conn) (io_ack demo_conn); STrack 1] /\
       sessions_of post = teardown 1) /\
  @unhindered demo_identity 1 (sessions_of acts) sess0.
Proof. apply (@serveConn_spec demo_identity 1 ["r2:443"] demo_conn sess0). reflexivity. Defined.
