(* ===== verification/Operations.v ===== *)
(** * Operations: draining a relay, and the helpers of [cmd/outrelay-relay]

    [Server.Drain] ([pkg/edge/edge.go]), the operator's [DrainHandler]
    ([pkg/edge/drain.go]), and [splitEndpoints], [parseLogLevel] and
    [verifyPeerIsRelay] of [cmd/outrelay-relay/main.go]. *)

From S2P Require Import Prelude GoStrings.
From Stdlib Require Import Ascii.

Definition comma : ascii := ","%char.

(** ** Endpoint lists *)

(** The loop both [splitEndpoints] and [DrainHandler] run over the pieces. *)
Fixpoint keep_endpoints (eps : list string) : list string :=
  match eps with
  | [] => []
  | ep :: eps' =>
      let ep := TrimSpace ep in
      if String.eqb ep "" then keep_endpoints eps' else ep :: keep_endpoints eps'
  end.

Definition splitEndpoints (raw : string) : list string := keep_endpoints (Split raw comma).

(** ** The drain request *)

Record DrainDefaults := mkDefaults { dd_Targets : list string; dd_Reason : string; dd_Deadline : Duration }.

Inductive drain_response :=
  | MethodNotAllowed
  | BadRequest
  | Accepted (targets : list string) (reason : string) (deadline : Duration).

(** [DrainHandler]: [post] is whether the method is POST, the other arguments are
    the query parameters; [parseDuration] is the library's parser. *)
Definition DrainHandler (parseDuration : string -> option Duration) (defaults : DrainDefaults) (post : bool)
    (to reason deadline : string) : drain_response :=
  if negb post then MethodNotAllowed
  else
    let raw := TrimSpace to in
    let targets := if negb (String.eqb raw "") then keep_endpoints (Split raw comma) else dd_Targets defaults in
    let reason := if negb (String.eqb reason "") then reason else dd_Reason defaults in
    if negb (String.eqb deadline "") then
      match parseDuration deadline with
      | None => BadRequest
      | Some d => if d <=? 0 then BadRequest else Accepted targets reason d
      end
    else Accepted targets reason (dd_Deadline defaults).

(** ** The drain itself *)

Definition MaxUint32 : Z := 2 ^ 32 - 1.

(** [deadline.Milliseconds()] truncates toward zero. *)
Definition Milliseconds (d : Duration) : Z := Z.quot d Millisecond.

Record Goaway := mkGoaway { ga_TargetEndpoints : list string; ga_Reason : string; ga_DeadlineMs : Z }.

Definition goaway (targets successors : list string) (reason : string) (deadline : Duration) : Goaway :=
  mkGoaway (match targets with [] => successors | _ => targets end) reason
    (u32 (Z.min (Milliseconds deadline) MaxUint32)).

(** What wakes the wait of [Drain]. *)
Inductive drain_wake := WakePoll | WakeTimeout | WakeCancel.

Inductive drain_end := AllGone | DeadlineReached | Cancelled.

(** The wait: each turn looks at the live agents and then sleeps until something
    wakes it; the connections closed at the end.  [None]: still waiting. *)
Fixpoint drain_wait (turns : list (list nat * drain_wake)) : option (drain_end * list nat) :=
  match turns with
  | [] => None
  | (remaining, wake) :: turns' =>
      match remaining with
      | [] => Some (AllGone, [])
      | _ =>
          match wake with
          | WakeCancel => Some (Cancelled, [])
          | WakeTimeout => Some (DeadlineReached, remaining)
          | WakePoll => drain_wait turns'
          end
      end
  end.

(** [Drain]: the GOAWAY sent to each agent live at the start, the links closed
    because that write failed, and the outcome of the wait. *)
Definition Drain (targets successors : list string) (reason : string) (deadline : Duration)
    (agents : list nat) (write_ok : nat -> bool) (turns : list (list nat * drain_wake)) :
    list (nat * Goaway) * list nat * option (drain_end * list nat) :=
  let f := goaway targets successors reason deadline in
  ((fun ac => (ac, f)) <$> List.filter write_ok agents,
   List.filter (fun ac => negb (write_ok ac)) agents,
   drain_wait turns).

(** ** Daemon helpers *)

Inductive log_level := LevelDebug | LevelInfo | LevelWarn | LevelError.

Definition parseLogLevel (s : string) : log_level :=
  if String.eqb s "debug" then LevelDebug
  else if String.eqb s "warn" then LevelWarn
  else if String.eqb s "error" then LevelError
  else LevelInfo.

(** A URI of a certificate, as [net/url] parsed it. *)
Record URL := mkURL { u_Scheme : string; u_Path : string }.

(** [verifyPeerIsRelay] on the verified chains, each a list of certificates, each
    a list of URIs ([None] is a nil pointer); [true] is no error. *)
Definition verifyPeerIsRelay (chains : list (list (list (option URL)))) : bool :=
  match chains with
  | (leaf :: _) :: _ =>
      existsb (fun u => match u with
        | None => false
        | Some u => String.eqb (u_Scheme u) "outrelay" &&
            (String.length "/relay/" <? String.length (u_Path u))%nat &&
            HasPrefix (u_Path u) "/relay/"
        end) leaf
  | _ => false
  end.

(** ** Lemmas *)

Lemma keep_endpoints_ok eps :
  Forall (fun ep => ep <> "" /\ strip_left ep = None /\ strip_right ep = None) (keep_endpoints eps).
Proof.
  induction eps as [|ep eps IH]; simpl; [constructor|].
  destruct (String.eqb_spec (TrimSpace ep) ""); [done|]. constructor; [|done].
  split_and!; [done|apply TrimSpace_left|apply TrimSpace_right].
Qed.

Lemma keep_endpoints_id eps :
  Forall (fun ep => ep <> "" /\ strip_left ep = None /\ strip_right ep = None) eps -> keep_endpoints eps = eps.
Proof.
  induction 1 as [|ep eps (Hne & Hl & Hr) _ IH]; simpl; [done|]. rewrite TrimSpace_id by done.
  destruct (String.eqb_spec ep ""); [done|]. by rewrite IH.
Qed.

Lemma keep_endpoints_free eps c :
  Forall (fun ep => ContainsByte ep c = false) eps -> Forall (fun ep => ContainsByte ep c = false) (keep_endpoints eps).
Proof.
  induction 1 as [|ep eps Hep _ IH]; simpl; [constructor|]. destruct (String.eqb _ _); [done|].
  constructor; [by apply ContainsByte_TrimSpace|done].
Qed.

Lemma drain_wait_spec turns e closed :
  drain_wait turns = Some (e, closed) ->
  exists pre remaining wake post, turns = pre ++ (remaining, wake) :: post /\
    Forall (fun t => t.1 <> [] /\ t.2 = WakePoll) pre /\
    match e with
    | AllGone => remaining = [] /\ closed = []
    | DeadlineReached => wake = WakeTimeout /\ remaining <> [] /\ closed = remaining
    | Cancelled => wake = WakeCancel /\ remaining <> [] /\ closed = []
    end.
Proof.
  induction turns as [|[remaining wake] turns IH]; simpl; [done|].
  destruct remaining as [|a l] eqn:Er; [|destruct wake].
  - intros [= <- <-]. by exists [], [], wake, turns.
  - intros H. destruct (IH H) as (pre & rem & wk & post & -> & Hp & Hm).
    exists ((a :: l, WakePoll) :: pre), rem, wk, post. split; [done|]. split; [|done]. by constructor.
  - intros [= <- <-]. by exists [], (a :: l), WakeTimeout, turns.
  - intros [= <- <-]. by exists [], (a :: l), WakeCancel, turns.
Qed.

(** ** Properties *)

(** Endpoint lists survive parsing.  [splitEndpoints] returns trimmed,
    non-empty, comma-free endpoints only, so its result printed with commas parses
    back to itself; and a well-formed list printed with commas is parsed as it
    was. *)
Theorem splitEndpoints_roundtrip :
  (forall raw, Forall (fun ep => ep <> "" /\ strip_left ep = None /\ strip_right ep = None /\
     ContainsByte ep comma = false) (splitEndpoints raw)) /\
  (forall eps, Forall (fun ep => ep <> "" /\ strip_left ep = None /\ strip_right ep = None /\
     ContainsByte ep comma = false) eps -> splitEndpoints (Join eps comma) = eps).
Proof.
  split.
  - intros raw. unfold splitEndpoints. pose proof (keep_endpoints_ok (Split raw comma)) as H1.
    assert (H2 : Forall (fun ep => ContainsByte ep comma = false) (keep_endpoints (Split raw comma))).
    { apply keep_endpoints_free, Forall_forall. intros w Hw. by eapply Split_free. }
    eapply Forall_impl; [apply Forall_and; exact (conj H1 H2)|]. intros ep. simpl. tauto.
  - intros eps Hall. unfold splitEndpoints. destruct (decide (eps = [])) as [->|Hne]; [done|].
    rewrite Split_Join; [|done|].
    + apply keep_endpoints_id. eapply Forall_impl; [exact Hall|]. simpl. tauto.
    + eapply Forall_impl; [exact Hall|]. simpl. tauto.
Qed.

(** A drain reaches every agent with one and the same destination.  Each agent
    live at the start is sent exactly one GOAWAY, or its link is closed because
    the write failed; all frames carry the same targets (the successors if none
    were given), so both ends of a stream meet again; and when the wait ends other
    than by cancellation, either no agent was left at its last look or the deadline
    fired and exactly the agents of that look were closed.  For a deadline from 0
    to 2^32 ms the frame carries it exactly, above that the maximum. *)
Theorem drain_covers targets successors reason deadline agents write_ok turns :
  NoDup agents -> 0 <= deadline ->
  let '(sent, failed, outcome) := Drain targets successors reason deadline agents write_ok turns in
  let f := goaway targets successors reason deadline in
  sent.*1 ++ failed ≡ₚ agents /\ NoDup (sent.*1 ++ failed) /\ Forall (fun p => p.2 = f) sent /\
  ga_TargetEndpoints f = (if decide (targets = []) then successors else targets) /\
  ga_DeadlineMs f = Z.min (deadline / Millisecond) MaxUint32 /\
  (forall e closed, outcome = Some (e, closed) ->
     exists pre remaining wake post, turns = pre ++ (remaining, wake) :: post /\
       Forall (fun t => t.1 <> [] /\ t.2 = WakePoll) pre /\
       match e with
       | AllGone => remaining = [] /\ closed = []
       | DeadlineReached => wake = WakeTimeout /\ remaining <> [] /\ closed = remaining
       | Cancelled => wake = WakeCancel /\ remaining <> [] /\ closed = []
       end).
Proof.
  intros Hnd Hd. simpl.
  assert (Hp : ((fun ac => (ac, goaway targets successors reason deadline)) <$> List.filter write_ok agents).*1 ++
    List.filter (fun ac => negb (write_ok ac)) agents ≡ₚ agents).
  { rewrite <- list_fmap_compose. clear. induction agents as [|a l IH]; simpl; [done|].
    destruct (write_ok a); simpl; [by constructor|]. rewrite <- Permutation_middle. by constructor. }
  split_and!; [done|by rewrite Hp| | | |apply drain_wait_spec].
  - apply Forall_fmap, Forall_forall. done.
  - destruct targets; by case_decide.
  - unfold Milliseconds. rewrite Z.quot_div_nonneg by (done || lia). apply u32_small.
    unfold MaxUint32, Millisecond. pose proof (Z.div_pos deadline 1000000). lia.
Qed.

Lemma drain_covers_witness :
  let '(sent, failed, outcome) :=
    Drain [] ["r2:443"] "upgrade" (5 * Second) [1; 2; 3]%nat (fun c => negb (c =? 2)%nat)
      [([1; 3]%nat, WakePoll); ([3]%nat, WakeTimeout)] in
  let f := goaway [] ["r2:443"] "upgrade" (5 * Second) in
  sent.*1 ++ failed ≡ₚ [1; 2; 3]%nat /\ NoDup (sent.*1 ++ failed) /\ Forall (fun p => p.2 = f) sent /\
  ga_TargetEndpoints f = (if decide (@nil string = []) then ["r2:443"] else []) /\
  ga_DeadlineMs f = Z.min (5 * Second / Millisecond) MaxUint32 /\
  (forall e closed, outcome = Some (e, closed) ->
     exists pre remaining wake post,
       [([1; 3]%nat, WakePoll); ([3]%nat, WakeTimeout)] = pre ++ (remaining, wake) :: post /\
       Forall (fun t => t.1 <> [] /\ t.2 = WakePoll) pre /\
       match e with
       | AllGone => remaining = [] /\ closed = []
       | DeadlineReached => wake = WakeTimeout /\ remaining <> [] /\ closed = remaining
       | Cancelled => wake = WakeCancel /\ remaining <> [] /\ closed = []
       end).
Proof. apply drain_covers; [|discriminate]. apply (bool_decide_unpack _). vm_compute. exact I. Defined.

(** A negative deadline, which the flag accepts, is not clamped but wraps. *)
Lemma negative_deadline_wraps : ga_DeadlineMs (goaway [] [] "" (- Second)) = 4294966296.
Proof. vm_compute. reflexivity. Qed.

(** A drain request is accepted only as a POST with a positive deadline, and
    falls back to the defaults parameter by parameter. *)
Theorem DrainHandler_spec parseDuration defaults post to reason deadline targets' reason' deadline' :
  DrainHandler parseDuration defaults post to reason deadline = Accepted targets' reason' deadline' <->
  post = true /\
  targets' = (if decide (TrimSpace to = "") then dd_Targets defaults else splitEndpoints (TrimSpace to)) /\
  reason' = (if decide (reason = "") then dd_Reason defaults else reason) /\
  (if decide (deadline = "") then deadline' = dd_Deadline defaults
   else parseDuration deadline = Some deadline' /\ 0 < deadline').
Proof.
  unfold DrainHandler, splitEndpoints. destruct post; simpl; [|naive_solver].
  destruct (String.eqb_spec (TrimSpace to) ""), (String.eqb_spec reason ""), (String.eqb_spec deadline "");
    simpl; repeat (rewrite ?decide_True by done; rewrite ?decide_False by done); try naive_solver;
    (destruct (parseDuration deadline) as [d|]; [|naive_solver]; destruct (Z.leb_spec d 0); [|naive_solver];
     split; [done|]; intros (_ & _ & _ & [= <-] & ?); lia).
Qed.
