(* ===== verification/ServerState.v ===== *)
(** * ServerState: the state the goroutines of a relay share

    [Server] of [pkg/edge/edge.go] with what it points to.  The parts that have a
    development of their own are components here: the resume matcher with the pair
    table and the migrated streams ([rstate]), the directory and the sessions of
    the agents with the forward plane ([sessions]), and the matcher of resumed
    forward streams ([fmatch], which with the plane and the clock is an
    [fstate]). *)

From S2P Require Import Prelude PolicyMatcher PolicyCache PolicyWatch ForwardPlane ForwardCtrl.
From S2P Require Import EdgeTables ResumeMatcher Registry AuditQueue Intra.

(** ** Metrics *)

(** The counters and the gauge of [relayMetrics], and its histograms, of which the
    samples are kept.  The three counters of FORWARD_RESUME are kept by its matcher. *)
Inductive counter :=
  | streamActive
  | policyCacheHits
  | policyCacheMisses
  | bytesForwarded
  | intraRelayHops
  | streamRejects
  | streamOpens
  | streamMigratedP2P
  | streamMigratedRelay
  | streamForwardAssigned.

#[export] Instance counter_eq_dec : EqDecision counter.
Proof. solve_decision. Defined.

Inductive histogram := streamOpenDuration | policyEvalDuration.

#[export] Instance histogram_eq_dec : EqDecision histogram.
Proof. solve_decision. Defined.

Record relayMetrics := mkMetrics {
  mt_count : counter -> Z;
  mt_samples : histogram -> list Duration
}.

(** [newRelayMetrics]; [false] is a nil registry. *)
Definition newRelayMetrics (reg : bool) : option relayMetrics :=
  if reg then Some (mkMetrics (fun _ => 0) (fun _ => [])) else None.

Definition bump (c : counter) (d : Z) (m : relayMetrics) : relayMetrics :=
  mkMetrics (fun c' => if decide (c' = c) then mt_count m c' + d else mt_count m c') (mt_samples m).

Definition add_sample (h : histogram) (d : Duration) (m : relayMetrics) : relayMetrics :=
  mkMetrics (mt_count m) (fun h' => if decide (h' = h) then mt_samples m h' ++ [d] else mt_samples m h').

(** ** The server *)

(** The FORWARD_RESUME matcher, without the clock and the plane it shares. *)
Record fmatch := mkFM {
  fm_pending : gmap Z nat;
  fm_halves : gmap nat halfForwardResume;
  fm_next : nat;
  fm_out : list (nat * ctrl_frame);
  fm_submitted : Z;
  fm_paired : Z;
  fm_timeouts : Z
}.

Record Server := mkServer {
  sv_policy : option Engine;
  sv_cache : option Cache;
  sv_decided : list (cacheKey * Result * Time * Engine);  (** history: what the engine decided, when, as it then was *)
  sv_received : list Rule;             (** history: the rules the watcher has received *)
  sv_audit : option Emitter;
  sv_pool : option Pool;
  sv_successors : list string;
  sv_metrics : option relayMetrics;
  sv_rs : rstate;                      (** clock, resume matcher, pair table, migrated streams *)
  sv_ss : sessions;                    (** directory, live agents, forward plane *)
  sv_fm : fmatch
}.

Definition sv_now (s : Server) : Time := r_now (sv_rs s).
Definition sv_pairs (s : Server) : gmap Z streamPair := r_pairs (sv_rs s).
Definition sv_migrated (s : Server) : gmap Z migratedStream := r_migrated (sv_rs s).
Definition sv_reg (s : Server) : Registry := se_reg (sv_ss s).
Definition sv_forward (s : Server) : option Plane := se_forward (sv_ss s).

(** [New]: which of the optional parts the relay has is fixed here. *)
Definition New (reg : Registry) (policyEngine : option Engine) (cache : option Cache) (auditEm : option Emitter)
    (pool : option Pool) (fwd : option Plane) (obsReg : bool) (now : Time) : Server :=
  mkServer policyEngine cache [] [] auditEm pool [] (newRelayMetrics obsReg)
    (rinit now) (mkSessions reg ∅ ∅ fwd []) (mkFM ∅ ∅ 0 [] 0 0 0).

(** Field updates. *)
Definition set_policy (e : option Engine) (s : Server) : Server :=
  mkServer e (sv_cache s) (sv_decided s) (sv_received s) (sv_audit s) (sv_pool s) (sv_successors s) (sv_metrics s)
    (sv_rs s) (sv_ss s) (sv_fm s).
Definition set_cache (c : option Cache) (s : Server) : Server :=
  mkServer (sv_policy s) c (sv_decided s) (sv_received s) (sv_audit s) (sv_pool s) (sv_successors s) (sv_metrics s)
    (sv_rs s) (sv_ss s) (sv_fm s).
Definition set_decided (w : list (cacheKey * Result * Time * Engine)) (s : Server) : Server :=
  mkServer (sv_policy s) (sv_cache s) w (sv_received s) (sv_audit s) (sv_pool s) (sv_successors s) (sv_metrics s)
    (sv_rs s) (sv_ss s) (sv_fm s).
Definition set_received (l : list Rule) (s : Server) : Server :=
  mkServer (sv_policy s) (sv_cache s) (sv_decided s) l (sv_audit s) (sv_pool s) (sv_successors s) (sv_metrics s)
    (sv_rs s) (sv_ss s) (sv_fm s).
Definition set_audit (a : option Emitter) (s : Server) : Server :=
  mkServer (sv_policy s) (sv_cache s) (sv_decided s) (sv_received s) a (sv_pool s) (sv_successors s) (sv_metrics s)
    (sv_rs s) (sv_ss s) (sv_fm s).
Definition set_pool (p : option Pool) (s : Server) : Server :=
  mkServer (sv_policy s) (sv_cache s) (sv_decided s) (sv_received s) (sv_audit s) p (sv_successors s) (sv_metrics s)
    (sv_rs s) (sv_ss s) (sv_fm s).
Definition set_metrics (m : option relayMetrics) (s : Server) : Server :=
  mkServer (sv_policy s) (sv_cache s) (sv_decided s) (sv_received s) (sv_audit s) (sv_pool s) (sv_successors s) m
    (sv_rs s) (sv_ss s) (sv_fm s).
Definition set_rs (r : rstate) (s : Server) : Server :=
  mkServer (sv_policy s) (sv_cache s) (sv_decided s) (sv_received s) (sv_audit s) (sv_pool s) (sv_successors s) (sv_metrics s)
    r (sv_ss s) (sv_fm s).
Definition set_ss (x : sessions) (s : Server) : Server :=
  mkServer (sv_policy s) (sv_cache s) (sv_decided s) (sv_received s) (sv_audit s) (sv_pool s) (sv_successors s) (sv_metrics s)
    (sv_rs s) x (sv_fm s).
Definition set_fm (f : fmatch) (s : Server) : Server :=
  mkServer (sv_policy s) (sv_cache s) (sv_decided s) (sv_received s) (sv_audit s) (sv_pool s) (sv_successors s) (sv_metrics s)
    (sv_rs s) (sv_ss s) f.

(** [SetSuccessors] stores a copy, [Successors] returns one. *)
Definition SetSuccessors (endpoints : list string) (s : Server) : Server :=
  mkServer (sv_policy s) (sv_cache s) (sv_decided s) (sv_received s) (sv_audit s) (sv_pool s) endpoints (sv_metrics s)
    (sv_rs s) (sv_ss s) (sv_fm s).
Definition Successors (s : Server) : list string := sv_successors s.

Definition set_forward (p : option Plane) (s : Server) : Server :=
  set_ss (mkSessions (se_reg (sv_ss s)) (se_agents (sv_ss s)) (se_conns (sv_ss s)) p (se_deregs (sv_ss s))) s.

Definition set_pairs (m : gmap Z streamPair) (s : Server) : Server := set_rs (with_pairs m (sv_rs s)) s.

(** [if s.metrics != nil { s.metrics.c.Add(d) }]. *)
Definition count_metric (c : counter) (d : Z) (s : Server) : Server :=
  set_metrics (bump c d <$> sv_metrics s) s.

(** [if s.metrics != nil { s.metrics.h.Observe(time.Since(start)) }]. *)
Definition Observe (h : histogram) (start : Time) (s : Server) : Server :=
  set_metrics (add_sample h (sv_now s - start) <$> sv_metrics s) s.

(** The FORWARD_RESUME matcher with the clock and the plane it works on. *)
Definition fs_of (p : Plane) (s : Server) : fstate :=
  mkF (sv_now s) (fm_pending (sv_fm s)) (fm_halves (sv_fm s)) (fm_next (sv_fm s)) p (fm_out (sv_fm s))
    (fm_submitted (sv_fm s)) (fm_paired (sv_fm s)) (fm_timeouts (sv_fm s)).

Definition put_fs (f : fstate) (s : Server) : Server :=
  set_forward (Some (fs_plane f))
    (set_fm (mkFM (fs_pending f) (fs_halves f) (fs_next f) (fs_out f) (fs_submitted f) (fs_paired f)
       (fs_timeouts f)) s).

(** Writing back what is there. *)
Lemma set_cache_id s : set_cache (sv_cache s) s = s.
Proof. by destruct s. Qed.
Lemma set_pool_id s : set_pool (sv_pool s) s = s.
Proof. by destruct s. Qed.
Lemma set_forward_id s : set_forward (sv_forward s) s = s.
Proof. by destruct s as [? ? ? ? ? ? ? ? ? [] ?]. Qed.

(** The matcher's view of the server, and back. *)
Lemma fs_of_put f s : fs_now f = sv_now s -> fs_of (fs_plane f) (put_fs f s) = f.
Proof. unfold fs_of, sv_now. simpl. intros <-. by destruct f. Qed.
