(* ===== verification/OpenStream.v ===== *)
(** * OpenStream: the stream handlers of [pkg/edge/edge.go]

    [handleConsumerStream] with everything it calls ([evaluate], [recordAudit],
    [Resolve], [rejectConsumer], [OpenIncoming], [recordPair] / [forgetPair],
    [Allocate] / [Forget], [forwardToPeer], [handleResumeHalf],
    [handleMigrateToRelay], [splicePair]) and [handleForwardedStream], the peer
    relay's side.  A handler is a program of [Threads] over the server's state and
    the trace of what it does; Go's [defer] is a combinator.  One critical section
    of the code is one atomic step, and between any two of them the other
    goroutines of the relay may run; a wait for the network is a [pause], a wait on
    a channel a step that is [Blocked].  What the network answers is a record of
    [answers]. *)

From S2P Require Import Prelude Threads PolicyMatcher PolicyCache ForwardPlane ForwardInv ForwardCtrl.
From S2P Require Import EdgeTables ResumeMatcher Registry AuditQueue Intra Operations ServerState.

(** ** Frames *)

Record OpenStream := mkOpen { os_StreamId : Z; os_TargetService : string; os_Method : string }.

(** STREAM_RESUME and MIGRATE_TO_RELAY: a stream and the sender's byte counters. *)
Record resume_msg := mkResumeMsg { rm_StreamId : Z; rm_MyPosition : Z; rm_PeerAckPosition : Z }.

(** What the first frame of an accepted stream turns out to be; [None] is a
    payload that does not unmarshal. *)
Inductive first_frame :=
  | FrUnreadable
  | FrResume (m : option resume_msg)
  | FrMigrate (m : option resume_msg)
  | FrOpen (o : OpenStream)
  | FrOther.            (** another type, or a payload that does not unmarshal *)

Inductive ack_frame := AckAccept | AckReject | AckOther | AckError.

(** Frames on an agent's control stream. *)
Inductive signal :=
  | CReject (sid code : Z) (reason : string)
  | CReady (sid : Z) (relays : list string)
  | CGranted (g : AllocGranted).

(** ** The trace *)

Inductive action :=
  | AEvaluate (k : cacheKey) (r : Result)
  | AAudit (ev : AuditEvent)
  | AReject (code : Z) (reason : string)
  | ACtrl (to : nat) (f : signal)
  | AOpenIncoming (to : nat) (service method callerURI : string) (sid : Z) (relays : list string)
  | AForwardStream (conn : nat) (service method callerURI : string)
  | ADropPeer (relayID : string)
  | ARecordPair (sid : Z) (p : streamPair)
  | AReplacePair (sid : Z) (p : streamPair)
  | AForgetPair (sid : Z)
  | AAllocate (uri : string) (id : Z)
  | AForget (id : Z)
  | AArmRequired (sid : Z)
  | AAccept
  | ASplice
  | APark
  | ASubmit (half : nat)
  | AGauge (d : Z)
  | ACloseProvider
  | ACloseStream
  | ALive (agents : list nat)               (** the live agents [Drain] finds *)
  | ASuccessors (eps : list string)         (** the list it reads when it is given no targets *)
  | AGoaway (to : nat) (g : Goaway)
  | ACloseConn (c : nat)
  | ARelayed (from to : nat) (sid : Z) (raw : bytes).   (** a control frame passed on *)

(** What the network and the peers answer to one handler. *)
Record answers := mkAnswers {
  an_first : first_frame;
  an_incoming : bool;          (** the provider's stream opens and takes INCOMING_STREAM *)
  an_ack : ack_frame;
  an_grant_consumer : bool;    (** AllocGranted is written to the consumer *)
  an_grant_provider : bool;
  an_dial : bool;              (** a dial of the peer relay succeeds *)
  an_opened : bool;            (** the peer relay takes a stream *)
  an_written : bool;           (** and FORWARD_STREAM on it *)
  an_reply : peer_reply;
  an_accept : bool;            (** STREAM_ACCEPT is written to the peer relay *)
  an_bytes : Z                 (** bytes the splice moved *)
}.

Abbreviation M := (prog Server action).

(** ** Steps *)

Definition metric (c : counter) (d : Z) : M unit := write (count_metric c d).

Definition observe (h : histogram) (start : Time) : M unit := write (Observe h start).

(** The gauge of active streams; its changes show in the trace. *)
Definition gauge (d : Z) : M unit :=
  atom (fun s =>
    match sv_metrics s with
    | None => Ret (tt, s, [])
    | Some _ => Ret (tt, count_metric streamActive d s, [AGauge d])
    end).

Definition writeStreamReject (code : Z) (reason : string) : M unit :=
  act (AReject code reason);; metric streamRejects 1.

Definition rejectConsumer (caller : nat) (sid code : Z) (reason : string) : M unit :=
  writeStreamReject code reason;;
  if sid =? 0 then mret tt else act (ACtrl caller (CReject sid code reason)).

(** [p.Allocate] and [p.Forget] on the server's forward plane. *)
Definition do_allocate (uri : string) : M Z :=
  atom (fun s =>
    match sv_forward s with
    | None => Panic "nil forward plane"
    | Some p =>
        match Allocate uri (sv_now s) p with
        | Ret (id, p') => Ret (id, set_forward (Some p') s, [AAllocate uri id])
        | Panic m => Panic m
        | Blocked => Blocked
        | OutOfFuel => OutOfFuel
        end
    end).

Definition do_forget (id : Z) : M unit :=
  atom (fun s => Ret (tt, set_forward (Forget id <$> sv_forward s) s, [AForget id])).

Definition do_recordPair (sid : Z) (pair : streamPair) : M bool :=
  atom (fun s =>
    let '(ok, pairs) := recordPair sid pair (sv_pairs s) in
    Ret (ok, set_pairs pairs s, if ok : bool then [ARecordPair sid pair] else [])).

Definition do_forgetPair (sid : Z) : M unit :=
  atom (fun s => Ret (tt, set_pairs (forgetPair sid (sv_pairs s)) s, [AForgetPair sid])).

(** A move of the resume matcher; [out] says what the goroutine learns from it. *)
Definition on_resume {A} (ev : revent) (out : rstate -> rstate -> A * list action) : M A :=
  atom (fun s =>
    match rexec (sv_rs s) ev with
    | Some (Ret rs) => let '(a, es) := out (sv_rs s) rs in Ret (a, set_rs rs s, es)
    | Some (Panic m) => Panic m
    | Some OutOfFuel => OutOfFuel
    | Some Blocked | None => Blocked
    end).

(** ** Resumed streams *)

(** Submit a half: it is known by its number from then on. *)
Definition submit (ev : revent) : M nat := on_resume ev (fun rs _ => (r_next rs, [ASubmit (r_next rs)])).

(** The receive on the channel [Submit] returned: where the goroutine goes on,
    and the pair it enters into the table if it is the one that splices. *)
Definition recv_match (r : nat) : M handler_pc :=
  on_resume (EvHandlerRecv r) (fun _ rs =>
    match r_halves rs !! r with
    | None => (HReturned, [])
    | Some h =>
        match h_pc h with
        | HSplice p =>
            match r_halves rs !! p with
            | None => (HReturned, [])
            | Some g => (HSplice p, [AReplacePair (h_id h) (mkPair (h_uri h) (h_uri g))])
            end
        | pc => (pc, [])
        end
    end).

(** The end of [splicePair]. *)
Definition end_splice (r : nat) : M unit :=
  on_resume (EvSpliceEnd r) (fun rs _ =>
    match r_halves rs !! r with
    | None => (tt, [])
    | Some h => (tt, [AForgetPair (h_id h)])
    end).

(** [<-half.done]. *)
Definition recv_done (r : nat) : M unit := on_resume (EvDoneRecv r) (fun _ _ => (tt, [])).

(** [handleResumeHalf] and [handleMigrateToRelay] from the channel on. *)
Definition await_match (an : answers) (r : nat) : M unit :=
  pc ← recv_match r;
  match pc with
  | HSplice _ => act ASplice;; pause;; metric bytesForwarded (an_bytes an);; end_splice r
  | HWaitDone => recv_done r
  | _ => mret tt
  end.

Definition handleResumeHalf (an : answers) (uri : string) (m : option resume_msg) : M unit :=
  match m with
  | None => mret tt
  | Some m =>
      r ← submit (EvResume (rm_StreamId m) uri (rm_MyPosition m) (rm_PeerAckPosition m));
      await_match an r
  end.

Definition handleMigrateToRelay (an : answers) (uri : string) (m : option resume_msg) : M unit :=
  match m with
  | None => mret tt
  | Some m =>
      metric streamMigratedRelay 1;;
      r ← submit (EvMigrateBack (rm_StreamId m) uri (rm_MyPosition m) (rm_PeerAckPosition m));
      await_match an r
  end.

(** ** Opened streams *)

Section Handlers.

Context {ID : Identity}.
(** The iteration order of the cache's map, the controller, the URIs of the
    connections, the plane's endpoint. *)
Context (order : gmap cacheKey cacheEntry -> list cacheKey).
Context (ask : ResolveRequest -> option (list ProviderInfo)).
Context (uri_of : nat -> string) (endpoint : string).

(** [s.evaluate]: the cache, then the engine as it is at that moment, then the
    cache again, with no lock held across them. *)
Definition do_evaluate (k : cacheKey) : M Result :=
  evalStart ← read sv_now;
  defer (observe policyEvalDuration evalStart) (
    hit ← atom (fun s =>
      match sv_cache s with
      | None => Ret (None, s, [])
      | Some c =>
          let '(r, c') := Get k (sv_now s) c in
          Ret (r, set_cache (Some c') s, match r with Some r => [AEvaluate k r] | None => [] end)
      end);
    match hit with
    | Some r => metric policyCacheHits 1;; mret r
    | None =>
        cached ← read (fun s => bool_decide (is_Some (sv_cache s)));
        (if cached : bool then metric policyCacheMisses 1 else mret tt);;
        r ← atom (fun s =>
          match sv_policy s with
          | None => Panic "nil policy engine"
          | Some e =>
              let r := decide_key e k (sv_now s) in
              Ret (r, set_decided ((k, r, sv_now s, e) :: sv_decided s) s, [])
          end);
        atom (fun s => Ret (tt, set_cache (Put order k r (sv_now s) <$> sv_cache s) s, [AEvaluate k r]));;
        mret r
    end).

Definition recordAudit (k : cacheKey) (r : Result) : M unit :=
  atom (fun s =>
    match sv_audit s with
    | None => Ret (tt, s, [])
    | Some em =>
        let '(caller, target, method) := k in
        let ev := mkEvent (UnixMilli (sv_now s)) (tenantOf caller) caller target method
                    (bool_decide (res_Decision r = DecisionDeny)) (res_Reason r) in
        Ret (tt, set_audit (Some (Emit ev em)) s, [AAudit ev])
    end).

(** [OpenIncoming] on the provider's connection. *)
Definition OpenIncoming (an : answers) (prov : nat) (service method callerURI : string) (sid : Z) : M bool :=
  pause;;
  relays ← read Successors;
  if an_incoming an
  then act (AOpenIncoming prov service method callerURI sid relays);; mret true
  else mret false.

(** [s.pool.Get]: the two critical sections of the pool, the dial between them. *)
Definition pool_get (an : answers) (relayID : string) : M (option nat) :=
  cached ← read (fun s => p ← sv_pool s; Get_cached relayID p);
  match cached with
  | Some c => mret (Some c)
  | None =>
      pause;;
      atom (fun s =>
        match sv_pool s with
        | None => Panic "nil pool"
        | Some p =>
            let '(c, p') := Get_dialed relayID (an_dial an) p in Ret (c, set_pool (Some p') s, [])
        end)
  end.

Definition forwardToPeer (an : answers) (caller : nat) (o : OpenStream) (remote : Remote) : M unit :=
  metric intraRelayHops 1;;
  conn ← pool_get an (rm_RelayID remote);
  match conn with
  | None => rejectConsumer caller (os_StreamId o) 502 "peer relay unreachable"
  | Some c =>
      (if an_opened an && an_written an
       then act (AForwardStream c (os_TargetService o) (os_Method o) (uri_of caller)) else mret tt);;
      pause;;
      if ForwardStream (an_opened an) (an_written an) (an_reply an)
      then defer (act ACloseProvider) (act ASplice;; pause;; metric bytesForwarded (an_bytes an))
      else
        atom (fun s =>
          Ret (tt, set_pool (Drop (rm_RelayID remote) <$> sv_pool s) s, [ADropPeer (rm_RelayID remote)]));;
        rejectConsumer caller (os_StreamId o) 502 "peer relay forward failed"
  end.

(** relay_mode=FORWARD: allocate, tell both agents, park. *)
Definition forward_mode (an : answers) (caller prov : nat) (o : OpenStream) : M unit :=
  reg ← read sv_reg;
  match LookupAgent (uri_of prov) reg with
  | None => rejectConsumer caller (os_StreamId o) 502 "forward: provider control channel unavailable"
  | Some provAC =>
      consumerAlloc ← do_allocate (uri_of caller);
      providerAlloc ← do_allocate (uri_of provAC);
      defer (do_forget consumerAlloc) (defer (do_forget providerAlloc) (
        metric streamForwardAssigned 1;;
        relays ← read Successors;
        if negb (an_grant_consumer an) then mret tt
        else
          act (ACtrl caller (CGranted (mkGranted (os_StreamId o) consumerAlloc providerAlloc endpoint relays)));;
          if negb (an_grant_provider an) then mret tt
          else
            act (ACtrl provAC (CGranted (mkGranted (os_StreamId o) providerAlloc consumerAlloc endpoint relays)));;
            act APark;; pause))
  end.

(** Splice mode: STREAM_READY to both agents, then the splice. *)
Definition splice_mode (an : answers) (caller prov : nat) (o : OpenStream) : M unit :=
  reg ← read sv_reg;
  relays ← read Successors;
  act (ACtrl caller (CReady (os_StreamId o) relays));;
  match LookupAgent (uri_of prov) reg with
  | Some provAC => act (ACtrl provAC (CReady (os_StreamId o) relays))
  | None => mret tt
  end;;
  act ASplice;; pause;; metric bytesForwarded (an_bytes an).

(** From the provider's acknowledgement on. *)
Definition await_ack (an : answers) (caller prov : nat) (o : OpenStream) (relayMode : RelayMode) : M unit :=
  pause;;
  match an_ack an with
  | AckError | AckOther => mret tt
  | AckReject => rejectConsumer caller (os_StreamId o) 503 "provider rejected"
  | AckAccept =>
      forward ← read (fun s => bool_decide (is_Some (sv_forward s)));
      if bool_decide (relayMode = RelayModeForward) && forward
      then forward_mode an caller prov o
      else splice_mode an caller prov o
  end.

(** From the open of the provider's stream on. *)
Definition with_provider (an : answers) (caller prov : nat) (o : OpenStream) (p2pMode : P2PMode)
    (relayMode : RelayMode) : M unit :=
  ok ← OpenIncoming an prov (os_TargetService o) (os_Method o) (uri_of caller) (os_StreamId o);
  if negb ok then rejectConsumer caller (os_StreamId o) 502 "provider stream open failed"
  else
    defer (act ACloseProvider) (
      ok ← do_recordPair (os_StreamId o) (mkPair (uri_of caller) (uri_of prov));
      if negb ok then rejectConsumer caller (os_StreamId o) 409 "stream id collision"
      else
        defer (do_forgetPair (os_StreamId o)) (
          (if decide (p2pMode = P2PModeRequired) then act (AArmRequired (os_StreamId o)) else mret tt);;
          await_ack an caller prov o relayMode)).

(** From the resolved provider on: the callee-side policy. *)
Definition callee_side (an : answers) (caller prov : nat) (o : OpenStream) (p2pMode : P2PMode)
    (relayMode : RelayMode) : M unit :=
  pol ← read (fun s => bool_decide (is_Some (sv_policy s)));
  if negb pol then with_provider an caller prov o p2pMode relayMode
  else
    let k := (uri_of prov, uri_of caller, os_Method o) in
    callee ← do_evaluate k;
    recordAudit k callee;;
    if decide (res_Decision callee = DecisionDeny)
    then rejectConsumer caller (os_StreamId o) 403 ("denied (callee): " +:+ res_Reason callee)
    else with_provider an caller prov o (CombineP2PModes p2pMode (res_P2PMode callee)) relayMode.

Definition resolve_target (an : answers) (caller : nat) (o : OpenStream) (p2pMode : P2PMode)
    (relayMode : RelayMode) : M unit :=
  pause;;
  reg ← read sv_reg;
  match Resolve ask (uri_of caller) (os_TargetService o) reg with
  | RRemote remote =>
      pool ← read (fun s => bool_decide (is_Some (sv_pool s)));
      if negb pool || String.eqb (rm_Endpoint remote) ""
      then rejectConsumer caller (os_StreamId o) 502 "inter-relay forwarding unavailable"
      else forwardToPeer an caller o remote
  | RLocal prov => callee_side an caller prov o p2pMode relayMode
  | RNotFound | RNoTenant | RControllerError =>
      rejectConsumer caller (os_StreamId o) 404 "service not found"
  end.

Definition open_stream (an : answers) (caller : nat) (o : OpenStream) : M unit :=
  metric streamOpens 1;;
  pol ← read (fun s => bool_decide (is_Some (sv_policy s)));
  if negb pol then resolve_target an caller o P2PModeAllowed RelayModeSplice
  else
    let k := (uri_of caller, os_TargetService o, os_Method o) in
    dec ← do_evaluate k;
    recordAudit k dec;;
    if decide (res_Decision dec = DecisionDeny)
    then rejectConsumer caller (os_StreamId o) 403 ("denied: " +:+ res_Reason dec)
    else resolve_target an caller o (res_P2PMode dec) (res_RelayMode dec).

Definition handleConsumerStream (an : answers) (caller : nat) : M unit :=
  streamStart ← read sv_now;
  defer (act ACloseStream) (
    gauge 1;;
    defer (gauge (-1);; observe streamOpenDuration streamStart) (
      pause;;
      match an_first an with
      | FrUnreadable | FrOther => mret tt
      | FrResume m => handleResumeHalf an (uri_of caller) m
      | FrMigrate m => handleMigrateToRelay an (uri_of caller) m
      | FrOpen o => open_stream an caller o
      end)).

(** The peer relay's side: a FORWARD_STREAM from another relay.  [src] is the
    agent URI the frame claims; FORWARD_STREAM carries no stream id. *)
Definition handleForwardedStream (an : answers) (src : string) (o : OpenStream) (first_ok : bool) : M unit :=
  defer (act ACloseStream) (
    pause;;
    if negb first_ok then mret tt
    else
      reg ← read sv_reg;
      match Resolve ask src (os_TargetService o) reg with
      | RLocal prov =>
          ok ← OpenIncoming an prov (os_TargetService o) (os_Method o) src (os_StreamId o);
          if negb ok then writeStreamReject 502 "provider open failed"
          else
            defer (act ACloseProvider) (
              pause;;
              match an_ack an with
              | AckAccept =>
                  if negb (an_accept an) then mret tt
                  else act AAccept;; act ASplice;; pause;; metric bytesForwarded (an_bytes an)
              | _ => writeStreamReject 503 "provider rejected"
              end)
      | _ => writeStreamReject 503 "no local provider for forwarded stream"
      end).

End Handlers.
