(* ===== verification/OpenSpec.v ===== *)
(** * OpenSpec: what the stream handlers promise

    An abstract protocol for the life of a consumer stream, as a set of traces,
    and the proof that [handleConsumerStream] refines it whatever the network
    answers and whatever the other goroutines of the relay do in between.  The
    proof is made against an interface ([StreamInv]): any invariant of the server
    that the handlers' own steps keep will do, so the same proof serves one handler
    under arbitrary interference and the whole relay. *)

From S2P Require Import Prelude Threads PolicyMatcher PolicyCache ForwardPlane ForwardInv ForwardCtrl.
From S2P Require Import EdgeTables ResumeMatcher Registry AuditQueue Intra ServerState OpenStream.

#[local] Arguments mbind {_ _ _ _} _ _ : simpl never.
#[local] Arguments wps : simpl never.

(** ** The protocol *)

Section Protocol.
Context {ID : Identity} (uri_of : nat -> string) (endpoint : string).
Context (caller : nat).

Section Open.
Context (o : OpenStream) (an : answers).

(** A reject: on the stream, and mirrored on the control stream if it has an id. *)
Definition rej (code : Z) (reason : string) : list action :=
  AReject code reason :: if os_StreamId o =? 0 then [] else [ACtrl caller (CReject (os_StreamId o) code reason)].

Definition grant_to (to : nat) (mine peer : Z) (relays : list string) : action :=
  ACtrl to (CGranted (mkGranted (os_StreamId o) mine peer endpoint relays)).

(** What the agents are told in forward mode, as far as it can be written. *)
Definition grants (provAC : nat) (a b : Z) (relays : list string) : list action :=
  if an_grant_consumer an
  then grant_to caller a b relays :: if an_grant_provider an then [grant_to provAC b a relays; APark] else []
  else [].

(** Forward mode: both allocations are released in reverse order at the end. *)
Definition p_forward (tr : list action) : Prop :=
  tr = rej 502 "forward: provider control channel unavailable" \/
  exists provAC a b relays,
    tr = [AAllocate (uri_of caller) a; AAllocate (uri_of provAC) b] ++ grants provAC a b relays ++ [AForget b; AForget a].

Definition p_splice (tr : list action) : Prop :=
  exists relays prov_signal, tr = ACtrl caller (CReady (os_StreamId o) relays) :: prov_signal ++ [ASplice] /\
    (prov_signal = [] \/ exists provAC, prov_signal = [ACtrl provAC (CReady (os_StreamId o) relays)]).

(** After the provider's acknowledgement. *)
Definition p_ack (tr : list action) : Prop :=
  match an_ack an with
  | AckError | AckOther => tr = []
  | AckReject => tr = rej 503 "provider rejected"
  | AckAccept => p_forward tr \/ p_splice tr
  end.

(** With a provider: the stream toward it is opened, and closed at the end. *)
Definition p_provider (prov : nat) (tr : list action) : Prop :=
  tr = rej 502 "provider stream open failed" \/
  exists relays inner,
    tr = [AOpenIncoming prov (os_TargetService o) (os_Method o) (uri_of caller) (os_StreamId o) relays] ++
         inner ++ [ACloseProvider] /\
    (inner = rej 409 "stream id collision" \/
     exists arm body,
       inner = [ARecordPair (os_StreamId o) (mkPair (uri_of caller) (uri_of prov))] ++ arm ++ body ++
               [AForgetPair (os_StreamId o)] /\
       (arm = [] \/ arm = [AArmRequired (os_StreamId o)]) /\ p_ack body).

(** One policy check: evaluated, audited, and either denied or passed on. *)
Definition p_check (k : cacheKey) (reason : string) (next : list action -> Prop) (tr : list action) : Prop :=
  exists r audit rest, tr = AEvaluate k r :: audit ++ rest /\
    (audit = [] \/ exists ev, audit = [AAudit ev] /\ ev_Caller ev = k.1.1 /\ ev_Target ev = k.1.2 /\
       ev_Method ev = k.2 /\ ev_Deny ev = bool_decide (res_Decision r = DecisionDeny)) /\
    if decide (res_Decision r = DecisionDeny) then rest = rej 403 (reason +:+ res_Reason r) else next rest.

(** Toward a peer relay. *)
Definition p_peer (tr : list action) : Prop :=
  tr = rej 502 "inter-relay forwarding unavailable" \/ tr = rej 502 "peer relay unreachable" \/
  exists c fw, (fw = [] \/ fw = [AForwardStream c (os_TargetService o) (os_Method o) (uri_of caller)]) /\
    ((exists relayID, tr = fw ++ ADropPeer relayID :: rej 502 "peer relay forward failed") \/
     (fw <> [] /\ tr = fw ++ [ASplice; ACloseProvider])).

(** With [pol] saying whether the relay has a policy engine. *)
Definition p_resolve (pol : bool) (tr : list action) : Prop :=
  tr = rej 404 "service not found" \/ p_peer tr \/
  exists prov, if pol then p_check (uri_of prov, uri_of caller, os_Method o) "denied (callee): " (p_provider prov) tr
               else p_provider prov tr.

Definition p_open (pol : bool) (tr : list action) : Prop :=
  if pol then p_check (uri_of caller, os_TargetService o, os_Method o) "denied: " (p_resolve pol) tr
  else p_resolve pol tr.

End Open.

(** A resumed stream: nothing if its frame is bad; else its half is submitted, and
    if this side is the one to splice, the pair is in the table meanwhile. *)
Definition p_resume (m : option resume_msg) (tr : list action) : Prop :=
  match m with
  | None => tr = []
  | Some m => exists r, tr = [ASubmit r] \/
      exists peer, tr = [ASubmit r; AReplacePair (rm_StreamId m) (mkPair (uri_of caller) peer); ASplice;
                         AForgetPair (rm_StreamId m)]
  end.

(** What the handler does, by the first frame. *)
Definition p_stream (pol : bool) (an : answers) (tr : list action) : Prop :=
  match an_first an with
  | FrOpen o => p_open o an pol tr
  | FrResume m | FrMigrate m => p_resume m tr
  | FrUnreadable | FrOther => tr = []
  end.

(** The gauge counts the stream from its start to its end, if there are metrics. *)
Definition p_handler (pol mt : bool) (an : answers) (tr : list action) : Prop :=
  exists body, tr = (if mt then [AGauge 1] else []) ++ body ++ (if mt then [AGauge (-1)] else []) ++ [ACloseStream] /\
    p_stream pol an body.

(** The peer relay's side: no policy, no table, one answer to the other relay. *)
Definition p_forwarded (src : string) (o : OpenStream) (tr : list action) : Prop :=
  exists body, tr = body ++ [ACloseStream] /\
    (body = [] \/ body = [AReject 503 "no local provider for forwarded stream"] \/
     body = [AReject 502 "provider open failed"] \/
     exists prov relays inner,
       body = [AOpenIncoming prov (os_TargetService o) (os_Method o) src (os_StreamId o) relays] ++ inner ++
              [ACloseProvider] /\
       (inner = [] \/ inner = [AReject 503 "provider rejected"] \/ inner = [AAccept; ASplice])).

End Protocol.

(** ** What a step does to the tables

    The pair table, the gauge of active streams and the set of allocations change
    exactly as the events of a step say. *)

Definition ap_pairs (m : gmap Z streamPair) (a : action) : gmap Z streamPair :=
  match a with
  | ARecordPair sid p | AReplacePair sid p => replacePair sid p m
  | AForgetPair sid => forgetPair sid m
  | _ => m
  end.

Definition ap_gauge (g : Z) (a : action) : Z := match a with AGauge d => g + d | _ => g end.

Definition ap_allocs (l : gset Z) (a : action) : gset Z :=
  match a with
  | AAllocate _ id => {[id]} ∪ l
  | AForget id => l ∖ {[id]}
  | _ => l
  end.

Definition gauge_of (s : Server) : Z := from_option (fun m => mt_count m streamActive) 0 (sv_metrics s).
Definition allocs_of (s : Server) : gset Z := from_option (fun p => dom (byAlloc p)) ∅ (sv_forward s).

(** What a goroutine may rely on while it is not running: its half stays what it
    is, and what was decided or received stays so. *)
Definition rely (s s' : Server) : Prop :=
  halves_kept (sv_rs s) (sv_rs s') /\ sv_decided s ⊆ sv_decided s' /\ sv_received s ⊆ sv_received s'.

#[export] Instance rely_preorder : PreOrder rely.
Proof. unfold rely. split; [by intros s|]. intros s1 s2 s3 (H1 & ? & ?) (H2 & ? & ?). split_and!; by etrans. Qed.

Lemma rely_same s s' : r_halves (sv_rs s') = r_halves (sv_rs s) -> sv_decided s' = sv_decided s ->
  sv_received s' = sv_received s -> rely s s'.
Proof. intros Hh Hd Hr. split; [by apply halves_kept_same|]. by rewrite Hd, Hr. Qed.

(** What is decided in a state: by the engine in force, at its time. *)
Definition decided_now (s : Server) (x : cacheKey * Result * Time * Engine) : Prop :=
  let '(k, r, t, e) := x in sv_policy s = Some e /\ t = sv_now s /\ r = decide_key e k t.

(** A verdict of the policy that may be handed out: the engine decided it, and it
    was stored less than a TTL ago, or is being stored now. *)
Definition fresh (s : Server) (k : cacheKey) (r : Result) : Prop :=
  exists t e p, (k, r, t, e) ∈ sv_decided s /\ t <= p <= sv_now s /\ sv_now s < p + CacheTTL.

(** The moves of the plane that a handler makes. *)
Definition stream_plane_op (op : plane_op) : Prop :=
  match op with
  | PAllocate uri _ => uri <> ""
  | PForget _ => True
  | _ => False
  end.

(** Operations on the plane, in turn, and nothing else of the sessions. *)
Definition with_plane (ops : list plane_op) (x : sessions) : sessions :=
  mkSessions (se_reg x) (se_agents x) (se_conns x) ((fun p => foldl plane_exec p ops) <$> se_forward x) (se_deregs x).

Lemma with_plane_nil x : with_plane [] x = x.
Proof. by destruct x as [? ? ? [] ?]. Qed.

(** The ids the events say were issued. *)
Definition count_allocs (es : list action) : Z :=
  Z.of_nat (length (List.filter (fun a => match a with AAllocate _ _ => true | _ => false end) es)).

Lemma count_allocs_app l l' : count_allocs (l ++ l') = count_allocs l + count_allocs l'.
Proof. unfold count_allocs. rewrite List.filter_app, length_app. lia. Qed.

Lemma count_allocs_cons uri id l : count_allocs (AAllocate uri id :: l) = 1 + count_allocs l.
Proof. unfold count_allocs. cbn. lia. Qed.

(** What a goroutine says it found is what there was. *)
Definition seen (s : Server) (a : action) : Prop :=
  match a with
  | ALive l => l = liveAgents (sv_ss s)
  | ASuccessors l => l = Successors s
  | _ => True
  end.

Record effect (s : Server) (es : list action) (s' : Server) : Prop := {
  ef_pairs : sv_pairs s' = foldl ap_pairs (sv_pairs s) es;
  ef_gauge : gauge_of s' = foldl ap_gauge (gauge_of s) es;
  ef_allocs : allocs_of s' ⊆ foldl ap_allocs (allocs_of s) es;
  ef_plane : exists ops, Forall stream_plane_op ops /\ sv_ss s' = with_plane ops (sv_ss s) /\
    allocations ops = count_allocs es;
  ef_verdicts : forall k r, AEvaluate k r ∈ es -> fresh s' k r;
  ef_seen : Forall (seen s') es;
  ef_decided : forall x, x ∈ sv_decided s' -> x ∈ sv_decided s \/ decided_now s x;
  ef_rely : rely s s'
}.

Definition is_evaluate (a : action) : bool := match a with AEvaluate _ _ => true | _ => false end.
Definition is_seen (a : action) : bool := match a with ALive _ | ASuccessors _ => true | _ => false end.

(** An event that says nothing of the tables, nor of the policy. *)
Definition inert (a : action) : bool :=
  match a with
  | ARecordPair _ _ | AReplacePair _ _ | AForgetPair _ | AGauge _ | AAllocate _ _ | AForget _ | AEvaluate _ _
  | ALive _ | ASuccessors _ => false
  | _ => true
  end.

Lemma inert_fold {V} (ap : V -> action -> V) v es :
  (forall v a, inert a = true -> ap v a = v) -> forallb inert es = true -> foldl ap v es = v.
Proof.
  intros Hap. revert v. induction es as [|a es IH]; intros v; simpl; [done|].
  intros [Ha Hes]%andb_true_iff. by rewrite Hap, IH.
Qed.

Lemma inert_allocs es : forallb inert es = true -> 0 = count_allocs es.
Proof.
  unfold count_allocs. induction es as [|a es IH]; simpl; [done|]. intros [Ha Hes%IH]%andb_true_iff.
  by destruct a.
Qed.

(** A step with inert events leaves the three tables alone. *)
Lemma effect_inert s es s' :
  forallb inert es = true -> sv_rs s' = sv_rs s -> sv_ss s' = sv_ss s -> gauge_of s' = gauge_of s ->
  sv_decided s' = sv_decided s -> sv_received s' = sv_received s -> effect s es s'.
Proof.
  intros He Er Ef Eg Ed Erc. split.
  - rewrite inert_fold; [unfold sv_pairs; by rewrite Er|by intros ? []|done].
  - rewrite inert_fold; [done|by intros ? []|done].
  - rewrite inert_fold; [unfold allocs_of, sv_forward; by rewrite Ef|by intros ? []|done].
  - exists []. split; [done|]. split; [by rewrite with_plane_nil|]. by apply inert_allocs.
  - intros k r Hin%list_elem_of_In. eapply forallb_forall in He; [|done]. done.
  - apply Forall_forall. intros a Hin%list_elem_of_In. eapply forallb_forall in He; [|done]. by destruct a.
  - intros x. rewrite Ed. by left.
  - apply rely_same; [by rewrite Er|done..].
Qed.

Lemma effect_refl s : effect s [] s.
Proof. by apply effect_inert. Qed.

(** A step that leaves the sessions alone, and has issued no id. *)
Ltac no_plane := by (exists []; split; [done|split; [by rewrite with_plane_nil|done]]).

(** The parts of an effect, but for those that hold by computation. *)
Ltac by_effect := split; try done; try (by apply rely_same); try (intros ? ? ?; set_solver); try no_plane;
  try (by repeat constructor);
  try (lazymatch goal with |- forall x, x ∈ sv_decided _ -> _ => intros ? ?; by left end).

(** ** The interface to the rest of the relay

    What a handler needs of the state it works on: which optional parts there are,
    an id counter that is a 32-bit number, a resume matcher in good order, a cache
    of decisions the engine took. *)
Record config := mkConfig { cf_policy : bool; cf_forward : bool; cf_metrics : bool; cf_pool : bool }.

Record srv_ok (c : config) (s : Server) : Prop := {
  so_policy : bool_decide (is_Some (sv_policy s)) = cf_policy c;
  so_forward : bool_decide (is_Some (sv_forward s)) = cf_forward c;
  so_metrics : bool_decide (is_Some (sv_metrics s)) = cf_metrics c;
  so_pool : bool_decide (is_Some (sv_pool s)) = cf_pool c;
  so_next : forall p, sv_forward s = Some p -> 0 <= nextID p < 2 ^ 32;
  so_rs : rinv (sv_rs s);
  so_decided : forall k r t e, (k, r, t, e) ∈ sv_decided s -> r = decide_key e k t /\ t <= sv_now s;
  so_cache : forall x k ce, sv_cache s = Some x -> c_m x !! k = Some ce ->
    exists t e, (k, ce_res ce, t, e) ∈ sv_decided s /\ t <= ce_expires ce - CacheTTL <= sv_now s
}.

(** The moves of the resume matcher that a handler makes. *)
Definition stream_revent (ev : revent) : bool :=
  match ev with
  | EvResume _ _ _ _ | EvMigrateBack _ _ _ _ | EvHandlerRecv _ | EvSpliceEnd _ | EvDoneRecv _
  | EvRecordPair _ _ | EvForgetPair _ => true
  | _ => false
  end.

(** An engine in order, with no rules but those received. *)
Definition engine_ok (l : list Rule) (e : Engine) : Prop :=
  engine_inv e /\ forall id r, rules e !! id = Some r -> r ∈ l.

(** An update of the engine that keeps it so. *)
Definition update_ok (s : Server) (f : Engine -> Engine) : Prop :=
  forall e, engine_ok (sv_received s) e -> engine_ok (sv_received s) (f e).

(** An invariant of the server under which the handlers are safe and which their
    steps, and those of the policy watcher, keep. *)
Class StreamInv (order : gmap cacheKey cacheEntry -> list cacheKey) (c : config) (I : Server -> Prop) : Prop := {
  si_ok s : I s -> srv_ok c s;
  si_get s x k : I s -> sv_cache s = Some x -> I (set_cache (Some (Get k (sv_now s) x).2) s);
  si_put s x k r t e : I s -> sv_cache s = Some x -> (k, r, t, e) ∈ sv_decided s ->
    I (set_cache (Some (Put order k r (sv_now s) x)) s);
  si_flush s x : I s -> sv_cache s = Some x -> I (set_cache (Some (Flush x)) s);
  si_policy s f : I s -> update_ok s f -> I (set_policy (f <$> sv_policy s) s);
  si_received s r : I s -> I (set_received (r :: sv_received s) s);
  si_decide s e k : I s -> sv_policy s = Some e ->
    I (set_decided ((k, decide_key e k (sv_now s), sv_now s, e) :: sv_decided s) s);
  si_audit s em ev : I s -> sv_audit s = Some em -> I (set_audit (Some (Emit ev em)) s);
  si_dialed s p id ok : I s -> sv_pool s = Some p -> I (set_pool (Some (Get_dialed id ok p).2) s);
  si_drop s p id : I s -> sv_pool s = Some p -> I (set_pool (Some (Drop id p)) s);
  si_metric s m d : I s -> I (count_metric m d s);
  si_observe s h t : I s -> I (Observe h t s);
  si_plane s p op : I s -> sv_forward s = Some p -> stream_plane_op op ->
    I (set_forward (Some (plane_exec p op)) s);
  si_resume s ev rs : I s -> stream_revent ev = true -> rexec (sv_rs s) ev = Some (Ret rs) -> I (set_rs rs s)
}.


(** The weakest such invariant.  A change that leaves alone what it speaks of: *)
Lemma srv_ok_same c s s' :
  sv_policy s' = sv_policy s -> sv_forward s' = sv_forward s -> is_Some (sv_metrics s') <-> is_Some (sv_metrics s) ->
  is_Some (sv_pool s') <-> is_Some (sv_pool s) -> sv_rs s' = sv_rs s -> sv_decided s' = sv_decided s ->
  (sv_cache s' = sv_cache s) -> srv_ok c s -> srv_ok c s'.
Proof.
  intros E1 E2 E3 E4 E5 E6 E7 [H1 H2 H3 H4 H5 H6 H7 H8].
  split; unfold sv_now in *; rewrite ?E1, ?E2, ?E5, ?E6, ?E7; try done; [rewrite <- H3|rewrite <- H4]; by apply bool_decide_ext.
Qed.

Lemma srv_ok_cache c s x :
  srv_ok c s ->
  (forall k ce, c_m x !! k = Some ce ->
     exists t e, (k, ce_res ce, t, e) ∈ sv_decided s /\ t <= ce_expires ce - CacheTTL <= sv_now s) ->
  srv_ok c (set_cache (Some x) s).
Proof. intros [H1 H2 H3 H4 H5 H6 H7 H8] Hx. split; try done. intros y k ce [= <-]. apply Hx. Qed.

#[export] Instance srv_ok_stream order c : StreamInv order c (srv_ok c).
Proof.
  split; try done.
  - intros s x k Hs Ex. apply srv_ok_cache; [done|]. intros k' ce Hce. apply (so_cache c s Hs x); [done|].
    destruct (Get k (sv_now s) x) as [o x'] eqn:E. eapply lookup_weaken; [done|]. by eapply Get_subseteq.
  - intros s x k r t e Hs Ex Hd. apply srv_ok_cache; [done|]. intros k' ce.
    intros [[-> ->]|Hce]%Put_lookup; [|by apply (so_cache c s Hs x)].
    exists t, e. simpl. destruct (so_decided c s Hs _ _ _ _ Hd). split; [done|]. lia.
  - intros s x Hs Ex. apply srv_ok_cache; [done|]. intros k ce Hce. unfold Flush in Hce. cbn [c_m] in Hce.
    by rewrite lookup_empty in Hce.
  - intros s f [H1 H2 H3 H4 H5 H6 H7 H8] _. split; try done. simpl. rewrite <- H1. apply bool_decide_ext.
    by rewrite fmap_is_Some.
  - intros s r Hs. by apply (srv_ok_same c s).
  - intros s e k [H1 H2 H3 H4 H5 H6 H7 H8] Ee. split; try done; cbn [sv_decided set_decided].
    + intros k' r' t' e' [[= -> -> -> ->]|Hin]%elem_of_cons; [split; [done|]; unfold sv_now; simpl; lia|by apply H7].
    + intros x k' ce Ex Hce. destruct (H8 x k' ce Ex Hce) as (t & e' & ? & ?). exists t, e'. split; [by right|done].
  - intros s em ev Hs Ex. by apply (srv_ok_same c s).
  - intros s p id ok Hs Ex. by apply (srv_ok_same c s); try done; simpl; rewrite Ex.
  - intros s p id Hs Ex. by apply (srv_ok_same c s); try done; simpl; rewrite Ex.
  - intros s m d Hs. apply (srv_ok_same c s); try done. simpl. by rewrite fmap_is_Some.
  - intros s h t Hs. apply (srv_ok_same c s); try done. simpl. by rewrite fmap_is_Some.
  - intros s p op [H1 H2 H3 H4 H5 H6 H7 H8] Hp Hop. split; try done; cbn.
    + by rewrite Hp in H2.
    + intros q [= <-]. apply plane_exec_range. auto.
  - intros s ev rs [H1 H2 H3 H4 H5 H6 H7 H8] Hev Hx.
    assert (r_now rs = sv_now s) as En by (apply (rexec_now _ ev); [by destruct ev|done]).
    split; try done; simpl; unfold sv_now; simpl; rewrite ?En; try done.
    by destruct (rexec_ok _ _ _ H6 Hx) as (? & [= <-] & ?).
Qed.

(** ** The steps of a handler *)

Section Refinement.
Context {ID : Identity}.
Context (order : gmap cacheKey cacheEntry -> list cacheKey).
Context (ask : ResolveRequest -> option (list ProviderInfo)).
Context (uri_of : nat -> string) (endpoint : string).
Context (c : config) (I : Server -> Prop) `{!StreamInv order c I} (b : bool).
Hypothesis uri_ok : forall n, uri_of n <> "".

Abbreviation tri := (wp I rely effect b).

Lemma tri_weaken {A} (p : M A) (Q Q' : A -> list action -> Prop) :
  tri p Q -> (forall a tr, Q a tr -> Q' a tr) -> tri p Q'.
Proof. apply wp_weaken. Qed.

Lemma tri_seq {A B} (p : M A) (k : A -> M B) Q1 Q :
  tri p Q1 -> (forall a tr, Q1 a tr -> tri (k a) (fun y tr' => Q y (tr ++ tr'))) -> tri (p ≫= k) Q.
Proof. apply wp_seq. Qed.

Lemma tri_defer {A} (f : M unit) (p : M A) Q1 Q2 Q :
  tri p Q1 -> tri f Q2 -> (forall a tr tr', Q1 a tr -> Q2 tt tr' -> Q a (tr ++ tr')) -> tri (defer f p) Q.
Proof. apply wp_defer. Qed.

Lemma tri_ret {A} (a : A) (Q : A -> list action -> Prop) : Q a [] -> tri (mret a) Q.
Proof. apply wp_ret. Qed.

Lemma tri_read {A B} (g : Server -> A) (k : A -> M B) Q : (forall s, I s -> tri (k (g s)) Q) -> tri (read g ≫= k) Q.
Proof. apply wp_read. intros. apply effect_refl. Qed.

Lemma tri_pause {B} (k : unit -> M B) Q : tri (k tt) Q -> tri (pause ≫= k) Q.
Proof. apply wp_pause. intros. apply effect_refl. Qed.

Lemma tri_pause_end (Q : unit -> list action -> Prop) : Q tt [] -> tri pause Q.
Proof. apply wp_pause_end. intros. apply effect_refl. Qed.

(** An action that is not inert has a step of its own. *)
Lemma tri_act {B} a (k : unit -> M B) Q :
  (if inert a then tri (k tt) (fun y tr => Q y (a :: tr)) else False) -> tri (act a ≫= k) Q.
Proof.
  destruct (inert a) eqn:E; [|done]. apply wp_act. intros s _. apply effect_inert; try done. simpl. by rewrite E.
Qed.

Lemma tri_act_end a (Q : unit -> list action -> Prop) : (if inert a then Q tt [a] else False) -> tri (act a) Q.
Proof.
  destruct (inert a) eqn:E; [|done]. apply wp_act_end. intros s _. apply effect_inert; try done. simpl. by rewrite E.
Qed.

Lemma metric_effect m d s : m <> streamActive -> effect s [] (count_metric m d s).
Proof.
  intros Hm. apply effect_inert; try done. unfold gauge_of. simpl. destruct (sv_metrics s) as [x|]; simpl; [|done].
  unfold bump. by rewrite decide_False by congruence.
Qed.

Lemma tri_metric {B} m d (k : unit -> M B) Q : m <> streamActive -> tri (k tt) Q -> tri (metric m d ≫= k) Q.
Proof. intros Hm. apply wp_write. intros s Hs. split; [by apply si_metric|by apply metric_effect]. Qed.

Lemma tri_metric_end m d (Q : unit -> list action -> Prop) : m <> streamActive -> Q tt [] -> tri (metric m d) Q.
Proof. intros Hm. apply wp_write_end. intros s Hs. split; [by apply si_metric|by apply metric_effect]. Qed.

Lemma tri_observe h t (Q : unit -> list action -> Prop) : Q tt [] -> tri (observe h t) Q.
Proof.
  apply wp_write_end. intros s Hs. split; [by apply si_observe|]. apply effect_inert; try done.
  unfold gauge_of. simpl. by destruct (sv_metrics s).
Qed.

Lemma tri_gauge d (Q : unit -> list action -> Prop) :
  Q tt (if cf_metrics c then [AGauge d] else []) -> tri (gauge d) Q.
Proof.
  intros HQ. apply wp_atom. intros s Hs. pose proof (so_metrics c s (si_ok s Hs)) as Hm.
  destruct (sv_metrics s) as [m|] eqn:E; rewrite <- Hm in HQ; simpl in HQ; [|split_and!; auto using effect_refl].
  split_and!; [by apply si_metric| |done]. by_effect. unfold gauge_of. simpl. rewrite E. simpl.
  by rewrite ?decide_True by done.
Qed.

Lemma tri_reject caller o code reason (Q : unit -> list action -> Prop) :
  Q tt (rej caller o code reason) -> tri (rejectConsumer caller (os_StreamId o) code reason) Q.
Proof.
  intros HQ. unfold rejectConsumer, writeStreamReject, rej in *.
  eapply (tri_seq _ _ (fun _ tr => tr = [AReject code reason])); [by apply tri_act, tri_metric_end|].
  intros [] tr ->. destruct (os_StreamId o =? 0); [by apply tri_ret|by apply tri_act_end].
Qed.

(** A verdict out of the cache. *)
Lemma get_effect s x k r :
  I s -> sv_cache s = Some x -> (Get k (sv_now s) x).1 = r ->
  effect s (match r with Some r => [AEvaluate k r] | None => [] end) (set_cache (Some (Get k (sv_now s) x).2) s).
Proof.
  intros Hs Ex Er. destruct (Get k (sv_now s) x) as [o x'] eqn:Eg. simpl in *. subst o.
  split; try (by destruct r); try (by apply rely_same); try (by intros ? ?; left); [by destruct r; no_plane| |destruct r; by repeat constructor].
  destruct r as [r|]; [|set_solver].
  intros k' r' [= -> ->]%list_elem_of_singleton. apply Get_Some in Eg as (_ & ce & Hce & <- & Hlt).
  destruct (so_cache c s (si_ok s Hs) x k ce Ex Hce) as (t & e & Hd & Ht).
  exists t, e, (ce_expires ce - CacheTTL). split; [done|]. unfold sv_now in *. simpl. lia.
Qed.

Lemma tri_evaluate k (Q : Result -> list action -> Prop) :
  cf_policy c = true -> (forall r, Q r [AEvaluate k r]) -> tri (do_evaluate order k) Q.
Proof.
  intros Hpol HQ. unfold do_evaluate. apply tri_read. intros s00 _.
  apply (tri_defer _ _ (fun r tr => tr = [AEvaluate k r]) (fun _ tr => tr = []));
    [|by apply tri_observe|intros r tr tr' -> ->; by apply HQ].
  apply (tri_seq _ _ (fun hit tr => tr = match hit with Some r => [AEvaluate k r] | None => [] end)).
  { apply wp_atom. intros s Hs. destruct (sv_cache s) as [x|] eqn:Ec; [|auto using effect_refl].
    pose proof (si_get s x k Hs Ec) as Hi. pose proof (get_effect s x k _ Hs Ec eq_refl) as He.
    destruct (Get k (sv_now s) x) as [r x']. by split_and!. }
  intros [r|] tr ->; [by apply tri_metric, tri_ret|]. apply tri_read. intros s _.
  eapply (tri_seq _ _ (fun _ tr => tr = [])).
  { case_match; [by apply tri_metric_end|by apply tri_ret]. }
  intros [] tr -> s0. apply wps_bind, wps_atom. intros s1 Hs1 _.
  pose proof (so_policy c s1 (si_ok s1 Hs1)) as Hp. rewrite Hpol in Hp. destruct (sv_policy s1) as [e|] eqn:Ee; [|done].
  set (r := decide_key e k (sv_now s1)). split_and!; [by apply si_decide| |].
  { split; try done; [no_plane|set_solver|..].
    - intros x [->|?]%elem_of_cons; [by right|by left].
    - split; [done|]. simpl. set_solver. }
  apply wps_bind, wps_atom. intros s2 Hs2 (_ & Hr2 & _). simpl in Hr2.
  assert (Hd : (k, r, sv_now s1, e) ∈ sv_decided s2) by set_solver.
  split_and!; [|split; try done; try (by apply rely_same); try (by intros ? ?; left); [no_plane| |by repeat constructor]|done].
  - destruct (sv_cache s2) as [x|] eqn:Ex; simpl; [by eapply si_put|]. by rewrite <- Ex, set_cache_id.
  - intros k' r' [= -> ->]%list_elem_of_singleton. destruct (so_decided c s2 (si_ok s2 Hs2) _ _ _ _ Hd).
    exists (sv_now s1), e, (sv_now s2). split; [done|]. unfold CacheTTL, Second, Millisecond, sv_now in *. simpl in *. lia.
Qed.

Lemma tri_audit k r (Q : unit -> list action -> Prop) :
  Q tt [] -> (forall ev, ev_Caller ev = k.1.1 -> ev_Target ev = k.1.2 -> ev_Method ev = k.2 ->
    ev_Deny ev = bool_decide (res_Decision r = DecisionDeny) -> Q tt [AAudit ev]) ->
  tri (recordAudit k r) Q.
Proof.
  intros H0 H1. apply wp_atom. intros s Hs. destruct (sv_audit s) as [em|] eqn:E; [|auto using effect_refl].
  destruct k as [[caller tg] m]. split_and!; [by apply si_audit|by apply effect_inert|by apply H1].
Qed.

Lemma tri_allocate uri (Q : Z -> list action -> Prop) :
  cf_forward c = true -> uri <> "" -> (forall id, Q id [AAllocate uri id]) -> tri (do_allocate uri) Q.
Proof.
  intros Hfw Hu HQ. apply wp_atom. intros s Hs. destruct (si_ok s Hs) as [_ Hf _ _ Hn _].
  rewrite Hfw in Hf. bool_to_prop. destruct Hf as [p Ep]. rewrite Ep.
  destruct (Allocate_next uri (sv_now s) p (Hn p Ep) Hu) as (id & p' & Ea & _). rewrite Ea.
  split_and!; [|by_effect|done].
  3: { exists [PAllocate uri (sv_now s)]. split; [by repeat constructor|]. split; [|done].
    unfold with_plane. unfold sv_forward in Ep. rewrite Ep. simpl. by rewrite Ea. }
  - pose proof (si_plane s p (PAllocate uri (sv_now s)) Hs Ep Hu) as H. simpl in H. by rewrite Ea in H.
  - unfold allocs_of. rewrite Ep. simpl. unfold Allocate in Ea. destruct (String.eqb uri ""); [done|].
    destruct (draw_id 2 (nextID p)); [|done]. injection Ea as -> <-. simpl. by rewrite dom_insert_L.
Qed.

Lemma Forget_dom id p : dom (byAlloc (Forget id p)) = dom (byAlloc p) ∖ {[id]}.
Proof.
  unfold Forget. destruct (byAlloc p !! id) eqn:E; simpl; [by rewrite dom_delete_L|].
  apply not_elem_of_dom in E. set_solver.
Qed.

Lemma tri_forget id (Q : unit -> list action -> Prop) : Q tt [AForget id] -> tri (do_forget id) Q.
Proof.
  intros HQ. apply wp_atom. intros s Hs. split_and!; [|by_effect|done].
  - destruct (sv_forward s) as [p|] eqn:Ep; simpl.
    + by apply (si_plane s p (PForget id)).
    + assert (set_forward None s = s) as ->; [|done]. unfold set_forward, sv_forward in *. destruct s as [? ? ? ? ? ? ? ? ? [] ?].
      simpl in *. by subst.
  - unfold allocs_of. cbn. destruct (sv_forward s) as [p|]; simpl; [by rewrite Forget_dom|set_solver].
  - exists [PForget id]. split; [by repeat constructor|]. done.
Qed.

Lemma tri_incoming an prov service method curi sid (Q : bool -> list action -> Prop) :
  Q false [] -> (forall relays, Q true [AOpenIncoming prov service method curi sid relays]) ->
  tri (OpenIncoming an prov service method curi sid) Q.
Proof.
  intros H0 H1. unfold OpenIncoming. apply tri_pause, tri_read. intros s _.
  destruct (an_incoming an); [|by apply tri_ret]. apply tri_act, tri_ret. apply H1.
Qed.

Lemma tri_recordPair sid pair (Q : bool -> list action -> Prop) :
  Q false [] -> Q true [ARecordPair sid pair] -> tri (do_recordPair sid pair) Q.
Proof.
  intros H0 H1. apply wp_atom. intros s Hs.
  pose proof (si_resume s (EvRecordPair sid pair) _ Hs eq_refl eq_refl) as Hi.
  destruct (recordPair sid pair (sv_pairs s)) as [ok pairs] eqn:E. simpl in Hi. unfold sv_pairs in E. rewrite E in Hi.
  split_and!; [exact Hi| |by destruct ok]. destruct ok; by_effect; cbn; unfold sv_pairs.
  - apply recordPair_true in E. unfold ap_pairs, replacePair.
    simpl. destruct (sid =? 0); [done|by destruct E].
  - unfold recordPair in E. repeat case_match; by simplify_eq.
Qed.

Lemma tri_forgetPair sid (Q : unit -> list action -> Prop) : Q tt [AForgetPair sid] -> tri (do_forgetPair sid) Q.
Proof.
  intros HQ. apply wp_atom. intros s Hs. split_and!; [|by_effect|done].
  by apply (si_resume s (EvForgetPair sid)).
Qed.

Lemma forward_mode_refines an caller prov o :
  cf_forward c = true ->
  tri (forward_mode uri_of endpoint an caller prov o) (fun _ tr => p_forward uri_of endpoint caller o an tr).
Proof.
  intros Hfw. unfold forward_mode. apply tri_read. intros s _.
  destruct (LookupAgent (uri_of prov) (sv_reg s)) as [provAC|]; [|apply tri_reject; by left].
  eapply (tri_seq _ _ (fun a tr => tr = [AAllocate (uri_of caller) a])); [by apply tri_allocate|].
  intros a tr1 ->.
  eapply (tri_seq _ _ (fun x tr => tr = [AAllocate (uri_of provAC) x])); [by apply tri_allocate|].
  intros x tr2 ->.
  eapply (tri_defer _ _ (fun _ tr => exists relays, tr = grants endpoint caller o an provAC a x relays ++ [AForget x])
    (fun _ tr => tr = [AForget a])); [|by apply tri_forget|].
  - eapply (tri_defer _ _ (fun _ tr => exists relays, tr = grants endpoint caller o an provAC a x relays)
      (fun _ tr => tr = [AForget x])); [|by apply tri_forget|intros [] tr tr' [relays ->] ->; by exists relays].
    apply tri_metric; [done|]. apply tri_read. intros s' _. unfold grants. destruct (an_grant_consumer an); simpl.
    + apply tri_act. destruct (an_grant_provider an); simpl.
      * apply tri_act, tri_act, tri_pause_end. by exists (Successors s').
      * apply tri_ret. by exists (Successors s').
    + apply tri_ret. by exists [].
  - intros [] tr tr' (relays & ->) ->. right. exists provAC, a, x, relays. simpl. by rewrite <- List.app_assoc.
Qed.

Lemma splice_mode_refines an caller prov o :
  tri (splice_mode uri_of an caller prov o) (fun _ tr => p_splice caller o tr).
Proof.
  unfold splice_mode. apply tri_read. intros s _. apply tri_read. intros s' _. apply tri_act.
  eapply (tri_seq _ _ (fun _ tr => tr = [] \/
    exists provAC, tr = [ACtrl provAC (CReady (os_StreamId o) (Successors s'))])).
  - destruct (LookupAgent _ _); [apply tri_act_end; simpl; eauto|by apply tri_ret; left].
  - intros [] tr Htr. apply tri_act, tri_pause, tri_metric_end; [done|]. exists (Successors s'), tr. eauto.
Qed.

Lemma await_ack_refines an caller prov o rm :
  tri (await_ack uri_of endpoint an caller prov o rm) (fun _ tr => p_ack uri_of endpoint caller o an tr).
Proof.
  unfold await_ack. apply tri_pause. unfold p_ack. destruct (an_ack an).
  - apply tri_read. intros s Hs. pose proof (so_forward c s (si_ok s Hs)) as Hf.
    destruct (bool_decide (rm = RelayModeForward)); simpl.
    + destruct (bool_decide (is_Some (sv_forward s))) eqn:E.
      * eapply tri_weaken; [by apply forward_mode_refines|]. auto.
      * eapply tri_weaken; [apply splice_mode_refines|]. auto.
    + eapply tri_weaken; [apply splice_mode_refines|]. auto.
  - apply tri_reject. auto.
  - apply tri_ret. auto.
  - apply tri_ret. auto.
Qed.

Lemma with_provider_refines an caller prov o p2p rm :
  tri (with_provider uri_of endpoint an caller prov o p2p rm)
    (fun _ tr => p_provider uri_of endpoint caller o an prov tr).
Proof.
  unfold with_provider. set (opened := AOpenIncoming prov (os_TargetService o) (os_Method o) (uri_of caller) (os_StreamId o)).
  eapply (tri_seq _ _ (fun ok tr => if ok : bool then exists relays, tr = [opened relays] else tr = [])).
  { apply tri_incoming; eauto. }
  intros [|] tr Htr; simpl; [destruct Htr as [relays ->]|subst tr; apply tri_reject; by left].
  set (pair := mkPair (uri_of caller) (uri_of prov)).
  eapply (tri_defer _ _ (fun _ tr => tr = rej caller o 409 "stream id collision" \/
     exists arm body, tr = [ARecordPair (os_StreamId o) pair] ++ arm ++ body ++ [AForgetPair (os_StreamId o)] /\
       (arm = [] \/ arm = [AArmRequired (os_StreamId o)]) /\ p_ack uri_of endpoint caller o an body)
    (fun _ tr => tr = [ACloseProvider])); [|by apply tri_act_end|].
  - fold pair. eapply (tri_seq _ _ (fun ok tr => tr = if ok : bool then [ARecordPair (os_StreamId o) pair] else [])).
    { by apply tri_recordPair. }
    intros [] tr ->; simpl; [|apply tri_reject; by left].
    eapply (tri_defer _ _ (fun _ tr => exists arm body, tr = arm ++ body /\
        (arm = [] \/ arm = [AArmRequired (os_StreamId o)]) /\ p_ack uri_of endpoint caller o an body)
      (fun _ tr => tr = [AForgetPair (os_StreamId o)])).
    + eapply (tri_seq _ _ (fun _ tr => tr = [] \/ tr = [AArmRequired (os_StreamId o)])).
      { case_decide; [apply tri_act_end; simpl|apply tri_ret]; auto. }
      intros [] arm Harm. eapply tri_weaken; [apply await_ack_refines|]. intros [] body Hb. eauto.
    + by apply tri_forgetPair.
    + intros [] t1 t2 (arm & body & -> & Harm & Hb) ->. right. exists arm, body. simpl.
      by rewrite <- List.app_assoc.
  - intros [] t1 t2 H1 ->. right. exists relays, t1. done.
Qed.

(** A policy check followed by [next]. *)
Lemma check_refines k reason caller o (next : Result -> M unit) (Q : list action -> Prop) :
  cf_policy c = true -> (forall r, tri (next r) (fun _ tr => Q tr)) ->
  tri (r ← do_evaluate order k;
       recordAudit k r;;
       if decide (res_Decision r = DecisionDeny)
       then rejectConsumer caller (os_StreamId o) 403 (reason +:+ res_Reason r) else next r)
    (fun _ tr => p_check caller o k reason Q tr).
Proof.
  intros Hpol Hn. eapply (tri_seq _ _ (fun r tr => tr = [AEvaluate k r])); [by apply tri_evaluate|].
  intros r tr ->.
  eapply (tri_seq _ _ (fun _ tr => tr = [] \/ exists ev, tr = [AAudit ev] /\ ev_Caller ev = k.1.1 /\
    ev_Target ev = k.1.2 /\ ev_Method ev = k.2 /\ ev_Deny ev = bool_decide (res_Decision r = DecisionDeny))).
  { apply tri_audit; [by left|]. intros ev ? ? ? ?. right. exists ev. done. }
  intros [] audit Ha. destruct (decide (res_Decision r = DecisionDeny)) as [Hd|Hd].
  - apply tri_reject. exists r, audit. eexists. split; [done|]. split; [done|]. by rewrite decide_True.
  - eapply tri_weaken; [apply Hn|]. intros [] rest HQ. exists r, audit, rest. split; [done|].
    split; [done|]. by rewrite decide_False.
Qed.

Lemma tri_pool_get an relayID (Q : option nat -> list action -> Prop) :
  cf_pool c = true -> (forall conn, Q conn []) -> tri (pool_get an relayID) Q.
Proof.
  intros Hpool HQ. unfold pool_get. apply tri_read. intros s _. case_match; [by apply tri_ret|].
  apply tri_pause, wp_atom. intros s' Hs. pose proof (so_pool c s' (si_ok s' Hs)) as Hp. rewrite Hpool in Hp.
  destruct (sv_pool s') as [p|] eqn:E; [|done]. pose proof (si_dialed s' p relayID (an_dial an) Hs E) as Hi.
  destruct (Get_dialed _ _ _) as [conn p']. split_and!; [done|by apply effect_inert|done].
Qed.

Lemma forwardToPeer_refines an caller o remote :
  cf_pool c = true ->
  tri (forwardToPeer uri_of an caller o remote) (fun _ tr => p_peer uri_of caller o tr).
Proof.
  intros Hpool. unfold forwardToPeer. apply tri_metric; [done|].
  eapply (tri_seq _ _ (fun _ tr => tr = [])); [by apply tri_pool_get|].
  intros [conn|] tr ->; [|apply tri_reject; by right; left].
  eapply (tri_seq _ _ (fun _ tr => tr = if an_opened an && an_written an
    then [AForwardStream conn (os_TargetService o) (os_Method o) (uri_of caller)] else [])).
  { destruct (_ && _); [by apply tri_act_end|by apply tri_ret]. }
  intros [] tr ->. apply tri_pause. unfold ForwardStream.
  set (sent := AForwardStream conn (os_TargetService o) (os_Method o) (uri_of caller)).
  assert (Hfail : forall pre, pre = [] \/ pre = [sent] -> tri
    (atom (fun s =>
       Ret (tt, set_pool (Drop (rm_RelayID remote) <$> sv_pool s) s, [ADropPeer (rm_RelayID remote)]));;
     rejectConsumer caller (os_StreamId o) 502 "peer relay forward failed")
    (fun _ tr => p_peer uri_of caller o (pre ++ tr))).
  { intros pre Hpre. eapply (tri_seq _ _ (fun _ tr => tr = [ADropPeer (rm_RelayID remote)])).
    { apply wp_atom. intros s Hs. split_and!; [|by apply effect_inert|done].
      destruct (sv_pool s) as [p|] eqn:Ep; simpl; [by apply si_drop|]. by rewrite <- Ep, set_pool_id. }
    intros [] tr ->. apply tri_reject. right. right. exists conn, pre. split; [done|]. left. eauto. }
  destruct (an_opened an); simpl; [|apply (Hfail []); by left].
  destruct (an_written an); simpl; [|apply (Hfail []); by left].
  destruct (an_reply an); try (apply (Hfail [sent]); by right).
  eapply (tri_defer _ _ (fun _ tr => tr = [ASplice]) (fun _ tr => tr = [ACloseProvider])).
  - by apply tri_act, tri_pause, tri_metric_end.
  - by apply tri_act_end.
  - intros [] ? ? -> ->. right. right. exists conn, [sent]. split; [by right|]. by right.
Qed.

Lemma resolve_target_refines an caller o p2p rm :
  tri (resolve_target order ask uri_of endpoint an caller o p2p rm)
    (fun _ tr => p_resolve uri_of endpoint caller o an (cf_policy c) tr).
Proof.
  unfold resolve_target. apply tri_pause, tri_read. intros s _. unfold p_resolve.
  destruct (Resolve ask _ _ _) as [prov|remote| | |]; try (apply tri_reject; by left).
  - unfold callee_side. apply tri_read. intros s' Hs'. rewrite (so_policy c s' (si_ok s' Hs')).
    destruct (cf_policy c) eqn:Hpol; simpl.
    + eapply tri_weaken; [apply (check_refines (uri_of prov, uri_of caller, os_Method o) "denied (callee): " caller o
        (fun r => with_provider uri_of endpoint an caller prov o (CombineP2PModes p2p (res_P2PMode r)) rm)
        (p_provider uri_of endpoint caller o an prov)); [done|]; intros r; apply with_provider_refines|].
      intros [] tr Htr. right. right. by exists prov.
    + eapply tri_weaken; [apply with_provider_refines|]. intros [] tr Htr. right. right. by exists prov.
  - apply tri_read. intros s' Hs'. rewrite (so_pool c s' (si_ok s' Hs')).
    destruct (cf_pool c) eqn:Hpool; simpl; [|apply tri_reject; by right; left; left].
    destruct (String.eqb _ _); [apply tri_reject; by right; left; left|].
    eapply tri_weaken; [by apply forwardToPeer_refines|]. auto.
Qed.

Lemma open_stream_refines an caller o :
  tri (open_stream order ask uri_of endpoint an caller o)
    (fun _ tr => p_open uri_of endpoint caller o an (cf_policy c) tr).
Proof.
  unfold open_stream. apply tri_metric; [done|]. apply tri_read. intros s' Hs'.
  rewrite (so_policy c s' (si_ok s' Hs')). unfold p_open.
  destruct (cf_policy c) eqn:Hpol; simpl; [|rewrite <- Hpol; apply resolve_target_refines].
  apply (check_refines (uri_of caller, os_TargetService o, os_Method o) "denied: " caller o
    (fun r => resolve_target order ask uri_of endpoint an caller o (res_P2PMode r) (res_RelayMode r))
    (p_resolve uri_of endpoint caller o an true)); [done|].
  intros r. rewrite <- Hpol. apply resolve_target_refines.
Qed.

(** ** Resumed streams *)

(** A handler's move of the matcher: it never panics, and what it does to the pair
    table has to be what its events say. *)
Lemma wps_resume {A} ev (out : rstate -> rstate -> A * list action) (Q : A -> list action -> Server -> Prop) s0 :
  b = true -> stream_revent ev = true ->
  (forall s rs, I s -> rely s0 s -> rinv (sv_rs s) -> rexec (sv_rs s) ev = Some (Ret rs) ->
     halves_kept (sv_rs s) rs ->
     let '(a, es) := out (sv_rs s) rs in
     r_pairs rs = foldl ap_pairs (sv_pairs s) es /\ foldl ap_gauge (gauge_of s) es = gauge_of s /\
     foldl ap_allocs (allocs_of s) es = allocs_of s /\ count_allocs es = 0 /\ forallb (fun a => negb (is_evaluate a || is_seen a)) es = true /\
     Q a es (set_rs rs s)) ->
  wps I rely effect b (on_resume ev out) Q s0.
Proof.
  intros Hb Hev Hout. apply wps_atom. intros s Hs Hr. pose proof (so_rs c s (si_ok s Hs)) as Hi.
  destruct (rexec (sv_rs s) ev) as [x|] eqn:E; [|done].
  destruct (rexec_ok _ _ _ Hi E) as (rs & -> & _). pose proof (rexec_kept _ _ _ Hi E) as Hk.
  specialize (Hout s rs Hs Hr Hi E Hk). destruct (out (sv_rs s) rs) as [a es].
  destruct Hout as (Hp & Hg & Ha & Hc & Hv & HQ). split_and!; [by eapply si_resume| |done].
  split; [done|by rewrite Hg|by rewrite Ha|no_plane| | |by intros ? ?; left|by split].
  - intros k r Hin%list_elem_of_In. eapply forallb_forall in Hv; [|done]. done.
  - apply Forall_forall. intros x Hin%list_elem_of_In. eapply forallb_forall in Hv; [|done]. by destruct x.
Qed.

Lemma await_match_refines an r id uri s0 (Q : unit -> list action -> Prop) :
  b = true -> (exists h, r_halves (sv_rs s0) !! r = Some h /\ h_id h = id /\ h_uri h = uri) ->
  Q tt [] -> (forall peer, Q tt [AReplacePair id (mkPair uri peer); ASplice; AForgetPair id]) ->
  wps I rely effect b (await_match an r) (fun a tr _ => Q a tr) s0.
Proof.
  intros Hb Hh H0 H1. unfold await_match. apply wps_bind.
  assert (Hat : forall s, rely s0 s -> exists h, r_halves (sv_rs s) !! r = Some h /\ h_id h = id /\ h_uri h = uri).
  { intros s Hr. destruct Hh as (h & Hh & <- & <-). destruct (proj1 Hr r h Hh) as (h' & ? & ? & ?). eauto. }
  apply wps_resume; [done|done|]. intros s rs Hs Hr Hi Hx Hk.
  destruct (recv_spec _ _ _ Hi Hx) as (h & Eh & Hpairs). rewrite Eh.
  assert (Hhid : h_id h = id /\ h_uri h = uri).
  { destruct (Hat s Hr) as (x & Ex & <- & <-). destruct (Hk r x Ex) as (x' & ? & ? & ?). by simplify_eq. }
  destruct Hhid as [Hid Huri]. destruct (h_pc h) as [|p| |]; simpl.
  - by split_and!.
  - destruct Hpairs as (g & -> & Hp). split_and!; try done.
    apply wps_bind. eapply wps_atom. intros s1 Hs1 Hr1. split_and!; [done|by apply effect_inert|].
    apply wps_bind. eapply wps_atom. intros s2 Hs2 Hr2. split_and!; [done|apply effect_refl|].
    apply wps_bind. eapply wps_atom. intros s3 Hs3 Hr3. split_and!; [by apply si_metric|by apply metric_effect|].
    apply wps_resume; [done|done|]. intros s4 rs4 Hs4 Hr4 Hi4 Hx4 Hk4.
    destruct (splice_end_spec _ _ _ Hx4) as (h4 & E4 & Hp4). rewrite E4.
    assert (h_id h4 = id) as Hid4.
    { assert (rely s0 s4) as Hr04.
      { etrans; [exact Hr|]. etrans; [|exact Hr4]. etrans; [|by apply rely_same].
        etrans; [|exact Hr3]. etrans; [|exact Hr2]. etrans; [|exact Hr1]. by split. }
      destruct (Hat s4 Hr04) as (x & Ex & <- & _). by simplify_eq. }
    split_and!; try done; simpl. rewrite Hid, Huri, Hid4. apply H1.
  - split_and!; try done. apply wps_resume; [done|done|]. intros s1 rs1 Hs1 Hr1 Hi1 Hx1 Hk1.
    split_and!; [by apply (done_recv_pairs _ _ _ Hx1)|done..].
  - by split_and!.
Qed.

Lemma submit_refines an caller ev m :
  b = true ->
  (let mk f := ev = f (rm_StreamId m) (uri_of caller) (rm_MyPosition m) (rm_PeerAckPosition m) in
   mk EvResume \/ mk EvMigrateBack) ->
  tri (r ← submit ev; await_match an r) (fun _ tr => p_resume uri_of caller (Some m) tr).
Proof.
  intros Hb Hev s0. apply wps_bind. apply wps_resume; [done|by destruct Hev as [->| ->]|].
  intros s rs Hs Hr Hi Hx Hk. destruct (arrives_spec _ _ _ _ _ _ _ Hev Hx) as [Hp Hh].
  split_and!; try done.
  apply await_match_refines with (id := rm_StreamId m) (uri := uri_of caller)
    (Q := fun _ tr => p_resume uri_of caller (Some m) ([ASubmit (r_next (sv_rs s))] ++ tr)); [done|done|..]; simpl; eauto.
Qed.

(** ** The handlers *)

(** Only a resumed stream may have to wait for its peer. *)
Definition may_wait (an : answers) : bool :=
  match an_first an with FrResume (Some _) | FrMigrate (Some _) => true | _ => false end.

Lemma handler_refines an caller :
  (may_wait an = true -> b = true) ->
  tri (handleConsumerStream order ask uri_of endpoint an caller)
    (fun _ tr => p_handler uri_of endpoint caller (cf_policy c) (cf_metrics c) an tr).
Proof.
  intros Hb. unfold handleConsumerStream, p_handler. apply tri_read. intros s00 _.
  eapply (tri_defer _ _ (fun _ tr => exists body, tr = (if cf_metrics c then [AGauge 1] else []) ++ body ++
      (if cf_metrics c then [AGauge (-1)] else []) /\ p_stream uri_of endpoint caller (cf_policy c) an body)
    (fun _ tr => tr = [ACloseStream])); [|by apply tri_act_end|].
  2: { intros [] ? ? (body & -> & Hp) ->. exists body. split; [|done]. by rewrite <- !List.app_assoc. }
  eapply (tri_seq _ _ (fun _ tr => tr = if cf_metrics c then [AGauge 1] else [])); [by apply tri_gauge|].
  intros [] tr ->. eapply (tri_defer _ _ (fun _ tr => p_stream uri_of endpoint caller (cf_policy c) an tr)
    (fun _ tr => tr = if cf_metrics c then [AGauge (-1)] else [])).
  2: { eapply (tri_seq _ _ (fun _ tr => tr = if cf_metrics c then [AGauge (-1)] else [])); [by apply tri_gauge|].
    intros [] tr ->. apply tri_observe. by rewrite List.app_nil_r. }
  2: { intros [] tr ? ? ->. by exists tr. }
  apply tri_pause. unfold p_stream, may_wait in *. destruct (an_first an) as [|[m|]|[m|]|o|]; try (by apply tri_ret).
  - apply submit_refines; [by apply Hb|by left].
  - apply tri_metric; [done|]. apply submit_refines; [by apply Hb|by right].
  - apply open_stream_refines.
Qed.

Lemma forwarded_refines an src o ok :
  tri (handleForwardedStream ask an src o ok) (fun _ tr => p_forwarded src o tr).
Proof.
  unfold handleForwardedStream, p_forwarded.
  eapply (tri_defer _ _ (fun _ tr => tr = [] \/ tr = [AReject 503 "no local provider for forwarded stream"] \/
     tr = [AReject 502 "provider open failed"] \/
     exists prov relays inner,
       tr = [AOpenIncoming prov (os_TargetService o) (os_Method o) src (os_StreamId o) relays] ++ inner ++
              [ACloseProvider] /\
       (inner = [] \/ inner = [AReject 503 "provider rejected"] \/ inner = [AAccept; ASplice]))
    (fun _ tr => tr = [ACloseStream])); [|by apply tri_act_end|intros [] tr ? ? ->; by exists tr].
  apply tri_pause. destruct ok; simpl; [|by apply tri_ret; left]. apply tri_read. intros s _.
  assert (Hrej : forall code reason (Q : unit -> list action -> Prop), Q tt [AReject code reason] ->
    tri (writeStreamReject code reason) Q) by (intros; by apply tri_act, tri_metric_end).
  destruct (Resolve _ _ _ _) as [prov|remote| | |]; try (apply Hrej; auto).
  eapply (tri_seq _ _ (fun ok tr => if ok : bool then exists relays,
    tr = [AOpenIncoming prov (os_TargetService o) (os_Method o) src (os_StreamId o) relays] else tr = [])).
  { apply tri_incoming; eauto. }
  intros [] tr Htr; simpl; [destruct Htr as [relays ->]|subst tr; apply Hrej; auto].
  eapply (tri_defer _ _ (fun _ tr => tr = [] \/ tr = [AReject 503 "provider rejected"] \/ tr = [AAccept; ASplice])
    (fun _ tr => tr = [ACloseProvider])); [|by apply tri_act_end|].
  - apply tri_pause. destruct (an_ack an); try (apply Hrej; auto).
    destruct (an_accept an); simpl; [|by apply tri_ret; left].
    apply tri_act, tri_act, tri_pause, tri_metric_end; simpl; auto.
  - intros [] inner ? Hin ->. right. right. right. by exists prov, relays, inner.
Qed.

End Refinement.
