(* ===== verification/WatchLoop.v ===== *)
(** * WatchLoop: the policy watcher as a goroutine

    [Watcher.Run] of [pkg/policy/client.go] over the shared state: what
    [PolicyWatch] describes as a function of the engine and the cache, in the steps
    other goroutines can see.  An update of the engine and the flush that follows it
    are two steps, so an evaluation may come between them. *)

From S2P Require Import Prelude Threads PolicyMatcher PolicyCache PolicyWatch ResumeMatcher ServerState OpenStream OpenSpec.

Section Watcher.
Context `{PBEnums}.

(** A rule has arrived; only the history notes it. *)
Definition receive (r : Rule) : M unit := write (fun s => set_received (r :: sv_received s) s).

(** An engine operation and [w.cache.Flush()]. *)
Definition watch_update (f : Engine -> Engine) : M unit :=
  write (fun s => set_policy (f <$> sv_policy s) s);;
  write (fun s => set_cache (Flush <$> sv_cache s) s).

(** The receive loop of [runOnce]; a stream that has delivered nothing more yet
    keeps the goroutine waiting. *)
Fixpoint watch_loop (rs : list (iter_order * recv)) (pending : list Rule) (inSnapshot : bool) : M (option string) :=
  match rs with
  | [] => atom (fun _ => Blocked)
  | (_, RecvEOF) :: _ => mret None
  | (_, RecvErr err) :: _ => mret (Some err)
  | (iter, RecvEvent ev) :: rs' =>
      pause;;
      match ev with
      | KindAdded None | KindOther => watch_loop rs' pending inSnapshot
      | KindAdded (Some rule) =>
          receive (FromPB rule);;
          if inSnapshot then watch_loop rs' (pending ++ [FromPB rule]) inSnapshot
          else watch_update (Engine_Add iter (FromPB rule));; watch_loop rs' pending inSnapshot
      | KindRemoved removedId =>
          if String.eqb removedId "" then watch_loop rs' pending inSnapshot
          else watch_update (Engine_Remove iter removedId);; watch_loop rs' pending inSnapshot
      | KindSnapshotEnd =>
          watch_update (Engine_Set iter pending);; watch_loop rs' [] false
      end
  end.

Definition watch_once (a : attempt) : M (option string) :=
  pause;;
  match at_open a with
  | Some err => mret (Some err)
  | None => watch_loop (at_recvs a) [] true
  end.

Fixpoint watch_run (attempts : list attempt) : M unit :=
  match attempts with
  | [] => atom (fun _ => Blocked)
  | a :: attempts' =>
      watch_once a;;
      pause;;
      if at_done a then mret tt else watch_run attempts'
  end.

(** ** The goroutine does what the function says *)

#[local] Arguments mbind {M MBind A B} : simpl never.
#[local] Arguments run {St Ev} others {A} : simpl never.

Section Refines.
(** The rest of the relay does not touch the engine. *)
Context (others : nat -> Server -> Server).
Hypothesis others_engine : forall n s, sv_policy (others n s) = sv_policy s.

(** [p] ends, with a result and an engine. *)
Definition ends {A} (p : M A) (w : world Server action) (a : A) (e : Engine) : Prop :=
  exists w', run others p w = Ret (a, w') /\ sv_policy (w_server w') = Some e.

Lemma ends_bind {A B} (p : M A) (k : A -> M B) w a e y e' :
  ends p w a e -> (forall w', sv_policy (w_server w') = Some e -> ends (k a) w' y e') -> ends (p ≫= k) w y e'.
Proof. intros (w1 & Hp & H1) Hk. destruct (Hk w1 H1) as (w2 & ? & ?). exists w2. by rewrite run_bind, Hp. Qed.

Lemma ends_ret {A} (a : A) w e : sv_policy (w_server w) = Some e -> ends (mret a) w a e.
Proof. intros He. by exists w. Qed.

Lemma ends_write f g w e :
  sv_policy (w_server w) = Some e -> (forall s, sv_policy s = Some e -> sv_policy (f s) = Some g) -> ends (write f) w tt g.
Proof. intros He Hf. eexists. split; [reflexivity|]. simpl. apply Hf. by rewrite others_engine. Qed.

Lemma ends_pause {B} (k : unit -> M B) w e y e' :
  sv_policy (w_server w) = Some e -> (forall w', sv_policy (w_server w') = Some e -> ends (k tt) w' y e') ->
  ends (pause ≫= k) w y e'.
Proof. intros He. apply ends_bind. eexists. split; [reflexivity|]. simpl. by rewrite others_engine. Qed.

Lemma ends_update {B} f (k : unit -> M B) w e y e' :
  sv_policy (w_server w) = Some e -> (forall w', sv_policy (w_server w') = Some (f e) -> ends (k tt) w' y e') ->
  ends (watch_update f ≫= k) w y e'.
Proof.
  intros He. apply ends_bind. eapply ends_bind.
  - eapply (ends_write _ (f e)); [done|]. intros s Hs. simpl. by rewrite Hs.
  - intros w' Hw'. by eapply ends_write.
Qed.

Lemma ends_receive {B} r (k : unit -> M B) w e y e' :
  sv_policy (w_server w) = Some e -> (forall w', sv_policy (w_server w') = Some e -> ends (k tt) w' y e') ->
  ends (receive r ≫= k) w y e'.
Proof. intros He. apply ends_bind. by eapply ends_write. Qed.

Lemma watch_loop_refines rs e c pending ins w w' err :
  sv_policy (w_server w) = Some e ->
  runOnce_loop rs (mkWatch e c pending ins) = (w', Returned err) ->
  ends (watch_loop rs pending ins) w err (w_engine w').
Proof.
  revert e c pending ins w. induction rs as [|[iter [ev| |x]] rs IH]; intros e c pending ins w He; simpl; try done.
  - intros Hl. eapply ends_pause; [done|]. intros w1 H1.
    destruct ev as [[rule|]|id| |]; simpl in *.
    + eapply ends_receive; [done|]. intros w2 H2. destruct ins; [by eapply IH|].
      eapply ends_update; [done|]. intros w3 H3. by eapply IH.
    + by eapply IH.
    + destruct (String.eqb id ""); [by eapply IH|]. eapply ends_update; [done|]. intros w2 H2. by eapply IH.
    + eapply ends_update; [done|]. intros w2 H2. by eapply IH.
    + by eapply IH.
  - intros [= <- <-]. by apply ends_ret.
  - intros [= <- <-]. by apply ends_ret.
Qed.

Lemma watch_run_refines attempts now e c e' c' opens w :
  sv_policy (w_server w) = Some e -> Run attempts now e c = (e', c', opens, true) -> ends (watch_run attempts) w tt e'.
Proof.
  revert now e c opens w. induction attempts as [|a attempts IH]; intros now e c opens w He; simpl; [done|].
  destruct (runOnce a e c) as [[e1 c1] [|err]] eqn:E1; [done|]. intros Hr.
  eapply (ends_bind _ _ _ err e1).
  - unfold watch_once, runOnce in *. eapply ends_pause; [done|]. intros w1 H1.
    destruct (at_open a) as [x|]; [injection E1 as <- <- <-; by apply ends_ret|].
    destruct (runOnce_loop _ _) as [w' st] eqn:E2. injection E1 as <- <- ->. by eapply watch_loop_refines.
  - intros w1 H1. eapply ends_pause; [done|]. intros w2 H2. destruct (at_done a).
    + injection Hr as <- <- <-. by apply ends_ret.
    + destruct (Run attempts _ e1 c1) as [[[? ?] ?] ?] eqn:E3. simplify_eq. by eapply IH.
Qed.
End Refines.

(** ** Updates keep the engine in order *)

Lemma add_ok l iter r e : iter_ok iter -> r ∈ l -> engine_ok l e -> engine_ok l (Engine_Add iter r e).
Proof.
  intros Hi Hr [_ He]. split; [by apply Apply_inv|]. intros id x. unfold Engine_Add. rewrite Apply_rules.
  intros [[_ <-]|[_ ?]]%lookup_insert_Some; [done|by eapply He].
Qed.

Lemma remove_ok l iter id e : iter_ok iter -> engine_ok l e -> engine_ok l (Engine_Remove iter id e).
Proof.
  intros Hi [_ He]. split; [by apply Apply_inv|]. intros k x. unfold Engine_Remove. rewrite Apply_rules.
  intros [_ ?]%lookup_delete_Some. by eapply He.
Qed.

Lemma set_ok l iter rs e : iter_ok iter -> (forall r, r ∈ rs -> r ∈ l) -> engine_ok l (Engine_Set iter rs e).
Proof.
  intros Hi Hrs. split; [by apply Apply_inv|]. unfold Engine_Set. rewrite Apply_rules, set_rules_eq.
  assert (Hall : forall m : gmap string Rule, (forall id r, m !! id = Some r -> r ∈ l) ->
    forall id r, foldl (fun m r => <[PolicyMatcher.ID r := r]> m) m rs !! id = Some r -> r ∈ l).
  { induction rs as [|r rs IH]; intros m Hm; simpl; [done|]. apply IH; [set_solver|].
    intros id x [[_ <-]|[_ ?]]%lookup_insert_Some; [set_solver|by eapply Hm]. }
  apply Hall. intros id r. by rewrite lookup_empty.
Qed.

Lemma rely_receive s r : rely s (set_received (r :: sv_received s) s).
Proof. split; [by apply halves_kept_same|]. split; [done|]. intros x. by right. Qed.

Lemma effect_receive s r : effect s [] (set_received (r :: sv_received s) s).
Proof. by_effect. Qed.

(** ** Next to the other goroutines it keeps what they rely on *)

Definition attempts_ok (attempts : list attempt) : Prop :=
  Forall (fun a => Forall (fun x : iter_order * recv => iter_ok x.1) (at_recvs a)) attempts.

Section Keeps.
Context (order : gmap cacheKey cacheEntry -> list cacheKey) (c : config) (I : Server -> Prop) `{!StreamInv order c I}.

(** All the trace there is. *)
#[local] Abbreviation quiet := (fun _ tr _ => tr = []).

Lemma watch_write_wps {B} f (k : unit -> M B) s0 :
  (forall s, I s -> rely s0 s -> I (f s) /\ effect s [] (f s) /\ wps I rely effect true (k tt) quiet (f s)) ->
  wps I rely effect true (write f ≫= k) quiet s0.
Proof. intros Hf. apply wps_bind, wps_atom. intros s Hs Hr. by apply Hf. Qed.

Lemma watch_update_wps {B} f (k : unit -> M B) s0 :
  (forall s, rely s0 s -> update_ok s f) -> (forall s, rely s0 s -> wps I rely effect true (k tt) quiet s) ->
  wps I rely effect true (watch_update f ≫= k) quiet s0.
Proof.
  intros Hf Hk. apply wps_bind. unfold watch_update. apply wps_bind, wps_atom. intros s Hs Hr.
  split_and!; [by apply si_policy; auto|by apply effect_inert|].
  apply wps_atom. intros s2 Hs2 Hr2. split_and!; [|by apply effect_inert|].
  - destruct (sv_cache s2) as [x|] eqn:E; simpl; [by apply si_flush|]. by rewrite <- E, set_cache_id.
  - apply Hk. etrans; [exact Hr|]. etrans; [exact Hr2|]. by apply rely_same.
Qed.

Lemma rely_received s s' r : rely s s' -> r ∈ sv_received s -> r ∈ sv_received s'.
Proof. intros (_ & _ & Hsub). apply Hsub. Qed.

Lemma watch_loop_wps rs pending ins s0 :
  Forall (fun x : iter_order * recv => iter_ok x.1) rs -> (forall r, r ∈ pending -> r ∈ sv_received s0) ->
  wps I rely effect true (watch_loop rs pending ins) quiet s0.
Proof.
  intros Hrs. revert pending ins s0. induction Hrs as [|[iter [ev| |err]] rs Hi _ IH]; intros pending ins s0 Hp; cbn [watch_loop fst] in *.
  - by apply wps_atom.
  - apply watch_write_wps. intros s Hs Hr. split_and!; [done|apply effect_refl|].
    assert (Hp' : forall s', rely s s' -> forall r, r ∈ pending -> r ∈ sv_received s').
    { intros s' Hr' r ?%Hp. eapply rely_received; [|done]. by etrans. }
    destruct ev as [[rule|]|id| |]; [| | | |].
    + apply watch_write_wps. intros s1 Hs1 Hr1.
      assert (Hr1' := rely_receive s1 (FromPB rule)).
      split_and!; [by apply si_received|apply effect_receive|]. destruct ins.
      * apply IH. intros r [?|Hr']%elem_of_app; [right; by apply Hp'|]. apply list_elem_of_singleton in Hr' as ->. by left.
      * apply watch_update_wps.
        -- intros s2 Hr2 e. apply add_ok; [done|]. eapply rely_received; [exact Hr2|]. by left.
        -- intros s2 Hr2. apply IH. apply Hp'. etrans; [exact Hr1|]. by etrans.
    + apply IH. by apply Hp'.
    + destruct (String.eqb id ""); [apply IH; by apply Hp'|]. apply watch_update_wps.
      * intros s2 Hr2 e. by apply remove_ok.
      * intros s2 Hr2. apply IH. by apply Hp'.
    + apply watch_update_wps.
      * intros s2 Hr2 e _. apply set_ok; [done|]. by apply Hp'.
      * intros s2 Hr2. apply IH. by intros r ?%elem_of_nil.
    + apply IH. by apply Hp'.
  - done.
  - done.
Qed.

Lemma watch_run_wp attempts : attempts_ok attempts ->
  wp I rely effect true (watch_run attempts) (fun _ tr => tr = []).
Proof.
  intros Ha. induction Ha as [|a attempts Ha _ IH]; simpl; [by apply wp_atom|].
  eapply (wp_seq _ _ _ _ _ _ (fun _ tr => tr = [])).
  - apply wp_pause; [auto using effect_refl|]. destruct (at_open a); [by apply wp_ret|].
    intros s0. apply watch_loop_wps; [done|]. by intros r ?%elem_of_nil.
  - intros err tr ->. apply wp_pause; [auto using effect_refl|]. destruct (at_done a); [by apply wp_ret|done].
Qed.

End Keeps.
End Watcher.
