(* ===== verification/DrainLoop.v ===== *)
(** * DrainLoop: a drain as a goroutine

    [Server.Drain] of [pkg/edge/edge.go] over the shared state: what [Operations]
    describes as a function of the agents each look finds, in the steps other
    goroutines can see.  Agents come and go while it runs, so each look is an event
    of its own that records what it found. *)

From S2P Require Import Prelude Threads Registry Operations ServerState OpenStream OpenSpec.

(** ** The program *)

(** [s.liveAgents()].  Frames to different agents travel on different links, so the
    order in which the map is ranged over does not show to any of them. *)
Definition look : M (list nat) :=
  atom (fun s => let l := liveAgents (sv_ss s) in Ret (l, s, [ALive l])).

(** The alternatives the agents are told: the caller's, or the current successors. *)
Definition pick_targets (targets : list string) : M (list string) :=
  match targets with
  | [] => atom (fun s => Ret (Successors s, s, [ASuccessors (Successors s)]))
  | _ => mret []
  end.

(** What one agent gets: the frame, or its link closed if it cannot be written. *)
Definition notice (write_ok : nat -> bool) (f : Goaway) (ac : nat) : action :=
  if write_ok ac then AGoaway ac f else ACloseConn ac.

Fixpoint send_all (write_ok : nat -> bool) (f : Goaway) (agents : list nat) : M unit :=
  match agents with
  | [] => mret tt
  | ac :: agents' => pause;; act (notice write_ok f ac);; send_all write_ok f agents'
  end.

Fixpoint close_all (agents : list nat) : M unit :=
  match agents with
  | [] => mret tt
  | ac :: agents' => act (ACloseConn ac);; close_all agents'
  end.

(** The wait; it blocks when nothing more wakes it. *)
Fixpoint poll (wakes : list drain_wake) : M unit :=
  remaining ← look;
  match remaining with
  | [] => mret tt
  | _ =>
      match wakes with
      | [] => atom (fun _ => Blocked)
      | wake :: wakes' =>
          pause;;
          match wake with
          | WakeCancel => mret tt
          | WakeTimeout => close_all remaining
          | WakePoll => poll wakes'
          end
      end
  end.

Record drain_call := mkDrain {
  dr_targets : list string;
  dr_reason : string;
  dr_deadline : Duration;
  dr_write_ok : nat -> bool;
  dr_wakes : list drain_wake
}.

Definition drain_run (d : drain_call) : M unit :=
  successors ← pick_targets (dr_targets d);
  agents ← look;
  send_all (dr_write_ok d) (goaway (dr_targets d) successors (dr_reason d) (dr_deadline d)) agents;;
  poll (dr_wakes d).

(** The timer fires, or the process ends, at some point. *)
Definition timed (d : drain_call) : bool :=
  existsb (fun w => match w with WakePoll => false | _ => true end) (dr_wakes d).

(** ** Its trace *)

(** The looks of the wait, the last one deciding, and the links it then closes. *)
Definition p_poll (tr : list action) : Prop :=
  exists pre remaining wake e closed,
    tr = (ALive <$> (pre ++ [(remaining, wake)]).*1) ++ (ACloseConn <$> closed) /\
    Forall (fun x => x.1 <> [] /\ x.2 = WakePoll) pre /\
    drain_wait (pre ++ [(remaining, wake)]) = Some (e, closed).

(** Every agent found at the start gets its notice, the same for all; then the wait. *)
Definition p_drain (d : drain_call) (tr : list action) : Prop :=
  exists successors agents rest,
    tr = (match dr_targets d with [] => [ASuccessors successors] | _ => [] end) ++
         ALive agents :: (notice (dr_write_ok d) (goaway (dr_targets d) successors (dr_reason d) (dr_deadline d)) <$> agents) ++
         rest /\ p_poll rest.

(** ** It keeps to it *)

Section Refinement.
Context (order : gmap _ _ -> list _) (c : config) (I : Server -> Prop) `{!StreamInv order c I}.

Lemma live_effect s : effect s [ALive (liveAgents (sv_ss s))] s.
Proof. by_effect. Qed.

Lemma successors_effect s : effect s [ASuccessors (Successors s)] s.
Proof. by_effect. Qed.

Lemma look_wp b {B} (k : list nat -> M B) (Q : B -> list action -> Prop) :
  (forall l, wp I rely effect b (k l) (fun y tr => Q y (ALive l :: tr))) -> wp I rely effect b (look ≫= k) Q.
Proof.
  intros Hk. eapply (wp_seq _ _ _ _ _ _ (fun l tr => tr = [ALive l])).
  - apply wp_atom. intros s Hs. split_and!; [done|apply live_effect|done].
  - intros l tr ->. apply Hk.
Qed.

Lemma notice_inert ok f ac : inert (notice ok f ac) = true.
Proof. unfold notice. by case_match. Qed.

Lemma send_all_wp b ok f agents (Q : unit -> list action -> Prop) :
  Q tt (notice ok f <$> agents) -> wp I rely effect b (send_all ok f agents) Q.
Proof.
  revert Q. induction agents as [|ac agents IH]; intros Q HQ; cbn [send_all]; [by apply wp_ret|].
  apply tri_pause, tri_act. rewrite notice_inert. by apply IH.
Qed.

Lemma close_all_wp b agents (Q : unit -> list action -> Prop) :
  Q tt (ACloseConn <$> agents) -> wp I rely effect b (close_all agents) Q.
Proof.
  revert Q. induction agents as [|ac agents IH]; intros Q HQ; cbn [close_all]; [by apply wp_ret|].
  apply tri_act. by apply IH.
Qed.

Lemma poll_wp b wakes :
  (existsb (fun w => match w with WakePoll => false | _ => true end) wakes = false -> b = true) ->
  wp I rely effect b (poll wakes) (fun _ tr => p_poll tr).
Proof.
  induction wakes as [|wake wakes IH]; intros Hb; cbn [poll]; apply look_wp; intros [|ac l].
  - apply wp_ret. by exists [], [], WakePoll, AllGone, [].
  - intros s0. apply wps_atom. intros s _ _. by apply Hb.
  - apply wp_ret. by exists [], [], WakePoll, AllGone, [].
  - apply tri_pause. destruct wake.
    + eapply wp_weaken; [by apply IH|]. intros [] tr (pre & r & w & e & cl & -> & Hpre & Hw).
      exists ((ac :: l, WakePoll) :: pre), r, w, e, cl. split; [done|]. split; [by constructor|done].
    + apply close_all_wp. by exists [], (ac :: l), WakeTimeout, DeadlineReached, (ac :: l).
    + apply wp_ret. by exists [], (ac :: l), WakeCancel, Cancelled, [].
Qed.

Lemma drain_run_wp b d : (timed d = false -> b = true) ->
  wp I rely effect b (drain_run d) (fun _ tr => p_drain d tr).
Proof.
  intros Hb. unfold drain_run.
  eapply (wp_seq _ _ _ _ _ _ (fun l tr => tr = match dr_targets d with [] => [ASuccessors l] | _ => [] end)).
  { unfold pick_targets. destruct (dr_targets d); [|by apply wp_ret].
    apply wp_atom. intros s Hs. split_and!; [done|apply successors_effect|done]. }
  intros succs tr ->. apply look_wp. intros agents.
  eapply (wp_seq _ _ _ _ _ _ (fun _ tr => tr = notice _ _ <$> agents)); [by apply send_all_wp|].
  intros [] tr ->. eapply wp_weaken; [by apply poll_wp|]. intros [] tr Hp. by exists succs, agents, tr.
Qed.

End Refinement.
