(* ===== verification/OpenProps.v ===== *)
(** * OpenProps: properties of the stream handlers

    What follows from the protocol of [OpenSpec]: policy before provider, release
    of everything acquired, one verdict per stream; and the places where the two
    relays of a forwarded stream, or a misbehaving provider, fall outside it. *)

From S2P Require Import Prelude Threads PolicyMatcher PolicyCache ForwardPlane ForwardInv ForwardCtrl.
From S2P Require Import EdgeTables ResumeMatcher Registry AuditQueue Intra ServerState OpenStream OpenSpec.

(** ** Reading a trace *)

Definition is_incoming (a : action) : bool :=
  match a with AOpenIncoming _ _ _ _ _ _ => true | _ => false end.
Definition is_record (a : action) : bool := match a with ARecordPair _ _ => true | _ => false end.
Definition is_reject (a : action) : bool := match a with AReject _ _ => true | _ => false end.
(** A sign that the stream is up: a ready or grant signal, or moving bytes. *)
Definition is_positive (a : action) : bool :=
  match a with ACtrl _ (CReady _ _) | ACtrl _ (CGranted _) | ASplice | APark => true | _ => false end.
Definition is_ctrl (a : action) : bool := match a with ACtrl _ _ => true | _ => false end.

Definition none (f : action -> bool) (tr : list action) : Prop := Forall (fun a => f a = false) tr.
Definition count (f : action -> bool) (tr : list action) : nat := length (List.filter f tr).

(** What must still follow once [a] has happened. *)
Definition released (a : action) (rest : list action) : Prop :=
  match a with
  | AAllocate _ id => AForget id ∈ rest
  | ARecordPair sid _ | AReplacePair sid _ => AForgetPair sid ∈ rest
  | AGauge 1 => AGauge (-1) ∈ rest
  | AOpenIncoming _ _ _ _ _ _ => ACloseProvider ∈ rest
  | _ => True
  end.

(** Everything acquired is released later in the trace. *)
Fixpoint balanced (tr : list action) : Prop :=
  match tr with
  | [] => True
  | a :: tr' => released a tr' /\ balanced tr'
  end.

(** At most one reject, and none next to a positive sign. *)
Definition one_verdict (tr : list action) : Prop :=
  (count is_reject tr <= 1)%nat /\ (count is_reject tr = 1%nat -> count is_positive tr = 0%nat).

(** The caller learns what became of its stream. *)
Definition tells (caller : nat) (a : action) : bool :=
  match a with
  | AReject _ _ | ASplice => true
  | ACtrl to (CReady _ _) | ACtrl to (CGranted _) => (to =? caller)%nat
  | _ => false
  end.

Definition told (caller : nat) (tr : list action) : Prop := exists a, a ∈ tr /\ tells caller a = true.

(** The provider says accept or reject, and the caller's grant can be written. *)
Definition definite (an : answers) : Prop :=
  an_ack an = AckReject \/ (an_ack an = AckAccept /\ an_grant_consumer an = true).

(** ** Lemmas *)

Lemma told_app_l caller l l' : told caller l -> told caller (l ++ l').
Proof. intros (a & ? & ?). exists a. split; [|done]. apply elem_of_app. by left. Qed.

Lemma told_app_r caller l l' : told caller l' -> told caller (l ++ l').
Proof. intros (a & ? & ?). exists a. split; [|done]. apply elem_of_app. by right. Qed.

Lemma told_head caller a l : tells caller a = true -> told caller (a :: l).
Proof. intros Ha. exists a. split; [by left|done]. Qed.

#[local] Hint Resolve told_app_l told_app_r told_head : relay.

Lemma count_app f l l' : count f (l ++ l') = (count f l + count f l')%nat.
Proof. unfold count. by rewrite List.filter_app, List.length_app. Qed.

Lemma count_none f l : none f l -> count f l = 0%nat.
Proof. induction 1 as [|a l Ha _ IH]; unfold count in *; simpl; [done|]. by rewrite Ha. Qed.

Lemma none_app f l l' : none f (l ++ l') <-> none f l /\ none f l'.
Proof. apply Forall_app. Qed.

Lemma none_not_in f l a : none f l -> f a = true -> a ∉ l.
Proof. intros Hn Ha Hin. unfold none in Hn. rewrite Forall_forall in Hn. rewrite (Hn a Hin) in Ha. done. Qed.

Lemma released_app a l l' : released a l -> released a (l ++ l').
Proof. destruct a as [| | | | | | | | | | | | | | | | |[|[]|]| | | | | | |]; simpl; rewrite ?elem_of_app; auto. Qed.

Lemma balanced_app l l' : balanced l -> balanced l' -> balanced (l ++ l').
Proof.
  induction l as [|a l IH]; simpl; [done|]. intros [Ha Hl] Hl'. split; [by apply released_app|auto].
Qed.

(** Actions that acquire nothing. *)
Definition plain (a : action) : bool :=
  match a with
  | AAllocate _ _ | ARecordPair _ _ | AReplacePair _ _ | AOpenIncoming _ _ _ _ _ _ | AGauge _ => false
  | _ => true
  end.

Lemma balanced_plain l : Forall (fun a => plain a = true) l -> balanced l.
Proof. induction 1 as [|a l Ha _ IH]; simpl; [done|]. split; [|done]. by destruct a. Qed.

Section Traces.
Context {ID : Identity} (uri_of : nat -> string) (endpoint : string) (caller : nat) (o : OpenStream) (an : answers).

Lemma rej_none f code reason :
  f (AReject code reason) = false -> f (ACtrl caller (CReject (os_StreamId o) code reason)) = false ->
  none f (rej caller o code reason).
Proof. intros. unfold rej, none. destruct (_ =? 0); repeat constructor; done. Qed.

Lemma rej_plain code reason : Forall (fun a => plain a = true) (rej caller o code reason).
Proof. unfold rej. destruct (_ =? 0); repeat constructor. Qed.

Lemma rej_verdict code reason : one_verdict (rej caller o code reason).
Proof. unfold one_verdict, rej. destruct (_ =? 0); vm_compute; auto. Qed.

#[local] Hint Resolve balanced_plain rej_plain rej_verdict : relay.

(** The outcomes of an acknowledgement, whatever it is. *)
Lemma p_ack_cases (P : list action -> Prop) tr :
  P [] -> P (rej caller o 503 "provider rejected") ->
  P (rej caller o 502 "forward: provider control channel unavailable") ->
  (forall provAC a b relays, P ([AAllocate (uri_of caller) a; AAllocate (uri_of provAC) b] ++
     grants endpoint caller o an provAC a b relays ++ [AForget b; AForget a])) ->
  (forall relays ps, (ps = [] \/ exists provAC, ps = [ACtrl provAC (CReady (os_StreamId o) relays)]) ->
     P (ACtrl caller (CReady (os_StreamId o) relays) :: ps ++ [ASplice])) ->
  p_ack uri_of endpoint caller o an tr -> P tr.
Proof.
  intros H1 H2 H3 H4 H5. unfold p_ack. destruct (an_ack an); [|by intros ->..].
  intros [[->|(pc & a & b & relays & ->)]|(relays & ps & -> & Hps)]; auto.
Qed.

Lemma grants_cases (P : list action -> Prop) provAC a b relays :
  P [] -> P [grant_to endpoint o caller a b relays] ->
  P [grant_to endpoint o caller a b relays; grant_to endpoint o provAC b a relays; APark] ->
  P (grants endpoint caller o an provAC a b relays).
Proof. intros. unfold grants. destruct (an_grant_consumer an); [destruct (an_grant_provider an)|]; done. Qed.

(** An action that neither opens a provider nor evaluates appears after the
    acknowledgement only. *)
Lemma p_ack_none f tr :
  (forall code reason, f (AReject code reason) = false) -> (forall to s, f (ACtrl to s) = false) ->
  (forall u i, f (AAllocate u i) = false) -> (forall i, f (AForget i) = false) ->
  f APark = false -> f ASplice = false -> p_ack uri_of endpoint caller o an tr -> none f tr.
Proof.
  intros H1 H2 H3 H4 H5 H6. apply p_ack_cases.
  - constructor.
  - by apply rej_none.
  - by apply rej_none.
  - intros pc a b relays. apply none_app. split; [by repeat constructor|]. apply none_app. split; [|by repeat constructor].
    apply grants_cases; unfold grant_to; repeat constructor; done.
  - intros relays ps Hps. constructor; [done|]. apply none_app. split; [|by repeat constructor].
    destruct Hps as [->|[pc ->]]; repeat constructor; done.
Qed.

Lemma p_peer_none f tr :
  (forall code reason, f (AReject code reason) = false) -> (forall to s, f (ACtrl to s) = false) ->
  (forall c a b d, f (AForwardStream c a b d) = false) -> (forall r, f (ADropPeer r) = false) ->
  f ASplice = false -> f ACloseProvider = false -> p_peer uri_of caller o tr -> none f tr.
Proof.
  intros H1 H2 H3 H4 H5 H6 [->|[->|(c & fw & Hfw & Hrest)]]; [by apply rej_none..|].
  assert (none f fw) by (destruct Hfw as [->| ->]; repeat constructor; done).
  destruct Hrest as [[r ->]|[_ ->]]; apply none_app; split; try done.
  - constructor; [done|]. by apply rej_none.
  - by repeat constructor.
Qed.

Lemma p_ack_balanced tr : p_ack uri_of endpoint caller o an tr -> balanced tr.
Proof.
  apply p_ack_cases.
  - done.
  - auto with relay.
  - auto with relay.
  - intros pc a b relays. simpl. split; [apply elem_of_cons; right; apply elem_of_app; right; set_solver|].
    split; [apply elem_of_app; right; set_solver|]. apply balanced_app; [|done].
    apply balanced_plain. apply grants_cases; repeat constructor.
  - intros relays ps Hps. simpl. split; [done|]. apply balanced_plain. apply Forall_app. split; [|repeat constructor].
    destruct Hps as [->|[pc ->]]; repeat constructor.
Qed.

Lemma p_provider_balanced prov tr : p_provider uri_of endpoint caller o an prov tr -> balanced tr.
Proof.
  intros [->|(relays & inner & -> & Hin)]; [auto with relay|].
  simpl. split; [apply elem_of_app; right; set_solver|]. apply balanced_app; [|done].
  destruct Hin as [->|(arm & body & -> & Harm & Hb)]; [auto with relay|].
  simpl. split; [apply elem_of_app; right; apply elem_of_app; right; set_solver|].
  apply balanced_app; [apply balanced_plain; destruct Harm as [->| ->]; repeat constructor|].
  apply balanced_app; [|done]. by apply p_ack_balanced.
Qed.

Lemma p_peer_balanced tr : p_peer uri_of caller o tr -> balanced tr.
Proof.
  intros [->|[->|(c & fw & Hfw & Hrest)]]; [auto with relay..|].
  apply balanced_plain.
  assert (Forall (fun a => plain a = true) fw) by (destruct Hfw as [->| ->]; repeat constructor).
  destruct Hrest as [[r ->]|[_ ->]]; apply Forall_app; split; try done; [|repeat constructor].
  constructor; [done|]. apply rej_plain.
Qed.

Lemma p_check_balanced k reason (P : list action -> Prop) tr :
  (forall tr, P tr -> balanced tr) -> p_check caller o k reason P tr -> balanced tr.
Proof.
  intros HP (r & audit & rest & -> & Ha & Hrest). simpl. split; [done|]. apply balanced_app.
  - apply balanced_plain. destruct Ha as [->|(ev & -> & _)]; repeat constructor.
  - case_decide; [subst rest; auto with relay|auto].
Qed.

Lemma p_open_balanced pol tr : p_open uri_of endpoint caller o an pol tr -> balanced tr.
Proof.
  assert (Hr : forall tr, p_resolve uri_of endpoint caller o an pol tr -> balanced tr).
  { intros t [->|[Hp|[prov Hp]]]; [auto with relay|by apply p_peer_balanced|].
    destruct pol; [|by eapply p_provider_balanced]. eapply p_check_balanced; [|exact Hp]. apply p_provider_balanced. }
  unfold p_open. destruct pol; [|apply Hr]. by apply p_check_balanced.
Qed.

(** Verdicts: a piece of trace with no reject does not matter to the count. *)
Lemma verdict_app l l' :
  none is_reject l -> none is_positive l -> one_verdict l' -> one_verdict (l ++ l').
Proof. intros H1 H2. unfold one_verdict. rewrite !count_app, !(count_none _ l) by done. done. Qed.

Lemma verdict_app_r l l' :
  none is_reject l' -> none is_positive l' -> one_verdict l -> one_verdict (l ++ l').
Proof. intros H1 H2. unfold one_verdict. rewrite !count_app, !(count_none _ l') by done. by rewrite !Nat.add_0_r. Qed.

Lemma verdict_none l : none is_reject l -> one_verdict l.
Proof. intros H. unfold one_verdict. rewrite (count_none _ _ H). lia. Qed.

Lemma p_ack_verdict tr : p_ack uri_of endpoint caller o an tr -> one_verdict tr.
Proof.
  apply p_ack_cases.
  - apply verdict_none. constructor.
  - auto with relay.
  - auto with relay.
  - intros pc a b relays. apply verdict_none. apply none_app. split; [by repeat constructor|]. apply none_app.
    split; [|by repeat constructor]. apply grants_cases; repeat constructor; done.
  - intros relays ps Hps. apply verdict_none. constructor; [done|]. apply none_app. split; [|by repeat constructor].
    destruct Hps as [->|[pc ->]]; repeat constructor; done.
Qed.

Lemma p_provider_verdict prov tr : p_provider uri_of endpoint caller o an prov tr -> one_verdict tr.
Proof.
  intros [->|(relays & inner & -> & Hin)]; [auto with relay|].
  apply verdict_app; [by repeat constructor..|]. apply verdict_app_r; [by repeat constructor..|].
  destruct Hin as [->|(arm & body & -> & Harm & Hb)]; [auto with relay|].
  apply verdict_app; [by repeat constructor..|].
  apply verdict_app; [destruct Harm as [->| ->]; by repeat constructor..|].
  apply verdict_app_r; [by repeat constructor..|]. by apply p_ack_verdict.
Qed.

Lemma p_peer_verdict tr : p_peer uri_of caller o tr -> one_verdict tr.
Proof.
  intros [->|[->|(c & fw & Hfw & Hrest)]]; [auto with relay..|].
  destruct Hrest as [[r ->]|[_ ->]].
  - apply verdict_app; [destruct Hfw as [->| ->]; by repeat constructor..|].
    apply (verdict_app [ADropPeer r]); [by repeat constructor..|]. auto with relay.
  - apply verdict_none. apply none_app. split; [|by repeat constructor].
    destruct Hfw as [->| ->]; by repeat constructor.
Qed.

Lemma p_check_verdict k reason (P : list action -> Prop) tr :
  (forall tr, P tr -> one_verdict tr) -> p_check caller o k reason P tr -> one_verdict tr.
Proof.
  intros HP (r & audit & rest & -> & Ha & Hrest). apply (verdict_app [AEvaluate k r]); [by repeat constructor..|].
  apply verdict_app; [destruct Ha as [->|(ev & -> & _)]; by repeat constructor..|].
  case_decide; [subst rest; auto with relay|auto].
Qed.

Lemma p_open_verdict pol tr : p_open uri_of endpoint caller o an pol tr -> one_verdict tr.
Proof.
  assert (Hr : forall tr, p_resolve uri_of endpoint caller o an pol tr -> one_verdict tr).
  { intros t [->|[Hp|[prov Hp]]]; [auto with relay|by apply p_peer_verdict|].
    destruct pol; [|by eapply p_provider_verdict]. eapply p_check_verdict; [|exact Hp]. apply p_provider_verdict. }
  unfold p_open. destruct pol; [|apply Hr]. by apply p_check_verdict.
Qed.

(** Answers: the caller of an open hears of its stream, one way or the other. *)
Lemma rej_told code reason : told caller (rej caller o code reason).
Proof. by apply told_head. Qed.

#[local] Hint Resolve rej_told : relay.

Lemma p_ack_told tr : definite an -> p_ack uri_of endpoint caller o an tr -> told caller tr.
Proof.
  unfold p_ack. intros [->|[-> Hg]]; [intros ->; auto with relay|].
  intros [[->|(pc & a & b & relays & ->)]|(relays & ps & -> & _)]; [auto with relay|..].
  - apply told_app_r, told_app_l. unfold grants. rewrite Hg. apply told_head. simpl. apply Nat.eqb_refl.
  - apply told_head. simpl. apply Nat.eqb_refl.
Qed.

Lemma p_provider_told prov tr : definite an -> p_provider uri_of endpoint caller o an prov tr -> told caller tr.
Proof.
  intros Hd [->|(relays & inner & -> & Hin)]; [auto with relay|]. apply told_app_r, told_app_l.
  destruct Hin as [->|(arm & body & -> & _ & Hb)]; [auto with relay|].
  apply told_app_r, told_app_r, told_app_l. by apply p_ack_told.
Qed.

Lemma p_peer_told tr : p_peer uri_of caller o tr -> told caller tr.
Proof.
  intros [->|[->|(c & fw & _ & [[r ->]|[_ ->]])]]; [auto with relay..| |].
  - apply told_app_r, (told_app_r _ [ADropPeer r]). auto with relay.
  - apply told_app_r. by apply told_head.
Qed.

Lemma p_check_told k reason (P : list action -> Prop) tr :
  (forall tr, P tr -> told caller tr) -> p_check caller o k reason P tr -> told caller tr.
Proof.
  intros HP (r & audit & rest & -> & _ & Hrest). apply (told_app_r _ [AEvaluate k r]), told_app_r.
  case_decide; [subst rest; auto with relay|auto].
Qed.

Lemma p_open_told pol tr : definite an -> p_open uri_of endpoint caller o an pol tr -> told caller tr.
Proof.
  intros Hd. assert (Hr : forall tr, p_resolve uri_of endpoint caller o an pol tr -> told caller tr).
  { intros t [->|[Hp|[prov Hp]]]; [auto with relay|by apply p_peer_told|].
    destruct pol; [|by eapply p_provider_told]. eapply p_check_told; [|exact Hp]. intros. by eapply p_provider_told. }
  unfold p_open. destruct pol; [|apply Hr]. by apply p_check_told.
Qed.

(** A check that was passed: its result allows, and the rest is what follows. *)
Lemma p_check_passed k reason (P : list action -> Prop) tr a :
  p_check caller o k reason P tr -> is_incoming a = true -> a ∈ tr ->
  exists r pre rest, tr = AEvaluate k r :: pre ++ rest /\ res_Decision r = DecisionAllow /\ P rest /\ a ∈ rest.
Proof.
  intros (r & audit & rest & -> & Ha & Hrest) Hinc Hin.
  assert (Hrej : forall code reason, a ∉ rej caller o code reason)
    by (intros; apply (none_not_in is_incoming); [by apply rej_none|done]).
  assert (Hau : a ∉ audit).
  { apply (none_not_in is_incoming); [|done]. destruct Ha as [->|(ev & -> & _)]; by repeat constructor. }
  apply elem_of_cons in Hin as [->|[Hin|Hin]%elem_of_app]; [done..|].
  case_decide as Hd; [subst rest; by destruct (Hrej 403 (reason +:+ res_Reason r))|].
  exists r, audit, rest. split_and!; try done. by destruct (res_Decision r).
Qed.

(** The only provider a provider trace opens, and it is opened first. *)
Lemma p_provider_incoming prov tr a :
  p_provider uri_of endpoint caller o an prov tr -> is_incoming a = true -> a ∈ tr ->
  exists relays rest,
    a = AOpenIncoming prov (os_TargetService o) (os_Method o) (uri_of caller) (os_StreamId o) relays /\
    tr = a :: rest.
Proof.
  intros Hp Hinc Hin.
  assert (Hno : forall l, none is_incoming l -> a ∉ l) by (intros l Hl; by apply (none_not_in is_incoming)).
  destruct Hp as [->|(relays & inner & -> & Hi)]; [exfalso; revert Hin; apply Hno; by apply rej_none|].
  simpl in Hin. apply elem_of_cons in Hin as [->|Hin]; [by exists relays, (inner ++ [ACloseProvider])|].
  exfalso. revert Hin. apply Hno. apply none_app. split; [|by repeat constructor].
  destruct Hi as [->|(arm & body & -> & Harm & Hb)]; [by apply rej_none|].
  constructor; [done|]. apply none_app. split; [destruct Harm as [->| ->]; by repeat constructor|].
  apply none_app. split; [|by repeat constructor]. by eapply p_ack_none.
Qed.

(** The row a provider trace enters, right after the provider was opened. *)
Lemma p_provider_record prov tr sid pair :
  p_provider uri_of endpoint caller o an prov tr -> ARecordPair sid pair ∈ tr ->
  exists inc post, tr = inc :: ARecordPair sid pair :: post /\ is_record inc = false /\
    pair = mkPair (uri_of caller) (uri_of prov).
Proof.
  intros Hp Hin.
  assert (Hno : forall l, none is_record l -> ARecordPair sid pair ∉ l) by (intros l Hl; by apply (none_not_in is_record)).
  destruct Hp as [->|(relays & inner & -> & Hi)]; [exfalso; revert Hin; apply Hno; by apply rej_none|].
  simpl in Hin. apply elem_of_cons in Hin as [?|[Hin|Hin]%elem_of_app]; [done| |set_solver].
  destruct Hi as [->|(arm & body & -> & Harm & Hb)]; [exfalso; revert Hin; apply Hno; by apply rej_none|].
  simpl in Hin. apply elem_of_cons in Hin as [[= -> ->]|Hin]; [by eexists _, _|].
  exfalso. revert Hin. apply Hno. apply none_app. split; [destruct Harm as [->| ->]; by repeat constructor|].
  apply none_app. split; [|by repeat constructor]. by eapply p_ack_none.
Qed.

(** A row entered for an opened stream has the URI of the stream's own connection
    and its provider's, and both policies, if there are any, allowed it before. *)
Definition rows_allowed (pol : bool) (tr : list action) : Prop :=
  forall sid pair, ARecordPair sid pair ∈ tr ->
  exists pre post prov service method,
    tr = pre ++ ARecordPair sid pair :: post /\ none is_record pre /\ pair = mkPair (uri_of caller) (uri_of prov) /\
    (pol = true -> exists r1 r2,
       AEvaluate (uri_of caller, service, method) r1 ∈ pre /\ res_Decision r1 = DecisionAllow /\
       AEvaluate (uri_of prov, uri_of caller, method) r2 ∈ pre /\ res_Decision r2 = DecisionAllow).

Lemma rows_allowed_none pol tr : none is_record tr -> rows_allowed pol tr.
Proof. intros Hn sid pair Hin. exfalso. revert Hin. by apply (none_not_in is_record). Qed.

Lemma rows_allowed_around pol l tr l' :
  none is_record l -> none is_record l' -> rows_allowed pol tr -> rows_allowed pol (l ++ tr ++ l').
Proof.
  intros Hl Hl' Hp sid pair Hin.
  apply elem_of_app in Hin as [Hin|[Hin|Hin]%elem_of_app];
    [exfalso; revert Hin; by apply (none_not_in is_record)| |exfalso; revert Hin; by apply (none_not_in is_record)].
  destruct (Hp _ _ Hin) as (pre & post & prov & service & method & -> & Hn & -> & Hpol).
  exists (l ++ pre), (post ++ l'), prov, service, method. split_and!; try done.
  - by rewrite <- !List.app_assoc.
  - by apply none_app.
  - intros (r1 & r2 & ? & ? & ? & ?)%Hpol. exists r1, r2. set_solver.
Qed.

Lemma p_check_rows k reason (P : list action -> Prop) tr sid pair :
  p_check caller o k reason P tr -> ARecordPair sid pair ∈ tr ->
  exists r audit rest, tr = (AEvaluate k r :: audit) ++ rest /\ none is_record (AEvaluate k r :: audit) /\
    res_Decision r = DecisionAllow /\ P rest /\ ARecordPair sid pair ∈ rest.
Proof.
  intros (r & audit & rest & -> & Ha & Hrest) Hin.
  assert (Hau : none is_record (AEvaluate k r :: audit)).
  { constructor; [done|]. destruct Ha as [->|(ev & -> & _)]; by repeat constructor. }
  change (AEvaluate k r :: audit ++ rest) with ((AEvaluate k r :: audit) ++ rest) in *.
  apply elem_of_app in Hin as [Hin|Hin]; [exfalso; revert Hin; by apply (none_not_in is_record)|].
  case_decide as Hd; [subst rest; exfalso; revert Hin; apply (none_not_in is_record); [by apply rej_none|done]|].
  exists r, audit, rest. split_and!; try done. by destruct (res_Decision r).
Qed.

(** An opened provider was allowed by both policies before. *)
Definition both_policies (tr : list action) : Prop :=
  forall prov service method curi sid relays, AOpenIncoming prov service method curi sid relays ∈ tr ->
  curi = uri_of caller /\
  exists pre post r1 r2,
    tr = pre ++ AOpenIncoming prov service method curi sid relays :: post /\
    AEvaluate (uri_of caller, service, method) r1 ∈ pre /\ res_Decision r1 = DecisionAllow /\
    AEvaluate (uri_of prov, uri_of caller, method) r2 ∈ pre /\ res_Decision r2 = DecisionAllow.

Lemma both_policies_none tr : none is_incoming tr -> both_policies tr.
Proof. intros Hn prov service method curi sid relays Hin. exfalso. revert Hin. by apply (none_not_in is_incoming). Qed.

(** Actions around a trace that open no provider do not matter. *)
Lemma both_policies_around l tr l' :
  none is_incoming l -> none is_incoming l' -> both_policies tr -> both_policies (l ++ tr ++ l').
Proof.
  intros Hl Hl' Hp prov service method curi sid relays Hin.
  apply elem_of_app in Hin as [Hin|[Hin|Hin]%elem_of_app];
    [exfalso; revert Hin; by apply (none_not_in is_incoming)| |exfalso; revert Hin; by apply (none_not_in is_incoming)].
  destruct (Hp _ _ _ _ _ _ Hin) as (-> & pre & post & r1 & r2 & -> & ? & ? & ? & ?). split; [done|].
  exists (l ++ pre), (post ++ l'), r1, r2. split_and!; try done; [|set_solver..].
  rewrite <- !List.app_assoc. done.
Qed.

(** The whole handler: a fact of the body that the gauge and the close keep. *)
Lemma p_handler_split (P : list action -> Prop) pol mt an' tr :
  (forall body, P body -> P ([AGauge 1] ++ body ++ [AGauge (-1); ACloseStream])) ->
  (forall body, P body -> P (body ++ [ACloseStream])) ->
  (forall body, p_stream uri_of endpoint caller pol an' body -> P body) ->
  p_handler uri_of endpoint caller pol mt an' tr -> P tr.
Proof.
  intros H1 H2 H3 (body & -> & Hb%H3). destruct mt; simpl; [by apply H1|by apply H2].
Qed.

Lemma p_stream_cases (P : list action -> Prop) pol an' tr :
  P [] -> (forall r, P [ASubmit r]) ->
  (forall r sid peer, P [ASubmit r; AReplacePair sid (mkPair (uri_of caller) peer); ASplice; AForgetPair sid]) ->
  (forall o, p_open uri_of endpoint caller o an' pol tr -> P tr) ->
  p_stream uri_of endpoint caller pol an' tr -> P tr.
Proof.
  intros H0 H1 H2 H3. unfold p_stream.
  destruct (an_first an') as [|[m|]|[m|]|o'|]; simpl; try (by intros ->); [..|apply H3];
    intros (r & [->|[peer ->]]); auto.
Qed.

End Traces.

Lemma p_open_policies {ID : Identity} uri_of endpoint caller o an tr :
  p_open uri_of endpoint caller o an true tr -> both_policies uri_of caller tr.
Proof.
  intros Hp prov service method curi sid relays Hin.
  set (a := AOpenIncoming prov service method curi sid relays) in *. unfold p_open, p_resolve in Hp.
  destruct (p_check_passed _ _ _ _ _ _ a Hp eq_refl Hin) as (r1 & pre1 & rest1 & -> & Hd1 & Hr & Hin1).
  destruct Hr as [->|[Hpe|[prov' Hc]]].
  - exfalso. revert Hin1. apply (none_not_in is_incoming); [by apply rej_none|done].
  - exfalso. revert Hin1. apply (none_not_in is_incoming); [by eapply p_peer_none|done].
  - destruct (p_check_passed _ _ _ _ _ _ a Hc eq_refl Hin1) as (r2 & pre2 & rest2 & -> & Hd2 & Hpr & Hin2).
    destruct (p_provider_incoming _ _ _ _ _ _ _ a Hpr eq_refl Hin2) as (relays' & rest3 & Ha & ->).
    injection Ha as -> -> -> -> -> ->. split; [done|].
    exists (AEvaluate (uri_of caller, os_TargetService o, os_Method o) r1 :: pre1 ++
      AEvaluate (uri_of prov', uri_of caller, os_Method o) r2 :: pre2), rest3, r1, r2.
    split_and!; try done; [|set_solver..]. simpl. by rewrite <- !List.app_assoc.
Qed.

Lemma p_open_rows {ID : Identity} uri_of endpoint caller o an pol tr :
  p_open uri_of endpoint caller o an pol tr -> rows_allowed uri_of caller pol tr.
Proof.
  intros Hp sid pair Hin.
  assert (Hno : forall tr, tr = rej caller o 404 "service not found" \/ p_peer uri_of caller o tr -> ARecordPair sid pair ∉ tr).
  { intros t [->|Ht]; apply (none_not_in is_record); try done; [by apply rej_none|by eapply p_peer_none]. }
  unfold p_open, p_resolve in Hp. destruct pol.
  - destruct (p_check_rows _ _ _ _ _ _ _ _ Hp Hin) as (r1 & au1 & rest1 & -> & Hn1 & Hd1 & Hr & Hin1).
    destruct Hr as [?|[?|[prov Hc]]]; [exfalso; revert Hin1; apply Hno; auto..|].
    destruct (p_check_rows _ _ _ _ _ _ _ _ Hc Hin1) as (r2 & au2 & rest2 & -> & Hn2 & Hd2 & Hpr & Hin2).
    destruct (p_provider_record _ _ _ _ _ _ _ _ _ Hpr Hin2) as (inc & post & -> & Hi & ->).
    exists ((AEvaluate (uri_of caller, os_TargetService o, os_Method o) r1 :: au1) ++
      (AEvaluate (uri_of prov, uri_of caller, os_Method o) r2 :: au2) ++ [inc]), post, prov, (os_TargetService o), (os_Method o).
    split_and!; [by rewrite <- !List.app_assoc| |done|].
    + apply none_app. split; [done|]. apply none_app. split; [done|]. by repeat constructor.
    + intros _. exists r1, r2. split_and!; try done; apply elem_of_app; [left; by left|right; by left].
  - destruct Hp as [?|[?|[prov Hpr]]]; [exfalso; revert Hin; apply Hno; auto..|].
    destruct (p_provider_record _ _ _ _ _ _ _ _ _ Hpr Hin) as (inc & post & -> & Hi & ->).
    exists [inc], post, prov, "", "". split_and!; try done. by repeat constructor.
Qed.

Lemma p_handler_rows {ID : Identity} uri_of endpoint caller pol mt an tr :
  p_handler uri_of endpoint caller pol mt an tr -> rows_allowed uri_of caller pol tr.
Proof.
  apply p_handler_split.
  - intros body Hb. apply rows_allowed_around; [by repeat constructor..|done].
  - intros body Hb. apply (rows_allowed_around _ _ _ []); [by repeat constructor..|done].
  - intros body. apply p_stream_cases; try (intros; apply rows_allowed_none; by repeat constructor).
    intros o. apply p_open_rows.
Qed.

Lemma p_handler_verdict {ID : Identity} uri_of endpoint caller pol mt an tr :
  p_handler uri_of endpoint caller pol mt an tr -> one_verdict tr.
Proof.
  apply p_handler_split.
  - intros body Hb. apply (verdict_app [AGauge 1]); [by repeat constructor..|].
    apply verdict_app_r; [by repeat constructor..|done].
  - intros body Hb. by apply verdict_app_r; [by repeat constructor..|].
  - intros body. apply p_stream_cases; try (intros; apply verdict_none; by repeat constructor).
    intros o. apply p_open_verdict.
Qed.

Lemma p_handler_told {ID : Identity} uri_of endpoint caller pol mt an o tr :
  an_first an = FrOpen o -> definite an -> p_handler uri_of endpoint caller pol mt an tr -> told caller tr.
Proof.
  intros Ho Hd (body & -> & Hb). apply told_app_r, told_app_l. unfold p_stream in Hb. rewrite Ho in Hb. by eapply p_open_told.
Qed.

Lemma p_handler_balanced {ID : Identity} uri_of endpoint caller pol mt an tr :
  p_handler uri_of endpoint caller pol mt an tr -> balanced tr.
Proof.
  apply p_handler_split.
  - intros body Hb. simpl. split; [apply elem_of_app; right; set_solver|]. by apply balanced_app.
  - intros body Hb. by apply balanced_app.
  - intros body. apply p_stream_cases; try (intros; apply balanced_plain; by repeat constructor).
    + intros r sid peer. simpl. set_solver.
    + intros o. apply p_open_balanced.
Qed.

Lemma p_handler_policies {ID : Identity} uri_of endpoint caller mt an tr :
  p_handler uri_of endpoint caller true mt an tr -> both_policies uri_of caller tr.
Proof.
  apply p_handler_split.
  - intros body Hb. apply both_policies_around; [by repeat constructor..|done].
  - intros body Hb. apply (both_policies_around _ _ []); [by repeat constructor..|done].
  - intros body. apply p_stream_cases; try (intros; apply both_policies_none; by repeat constructor).
    intros o. apply p_open_policies.
Qed.

(** ** Properties *)

Section Properties.
Context {ID : Identity}.
Context (order : gmap cacheKey cacheEntry -> list cacheKey).
Context (ask : ResolveRequest -> option (list ProviderInfo)).
Context (uri_of : nat -> string) (endpoint : string).
Context (others : nat -> Server -> Server) (c : config).
Hypothesis others_ok : forall n s, srv_ok c s -> srv_ok c (others n s) /\ rely s (others n s).
Hypothesis uri_ok : forall n, uri_of n <> "".

(** Run a consumer stream's handler from a server state. *)
Definition serve (an : answers) (caller : nat) (s : Server) : exec (unit * world Server action) :=
  run others (handleConsumerStream order ask uri_of endpoint an caller) (mkWorld s [] 0).

Lemma serve_refines an caller s :
  srv_ok c s ->
  match serve an caller s with
  | Ret (_, w) => p_handler uri_of endpoint caller (cf_policy c) (cf_metrics c) an (w_trace w) /\ srv_ok c (w_server w)
  | Blocked => may_wait an = true
  | Panic _ | OutOfFuel => False
  end.
Proof.
  intros Hs. pose proof (wp_run (srv_ok c) rely effect (may_wait an) others _ _ (mkWorld s [] 0) others_ok
    (handler_refines order ask uri_of endpoint c (srv_ok c) (may_wait an) uri_ok an caller (fun H => H)) Hs) as H.
  fold (serve an caller s) in H. destruct (serve an caller s) as [[[] w]| | |]; try done.
  destruct H as (Hw & tr & -> & Hp). done.
Qed.

Lemma serve_handler an caller s w :
  srv_ok c s -> serve an caller s = Ret (tt, w) ->
  p_handler uri_of endpoint caller (cf_policy c) (cf_metrics c) an (w_trace w).
Proof. intros Hs Hrun. pose proof (serve_refines an caller s Hs) as H. rewrite Hrun in H. tauto. Qed.



(** Whatever a stream acquires it releases.  In every run, each forward
    allocation that was made is forgotten, each recorded routing pair is removed
    and each stream opened toward a provider is closed, after it was acquired and
    before the handler ends, on every path: rejects, write errors, failed
    acknowledgements. *)
Theorem stream_releases_all an caller s w :
  srv_ok c s -> serve an caller s = Ret (tt, w) -> balanced (w_trace w).
Proof. intros Hs Hrun. eapply p_handler_balanced. by eapply serve_handler. Qed.

(** A stream gets at most one verdict, and never a contradictory one.  A
    handler rejects its stream at most once, and if it does, neither agent is told
    that the stream is ready or granted, and no byte is moved. *)
Theorem one_verdict_per_stream an caller s w :
  srv_ok c s -> serve an caller s = Ret (tt, w) -> one_verdict (w_trace w).
Proof.
  intros Hs Hrun. eapply p_handler_verdict. by eapply serve_handler.
Qed.

End Properties.

(** ** A relay for the examples *)

Definition ex_identity : Identity := {|
  Parse u := if String.eqb u "" then None else Some (mkName "acme" false);
  Parse_empty := eq_refl
|}.
Definition ex_order (m : gmap cacheKey cacheEntry) : list cacheKey := (map_to_list m).*1.
Definition ex_uri (c : nat) : string :=
  if (c =? 1)%nat then "c" else "p".
Definition ex_ask (relay : string) (_ : ResolveRequest) : option (list ProviderInfo) :=
  Some [mkProvider relay "r2:443" "p"].
Definition ex_iter : iter_order := fun m => (map_to_list m).*2.

(** An engine whose one rule allows everything, and one that denies everything. *)
Definition ex_allow : Engine :=
  Engine_Set ex_iter [mkRule "any" "*" "*" "*" DecisionAllow 0 P2PModeAllowed RelayModeForward] NewEngine.
Definition ex_deny : Engine :=
  Engine_Set ex_iter [mkRule "any" "*" "*" "*" DecisionDeny 0 P2PModeAllowed RelayModeSplice] NewEngine.

(** A relay with agents 1 and 2, a cached connection 0 to its peer relay. *)
Definition ex_server (e : Engine) : Server :=
  SetSuccessors ["r3:443"]
    (New (mkRegistry "r1" "kr" (<["c" := 1%nat]> (<["p" := 2%nat]> ∅))) (Some e) (Some NewCache) (Some NewEmitter)
       (Some (mkPool {["r2" := 0%nat]} {[0%nat]} 1)) (Some NewPlane) true 1).
Definition ex_config : config := mkConfig true true true true.

Definition ex_open : OpenStream := mkOpen 7 "s" "m".
Definition ex_answers (ack : ack_frame) (reply : peer_reply) : answers :=
  mkAnswers (FrOpen ex_open) true ack true true true true true reply true 100.

Definition ex_serve (relay : string) (an : answers) (e : Engine) : exec (unit * world Server action) :=
  @serve ex_identity ex_order (ex_ask relay) ex_uri "r1:4434" (fun _ s => s) an 1 (ex_server e).
Definition world_of (r : exec (unit * world Server action)) (s : Server) : world Server action :=
  match r with Ret (_, w) => w | _ => mkWorld s [] 0 end.
Definition ex_world : world Server action := world_of (ex_serve "r1" (ex_answers AckAccept ReplyAccept) ex_allow) (ex_server ex_allow).

Lemma ex_ok e : srv_ok ex_config (ex_server e).
Proof.
  split; [done..| |apply rinv_init| |]; [by intros p [= <-]|set_solver|]. intros x k ce [= <-]. unfold NewCache. cbn [c_m]. by rewrite lookup_empty.
Qed.

Lemma ex_others (n : nat) s : srv_ok ex_config s -> srv_ok ex_config s /\ rely s s.
Proof. done. Qed.

Lemma ex_run : ex_serve "r1" (ex_answers AckAccept ReplyAccept) ex_allow = Ret (tt, ex_world).
Proof. vm_compute. reflexivity. Qed.

Lemma ex_uri_ok c : ex_uri c <> "".
Proof. unfold ex_uri. by destruct (c =? 1)%nat. Qed.



Lemma stream_releases_all_witness : balanced (w_trace ex_world).
Proof.
  apply (@stream_releases_all ex_identity ex_order (ex_ask "r1") ex_uri "r1:4434"
    (fun _ s => s) ex_config ex_others ex_uri_ok (ex_answers AckAccept ReplyAccept) 1 (ex_server ex_allow));
    [apply ex_ok|apply ex_run].
Defined.

Lemma one_verdict_per_stream_witness : one_verdict (w_trace ex_world).
Proof.
  apply (@one_verdict_per_stream ex_identity ex_order (ex_ask "r1") ex_uri "r1:4434"
    (fun _ s => s) ex_config ex_others ex_uri_ok (ex_answers AckAccept ReplyAccept) 1 (ex_server ex_allow));
    [apply ex_ok|apply ex_run].
Defined.

(** ** Where a stream falls outside its protocol *)

(** A provider that answers neither STREAM_ACCEPT nor STREAM_REJECT leaves the
    consumer without a verdict.  The provider's stream is opened and closed again,
    but the consumer gets no STREAM_REJECT, neither on its stream nor on its
    control stream, and no ready or grant signal. *)
Theorem bad_ack_is_silent ack :
  ack = AckOther \/ ack = AckError ->
  exists w, ex_serve "r1" (ex_answers ack ReplyAccept) ex_allow = Ret (tt, w) /\
    count is_incoming (w_trace w) = 1%nat /\ none is_reject (w_trace w) /\ none is_ctrl (w_trace w).
Proof.
  intros [->| ->]; eexists; (split; [vm_compute; reflexivity|]); split_and!; try done; by repeat constructor.
Qed.

Lemma bad_ack_is_silent_witness :
  exists w, ex_serve "r1" (ex_answers AckOther ReplyAccept) ex_allow = Ret (tt, w) /\
    count is_incoming (w_trace w) = 1%nat /\ none is_reject (w_trace w) /\ none is_ctrl (w_trace w).
Proof. apply bad_ack_is_silent. left. reflexivity. Defined.

(** The provider's relay evaluates no policy, whatever its state. *)
Lemma forwarded_no_evaluate src o tr : p_forwarded src o tr -> none is_evaluate tr.
Proof.
  intros (body & -> & Hb). apply none_app. split; [|by repeat constructor].
  destruct Hb as [->|[->|[->|(prov & relays & inner & -> & Hin)]]]; [by repeat constructor..|].
  constructor; [done|]. apply none_app. split; [|by repeat constructor].
  destruct Hin as [->|[->| ->]]; by repeat constructor.
Qed.

(** Run the handler of a forwarded stream. *)
Definition serve_forwarded {ID : Identity} ask others an src o ok (s : Server) : exec (unit * world Server action) :=
  run others (handleForwardedStream ask an src o ok) (mkWorld s [] 0).

Lemma serve_forwarded_refines {ID : Identity} ask others c an src o ok s :
  (forall n s, srv_ok c s -> srv_ok c (others n s) /\ rely s (others n s)) -> srv_ok c s ->
  exists w, serve_forwarded ask others an src o ok s = Ret (tt, w) /\ p_forwarded src o (w_trace w).
Proof.
  intros Ho Hs. pose proof (wp_run (srv_ok c) rely effect false others _ _ (mkWorld s [] 0) Ho
    (forwarded_refines key_order ask c (srv_ok c) false an src o ok) Hs) as H.
  fold (serve_forwarded ask others an src o ok s) in H.
  destruct (serve_forwarded ask others an src o ok s) as [[[] w]| | |]; try done.
  destruct H as (_ & tr & Htr & Hp). exists w. split; [done|]. by rewrite Htr.
Qed.

Definition ex_forwarded (e : Engine) : exec (unit * world Server action) :=
  @serve_forwarded ex_identity (ex_ask "r1") (fun _ s => s) (ex_answers AckAccept ReplyAccept)
    "c" (mkOpen 0 "s" "m") true (ex_server e).

(** A stream that crosses two relays is not checked against the provider's
    policy, and its consumer gets no STREAM_READY.  The consumer's relay evaluates
    only the consumer's side and forwards, and sends no signal at all on the
    consumer's control stream once the stream is up; the provider's relay never
    evaluates anything, so it opens the stream toward the provider even when its
    engine denies everything. *)
Theorem remote_stream_unchecked :
  (exists w, ex_serve "r2" (ex_answers AckAccept ReplyAccept) ex_allow = Ret (tt, w) /\
     count is_evaluate (w_trace w) = 1%nat /\ AForwardStream 0 "s" "m" "c" ∈ w_trace w /\
     ASplice ∈ w_trace w /\ none is_ctrl (w_trace w)) /\
  (forall (ID : Identity) ask others c an src o ok s,
     (forall n s, srv_ok c s -> srv_ok c (others n s) /\ rely s (others n s)) -> srv_ok c s ->
     exists w, serve_forwarded ask others an src o ok s = Ret (tt, w) /\ none is_evaluate (w_trace w)) /\
  (exists w, ex_forwarded ex_deny = Ret (tt, w) /\ count is_incoming (w_trace w) = 1%nat /\ ASplice ∈ w_trace w) /\
  res_Decision (Engine_Decide ex_deny (ex_uri 2) (ex_uri 1) "m" 0) = DecisionDeny.
Proof.
  split_and!; [| | |vm_compute; reflexivity].
  - eexists. split; [vm_compute; reflexivity|]. split_and!; [done| | |by repeat constructor].
    + apply (list_elem_of_lookup_2 _ 3). reflexivity.
    + apply (list_elem_of_lookup_2 _ 4). reflexivity.
  - intros ID ask others c an src o ok s Ho Hs.
    destruct (serve_forwarded_refines ask others c an src o ok s Ho Hs) as (w & Hw & Hp).
    exists w. split; [done|]. by eapply forwarded_no_evaluate.
  - eexists. split; [vm_compute; reflexivity|]. split; [done|]. apply (list_elem_of_lookup_2 _ 2). reflexivity.
Qed.

(** One rejected stream takes down the connection it shares with others.  When
    the peer relay answers STREAM_REJECT on a healthy cached connection, the
    handler drops that connection from the pool and closes it, with whatever other
    streams it carries. *)
Theorem peer_reject_closes_shared :
  exists w, ex_serve "r2" (ex_answers AckAccept ReplyReject) ex_allow = Ret (tt, w) /\
    0%nat ∈ from_option p_alive ∅ (sv_pool (ex_server ex_allow)) /\
    from_option p_alive ∅ (sv_pool (w_server w)) = ∅ /\ ADropPeer "r2" ∈ w_trace w.
Proof.
  eexists. split; [vm_compute; reflexivity|]. split_and!; [set_solver|vm_compute; reflexivity|].
  apply (list_elem_of_lookup_2 _ 4). reflexivity.
Qed.
