(* ===== verification/Daemon.v ===== *)
(** * Daemon: [cmd/outrelay-relay/main.go]

    Startup of the relay process as a function of its flags and of what the outside
    world answers: which checks come in which order, with which exit code they fail,
    which parts the server is built with, and who is started when; the TLS
    configurations it derives from its certificate; the goroutine that turns signals
    into a drain and a shutdown; and what the heartbeat does to the list the server
    was seeded with. *)

From S2P Require Import Prelude GoStrings PolicyMatcher PolicyCache ForwardPlane Fleet Registry AuditQueue Intra.
From S2P Require Import Listener ServerState Operations.

(** ** TLS *)

Inductive client_auth := NoClientCert | RequireAndVerifyClientCert.

(** The fields of [tls.Config] the daemon sets.  A CA pool and a key pair are known
    by what they were read from; TLS 1.3 is version 0x0304. *)
Record tls_config := mkTLS {
  tc_Certificates : option (string * string);
  tc_ClientCAs : option string;
  tc_ClientAuth : client_auth;
  tc_RootCAs : option string;
  tc_ServerName : string;
  tc_MinVersion : Z;
  tc_VerifyConnection : option (list (list (list (option URL))) -> bool)
}.

Definition VersionTLS13 : Z := 772.

(** What the file system and the PEM decoder answer. *)
Record pki := mkPKI {
  pk_KeyPair : string -> string -> bool;           (** [LoadX509KeyPair] succeeds *)
  pk_ReadFile : string -> option string;
  pk_CertsFromPEM : string -> bool                 (** at least one certificate *)
}.

Inductive tls_err := ErrKeyPair | ErrReadCA | ErrEmptyCA.

Definition loadServerTLS (w : pki) (certPath keyPath caPath : string) : tls_err + tls_config :=
  if negb (pk_KeyPair w certPath keyPath) then inl ErrKeyPair
  else
    match pk_ReadFile w caPath with
    | None => inl ErrReadCA
    | Some caPEM =>
        if negb (pk_CertsFromPEM w caPEM) then inl ErrEmptyCA
        else inr (mkTLS (Some (certPath, keyPath)) (Some caPEM) RequireAndVerifyClientCert None "" VersionTLS13 None)
    end.

(** The client configuration both dials start from. *)
Definition client_of (c : tls_config) : tls_config :=
  mkTLS (tc_Certificates c) None NoClientCert (tc_ClientCAs c) "localhost" (tc_MinVersion c) (tc_VerifyConnection c).

(** [controllerCreds]: plaintext, mTLS with a configuration, or an error. *)
Inductive credentials := CredInsecure | CredTLS (c : tls_config).

Definition controllerCreds (enableTLS : bool) (serverConf : option tls_config) : option credentials :=
  if negb enableTLS then Some CredInsecure
  else
    match serverConf with
    | None => None
    | Some c => Some (CredTLS (client_of c))
    end.

Definition intraTLS (serverConf : tls_config) : tls_config :=
  let c := client_of serverConf in
  mkTLS (tc_Certificates c) (tc_ClientCAs c) (tc_ClientAuth c) (tc_RootCAs c) (tc_ServerName c) (tc_MinVersion c)
    (Some verifyPeerIsRelay).

(** ** Startup *)

Record Flags := mkFlags {
  fl_listen : string;
  fl_listenTCP : string;
  fl_listenForward : string;
  fl_certPath : string;
  fl_keyPath : string;
  fl_caPath : string;
  fl_controllerAddr : string;
  fl_controllerTLS : bool;
  fl_relayID : string;
  fl_region : string;
  fl_advertised : string;
  fl_heartbeat : Duration;
  fl_drainOnSignal : bool;
  fl_drainTo : string;
  fl_drainTimeout : Duration;
  fl_policyTenant : string;
  fl_debugListen : string;
  fl_metricsDump : string;
  fl_showVersion : bool
}.

(** What the rest of the world answers during startup, and how serving ends. *)
Record startup := mkStartup {
  su_pki : pki;
  su_dial : bool;                                  (** [grpc.NewClient] *)
  su_upsert : option (list RelayInstance);         (** the fleet [UpsertRelay] returns *)
  su_forward : bool;                               (** the forward plane's socket opens *)
  su_tcp : bool;                                   (** the TCP listener opens *)
  su_now : Time;
  su_listen : bool;
  su_accepts : list accepted
}.

Inductive boot_act :=
  | BPrintVersion
  | BDialController (creds : credentials)
  | BUpsert (id region endpoint : string)
  | BWatchPolicy (tenant : string)
  | BDumpMetrics
  | BForwardPlane
  | BNewServer (s : Server)
  | BSetSuccessors (eps : list string)
  | BHeartbeat (h : Heartbeat)
  | BDebugHTTP (drain : DrainDefaults)                      (** [/debug/drain] *)
  | BSignals (drainOnSignal : bool) (drain : DrainDefaults)
  | BListenTCP
  | BServe
  | BClosePool
  | BCloseController.

Inductive boot_end :=
  | Exit (code : Z)
  | Serving.               (** [srv.Run] has not returned *)

Definition default_to (s dflt : string) : string := if String.eqb s "" then dflt else s.

Section Main.
Context {SF : SortFunc}.

Definition boot_id (fl : Flags) : string := default_to (fl_relayID fl) (fl_listen fl).
Definition boot_endpoint (fl : Flags) : string := default_to (fl_advertised fl) (fl_listen fl).

(** What SIGTERM and [/debug/drain] share. *)
Definition drain_defaults (fl : Flags) : DrainDefaults :=
  mkDefaults (splitEndpoints (fl_drainTo fl)) "drain" (fl_drainTimeout fl).

(** [edge.New] with the parts the flags ask for. *)
Definition boot_server (fl : Flags) (now : Time) : Server :=
  let policy := negb (String.eqb (fl_policyTenant fl) "") in
  let forward := negb (String.eqb (fl_listenForward fl) "") in
  New (NewRegistry (boot_id fl) (fl_region fl))
    (if policy then Some NewEngine else None) (if policy then Some NewCache else None)
    (if policy then Some NewEmitter else None) (Some NewPool)
    (if forward then Some NewPlane else None) true now.

(** The listeners and the end: deferred calls run when [main] returns, not when it
    exits with an error. *)
Definition main_serve (fl : Flags) (su : startup) : list boot_act * boot_end :=
  let tcp := negb (String.eqb (fl_listenTCP fl) "") in
  if tcp && negb (su_tcp su) then ([], Exit 1)
  else
    let '(acts, e) :=
      match (Run (su_listen su) (su_accepts su)).2 with
      | None => ([], Serving)
      | Some RunNil => ([BClosePool; BCloseController], Exit 0)
      | Some _ => ([], Exit 1)
      end in
    ((if tcp then [BListenTCP] else []) ++ [BServe] ++ acts, e).

(** From the registration with the controller on. *)
Definition main_registered (fl : Flags) (su : startup) (fleet : list RelayInstance) : list boot_act * boot_end :=
  let forward := negb (String.eqb (fl_listenForward fl) "") in
  let pre :=
    (if String.eqb (fl_policyTenant fl) "" then [] else [BWatchPolicy (fl_policyTenant fl)]) ++
    (if String.eqb (fl_metricsDump fl) "" then [] else [BDumpMetrics]) in
  if forward && negb (su_forward su) then (pre, Exit 1)
  else
    let '(acts, e) := main_serve fl su in
    (pre ++ (if forward then [BForwardPlane] else []) ++
     [BNewServer (boot_server fl (su_now su));
      BSetSuccessors (Fleet.Successors (boot_id fl) (fl_region fl) fleet);
      BHeartbeat (OnSuccessors (NewHeartbeat (boot_id fl) (fl_region fl) (boot_endpoint fl) (fl_heartbeat fl)))] ++
     (if String.eqb (fl_debugListen fl) "" then [] else [BDebugHTTP (drain_defaults fl)]) ++
     [BSignals (fl_drainOnSignal fl) (drain_defaults fl)] ++ acts, e).

Definition main (fl : Flags) (su : startup) : list boot_act * boot_end :=
  if fl_showVersion fl then ([BPrintVersion], Exit 0)
  else if String.eqb (fl_certPath fl) "" || String.eqb (fl_keyPath fl) "" || String.eqb (fl_caPath fl) ""
  then ([], Exit 2)
  else
    match loadServerTLS (su_pki su) (fl_certPath fl) (fl_keyPath fl) (fl_caPath fl) with
    | inl _ => ([], Exit 1)
    | inr tlsConf =>
        match controllerCreds (fl_controllerTLS fl) (Some tlsConf) with
        | None => ([], Exit 1)
        | Some creds =>
            if negb (su_dial su) then ([], Exit 1)
            else
              match su_upsert su with
              | None => ([BDialController creds; BUpsert (boot_id fl) (fl_region fl) (boot_endpoint fl)], Exit 1)
              | Some fleet =>
                  let '(acts, e) := main_registered fl su fleet in
                  (BDialController creds :: BUpsert (boot_id fl) (fl_region fl) (boot_endpoint fl) :: acts, e)
              end
        end
    end.
End Main.

(** ** Logging *)

Inductive log_handler := JSONHandler (level : log_level) | TextHandler (level : log_level).

Definition newLogger (format level : string) : log_handler :=
  if String.eqb format "json" then JSONHandler (parseLogLevel level) else TextHandler (parseLogLevel level).

(** ** Signals *)

(** What the signal goroutine can see: a signal, the end of the drain it started. *)
Inductive sig_event := Signal | DrainDone.

Inductive sig_act := SigDrain (drain : DrainDefaults) | SigCancel.

Definition on_signals (drainOnSignal : bool) (drain : DrainDefaults) (evs : list sig_event) : list sig_act :=
  match evs with
  | Signal :: evs' =>
      if negb drainOnSignal then [SigCancel]
      else SigDrain drain :: match evs' with [] => [] | _ :: _ => [SigCancel] end
  | _ => []
  end.

(** ** Lemmas *)

(** The context is cancelled once, by the first signal without a drain, else by
    whatever comes second; nothing that comes first but a signal does anything. *)
Lemma on_signals_cancel b d evs :
  SigCancel ∈ on_signals b d evs <-> exists rest, evs = Signal :: rest /\ (b = true -> rest <> []).
Proof. destruct evs as [|[] [|ev evs]]; destruct b; simpl; set_solver. Qed.

Lemma loadServerTLS_ok w certPath keyPath caPath c : loadServerTLS w certPath keyPath caPath = inr c ->
  exists caPEM, pk_KeyPair w certPath keyPath = true /\ pk_ReadFile w caPath = Some caPEM /\
    pk_CertsFromPEM w caPEM = true /\
    c = mkTLS (Some (certPath, keyPath)) (Some caPEM) RequireAndVerifyClientCert None "" VersionTLS13 None.
Proof.
  unfold loadServerTLS. destruct (pk_KeyPair w certPath keyPath); simpl; [|done].
  destruct (pk_ReadFile w caPath) as [pem|]; [|done]. destruct (pk_CertsFromPEM w pem) eqn:E; simpl; [|done].
  intros [= <-]. by exists pem.
Qed.

Lemma verifyPeerIsRelay_ok chains : verifyPeerIsRelay chains = true ->
  exists leaf issuers others u, chains = (leaf :: issuers) :: others /\ Some u ∈ leaf /\
    u_Scheme u = "outrelay" /\ HasPrefix (u_Path u) "/relay/" = true /\ (7 < String.length (u_Path u))%nat.
Proof.
  destruct chains as [|[|leaf issuers] others]; simpl; try done.
  intros (u & Hin%list_elem_of_In & Hu)%existsb_exists. destruct u as [u|]; [|done].
  apply andb_true_iff in Hu as [[Hs Hl]%andb_true_iff Hp]. exists leaf, issuers, others, u. split_and!; try done.
  - by apply String.eqb_eq.
  - by apply Nat.ltb_lt in Hl.
Qed.

Section Properties.
Context {SF : SortFunc}.

(** A startup that gets as far as serving. *)
Lemma main_serves fl su acts e : main fl su = (acts, e) -> BServe ∈ acts ->
  fl_showVersion fl = false /\
  exists tls creds fleet pre post,
    loadServerTLS (su_pki su) (fl_certPath fl) (fl_keyPath fl) (fl_caPath fl) = inr tls /\
    controllerCreds (fl_controllerTLS fl) (Some tls) = Some creds /\ su_upsert su = Some fleet /\
    acts = BDialController creds :: BUpsert (boot_id fl) (fl_region fl) (boot_endpoint fl) :: pre ++
      [BNewServer (boot_server fl (su_now su));
       BSetSuccessors (Fleet.Successors (boot_id fl) (fl_region fl) fleet);
       BHeartbeat (OnSuccessors (NewHeartbeat (boot_id fl) (fl_region fl) (boot_endpoint fl) (fl_heartbeat fl)))] ++ post /\
    BServe ∉ pre /\ (BWatchPolicy (fl_policyTenant fl) ∈ pre <-> fl_policyTenant fl <> "") /\
    (BForwardPlane ∈ pre <-> fl_listenForward fl <> "") /\
    BSignals (fl_drainOnSignal fl) (drain_defaults fl) ∈ post /\
    match (Run (su_listen su) (su_accepts su)).2 with
    | None => e = Serving
    | Some RunNil => e = Exit 0 /\ BClosePool ∈ post /\ BCloseController ∈ post
    | Some _ => e = Exit 1
    end.
Proof.
  unfold main. destruct (fl_showVersion fl); [intros [= <- <-]; set_solver|].
  destruct (_ || _); [intros [= <- <-]; set_solver|].
  destruct (loadServerTLS _ _ _ _) as [err|tls] eqn:Et; [intros [= <- <-]; set_solver|].
  destruct (controllerCreds _ _) as [creds|] eqn:Ec; [|intros [= <- <-]; set_solver].
  destruct (negb (su_dial su)); [intros [= <- <-]; set_solver|].
  destruct (su_upsert su) as [fleet|] eqn:Eu; [|intros [= <- <-]; set_solver].
  unfold main_registered. destruct (_ && negb (su_forward su)) eqn:Ef.
  { intros [= <- <-]. destruct (String.eqb (fl_policyTenant fl) ""), (String.eqb (fl_metricsDump fl) ""); set_solver. }
  destruct (main_serve fl su) as [acts' e'] eqn:Es. intros [= <- <-] Hin. split; [done|].
  eexists tls, creds, fleet, (((if String.eqb (fl_policyTenant fl) "" then [] else [BWatchPolicy (fl_policyTenant fl)]) ++
    (if String.eqb (fl_metricsDump fl) "" then [] else [BDumpMetrics])) ++
    (if negb (String.eqb (fl_listenForward fl) "") then [BForwardPlane] else [])), _.
  split_and!; [done..|by rewrite <- !List.app_assoc| | | |set_solver|].
  - destruct (String.eqb (fl_policyTenant fl) ""), (String.eqb (fl_metricsDump fl) ""), (String.eqb (fl_listenForward fl) "");
      set_solver.
  - destruct (String.eqb_spec (fl_policyTenant fl) ""), (String.eqb (fl_metricsDump fl) ""), (String.eqb (fl_listenForward fl) "");
      set_solver.
  - destruct (String.eqb (fl_policyTenant fl) ""), (String.eqb (fl_metricsDump fl) ""),
      (String.eqb_spec (fl_listenForward fl) ""); set_solver.
  - unfold main_serve in Es. destruct (_ && negb (su_tcp su)).
    { exfalso. injection Es as <- <-.
      destruct (String.eqb (fl_policyTenant fl) ""), (String.eqb (fl_metricsDump fl) ""), (String.eqb (fl_listenForward fl) ""),
        (String.eqb (fl_debugListen fl) ""); set_solver. }
    destruct (Run _ _).2 as [[]|]; injection Es as <- <-; try done. split_and!; [done|set_solver..].
Qed.

Lemma serve_end fl su acts e : main_serve fl su = (acts, e) ->
  e <> Exit 2 /\ (e = Exit 0 <-> BServe ∈ acts /\ (Run (su_listen su) (su_accepts su)).2 = Some RunNil).
Proof.
  unfold main_serve. destruct (_ && _); [intros [= <- <-]; set_solver|].
  destruct (Run _ _).2 as [[]|]; intros [= <- <-]; set_solver.
Qed.

Lemma registered_end fl su fleet acts e : main_registered fl su fleet = (acts, e) ->
  e <> Exit 2 /\ (e = Exit 0 <-> BServe ∈ acts /\ (Run (su_listen su) (su_accepts su)).2 = Some RunNil).
Proof.
  unfold main_registered. destruct (_ && negb (su_forward su)).
  { intros [= <- <-]. destruct (String.eqb (fl_policyTenant fl) ""), (String.eqb (fl_metricsDump fl) ""); set_solver. }
  destruct (main_serve fl su) as [acts' e'] eqn:Es. apply serve_end in Es as [H2 H0]. intros [= <- <-].
  split; [done|]. rewrite H0.
  destruct (String.eqb (fl_policyTenant fl) ""), (String.eqb (fl_metricsDump fl) ""), (String.eqb (fl_listenForward fl) ""),
    (String.eqb (fl_debugListen fl) ""); set_solver.
Qed.

(** C26: the daemon starts in order and fails closed.  It exits with 2 exactly when a
    certificate flag is missing, with 0 exactly when only the version was asked for
    or serving was ended by the context, in which case the pool and the controller
    connection are closed; and it accepts connections only after the certificates
    have been loaded, the controller has registered the relay under the id and
    endpoint the flags give (the listen address by default), and the server has been
    built, with a policy engine, and the watcher that feeds it, exactly when a
    tenant is named, with a forward plane exactly when an address is given for it,
    with the successors of the fleet the controller answered, and with the goroutine
    that turns a signal into the drain the flags describe. *)
Theorem main_spec fl su acts e :
  main fl su = (acts, e) ->
  (e = Exit 2 <-> fl_showVersion fl = false /\ (fl_certPath fl = "" \/ fl_keyPath fl = "" \/ fl_caPath fl = "")) /\
  (e = Exit 0 <-> fl_showVersion fl = true \/ (BServe ∈ acts /\ (Run (su_listen su) (su_accepts su)).2 = Some RunNil)) /\
  (BServe ∈ acts -> exists tls creds fleet pre post,
    loadServerTLS (su_pki su) (fl_certPath fl) (fl_keyPath fl) (fl_caPath fl) = inr tls /\
    su_upsert su = Some fleet /\
    acts = BDialController creds :: BUpsert (boot_id fl) (fl_region fl) (boot_endpoint fl) :: pre ++
      [BNewServer (boot_server fl (su_now su));
       BSetSuccessors (Fleet.Successors (boot_id fl) (fl_region fl) fleet);
       BHeartbeat (OnSuccessors (NewHeartbeat (boot_id fl) (fl_region fl) (boot_endpoint fl) (fl_heartbeat fl)))] ++ post /\
    BServe ∉ pre /\
    (BWatchPolicy (fl_policyTenant fl) ∈ pre <-> fl_policyTenant fl <> "") /\
    (is_Some (sv_policy (boot_server fl (su_now su))) <-> fl_policyTenant fl <> "") /\
    (is_Some (sv_forward (boot_server fl (su_now su))) <-> fl_listenForward fl <> "") /\
    BSignals (fl_drainOnSignal fl) (drain_defaults fl) ∈ post /\
    (e = Exit 0 -> BClosePool ∈ post /\ BCloseController ∈ post)).
Proof.
  intros Hm. split_and!.
  - revert Hm. unfold main. destruct (fl_showVersion fl); [intros [= <- <-]; naive_solver|].
    destruct (String.eqb_spec (fl_certPath fl) ""), (String.eqb_spec (fl_keyPath fl) ""), (String.eqb_spec (fl_caPath fl) "");
      simpl; try (intros [= <- <-]; by split; auto).
    destruct (loadServerTLS _ _ _ _); [intros [= <- <-]; naive_solver|].
    destruct (controllerCreds _ _); [|intros [= <- <-]; naive_solver].
    destruct (negb (su_dial su)); [intros [= <- <-]; naive_solver|].
    destruct (su_upsert su) as [fleet|]; [|intros [= <- <-]; naive_solver].
    destruct (main_registered fl su fleet) as [acts' e'] eqn:Er. apply registered_end in Er as [H2 _].
    intros [= <- <-]. naive_solver.
  - revert Hm. unfold main. destruct (fl_showVersion fl); [intros [= <- <-]; naive_solver|].
    destruct (_ || _); [intros [= <- <-]; set_solver|].
    destruct (loadServerTLS _ _ _ _); [intros [= <- <-]; set_solver|].
    destruct (controllerCreds _ _); [|intros [= <- <-]; set_solver].
    destruct (negb (su_dial su)); [intros [= <- <-]; set_solver|].
    destruct (su_upsert su) as [fleet|]; [|intros [= <- <-]; set_solver].
    destruct (main_registered fl su fleet) as [acts' e'] eqn:Er. apply registered_end in Er as [_ H0].
    intros [= <- <-]. rewrite H0. set_solver.
  - intros Hin. destruct (main_serves fl su acts e Hm Hin)
      as (_ & tls & creds & fleet & pre & post & ? & _ & ? & ? & ? & ? & _ & ? & Hend).
    exists tls, creds, fleet, pre, post. split_and!; try done.
    + simpl. destruct (String.eqb_spec (fl_policyTenant fl) ""); simpl; split; naive_solver.
    + unfold sv_forward. simpl. destruct (String.eqb_spec (fl_listenForward fl) ""); simpl; split; naive_solver.
    + intros ->. destruct (Run _ _).2 as [[]|]; naive_solver.
Qed.

(** C27: the relay's TLS trusts one authority, both ways.  A server configuration that
    loads requires and verifies a client certificate at TLS 1.3 against exactly the
    certificates of the CA file; the configuration for dialing peer relays presents
    the same key pair, trusts exactly the same authority, and accepts a peer only if
    its verified leaf carries a relay URI, so that no agent's certificate passes for
    a relay; the controller is dialed with that same trust, or in plaintext exactly
    when the flag asks for it. *)
Theorem tls_trust w certPath keyPath caPath c enableTLS creds :
  loadServerTLS w certPath keyPath caPath = inr c -> controllerCreds enableTLS (Some c) = Some creds ->
  (exists caPEM, pk_ReadFile w caPath = Some caPEM /\ pk_CertsFromPEM w caPEM = true /\
     tc_ClientCAs c = Some caPEM /\ tc_ClientAuth c = RequireAndVerifyClientCert /\ tc_MinVersion c = VersionTLS13 /\
     tc_RootCAs (intraTLS c) = Some caPEM /\ tc_Certificates (intraTLS c) = tc_Certificates c /\
     tc_MinVersion (intraTLS c) = VersionTLS13 /\
     match creds with
     | CredInsecure => enableTLS = false
     | CredTLS d => enableTLS = true /\ tc_RootCAs d = Some caPEM /\ tc_Certificates d = Some (certPath, keyPath) /\
         tc_MinVersion d = VersionTLS13
     end) /\
  (exists verify, tc_VerifyConnection (intraTLS c) = Some verify /\
     forall chains, verify chains = true ->
       exists leaf issuers others u, chains = (leaf :: issuers) :: others /\ Some u ∈ leaf /\
         u_Scheme u = "outrelay" /\ HasPrefix (u_Path u) "/relay/" = true /\ (7 < String.length (u_Path u))%nat).
Proof.
  intros (caPEM & _ & Hr & Hp & ->)%loadServerTLS_ok Hc. split.
  - exists caPEM. split_and!; try done. destruct enableTLS; simpl in Hc; injection Hc as <-; done.
  - eexists. split; [done|]. apply verifyPeerIsRelay_ok.
Qed.

(** An answer that leaves the heartbeat's list empty. *)
Definition no_peers (id region : string) (resp : option (list RelayInstance)) : bool :=
  match resp with
  | None => true
  | Some relays => bool_decide (Fleet.Successors id region relays = [])
  end.

(** C34: what the successor list is after startup.  The server starts with the list of
    the first registration and then follows the heartbeat, whose own memory starts
    empty: once some answer of the controller names a peer, the server holds the
    list of the last answer; but as long as every answer names none, it keeps the
    list it was seeded with, relays that have left the fleet included. *)
Theorem seeded_successors id region endpoint period seed resps :
  let h := beats resps (OnSuccessors (NewHeartbeat id region endpoint period)) in
  held 0 seed (hb_calls h) = if forallb (no_peers id region) resps then seed else latest id region resps.
Proof.
  intros h.
  assert (hb_id h = id /\ hb_region h = region /\ hb_subs h = 1%nat /\ hb_last h = latest id region resps /\
    held 0 seed (hb_calls h) = (if forallb (no_peers id region) resps then seed else latest id region resps) /\
    (forallb (no_peers id region) resps = true -> latest id region resps = [])) as (_ & _ & _ & _ & ? & _); [|done].
  unfold h. clear h. induction resps as [|resp resps IH] using rev_ind; [done|].
  unfold beats, latest in *. rewrite !foldl_app. cbn [foldl].
  set (h := foldl _ (OnSuccessors _) resps) in *. set (last := foldl _ [] resps) in *.
  destruct IH as (E1 & E2 & E3 & E4 & E5 & E6). rewrite List.forallb_app. cbn [forallb].
  destruct resp as [relays|]; cbn [beat no_peers].
  2: { rewrite !andb_true_r. split_and!; done. }
  rewrite E1, E2, E4, !andb_true_r. set (next := Fleet.Successors id region relays).
  destruct (forallb (no_peers id region) resps) eqn:Eq; simpl.
  - rewrite E6 by done. case_decide as Hd; [rewrite bool_decide_true by done|rewrite bool_decide_false by done]; simpl.
    + split_and!; try done. rewrite E4, Hd. by apply E6.
    + split_and!; try done. rewrite held_app, E3. by apply held_seq; lia.
  - case_decide as Hd; simpl; split_and!; try done; [congruence..|]. rewrite held_app, E3. by apply held_seq; lia.
Qed.

End Properties.

(** ** Examples *)

Definition demo_pki : pki :=
  mkPKI (fun c k => String.eqb c "r.crt" && String.eqb k "r.key") (fun p => if String.eqb p "ca.crt" then Some "PEM" else None)
    (fun pem => negb (String.eqb pem "")).
Definition demo_flags : Flags :=
  mkFlags "0.0.0.0:7443" "" "0.0.0.0:9443" "r.crt" "r.key" "ca.crt" "ctl:7444" true "r1" "kr" "r1:7443" 0 true "" (10 * Second)
    "acme" "" "" false.
Definition demo_startup : startup :=
  mkStartup demo_pki true (Some [mkRelay "r1" "kr" "r1:7443"; mkRelay "r2" "kr" "r2:7443"]) true true 5 true
    [AcceptConn 1; AcceptErr true].

Definition demo_main : list boot_act * boot_end := @main merge_SortFunc demo_flags demo_startup.

Lemma main_spec_witness :
  (demo_main.2 = Exit 2 <-> fl_showVersion demo_flags = false /\
     (fl_certPath demo_flags = "" \/ fl_keyPath demo_flags = "" \/ fl_caPath demo_flags = "")) /\
  (demo_main.2 = Exit 0 <-> fl_showVersion demo_flags = true \/
     (BServe ∈ demo_main.1 /\ (Run (su_listen demo_startup) (su_accepts demo_startup)).2 = Some RunNil)) /\
  (BServe ∈ demo_main.1 -> exists tls creds fleet pre post,
    loadServerTLS (su_pki demo_startup) (fl_certPath demo_flags) (fl_keyPath demo_flags) (fl_caPath demo_flags) = inr tls /\
    su_upsert demo_startup = Some fleet /\
    demo_main.1 = BDialController creds :: BUpsert (boot_id demo_flags) (fl_region demo_flags) (boot_endpoint demo_flags) :: pre ++
      [BNewServer (boot_server demo_flags (su_now demo_startup));
       BSetSuccessors (@Fleet.Successors merge_SortFunc (boot_id demo_flags) (fl_region demo_flags) fleet);
       BHeartbeat (OnSuccessors (NewHeartbeat (boot_id demo_flags) (fl_region demo_flags) (boot_endpoint demo_flags)
         (fl_heartbeat demo_flags)))] ++ post /\
    BServe ∉ pre /\
    (BWatchPolicy (fl_policyTenant demo_flags) ∈ pre <-> fl_policyTenant demo_flags <> "") /\
    (is_Some (sv_policy (boot_server demo_flags (su_now demo_startup))) <-> fl_policyTenant demo_flags <> "") /\
    (is_Some (sv_forward (boot_server demo_flags (su_now demo_startup))) <-> fl_listenForward demo_flags <> "") /\
    BSignals (fl_drainOnSignal demo_flags) (drain_defaults demo_flags) ∈ post /\
    (demo_main.2 = Exit 0 -> BClosePool ∈ post /\ BCloseController ∈ post)).
Proof. apply (main_spec demo_flags demo_startup). reflexivity. Defined.

Lemma tls_trust_witness :
  let c := mkTLS (Some ("r.crt", "r.key")) (Some "PEM") RequireAndVerifyClientCert None "" VersionTLS13 None in
  (exists caPEM, pk_ReadFile demo_pki "ca.crt" = Some caPEM /\ pk_CertsFromPEM demo_pki caPEM = true /\
     tc_ClientCAs c = Some caPEM /\ tc_ClientAuth c = RequireAndVerifyClientCert /\ tc_MinVersion c = VersionTLS13 /\
     tc_RootCAs (intraTLS c) = Some caPEM /\ tc_Certificates (intraTLS c) = tc_Certificates c /\
     tc_MinVersion (intraTLS c) = VersionTLS13 /\
     match CredTLS (client_of c) with
     | CredInsecure => true = false
     | CredTLS d => true = true /\ tc_RootCAs d = Some caPEM /\ tc_Certificates d = Some ("r.crt", "r.key") /\
         tc_MinVersion d = VersionTLS13
     end) /\
  (exists verify, tc_VerifyConnection (intraTLS c) = Some verify /\
     forall chains, verify chains = true ->
       exists leaf issuers others u, chains = (leaf :: issuers) :: others /\ Some u ∈ leaf /\
         u_Scheme u = "outrelay" /\ HasPrefix (u_Path u) "/relay/" = true /\ (7 < String.length (u_Path u))%nat).
Proof. intros c. by apply (tls_trust demo_pki "r.crt" "r.key" "ca.crt" c true (CredTLS (client_of c))). Defined.

(** The only peer leaves before the heartbeat has seen it: the server goes on naming
    it to its agents. *)
Example stale_seed :
  let seed := @Fleet.Successors merge_SortFunc "r1" "kr" [mkRelay "r1" "kr" "r1:7443"; mkRelay "r2" "kr" "r2:7443"] in
  let resps := [Some [mkRelay "r1" "kr" "r1:7443"]; Some [mkRelay "r1" "kr" "r1:7443"]] in
  let h := @beats merge_SortFunc resps (OnSuccessors (NewHeartbeat "r1" "kr" "r1:7443" 0)) in
  held 0 seed (hb_calls h) = ["r2:7443"] /\ @latest merge_SortFunc "r1" "kr" resps = [].
Proof. split; vm_compute; reflexivity. Qed.
