(* ===== verification/Control.v ===== *)
(** * Control: the control loop of an agent connection ([pkg/edge/edge.go])

    [controlLoop] and the handlers of the frames it dispatches: REGISTER, PING,
    OBSERVED_ADDR_QUERY, candidate and checkpoint forwarding, MIGRATE_TO_P2P,
    FORWARD_REGISTER and FORWARD_RESUME; and the watchdog of streams whose policy
    requires promotion ([enforceRequiredPromotion]), which MIGRATE_TO_P2P disarms.
    A frame is handled in one step: no handler changes more than one table.  For
    FORWARD_RESUME the step includes the start of [driveForwardResume], up to its
    wait on the matcher. *)

From S2P Require Import Prelude GoStrings GoNet ForwardPlane ForwardTypes ForwardCtrl EdgeTables ResumeMatcher Registry ServerState.

Definition RequiredPromotionTimeout : Duration := 10 * Second.

(** Frames an agent sends on its control stream; the payload of a forwarded frame
    is opaque to the relay. *)
Inductive ctrl_msg :=
  | MRegister (serviceName localAddr : string)
  | MPing
  | MObservedAddrQuery (requestID : Z)
  | MCandidateOffer (sid : Z) (raw : bytes)
  | MCandidateAnswer (sid : Z) (raw : bytes)
  | MStreamCheckpoint (sid : Z) (raw : bytes)
  | MMigrateToP2P (sid : Z)
  | MForwardResume (sid myPos ackPos : Z)
  | MForwardRegister (allocID : Z) (nonce : bytes)
  | MMalformed          (** a known type whose payload does not unmarshal *)
  | MUnexpected.

(** The id is a [uint32] on the wire. *)
Definition ctrl_typed (m : ctrl_msg) : Prop :=
  match m with MForwardRegister allocID _ => is_u32 allocID | _ => True end.

(** What the relay writes to control streams, or does to the link. *)
Inductive ctrl_act :=
  | ORegisterAck (to : nat) (serviceID : string)
  | OPong (to : nat)
  | OObservedAddr (to : nat) (requestID : Z) (ip : string) (port : Z)
  | ORaw (to : nat) (raw : bytes)
  | OFrame (to : nat) (f : ctrl_frame)
  | OCloseLink (c : nat).

Section Control.
Context {ID : Identity}.
Context (ask : RegisterServiceRequest -> option string).

(** The agent connection the loop belongs to: its number, the URI of its
    certificate, its remote address as text. *)
Context (ac : nat) (uri : string) (remote : string).

(** The common body of [forwardCandidate] and [forwardCheckpoint]. *)
Definition forward_frame (sid : Z) (raw : bytes) (s : Server) : list ctrl_act :=
  let peerURI := peerOf sid uri (sv_pairs s) in
  if String.eqb peerURI "" then []
  else
    match LookupAgent peerURI (sv_reg s) with
    | None => []
    | Some peer => [ORaw peer raw]
    end.

Definition handleRegister (serviceName localAddr : string) (s : Server) : list ctrl_act :=
  match RegisterService ask uri serviceName localAddr (sv_reg s) with
  | None => [OCloseLink ac]
  | Some id => [ORegisterAck ac id]
  end.

Definition handleObservedAddrQuery (requestID : Z) : list ctrl_act :=
  match splitAddr remote with
  | None => []
  | Some (host, port) => [OObservedAddr ac requestID host (u32 port)]
  end.

Definition handleMigrateToP2P (sid : Z) (s : Server) : Server :=
  let pair := default (mkPair "" "") (sv_pairs s !! sid) in
  let pair :=
    if String.eqb (consumerURI pair) "" then mkPair uri (providerURI pair)
    else if String.eqb (providerURI pair) "" then mkPair (consumerURI pair) uri
    else pair in
  let rs := sv_rs s in
  count_metric streamMigratedP2P 1
    (set_rs (mkR (r_now rs) (r_pending rs) (r_halves rs) (r_next rs) (r_pairs rs)
       (Note (mkMigrated sid (consumerURI pair) (providerURI pair) 0) (r_now rs) (r_now rs) (r_migrated rs))) s).

(** [handleForwardResume], and [driveForwardResume] up to its receive. *)
Definition handleForwardResume (sid myPos ackPos : Z) (s : Server) : exec Server :=
  match sv_forward s with
  | None => Ret s
  | Some p =>
      match forward_resume_arrives sid ac uri myPos ackPos (fs_of p s) with
      | Ret f => Ret (put_fs f s)
      | Panic m => Panic m
      | Blocked => Blocked
      | OutOfFuel => OutOfFuel
      end
  end.

(** One turn of [controlLoop]. *)
Definition control_step (m : ctrl_msg) (s : Server) : exec (Server * list ctrl_act) :=
  match m with
  | MRegister serviceName localAddr => Ret (s, handleRegister serviceName localAddr s)
  | MPing => Ret (s, [OPong ac])
  | MObservedAddrQuery requestID => Ret (s, handleObservedAddrQuery requestID)
  | MCandidateOffer sid raw | MCandidateAnswer sid raw | MStreamCheckpoint sid raw =>
      Ret (s, forward_frame sid raw s)
  | MMigrateToP2P sid => Ret (handleMigrateToP2P sid s, [])
  | MForwardResume sid myPos ackPos =>
      match handleForwardResume sid myPos ackPos s with
      | Ret s' => Ret (s', [])
      | Panic m => Panic m
      | Blocked => Blocked
      | OutOfFuel => OutOfFuel
      end
  | MForwardRegister allocID nonce =>
      let '(fw, frames) := handleForwardRegister uri allocID nonce (sv_now s) (sv_forward s) in
      Ret (set_forward fw s, OFrame ac <$> frames)
  | MMalformed | MUnexpected => Ret (s, [])
  end.

(** What one turn finds: what the rest of the relay did meanwhile, the frame, or
    [None] if reading it fails, and whether the context is done after it. *)
Record ctrl_input := mkInput { ci_others : Server -> Server; ci_frame : option ctrl_msg; ci_done : bool }.

(** The flag says whether the loop has returned; if not, it waits for a frame. *)
Fixpoint controlLoop (inputs : list ctrl_input) (s : Server) : exec (Server * list ctrl_act * bool) :=
  match inputs with
  | [] => Ret (s, [], false)
  | mkInput others frame done :: inputs' =>
      let s := others s in
      match frame with
      | None => Ret (s, [], true)
      | Some m =>
          match control_step m s with
          | Ret (s', out) =>
              if done : bool then Ret (s', out, true)
              else
                match controlLoop inputs' s' with
                | Ret (s'', out', e) => Ret (s'', out ++ out', e)
                | Panic m => Panic m
                | Blocked => Blocked
                | OutOfFuel => OutOfFuel
                end
          | Panic m => Panic m
          | Blocked => Blocked
          | OutOfFuel => OutOfFuel
          end
      end
  end.

End Control.

(** ** The promotion watchdog *)

(** What wakes [enforceRequiredPromotion]: the end of the stream, a tick with the
    clock and the migrated streams at that moment, the deadline. *)
Inductive watch_wake :=
  | WDone
  | WTick (now : Time) (migrated : gmap Z migratedStream)
  | WDeadline.

Inductive watch_end := StreamEnded | Promoted | ClosedStream.

(** [None]: still watching. *)
Fixpoint enforceRequiredPromotion (sid : Z) (wakes : list watch_wake) : option watch_end :=
  match wakes with
  | [] => None
  | WDone :: _ => Some StreamEnded
  | WDeadline :: _ => Some ClosedStream
  | WTick now migrated :: wakes' =>
      match (LookupMigrated sid now migrated).1 with
      | Some _ => Some Promoted
      | None => enforceRequiredPromotion sid wakes'
      end
  end.

(** ** Lemmas *)

Lemma Note_lookup m now l :
  Note m now now l !! ms_id m = Some (mkMigrated (ms_id m) (ms_consumerURI m) (ms_providerURI m) now).
Proof.
  unfold Note, gcLocked. apply map_lookup_filter_Some. simpl. rewrite lookup_insert_eq.
  split; [done|]. unfold MigrationTTL, Second, Millisecond. lia.
Qed.

(** A frame passed on goes to the other end of its stream. *)
Lemma forward_frame_spec uri sid raw s to raw' :
  ORaw to raw' ∈ forward_frame uri sid raw s ->
  exists pair, raw' = raw /\ sv_pairs s !! sid = Some pair /\ forward_frame uri sid raw s = [ORaw to raw] /\
    ((uri = consumerURI pair /\ LookupAgent (providerURI pair) (sv_reg s) = Some to) \/
     (uri = providerURI pair /\ LookupAgent (consumerURI pair) (sv_reg s) = Some to)).
Proof.
  unfold forward_frame, peerOf. destruct (sv_pairs s !! sid) as [pair|]; [|set_solver].
  destruct (String.eqb_spec uri (consumerURI pair)) as [E|_];
    [|destruct (String.eqb_spec uri (providerURI pair)) as [E|_]; [|simpl; set_solver]];
    (destruct (String.eqb _ ""); [set_solver|]; destruct (LookupAgent _ _) as [c|] eqn:?; [|set_solver];
     intros [= -> ->]%list_elem_of_singleton; exists pair; split_and!; auto).
Qed.

Lemma handleForwardResume_tables ac uri sid mp ap s s' :
  handleForwardResume ac uri sid mp ap s = Ret s' -> sv_pairs s' = sv_pairs s /\ sv_reg s' = sv_reg s.
Proof.
  unfold handleForwardResume. destruct (sv_forward s); [|by intros [= <-]].
  destruct (forward_resume_arrives _ _ _ _ _ _); try done. by intros [= <-].
Qed.

(** What a control frame can do to the relay: nothing, note a stream as migrated,
    submit a half to the forward matcher, or arm a nonce in the plane. *)
Lemma control_step_cases {ID : Identity} ask ac uri remote m s s' out :
  control_step ask ac uri remote m s = Ret (s', out) ->
  s' = s \/
  (exists x rs, rexec (sv_rs s) (EvNote x) = Some (Ret rs) /\ s' = count_metric streamMigratedP2P 1 (set_rs rs s)) \/
  (exists p f sid myPos ackPos, sv_forward s = Some p /\
     forward_resume_arrives sid ac uri myPos ackPos (fs_of p s) = Ret f /\ s' = put_fs f s) \/
  (exists p id nonce, sv_forward s = Some p /\
     m = MForwardRegister id nonce /\ length nonce = PunchNonceSize /\
     s' = set_forward (Some (plane_exec p (PArm id uri nonce (sv_now s)))) s).
Proof.
  destruct m; simpl; intros Hs; try (injection Hs as <- _; by left).
  - injection Hs as <- _. right. left. eexists _, _. split; reflexivity.
  - unfold handleForwardResume in Hs. destruct (sv_forward s) as [p|] eqn:Ep; [|injection Hs as <- _; by left].
    destruct (forward_resume_arrives _ _ _ _ _ _) as [f| | |] eqn:Ef; try done. injection Hs as <- _.
    right. right. left. exists p, f. eauto 6.
  - unfold handleForwardRegister in Hs. destruct (sv_forward s) as [p|] eqn:Ep.
    2: { injection Hs as <- _. left. by rewrite <- Ep, set_forward_id. }
    destruct (Nat.eqb_spec (length nonce) PunchNonceSize) as [Hl|]; simpl in Hs.
    2: { injection Hs as <- _. left. by rewrite <- Ep, set_forward_id. }
    right. right. right. exists p, allocID, nonce. split_and!; [done..|]. simpl.
    destruct (ArmPending allocID uri nonce (sv_now s) p) as [[[]|] p']; by injection Hs as <- _.
Qed.

(** ** The loop *)

(** The FORWARD_RESUME matcher is in order, if there is one. *)
Definition fm_ok (s : Server) : Prop := forall p, sv_forward s = Some p -> finv (fs_of p s).

Definition is_ping (m : ctrl_msg) : bool := match m with MPing => true | _ => false end.
Definition is_pong (a : ctrl_act) : bool := match a with OPong _ => true | _ => false end.

(** The frames a loop gets to, and whether it has ended. *)
Fixpoint handled (inputs : list ctrl_input) : list ctrl_msg * bool :=
  match inputs with
  | [] => ([], false)
  | mkInput _ None _ :: _ => ([], true)
  | mkInput _ (Some m) true :: _ => ([m], true)
  | mkInput _ (Some m) false :: inputs' => let '(ms, e) := handled inputs' in (m :: ms, e)
  end.

Lemma control_step_total {ID : Identity} ask ac uri remote m s : uri <> "" -> fm_ok s ->
  exists s' out, control_step ask ac uri remote m s = Ret (s', out) /\ fm_ok s' /\
    length (List.filter is_pong out) = (if is_ping m then 1 else 0)%nat.
Proof.
  intros Hu Hs. destruct m; simpl; try (by eexists _, _).
  - eexists _, _. split; [done|]. split; [done|]. unfold handleRegister. by destruct (RegisterService _ _ _ _ _).
  - eexists _, _. split; [done|]. split; [done|]. unfold handleObservedAddrQuery. by destruct (splitAddr remote) as [[]|].
  - eexists _, _. split; [done|]. split; [done|]. unfold forward_frame. repeat case_match; done.
  - eexists _, _. split; [done|]. split; [done|]. unfold forward_frame. repeat case_match; done.
  - eexists _, _. split; [done|]. split; [done|]. unfold forward_frame. repeat case_match; done.
  - unfold handleForwardResume. destruct (sv_forward s) as [p|] eqn:Ep; [|by exists s, []].
    destruct (fexec_ok "" (fs_of p s) (FResume sid ac uri myPos ackPos) _ (Hs p Ep) Hu eq_refl) as (f & Hf & Hi).
    rewrite Hf. eexists _, _. split; [done|]. split; [|done]. intros q [= <-]. rewrite fs_of_put; [done|].
    by apply (fexec_now "" (fs_of p s) (FResume sid ac uri myPos ackPos)); [|simpl; rewrite Hf].
  - unfold handleForwardRegister. destruct (sv_forward s) as [p|] eqn:Ep.
    2: { eexists _, _. split; [done|]. split; [|done]. by intros q. }
    destruct (negb _); [eexists _, _; split; [done|]; split; [intros q [= <-]; by apply Hs|done]|].
    destruct (fexec_ok "" (fs_of p s) (FPlane (PArm allocID uri nonce (sv_now s))) _ (Hs p Ep) I eq_refl)
      as (f & [= <-] & Hi).
    simpl in Hi. destruct (ArmPending allocID uri nonce (sv_now s) p) as [[[]|] p'];
      (eexists _, _; split; [done|]; split; [by intros q [= <-]|done]).
Qed.

(** ** Properties *)


(** Control frames reach exactly the other end of their stream.  A candidate
    or checkpoint frame an agent sends is passed on unchanged to one connection at
    most: the one the directory gives for the agent at the other end of the pair
    recorded for that stream.  A frame for a stream the sender is not part of, or
    whose other end is not connected, goes nowhere; no control frame changes the
    pair table or the directory; and a REGISTER that fails closes the link instead
    of leaving the agent waiting. *)
Theorem control_routing {ID : Identity} ask ac uri remote m s s' out :
  control_step ask ac uri remote m s = Ret (s', out) ->
  sv_pairs s' = sv_pairs s /\ sv_reg s' = sv_reg s /\
  (forall to raw, ORaw to raw ∈ out ->
     exists sid pair, (m = MCandidateOffer sid raw \/ m = MCandidateAnswer sid raw \/ m = MStreamCheckpoint sid raw) /\
       sv_pairs s !! sid = Some pair /\ out = [ORaw to raw] /\
       ((uri = consumerURI pair /\ LookupAgent (providerURI pair) (sv_reg s) = Some to) \/
        (uri = providerURI pair /\ LookupAgent (consumerURI pair) (sv_reg s) = Some to))) /\
  (forall serviceName localAddr, m = MRegister serviceName localAddr ->
     (exists id, out = [ORegisterAck ac id]) \/ out = [OCloseLink ac]).
Proof.
  intros Hs. assert (sv_pairs s' = sv_pairs s /\ sv_reg s' = sv_reg s) as [-> ->].
  { destruct m; simpl in Hs; try (by simplify_eq).
    - destruct (handleForwardResume _ _ _ _ _ _) eqn:E; simplify_eq. by eapply handleForwardResume_tables.
    - destruct (handleForwardRegister _ _ _ _ _); by simplify_eq. }
  split_and!; [done..| |].
  - intros to raw Hin. destruct m; simpl in Hs; try (injection Hs as <- <-);
      try (apply forward_frame_spec in Hin as (pair & -> & ? & ? & ?); by eauto 8).
    all: unfold handleRegister, handleObservedAddrQuery in *; repeat case_match; simplify_eq;
      try (apply list_elem_of_fmap in Hin as (? & ? & _); done); set_solver.
  - intros sn la ->. simpl in Hs. injection Hs as <- <-. unfold handleRegister.
    destruct (RegisterService _ _ _ _ _); eauto.
Qed.

Definition demo_ctrl : Server :=
  set_pairs {[7 := mkPair "c" "p"]}
    (New (mkRegistry "r1" "kr" (<["c" := 1%nat]> (<["p" := 2%nat]> ∅))) None None None None None false 5).

Lemma control_routing_witness :
  sv_pairs demo_ctrl = sv_pairs demo_ctrl /\ sv_reg demo_ctrl = sv_reg demo_ctrl /\
  (forall to raw, ORaw to raw ∈ [ORaw 2 [1; 2]] ->
     exists sid pair, (MCandidateOffer 7 [1; 2] = MCandidateOffer sid raw \/
         MCandidateOffer 7 [1; 2] = MCandidateAnswer sid raw \/ MCandidateOffer 7 [1; 2] = MStreamCheckpoint sid raw) /\
       sv_pairs demo_ctrl !! sid = Some pair /\ [ORaw 2 [1; 2]] = [ORaw to raw] /\
       (("c" = consumerURI pair /\ LookupAgent (providerURI pair) (sv_reg demo_ctrl) = Some to) \/
        ("c" = providerURI pair /\ LookupAgent (consumerURI pair) (sv_reg demo_ctrl) = Some to))) /\
  (forall serviceName localAddr, MCandidateOffer 7 [1; 2] = MRegister serviceName localAddr ->
     (exists id, [ORaw 2 [1; 2]] = [ORegisterAck 1 id]) \/ [ORaw 2 [1; 2]] = [OCloseLink 1]).
Proof.
  apply (@control_routing demo_identity (fun _ => None) 1 "c" "10.0.0.1:4000" (MCandidateOffer 7 [1; 2])).
  vm_compute. reflexivity.
Defined.


(** C38: an agent learns the address the relay sees it under.  Whatever the remote
    address of its connection, printed as the library prints it, an
    OBSERVED_ADDR_QUERY is answered with exactly that host and port, no bit of the
    port lost, and the request's own id; an address that does not split is answered
    with nothing.  Neither changes the relay. *)
Theorem observed_addr_reply {ID : Identity} ask ac uri remote requestID s :
  (forall host port, host_ok host -> 0 <= port < 2 ^ 16 -> remote = JoinHostPort host (Itoa port) ->
     control_step ask ac uri remote (MObservedAddrQuery requestID) s = Ret (s, [OObservedAddr ac requestID host port])) /\
  (splitAddr remote = None -> control_step ask ac uri remote (MObservedAddrQuery requestID) s = Ret (s, [])).
Proof.
  simpl. unfold handleObservedAddrQuery. split; [|by intros ->]. intros host port Hh Hp ->.
  rewrite splitAddr_join by (done || lia). by rewrite u32_small by lia.
Qed.

Lemma observed_addr_reply_witness :
  @control_step demo_identity (fun _ => None) 1 "c" "[2001:db8::1]:4433" (MObservedAddrQuery 9) demo_ctrl =
    Ret (demo_ctrl, [OObservedAddr 1 9 "2001:db8::1" 4433]) /\
  @control_step demo_identity (fun _ => None) 1 "c" "nowhere" (MObservedAddrQuery 9) demo_ctrl = Ret (demo_ctrl, []).
Proof.
  split.
  - apply (proj1 (@observed_addr_reply demo_identity (fun _ => None) 1 "c" "[2001:db8::1]:4433" 9 demo_ctrl));
      vm_compute; auto. split; congruence.
  - apply (proj2 (@observed_addr_reply demo_identity (fun _ => None) 1 "c" "nowhere" 9 demo_ctrl)). reflexivity.
Defined.

(** A stream that must be promoted is cut at the deadline unless some agent
    says it was.  The watchdog closes the stream iff the deadline comes before the
    stream ends and before a tick at which the stream is among the migrated ones;
    but any agent's MIGRATE_TO_P2P puts it there, one that is not part of the
    stream included: the handler checks neither the sender nor that the stream
    exists, so the next tick disarms the watchdog. *)
Theorem required_promotion uri sid :
  (forall wakes, enforceRequiredPromotion sid wakes = Some ClosedStream <->
     exists pre post, wakes = pre ++ WDeadline :: post /\
       Forall (fun k => exists t l, k = WTick t l /\ (LookupMigrated sid t l).1 = None) pre) /\
  (forall tick s rest, sv_now s <= tick < sv_now s + MigrationTTL ->
     enforceRequiredPromotion sid (WTick tick (sv_migrated (handleMigrateToP2P uri sid s)) :: rest) =
       Some Promoted).
Proof.
  split.
  - intros wakes. split.
    + induction wakes as [|[|t l|] wakes IH]; simpl; try done.
      * destruct (LookupMigrated sid t l).1 eqn:E; [done|]. intros (pre & post & -> & Hp)%IH.
        exists (WTick t l :: pre), post. split; [done|]. constructor; [eauto|done].
      * intros _. by exists [], wakes.
    + intros (pre & post & -> & Hp). induction Hp as [|k pre (t & l & -> & E) _ IH]; simpl; [done|]. by rewrite E.
  - intros tick s rest Ht. cbn [enforceRequiredPromotion].
    set (pair := let pair := default (mkPair "" "") (sv_pairs s !! sid) in
      if String.eqb (consumerURI pair) "" then mkPair uri (providerURI pair)
      else if String.eqb (providerURI pair) "" then mkPair (consumerURI pair) uri else pair).
    assert (sv_migrated (handleMigrateToP2P uri sid s) =
      Note (mkMigrated sid (consumerURI pair) (providerURI pair) 0) (sv_now s) (sv_now s) (sv_migrated s)) as -> by done.
    unfold LookupMigrated.
    pose proof (Note_lookup (mkMigrated sid (consumerURI pair) (providerURI pair) 0) (sv_now s) (sv_migrated s)) as Hn.
    cbn [ms_id] in Hn. rewrite Hn. simpl. destruct (Z.leb_spec MigrationTTL (tick - sv_now s)); [lia|done].
Qed.
