(* ===== verification/Relay.v ===== *)
(** * Relay: the goroutines of a relay, together

    The relay as one system: the stream handlers, the streams of peer relays, the
    policy watcher and drains as goroutines over the shared [Server], and next to them the
    rest of the process (connections coming and going, control frames, packets, the
    collector, timers, the audit shipper, the heartbeat) as moves of the
    environment.  Every interleaving of these is a run.

    The invariant [relay_ok] says that every component is in a state its own
    development reaches, so the theorems of the components hold inside the relay. *)

From S2P Require Import Prelude Threads GoNet PolicyMatcher PolicyCache PolicyWatch ForwardPlane ForwardInv ForwardTypes ForwardCtrl.
From S2P Require Import EdgeTables ResumeMatcher Registry AuditQueue Intra ServerState OpenStream OpenSpec WatchLoop DrainLoop.
From S2P Require Import OpenProps Daemon Control.

(** ** Goroutines *)

Inductive goroutine :=
  | GStream (an : answers) (caller : nat)
  | GForwarded (an : answers) (src : string) (o : OpenStream) (ok : bool)
  | GWatcher (attempts : list attempt)
  | GDrain (d : drain_call).

(** A goroutine that may have to wait for others: a resumed stream for its peer,
    the watcher for the controller, a drain without a timer for the agents. *)
Definition waits (g : goroutine) : bool :=
  match g with
  | GStream an _ => may_wait an
  | GForwarded _ _ _ _ => false
  | GWatcher _ => true
  | GDrain d => negb (timed d)
  end.

Section Relay.
Context {ID : Identity} `{PBEnums}.
(** The cache's iteration order, the controller, the connections' certificates and
    addresses, the plane's endpoint. *)
Context (order : gmap cacheKey cacheEntry -> list cacheKey).
Context (ask : ResolveRequest -> option (list ProviderInfo)).
Context (askRegister : RegisterServiceRequest -> option string).
Context (uri_of remote_of : nat -> string) (endpoint : string).
(** The configuration: with a policy tenant, with a forward plane; the relay's own
    id and region; the time it starts. *)
Context (tenant forward : bool) (id region : string) (t0 : Time).

Definition relay0 : Server :=
  New (NewRegistry id region)
    (if tenant then Some NewEngine else None) (if tenant then Some NewCache else None)
    (if tenant then Some NewEmitter else None) (Some NewPool)
    (if forward then Some NewPlane else None) true t0.

(** The server [main] builds from its flags. *)
Lemma boot_is_relay0 fl now :
  tenant = negb (String.eqb (fl_policyTenant fl) "") -> forward = negb (String.eqb (fl_listenForward fl) "") ->
  id = boot_id fl -> region = fl_region fl -> t0 = now -> boot_server fl now = relay0.
Proof. unfold relay0. by intros -> -> -> -> ->. Qed.

Definition relay_config : config := mkConfig tenant forward true true.

Definition goroutine_body (g : goroutine) : M unit :=
  match g with
  | GStream an caller => handleConsumerStream order ask uri_of endpoint an caller
  | GForwarded an src o ok => handleForwardedStream ask an src o ok
  | GWatcher attempts => watch_run attempts
  | GDrain d => drain_run d
  end.

(** [serveConn] starts a handler per stream of a live connection, [servePeerRelay]
    one per stream of a peer relay; the watcher runs if there is a policy; a drain
    may start at any time. *)
Definition can_start (s : Server) (g : goroutine) : Prop :=
  match g with
  | GStream _ caller => exists uri, se_conns (sv_ss s) !! caller = Some (uri, CLive)
  | GForwarded _ _ _ _ | GDrain _ => True
  | GWatcher _ => tenant = true
  end.

(** What the watcher meets is a run of a Go map each time it ranges over one. *)
Definition inputs_ok (g : goroutine) : Prop := match g with GWatcher attempts => attempts_ok attempts | _ => True end.

Definition may_start (s : Server) (g : goroutine) : Prop := can_start s g /\ inputs_ok g.

(** What a goroutine that has ended has done. *)
Definition goroutine_post (g : goroutine) (tr : list action) : Prop :=
  match g with
  | GStream an caller => p_handler uri_of endpoint caller tenant true an tr
  | GForwarded an src o _ => p_forwarded src o tr
  | GWatcher _ => tr = []
  | GDrain d => p_drain d tr
  end.

(** ** The rest of the process *)

Inductive relay_event :=
  | RBackground (ev : revent)                (** the clock, expiry goroutines, watchdog ticks *)
  | RSession (ev : sess_event)               (** a connection comes up or is torn down *)
  | RPlane (op : plane_op)                   (** a datagram, or a tick of the collector *)
  | RControl (cn : nat) (m : ctrl_msg)       (** a frame on a control stream *)
  | RForward (ev : fevent)                   (** [driveForwardResume] and its expiry goroutine *)
  | RAudit (op : audit_op)                   (** the shipper of audit events *)
  | RSuccessors (eps : list string).         (** the heartbeat *)

(** Which events there are: certificates are the connections', arguments have the
    types of the wire. *)
Definition relay_event_ok (s : Server) (ev : relay_event) : Prop :=
  match ev with
  | RBackground ev => background ev = true
  | RSession (SConnect c certs hello ack) => forall uri, admitConn certs hello ack = Agent uri -> uri = uri_of c
  | RSession (SPlane _) => False
  | RSession _ => True
  | RPlane (PPacket buf src t t2) => plane_op_typed (PPacket buf src t t2)
  | RPlane (PGC _) => True
  | RPlane _ => False
  | RControl _ m => ctrl_typed m
  | RForward (FDrive _ successors) => successors = Successors s
  | RForward (FExpiryRecv _) | RForward (FTimer _) => True
  | RForward _ => False
  | RAudit (OEmit _) => False
  | RAudit _ => True
  | RSuccessors _ => True
  end.

(** The ids a pair of FORWARD_RESUME halves is granted show in the log. *)
Definition grant_events (f f' : fstate) : list action := (fun '(ac, x) => AAllocate (uri_of ac) x) <$> granted f f'.

(** So do the frames of a control stream that are passed on to another agent. *)
Definition relayed_events (cn : nat) (m : ctrl_msg) (out : list ctrl_act) : list action :=
  match m with
  | MCandidateOffer sid _ | MCandidateAnswer sid _ | MStreamCheckpoint sid _ =>
      omap (fun a => match a with ORaw to raw => Some (ARelayed cn to sid raw) | _ => None end) out
  | _ => []
  end.

(** The control loop of a connection starts once it is tracked, and may still be
    handling a frame while the connection is torn down. *)
Definition past_track (pc : conn_pc) : bool := match pc with CRegistered => false | _ => true end.

(** The outcome of a component's move, put back into the server. *)
Definition lift {A} (o : option (exec A)) (put : A -> list action * Server) : option (exec (list action * Server)) :=
  match o with
  | Some (Ret a) => Some (Ret (put a))
  | Some (Panic m) => Some (Panic m)
  | Some Blocked => Some Blocked
  | Some OutOfFuel => Some OutOfFuel
  | None => None
  end.

(** [None] if that move is not possible now. *)
Definition relay_exec (s : Server) (ev : relay_event) : option (exec (list action * Server)) :=
  match ev with
  | RBackground ev => lift (rexec (sv_rs s) ev) (fun rs => ([], set_rs rs s))
  | RSession ev => lift (Ret <$> sess_exec (sv_ss s) ev) (fun x => ([], set_ss x s))
  | RPlane op => lift (Ret <$> sv_forward s) (fun p => ([], set_forward (Some (plane_exec p op)) s))
  | RControl cn m =>
      match se_conns (sv_ss s) !! cn with
      | Some (uri, pc) =>
          if past_track pc
          then lift (Some (control_step askRegister cn uri (remote_of cn) m s)) (fun '(s', out) => (relayed_events cn m out, s'))
          else None
      | None => None
      end
  | RForward ev =>
      p ← sv_forward s;
      lift (fexec endpoint (fs_of p s) ev) (fun f => (grant_events (fs_of p s) f, put_fs f s))
  | RAudit op => lift (Ret <$> sv_audit s) (fun em => ([], set_audit (Some (audit_exec em op)) s))
  | RSuccessors eps => Some (Ret ([], SetSuccessors eps s))
  end.

Definition relay_env (s : Server) (es : list action) (s' : Server) : Prop :=
  exists ev, relay_event_ok s ev /\ relay_exec s ev = Some (Ret (es, s')).

Lemma lift_Some {A} (o : option (exec A)) put out : lift o put = Some out ->
  exists x, o = Some x /\ (forall r, out = Ret r <-> exists a, x = Ret a /\ put a = r).
Proof. destruct o as [[a| | |]|]; simpl; try done; intros [= <-]; eexists; (split; [done|]); naive_solver. Qed.

Lemma lift_Ret {A} (o : option (exec A)) put r : lift o put = Some (Ret r) -> exists a, o = Some (Ret a) /\ put a = r.
Proof. destruct o as [[a| | |]|]; simpl; try done. intros [= <-]. eauto. Qed.

(** ** Runs *)

(** A state of the relay with its goroutines and its log, reached from the start. *)
Definition relay_run (pl : threads Server action goroutine) : Prop :=
  preach goroutine_body may_start relay_env relay0 pl.

#[export] Instance can_start_dec s g : base.Decision (can_start s g).
Proof.
  destruct g as [an caller| | |]; simpl; [|apply _..].
  destruct (se_conns (sv_ss s) !! caller) as [[uri []]|]; [right|left|right..]; naive_solver.
Defined.

#[export] Instance relay_event_ok_dec s ev : base.Decision (relay_event_ok s ev).
Proof.
  destruct ev as [|[c certs hello ack| | | | |]|[]|cn []|[]|[]|]; unfold relay_event_ok, ctrl_typed, plane_op_typed;
    try (unfold byte_ok, is_u32; apply _).
  destruct (admitConn certs hello ack) as [| |uri]; [left; naive_solver..|].
  destruct (decide (uri = uri_of c)) as [->|]; [left|right]; naive_solver.
Defined.

(** A scheduler: one move of one goroutine, a new goroutine, or an event. *)
Inductive move :=
  | MoveThread (t : nat)
  | MoveStart (t : nat) (g : goroutine)
  | MoveEvent (ev : relay_event).

Definition move_exec (pl : threads Server action goroutine) (m : move) : option (threads Server action goroutine) :=
  match m with
  | MoveThread t =>
      match pl_threads pl !! t with
      | Some (g, Step f) =>
          match f (pl_state pl) with
          | Ret (s', es, p') => Some (mkThreads s' (<[t := (g, p')]> (pl_threads pl)) (pl_log pl ++ tag (Some t) es))
          | _ => None
          end
      | _ => None
      end
  | MoveStart t g =>
      match pl_threads pl !! t with
      | Some _ => None
      | None =>
          if decide (can_start (pl_state pl) g)
          then Some (mkThreads (pl_state pl) (<[t := (g, goroutine_body g)]> (pl_threads pl)) (pl_log pl))
          else None
      end
  | MoveEvent ev =>
      if decide (relay_event_ok (pl_state pl) ev) then
        match relay_exec (pl_state pl) ev with
        | Some (Ret (es, s')) => Some (mkThreads s' (pl_threads pl) (pl_log pl ++ tag None es))
        | _ => None
        end
      else None
  end.

Fixpoint play (ms : list move) (pl : threads Server action goroutine) : option (threads Server action goroutine) :=
  match ms with
  | [] => Some pl
  | m :: ms' => match move_exec pl m with Some pl' => play ms' pl' | None => None end
  end.

Definition move_ok (m : move) : Prop := match m with MoveStart _ g => inputs_ok g | _ => True end.

Lemma move_exec_step pl m pl' : move_ok m -> move_exec pl m = Some pl' -> pstep goroutine_body may_start relay_env pl pl'.
Proof.
  destruct m as [t|t g|ev]; simpl; intros Hm.
  - destruct (pl_threads pl !! t) as [[g [|f]]|] eqn:Hl; try done.
    destruct (f (pl_state pl)) as [[[s' es] p']| | |] eqn:Hf; try done. intros [= <-]. by eapply ps_thread.
  - destruct (pl_threads pl !! t) eqn:Hl; [done|]. case_decide; [|done]. intros [= <-]. by apply ps_spawn.
  - case_decide; [|done]. destruct (relay_exec (pl_state pl) ev) as [[[es s']| | |]|] eqn:Hx; try done.
    intros [= <-]. apply ps_env. by exists ev.
Qed.

Lemma play_reach ms pl : Forall move_ok ms -> relay_run pl -> is_Some (play ms pl) -> relay_run (default pl (play ms pl)).
Proof.
  assert (H1 : forall ms pl pl', Forall move_ok ms -> relay_run pl -> play ms pl = Some pl' -> relay_run pl').
  { clear. intros ms pl pl' Hms. revert pl. induction Hms as [|m ms Hok _ IH]; intros pl Hpl; simpl; [by intros [= <-]|].
    destruct (move_exec pl m) as [pl1|] eqn:Hm; [|done]. apply IH. eapply pr_next; [done|]. by eapply move_exec_step. }
  intros Hms Hpl [pl' E]. rewrite E. simpl. by eapply H1.
Qed.

(** ** The invariant *)

Record relay_ok (s : Server) : Prop := {
  ro_srv : srv_ok relay_config s;
  ro_resume : rreach t0 (sv_rs s);
  ro_sessions : sess_reach (NewRegistry id region) (if forward then Some NewPlane else None) (sv_ss s);
  ro_forward : forall p, sv_forward s = Some p -> freach endpoint t0 (fs_of p s);
  ro_cache : forall x, sv_cache s = Some x ->
    exists ops, Forall cache_op_ok ops /\ x = foldl cache_exec NewCache ops;
  ro_audit : forall em, sv_audit s = Some em -> exists ops, em = audit_run ops;
  ro_pool : forall p, sv_pool s = Some p -> pool_inv p;
  ro_engine : forall e, sv_policy s = Some e -> engine_ok (sv_received s) e
}.

Hypothesis uri_ok : forall n, uri_of n <> "".
Hypothesis order_ok : key_order_ok order.

Lemma relay0_ok : relay_ok relay0.
Proof.
  unfold relay0. split.
  - split; unfold sv_forward; simpl; try done.
    + by destruct tenant.
    + by destruct forward.
    + destruct forward; [|done]. intros p [= <-]. done.
    + set_solver.
    + destruct tenant; [|done]. intros x k ce [= <-]. unfold NewCache. cbn [c_m]. by rewrite lookup_empty.
  - constructor.
  - by constructor.
  - unfold sv_forward. simpl. destruct forward; [|done]. intros p [= <-]. by constructor.
  - simpl. destruct tenant; [|done]. intros x [= <-]. by exists [].
  - simpl. destruct tenant; [|done]. intros em [= <-]. by exists [].
  - intros p [= <-]. split; simpl; intros *; rewrite ?lookup_empty; [|done..]. set_solver.
  - simpl. destruct tenant; [|done]. intros e [= <-]. split; [apply engine_reach_inv, er_new|].
    intros k r. unfold NewEngine. simpl. by rewrite lookup_empty.
Qed.

(** Moves of the plane. *)
Lemma freach_plane p s ops : freach endpoint t0 (fs_of p s) -> freach endpoint t0 (fs_of (foldl plane_exec p ops) s).
Proof.
  revert p. induction ops as [|op ops IH]; intros p Hp; simpl; [done|]. apply IH.
  by apply (fr_step endpoint t0 (fs_of p s) _ (FPlane op)).
Qed.

Lemma sess_reach_plane r fw x ops : sess_reach r fw x -> sess_reach r fw (with_plane ops x).
Proof.
  revert x. induction ops as [|op ops IH]; intros x Hx; [by rewrite with_plane_nil|].
  assert (with_plane (op :: ops) x = with_plane ops (with_plane [op] x)) as ->
    by (unfold with_plane; simpl; by destruct (se_forward x)).
  apply IH. by apply (sr_step r fw x _ (SPlane op)).
Qed.

Lemma relay_ok_plane s p ops : relay_ok s -> sv_forward s = Some p ->
  relay_ok (set_forward (Some (foldl plane_exec p ops)) s).
Proof.
  intros [[H1 H2 H3 H4 H5 H6 H7 H8] Hr Hs Hf Hc Ha Hp He] Ep. split; try done.
  - split; try done; simpl.
    + by rewrite Ep in H2.
    + intros q [= <-]. specialize (H5 p Ep). clear -H5. revert p H5.
      induction ops as [|op ops IH]; simpl; [done|]. intros p Hp. by apply IH, plane_exec_range.
  - assert (sv_ss (set_forward (Some (foldl plane_exec p ops)) s) = with_plane ops (sv_ss s)) as ->;
      [|by apply sess_reach_plane]. unfold with_plane. unfold sv_forward in Ep. by rewrite Ep.
  - intros q [= <-]. apply (freach_plane p s). by apply Hf.
Qed.

(** Moves of the resume matcher. *)
Lemma relay_ok_rs s ev rs : relay_ok s -> rexec (sv_rs s) ev = Some (Ret rs) -> relay_ok (set_rs rs s).
Proof.
  intros [[H1 H2 H3 H4 H5 H6 H7 H8] Hr Hs Hf Hc Ha Hp He] Hx.
  pose proof (rexec_clock _ _ _ Hx) as Hn.
  split; try done.
  - split; try done; simpl.
    + by destruct (rexec_ok _ _ _ H6 Hx) as (? & [= <-] & ?).
    + intros k r t e Hk. destruct (H7 k r t e Hk). unfold sv_now in *. simpl. split; [done|lia].
    + intros x k ce Ex Hce. destruct (H8 x k ce Ex Hce) as (t & e & ? & ?). exists t, e. unfold sv_now in *. simpl.
      split; [done|lia].
  - by eapply rr_step.
  - intros p Ep. specialize (Hf p Ep). apply (fr_step endpoint t0 (fs_of p s) _ (FClock (r_now rs))); [done..|].
    simpl. unfold sv_now. destruct (Z.leb_spec (r_now (sv_rs s)) (r_now rs)); [done|lia].
Qed.

Lemma relay_ok_same s s' :
  srv_ok relay_config s' -> sv_rs s' = sv_rs s -> sv_ss s' = sv_ss s -> sv_fm s' = sv_fm s ->
  sv_cache s' = sv_cache s -> sv_audit s' = sv_audit s -> sv_pool s' = sv_pool s ->
  (forall e, sv_policy s' = Some e -> engine_ok (sv_received s') e) -> relay_ok s -> relay_ok s'.
Proof.
  intros Hs E1 E2 E3 E4 E5 E6 He [_ Hr Hss Hf Hc Ha Hp _].
  split; try done; unfold sv_forward, fs_of, sv_now in *; by rewrite ?E1, ?E2, ?E3, ?E4, ?E5, ?E6.
Qed.

Lemma relay_ok_cache s x op :
  srv_ok relay_config (set_cache (Some (cache_exec x op)) s) -> cache_op_ok op -> sv_cache s = Some x -> relay_ok s ->
  relay_ok (set_cache (Some (cache_exec x op)) s).
Proof.
  intros Hs Hop Ex [_ Hr Hss Hf Hc Ha Hp He]. split; try done. intros y [= <-].
  destruct (Hc x Ex) as (ops & Hok & ->). exists (ops ++ [op]). split; [by apply Forall_app; auto|]. by rewrite foldl_app.
Qed.

Lemma relay_ok_audit s em op : sv_audit s = Some em -> relay_ok s -> relay_ok (set_audit (Some (audit_exec em op)) s).
Proof.
  intros Ee [Hs Hr Hss Hf Hc Ha Hp He]. split; try done.
  - by apply (srv_ok_same _ s).
  - intros y [= <-]. destruct (Ha em Ee) as [ops ->]. exists (ops ++ [op]). by rewrite audit_run_snoc.
Qed.

Lemma relay_ok_pool s p p' : sv_pool s = Some p -> pool_inv p' -> relay_ok s -> relay_ok (set_pool (Some p') s).
Proof.
  intros Ep Hp' [Hs Hr Hss Hf Hc Ha Hp He]. split; try done; [|by intros q [= <-]].
  by apply (srv_ok_same _ s); try done; simpl; rewrite Ep.
Qed.

Lemma engine_ok_more l r e : engine_ok l e -> engine_ok (r :: l) e.
Proof. intros [Hi Hl]. split; [done|]. intros k x Hx. right. by eapply Hl. Qed.

#[export] Instance relay_ok_stream : StreamInv order relay_config relay_ok.
Proof.
  split.
  - by intros s [].
  - intros s x k Hs Ex. apply (relay_ok_cache s x (OpGet k (sv_now s))); try done.
    apply (si_get (order := order)); [apply Hs|done].
  - intros s x k r t e Hs Ex Hd. apply (relay_ok_cache s x (OpPut order k r (sv_now s))); try done.
    eapply (si_put (order := order)); [apply Hs|done..].
  - intros s x Hs Ex. apply (relay_ok_cache s x OpFlush); try done.
    apply (si_flush (order := order)); [apply Hs|done].
  - intros s f Hs Hf. apply (relay_ok_same s); try done; [|simpl].
    + by apply (si_policy (order := order)); [apply Hs|].
    + intros e (e0 & He & ->)%fmap_Some. apply Hf. by apply Hs.
  - intros s r Hs. apply (relay_ok_same s); try done; simpl.
    + by apply (si_received (order := order)), Hs.
    + intros e He. apply engine_ok_more. by apply Hs.
  - intros s e k Hs Ee. apply (relay_ok_same s); try done; [|apply Hs].
    apply (si_decide (order := order)); [apply Hs|done].
  - intros s em ev Hs Ee. by apply (relay_ok_audit s em (OEmit ev)).
  - intros s p x ok Hs Ep. eapply relay_ok_pool; [done| |done]. apply Get_dialed_inv. by apply (ro_pool s Hs).
  - intros s p x Hs Ep. eapply relay_ok_pool; [done| |done]. apply Drop_inv. by apply (ro_pool s Hs).
  - intros s m d Hs. apply (relay_ok_same s); try done; [|apply Hs]. apply (si_metric (order := order)), Hs.
  - intros s h t Hs. apply (relay_ok_same s); try done; [|apply Hs]. apply (si_observe (order := order)), Hs.
  - intros s p op Hs Ep _. by apply (relay_ok_plane s p [op]).
  - intros s ev rs Hs _ Hx. by eapply relay_ok_rs.
Qed.

(** A move of the forward matcher, on its own tables and the plane. *)
Lemma relay_ok_fm s p ev f ops :
  relay_ok s -> sv_forward s = Some p -> (forall now, ev <> FClock now) -> fevent_ok ev ->
  fexec endpoint (fs_of p s) ev = Some (Ret f) -> fs_plane f = foldl plane_exec p ops -> relay_ok (put_fs f s).
Proof.
  intros Hs Ep Hev Hok Hx Hops. pose proof (relay_ok_plane s p ops Hs Ep) as [Hs' Hr Hss Hf Hc Ha Hp He].
  pose proof (fexec_now _ _ _ _ Hev Hx) as Hn. split; try done.
  - unfold put_fs. rewrite Hops. by apply (srv_ok_same _ (set_forward (Some (foldl plane_exec p ops)) s)).
  - unfold put_fs. rewrite Hops. apply Hss.
  - intros q [= <-]. rewrite fs_of_put by done. eapply fr_step; [|done..]. by apply (ro_forward s Hs).
Qed.

(** The plane after a move of the sessions. *)
Lemma session_plane s x ev x' : relay_event_ok s (RSession ev) -> sess_exec x ev = Some x' ->
  exists ops, Forall (fun op => exists uri, op = PForgetAgent uri) ops /\
    se_forward x' = (fun p => foldl plane_exec p ops) <$> se_forward x.
Proof.
  assert (Hid : forall fw : option Plane, fw = (fun p => foldl plane_exec p []) <$> fw) by (by intros []).
  destruct ev as [k certs hello ack|k|k|k|k|op]; simpl; [intros _..|done].
  - destruct (se_conns x !! k); [done|]. destruct (admitConn certs hello ack); intros [= <-]; by exists [].
  - destruct (se_conns x !! k) as [[u []]|]; try done. intros [= <-]. by exists [].
  - destruct (se_conns x !! k) as [[u []]|]; try done. intros [= <-]. by exists [].
  - destruct (se_conns x !! k) as [[u []]|]; try done. destruct (UnregisterAgent _ _). intros [= <-]. by exists [].
  - destruct (se_conns x !! k) as [[u []]|]; try done. intros [= <-]. exists [PForgetAgent u].
    split; [by repeat econstructor|]. done.
Qed.

Lemma relay_ok_session s ev x : relay_ok s -> relay_event_ok s (RSession ev) -> sess_exec (sv_ss s) ev = Some x -> relay_ok (set_ss x s).
Proof.
  intros Hs Hev Hx. destruct (session_plane s _ _ _ Hev Hx) as (ops & _ & Hops).
  assert (Hfw : sv_forward (set_ss x s) = (fun p => foldl plane_exec p ops) <$> sv_forward s) by done.
  pose proof Hs as [Hsrv Hr Hss Hf Hc Ha Hp He]. split; try done; [| |].
  - destruct (sv_forward s) as [p|] eqn:Ep.
    + destruct (relay_ok_plane s p ops Hs Ep) as [Hs' _ _ _ _ _ _ _]. by apply (srv_ok_same _ (set_forward (Some (foldl plane_exec p ops)) s)).
    + apply (srv_ok_same _ s); try done. by rewrite Hfw, Ep.
  - by eapply sr_step.
  - intros q. rewrite Hfw. destruct (sv_forward s) as [p|] eqn:Ep; [|done]. intros [= <-].
    apply (freach_plane p s). by apply Hf.
Qed.

(** A connection was admitted under a URI. *)
Lemma conn_uri s cn uri pc : relay_ok s -> se_conns (sv_ss s) !! cn = Some (uri, pc) -> uri <> "".
Proof. intros Hs Hcn. by destruct (si_uri _ (sess_reach_inv _ _ _ (ro_sessions s Hs)) cn uri pc Hcn). Qed.

(** A frame of a control stream. *)
Lemma control_exec s cn m es s' : relay_exec s (RControl cn m) = Some (Ret (es, s')) ->
  exists uri pc out, se_conns (sv_ss s) !! cn = Some (uri, pc) /\ past_track pc = true /\
    control_step askRegister cn uri (remote_of cn) m s = Ret (s', out) /\ es = relayed_events cn m out.
Proof.
  cbn [relay_exec]. destruct (se_conns (sv_ss s) !! cn) as [[uri pc]|] eqn:Hcn; [|done].
  destruct (past_track pc) eqn:Hpc; [|done]. intros Hx. apply lift_Ret in Hx as ([x out] & [= Hx] & [= <- <-]).
  by exists uri, pc, out.
Qed.

Lemma relayed_frame cn uri remote m s s' out to sid raw :
  control_step askRegister cn uri remote m s = Ret (s', out) -> ARelayed cn to sid raw ∈ relayed_events cn m out ->
  ORaw to raw ∈ forward_frame uri sid raw s /\ s' = s /\ relayed_events cn m out = [ARelayed cn to sid raw].
Proof.
  destruct m; try (by intros _ ?%elem_of_nil); intros [= <- <-]; simpl; unfold forward_frame;
    (destruct (String.eqb _ "") eqn:E1; [by intros ?%elem_of_nil|]);
    (destruct (LookupAgent _ _) eqn:E2; [|by intros ?%elem_of_nil]); intros [= -> -> ->]%list_elem_of_singleton;
    rewrite E1, E2; (split_and!; [by apply list_elem_of_singleton|done..]).
Qed.

Lemma relayed_inert cn m out : forallb inert (relayed_events cn m out) = true.
Proof. destruct m; simpl; try done; induction out as [|[] out IH]; simpl; done. Qed.

(** The environment keeps the invariant and what the goroutines rely on. *)
Lemma env_keeps s es s' : relay_ok s -> relay_env s es s' -> relay_ok s' /\ rely s s'.
Proof.
  intros Hs ([ev|ev|op|cn m|ev|op|eps] & Hev & Hx); cbn [relay_exec] in Hx.
  - apply lift_Ret in Hx as (rs & Hx & [= <- <-]).
    split; [by eapply relay_ok_rs|]. split; [|done]. eapply rexec_kept; [|done]. apply (so_rs _ _ (ro_srv s Hs)).
  - apply lift_Ret in Hx as (x & (y & Hx & [= ->])%fmap_Some & [= <- <-]).
    split; [by eapply relay_ok_session|by apply rely_same].
  - apply lift_Ret in Hx as (p & (q & Ep & [= ->])%fmap_Some & [= <- <-]).
    split; [by apply (relay_ok_plane s q [op])|by apply rely_same].
  - apply control_exec in Hx as (uri & pc & out & Hcn & _ & Hx & ->). pose proof (conn_uri s cn uri pc Hs Hcn) as Hu.
    apply control_step_cases in Hx as [->|[(y & rs & Hy & ->)|[(p & f & sid & mp & ap & Ep & Hf & ->)|(p & k & nonce & Ep & _ & _ & ->)]]].
    + done.
    + pose proof (relay_ok_rs s _ rs Hs Hy) as Hs'. split.
      * by apply (si_metric (order := order)).
      * split; [|done]. eapply (rexec_kept _ (EvNote y)); [|done]. apply (so_rs _ _ (ro_srv s Hs)).
    + split; [|by apply rely_same].
      apply (relay_ok_fm s p (FResume sid cn uri mp ap) f []); try done; [by rewrite <- Hf|].
      by apply arrives_plane in Hf.
    + split; [by apply (relay_ok_plane s p [PArm k uri nonce (sv_now s)])|by apply rely_same].
  - destruct (sv_forward s) as [p|] eqn:Ep; simpl in Hx; [|done].
    apply lift_Ret in Hx as (f & Hx & [= <- <-]).
    split; [|by apply rely_same]. destruct (drive_plane _ _ ev _ ltac:(by destruct ev) Hx) as (ops & Hops & _).
    eapply relay_ok_fm; try done; by destruct ev.
  - apply lift_Ret in Hx as (x & (em & Ee & [= ->])%fmap_Some & [= <- <-]).
    split; [by apply relay_ok_audit|by apply rely_same].
  - injection Hx as <- <-. split; [|by apply rely_same]. apply (relay_ok_same s); try done; [|apply Hs]. by apply (srv_ok_same _ s), Hs.
Qed.

(** It takes no decision either. *)
Lemma env_decided s es s' : relay_env s es s' -> sv_decided s' = sv_decided s.
Proof.
  intros ([ev|ev|op|cn m|ev|op|eps] & _ & Hx); cbn [relay_exec] in Hx; try (by apply lift_Ret in Hx as (? & _ & [= _ <-])).
  - apply control_exec in Hx as (uri & pc & out & _ & _ & Hx & _).
    by apply control_step_cases in Hx as [->|[(y & rs & _ & ->)|[(p & f & sid & mp & ap & _ & _ & ->)|(p & k & nonce & _ & _ & _ & ->)]]].
  - destruct (sv_forward s); simpl in Hx; [|done]. by apply lift_Ret in Hx as (? & _ & [= _ <-]).
  - by injection Hx as _ <-.
Qed.

Lemma bodies_ok s g : relay_ok s -> may_start s g ->
  wp relay_ok rely effect (waits g) (goroutine_body g) (fun _ tr => goroutine_post g tr).
Proof.
  intros _ [_ Hin]. destruct g as [an caller|an src o ok|attempts|d]; simpl.
  - by apply (handler_refines order ask uri_of endpoint relay_config relay_ok (may_wait an)).
  - by apply (forwarded_refines order ask relay_config relay_ok false).
  - by apply (watch_run_wp order relay_config relay_ok).
  - apply (drain_run_wp order relay_config relay_ok). by intros ->.
Qed.

(** ** The log

    Goroutines and environment together change the tables exactly as the log says;
    the plane has seen typed operations only, as many allocations as the log
    counts, and nonces armed by connections that are who they claim to be. *)

Definition op_from (s : Server) (op : plane_op) : Prop :=
  plane_op_typed op /\
  match op with
  | PArm _ uri _ _ => exists cn pc, se_conns (sv_ss s) !! cn = Some (uri, pc)
  | _ => True
  end.

Record logged (s : Server) (log : list (option nat * action)) : Prop := {
  lg_pairs : sv_pairs s = foldl ap_pairs ∅ log.*2;
  lg_gauge : gauge_of s = foldl ap_gauge 0 log.*2;
  lg_allocs : allocs_of s ⊆ foldl ap_allocs ∅ log.*2;
  lg_plane : forall p, sv_forward s = Some p ->
    exists ops, p = plane_run ops /\ Forall (op_from s) ops /\ allocations ops = count_allocs log.*2
}.

Lemma op_from_kept s s' op :
  (forall cn uri pc, se_conns (sv_ss s) !! cn = Some (uri, pc) -> exists pc', se_conns (sv_ss s') !! cn = Some (uri, pc')) ->
  op_from s op -> op_from s' op.
Proof.
  intros Hk [Ht Hop]. split; [done|]. destruct op; try done. destruct Hop as (cn & pc & (pc' & ?)%Hk). eauto.
Qed.

(** A step that moves the plane by [ops]. *)
Lemma logged_step s es s' log t ops :
  sv_pairs s' = foldl ap_pairs (sv_pairs s) es -> gauge_of s' = foldl ap_gauge (gauge_of s) es ->
  allocs_of s' ⊆ foldl ap_allocs (allocs_of s) es ->
  (forall cn uri pc, se_conns (sv_ss s) !! cn = Some (uri, pc) -> exists pc', se_conns (sv_ss s') !! cn = Some (uri, pc')) ->
  sv_forward s' = (fun p => foldl plane_exec p ops) <$> sv_forward s ->
  Forall (op_from s') ops -> allocations ops = count_allocs es ->
  logged s log -> logged s' (log ++ tag t es).
Proof.
  intros E1 E2 E3 Hk E4 Hops Hn [H1 H2 H3 H4].
  assert (Elog : (log ++ tag t es).*2 = log.*2 ++ es).
  { rewrite fmap_app. unfold tag. by rewrite <- list_fmap_compose, list_fmap_id. }
  assert (Hmono : forall l l', l ⊆ l' -> foldl ap_allocs l es ⊆ foldl ap_allocs l' es).
  { clear. induction es as [|a es IH]; simpl; [done|]. intros l l' Hl. apply IH. destruct a; simpl; set_solver. }
  split; rewrite Elog, ?foldl_app.
  - by rewrite E1, H1.
  - by rewrite E2, H2.
  - etrans; [exact E3|]. by apply Hmono.
  - intros p. rewrite E4. destruct (sv_forward s) as [q|]; [|done]. intros [= <-].
    destruct (H4 q eq_refl) as (ops0 & -> & Hops0 & Hn0). exists (ops0 ++ ops). split_and!.
    + unfold plane_run. by rewrite foldl_app.
    + apply Forall_app. split; [|done]. eapply Forall_impl; [done|]. intros op. by apply op_from_kept.
    + rewrite count_allocs_app, <- Hn, <- Hn0. unfold allocations. rewrite List.filter_app, length_app. lia.
Qed.

Lemma handler_logged s es s' log t : effect s es s' -> logged s log -> logged s' (log ++ tag t es).
Proof.
  intros [Hp Hg Ha (ops & Hops & Hss & Hn) _ _ _ _]. apply (logged_step s es s' log t ops); try done.
  - intros cn uri pc Hcn. rewrite Hss. simpl. eauto.
  - unfold sv_forward. by rewrite Hss.
  - eapply Forall_impl; [done|]. intros op Hop. by destruct op.
Qed.

Lemma forgets_allocs (ops : list plane_op) p : Forall (fun op => is_allocate op = false) ops ->
  dom (byAlloc (foldl plane_exec p ops)) ⊆ dom (byAlloc p) /\ allocations ops = 0.
Proof.
  intros Hops. revert p. induction Hops as [|op ops Hop _ IH]; intros p; simpl; [done|].
  destruct (IH (plane_exec p op)) as [H1 H2]. split; [etrans; [done|by apply plane_exec_dom]|].
  unfold allocations in *. simpl. by rewrite Hop.
Qed.

(** A step of the environment that says nothing of the tables: it may move the
    plane without allocating. *)
Lemma logged_quiet s es s' log ops :
  forallb inert es = true ->
  sv_pairs s' = sv_pairs s -> gauge_of s' = gauge_of s ->
  (forall cn uri pc, se_conns (sv_ss s) !! cn = Some (uri, pc) -> exists pc', se_conns (sv_ss s') !! cn = Some (uri, pc')) ->
  sv_forward s' = (fun p => foldl plane_exec p ops) <$> sv_forward s ->
  Forall (fun op => is_allocate op = false) ops -> Forall (op_from s') ops ->
  logged s log -> logged s' (log ++ tag None es).
Proof.
  intros Hes E1 E2 Hk E4 Hna Hops. apply (logged_step s es s' log None ops); try done.
  - rewrite inert_fold; [done|by intros ? []|done].
  - rewrite inert_fold; [done|by intros ? []|done].
  - rewrite inert_fold; [|by intros ? []|done].
    unfold allocs_of. rewrite E4. destruct (sv_forward s) as [p|]; simpl; [|done]. by apply forgets_allocs.
  - rewrite <- (inert_allocs es Hes). by apply (forgets_allocs ops NewPlane).
Qed.

Lemma logged_same s es s' log : forallb inert es = true ->
  sv_pairs s' = sv_pairs s -> gauge_of s' = gauge_of s -> sv_ss s' = sv_ss s -> logged s log -> logged s' (log ++ tag None es).
Proof.
  intros Hes E1 E2 E3. apply (logged_quiet s es s' log []); try done.
  - rewrite E3. eauto.
  - unfold sv_forward. rewrite E3. by destruct (se_forward (sv_ss s)).
Qed.

(** What the events of a grant say. *)
Lemma grants_fold (g : list (nat * Z)) :
  let es := (fun '(ac, x) => AAllocate (uri_of ac) x) <$> g in
  (forall m, foldl ap_pairs m es = m) /\ (forall n, foldl ap_gauge n es = n) /\
  (forall l, foldl ap_allocs l es = list_to_set g.*2 ∪ l) /\ count_allocs es = Z.of_nat (length g).
Proof.
  cbv zeta. induction g as [|[ac x] g (IH1 & IH2 & IH3 & IH4)]; [split_and!; try done; set_solver|].
  rewrite !fmap_cons. cbn [foldl ap_pairs ap_gauge ap_allocs length snd]. split_and!; [done..| |].
  - intros l. rewrite IH3. set_solver.
  - rewrite count_allocs_cons, IH4. lia.
Qed.

Lemma allocates_only ops : Forall (fun op => is_allocate op = true) ops -> allocations ops = Z.of_nat (length ops).
Proof. unfold allocations. induction 1 as [|op ops Hop _ IH]; simpl; [done|]. rewrite Hop. simpl. lia. Qed.

Lemma env_logged s es s' log : relay_env s es s' -> logged s log -> logged s' (log ++ tag None es).
Proof.
  intros ([ev|ev|op|cn m|ev|op|eps] & Hev & Hx); cbn [relay_exec] in Hx.
  - apply lift_Ret in Hx as (rs & Hx & [= <- <-]). apply logged_same; try done. by eapply background_pairs.
  - apply lift_Ret in Hx as (x & (y & Hx & [= ->])%fmap_Some & [= <- <-]).
    destruct (session_plane s _ _ _ Hev Hx) as (ops & Hops & Efw). apply (logged_quiet s _ _ log ops); try done.
    + intros cn uri pc. by eapply sess_exec_conns.
    + eapply Forall_impl; [done|]. by intros op [uri ->].
    + eapply Forall_impl; [done|]. by intros op [uri ->].
  - apply lift_Ret in Hx as (p & (q & Ep & [= ->])%fmap_Some & [= <- <-]).
    apply (logged_quiet s _ _ log [op]); try done.
    + simpl. eauto.
    + by rewrite Ep.
    + constructor; [by destruct op|done].
    + constructor; [by destruct op|done].
  - apply control_exec in Hx as (uri & pc & out & Hcn & _ & Hx & ->). pose proof (relayed_inert cn m out) as Hes.
    apply control_step_cases in Hx as [->|[(y & rs & Hy & ->)|[(p & f & sid & mp & ap & Ep & Hf & ->)|(p & k & nonce & Ep & -> & Hl & ->)]]].
    + by apply logged_same.
    + apply logged_same; try done; [by eapply (background_pairs _ (EvNote y))|]. by apply (metric_effect streamMigratedP2P 1 (set_rs rs s)).
    + apply (logged_quiet s _ _ log []); try done; [by simpl; eauto|]. simpl. unfold put_fs. cbn.
      rewrite (arrives_plane _ _ _ _ _ _ _ Hf), Ep. done.
    + apply (logged_quiet s _ _ log [PArm k uri nonce (sv_now s)]); try done.
      * simpl. eauto.
      * by rewrite Ep.
      * by repeat constructor.
      * constructor; [|done]. split; [done|]. simpl. eauto.
  - destruct (sv_forward s) as [p|] eqn:Ep; simpl in Hx; [|done]. apply lift_Ret in Hx as (f & Hx & [= <- <-]).
    destruct (drive_plane _ _ ev _ ltac:(by destruct ev) Hx) as (ops & Hops & Hal & Hlen & Hdom).
    destruct (grants_fold (granted (fs_of p s) f)) as (F1 & F2 & F3 & F4). fold (grant_events (fs_of p s) f) in *.
    apply (logged_step s _ _ log None ops); try done.
    + rewrite F3. unfold allocs_of. rewrite Ep. simpl. by rewrite Hdom.
    + simpl. eauto.
    + rewrite Ep. simpl. cbn in Hops. by rewrite <- Hops.
    + eapply Forall_impl; [done|]. intros op ?. by destruct op.
    + by rewrite F4, <- Hlen, (allocates_only ops).
  - apply lift_Ret in Hx as (x & (em & Ee & [= ->])%fmap_Some & [= <- <-]). by apply logged_same.
  - injection Hx as <- <-. by apply logged_same.
Qed.

(** ** Every run *)

Lemma relay_threads pl : relay_run pl ->
  threads_ok relay_ok rely effect waits goroutine_post pl.
Proof.
  apply (threads_sound goroutine_body may_start relay_env relay_ok rely effect waits goroutine_post).
  - apply env_keeps.
  - by intros s es s' [].
  - apply bodies_ok.
  - apply relay0_ok.
Qed.

Lemma relay_finish pl t g p : relay_run pl -> pl_threads pl !! t = Some (g, p) -> waits g = false \/ p = Done tt ->
  exists pl', relay_run pl' /\ rtc (tstep t) pl pl' /\ pl_threads pl' !! t = Some (g, Done tt).
Proof.
  intros Hr Hl Hw.
  destruct (threads_finish goroutine_body may_start relay_env relay_ok rely effect waits goroutine_post
    env_keeps ltac:(by intros s es s' []) bodies_ok pl t g p (relay_threads pl Hr) Hl Hw) as (pl' & Hs & _ & Hd & _).
  exists pl'. split_and!; try done. apply (scheduled_reach goroutine_body may_start relay_env relay0 pl); [done|].
  clear -Hs. induction Hs; [constructor|]. eapply rtc_l; [by exists t|done].
Qed.

Lemma relay_finish_all pl : relay_run pl ->
  (forall t g p, pl_threads pl !! t = Some (g, p) -> waits g = false \/ p = Done tt) ->
  exists pl', relay_run pl' /\ scheduled pl pl' /\ forall t g p, pl_threads pl' !! t = Some (g, p) -> p = Done tt.
Proof.
  intros Hr Hw.
  destruct (threads_drain goroutine_body may_start relay_env relay_ok rely effect waits goroutine_post
    env_keeps ltac:(by intros s es s' []) bodies_ok pl (relay_threads pl Hr) Hw) as (pl' & Hs & Hd).
  exists pl'. split_and!; try done. by eapply scheduled_reach.
Qed.

Lemma relay_event_step e m t a : execution goroutine_body may_start relay_env e -> relay_run (e 0%nat) ->
  (Some t, a) ∈ pl_log (e m) -> (Some t, a) ∉ pl_log (e 0%nat) ->
  exists k es, (k < m)%nat /\ a ∈ es /\ effect (pl_state (e k)) es (pl_state (e (S k))).
Proof.
  apply (execution_event goroutine_body may_start relay_env relay_ok rely effect waits goroutine_post
    env_keeps ltac:(by intros s es s' []) bodies_ok relay0 e m t a relay0_ok).
Qed.

Lemma relay_logged pl : relay_run pl -> logged (pl_state pl) (pl_log pl).
Proof.
  intros Hr. apply (threads_log goroutine_body may_start relay_env relay_ok rely effect waits goroutine_post
    env_keeps ltac:(by intros s es s' []) bodies_ok logged relay0 pl); try done.
  - intros s t es s' log. apply handler_logged.
  - intros s es s' log _. apply env_logged.
  - apply relay0_ok.
  - unfold relay0. split; try done.
    + unfold allocs_of, sv_forward. simpl. by destruct forward.
    + unfold sv_forward. simpl. destruct forward; [|done]. intros p [= <-]. by exists [].
Qed.

(** Every decision was taken in the run, by the engine then in force. *)
Lemma relay_decided pl x : relay_run pl -> x ∈ sv_decided (pl_state pl) ->
  exists pl0, relay_run pl0 /\ rtc (pstep goroutine_body may_start relay_env) pl0 pl /\ decided_now (pl_state pl0) x.
Proof.
  intros Hr Hx. apply (threads_born goroutine_body may_start relay_env relay_ok rely effect waits goroutine_post
    env_keeps ltac:(by intros s es s' []) bodies_ok (fun s x => x ∈ sv_decided s) decided_now relay0 pl x); try done.
  - intros s es s' He. apply (ef_decided _ _ _ He).
  - intros s es s' _ He. rewrite (env_decided s es s' He). by left.
  - apply relay0_ok.
  - unfold relay0. simpl. by intros ?%elem_of_nil.
Qed.

(** The environment logs only the ids it grants and the frames it passes on. *)
Definition env_action (a : action) : bool := match a with AAllocate _ _ | ARelayed _ _ _ _ => true | _ => false end.

Lemma relay_env_log pl a : relay_run pl -> (None, a) ∈ pl_log pl -> env_action a = true.
Proof.
  intros Hr. revert a.
  apply (threads_log goroutine_body may_start relay_env relay_ok rely effect waits goroutine_post
    env_keeps ltac:(by intros s es s' []) bodies_ok
    (fun _ log => forall a, (None, a) ∈ log -> env_action a = true) relay0 pl); try done.
  - intros s t es s' log _ IH a [Hin|Hin]%elem_of_app; [by apply IH|].
    apply list_elem_of_fmap in Hin as (? & ? & _). done.
  - intros s es s' log _ (ev & _ & Hx) IH a [Hin|Hin]%elem_of_app; [by apply IH|].
    apply list_elem_of_fmap in Hin as (b & [= ->] & Hin).
    destruct ev as [ev|ev|op|cn m|ev|op|eps]; cbn [relay_exec] in Hx;
      try (apply lift_Ret in Hx as (? & _ & [= <- _]); set_solver).
    + apply control_exec in Hx as (uri & pc & out & _ & _ & _ & ->). unfold relayed_events in Hin.
      destruct m; try (by apply elem_of_nil in Hin); apply list_elem_of_omap in Hin as ([] & _ & [= <-]); done.
    + destruct (sv_forward s) as [p|]; simpl in Hx; [|done]. apply lift_Ret in Hx as (f & _ & [= <- _]).
      by apply list_elem_of_fmap in Hin as ([ac x] & -> & _).
    + injection Hx as <- _. set_solver.
  - apply relay0_ok.
  - set_solver.
Qed.

(** No event of the rest of the process panics or gets stuck. *)
Lemma relay_exec_ok s ev out : relay_ok s -> relay_event_ok s ev -> relay_exec s ev = Some out -> exists r, out = Ret r.
Proof.
  intros Hs Hev Hx. destruct ev as [ev|ev|op|cn m|ev|op|eps]; cbn [relay_exec] in Hx.
  - apply lift_Some in Hx as (x & Hx & Hr). destruct (rexec_ok _ _ _ (so_rs _ _ (ro_srv s Hs)) Hx) as (rs & -> & _).
    eexists. apply Hr. eauto.
  - destruct (sess_exec _ _); simpl in Hx; [|done]. injection Hx as <-. eauto.
  - destruct (sv_forward s); simpl in Hx; [|done]. injection Hx as <-. eauto.
  - destruct (se_conns (sv_ss s) !! cn) as [[uri pc]|] eqn:Hcn; [|done]. destruct (past_track pc); [|done].
    apply lift_Some in Hx as (x & [= <-] & Hr).
    assert (exists y, control_step askRegister cn uri (remote_of cn) m s = Ret y) as [y Hy].
    { destruct m; simpl; eauto.
      - unfold handleForwardResume. destruct (sv_forward s) as [p|] eqn:Ep; [|eauto].
        destruct (fexec_ok endpoint (fs_of p s) (FResume sid cn uri myPos ackPos) _
          (freach_inv _ _ _ (ro_forward s Hs p Ep)) (conn_uri s cn uri pc Hs Hcn) eq_refl) as (f & -> & _). eauto.
      - destruct (handleForwardRegister _ _ _ _ _). eauto. }
    eexists. apply Hr. eauto.
  - destruct (sv_forward s) as [p|] eqn:Ep; simpl in Hx; [|done]. apply lift_Some in Hx as (x & Hx & Hr).
    assert (fevent_ok ev) as Hok by (by destruct ev).
    destruct (fexec_ok _ _ _ _ (freach_inv _ _ _ (ro_forward s Hs p Ep)) Hok Hx) as (f & -> & _).
    eexists. apply Hr. eauto.
  - destruct (sv_audit s); simpl in Hx; [|done]. injection Hx as <-. eauto.
  - injection Hx as <-. eauto.
Qed.

End Relay.
