(* ===== verification/RelayProps.v ===== *)
(** * RelayProps: properties of the whole relay

    What holds in every interleaving of the goroutines of [Relay]: each component
    is in a state its own development reaches, nothing panics, every handler keeps
    its protocol, nothing a handler acquired outlives it, no verdict of the policy is
    handed out that the engine did not take shortly before, and no address is bound
    to an allocation but by its owner. *)

From S2P Require Import Prelude Threads GoNet PolicyMatcher PolicyCache PolicyWatch ForwardPlane ForwardInv ForwardTypes.
From S2P Require Import ForwardAuth ForwardCtrl EdgeTables ResumeMatcher Registry AuditQueue Intra Operations ServerState OpenStream.
From S2P Require Import OpenSpec WatchLoop DrainLoop OpenProps Control Relay.

(** ** Logs *)

(** The events that put [sid] into the pair table, and [id] into the plane's. *)
Definition adds_pair (sid : Z) (pair : streamPair) (a : action) : Prop := a = ARecordPair sid pair \/ a = AReplacePair sid pair.
Definition adds_alloc (id : Z) (a : action) : Prop := exists uri, a = AAllocate uri id.

(** What is in a table was put there and not taken out since. *)
Lemma support {T} (ap : T -> action -> T) (t0 : T) (has : T -> Prop) (adds dels : action -> Prop) log :
  ~ has t0 -> (forall t a, has (ap t a) -> adds a \/ (has t /\ ~ dels a)) -> has (foldl ap t0 log) ->
  exists l1 a l2, log = l1 ++ a :: l2 /\ adds a /\ Forall (fun x => ~ dels x) l2.
Proof.
  intros H0 Hap. induction log as [|a log IH] using rev_ind; [done|]. rewrite foldl_app. cbn [foldl].
  intros [Ha|[Hh Hd]]%Hap; [by exists log, a, []|].
  destruct (IH Hh) as (l1 & x & l2 & -> & Hx & Hl2). exists l1, x, (l2 ++ [a]). rewrite <- List.app_assoc.
  split_and!; try done. by apply Forall_app; auto.
Qed.

Lemma pairs_zero m log : m !! 0 = None -> foldl ap_pairs m log !! 0 = None.
Proof.
  revert m. induction log as [|a log IH]; intros m Hm; simpl; [done|]. apply IH.
  destruct a; simpl; try done; unfold replacePair, forgetPair; destruct (Z.eqb_spec sid 0); try done.
  - by rewrite lookup_insert_ne.
  - by rewrite lookup_insert_ne.
  - by rewrite lookup_delete_ne.
Qed.

Lemma pairs_support log sid pair : foldl ap_pairs ∅ log !! sid = Some pair ->
  exists l1 a l2, log = l1 ++ a :: l2 /\ adds_pair sid pair a /\ Forall (fun x => x <> AForgetPair sid) l2.
Proof.
  intros Hs. assert (sid <> 0) as Hne by (by intros ->; rewrite pairs_zero in Hs).
  apply (support ap_pairs ∅ (fun m => m !! sid = Some pair) _ (fun x => x = AForgetPair sid)); [|clear Hs|done].
  - by rewrite lookup_empty.
  - intros m a Ha. destruct a; simpl in Ha; try (right; by split); unfold replacePair, forgetPair in Ha.
    + destruct (_ =? 0); [right; by split|]. unfold adds_pair. apply lookup_insert_Some in Ha. naive_solver.
    + destruct (_ =? 0); [right; by split|]. unfold adds_pair. apply lookup_insert_Some in Ha. naive_solver.
    + destruct (Z.eqb_spec sid0 0); [right; split; [done|congruence]|]. apply lookup_delete_Some in Ha as [? ?].
      right. split; [done|congruence].
Qed.

Lemma allocs_support log id : id ∈ foldl ap_allocs ∅ log ->
  exists l1 a l2, log = l1 ++ a :: l2 /\ adds_alloc id a /\ Forall (fun x => x <> AForget id) l2.
Proof.
  apply (support ap_allocs ∅ (fun l => id ∈ l) _ (fun x => x = AForget id)); [set_solver|].
  intros l a Ha. destruct a; simpl in Ha; try (right; by split).
  - apply elem_of_union in Ha as [->%elem_of_singleton|?]; [left; by eexists|right; by split].
  - apply elem_of_difference in Ha as [? Hne]. right. split; [done|]. intros [= ->]. set_solver.
Qed.

(** Whose event it was, and what that goroutine did afterwards. *)
Lemma whose (log : list (option nat * action)) l1 a l2 : log.*2 = l1 ++ a :: l2 ->
  exists t pre rest, (t, a) ∈ log /\ own t log = pre ++ a :: rest /\ (forall x, x ∈ rest -> x ∈ l2).
Proof.
  intros E. apply fmap_app_inv in E as (L1 & L & E1 & E & ->). symmetry in E.
  apply fmap_cons_inv in E as ([t a'] & L2 & E2 & -> & ->). simpl in E2. subst a'.
  exists t, (own t L1), (own t L2). split_and!.
  - apply elem_of_app. right. by left.
  - rewrite own_app. f_equal. change ((t, a) :: L2) with (tag t [a] ++ L2). by rewrite own_app, own_tag_eq.
  - intros x Hx%own_elem. apply list_elem_of_fmap. by exists (t, x).
Qed.

Lemma balanced_inv pre a rest : balanced (pre ++ a :: rest) -> released a rest.
Proof. induction pre as [|b pre IH]; simpl; tauto. Qed.

(** The gauge: what each goroutine adds up to, together. *)
Definition gauge_sum (l : list action) : Z := foldl ap_gauge 0 l.

Lemma gauge_from n l : foldl ap_gauge n l = n + gauge_sum l.
Proof.
  unfold gauge_sum. revert n. induction l as [|a l IH]; intros n; simpl; [lia|].
  rewrite IH, (IH (ap_gauge 0 a)). destruct a; simpl; lia.
Qed.

Lemma gauge_app l l' : gauge_sum (l ++ l') = gauge_sum l + gauge_sum l'.
Proof. unfold gauge_sum at 1. by rewrite foldl_app, gauge_from. Qed.

Lemma gauge_cons a l : gauge_sum (a :: l) = ap_gauge 0 a + gauge_sum l.
Proof. unfold gauge_sum at 1. simpl. apply gauge_from. Qed.

Definition rest_of (t : option nat) (log : list (option nat * action)) : list (option nat * action) :=
  List.filter (fun x => bool_decide (x.1 <> t)) log.

Lemma rest_cons t u a log : rest_of t ((u, a) :: log) = if decide (u = t) then rest_of t log else (u, a) :: rest_of t log.
Proof. unfold rest_of. simpl. case_decide; [rewrite bool_decide_false by tauto|rewrite bool_decide_true by done]; done. Qed.

Lemma gauge_split t (log : list (option nat * action)) :
  gauge_sum log.*2 = gauge_sum (own t log) + gauge_sum (rest_of t log).*2 /\
  (length (own t log) + length (rest_of t log) = length log)%nat.
Proof.
  induction log as [|[u a] log [IH1 IH2]]; [done|]. rewrite own_cons, rest_cons, fmap_cons, gauge_cons, length_cons.
  cbn [snd]. case_decide; rewrite ?fmap_cons, ?gauge_cons, ?length_cons; cbn [snd]; lia.
Qed.

Lemma rest_own t u (log : list (option nat * action)) : own u (rest_of t log) = if decide (u = t) then [] else own u log.
Proof.
  induction log as [|[v a] log IH]; [by destruct (decide _)|]. rewrite rest_cons, own_cons.
  destruct (decide (v = t)) as [->|Hne]; [rewrite IH|rewrite own_cons, IH]; repeat case_decide; congruence.
Qed.

Lemma gauge_zero log : (forall t, gauge_sum (own t log) = 0) -> gauge_sum log.*2 = 0.
Proof.
  remember (length log) as n eqn:En. revert log En. induction (lt_wf n) as [n _ IH]. intros log -> Hz.
  destruct log as [|[t a] log]; [done|]. destruct (gauge_split t ((t, a) :: log)) as [-> Hl]. rewrite Hz.
  assert (0 < length (own t ((t, a) :: log)))%nat.
  { rewrite own_cons, decide_True by done. simpl. lia. }
  rewrite (IH (length (rest_of t ((t, a) :: log)))); [done|lia|done|].
  intros u. rewrite rest_own. by destruct (decide (u = t)).
Qed.

(** ** Traces of the handlers *)

Definition is_gauge (a : action) : bool := match a with AGauge _ => true | _ => false end.

Lemma gauge_none l : none is_gauge l -> gauge_sum l = 0.
Proof. induction 1 as [|a l Ha _ IH]; [done|]. rewrite gauge_cons, IH. by destruct a. Qed.

Lemma p_open_gauge {ID : Identity} uri_of endpoint caller o an pol tr :
  p_open uri_of endpoint caller o an pol tr -> none is_gauge tr.
Proof.
  assert (Hrej : forall code reason, none is_gauge (rej caller o code reason)) by (intros; by apply rej_none).
  assert (Hck : forall k reason (P : list action -> Prop) tr, (forall tr, P tr -> none is_gauge tr) ->
    p_check caller o k reason P tr -> none is_gauge tr).
  { intros k reason P t HP (r & audit & rest & -> & Ha & Hrest). constructor; [done|]. apply none_app. split.
    - destruct Ha as [->|(ev & -> & _)]; by repeat constructor.
    - case_decide; [subst; by apply Hrej|by apply HP]. }
  assert (Hpr : forall prov tr, p_provider uri_of endpoint caller o an prov tr -> none is_gauge tr).
  { intros prov t [->|(relays & inner & -> & Hi)]; [by apply Hrej|]. constructor; [done|]. apply none_app.
    split; [|by repeat constructor]. destruct Hi as [->|(arm & body & -> & Harm & Hb)]; [by apply Hrej|].
    constructor; [done|]. apply none_app. split; [destruct Harm as [->| ->]; by repeat constructor|].
    apply none_app. split; [by eapply p_ack_none|by repeat constructor]. }
  assert (Hre : forall tr, p_resolve uri_of endpoint caller o an pol tr -> none is_gauge tr).
  { intros t [->|[Hp|[prov Hp]]]; [by apply Hrej|by eapply p_peer_none|]. destruct pol; [|by eapply Hpr].
    by eapply Hck; [apply Hpr|]. }
  unfold p_open. destruct pol; [|apply Hre]. by apply Hck.
Qed.

Lemma p_handler_gauge {ID : Identity} uri_of endpoint caller pol mt an tr :
  p_handler uri_of endpoint caller pol mt an tr -> gauge_sum tr = 0.
Proof.
  apply (p_handler_split _ _ _ (fun tr => gauge_sum tr = 0)).
  - intros body Hb. rewrite !gauge_app, Hb. done.
  - intros body Hb. by rewrite gauge_app, Hb.
  - intros body. apply (p_stream_cases _ _ _ (fun tr => gauge_sum tr = 0)); try done.
    intros o Ho. by eapply gauge_none, p_open_gauge.
Qed.

Lemma p_forwarded_shape src o tr : p_forwarded src o tr -> balanced tr /\ gauge_sum tr = 0.
Proof.
  intros (body & -> & Hb). rewrite gauge_app.
  destruct Hb as [->|[->|[->|(prov & relays & inner & -> & Hi)]]]; try (split; [by repeat constructor|done]).
  destruct Hi as [->|[->| ->]]; split; try done; simpl; repeat split; set_solver.
Qed.

Lemma p_forwarded_rows src o tr : p_forwarded src o tr -> none is_record tr.
Proof.
  intros (body & -> & Hb). apply none_app. split; [|by repeat constructor].
  destruct Hb as [->|[->|[->|(prov & relays & inner & -> & Hi)]]]; try (by repeat constructor).
  constructor; [done|]. apply none_app. split; [|by repeat constructor]. destruct Hi as [->|[->| ->]]; by repeat constructor.
Qed.

(** A drain acquires nothing. *)
Lemma p_drain_plain d tr : p_drain d tr -> Forall (fun a => plain a = true) tr.
Proof.
  intros (succs & agents & rest & -> & pre & r & w & e & cl & -> & _).
  apply Forall_app. split; [destruct (dr_targets d); by repeat constructor|]. constructor; [done|].
  rewrite !Forall_app, !Forall_fmap. split_and!; apply Forall_true; try done.
  intros ac. unfold notice. simpl. by case_match.
Qed.

(** ** Properties *)

Section Properties.
Context {ID : Identity} `{PBEnums}.
Context (order : gmap cacheKey cacheEntry -> list cacheKey).
Context (ask : ResolveRequest -> option (list ProviderInfo)).
Context (askRegister : RegisterServiceRequest -> option string).
Context (uri_of remote_of : nat -> string) (endpoint : string).
Context (tenant forward : bool) (id region : string) (t0 : Time).
Hypothesis uri_ok : forall n, uri_of n <> "".
Hypothesis order_ok : key_order_ok order.

#[local] Abbreviation relay_run :=
  (relay_run order ask askRegister uri_of remote_of endpoint tenant forward id region t0).
#[local] Abbreviation relay_step :=
  (pstep (goroutine_body order ask uri_of endpoint) (may_start tenant) (relay_env askRegister uri_of remote_of endpoint)).
#[local] Abbreviation relay_ok := (relay_ok endpoint tenant forward id region t0).
#[local] Abbreviation goroutine_post := (goroutine_post uri_of endpoint tenant).
#[local] Abbreviation relay_exec := (relay_exec askRegister uri_of remote_of endpoint).
#[local] Abbreviation relay_event_ok := (relay_event_ok uri_of).

Lemma run_threads pl : relay_run pl -> threads_ok relay_ok rely effect waits goroutine_post pl.
Proof. by apply relay_threads. Qed.

Lemma done_balanced pl t g : relay_run pl -> pl_threads pl !! t = Some (g, Done tt) ->
  balanced (own (Some t) (pl_log pl)) /\ gauge_sum (own (Some t) (pl_log pl)) = 0.
Proof.
  intros Hr Hl. pose proof (threads_finished _ _ _ _ _ pl t g (run_threads pl Hr) Hl) as Hp.
  destruct g as [an caller|an src o ok|attempts|d]; simpl in Hp.
  - split; [by eapply p_handler_balanced|by eapply p_handler_gauge].
  - by eapply p_forwarded_shape.
  - by rewrite Hp.
  - apply p_drain_plain in Hp. split; [by apply balanced_plain|]. apply gauge_none.
    eapply Forall_impl; [exact Hp|]. by intros [].
Qed.

(** An event with no later release is a running goroutine's, or the environment's. *)
Lemma held_or_released pl (a del : action) l1 l2 : relay_run pl -> (pl_log pl).*2 = l1 ++ a :: l2 ->
  (forall rest, released a rest -> del ∈ rest) -> Forall (fun x => x <> del) l2 ->
  (None, a) ∈ pl_log pl \/ exists t g f, pl_threads pl !! t = Some (g, Step f) /\ (Some t, a) ∈ pl_log pl.
Proof.
  intros Hr E Hrel Hl2. destruct (whose _ _ _ _ E) as ([t|] & pre & rest & Hin & Hown & Hrest); [|by left]. right.
  destruct (pl_threads pl !! t) as [[g [[]|f]]|] eqn:Hl; [exfalso|by exists t, g, f|exfalso].
  - destruct (done_balanced pl t g Hr Hl) as [Hb _]. rewrite Hown in Hb. apply balanced_inv, Hrel, Hrest in Hb.
    rewrite Forall_forall in Hl2. by apply (Hl2 del).
  - pose proof (th_fresh _ _ _ _ _ pl (run_threads pl Hr) t Hl) as Hf. rewrite Hown in Hf. by destruct pre.
Qed.


(** C2: nothing in the relay panics or gets stuck, and every handler keeps its
    protocol.  In every interleaving, the next step of a goroutine is possible,
    unless it is a resumed stream waiting for its peer, the watcher waiting for the
    controller, or a drain with no deadline waiting for the agents; what a finished
    goroutine has done is a trace of its protocol; and any other event of the process
    that can happen completes. *)
Theorem relay_safe pl :
  relay_run pl ->
  (forall t g p, pl_threads pl !! t = Some (g, p) ->
     match p with
     | Done _ => goroutine_post g (own (Some t) (pl_log pl))
     | Step f =>
         match f (pl_state pl) with
         | Ret _ => True
         | Blocked => waits g = true
         | Panic _ | OutOfFuel => False
         end
     end) /\
  (forall ev out, relay_event_ok (pl_state pl) ev -> relay_exec (pl_state pl) ev = Some out -> exists r, out = Ret r).
Proof.
  intros Hr. pose proof (run_threads pl Hr) as Hok. split.
  - intros t g [[]|f] Hl; [by eapply threads_finished|].
    pose proof (threads_next _ _ _ _ _ pl t g f Hok Hl) as Hn. by destruct (f (pl_state pl)) as [[[]]| | |].
  - intros ev out. eapply relay_exec_ok. apply (th_state _ _ _ _ _ pl Hok).
Qed.

(** A running goroutine. *)
#[local] Abbreviation running pl t := (exists g f, pl_threads pl !! t = Some (g, Step f)).

Lemma row_has_owner pl sid pair : relay_run pl -> sv_pairs (pl_state pl) !! sid = Some pair ->
  exists t, running pl t /\
    ((Some t, ARecordPair sid pair) ∈ pl_log pl \/ (Some t, AReplacePair sid pair) ∈ pl_log pl).
Proof.
  intros Hr.
  destruct (relay_logged order ask askRegister uri_of remote_of endpoint tenant forward id region t0 uri_ok order_ok pl Hr)
    as [Hp _ _ _]. rewrite Hp. intros (l1 & a & l2 & E & Hpair & Hl2)%pairs_support.
  destruct (held_or_released pl a (AForgetPair sid) l1 l2 Hr E) as [Hin|(t & g & f & Hl & Hin)]; [|done|..].
  - intros rest. by destruct Hpair as [->| ->].
  - apply (relay_env_log order ask askRegister uri_of remote_of endpoint tenant forward id region t0 uri_ok order_ok) in Hin;
      [|done]. by destruct Hpair as [->| ->].
  - exists t. split; [by exists g, f|]. destruct Hpair as [->| ->]; auto.
Qed.

Lemma alloc_has_owner pl x : relay_run pl -> x ∈ allocs_of (pl_state pl) ->
  exists uri, (None, AAllocate uri x) ∈ pl_log pl \/ exists t, running pl t /\ (Some t, AAllocate uri x) ∈ pl_log pl.
Proof.
  intros Hr Hx.
  destruct (relay_logged order ask askRegister uri_of remote_of endpoint tenant forward id region t0 uri_ok order_ok pl Hr)
    as [_ _ Ha _]. apply Ha, allocs_support in Hx as (l1 & a & l2 & E & [uri ->] & Hl2). exists uri.
  destruct (held_or_released pl _ (AForget x) l1 l2 Hr E) as [Hin|(t & g & f & Hl & Hin)]; [done|done|by left|].
  right. exists t. split; [by exists g, f|done].
Qed.

Lemma idle_gauge pl : relay_run pl -> (forall t, ~ running pl t) -> gauge_of (pl_state pl) = 0.
Proof.
  intros Hr Hno.
  destruct (relay_logged order ask askRegister uri_of remote_of endpoint tenant forward id region t0 uri_ok order_ok pl Hr)
    as [_ Hg _ _]. rewrite Hg. apply gauge_zero. intros [t|].
  - destruct (pl_threads pl !! t) as [[g [[]|f]]|] eqn:Hl.
    + by eapply done_balanced.
    + exfalso. apply (Hno t). by exists g, f.
    + by rewrite (th_fresh _ _ _ _ _ pl (run_threads pl Hr) t Hl).
  - apply gauge_none. apply Forall_forall. intros a Ha'%own_elem.
    apply (relay_env_log order ask askRegister uri_of remote_of endpoint tenant forward id region t0 uri_ok order_ok) in Ha';
      [|done]. by destruct a.
Qed.

(** Without a running goroutine the tables are empty. *)
Lemma idle_tables pl : relay_run pl -> (forall t, ~ running pl t) ->
  sv_pairs (pl_state pl) = ∅ /\ gauge_of (pl_state pl) = 0 /\
  forall x, x ∈ allocs_of (pl_state pl) -> exists uri, (None, AAllocate uri x) ∈ pl_log pl.
Proof.
  intros Hr Hno. split_and!; [|by apply idle_gauge|].
  - apply map_empty. intros sid. apply eq_None_not_Some. intros [pair (t & Ht & _)%row_has_owner]; [|done]. by apply (Hno t).
  - intros x (uri & [Hx|(t & Ht & _)])%alloc_has_owner; [by exists uri|by destruct (Hno t)|done].
Qed.

(** C4: nothing outlives the stream that acquired it.  In every interleaving each
    row of the pair table was entered by a stream handler that is still running, and
    each live allocation by such a handler or by a FORWARD_RESUME grant, whose ids
    are left to the collector and to the end of the agent's session; and when no
    handler is running the gauge of active streams is zero. *)
Theorem relay_no_leaks pl :
  relay_run pl ->
  let s := pl_state pl in
  let running t := exists g f, pl_threads pl !! t = Some (g, Step f) in
  (forall sid pair, sv_pairs s !! sid = Some pair ->
     exists t, running t /\ ((Some t, ARecordPair sid pair) ∈ pl_log pl \/ (Some t, AReplacePair sid pair) ∈ pl_log pl)) /\
  (forall x, x ∈ allocs_of s -> exists uri,
     (None, AAllocate uri x) ∈ pl_log pl \/ exists t, running t /\ (Some t, AAllocate uri x) ∈ pl_log pl) /\
  ((forall t, ~ running t) -> gauge_of s = 0).
Proof.
  intros Hr s running. split_and!; intros *; [by apply row_has_owner|by apply alloc_has_owner|by apply idle_gauge].
Qed.

(** The part of a trace before the first record is there when the record is. *)
Lemma before_record (l more pre post : list action) a : is_record a = true -> a ∈ l -> none is_record pre ->
  l ++ more = pre ++ a :: post -> forall x, x ∈ pre -> x ∈ l.
Proof.
  intros Ha Hin Hn E. apply app_eq_app in E as (k & [[-> E]|[-> E]]); intros x Hx; [set_solver|].
  exfalso. assert (a ∉ l ++ k) by (by apply (none_not_in is_record)). set_solver.
Qed.

(** The policies behind a row that an opened stream entered. *)
Lemma row_allowed pl t an caller p sid pair : relay_run pl -> may_wait an = false ->
  pl_threads pl !! t = Some (GStream an caller, p) -> (Some t, ARecordPair sid pair) ∈ pl_log pl ->
  exists prov service method, pair = mkPair (uri_of caller) (uri_of prov) /\
    (tenant = true -> exists r1 r2,
       (Some t, AEvaluate (uri_of caller, service, method) r1) ∈ pl_log pl /\ res_Decision r1 = DecisionAllow /\
       (Some t, AEvaluate (uri_of prov, uri_of caller, method) r2) ∈ pl_log pl /\ res_Decision r2 = DecisionAllow).
Proof.
  intros Hr Hw Hl Hin.
  destruct (relay_finish order ask askRegister uri_of remote_of endpoint tenant forward id region t0 uri_ok order_ok
    pl t _ p Hr Hl (or_introl Hw)) as (pl' & Hr' & Hs & Hd).
  pose proof (threads_finished _ _ _ _ _ pl' t _ (run_threads pl' Hr') Hd) as Hp. simpl in Hp.
  destruct (own_tsteps pl pl' t Hs) as [more Hm]. apply own_elem in Hin. rewrite Hm in Hp.
  destruct (p_handler_rows _ _ _ _ _ _ _ Hp sid pair) as (pre & post & prov & service & method & E & Hn & -> & Hpol);
    [apply elem_of_app; by left|].
  exists prov, service, method. split; [done|]. intros (r1 & r2 & H1 & ? & H2 & ?)%Hpol.
  pose proof (before_record _ _ _ _ (ARecordPair sid (mkPair (uri_of caller) (uri_of prov))) eq_refl Hin Hn E) as Hpre.
  exists r1, r2. split_and!; try done; apply own_elem; by apply Hpre.
Qed.

(** Only the handlers of agents' streams enter rows. *)
Lemma row_by_stream pl t g f sid pair : relay_run pl -> pl_threads pl !! t = Some (g, Step f) ->
  (Some t, ARecordPair sid pair) ∈ pl_log pl -> waits g = false -> exists an caller, g = GStream an caller.
Proof.
  intros Hr Hl Hin Hw.
  destruct (relay_finish order ask askRegister uri_of remote_of endpoint tenant forward id region t0 uri_ok order_ok
    pl t g (Step f) Hr Hl (or_introl Hw)) as (pl' & Hr' & Hs & Hd).
  pose proof (threads_finished _ _ _ _ _ pl' t _ (run_threads pl' Hr') Hd) as Hp.
  destruct (own_tsteps pl pl' t Hs) as [more Hm]. apply own_elem in Hin.
  assert (ARecordPair sid pair ∈ own (Some t) (pl_log pl')) as Hin' by (rewrite Hm; apply elem_of_app; by left).
  destruct g as [an caller|an src o ok|attempts|d]; simpl in Hp; [by exists an, caller|..].
  - exfalso. revert Hin'. apply (none_not_in is_record); [|done]. by eapply p_forwarded_rows.
  - by rewrite Hp in Hin'; apply elem_of_nil in Hin'.
  - exfalso. revert Hin'. apply (none_not_in is_record); [|done].
    apply p_drain_plain in Hp. eapply Forall_impl; [exact Hp|]. by intros [].
Qed.

(** C7: a control frame reaches only the other end of a stream that the policies
    allow.  In every interleaving, if a candidate offer or answer or a checkpoint of a
    connection is passed on, then the connection was admitted under one end of the
    routing row of the frame's stream, the frame goes unchanged to the one connection
    the directory has for the other end, which was admitted under that URI, and a
    handler that is still running entered the row; unless that handler serves a
    resumed stream, it serves a stream of the consumer itself, toward the provider of
    the row, and if the relay has a policy both policies allowed it before. *)
Theorem relay_isolation pl cn m es s' to sid raw :
  relay_run pl -> relay_event_ok (pl_state pl) (RControl cn m) ->
  relay_exec (pl_state pl) (RControl cn m) = Some (Ret (es, s')) -> ARelayed cn to sid raw ∈ es ->
  exists uri peer pair pc pc' t g f,
    se_conns (sv_ss (pl_state pl)) !! cn = Some (uri, pc) /\ se_conns (sv_ss (pl_state pl)) !! to = Some (peer, pc') /\
    up pc' = true /\ es = [ARelayed cn to sid raw] /\ s' = pl_state pl /\
    sv_pairs (pl_state pl) !! sid = Some pair /\ (pair = mkPair uri peer \/ pair = mkPair peer uri) /\
    pl_threads pl !! t = Some (g, Step f) /\
    ((Some t, AReplacePair sid pair) ∈ pl_log pl \/
     (Some t, ARecordPair sid pair) ∈ pl_log pl /\
     (waits g = false -> exists an caller prov service method,
        g = GStream an caller /\ pair = mkPair (uri_of caller) (uri_of prov) /\
        (tenant = true -> exists r1 r2,
           (Some t, AEvaluate (uri_of caller, service, method) r1) ∈ pl_log pl /\ res_Decision r1 = DecisionAllow /\
           (Some t, AEvaluate (uri_of prov, uri_of caller, method) r2) ∈ pl_log pl /\ res_Decision r2 = DecisionAllow))).
Proof.
  intros Hr Hev Hx Hin. apply control_exec in Hx as (uri & pc & out & Hcn & _ & Hx & ->).
  destruct (relayed_frame _ _ _ _ _ _ _ _ _ _ _ Hx Hin) as (Hraw & -> & Hes).
  apply forward_frame_spec in Hraw as (pair & _ & Hpair & Hff & Hends).
  destruct (row_has_owner pl sid pair Hr Hpair) as (t & (g & f & Hl) & Hrow).
  pose proof (sess_reach_inv _ _ _ (ro_sessions _ _ _ _ _ _ _ (th_state _ _ _ _ _ pl (run_threads pl Hr)))) as Hsi.
  assert (exists peer pc', se_conns (sv_ss (pl_state pl)) !! to = Some (peer, pc') /\ up pc' = true /\
    (pair = mkPair uri peer \/ pair = mkPair peer uri)) as (peer & pc' & Hto & Hreg & Hp).
  { destruct pair as [cu pu]. simpl in Hends. destruct Hends as [[-> Hto]|[-> Hto]];
      destruct (si_entry _ Hsi _ _ Hto) as (pc' & ? & ?); eauto 8. }
  exists uri, peer, pair, pc, pc', t, g, f. split_and!; try done.
  destruct Hrow as [Hrec|Hrep]; [right|by left]. split; [done|]. intros Hw.
  destruct (row_by_stream pl t g f sid pair Hr Hl Hrec Hw) as (an & caller & ->).
  destruct (row_allowed pl t an caller (Step f) sid pair Hr Hw Hl Hrec) as (prov & service & method & ? & ?).
  by exists an, caller, prov, service, method.
Qed.

(** The relay can always finish its work.  In every state of every interleaving,
    a goroutine that does not wait (as [waits] says) can be run to
    its end by itself, whatever the others are doing, and has then kept its
    protocol; and if no unfinished goroutine is of the waiting kind, running them
    all empties the relay: no row is left in the pair table, no stream is counted
    as active, and no allocation is left but what FORWARD_RESUME granted. *)
Theorem relay_winds_down pl :
  relay_run pl ->
  (forall t g p, pl_threads pl !! t = Some (g, p) -> waits g = false ->
     exists pl', relay_run pl' /\ rtc (tstep t) pl pl' /\ pl_threads pl' !! t = Some (g, Done tt) /\
       goroutine_post g (own (Some t) (pl_log pl'))) /\
  ((forall t g p, pl_threads pl !! t = Some (g, p) -> waits g = false \/ p = Done tt) ->
     exists pl', relay_run pl' /\ scheduled pl pl' /\
       (forall t g p, pl_threads pl' !! t = Some (g, p) -> p = Done tt) /\
       sv_pairs (pl_state pl') = ∅ /\ gauge_of (pl_state pl') = 0 /\
       forall x, x ∈ allocs_of (pl_state pl') -> exists uri, (None, AAllocate uri x) ∈ pl_log pl').
Proof.
  intros Hr. pose proof (run_threads pl Hr) as Hok. split.
  - intros t g p Hl Hw. destruct (relay_finish order ask askRegister uri_of remote_of endpoint tenant forward id region t0 uri_ok order_ok
      pl t g p Hr Hl (or_introl Hw)) as (pl' & Hr' & Hs & Hd).
    exists pl'. split_and!; try done. eapply threads_finished; [by apply run_threads|done].
  - intros Hw. destruct (relay_finish_all order ask askRegister uri_of remote_of endpoint tenant forward id region t0
      uri_ok order_ok pl Hr Hw) as (pl' & Hr' & Hs & Hd).
    assert (forall t, ~ running pl' t) as Hno by (intros t (g & f & Hf); by apply Hd in Hf).
    exists pl'. split_and!; try done; by apply idle_tables.
Qed.

(** C5: where a verdict comes from.  However the handlers, the policy watcher's
    updates and its flushes interleave, when a handler is given a verdict for a
    request, then at some moment [pl0] of this very run the engine in force took
    that very decision for that very request, and it was stored at a moment [p]
    since, less than [CacheTTL] ago.  If the verdict is to allow, the controller had
    by then sent a rule that allows, whose patterns match this caller, target and
    method, and that had not expired; and the verdict is that rule's. *)
Theorem relay_verdicts pl t g f s' es p' k r :
  relay_run pl -> pl_threads pl !! t = Some (g, Step f) -> f (pl_state pl) = Ret (s', es, p') -> AEvaluate k r ∈ es ->
  exists pl0 e p,
    relay_run pl0 /\ rtc relay_step pl0 pl /\ sv_policy (pl_state pl0) = Some e /\
    r = decide_key e k (sv_now (pl_state pl0)) /\
    sv_now (pl_state pl0) <= p <= sv_now s' /\ sv_now s' < p + CacheTTL /\
    (res_Decision r = DecisionAllow ->
       exists rule, rule ∈ sv_received (pl_state pl0) /\ rule_Decision rule = DecisionAllow /\
         applicable k.1.1 k.1.2 k.2 (UnixMilli (sv_now (pl_state pl0))) rule /\ r = rule_result rule).
Proof.
  intros Hr Hl Hf Hin. pose proof (threads_next _ _ _ _ _ pl t g f (run_threads pl Hr) Hl) as Hn. rewrite Hf in Hn.
  destruct Hn as [_ He]. destruct (ef_verdicts _ _ _ He k r Hin) as (t1 & e & p & Hd & Hp).
  assert (exists pl0, relay_run pl0 /\ rtc relay_step pl0 pl /\ decided_now (pl_state pl0) (k, r, t1, e))
    as (pl0 & Hr0 & Hs0 & He0 & -> & Hk).
  { destruct (ef_decided _ _ _ He _ Hd) as [Hold|Hnew]; [|by exists pl].
    by apply (relay_decided order ask askRegister uri_of remote_of endpoint tenant forward id region t0 uri_ok order_ok). }
  exists pl0, e, p. split_and!; try done; [lia..|]. intros Ha.
  destruct (run_threads pl0 Hr0) as [Hok _ _]. destruct (ro_engine _ _ _ _ _ _ _ Hok e He0) as [Hinv Hrules].
  destruct k as [[caller target] method]. simpl in *. subst r.
  destruct (inv_has_rule _ _ _ _ _ Hinv Ha) as (rid & rule & Hrule & ?). exists rule. split; [by eapply Hrules|done].
Qed.


End Properties.

(** ** A run *)

#[export] Instance demo_enums : PBEnums := {|
  pb_P2P_FORBIDDEN := 1; pb_P2P_REQUIRED := 2; pb_RELAY_MODE_FORWARD := 1; pb_DECISION_DENY := 2
|}.

(** The controller's one rule: everything is allowed, in forward mode. *)
Definition demo_snapshot : attempt :=
  mkAttempt None [(ex_iter, RecvEvent (KindAdded (Some (mkPolicyRule "any" "*" "*" "*" 0 0 0 1))));
                  (ex_iter, RecvEvent KindSnapshotEnd)] 0 false 0.

Definition demo_run (ms : list move) : threads Server action goroutine :=
  let start := mkThreads (relay0 true true "r1" "kr" 0) ∅ [] in
  default start (@play ex_identity demo_enums ex_order (ex_ask "r1") (fun _ => None) ex_uri (fun _ => "192.0.2.1:9")
    "r1:4434" true ms start).

(** The policy arrives, two agents connect, one opens a stream to the other, ... *)
Definition demo_up : list move :=
  MoveStart 0 (GWatcher [demo_snapshot]) :: repeat (MoveThread 0) 6 ++
  [MoveEvent (RSession (SConnect 1 [["c"]] (Some "c") true)); MoveEvent (RSession (STrack 1));
   MoveEvent (RSession (SConnect 2 [["p"]] (Some "p") true)); MoveEvent (RSession (STrack 2));
   MoveStart 1 (GStream (ex_answers AckAccept ReplyAccept) 1)].

(** ... which is granted two ids; the consumer registers its own and punches. *)
Definition demo_nonce16 : bytes := repeat 7 16.
Definition demo_moves : list move :=
  demo_up ++ repeat (MoveThread 1) 35 ++
  [MoveEvent (RControl 1 (MForwardRegister 1 demo_nonce16));
   MoveEvent (RPlane (PPacket (repeat 0 7 ++ [1] ++ demo_nonce16) (addr "192.0.2.1" 4000) 3 3))].
Definition demo_pool : threads Server action goroutine := demo_run demo_moves.

(** Just before the handler has the consumer's policy evaluated. *)
Definition demo_before : threads Server action goroutine := demo_run (demo_up ++ repeat (MoveThread 1) 10).

#[local] Abbreviation demo_relay :=
  (@relay_run ex_identity demo_enums ex_order (ex_ask "r1") (fun _ => None) ex_uri (fun _ => "192.0.2.1:9") "r1:4434"
     true true "r1" "kr" 0).

#[local] Abbreviation demo_step :=
  (pstep (@goroutine_body ex_identity demo_enums ex_order (ex_ask "r1") ex_uri "r1:4434") (may_start true)
     (@relay_env ex_identity (fun _ => None) ex_uri (fun _ => "192.0.2.1:9") "r1:4434")).

Lemma ex_iter_ok : iter_ok ex_iter.
Proof. intros m. done. Qed.

Lemma demo_ok ms :
  Forall move_ok ms -> is_Some (@play ex_identity demo_enums ex_order (ex_ask "r1") (fun _ => None) ex_uri (fun _ => "192.0.2.1:9")
    "r1:4434" true ms (mkThreads (relay0 true true "r1" "kr" 0) ∅ [])) -> demo_relay (demo_run ms).
Proof. intros Hms. apply play_reach; [done|]. constructor. Qed.

Ltac demo_runs := apply demo_ok; [repeat constructor; apply ex_iter_ok|apply (bool_decide_eq_true_1 _); vm_compute; reflexivity].

Lemma demo_pool_run : demo_relay demo_pool.
Proof. demo_runs. Qed.

Lemma demo_before_run : demo_relay demo_before.
Proof. demo_runs. Qed.

Lemma ex_order_ok : key_order_ok ex_order.
Proof. intros m. done. Qed.


Lemma relay_safe_witness :
  (forall t g p, pl_threads demo_pool !! t = Some (g, p) ->
     match p with
     | Done _ => goroutine_post ex_uri "r1:4434" true g (own (Some t) (pl_log demo_pool))
     | Step f =>
         match f (pl_state demo_pool) with
         | Ret _ => True
         | Blocked => waits g = true
         | Panic _ | OutOfFuel => False
         end
     end) /\
  (forall ev out, @relay_event_ok ex_identity ex_uri (pl_state demo_pool) ev ->
     @relay_exec ex_identity (fun _ => None) ex_uri (fun _ => "192.0.2.1:9") "r1:4434" (pl_state demo_pool) ev = Some out ->
     exists r, out = Ret r).
Proof. eapply (relay_safe _ _ _ _ _ _ _ _ _ _ _ ex_uri_ok ex_order_ok demo_pool demo_pool_run). Defined.

Lemma relay_no_leaks_witness :
  let s := pl_state demo_pool in
  let running t := exists g f, pl_threads demo_pool !! t = Some (g, Step f) in
  (forall sid pair, sv_pairs s !! sid = Some pair ->
     exists t, running t /\
       ((Some t, ARecordPair sid pair) ∈ pl_log demo_pool \/ (Some t, AReplacePair sid pair) ∈ pl_log demo_pool)) /\
  (forall x, x ∈ allocs_of s -> exists uri,
     (None, AAllocate uri x) ∈ pl_log demo_pool \/ exists t, running t /\ (Some t, AAllocate uri x) ∈ pl_log demo_pool) /\
  ((forall t, ~ running t) -> gauge_of s = 0).
Proof. eapply (relay_no_leaks _ _ _ _ _ _ _ _ _ _ _ ex_uri_ok ex_order_ok demo_pool demo_pool_run). Defined.

(** The watcher has ended with the process's context; the stream is under way. *)
Definition demo_last : attempt :=
  mkAttempt None (at_recvs demo_snapshot ++ [(ex_iter, RecvEOF)]) 0 true 0.
Definition demo_quiet : threads Server action goroutine :=
  demo_run ([MoveStart 0 (GWatcher [demo_last])] ++ repeat (MoveThread 0) 7 ++
    skipn 7 demo_up ++ repeat (MoveThread 1) 35).

Definition ended (x : nat * (goroutine * M unit)) : bool :=
  negb (waits x.2.1) || match x.2.2 with Done _ => true | Step _ => false end.

Lemma demo_quiet_run : demo_relay demo_quiet.
Proof. demo_runs. Qed.

Lemma demo_quiet_ended t g p : pl_threads demo_quiet !! t = Some (g, p) -> waits g = false \/ p = Done tt.
Proof.
  intros Hl. assert (forallb ended (map_to_list (pl_threads demo_quiet)) = true) as Hall by (vm_compute; reflexivity).
  rewrite forallb_forall in Hall. specialize (Hall (t, (g, p))).
  rewrite <- list_elem_of_In, elem_of_map_to_list in Hall. specialize (Hall Hl). unfold ended in Hall. simpl in Hall.
  destruct (waits g), p as [[]|]; auto.
Qed.

Lemma relay_winds_down_witness :
  is_Some (sv_pairs (pl_state demo_quiet) !! 7) /\
  exists pl', demo_relay pl' /\ scheduled demo_quiet pl' /\
    (forall t g p, pl_threads pl' !! t = Some (g, p) -> p = Done tt) /\
    sv_pairs (pl_state pl') = ∅ /\ gauge_of (pl_state pl') = 0 /\
    forall x, x ∈ allocs_of (pl_state pl') -> exists uri, (None, AAllocate uri x) ∈ pl_log pl'.
Proof.
  split; [apply (bool_decide_eq_true_1 _); vm_compute; reflexivity|].
  apply (relay_winds_down _ _ _ _ _ _ _ _ _ _ _ ex_uri_ok ex_order_ok demo_quiet demo_quiet_run), demo_quiet_ended.
Defined.

(** The next step of a goroutine, by the events it emits. *)
Definition next_events (pl : threads Server action goroutine) (t : nat) : option (list action) :=
  match pl_threads pl !! t with
  | Some (_, Step f) => match f (pl_state pl) with Ret (_, es, _) => Some es | _ => None end
  | _ => None
  end.

Lemma next_events_step pl t es : next_events pl t = Some es ->
  exists g f s' p', pl_threads pl !! t = Some (g, Step f) /\ f (pl_state pl) = Ret (s', es, p').
Proof.
  unfold next_events. destruct (pl_threads pl !! t) as [[g [|f]]|]; try done.
  destruct (f (pl_state pl)) as [[[s' es'] p']| | |] eqn:E; try done. intros [= <-]. by exists g, f, s', p'.
Qed.

Definition demo_verdict : Result := mkResult DecisionAllow "any" P2PModeAllowed RelayModeForward.

Lemma relay_verdicts_witness :
  exists g f s' p', pl_threads demo_before !! 1%nat = Some (g, Step f) /\
    f (pl_state demo_before) = Ret (s', [AEvaluate ("c", "s", "m") demo_verdict], p') /\
    exists pl0 e p,
      demo_relay pl0 /\ rtc demo_step pl0 demo_before /\ sv_policy (pl_state pl0) = Some e /\
      demo_verdict = decide_key e ("c", "s", "m") (sv_now (pl_state pl0)) /\
      sv_now (pl_state pl0) <= p <= sv_now s' /\ sv_now s' < p + CacheTTL /\
      (res_Decision demo_verdict = DecisionAllow ->
         exists rule, rule ∈ sv_received (pl_state pl0) /\ rule_Decision rule = DecisionAllow /\
           applicable "c" "s" "m" (UnixMilli (sv_now (pl_state pl0))) rule /\ demo_verdict = rule_result rule).
Proof.
  destruct (next_events_step demo_before 1 [AEvaluate ("c", "s", "m") demo_verdict]) as (g & f & s' & p' & Hl & E).
  { vm_compute. reflexivity. }
  exists g, f, s', p'. split; [exact Hl|]. split; [exact E|].
  eapply (relay_verdicts _ _ _ _ _ _ _ _ _ _ _ ex_uri_ok ex_order_ok demo_before 1 g f s' _ p' ("c", "s", "m") demo_verdict
    demo_before_run Hl E).
  apply elem_of_cons. left. reflexivity.
Defined.

Definition demo_plane_of : Plane := default NewPlane (sv_forward (pl_state demo_pool)).


(** The frames a control event passes on. *)
Definition passed_on (x : option (exec (list action * Server))) : option (list action) :=
  match x with Some (Ret (es, _)) => Some es | _ => None end.

Lemma passed_on_Some x es : passed_on x = Some es -> exists s', x = Some (Ret (es, s')).
Proof. destruct x as [[[es' s']| | |]|]; simpl; try done. intros [= ->]. eauto. Qed.

Lemma relay_isolation_witness :
  exists s', @relay_exec ex_identity (fun _ => None) ex_uri (fun _ => "192.0.2.1:9") "r1:4434" (pl_state demo_pool)
      (RControl 1 (MCandidateOffer 7 [9])) = Some (Ret ([ARelayed 1 2 7 [9]], s')) /\
  exists uri peer pair pc pc' t g f,
    se_conns (sv_ss (pl_state demo_pool)) !! 1%nat = Some (uri, pc) /\
    se_conns (sv_ss (pl_state demo_pool)) !! 2%nat = Some (peer, pc') /\
    up pc' = true /\ [ARelayed 1 2 7 [9]] = [ARelayed 1 2 7 [9]] /\ s' = pl_state demo_pool /\
    sv_pairs (pl_state demo_pool) !! 7 = Some pair /\ (pair = mkPair uri peer \/ pair = mkPair peer uri) /\
    pl_threads demo_pool !! t = Some (g, Step f) /\
    ((Some t, AReplacePair 7 pair) ∈ pl_log demo_pool \/
     (Some t, ARecordPair 7 pair) ∈ pl_log demo_pool /\
     (waits g = false -> exists an caller prov service method,
        g = GStream an caller /\ pair = mkPair (ex_uri caller) (ex_uri prov) /\
        (true = true -> exists r1 r2,
           (Some t, AEvaluate (ex_uri caller, service, method) r1) ∈ pl_log demo_pool /\ res_Decision r1 = DecisionAllow /\
           (Some t, AEvaluate (ex_uri prov, ex_uri caller, method) r2) ∈ pl_log demo_pool /\ res_Decision r2 = DecisionAllow))).
Proof.
  destruct (passed_on_Some (@relay_exec ex_identity (fun _ => None) ex_uri (fun _ => "192.0.2.1:9") "r1:4434" (pl_state demo_pool)
    (RControl 1 (MCandidateOffer 7 [9]))) [ARelayed 1 2 7 [9]]) as [s' E]; [vm_compute; reflexivity|].
  exists s'. split; [exact E|].
  eapply (relay_isolation _ _ _ _ _ _ _ _ _ _ _ ex_uri_ok ex_order_ok demo_pool 1 _ _ s' 2 7 [9] demo_pool_run _ E).
  apply elem_of_cons. left. reflexivity.
  Unshelve. exact Logic.I.
Defined.

(** ** Resumed streams and the policy *)

(** The controller's one rule denies everything; two agents name the same stream. *)
Definition deny_snapshot : attempt :=
  mkAttempt None [(ex_iter, RecvEvent (KindAdded (Some (mkPolicyRule "none" "*" "*" "*" 2 0 0 0))));
                  (ex_iter, RecvEvent KindSnapshotEnd)] 0 false 0.
Definition resume_answers : answers :=
  mkAnswers (FrResume (Some (mkResumeMsg 7 0 0))) true AckAccept true true true true true ReplyAccept true 100.
Definition demo_denied : threads Server action goroutine :=
  demo_run (MoveStart 0 (GWatcher [deny_snapshot]) :: repeat (MoveThread 0) 6 ++ skipn 7 (firstn 11 demo_up) ++
    [MoveStart 1 (GStream resume_answers 1); MoveStart 2 (GStream resume_answers 2)] ++
    repeat (MoveThread 1) 4 ++ repeat (MoveThread 2) 6).

(** Whether the relay's engine denies a request at its time. *)
Definition denies (s : Server) (k : cacheKey) : bool :=
  match sv_policy s with
  | Some e => bool_decide (res_Decision (decide_key e k (sv_now s)) = DecisionDeny)
  | None => false
  end.

(** STREAM_RESUME connects agents that the policy keeps apart.  On a relay whose policy
    denies every request between two agents, neither of which ever opened a stream, a
    STREAM_RESUME of each for the same id is matched, spliced and given a routing row,
    and no policy is evaluated: neither the resume handler nor the matcher knows
    whether the stream existed. *)
Theorem resume_skips_policy :
  demo_relay demo_denied /\
  denies (pl_state demo_denied) ("c", "p", "m") = true /\ denies (pl_state demo_denied) ("p", "c", "m") = true /\
  pl_log demo_denied =
    [(Some 1%nat, AGauge 1); (Some 1%nat, ASubmit 0); (Some 2%nat, AGauge 1); (Some 2%nat, ASubmit 1);
     (Some 2%nat, AReplacePair 7 (mkPair "p" "c")); (Some 2%nat, ASplice)].
Proof.
  split; [demo_runs|].
  split_and!; vm_compute; reflexivity.
Qed.
