(* ===== verification/RelayLive.v ===== *)
(** * RelayLive: what eventually happens in the relay

    Infinite executions of the goroutines of [Relay], in which every goroutine that
    can move is given a turn again and again: handlers end, the caller of a stream is
    answered, a relay that gets no new work becomes idle, and a drain with a deadline
    ends after telling every agent it found. *)

From S2P Require Import Prelude Threads GoNet PolicyMatcher PolicyCache PolicyWatch ForwardPlane ForwardCtrl EdgeTables.
From S2P Require Import ResumeMatcher Registry AuditQueue Intra Operations ServerState OpenStream OpenSpec DrainLoop.
From S2P Require Import OpenProps Control Relay RelayProps.

Section Live.
Context {ID : Identity} `{PBEnums}.
Context (order : gmap cacheKey cacheEntry -> list cacheKey).
Context (ask : ResolveRequest -> option (list ProviderInfo)).
Context (askRegister : RegisterServiceRequest -> option string).
Context (uri_of remote_of : nat -> string) (endpoint : string).
Context (tenant forward : bool) (id region : string) (t0 : Time).
Hypothesis uri_ok : forall n, uri_of n <> "".
Hypothesis order_ok : key_order_ok order.

#[local] Abbreviation body := (goroutine_body order ask uri_of endpoint).
#[local] Abbreviation env := (relay_env askRegister uri_of remote_of endpoint).
#[local] Abbreviation relay_run :=
  (relay_run order ask askRegister uri_of remote_of endpoint tenant forward id region t0).
#[local] Abbreviation relay_ok := (relay_ok endpoint tenant forward id region t0).
#[local] Abbreviation goroutine_post := (goroutine_post uri_of endpoint tenant).

(** The states of the relay one after the other, from one of a run, with a turn for
    every goroutine that can move. *)
Record fair_run (e : nat -> threads Server action goroutine) : Prop := {
  fr_start : relay_run (e 0%nat);
  fr_steps : execution body (may_start tenant) env e;
  fr_fair : fair waits e
}.

Lemma fair_run_reach e n : fair_run e -> relay_run (e n).
Proof. intros [H0 He _]. by apply (execution_reach body (may_start tenant) env). Qed.

Lemma live_threads pl : relay_run pl -> threads_ok relay_ok rely effect waits goroutine_post pl.
Proof. by apply relay_threads. Qed.


(** C9: a drain ends and leaves no agent out.  In every fair execution, a drain whose
    timer fires, or whose process ends, terminates.  It has looked at the live agents,
    sent every one of them the same GOAWAY, or closed its link where the frame could
    not be written, and then polled until there were none, until it was cancelled, or
    until the deadline, when it closed the links of those left.  Every one of its
    looks found exactly the connections that were between registration and teardown
    at some moment of the execution, and the targets it told, unless its caller named
    them, were the relay's successors at some moment. *)
Theorem relay_drains e n t d p :
  fair_run e -> own (Some t) (pl_log (e 0%nat)) = [] ->
  pl_threads (e n) !! t = Some (GDrain d, p) -> timed d = true ->
  exists m, (n <= m)%nat /\ pl_threads (e m) !! t = Some (GDrain d, Done tt) /\
    p_drain d (own (Some t) (pl_log (e m))) /\
    (forall l, ALive l ∈ own (Some t) (pl_log (e m)) -> NoDup l /\ exists k, (k <= m)%nat /\
       forall cn, cn ∈ l <-> exists uri, se_conns (sv_ss (pl_state (e k))) !! cn = Some (uri, CLive)) /\
    (forall l, ASuccessors l ∈ own (Some t) (pl_log (e m)) -> exists k, (k <= m)%nat /\ l = Successors (pl_state (e k))).
Proof.
  intros Hf H0 Hl Ht.
  destruct (fair_ends body (may_start tenant) env waits e n t (GDrain d) p) as (m & Hm & Hd);
    [apply Hf..|done|by simpl; rewrite Ht|].
  assert (Hev : forall a, a ∈ own (Some t) (pl_log (e m)) -> exists k, (k <= m)%nat /\ relay_run (e k) /\ seen (pl_state (e k)) a).
  { intros a Ha%own_elem.
    destruct (relay_event_step order ask askRegister uri_of remote_of endpoint tenant forward id region t0 uri_ok order_ok
      e m t a (fr_steps e Hf) (fr_start e Hf) Ha) as (k & es & Hk & Hin & HG).
    { rewrite <- own_elem, H0. by intros ?%elem_of_nil. }
    exists (S k). split; [lia|]. split; [by apply fair_run_reach|].
    pose proof (ef_seen _ _ _ HG) as Hs. rewrite Forall_forall in Hs. by apply Hs. }
  exists m. split_and!; try done.
  - pose proof (threads_finished _ _ _ _ _ (e m) t _ (live_threads _ (fair_run_reach e m Hf)) Hd) as Hp. exact Hp.
  - intros l (k & Hk & Hr & E)%Hev. simpl in E. unfold liveAgents in E. subst l.
    split; [apply NoDup_elements|]. exists k. split; [done|]. intros cn. rewrite elem_of_elements.
    apply si_agents. eapply sess_reach_inv.
    apply (ro_sessions _ _ _ _ _ _ _ (th_state _ _ _ _ _ _ (live_threads _ Hr))).
  - intros l (k & Hk & Hr & E)%Hev. by exists k.
Qed.


(** ** Executions of one goroutine *)

Definition solo (t : nat) (pl : threads Server action goroutine) (n : nat) : threads Server action goroutine :=
  Nat.iter n (advance t) pl.

Lemma solo_threads t pl n g p : pl_threads pl !! t = Some (g, p) ->
  (exists p', pl_threads (solo t pl n) !! t = Some (g, p')) /\
  (forall u, u <> t -> pl_threads (solo t pl n) !! u = pl_threads pl !! u) /\
  dom (pl_threads (solo t pl n)) = dom (pl_threads pl).
Proof.
  intros Hl. assert (Hn : (exists p', pl_threads (solo t pl n) !! t = Some (g, p')) /\
    (forall u, u <> t -> pl_threads (solo t pl n) !! u = pl_threads pl !! u)).
  { induction n as [|n [[p' IH1] IH2]]; [by eauto|]. unfold solo in *. simpl. split.
    - by eapply advance_label.
    - intros u Hu. rewrite advance_others by done. auto. }
  destruct Hn as [[p' H1] H2]. split_and!; eauto. apply set_eq. intros u. rewrite !elem_of_dom.
  destruct (decide (u = t)) as [->|Hu]; [rewrite H1, Hl; by split; eauto|by rewrite H2].
Qed.

Lemma solo_fair t pl g p : relay_run pl -> pl_threads pl !! t = Some (g, p) -> waits g = false ->
  (forall u l q, pl_threads pl !! u = Some (l, q) -> u <> t -> q = Done tt) -> fair_run (solo t pl).
Proof.
  intros Hr Hl Hw Hd.
  assert (He : execution body (may_start tenant) env (solo t pl)).
  { intros n. unfold solo. simpl. destruct (advance_step t (Nat.iter n (advance t) pl)) as [|Hs]; [by left|].
    right. by eapply tstep_pstep. }
  split; [done..|]. intros n u l f Hu Hwl. exists n. split; [done|].
  destruct (solo_threads t pl n g p Hl) as ([p' H1] & H2 & _).
  destruct (decide (u = t)) as [->|Hne]; [|rewrite H2 in Hu by done; by apply Hd in Hu].
  pose proof (threads_next _ _ _ _ _ _ t l f (live_threads _ (execution_reach _ _ _ _ _ n He Hr)) Hu) as Hn.
  destruct (f (pl_state (solo t pl n))) as [[[s' es] q]| | |] eqn:Ef; try done; [|by rewrite Hwl in Hn].
  unfold solo in *. simpl. unfold advance at 2. rewrite Hu, Ef. by eapply ts_step.
Qed.

End Live.

(** ** Runs *)

#[local] Abbreviation demo_fair :=
  (@fair_run ex_identity demo_enums ex_order (ex_ask "r1") (fun _ => None) ex_uri (fun _ => "192.0.2.1:9") "r1:4434"
     true true "r1" "kr" 0).

(** All goroutines but one have ended. *)
Lemma others_done pl t :
  forallb (fun x : nat * (goroutine * M unit) => (x.1 =? t)%nat || match x.2.2 with Done _ => true | Step _ => false end)
    (map_to_list (pl_threads pl)) = true ->
  forall u l q, pl_threads pl !! u = Some (l, q) -> u <> t -> q = Done tt.
Proof.
  intros Hall u l q Hl Hne. rewrite forallb_forall in Hall. specialize (Hall (u, (l, q))).
  rewrite <- list_elem_of_In, elem_of_map_to_list in Hall. specialize (Hall Hl). simpl in Hall.
  destruct (Nat.eqb_spec u t); [done|]. by destruct q as [[]|].
Qed.

Definition label_of (pl : threads Server action goroutine) (t : nat) : option goroutine := fst <$> pl_threads pl !! t.

Lemma label_of_Some pl t g : label_of pl t = Some g -> exists p, pl_threads pl !! t = Some (g, p).
Proof. unfold label_of. destruct (pl_threads pl !! t) as [[g' p]|]; simpl; [|done]. intros [= ->]. eauto. Qed.

(** The watcher has ended; the stream's handler is given all the turns. *)
Lemma demo_quiet_fair : demo_fair (solo 1 demo_quiet).
Proof.
  destruct (label_of_Some demo_quiet 1 (GStream (ex_answers AckAccept ReplyAccept) 1)) as [p Hl]; [vm_compute; reflexivity|].
  eapply (solo_fair ex_order (ex_ask "r1") (fun _ => None) ex_uri (fun _ => "192.0.2.1:9") "r1:4434" true true "r1" "kr" 0
    ex_uri_ok ex_order_ok 1 demo_quiet _ p demo_quiet_run Hl eq_refl).
  apply others_done. vm_compute. reflexivity.
Qed.

Lemma demo_quiet_dom k : dom (pl_threads (solo 1 demo_quiet (k + 0))) = dom (pl_threads (solo 1 demo_quiet 0)).
Proof.
  destruct (label_of_Some demo_quiet 1 (GStream (ex_answers AckAccept ReplyAccept) 1)) as [p Hl]; [vm_compute; reflexivity|].
  by destruct (solo_threads 1 demo_quiet (k + 0) _ _ Hl) as (_ & _ & ->).
Qed.



(** Two agents are live; one cannot be written to, and neither leaves in time. *)
Definition demo_drain : drain_call := mkDrain [] "" 0 (fun ac => (ac =? 1)%nat) [WakePoll; WakeTimeout].
Definition demo_draining : threads Server action goroutine :=
  demo_run [MoveEvent (RSession (SConnect 1 [["c"]] (Some "c") true)); MoveEvent (RSession (STrack 1));
            MoveEvent (RSession (SConnect 2 [["p"]] (Some "p") true)); MoveEvent (RSession (STrack 2));
            MoveEvent (RSuccessors ["r3:443"]); MoveStart 1 (GDrain demo_drain)].

Lemma demo_draining_label : label_of demo_draining 1 = Some (GDrain demo_drain).
Proof. vm_compute. reflexivity. Qed.

Lemma demo_draining_fair : demo_fair (solo 1 demo_draining).
Proof.
  destruct (label_of_Some demo_draining 1 _ demo_draining_label) as [p Hl].
  eapply (solo_fair ex_order (ex_ask "r1") (fun _ => None) ex_uri (fun _ => "192.0.2.1:9") "r1:4434" true true "r1" "kr" 0
    ex_uri_ok ex_order_ok 1 demo_draining _ p _ Hl eq_refl).
  apply others_done. vm_compute. reflexivity.
  Unshelve. demo_runs.
Qed.

Lemma relay_drains_witness :
  own (Some 1%nat) (pl_log (solo 1 demo_draining 20)) =
    (let f := goaway [] ["r3:443"] "" 0 in
     [ASuccessors ["r3:443"]; ALive [2; 1]%nat; ACloseConn 2; AGoaway 1 f; ALive [2; 1]%nat; ALive [2; 1]%nat;
      ACloseConn 2; ACloseConn 1]) /\
  exists m, (0 <= m)%nat /\ pl_threads (solo 1 demo_draining m) !! 1%nat = Some (GDrain demo_drain, Done tt) /\
    p_drain demo_drain (own (Some 1%nat) (pl_log (solo 1 demo_draining m))) /\
    (forall l, ALive l ∈ own (Some 1%nat) (pl_log (solo 1 demo_draining m)) -> NoDup l /\ exists k, (k <= m)%nat /\
       forall cn, cn ∈ l <-> exists uri, se_conns (sv_ss (pl_state (solo 1 demo_draining k))) !! cn = Some (uri, CLive)) /\
    (forall l, ASuccessors l ∈ own (Some 1%nat) (pl_log (solo 1 demo_draining m)) ->
       exists k, (k <= m)%nat /\ l = Successors (pl_state (solo 1 demo_draining k))).
Proof.
  split; [vm_compute; reflexivity|]. destruct (label_of_Some demo_draining 1 _ demo_draining_label) as [p Hl].
  apply (relay_drains _ _ _ _ _ _ _ _ _ _ _ ex_uri_ok ex_order_ok (solo 1 demo_draining) 0 1 demo_drain p demo_draining_fair);
    [vm_compute; reflexivity|exact Hl|reflexivity].
Defined.
